(* ===== verification/_CoqProject ===== *)
-Q . S2P
Prelude.v
GoBinary.v
Pack.v
ValueList.v
ValueHash.v
ValueSet.v
Float64.v
Skiplist.v
ValueZSet.v
GoTime.v
Value.v
Keyspace.v
Shard.v
Expiry.v
Locking.v
Strconv.v
Resp.v
Config.v
Command.v
Session.v
CommandSpec.v
CollectionSpec.v
Registry.v
Locality.v
Codec.v
Store.v
Faults.v
Names.v
Flushed.v
ServerLocks.v
Server.v
Replay.v
Growth.v
Concurrent.v
Restart.v
Shutdown.v
Incidents.v
Serve.v
Degraded.v
Connection.v
Process.v
Metering.v
Client.v
Memcored.v
Flags.v
