(* ===== verification/Prelude.v ===== *)
(** * Memcore: a verification library (root file)

    Memcore is a Redis-compatible in-memory key-value server. A connection's
    goroutine ([serve], conn.go) reads RESP requests ([resp.Reader]), resolves
    each in a command table ([command.Registry]), takes the locks of the shards
    its keys live in ([shard.DB]), runs its handler on the key spaces of those
    shards ([keyspace.Keyspace], values from internal/value), appends a write
    that succeeded to the append log ([persistence.Store]) and writes the reply.
    Beside it run the expiry loop, the reaper, the flush timer and compaction,
    which snapshots every database and rotates the log. At start the latest
    snapshot is restored and the log behind it replayed.

    ** The files and the code they model

    - Prelude: bytes, the outcome monad ([Ret], [Panic], [Diverge]), 64-bit
      wrap-around, slices, iteration orders, and [Simulates], the interface by
      which a component's operations refine an abstract machine.
    - GoBinary, Strconv, Float64, GoTime: what the code uses of encoding/binary,
      strconv, float64 comparison, time, and internal/clock's [ManualClock].
    - Pack, ValueList, ValueHash, ValueSet, Skiplist, ValueZSet, Value:
      internal/value. Each collection has the packed byte string and the promoted
      structure of the source (linked nodes, maps, the skip list with its towers).
    - Keyspace, Shard, Expiry: internal/keyspace, internal/shard,
      internal/expiry. [ExpiringStore] (Keyspace) is the contract a key space
      and a sharded database both discharge.
    - Locking, ServerLocks: goroutines over readers-writer locks, and the lock
      sections the shard, the server and the store take.
    - Resp: internal/resp and the framing of clients/go. Config: internal/config.
    - Command: internal/command's handlers and sessions, one definition each.
      Session, CommandSpec, CollectionSpec, Registry, Locality: what sessions
      represent, what commands mean, the table, and which keys a command touches.
    - Codec, Store: internal/persistence's formats, then the store and recovery
      over a directory of files of which a part is synced. Faults: the same store
      when its system calls can fail; Degraded: the server on it. Names: the file
      names of the directory. Flushed: what the flush timer makes safe.
    - Server: conn.go's [dispatch], [execute], [persistArgs] and server.go's
      recovery, compaction and shutdown of persistence. Replay, Restart and
      Shutdown: the log replayed gives the same stores, a server restarted holds
      them, and so does one that was shut down. Growth: how much a
      command can add to a store. Concurrent: commands that run at the same time.
      Incidents: runs of the whole server. Serve: the connection loop, the accept
      loop and shutdown. Connection: a whole connection against the machine
      that runs its requests by their meaning. Process: [run] of main.go from its
      accept loop to its exit, with all that runs beside it. Metering:
      internal/metrics' collectors over an interface of the Prometheus client
      ([Prometheus], with its documented laws [PrometheusLaws]). Client: the
      Go client's calls, end to end, and its example program. Memcored: the
      start-up of cmd/memcored and its health check. Flags: its command line.

    State is passed explicitly. A Go panic is the outcome [Panic], an error a
    value. An [int] is a [Z] with its wrap-around written where it can occur. A
    handler runs in the monad [cmd], a state monad over its session, in which
    every question to the environment (a clock reading, coin flips of the skip
    list, the iteration order of a map) takes the next answer of [Env]; nothing
    is assumed of the answers but that the clock does not run backwards. The hash
    of internal/shard, [ParseFloat], [FormatFloat] and [%q] are parameters;
    [parses_f64] says that a parsed number is a 64-bit pattern.

    ** What the theorems show

    - The whole ([Connection.connection_refines]): the bytes a client gets for the
      bytes it sends are the replies of a machine that runs its requests by their
      meaning, SELECT and CONFIG among them, and the stores are left as the machine
      leaves them; [Connection.serve_terminates]: the loop ends on every input.
      [Process.process_saves]: so it is for all connections together, while loops
      and compactions run beside them; the process only exits with status 0, and
      then, if its databases fit the format of a snapshot, its stores can be
      restored from the directory. [Process.process_stops]: after a signal the
      steps that need no client lead to that exit in whatever order they are
      taken, and no connection is served any more.
      [Process.no_empty_collections]: no lookup in a run finds an empty collection.
    - The server ([Replay.request_served]): a request is answered as its command
      means, a read or an error changes nothing, and exactly a successful write is
      logged. [Restart.restart_restores]: under the [always] policy, at any moment
      of a life of requests, flushes and compactions from an empty directory, a
      power loss and a restart bring back the stores, each deadline to within the
      time a command took between its clock readings, as long as no deadline falls
      due before the recovery ends and what was captured fits the format.
      [Client.client_set_get]: what a client stores it reads back, through every
      layer.
    - Commands ([Registry.dispatch_refines]): every handler refines its meaning
      on the abstract stores, on every branch. They touch only the keys they
      declare, and the table is complete.
    - Concurrency: a command locks exactly the shards of its keys, in order, on
      both paths ([Server.execute_locks_exact]); no deadlock ([ServerLocks]); and in
      every interleaving of reads and single-key writes under the locks, the
      commands in the order they were recorded, run one after the other, give the
      same replies and stores ([Concurrent.commands_linearizable]), which is what
      lets the other files treat a command as one step, and the log stand for what
      happened.
    - Data: each collection refines a list, map, set or scored map whatever its
      encoding; the key space and the sharded database refine a map whose entries
      vanish at their deadlines; expiry changes nothing a reader can see.
    - Durability ([Store], [Codec]): values and snapshots survive the disk; at
      every moment of appends, rotations and installations a crash leaves a
      directory from which the commands are recovered once each, up to a tail that
      was not yet written ([Store.crash_recovery]); with [always] none is missing
      ([Store.always_durable]), and with any policy only what came after the last
      flush ([Flushed.flushed_survives]). A life goes on after such a crash as long
      as no segment was left torn; [Store.reopened_torn_log_corrupts] is what
      happens after one. [Faults]: with system calls that can fail the store is the
      same as long as none does, and after one failed write it does nothing until
      a restart, while the clients see no difference ([Degraded.disk_errors_unseen]).
      [Names]: a segment's name and its generation determine each other.
    - Connections ([Serve], [Resp]): requests and replies round trip.
      [Metering.connection_metered]: the metrics count every command once.
      [Flags]: the command line sets what it names, the program comes up from it,
      and its own health check passes.
    - Where the code does not do what it means to: an expired key revived by a
      restart ([Restart.replay_revives_expired]), a torn log corrupted by the next
      append, a gap left by a rotation, deadlines misread from a snapshot
      ([Restart.snapshot_deadline]), replies held back by an incomplete request
      ([Serve.partial_request_holds_reply]), a reply split by a line break, a
      threshold that wraps, a score that depends on the encoding, a log that one
      write error ends, a shutdown that a client can hold up.

    ** Fuel

    Recursion that is not structural takes fuel, and running out is [Diverge].
    Every use passes a bound computed from the input (the bytes left for readers
    and the connection loop, the length of the list for pops, the number of bits
    for varints), and the theorems state [Ret], so none runs out.

    ** Not modelled

    What the metrics endpoint answers to a scrape (promhttp and net/http), the
    delivery of a signal (it arrives as a step of Process), the clients in other
    languages, and log lines other than the slow log and the failures of the
    metrics server. Sockets are byte strings: a write to one that fails ends a
    connection and takes no part in the state, and a write that blocks is not
    told from one that does not, so [process_stops] speaks of connections whose
    clients take their replies, and of a scheduler that does not starve a
    goroutine. Disk operations fail in Faults and Degraded only;
    elsewhere they succeed, other than by crashes. A rename and the creation of a
    file are durable at once. What a handler has changed when it panics is a
    parameter ([wreck]). The theorems on runs of the process keep to what the
    machine can hold ([within_machine]: the sizes of slices, the generations of
    the log). *)

From Stdlib Require Export ZArith Lia.
From Stdlib Require Import Strings.Byte Zbitwise.
From stdpp Require Export prelude gmap sorting strings.

#[global] Open Scope Z_scope.

(** ** Bytes

    A Go [byte] is Rocq's 256-constructor [byte]; a [[]byte] or a Go [string]
    (both are byte sequences) is a [list byte]. *)
Abbreviation byte := Init.Byte.byte.
Abbreviation bytes := (list Init.Byte.byte).

#[global] Instance byte_eq_dec : EqDecision byte := Byte.byte_eq_dec.

#[global] Program Instance byte_countable : Countable byte :=
  inj_countable Byte.to_N Byte.of_N _.
Next Obligation. intros b. apply Byte.of_to_N. Qed.

#[global] Instance byte_inhabited : Inhabited byte := populate Byte.x00.

(** The unsigned value of a byte, and Go's conversion [byte(z)]. *)
Definition byte_val (b : byte) : Z := Z.of_N (Byte.to_N b).

Definition byte_of_Z (z : Z) : byte :=
  default Byte.x00 (Byte.of_N (Z.to_N (z mod 256))).

(** A string literal of the Go source, as bytes. *)
Definition lit (s : string) : bytes := String.list_byte_of_string s.

(** [len s], a Go [int]. *)
Definition len {A} (s : list A) : Z := Z.of_nat (length s).

(** A byte slice the runtime can allocate: 48-bit addresses. *)
Definition go_len (b : bytes) : Prop := len b <= 2 ^ 48.

(** ** Machine integers *)

Definition wrapu64 (z : Z) : Z := z mod 2 ^ 64.
Definition wrap64 (z : Z) : Z := (z + 2 ^ 63) mod 2 ^ 64 - 2 ^ 63.
Definition MaxInt64 : Z := 2 ^ 63 - 1.
Definition MinInt64 : Z := - 2 ^ 63.
Definition is_int64 (z : Z) : Prop := MinInt64 <= z <= MaxInt64.

(** ** Outcomes

    A Go call returns, panics, or never returns. Loops whose termination is
    not structural run with fuel, and running out of it is [Diverge]. *)
Inductive go_panic :=
  | IndexOutOfRange
  | SliceBounds
  | NilDereference
  | MakeSliceLen
  | WrongKind
  | Explicit.

Inductive outcome (A : Type) :=
  | Ret (a : A)
  | Panic (p : go_panic)
  | Diverge.
Arguments Ret {A} _.
Arguments Panic {A} _.
Arguments Diverge {A}.

#[global] Instance go_panic_eq_dec : EqDecision go_panic.
Proof. solve_decision. Defined.

#[global] Instance outcome_ret : MRet outcome := @Ret.
#[global] Instance outcome_bind : MBind outcome := λ A B f m,
  match m with Ret a => f a | Panic p => Panic p | Diverge => Diverge end.
#[global] Instance outcome_fmap : FMap outcome := λ A B f m,
  match m with Ret a => Ret (f a) | Panic p => Panic p | Diverge => Diverge end.

(** Go's bounds-checked indexing and slicing. Capacity is not modelled: a
    slice expression past the length panics. *)
Definition slice_from {A} (s : list A) (i : Z) : outcome (list A) :=
  if bool_decide (0 <= i <= len s) then Ret (drop (Z.to_nat i) s)
  else Panic SliceBounds.

Definition slice_to {A} (s : list A) (i : Z) : outcome (list A) :=
  if bool_decide (0 <= i <= len s) then Ret (take (Z.to_nat i) s)
  else Panic SliceBounds.

Definition slice {A} (s : list A) (i j : Z) : outcome (list A) :=
  if bool_decide (0 <= i <= j /\ j <= len s)
  then Ret (take (Z.to_nat (j - i)) (drop (Z.to_nat i) s))
  else Panic SliceBounds.

Definition index {A} (s : list A) (i : Z) : outcome A :=
  match (if bool_decide (0 <= i) then s !! Z.to_nat i else None) with
  | Some x => Ret x
  | None => Panic IndexOutOfRange
  end.

(** A loop over a list whose body can panic. *)
Fixpoint ofold {A St} (f : St -> A -> outcome St) (l : list A) (st : St) : outcome St :=
  match l with
  | [] => Ret st
  | x :: l => st ← f st x; ofold f l st
  end.

(** ** Map iteration order

    Go iterates a map in an unspecified order. A model that iterates one takes
    a [seed] and visits [shuffle seed l]: every seed gives a permutation and
    every permutation has a seed, so quantifying over the seed quantifies over
    exactly the orders the language allows. *)
Fixpoint shuffle {A} (seed : list nat) (l : list A) : list A :=
  match l with
  | [] => []
  | x :: l =>
      let r := shuffle (tail seed) l in
      let k := (default 0 (head seed) mod S (length r))%nat in
      take k r ++ x :: drop k r
  end.

(** ** Byte-string order: Go's [<] on strings. *)
Fixpoint bytes_ltb (a b : bytes) : bool :=
  match a, b with
  | _, [] => false
  | [], _ :: _ => true
  | x :: a, y :: b =>
      if byte_val x =? byte_val y then bytes_ltb a b
      else byte_val x <? byte_val y
  end.

(** ** Automation *)
Create HintDb go.
Create Rewrite HintDb go.

Ltac unfold_len := unfold go_len, len in *.

(** Case analysis on the boolean comparisons of the code, then arithmetic. *)
Ltac zcases :=
  repeat match goal with
  | |- context [?a <? ?b] => destruct (Z.ltb_spec a b)
  | |- context [?a <=? ?b] => destruct (Z.leb_spec a b)
  | |- context [?a =? ?b] => destruct (Z.eqb_spec a b)
  | H : context [?a <? ?b] |- _ => destruct (Z.ltb_spec a b)
  | H : context [?a <=? ?b] |- _ => destruct (Z.leb_spec a b)
  | H : context [?a =? ?b] |- _ => destruct (Z.eqb_spec a b)
  end; simpl in *; simplify_eq; try lia.

(** Steps an [outcome] computation through binds of [Ret]. *)
Ltac orun :=
  repeat match goal with
  | |- context [@mbind outcome _ _ _ ?f (Ret ?a)] =>
      change (@mbind outcome _ _ _ f (Ret a)) with (f a)
  | |- context [@fmap outcome _ _ _ ?f (Ret ?a)] =>
      change (@fmap outcome _ _ _ f (Ret a)) with (Ret (f a))
  end; cbn beta iota zeta.

(** Closes the computation and the contract of a simulation step, leaving the
    relation on the new states. *)
Ltac sim_step := orun; eexists _, _, _; split; [done|split; [done|]].

(** ** Generic lemmas *)

Lemma byte_val_range b : 0 <= byte_val b < 256.
Proof.
  unfold byte_val. pose proof (Byte.to_N_bounded b). lia.
Qed.

Lemma byte_of_Z_val b : byte_of_Z (byte_val b) = b.
Proof.
  unfold byte_of_Z. pose proof (byte_val_range b).
  rewrite Z.mod_small by lia. unfold byte_val.
  by rewrite N2Z.id, Byte.of_to_N.
Qed.

Lemma byte_val_of_Z z : byte_val (byte_of_Z z) = z mod 256.
Proof.
  unfold byte_of_Z.
  pose proof (Z.mod_pos_bound z 256 ltac:(lia)).
  destruct (Byte.of_N (Z.to_N (z mod 256))) as [b|] eqn:E; simpl.
  - apply Byte.to_of_N in E. unfold byte_val. rewrite E. lia.
  - apply Byte.of_N_None_iff in E. lia.
Qed.

#[global] Instance byte_val_inj : Inj (=) (=) byte_val.
Proof.
  intros a b E. by rewrite <- (byte_of_Z_val a), <- (byte_of_Z_val b), E.
Qed.

Lemma len_nonneg {A} (s : list A) : 0 <= len s.
Proof. unfold len. lia. Qed.

Lemma len_app {A} (s t : list A) : len (s ++ t) = len s + len t.
Proof. unfold len. rewrite length_app. lia. Qed.

Lemma len_cons {A} x (s : list A) : len (x :: s) = 1 + len s.
Proof. unfold len. simpl. lia. Qed.

Lemma len_nil {A} : len (@nil A) = 0.
Proof. done. Qed.

Lemma to_nat_len {A} (s : list A) : Z.to_nat (len s) = length s.
Proof. unfold len. lia. Qed.

#[export] Hint Resolve len_nonneg : go.
#[export] Hint Rewrite @len_app @len_cons @len_nil @to_nat_len : go.

Lemma wrap64_id z : is_int64 z -> wrap64 z = z.
Proof.
  unfold is_int64, wrap64, MinInt64, MaxInt64. intros.
  rewrite Z.mod_small; lia.
Qed.

Lemma wrap64_range z : is_int64 (wrap64 z).
Proof.
  unfold is_int64, wrap64, MinInt64, MaxInt64.
  pose proof (Z.mod_pos_bound (z + 2 ^ 63) (2 ^ 64) ltac:(lia)). lia.
Qed.

Lemma wrapu64_id z : 0 <= z < 2 ^ 64 -> wrapu64 z = z.
Proof. apply Z.mod_small. Qed.

(** A bitwise or of disjoint fields is their sum. *)
Lemma lor_shiftl_add a b s :
  0 <= a < 2 ^ s -> 0 <= b -> 0 <= s -> Z.lor a (Z.shiftl b s) = a + b * 2 ^ s.
Proof.
  intros Ha Hb Hs.
  rewrite <- Z.add_lor_land, Z.shiftl_mul_pow2 by done.
  enough (Z.land a (b * 2 ^ s) = 0) as ->; [lia|].
  rewrite <- Z.shiftl_mul_pow2 by done.
  apply Z.bits_inj'. intros n Hn.
  rewrite Z.land_spec, Z.bits_0, Z.shiftl_spec by done.
  destruct (Z.lt_ge_cases n s).
  - by rewrite (Z.testbit_neg_r b), andb_false_r by lia.
  - destruct (decide (a = 0)) as [->|]; [by rewrite Z.bits_0|].
    rewrite (Z.bits_above_log2 a); [done|lia|].
    apply Z.lt_le_trans with s; [|done].
    apply Z.log2_lt_pow2; lia.
Qed.

(** Slicing at the seam of an append. *)
Lemma slice_from_app {A} (s t : list A) n :
  n = len s -> slice_from (s ++ t) n = Ret t.
Proof.
  intros ->. unfold slice_from. rewrite bool_decide_true.
  - by rewrite to_nat_len, drop_app_length.
  - rewrite len_app. pose proof (len_nonneg s). pose proof (len_nonneg t). lia.
Qed.

Lemma slice_to_app {A} (s t : list A) n :
  n = len s -> slice_to (s ++ t) n = Ret s.
Proof.
  intros ->. unfold slice_to. rewrite bool_decide_true.
  - by rewrite to_nat_len, take_app_length.
  - rewrite len_app. pose proof (len_nonneg s). pose proof (len_nonneg t). lia.
Qed.

Lemma slice_mid {A} (s t u : list A) i j :
  i = len s -> j = len s + len t -> slice (s ++ t ++ u) i j = Ret t.
Proof.
  intros -> ->. unfold slice. rewrite bool_decide_true.
  - rewrite to_nat_len, drop_app_length.
    replace (len s + len t - len s) with (len t) by lia.
    by rewrite to_nat_len, take_app_length.
  - rewrite !len_app. pose proof (len_nonneg s). pose proof (len_nonneg t).
    pose proof (len_nonneg u). lia.
Qed.

Lemma index_lookup {A} (s : list A) (i : nat) x :
  s !! i = Some x -> index s (Z.of_nat i) = Ret x.
Proof.
  intros E. unfold index. rewrite bool_decide_true by lia.
  by rewrite Nat2Z.id, E.
Qed.

Lemma elem_of_mid {A} (l1 l2 : list A) x : x ∈ l1 ++ x :: l2.
Proof. rewrite elem_of_app, elem_of_cons. auto. Qed.
#[export] Hint Resolve elem_of_mid : go.

Lemma fst_elem_of_mid {A B} (l1 l2 : list (A * B)) x y : x ∈ (l1 ++ (x, y) :: l2).*1.
Proof. rewrite fmap_app, fmap_cons. apply elem_of_mid. Qed.
#[export] Hint Resolve fst_elem_of_mid : go.

Lemma bool_decide_elem_cons `{EqDecision A} (field f : A) (fs : list A) ex :
  ex || bool_decide (field ∈ f :: fs) =
  (bool_decide (f = field) || ex) || bool_decide (field ∈ fs).
Proof.
  destruct ex; [by rewrite orb_true_r|]. rewrite orb_false_r, <- bool_decide_or.
  apply bool_decide_ext. rewrite elem_of_cons. split; intros []; auto.
Qed.

Lemma take_cons_drop_perm {A} k x (r : list A) :
  take k r ++ x :: drop k r ≡ₚ x :: r.
Proof. by rewrite <- Permutation_middle, take_drop. Qed.

Lemma shuffle_perm {A} seed (l : list A) : shuffle seed l ≡ₚ l.
Proof.
  revert seed. induction l as [|x l IH]; intros seed; simpl; [done|].
  by rewrite take_cons_drop_perm, IH.
Qed.

(** Every permutation is the shuffle of some seed. *)
Lemma shuffle_complete {A} (l l' : list A) :
  l' ≡ₚ l -> exists seed, shuffle seed l = l'.
Proof.
  revert l'. induction l as [|x l IH]; intros l' HP.
  { apply Permutation_nil_r in HP as ->. by exists []. }
  assert (x ∈ l') as (l1 & l2 & ->)%list_elem_of_split.
  { rewrite HP. left. }
  rewrite <- Permutation_middle in HP. apply (inj (cons x)) in HP.
  destruct (IH _ HP) as [seed E].
  exists (length l1 :: seed). cbn [shuffle tail head default from_option id]. rewrite E.
  assert (length l1 mod S (length (l1 ++ l2)) = length l1)%nat as ->.
  { rewrite length_app. apply Nat.mod_small. lia. }
  by rewrite take_app_length, drop_app_length.
Qed.

(** Finite maps given by lists of pairs without repeated keys. *)
Section PairLists.
Context `{Countable K} {V : Type}.
Implicit Type ps : list (K * V).

Lemma list_to_map_filter k ps :
  list_to_map (filter (λ p, p.1 <> k) ps) =@{gmap K V} delete k (list_to_map ps).
Proof.
  induction ps as [|[f v] ps IH]; simpl; [by rewrite delete_empty|].
  rewrite filter_cons. simpl. case_decide as E; simpl.
  - by rewrite IH, delete_insert_ne.
  - subst f. by rewrite IH, delete_insert_eq.
Qed.

Lemma size_list_to_map ps :
  NoDup ps.*1 -> size (list_to_map ps : gmap K V) = length ps.
Proof. intros. by rewrite <- length_map_to_list, map_to_list_to_map. Qed.

Lemma lookup_list_to_map_is_Some f ps :
  is_Some ((list_to_map ps : gmap K V) !! f) <-> f ∈ ps.*1.
Proof.
  split.
  - intros [v Hv]. apply elem_of_list_to_map_2 in Hv.
    apply list_elem_of_fmap. by exists (f, v).
  - intros Hf. apply not_eq_None_Some. intros HN.
    by apply not_elem_of_list_to_map_2 in HN.
Qed.

Lemma NoDup_fst_filter k ps : NoDup ps.*1 -> NoDup (filter (λ p, p.1 <> k) ps).*1.
Proof. intros. eapply sublist_NoDup; [done|]. apply fmap_sublist, sublist_filter. Qed.

Lemma not_elem_of_fst_filter k ps : k ∉ (filter (λ p, p.1 <> k) ps).*1.
Proof.
  intros ([? ?] & -> & [Hne _]%list_elem_of_filter)%list_elem_of_fmap. by apply Hne.
Qed.

(** Without [k] in it, filtering [k] out leaves the list as it is. *)
Lemma filter_fst_id k ps : k ∉ ps.*1 -> filter (λ p, p.1 <> k) ps = ps.
Proof.
  induction ps as [|[f v] ps IH]; [done|]. intros [? ?]%not_elem_of_cons.
  rewrite filter_cons_True by (simpl in *; congruence). by rewrite IH.
Qed.
End PairLists.

Lemma bytes_ltb_irrefl a : bytes_ltb a a = false.
Proof. induction a; simpl; [done|]. by rewrite Z.eqb_refl. Qed.

Lemma bytes_ltb_trans a b c :
  bytes_ltb a b = true -> bytes_ltb b c = true -> bytes_ltb a c = true.
Proof.
  revert b c. induction a as [|x a IH]; intros [|y b] [|z c]; simpl; try done.
  intros H1 H2. zcases; eauto.
Qed.

Lemma bytes_ltb_total a b :
  bytes_ltb a b = false -> bytes_ltb b a = false -> a = b.
Proof.
  revert b. induction a as [|x a IH]; intros [|y b]; simpl; try done.
  intros H1 H2. zcases. f_equal. apply IH; congruence.
Qed.

Lemma bytes_ltb_asym a b : bytes_ltb a b = true -> bytes_ltb b a = false.
Proof.
  intros H. destruct (bytes_ltb b a) eqn:E; [|done].
  by rewrite <- (bytes_ltb_irrefl a), (bytes_ltb_trans a b a).
Qed.

(** Steps that cannot go on for ever, with one enabled wherever the goal is not
    reached, reach it. *)
Lemma acc_ends {A} (R : A -> A -> Prop) (Q : A -> Prop) (x : A) :
  Acc (flip R) x -> (forall y, rtc R x y -> Q y \/ exists z, R y z) -> exists y, rtc R x y /\ Q y.
Proof.
  induction 1 as [x _ IH]. intros Hall. destruct (Hall x) as [HQ|[z Hz]]; [done|by exists x|].
  destruct (IH z Hz) as (y & Hy & HQ); [|by exists y; split; [eapply rtc_l|]].
  intros y Hy. apply Hall. by eapply rtc_l.
Qed.

(** ** Traces and simulation

    A component is a deterministic [step] on its concrete state; its contract
    is a relation [spec] on an abstract state. [Simulates] is the promise one
    makes to the other: from related states, and where the call is allowed, the
    step returns and the contract admits what it returned. The promise then
    extends to every finite sequence of calls. *)
Section Traces.
Context {Op C Obs A : Type}.
Context (step : Op -> C -> outcome (Obs * C)).
Context (spec : Op -> A -> Obs -> A -> Prop).
Context (ok : Op -> A -> Prop).
Context (R : C -> A -> Prop).

Fixpoint run (ops : list Op) (c : C) : outcome (list Obs * C) :=
  match ops with
  | [] => Ret ([], c)
  | op :: ops =>
      '(o, c) ← step op c;
      '(os, c) ← run ops c;
      Ret (o :: os, c)
  end.

Inductive spec_run : list Op -> A -> list Obs -> A -> Prop :=
  | spec_run_nil a : spec_run [] a [] a
  | spec_run_cons op ops a o a' os a'' :
      spec op a o a' -> spec_run ops a' os a'' ->
      spec_run (op :: ops) a (o :: os) a''.

(** Every call of the trace is allowed wherever the contract can lead. *)
Fixpoint ok_run (ops : list Op) (a : A) : Prop :=
  match ops with
  | [] => True
  | op :: ops => ok op a /\ forall o a', spec op a o a' -> ok_run ops a'
  end.

Class Simulates : Prop :=
  simulates op c a : R c a -> ok op a ->
    exists o c' a', step op c = Ret (o, c') /\ spec op a o a' /\ R c' a'.

Lemma run_simulates `{!Simulates} ops c a :
  R c a -> ok_run ops a ->
  exists os c' a', run ops c = Ret (os, c') /\ spec_run ops a os a' /\ R c' a'.
Proof.
  revert c a. induction ops as [|op ops IH]; intros c a HR Hok.
  - exists [], c, a. split_and!; [done|constructor|done].
  - destruct Hok as [Hop Hok].
    destruct (simulates op c a HR Hop) as (o & c1 & a1 & E & Hs & HR1).
    destruct (IH c1 a1 HR1 (Hok _ _ Hs)) as (os & c2 & a2 & E2 & Hs2 & HR2).
    exists (o :: os), c2, a2. split_and!; [|by econstructor|done].
    cbn [run]. rewrite E. orun. rewrite E2. orun. done.
Qed.
End Traces.
