(* ===== verification/GoBinary.v ===== *)
(** * encoding/binary: unsigned varints and little-endian words

    The part of Go's [encoding/binary] the program uses: [PutUvarint],
    [Uvarint], [ReadUvarint] and the little-endian [uint64] codec, with their
    round trips. [internal/value/pack.go], [internal/value/zset.go] and
    [internal/persistence] are built on them. *)

From S2P Require Import Prelude.

(** [binary.MaxVarintLen64]. *)
Definition MaxVarintLen64 : nat := 10.

(** ** PutUvarint

    [for x >= 0x80 { buf[i] = byte(x) | 0x80; x >>= 7 }; buf[i] = byte(x)].
    A 64-bit word leaves the loop within nine rounds. *)
Fixpoint put_uvarint_loop (fuel : nat) (x : Z) : bytes :=
  match fuel with
  | O => [byte_of_Z x]
  | S f =>
      if 128 <=? x
      then byte_of_Z (Z.lor (x mod 128) 128) :: put_uvarint_loop f (Z.shiftr x 7)
      else [byte_of_Z x]
  end.

Definition PutUvarint (x : Z) : bytes := put_uvarint_loop 9 (wrapu64 x).

(** ** Uvarint: the value and the number of bytes read. Zero bytes read means
    the buffer is too short; a negative count means the value overflows. *)
Fixpoint uvarint_loop (buf : bytes) (i : nat) (x : Z) : Z * Z :=
  match buf with
  | [] => (0, 0)
  | b :: buf =>
      if bool_decide (i = MaxVarintLen64) then (0, - (Z.of_nat i + 1))
      else if byte_val b <? 128 then
        if bool_decide (i = MaxVarintLen64 - 1)%nat && (1 <? byte_val b)
        then (0, - (Z.of_nat i + 1))
        else (Z.lor x (wrapu64 (Z.shiftl (byte_val b) (7 * Z.of_nat i))),
              Z.of_nat i + 1)
      else
        uvarint_loop buf (S i)
          (Z.lor x (wrapu64 (Z.shiftl (byte_val b mod 128) (7 * Z.of_nat i))))
  end.

Definition Uvarint (buf : bytes) : Z * Z := uvarint_loop buf 0 0.

(** ** Stream reads

    A reader over a finite stream: the bytes still to come. The errors are the
    ones the callers tell apart. *)
Inductive io_error :=
  | EOF
  | UnexpectedEOF
  | ErrOverflow
  | ErrProtocol
  | ErrOther (msg : bytes).

#[global] Instance io_error_eq_dec : EqDecision io_error.
Proof. solve_decision. Defined.

(** A reader step: a result with the rest of the stream, or an error. *)
Definition reader (A : Type) : Type := bytes -> (A + io_error) * bytes.

Definition rret {A} (a : A) : reader A := λ r, (inl a, r).
Definition rfail {A} (e : io_error) : reader A := λ r, (inr e, r).
Definition rbind {A B} (m : reader A) (k : A -> reader B) : reader B := λ r,
  match m r with
  | (inl a, r) => k a r
  | (inr e, r) => (inr e, r)
  end.

(** The error of [m], mapped. *)
Definition rmap_err {A} (f : io_error -> io_error) (m : reader A) : reader A := λ r,
  match m r with
  | (inl a, r) => (inl a, r)
  | (inr e, r) => (inr (f e), r)
  end.

Notation "'let!' x ':=' m 'in' k" := (rbind m (λ x, k))
  (at level 10, x pattern, m at level 100, k at level 200).

(** [binary.ReadUvarint]: at most ten bytes are read, and a stream that ends
    inside the number is [UnexpectedEOF]. *)
Fixpoint read_uvarint_loop (rounds i : nat) (x : Z) : reader Z :=
  λ r,
  match rounds with
  | O => (inr ErrOverflow, r)
  | S rounds =>
      match r with
      | [] => (inr (if bool_decide (0 < i)%nat then UnexpectedEOF else EOF), [])
      | b :: r =>
          if byte_val b <? 128 then
            if bool_decide (i = MaxVarintLen64 - 1)%nat && (1 <? byte_val b)
            then (inr ErrOverflow, r)
            else (inl (Z.lor x (wrapu64 (Z.shiftl (byte_val b) (7 * Z.of_nat i)))), r)
          else
            read_uvarint_loop rounds (S i)
              (Z.lor x (wrapu64 (Z.shiftl (byte_val b mod 128) (7 * Z.of_nat i)))) r
      end
  end.

Definition ReadUvarint : reader Z := read_uvarint_loop MaxVarintLen64 0 0.

(** [io.ReadFull(r, buf)] for a buffer of [n] bytes: an empty stream is [EOF],
    a short one is [UnexpectedEOF] and its bytes are consumed. *)
Definition ReadFull (n : nat) : reader bytes := λ r,
  if bool_decide (n <= length r)%nat then (inl (take n r), drop n r)
  else (inr (if bool_decide (length r = 0)%nat then EOF else UnexpectedEOF), []).

(** [br.ReadByte()]. *)
Definition ReadByte : reader byte := λ r,
  match r with
  | [] => (inr EOF, [])
  | b :: r => (inl b, r)
  end.

(** ** Little-endian words *)
Fixpoint le_bytes (n : nat) (x : Z) : bytes :=
  match n with
  | O => []
  | S n => byte_of_Z x :: le_bytes n (Z.shiftr x 8)
  end.

Fixpoint le_val (b : bytes) : Z :=
  match b with
  | [] => 0
  | c :: b => Z.lor (byte_val c) (Z.shiftl (le_val b) 8)
  end.

(** [binary.LittleEndian.PutUint64] and [binary.LittleEndian.Uint64]. *)
Definition PutUint64 (x : Z) : bytes := le_bytes 8 x.
Definition Uint64 (b : bytes) : Z := le_val (take 8 b).

(** ** Lemmas *)

Lemma rbind_inl {A B} (m : reader A) (k : A -> reader B) r a r' :
  m r = (inl a, r') -> rbind m k r = k a r'.
Proof. unfold rbind. by intros ->. Qed.

Lemma rbind_inr {A B} (m : reader A) (k : A -> reader B) r e r' :
  m r = (inr e, r') -> rbind m k r = (inr e, r').
Proof. unfold rbind. by intros ->. Qed.

Lemma byte_of_Z_small x : 0 <= x < 256 -> byte_val (byte_of_Z x) = x.
Proof. intros. by rewrite byte_val_of_Z, Z.mod_small. Qed.

(** The continuation byte the encoder emits, as the decoder sees it. *)
Lemma cont_byte x :
  byte_val (byte_of_Z (Z.lor (x mod 128) 128)) = x mod 128 + 128.
Proof.
  pose proof (Z.mod_pos_bound x 128 ltac:(lia)).
  change 128 with (Z.shiftl 1 7) at 2.
  rewrite lor_shiftl_add by lia. rewrite byte_of_Z_small; lia.
Qed.

Lemma put_uvarint_loop_length f x :
  (1 <= length (put_uvarint_loop f x) <= S f)%nat.
Proof.
  revert x. induction f as [|f IH]; intros x; simpl; [lia|].
  zcases. pose proof (IH (Z.shiftr x 7)). lia.
Qed.

Lemma PutUvarint_length x : (1 <= length (PutUvarint x) <= 10)%nat.
Proof. apply (put_uvarint_loop_length 9). Qed.

Lemma PutUvarint_nonempty x : PutUvarint x <> [].
Proof. intros E. pose proof (PutUvarint_length x). rewrite E in *. simpl in *. lia. Qed.

(** One round of either decoder adds seven bits. *)
Lemma acc_step (i : nat) acc b :
  (i <= 9)%nat -> 0 <= acc < 2 ^ (7 * Z.of_nat i) -> 0 <= b ->
  b * 2 ^ (7 * Z.of_nat i) < 2 ^ 64 ->
  Z.lor acc (wrapu64 (Z.shiftl b (7 * Z.of_nat i))) = acc + b * 2 ^ (7 * Z.of_nat i).
Proof.
  intros Hi Hacc Hb Hlt. rewrite wrapu64_id.
  - apply lor_shiftl_add; lia.
  - rewrite Z.shiftl_mul_pow2 by lia. nia.
Qed.

Lemma pow_7_S (i : nat) :
  2 ^ (7 * Z.of_nat (S i)) = 128 * 2 ^ (7 * Z.of_nat i).
Proof.
  replace (7 * Z.of_nat (S i)) with (7 + 7 * Z.of_nat i) by lia.
  by rewrite Z.pow_add_r by lia.
Qed.

(** The arithmetic of one encoder round, shared by the two decoders. *)
Lemma round_facts (f i : nat) acc x :
  (f + i = 9)%nat -> 0 <= x -> 0 <= acc < 2 ^ (7 * Z.of_nat i) ->
  acc + x * 2 ^ (7 * Z.of_nat i) < 2 ^ 64 ->
  (f = O -> x <= 1) /\
  (x < 128 -> Z.lor acc (wrapu64 (Z.shiftl x (7 * Z.of_nat i)))
              = acc + x * 2 ^ (7 * Z.of_nat i)) /\
  (f <> O ->
   let acc' := Z.lor acc (wrapu64 (Z.shiftl (x mod 128) (7 * Z.of_nat i))) in
   0 <= acc' < 2 ^ (7 * Z.of_nat (S i)) /\
   acc' + Z.shiftr x 7 * 2 ^ (7 * Z.of_nat (S i))
     = acc + x * 2 ^ (7 * Z.of_nat i)).
Proof.
  intros Hfi Hx Hacc Hlt.
  pose proof (Z.pow_pos_nonneg 2 (7 * Z.of_nat i) ltac:(lia) ltac:(lia)).
  pose proof (Z.mod_pos_bound x 128 ltac:(lia)) as Hm.
  pose proof (Z.div_mod x 128 ltac:(lia)) as Hd.
  assert (0 <= x / 128) by (apply Z.div_pos; lia).
  split_and!.
  - intros ->. assert (i = 9%nat) as -> by lia.
    change (2 ^ (7 * Z.of_nat 9)) with (2 ^ 63) in *. lia.
  - intros _. apply acc_step; [lia..|]. nia.
  - intros Hf acc'. subst acc'.
    rewrite acc_step by (try lia; nia).
    rewrite pow_7_S, Z.shiftr_div_pow2 by lia.
    change (2 ^ 7) with 128. split; nia.
Qed.

Lemma uvarint_loop_put (f i : nat) acc x rest :
  (f + i = 9)%nat -> 0 <= x -> 0 <= acc < 2 ^ (7 * Z.of_nat i) ->
  acc + x * 2 ^ (7 * Z.of_nat i) < 2 ^ 64 ->
  uvarint_loop (put_uvarint_loop f x ++ rest) i acc =
  (acc + x * 2 ^ (7 * Z.of_nat i),
   Z.of_nat i + len (put_uvarint_loop f x)).
Proof.
  revert i acc x. induction f as [|f IH]; intros i acc x Hfi Hx Hacc Hlt;
    destruct (round_facts _ _ _ _ Hfi Hx Hacc Hlt) as (H1 & H2 & H3).
  - specialize (H1 eq_refl). assert (i = 9%nat) as -> by lia. simpl put_uvarint_loop.
    cbn [app uvarint_loop]. rewrite byte_of_Z_small by lia.
    rewrite bool_decide_false by (unfold MaxVarintLen64; lia).
    destruct (Z.ltb_spec x 128); [|lia].
    replace (1 <? x) with false by (symmetry; apply Z.ltb_ge; lia).
    rewrite andb_false_r, H2 by lia. done.
  - specialize (H3 ltac:(lia)) as [H3 H4]. cbn [put_uvarint_loop].
    destruct (Z.leb_spec 128 x) as [Hge|Hlt'].
    + cbn [app uvarint_loop]. rewrite cont_byte.
      rewrite bool_decide_false by (unfold MaxVarintLen64; lia).
      pose proof (Z.mod_pos_bound x 128 ltac:(lia)).
      replace (x mod 128 + 128 <? 128) with false by (symmetry; apply Z.ltb_ge; lia).
      replace ((x mod 128 + 128) mod 128) with (x mod 128).
      2: { rewrite <- (Z.mul_1_l 128) at 3. rewrite Z.mod_add, Z.mod_mod; lia. }
      rewrite IH; [|lia|apply Z.shiftr_nonneg; lia|lia|lia].
      rewrite H4, len_cons. f_equal. lia.
    + cbn [app uvarint_loop]. rewrite byte_of_Z_small by lia.
      rewrite bool_decide_false by (unfold MaxVarintLen64; lia).
      replace (x <? 128) with true by (symmetry; apply Z.ltb_lt; lia).
      rewrite (bool_decide_false (i = (MaxVarintLen64 - 1)%nat))
        by (unfold MaxVarintLen64; lia).
      rewrite H2 by lia. done.
Qed.

(** Decoding what the encoder wrote, whatever follows it. *)
Lemma Uvarint_PutUvarint x rest :
  0 <= x < 2 ^ 64 ->
  Uvarint (PutUvarint x ++ rest) = (x, len (PutUvarint x)).
Proof.
  intros Hx. unfold Uvarint, PutUvarint. rewrite wrapu64_id by lia.
  rewrite (uvarint_loop_put 9 0 0) by (change (2 ^ (7 * Z.of_nat 0)) with 1; lia).
  change (2 ^ (7 * Z.of_nat 0)) with 1. f_equal; lia.
Qed.

Lemma read_uvarint_loop_put (f i : nat) acc x rest :
  (f + i = 9)%nat -> 0 <= x -> 0 <= acc < 2 ^ (7 * Z.of_nat i) ->
  acc + x * 2 ^ (7 * Z.of_nat i) < 2 ^ 64 ->
  read_uvarint_loop (S f) i acc (put_uvarint_loop f x ++ rest) =
  (inl (acc + x * 2 ^ (7 * Z.of_nat i)), rest).
Proof.
  revert i acc x. induction f as [|f IH]; intros i acc x Hfi Hx Hacc Hlt;
    destruct (round_facts _ _ _ _ Hfi Hx Hacc Hlt) as (H1 & H2 & H3).
  - specialize (H1 eq_refl). simpl put_uvarint_loop.
    cbn [app read_uvarint_loop]. rewrite byte_of_Z_small by lia.
    destruct (Z.ltb_spec x 128); [|lia].
    replace (1 <? x) with false by (symmetry; apply Z.ltb_ge; lia).
    rewrite andb_false_r, H2 by lia. done.
  - specialize (H3 ltac:(lia)) as [H3 H4]. cbn [put_uvarint_loop].
    destruct (Z.leb_spec 128 x) as [Hge|Hlt'].
    + cbn [app]. set (g := S f). cbn [read_uvarint_loop]. subst g. rewrite cont_byte.
      pose proof (Z.mod_pos_bound x 128 ltac:(lia)).
      replace (x mod 128 + 128 <? 128) with false by (symmetry; apply Z.ltb_ge; lia).
      replace ((x mod 128 + 128) mod 128) with (x mod 128).
      2: { rewrite <- (Z.mul_1_l 128) at 3. rewrite Z.mod_add, Z.mod_mod; lia. }
      rewrite IH; [|lia|apply Z.shiftr_nonneg; lia|lia|lia].
      by rewrite H4.
    + cbn [app read_uvarint_loop]. rewrite byte_of_Z_small by lia.
      replace (x <? 128) with true by (symmetry; apply Z.ltb_lt; lia).
      rewrite (bool_decide_false (i = (MaxVarintLen64 - 1)%nat))
        by (unfold MaxVarintLen64; lia).
      rewrite H2 by lia. done.
Qed.

Lemma ReadUvarint_PutUvarint x rest :
  0 <= x < 2 ^ 64 ->
  ReadUvarint (PutUvarint x ++ rest) = (inl x, rest).
Proof.
  intros Hx. unfold ReadUvarint, PutUvarint, MaxVarintLen64.
  rewrite wrapu64_id by lia.
  rewrite (read_uvarint_loop_put 9 0 0) by (change (2 ^ (7 * Z.of_nat 0)) with 1; lia).
  change (2 ^ (7 * Z.of_nat 0)) with 1. do 2 f_equal. lia.
Qed.

Lemma le_bytes_length n x : length (le_bytes n x) = n.
Proof. revert x. induction n; intros; simpl; auto. Qed.

Lemma le_val_bytes n x : le_val (le_bytes n x) = x mod 2 ^ (8 * Z.of_nat n).
Proof.
  revert x. induction n as [|n IH]; intros x.
  - simpl. by rewrite Z.mod_1_r.
  - cbn [le_bytes le_val]. rewrite IH, byte_val_of_Z.
    replace (8 * Z.of_nat (S n)) with (8 + 8 * Z.of_nat n) by lia.
    pose proof (Z.mod_pos_bound x 256 ltac:(lia)).
    pose proof (Z.mod_pos_bound (Z.shiftr x 8) (2 ^ (8 * Z.of_nat n)) ltac:(lia)).
    rewrite lor_shiftl_add by lia.
    rewrite Z.shiftr_div_pow2, Z.pow_add_r by lia. change (2 ^ 8) with 256.
    rewrite (Z.rem_mul_r x 256) by lia. lia.
Qed.

Lemma Uint64_PutUint64 x rest :
  0 <= x < 2 ^ 64 -> Uint64 (PutUint64 x ++ rest) = x.
Proof.
  intros. unfold Uint64, PutUint64. rewrite take_app_le, take_ge;
    rewrite ?le_bytes_length; [|lia..].
  rewrite le_val_bytes, Z.mod_small; done.
Qed.

Lemma ReadFull_app n b rest :
  n = length b -> ReadFull n (b ++ rest) = (inl b, rest).
Proof.
  intros ->. unfold ReadFull. rewrite bool_decide_true by (rewrite length_app; lia).
  by rewrite take_app_length, drop_app_length.
Qed.

(** ** Framing

    [frames m s a e0]: the reader [m] takes exactly the frame [s] off any stream
    that starts with it and returns [a]; on a stream that ends inside the frame
    it reports [UnexpectedEOF], and [e0] when the stream ends before the first
    byte. *)
Definition frames {A} (m : reader A) (s : bytes) (a : A) (e0 : io_error) : Prop :=
  (forall rest, m (s ++ rest) = (inl a, rest)) /\
  (forall p q, s = p ++ q -> q <> [] ->
    m p = (inr (if bool_decide (p = []) then e0 else UnexpectedEOF), [])).

Lemma frames_ret {A} (a : A) e0 : frames (rret a) [] a e0.
Proof. split; [done|]. intros p q E Hq. symmetry in E. by apply app_eq_nil in E as [_ ->]. Qed.

(** Where a cut of two frames in sequence falls. *)
Lemma app_cut {A} (s t p q : list A) :
  s ++ t = p ++ q -> q <> [] ->
  (exists q', s = p ++ q' /\ q' <> []) \/ (exists p', p = s ++ p' /\ t = p' ++ q).
Proof.
  revert p. induction s as [|x s IH]; intros p E Hq; [right; by exists p|].
  destruct p as [|y p]; [left; by exists (x :: s)|].
  simpl in E. injection E as -> E.
  destruct (IH p E Hq) as [(q' & -> & ?)|(p' & -> & ->)]; [left; by exists q'|right; by exists p'].
Qed.

(** Reading one frame and then another. *)
Lemma frames_bind {A B} (m : reader A) (k : A -> reader B) s t a b e0 :
  frames m s a e0 -> (s <> [] \/ e0 = UnexpectedEOF) -> frames (k a) t b UnexpectedEOF ->
  frames (rbind m k) (s ++ t) b e0.
Proof.
  intros [Hm1 Hm2] Hs [Hk1 Hk2]. split.
  - intros rest. rewrite <- app_assoc, (rbind_inl _ _ _ _ _ (Hm1 _)). apply Hk1.
  - intros p q E Hq. destruct (app_cut _ _ _ _ E Hq) as [(q' & -> & Hq')|(p' & -> & ->)].
    + apply rbind_inr, (Hm2 p q'); done.
    + rewrite (rbind_inl _ _ _ _ _ (Hm1 _)), (Hk2 p' q) by done.
      assert ((if bool_decide (p' = []) then UnexpectedEOF else UnexpectedEOF) = UnexpectedEOF)
        as -> by by destruct (bool_decide _).
      destruct Hs as [Hs| ->]; [|by destruct (bool_decide _)].
      rewrite bool_decide_false; [done|]. intros [? _]%app_eq_nil. done.
Qed.

(** An error mapping that makes every early end unexpected. *)
Lemma frames_map_err {A} (f : io_error -> io_error) (m : reader A) s a e0 :
  frames m s a e0 -> f e0 = UnexpectedEOF -> f UnexpectedEOF = UnexpectedEOF ->
  frames (rmap_err f m) s a UnexpectedEOF.
Proof.
  intros [Hm1 Hm2] H0 H1. unfold rmap_err. split.
  - intros rest. by rewrite Hm1.
  - intros p q E Hq. rewrite (Hm2 p q) by done. case_bool_decide; congruence.
Qed.

Lemma frames_ReadByte b : frames ReadByte [b] b EOF.
Proof.
  split; [done|]. intros p q E Hq. destruct p as [|c p]; [done|].
  injection E as -> E. symmetry in E. by apply app_eq_nil in E as [_ ->].
Qed.

Lemma frames_ReadFull n b : n = length b -> frames (ReadFull n) b b EOF.
Proof.
  intros ->. split; [intros; by apply ReadFull_app|]. intros p q -> Hq. unfold ReadFull.
  rewrite length_app. rewrite bool_decide_false by (destruct q; [done|simpl; lia]).
  do 2 f_equal. by destruct p.
Qed.

(** A cut inside a varint: every byte before the cut continues. *)
Lemma read_uvarint_loop_cut (f i : nat) acc x p q :
  put_uvarint_loop f x = p ++ q -> q <> [] ->
  read_uvarint_loop (S f) i acc p =
  (inr (if bool_decide (0 < i + length p)%nat then UnexpectedEOF else EOF), []).
Proof.
  revert i acc x p. induction f as [|f IH]; intros i acc x p E Hq.
  - destruct p as [|c p]; [simpl; by rewrite Nat.add_0_r|]. simpl in E.
    injection E as _ E. symmetry in E. by apply app_eq_nil in E as [_ ->].
  - destruct p as [|c p]; [simpl; by rewrite Nat.add_0_r|].
    cbn [put_uvarint_loop] in E. destruct (Z.leb_spec 128 x).
    + injection E as <- E. set (g := S f). cbn [read_uvarint_loop]. subst g.
      rewrite cont_byte. pose proof (Z.mod_pos_bound x 128 ltac:(lia)).
      rewrite (proj2 (Z.ltb_ge _ _)) by lia. rewrite (IH _ _ _ _ E Hq).
      cbn [length]. by rewrite Nat.add_succ_comm.
    + injection E as _ E. symmetry in E. by apply app_eq_nil in E as [_ ->].
Qed.

Lemma frames_ReadUvarint x : 0 <= x < 2 ^ 64 -> frames ReadUvarint (PutUvarint x) x EOF.
Proof.
  intros Hx. split; [intros; by apply ReadUvarint_PutUvarint|]. intros p q E Hq.
  unfold ReadUvarint, MaxVarintLen64. rewrite (read_uvarint_loop_cut 9 0 0 _ p q E Hq).
  by destruct p.
Qed.
