(* ===== verification/Pack.v ===== *)
(** * internal/value/pack.go, limits.go and value.go's range arithmetic

    The compact encoding behind small collections: a flat byte slice of
    length-prefixed elements, and the scan that walks it. The scan is proved to
    visit exactly the packed elements, in order, without a bounds panic and
    without running forever. Also here: the promotion thresholds and the index
    normalization the range queries share. *)

From S2P Require Import Prelude GoBinary.

(** ** Thresholds and limits (limits.go) *)
Record Thresholds := mkThresholds { MaxEntries : Z; MaxBytes : Z }.

Definition exceeded (t : Thresholds) (count elemSize : Z) : bool :=
  (MaxEntries t <? count) || (MaxBytes t <? elemSize).

Record Limits := mkLimits {
  lim_List : Thresholds;
  lim_Hash : Thresholds;
  lim_Set : Thresholds;
  lim_ZSet : Thresholds }.

(** ** Range normalization (value.go): the inclusive bounds, when the range
    selects anything. The additions are [int] additions. *)
Definition normalizeRange (start stop length : Z) : option (Z * Z) :=
  if length =? 0 then None else
  let start := if start <? 0 then wrap64 (length + start) else start in
  let stop := if stop <? 0 then wrap64 (length + stop) else stop in
  let start := if start <? 0 then 0 else start in
  let stop := if length <=? stop then length - 1 else stop in
  if (stop <? start) || (length <=? start) then None
  else Some (start, stop).

(** ** The pack (pack.go) *)
Definition packAppend (buf elem : bytes) : bytes :=
  (buf ++ PutUvarint (len elem)) ++ elem.

(** [packEach buf fn]: the closure's captured variables are the state [st] it
    threads; it returns them with whether to go on. A malformed pack panics at
    a slice bound, or loops when no length can be read. *)
Fixpoint packEach_loop {St} (fuel : nat) (buf : bytes)
    (fn : bytes -> St -> St * bool) (st : St) : outcome St :=
  match buf with
  | [] => Ret st
  | _ :: _ =>
      match fuel with
      | O => Diverge
      | S fuel =>
          let '(n, w) := Uvarint buf in
          buf ← slice_from buf w;
          elem ← slice_to buf n;
          buf ← slice_from buf n;
          let '(st, more) := fn elem st in
          if more then packEach_loop fuel buf fn st else Ret st
      end
  end.

Definition packEach {St} (buf : bytes) (fn : bytes -> St -> St * bool)
    (st : St) : outcome St :=
  packEach_loop (length buf) buf fn st.

(** ** Specification *)

(** The encoding of a sequence of elements. *)
Definition encode_elem (e : bytes) : bytes := PutUvarint (len e) ++ e.
Definition pack_of (es : list bytes) : bytes := concat (map encode_elem es).

(** A callback run over a plain list, with its early stop. *)
Fixpoint each {A St} (es : list A) (fn : A -> St -> St * bool) (st : St) : St :=
  match es with
  | [] => st
  | e :: es =>
      let '(st, more) := fn e st in
      if more then each es fn st else st
  end.

(** What a range query selects: the closed interval of ranks [lo..hi]. *)
Definition select {A} (lo hi : Z) (es : list A) : list A :=
  take (Z.to_nat (hi - lo + 1)) (drop (Z.to_nat lo) es).

(** Redis range semantics, stated on the list: a rank [i] is selected when it
    lies between the two bounds, a negative bound counting from the end. *)
Definition from_end (i length : Z) : Z := if i <? 0 then length + i else i.

Definition range_spec {A} (start stop : Z) (es : list A) : list A :=
  let n := len es in
  select (Z.max 0 (from_end start n)) (Z.min (n - 1) (from_end stop n)) es.

(** ** Lemmas: packs *)

Lemma pack_of_app es es' : pack_of (es ++ es') = pack_of es ++ pack_of es'.
Proof. unfold pack_of. by rewrite map_app, concat_app. Qed.

Lemma pack_of_cons e es : pack_of (e :: es) = encode_elem e ++ pack_of es.
Proof. done. Qed.

Lemma pack_of_snoc es e : packAppend (pack_of es) e = pack_of (es ++ [e]).
Proof.
  rewrite pack_of_app. unfold packAppend, pack_of, encode_elem. simpl.
  by rewrite app_nil_r, <- app_assoc.
Qed.

Lemma packAppend_nil e : packAppend [] e = pack_of [e].
Proof. apply (pack_of_snoc []). Qed.

Lemma go_len_uint64 e : go_len e -> 0 <= len e < 2 ^ 64.
Proof. unfold go_len. pose proof (len_nonneg e). lia. Qed.

Lemma encode_elem_cons e : exists b r, encode_elem e = b :: r.
Proof.
  unfold encode_elem. pose proof (PutUvarint_nonempty (len e)).
  destruct (PutUvarint (len e)) as [|b r]; [done|]. by eexists _, _.
Qed.

(** Decoding the header of an encoded element. *)
Lemma Uvarint_encode_elem e rest :
  go_len e ->
  Uvarint (encode_elem e ++ rest) = (len e, len (PutUvarint (len e))).
Proof.
  intros He. unfold encode_elem. rewrite <- app_assoc.
  apply Uvarint_PutUvarint, go_len_uint64, He.
Qed.

Lemma length_pack_of es : (length es <= length (pack_of es))%nat.
Proof.
  induction es as [|e es IH]; [done|]. rewrite pack_of_cons, length_app.
  destruct (encode_elem_cons e) as (b & r & ->). simpl. lia.
Qed.

Lemma packEach_loop_encode {St} fuel e rest fn (st : St) :
  go_len e ->
  packEach_loop (S fuel) (encode_elem e ++ rest) fn st =
  let '(st, more) := fn e st in
  if more then packEach_loop fuel rest fn st else Ret st.
Proof.
  intros He. pose proof (Uvarint_encode_elem e rest He) as EU.
  destruct (encode_elem_cons e) as (b & r & Eb).
  unfold packEach_loop; fold (@packEach_loop St).
  rewrite Eb at 1. cbn [app]. rewrite EU.
  unfold encode_elem. rewrite <- app_assoc.
  rewrite slice_from_app by done. orun.
  rewrite slice_to_app, slice_from_app by done. done.
Qed.

Lemma packEach_loop_pack_of {St} fuel es fn (st : St) :
  Forall go_len es -> (length es <= fuel)%nat ->
  packEach_loop fuel (pack_of es) fn st = Ret (each es fn st).
Proof.
  revert fuel st. induction es as [|e es IH]; intros fuel st Hes Hf.
  { by destruct fuel. }
  inversion_clear Hes. destruct fuel as [|fuel]; [simpl in Hf; lia|].
  rewrite pack_of_cons, packEach_loop_encode by done. cbn [each].
  destruct (fn e st) as [st' []]; [|done]. apply IH; [done|simpl in Hf; lia].
Qed.

(** The scan visits the packed elements in order. *)
Lemma packEach_pack_of {St} es fn (st : St) :
  Forall go_len es -> packEach (pack_of es) fn st = Ret (each es fn st).
Proof. intros. apply packEach_loop_pack_of; [done|apply length_pack_of]. Qed.

(** ** Lemmas: callbacks over lists *)

(** A callback that never stops is a left fold. *)
Lemma each_fold {A St} (es : list A) (f : A -> St -> St) (st : St) :
  each es (λ e st, (f e st, true)) st = foldl (λ st e, f e st) st es.
Proof. revert st. induction es; intros st; simpl; auto. Qed.

Lemma each_ext {A St} (es : list A) (f g : A -> St -> St * bool) (st : St) :
  (forall e st, f e st = g e st) -> each es f st = each es g st.
Proof.
  intros E. revert st. induction es as [|e es IH]; intros st; simpl; [done|].
  rewrite E. destruct (g e st) as [? []]; auto.
Qed.

Lemma foldl_snoc {A B} (f : A -> B) acc (es : list A) :
  foldl (λ acc e, acc ++ [f e]) acc es = acc ++ map f es.
Proof.
  revert acc. induction es as [|e es IH]; intros acc; simpl.
  - by rewrite app_nil_r.
  - by rewrite IH, <- app_assoc.
Qed.

(** The counting callback of the range queries collects [select lo hi]. *)
Definition collect {A B} (f : A -> B) (lo hi : Z) :
    A -> Z * list B -> (Z * list B) * bool :=
  λ e st, let '(i, out) := st in
  ((i + 1, if lo <=? i then out ++ [f e] else out), i + 1 <=? hi).

Lemma collect_spec {A B} (f : A -> B) lo hi (es : list A) (i : Z) out :
  0 <= i <= hi -> 0 <= lo -> hi - i < len es ->
  (each es (collect f lo hi) (i, out)).2 =
  out ++ map f (select (Z.max 0 (lo - i)) (hi - i) es).
Proof.
  revert i out. induction es as [|e es IH]; intros i out Hi Hlo Hlen.
  { unfold len in Hlen. simpl in Hlen. lia. }
  rewrite len_cons in Hlen. cbn [each collect].
  destruct (Z.leb_spec (i + 1) hi) as [Hle|Hgt].
  - rewrite IH by lia. unfold select.
    destruct (Z.leb_spec lo i).
    + rewrite (Z.max_l 0 (lo - (i + 1))), (Z.max_l 0 (lo - i)) by lia.
      replace (Z.to_nat (hi - i - 0 + 1)) with (S (Z.to_nat (hi - (i + 1) - 0 + 1))) by lia.
      simpl. by rewrite <- app_assoc.
    + rewrite (Z.max_r 0 (lo - i)) by lia.
      replace (Z.to_nat (lo - i)) with (S (Z.to_nat (Z.max 0 (lo - (i + 1))))) by lia.
      simpl. do 3 f_equal. lia.
  - assert (i = hi) as -> by lia. simpl. unfold select.
    destruct (Z.leb_spec lo hi).
    + rewrite Z.max_l by lia.
      replace (Z.to_nat (hi - hi - 0 + 1)) with 1%nat by lia. done.
    + rewrite Z.max_r by lia.
      replace (Z.to_nat (hi - hi - (lo - hi) + 1)) with 0%nat by lia.
      simpl. by rewrite app_nil_r.
Qed.

(** ** Lemmas: ranges *)

(** The bounds are within the sequence, also where the sums wrap around. *)
Lemma normalizeRange_bounds start stop length lo hi :
  normalizeRange start stop length = Some (lo, hi) -> 0 <= lo <= hi /\ hi < length.
Proof.
  unfold normalizeRange. generalize (wrap64 (length + start)), (wrap64 (length + stop)). intros a b.
  zcases; intros; zcases.
Qed.

(** The elements that the normalized bounds select. *)
Definition in_range {A} (start stop : Z) (es : list A) : list A :=
  match normalizeRange start stop (len es) with
  | Some (lo, hi) => select lo hi es
  | None => []
  end.

Lemma select_all {A} lo hi (es : list A) :
  lo = 0 -> hi = len es - 1 -> select lo hi es = es.
Proof. intros -> ->. unfold select, len. rewrite drop_0. apply take_ge. lia. Qed.

Lemma len_select {A} lo hi (es : list A) :
  0 <= lo <= hi -> hi < len es -> len (select lo hi es) = hi - lo + 1.
Proof. unfold select, len. rewrite length_take, length_drop. lia. Qed.

(** The normalized bounds select what the Redis range semantics selects. *)
Lemma normalizeRange_spec {A} start stop (es : list A) :
  is_int64 start -> is_int64 stop -> len es <= MaxInt64 ->
  in_range start stop es = range_spec start stop es.
Proof.
  unfold is_int64, MinInt64, MaxInt64. intros Hs Ht Hl.
  pose proof (len_nonneg es). unfold range_spec.
  assert (forall lo hi, hi < lo \/ len es <= lo -> [] = select lo hi es) as Hempty.
  { intros lo hi [?|?]; unfold select.
    - by replace (Z.to_nat (hi - lo + 1)) with 0%nat by lia.
    - rewrite drop_ge by (unfold len in *; lia). by rewrite take_nil. }
  unfold in_range, normalizeRange, from_end.
  destruct (Z.ltb_spec start 0), (Z.ltb_spec stop 0); simpl;
    rewrite ?wrap64_id by (unfold is_int64, MinInt64, MaxInt64; lia);
    zcases; try (apply Hempty; lia); f_equal; lia.
Qed.
