(* ===== verification/ValueList.v ===== *)
(** * internal/value/list.go

    [List]: a packed byte slice that promotes to a doubly linked list. The
    linked representation is modelled with its pointers: an arena of nodes
    addressed by locations, a head, a tail and a length. The refinement
    relation [list_rep] says a [List] in either encoding holds a sequence of
    elements; each operation is proved against that sequence. *)

From S2P Require Import Prelude GoBinary Pack.

(** ** The promoted representation *)

Definition loc := nat.

Record listNode := mkNode {
  ln_value : bytes;
  ln_prev : option loc;
  ln_next : option loc }.

(** [fl_alloc] is the next free location of the arena. *)
Record fullList := mkFull {
  fl_heap : gmap loc listNode;
  fl_alloc : loc;
  fl_head : option loc;
  fl_tail : option loc;
  fl_length : Z }.

Definition new_fullList : fullList := mkFull ∅ 0%nat None None 0.

(** Pointer dereference; the nil pointer and a dangling one panic. *)
Definition deref (h : gmap loc listNode) (p : option loc) : outcome listNode :=
  match p with
  | Some q => match h !! q with Some n => Ret n | None => Panic NilDereference end
  | None => Panic NilDereference
  end.

(** [p.prev = v] and [p.next = v]. *)
Definition set_prev (h : gmap loc listNode) (p : loc) (v : option loc) : gmap loc listNode :=
  alter (λ n, mkNode (ln_value n) v (ln_next n)) p h.
Definition set_next (h : gmap loc listNode) (p : loc) (v : option loc) : gmap loc listNode :=
  alter (λ n, mkNode (ln_value n) (ln_prev n) v) p h.

Definition fullList_pushFront (l : fullList) (b : bytes) : fullList :=
  let n := fl_alloc l in
  let h := <[n := mkNode b None (fl_head l)]> (fl_heap l) in
  match fl_head l with
  | Some hd => mkFull (set_prev h hd (Some n)) (S n) (Some n) (fl_tail l) (fl_length l + 1)
  | None => mkFull h (S n) (Some n) (Some n) (fl_length l + 1)
  end.

Definition fullList_pushBack (l : fullList) (b : bytes) : fullList :=
  let n := fl_alloc l in
  let h := <[n := mkNode b (fl_tail l) None]> (fl_heap l) in
  match fl_tail l with
  | Some tl => mkFull (set_next h tl (Some n)) (S n) (fl_head l) (Some n) (fl_length l + 1)
  | None => mkFull h (S n) (Some n) (Some n) (fl_length l + 1)
  end.

Definition fullList_popFront (l : fullList) : outcome (option bytes * fullList) :=
  match fl_head l with
  | None => Ret (None, l)
  | Some p =>
      n ← deref (fl_heap l) (Some p);
      Ret (Some (ln_value n),
        match ln_next n with
        | Some q => mkFull (set_prev (fl_heap l) q None) (fl_alloc l) (Some q) (fl_tail l)
                      (fl_length l - 1)
        | None => mkFull (fl_heap l) (fl_alloc l) None None (fl_length l - 1)
        end)
  end.

Definition fullList_popBack (l : fullList) : outcome (option bytes * fullList) :=
  match fl_tail l with
  | None => Ret (None, l)
  | Some p =>
      n ← deref (fl_heap l) (Some p);
      Ret (Some (ln_value n),
        match ln_prev n with
        | Some q => mkFull (set_next (fl_heap l) q None) (fl_alloc l) (fl_head l) (Some q)
                      (fl_length l - 1)
        | None => mkFull (fl_heap l) (fl_alloc l) None None (fl_length l - 1)
        end)
  end.

(** [for i := 0; i < lo; i++ { n = n.next }]. *)
Fixpoint skip_nodes (h : gmap loc listNode) (k : nat) (p : option loc) : outcome (option loc) :=
  match k with
  | O => Ret p
  | S k => n ← deref h p; skip_nodes h k (ln_next n)
  end.

(** [for i := lo; i <= hi; i++ { out = append(out, n.value); n = n.next }]. *)
Fixpoint take_nodes (h : gmap loc listNode) (k : nat) (p : option loc) : outcome (list bytes) :=
  match k with
  | O => Ret []
  | S k => n ← deref h p; out ← take_nodes h k (ln_next n); Ret (ln_value n :: out)
  end.

Definition fullList_rangeElems (l : fullList) (start stop : Z) : outcome (list bytes) :=
  match normalizeRange start stop (fl_length l) with
  | None => Ret []
  | Some (lo, hi) =>
      n ← skip_nodes (fl_heap l) (Z.to_nat lo) (fl_head l);
      take_nodes (fl_heap l) (Z.to_nat (hi - lo + 1)) n
  end.

(** ** List *)

Record List := mkList {
  l_pack : bytes;
  l_count : Z;
  l_full : option fullList;
  l_max : Thresholds }.

Definition NewList (max : Thresholds) : List := mkList [] 0 None max.

Definition List_Compact (l : List) : bool := bool_decide (l_full l = None).

Definition List_Len (l : List) : Z :=
  match l_full l with
  | Some f => fl_length f
  | None => l_count l
  end.

Definition List_promote (l : List) : outcome List :=
  full ← packEach (l_pack l) (λ e full, (fullList_pushBack full e, true)) new_fullList;
  Ret (mkList [] 0 (Some full) (l_max l)).

Definition List_promoteIfNeeded (l : List) (elemSize : Z) : outcome List :=
  if exceeded (l_max l) (l_count l) elemSize then List_promote l else Ret l.

Definition List_PushFront (l : List) (b : bytes) : outcome List :=
  match l_full l with
  | Some f => Ret (mkList (l_pack l) (l_count l) (Some (fullList_pushFront f b)) (l_max l))
  | None =>
      List_promoteIfNeeded
        (mkList (packAppend [] b ++ l_pack l) (l_count l + 1) None (l_max l)) (len b)
  end.

Definition List_PushBack (l : List) (b : bytes) : outcome List :=
  match l_full l with
  | Some f => Ret (mkList (l_pack l) (l_count l) (Some (fullList_pushBack f b)) (l_max l))
  | None =>
      List_promoteIfNeeded
        (mkList (packAppend (l_pack l) b) (l_count l + 1) None (l_max l)) (len b)
  end.

Definition List_PopFront (l : List) : outcome (option bytes * List) :=
  match l_full l with
  | Some f =>
      '(out, f) ← fullList_popFront f;
      Ret (out, mkList (l_pack l) (l_count l) (Some f) (l_max l))
  | None =>
      if l_count l =? 0 then Ret (None, l) else
      let '(n, w) := Uvarint (l_pack l) in
      out ← slice (l_pack l) w (w + wrap64 n);
      rest ← slice_from (l_pack l) (w + wrap64 n);
      Ret (Some out, mkList rest (l_count l - 1) None (l_max l))
  end.

(** The scan of [PopBack]: the offset of the last element, and where its data
    starts and how long it is. *)
Fixpoint popBack_scan (fuel : nat) (pack : bytes) (off : Z) (last : Z * Z * Z) :
    outcome (Z * Z * Z) :=
  if off <? len pack then
    match fuel with
    | O => Diverge
    | S fuel =>
        tl ← slice_from pack off;
        let '(n, w) := Uvarint tl in
        popBack_scan fuel pack (off + w + wrap64 n) (off, off + w, wrap64 n)
    end
  else Ret last.

Definition List_PopBack (l : List) : outcome (option bytes * List) :=
  match l_full l with
  | Some f =>
      '(out, f) ← fullList_popBack f;
      Ret (out, mkList (l_pack l) (l_count l) (Some f) (l_max l))
  | None =>
      if l_count l =? 0 then Ret (None, l) else
      '(lastOff, dataOff, dataLen) ← popBack_scan (length (l_pack l)) (l_pack l) 0 (0, 0, 0);
      out ← slice (l_pack l) dataOff (dataOff + dataLen);
      rest ← slice_to (l_pack l) lastOff;
      Ret (Some out, mkList rest (l_count l - 1) None (l_max l))
  end.

Definition List_Range (l : List) (start stop : Z) : outcome (list bytes) :=
  match l_full l with
  | Some f => fullList_rangeElems f start stop
  | None =>
      match normalizeRange start stop (l_count l) with
      | None => Ret []
      | Some (lo, hi) =>
          snd <$> packEach (l_pack l) (collect id lo hi) (0, [])
      end
  end.

(** ** Representation *)

(** A doubly linked list whose nodes, in order, are [ns]: each location carries
    its element and is linked to its neighbours both ways. *)
Definition dll (f : fullList) (ns : list (loc * bytes)) : Prop :=
  NoDup ns.*1 /\
  Forall (λ p, p < fl_alloc f)%nat ns.*1 /\
  fl_head f = fst <$> head ns /\
  fl_tail f = fst <$> last ns /\
  fl_length f = len ns /\
  forall l1 p e l2, ns = l1 ++ (p, e) :: l2 ->
    fl_heap f !! p = Some (mkNode e (fst <$> last l1) (fst <$> head l2)).

Definition fl_rep (f : fullList) (es : list bytes) : Prop :=
  exists ns, dll f ns /\ es = ns.*2.

(** A list in either encoding holds the sequence [es]. *)
Definition list_rep (l : List) (es : list bytes) : Prop :=
  Forall go_len es /\
  match l_full l with
  | None => l_pack l = pack_of es /\ l_count l = len es
  | Some f => fl_rep f es
  end.

(** While compact, a collection is within its thresholds. *)
Definition list_within (l : List) (es : list bytes) : Prop :=
  l_full l = None ->
  len es <= Z.max 0 (MaxEntries (l_max l)) /\
  Forall (λ e, len e <= MaxBytes (l_max l)) es.

(** ** Lemmas: the linked list *)

Lemma dll_new : dll new_fullList [].
Proof. repeat split; try constructor. intros [] * ?; done. Qed.

(** The two ways a split falls over an appended element. *)
Lemma snoc_split {A} (ns l1 l2 : list A) x y :
  ns ++ [x] = l1 ++ y :: l2 ->
  (l2 = [] /\ l1 = ns /\ y = x) \/
  (exists l2', l2 = l2' ++ [x] /\ ns = l1 ++ y :: l2').
Proof.
  destruct l2 as [|z l2' _] using rev_ind; intros E.
  - left. by apply app_inj_tail in E as [-> ->].
  - right. exists l2'. rewrite app_comm_cons, app_assoc in E.
    by apply app_inj_tail in E as [-> ->].
Qed.

Lemma head_snoc {A} (l : list A) x : is_Some (head (l ++ [x])).
Proof. destruct l; by eexists. Qed.

Lemma head_app_some {A} (l l' : list A) x : head l = Some x -> head (l ++ l') = Some x.
Proof. by destruct l. Qed.

Section dll_facts.
Context (f : fullList) (ns : list (loc * bytes)) (Hdll : dll f ns).

Lemma dll_fresh p e : (p, e) ∈ ns -> p <> fl_alloc f.
Proof.
  destruct Hdll as (_ & Hlt & _). intros Hin ->.
  rewrite Forall_forall in Hlt.
  pose proof (Hlt (fl_alloc f) (list_elem_of_fmap_2 fst _ _ Hin)). simpl in *. lia.
Qed.

Lemma dll_NoDup_snoc b : NoDup (ns ++ [(fl_alloc f, b)]).*1.
Proof.
  rewrite fmap_app. apply NoDup_app. split_and!; [apply Hdll| |by apply NoDup_singleton].
  intros p ([q e] & -> & Hin)%list_elem_of_fmap. simpl. intros Hp.
  apply list_elem_of_singleton in Hp. by eapply dll_fresh.
Qed.

Lemma dll_alloc_lt b : Forall (λ p, p < S (fl_alloc f))%nat (ns ++ [(fl_alloc f, b)]).*1.
Proof.
  rewrite fmap_app. apply Forall_app. split.
  - eapply Forall_impl; [apply Hdll|]. simpl. lia.
  - repeat constructor.
Qed.
End dll_facts.

Lemma dll_pushFront f ns b :
  dll f ns -> dll (fullList_pushFront f b) ((fl_alloc f, b) :: ns).
Proof.
  intros Hdll. pose proof (dll_fresh _ _ Hdll) as Hfresh.
  pose proof (dll_NoDup_snoc _ _ Hdll b) as Hnd.
  pose proof (dll_alloc_lt _ _ Hdll b) as Hlt.
  rewrite <- Permutation_cons_append in Hnd, Hlt.
  destruct Hdll as (Hnd0 & _ & Hh & Ht & Hn & Hheap).
  unfold fullList_pushFront. rewrite Hh. destruct ns as [|[hd e0] ns]; simpl.
  - repeat split; simpl; try done.
    + by rewrite Hn.
    + intros [|x l1] p e l2 E; simplify_eq/=; [by simplify_map_eq|by destruct l1].
  - repeat split; simpl; try done.
    { rewrite Hn, !len_cons. lia. }
    intros [|x [|[q e1] l1]] p e l2 E; simplify_eq/=; unfold set_prev.
    + rewrite lookup_alter_ne by (eapply Hfresh; left). by simplify_map_eq.
    + rewrite lookup_alter_eq, lookup_insert_ne by (eapply not_eq_sym, Hfresh; left).
      by rewrite (Hheap [] p e l2 eq_refl).
    + assert ((p, e) ∈ (q, e1) :: l1 ++ (p, e) :: l2) as Hin by (right; apply elem_of_mid).
      assert (p <> q) as Hpq.
      { intros ->. apply NoDup_cons in Hnd0 as [Hnd0 _]. apply Hnd0.
        eauto with go. }
      rewrite lookup_alter_ne, lookup_insert_ne by (eauto using not_eq_sym).
      by rewrite (Hheap ((q, e1) :: l1) p e l2 eq_refl).
Qed.

Lemma dll_pushBack f ns b :
  dll f ns -> dll (fullList_pushBack f b) (ns ++ [(fl_alloc f, b)]).
Proof.
  intros Hdll. pose proof (dll_fresh _ _ Hdll) as Hfresh.
  pose proof (dll_NoDup_snoc _ _ Hdll b) as Hnd.
  pose proof (dll_alloc_lt _ _ Hdll b) as Hlt.
  destruct Hdll as (Hnd0 & _ & Hh & Ht & Hn & Hheap).
  unfold fullList_pushBack. rewrite Ht. destruct (last ns) as [[tl e0]|] eqn:El; simpl.
  - apply last_Some in El as [ns' ->].
    repeat split; simpl; try done.
    { rewrite Hh. by destruct ns'. }
    { by rewrite last_snoc. }
    { rewrite Hn, (len_app (ns' ++ _)). done. }
    intros l1 p e l2 [(-> & -> & [= -> ->])|(l2' & -> & E)]%snoc_split; unfold set_next.
    + rewrite lookup_alter_ne by (eapply Hfresh, elem_of_mid). rewrite lookup_insert_eq.
      by rewrite last_snoc.
    + assert ((p, e) ∈ ns' ++ [(tl, e0)]) as Hin by (rewrite E; apply elem_of_mid).
      pose proof (Hheap _ _ _ _ E) as Hp.
      apply snoc_split in E as [(-> & -> & [= -> ->])|(l2 & -> & ->)].
      * rewrite lookup_alter_eq, lookup_insert_ne by (eauto using not_eq_sym).
        by rewrite Hp.
      * assert (p <> tl).
        { intros ->. rewrite fmap_app in Hnd0. apply NoDup_app in Hnd0 as (_ & Hd & _).
          apply (Hd tl); [eauto with go|left]. }
        rewrite lookup_alter_ne, lookup_insert_ne by (eauto using not_eq_sym).
        rewrite Hp. by destruct l2.
  - apply last_None in El as ->. repeat split; simpl; try done.
    + by rewrite Hn.
    + intros [|x l1] p e l2 E; simplify_eq/=; [by simplify_map_eq|by destruct l1].
Qed.

Lemma dll_popFront f p e ns :
  dll f ((p, e) :: ns) ->
  exists f', fullList_popFront f = Ret (Some e, f') /\ dll f' ns.
Proof.
  intros (Hnd & Hlt & Hh & Ht & Hn & Hheap).
  unfold fullList_popFront. rewrite Hh. simpl.
  rewrite (Hheap [] p e ns eq_refl). orun. eexists. split; [done|].
  inversion_clear Hlt. rewrite len_cons in Hn.
  apply NoDup_cons in Hnd as [Hp Hnd].
  destruct ns as [|[q e1] ns]; simpl.
  - repeat split; simpl; try done; [rewrite Hn; done|]. by intros [].
  - repeat split; simpl; try done; [lia|].
    apply NoDup_cons in Hnd as [Hq _]. unfold set_prev.
    intros [|[q' e'] l1] p' e'' l2 E; simplify_eq/=.
    + rewrite lookup_alter_eq, (Hheap [(p, e)] p' e'' l2 eq_refl). done.
    + rewrite lookup_alter_ne by (intros <-; apply Hq; eauto with go).
      rewrite (Hheap ((p, e) :: (q', e') :: l1) p' e'' l2 eq_refl). done.
Qed.

Lemma dll_popBack f p e ns :
  dll f (ns ++ [(p, e)]) ->
  exists f', fullList_popBack f = Ret (Some e, f') /\ dll f' ns.
Proof.
  intros (Hnd & Hlt & Hh & Ht & Hn & Hheap).
  unfold fullList_popBack. rewrite Ht, last_snoc. simpl.
  rewrite (Hheap ns p e [] eq_refl). orun. eexists. split; [done|].
  rewrite fmap_app in Hlt, Hnd. apply Forall_app in Hlt as [Hlt _].
  apply NoDup_app in Hnd as (Hnd & _).
  rewrite len_app, len_cons, len_nil in Hn.
  destruct (last ns) as [[q e1]|] eqn:El; simpl.
  - apply last_Some in El as [ns' ->]. repeat split; simpl; try done.
    { rewrite Hh. by destruct ns'. }
    { by rewrite last_snoc. }
    { lia. }
    unfold set_next. intros l1 p' e' l2 E.
    specialize (Hheap l1 p' e' (l2 ++ [(p, e)])). rewrite E, <- app_assoc in Hheap.
    specialize (Hheap eq_refl).
    apply snoc_split in E as [(-> & -> & [= -> ->])|(l2' & -> & ->)].
    + by rewrite lookup_alter_eq, Hheap.
    + rewrite lookup_alter_ne.
      { rewrite Hheap. by destruct l2'. }
      intros ->. rewrite fmap_app in Hnd. apply NoDup_app in Hnd as (_ & Hd & _).
      apply (Hd p'); [eauto with go|left].
  - apply last_None in El as ->. repeat split; simpl; try done; [lia|]. by intros [].
Qed.

Lemma dll_empty f : dll f [] ->
  fullList_popFront f = Ret (None, f) /\ fullList_popBack f = Ret (None, f).
Proof.
  intros (_ & _ & Hh & Ht & _). unfold fullList_popFront, fullList_popBack.
  by rewrite Hh, Ht.
Qed.

Lemma skip_nodes_dll f l1 l2 :
  dll f (l1 ++ l2) ->
  skip_nodes (fl_heap f) (length l1) (fl_head f) = Ret (fst <$> head l2).
Proof.
  intros (_ & _ & Hh & _ & _ & Hheap). rewrite Hh. clear Hh.
  assert (forall k l0, l0 ++ k ++ l2 = l1 ++ l2 ->
    skip_nodes (fl_heap f) (length k) (fst <$> head (k ++ l2)) = Ret (fst <$> head l2)) as Hk.
  { induction k as [|[p e] k IH]; intros l0 E; [done|]. cbn [length skip_nodes app head].
    simpl. rewrite (Hheap l0 p e (k ++ l2)) by done. orun. simpl.
    apply (IH (l0 ++ [(p, e)])). by rewrite <- app_assoc. }
  by apply (Hk l1 []).
Qed.

Lemma take_nodes_dll f l1 l2 l3 :
  dll f (l1 ++ l2 ++ l3) ->
  take_nodes (fl_heap f) (length l2) (fst <$> head (l2 ++ l3)) = Ret l2.*2.
Proof.
  intros (_ & _ & _ & _ & _ & Hheap).
  revert l1 Hheap. induction l2 as [|[p e] l2 IH]; intros l1 Hheap; [done|].
  cbn [length take_nodes app head]. simpl.
  rewrite (Hheap l1 p e (l2 ++ l3)) by done. orun. simpl.
  rewrite (IH (l1 ++ [(p, e)])); [done|]. intros l4 p0 e0 l5 E. apply Hheap. by rewrite <- E, <- app_assoc.
Qed.

Lemma fmap_select {A B} (g : A -> B) lo hi l : g <$> select lo hi l = select lo hi (g <$> l).
Proof. unfold select. by rewrite fmap_take, fmap_drop. Qed.

Lemma fl_range f es start stop :
  fl_rep f es -> fullList_rangeElems f start stop = Ret (in_range start stop es).
Proof.
  intros (ns & Hdll & ->). unfold fullList_rangeElems, in_range.
  assert (fl_length f = len ns.*2) as ->.
  { destruct Hdll as (_ & _ & _ & _ & -> & _). unfold len. by rewrite length_fmap. }
  destruct (normalizeRange _ _ _) as [[lo hi]|] eqn:E; [|done].
  apply normalizeRange_bounds in E as [Hlo Hhi].
  unfold len in Hhi. rewrite length_fmap in Hhi.
  rewrite <- fmap_select. unfold select.
  pose proof (take_drop (Z.to_nat lo) ns) as E1. rewrite <- E1 in Hdll.
  rewrite <- (take_drop (Z.to_nat (hi - lo + 1)) (drop (Z.to_nat lo) ns)) in Hdll.
  pose proof (skip_nodes_dll _ _ _ Hdll) as Hskip.
  rewrite length_take in Hskip. rewrite Nat.min_l in Hskip by lia.
  rewrite Hskip. orun. pose proof (take_nodes_dll _ _ _ _ Hdll) as Htake.
  rewrite length_take, length_drop in Htake. rewrite Nat.min_l in Htake by lia.
  exact Htake.
Qed.

(** ** Lemmas: the operations *)

Lemma NewList_rep max : list_rep (NewList max) [].
Proof. split; [constructor|done]. Qed.

Lemma NewList_within max : list_within (NewList max) [].
Proof. intros _. split; [unfold len; simpl; lia|constructor]. Qed.

Lemma List_Len_spec l es : list_rep l es -> List_Len l = len es.
Proof.
  intros [_ H]. unfold List_Len. destruct (l_full l) as [f|].
  - destruct H as (ns & (_ & _ & _ & _ & -> & _) & ->). unfold len. by rewrite length_fmap.
  - by destruct H.
Qed.

Lemma foldl_pushBack_rep es f es0 :
  fl_rep f es0 ->
  fl_rep (foldl (λ full e, fullList_pushBack full e) f es) (es0 ++ es).
Proof.
  revert f es0. induction es as [|e es IH]; intros f es0 (ns & Hdll & ->); simpl.
  - rewrite app_nil_r. by exists ns.
  - replace (ns.*2 ++ e :: es) with ((ns.*2 ++ [e]) ++ es) by by rewrite <- app_assoc.
    apply IH. exists (ns ++ [(fl_alloc f, e)]).
    split; [by apply dll_pushBack|]. by rewrite fmap_app.
Qed.

(** Promotion keeps the sequence. *)
Lemma List_promote_spec p c m es :
  p = pack_of es -> Forall go_len es ->
  exists l', List_promote (mkList p c None m) = Ret l' /\
    list_rep l' es /\ l_max l' = m /\ l_full l' <> None.
Proof.
  intros -> Hes. unfold List_promote. cbn [l_pack l_max].
  rewrite packEach_pack_of by done. orun. eexists. split; [done|].
  rewrite (each_fold es (λ e full, fullList_pushBack full e)).
  split_and!; [|done..]. split; [done|]. simpl.
  apply (foldl_pushBack_rep es new_fullList []). exists []. split; [apply dll_new|done].
Qed.

(** The push that both ends share, once the pack is extended. *)
Lemma List_promoteIfNeeded_spec p c m es b :
  p = pack_of es -> c = len es -> Forall go_len es ->
  Forall (λ e, e = b \/ len e <= MaxBytes m) es ->
  exists l', List_promoteIfNeeded (mkList p c None m) (len b) = Ret l' /\
    list_rep l' es /\ l_max l' = m /\ list_within l' es.
Proof.
  intros -> -> Hes Hsz. unfold List_promoteIfNeeded. cbn [l_max l_count].
  unfold exceeded. destruct (Z.ltb_spec (MaxEntries m) (len es)) as [?|Hc]; simpl;
    [|destruct (Z.ltb_spec (MaxBytes m) (len b)) as [?|Hb]; simpl].
  1-2: destruct (List_promote_spec (pack_of es) (len es) m es) as (l' & ? & ? & ? & ?);
    [done..|]; exists l'; split_and!; [done..|by intros ?].
  eexists. split_and!; [done|done|done|]. intros _. cbn [l_max]. split; [lia|].
  eapply Forall_impl; [apply Hsz|]. intros e [->|]; done.
Qed.

Lemma List_PushFront_spec l es b :
  list_rep l es -> list_within l es -> go_len b ->
  exists l', List_PushFront l b = Ret l' /\
    list_rep l' (b :: es) /\ l_max l' = l_max l /\ list_within l' (b :: es).
Proof.
  intros [Hes Hl] Hw Hb. unfold List_PushFront. destruct (l_full l) as [f|] eqn:Ef.
  - destruct Hl as (ns & Hdll & ->). eexists. split_and!; [done| |done|done].
    split; [by constructor|]. exists ((fl_alloc f, b) :: ns).
    split; [by apply dll_pushFront|done].
  - destruct Hl as [-> ->]. apply List_promoteIfNeeded_spec.
    + rewrite packAppend_nil. by rewrite <- pack_of_app.
    + rewrite len_cons. lia.
    + by constructor.
    + constructor; [by left|]. eapply Forall_impl; [apply (Hw Ef)|]. auto.
Qed.

Lemma List_PushBack_spec l es b :
  list_rep l es -> list_within l es -> go_len b ->
  exists l', List_PushBack l b = Ret l' /\
    list_rep l' (es ++ [b]) /\ l_max l' = l_max l /\ list_within l' (es ++ [b]).
Proof.
  intros [Hes Hl] Hw Hb. unfold List_PushBack. destruct (l_full l) as [f|] eqn:Ef.
  - destruct Hl as (ns & Hdll & ->). eexists. split_and!; [done| |done|done].
    split; [apply Forall_app; by repeat constructor|]. exists (ns ++ [(fl_alloc f, b)]).
    split; [by apply dll_pushBack|]. by rewrite fmap_app.
  - destruct Hl as [-> ->]. apply List_promoteIfNeeded_spec.
    + apply pack_of_snoc.
    + rewrite len_app. done.
    + apply Forall_app; by repeat constructor.
    + apply Forall_app; split; [|constructor; [by left|constructor]].
      eapply Forall_impl; [apply (Hw Ef)|]. auto.
Qed.

Lemma go_len_wrap e : go_len e -> wrap64 (len e) = len e.
Proof.
  intros. apply wrap64_id. unfold is_int64, MinInt64, MaxInt64, go_len in *.
  pose proof (len_nonneg e). lia.
Qed.

Lemma List_pop_empty l :
  list_rep l [] -> List_PopFront l = Ret (None, l) /\ List_PopBack l = Ret (None, l).
Proof.
  intros [_ Hl]. unfold List_PopFront, List_PopBack. destruct l as [p c [f|] m]; simpl in *.
  - destruct Hl as ([|] & Hdll & E); [|done].
    destruct (dll_empty _ Hdll) as [-> ->]. done.
  - destruct Hl as [-> ->]. done.
Qed.

Lemma list_within_sub l l' es es' :
  list_within l es -> l_max l' = l_max l -> (l_full l' = None -> l_full l = None) ->
  es' ⊆+ es -> list_within l' es'.
Proof.
  intros Hw Hm Hf Hsub Hc. destruct (Hw (Hf Hc)) as [Hn Hb]. rewrite Hm. split.
  - apply submseteq_length in Hsub. unfold len in *. lia.
  - rewrite Forall_forall in *. intros x Hx. apply Hb. by eapply elem_of_submseteq.
Qed.

Lemma List_PopFront_spec l e es :
  list_rep l (e :: es) -> list_within l (e :: es) ->
  exists l', List_PopFront l = Ret (Some e, l') /\
    list_rep l' es /\ l_max l' = l_max l /\ list_within l' es.
Proof.
  intros [Hes Hl] Hw. inversion_clear Hes as [|? ? He Hes'].
  assert (es ⊆+ e :: es) as Hsub by apply submseteq_cons, reflexivity.
  unfold List_PopFront. destruct (l_full l) as [f|] eqn:Ef.
  - destruct Hl as ([|[p e'] ns] & Hdll & [= -> ->]).
    destruct (dll_popFront _ _ _ _ Hdll) as (f' & -> & Hdll'). orun.
    eexists. split_and!; [done| |done|by eapply list_within_sub].
    split; [done|]. by exists ns.
  - destruct Hl as [Hp Hc]. rewrite Hc, len_cons.
    pose proof (len_nonneg es). destruct (Z.eqb_spec (1 + len es) 0); [lia|].
    rewrite Hp, pack_of_cons, Uvarint_encode_elem, go_len_wrap by done.
    unfold encode_elem. rewrite <- app_assoc, slice_mid by done. orun.
    rewrite app_assoc, slice_from_app by (rewrite len_app; done).
    eexists. split_and!; [done| |done|by eapply list_within_sub].
    split; [done|]. split; [done|]. simpl. lia.
Qed.

(** The scan finds the last element of a non-empty pack. *)
Lemma popBack_scan_spec fuel pre es e last :
  Forall go_len es -> go_len e -> (length es < fuel)%nat ->
  popBack_scan fuel (pre ++ pack_of (es ++ [e])) (len pre) last =
  Ret (len pre + len (pack_of es),
       len pre + len (pack_of es) + len (PutUvarint (len e)), len e).
Proof.
  revert fuel pre last. induction es as [|x es IH]; intros fuel pre last Hes He Hf.
  all: destruct fuel as [|fuel]; [simpl in Hf; lia|]; cbn [popBack_scan].
  - change ([] ++ [e]) with [e]. change (pack_of [e]) with (encode_elem e ++ []).
    rewrite app_nil_r.
    pose proof (PutUvarint_length (len e)). pose proof (len_nonneg e).
    assert (len (encode_elem e) = len (PutUvarint (len e)) + len e) as Hlen
      by (unfold encode_elem; by rewrite len_app).
    rewrite len_app, Hlen.
    destruct (Z.ltb_spec (len pre) (len pre + (len (PutUvarint (len e)) + len e)));
      [|unfold len in *; lia].
    rewrite slice_from_app by done. orun.
    rewrite <- (app_nil_r (encode_elem e)) at 1.
    rewrite Uvarint_encode_elem, go_len_wrap by done.
    destruct fuel as [|fuel]; cbn [popBack_scan]; rewrite len_app, Hlen;
      (destruct (Z.ltb_spec (len pre + len (PutUvarint (len e)) + len e)
        (len pre + (len (PutUvarint (len e)) + len e))); [lia|]);
      change (len (pack_of [])) with 0; do 2 f_equal; f_equal; lia.
  - inversion_clear Hes as [|? ? Hx Hes'].
    rewrite <- app_comm_cons, pack_of_cons.
    pose proof (PutUvarint_length (len x)). pose proof (len_nonneg x).
    pose proof (len_nonneg (pack_of (es ++ [e]))).
    assert (len (encode_elem x) = len (PutUvarint (len x)) + len x) as Hlen
      by (unfold encode_elem; by rewrite len_app).
    rewrite !len_app, Hlen.
    destruct (Z.ltb_spec (len pre) (len pre + (len (PutUvarint (len x)) + len x +
      len (pack_of (es ++ [e]))))); [|unfold len in *; lia].
    rewrite slice_from_app by done. orun.
    rewrite Uvarint_encode_elem, go_len_wrap by done.
    rewrite (app_assoc pre).
    replace (len pre + len (PutUvarint (len x)) + len x) with (len (pre ++ encode_elem x))
      by (rewrite len_app, Hlen; lia).
    rewrite IH by (try done; simpl in Hf; lia).
    rewrite pack_of_cons, !len_app, Hlen. do 2 f_equal. f_equal; lia.
Qed.

Lemma List_PopBack_spec l e es :
  list_rep l (es ++ [e]) -> list_within l (es ++ [e]) ->
  exists l', List_PopBack l = Ret (Some e, l') /\
    list_rep l' es /\ l_max l' = l_max l /\ list_within l' es.
Proof.
  intros [Hes Hl] Hw. apply Forall_app in Hes as [Hes He].
  inversion_clear He as [|? ? He0 _]; rename He0 into He.
  assert (es ⊆+ es ++ [e]) as Hsub by apply submseteq_inserts_r, reflexivity.
  unfold List_PopBack. destruct (l_full l) as [f|] eqn:Ef.
  - destruct Hl as (ns & Hdll & E).
    destruct ns as [|[p e'] ns _] using rev_ind; [by destruct es|].
    rewrite fmap_app in E. apply app_inj_tail in E as [-> ->].
    destruct (dll_popBack _ _ _ _ Hdll) as (f' & -> & Hdll'). orun.
    eexists. split_and!; [done| |done|by eapply list_within_sub].
    split; [done|]. by exists ns.
  - destruct Hl as [Hp Hc]. rewrite Hc, len_app. change (len [e]) with 1.
    pose proof (len_nonneg es). destruct (Z.eqb_spec (len es + 1) 0); [lia|].
    assert (length es < length (pack_of (es ++ [e])))%nat as Hf.
    { pose proof (length_pack_of (es ++ [e])) as Hle. rewrite length_app in Hle.
      simpl in Hle. lia. }
    pose proof (popBack_scan_spec _ [] es e (0, 0, 0) Hes He Hf) as Hscan.
    cbn [app] in Hscan. rewrite len_nil, !Z.add_0_l in Hscan.
    rewrite Hp, Hscan. orun. rewrite pack_of_app.
    change (pack_of [e]) with (encode_elem e ++ []). unfold encode_elem. rewrite app_nil_r.
    pose proof (slice_mid (pack_of es ++ PutUvarint (len e)) e [] _ _ eq_refl eq_refl) as Hsl.
    rewrite app_nil_r, <- app_assoc, len_app in Hsl. rewrite Hsl. orun.
    rewrite slice_to_app by done. orun.
    eexists. split_and!; [done| |done|by eapply list_within_sub].
    split; [done|]. split; [done|]. simpl. lia.
Qed.

Lemma List_Range_total l es start stop :
  list_rep l es -> List_Range l start stop = Ret (in_range start stop es).
Proof.
  intros [Hes Hl]. unfold List_Range. destruct (l_full l) as [f|].
  { by apply fl_range. }
  destruct Hl as [-> ->]. unfold in_range.
  destruct (normalizeRange _ _ _) as [[lo hi]|] eqn:E; [|done].
  apply normalizeRange_bounds in E as [Hlo Hhi].
  rewrite packEach_pack_of by done. orun. f_equal.
  rewrite collect_spec by lia. simpl. rewrite map_id. f_equal; lia.
Qed.

Lemma List_Range_spec l es start stop :
  list_rep l es -> is_int64 start -> is_int64 stop -> len es <= MaxInt64 ->
  List_Range l start stop = Ret (range_spec start stop es).
Proof. intros Hl Hs Ht Hn. rewrite (List_Range_total l es) by done. by rewrite normalizeRange_spec. Qed.

(** ** The contract: a double-ended queue *)

Inductive list_op :=
  | LPushFront (b : bytes)
  | LPushBack (b : bytes)
  | LPopFront
  | LPopBack
  | LRange (start stop : Z)
  | LLen.

Inductive list_obs :=
  | LDone
  | LPopped (b : option bytes)
  | LElems (es : list bytes)
  | LLength (n : Z).

Definition list_step (op : list_op) (l : List) : outcome (list_obs * List) :=
  match op with
  | LPushFront b => l ← List_PushFront l b; Ret (LDone, l)
  | LPushBack b => l ← List_PushBack l b; Ret (LDone, l)
  | LPopFront => '(o, l) ← List_PopFront l; Ret (LPopped o, l)
  | LPopBack => '(o, l) ← List_PopBack l; Ret (LPopped o, l)
  | LRange start stop => es ← List_Range l start stop; Ret (LElems es, l)
  | LLen => Ret (LLength (List_Len l), l)
  end.

Definition deque_step (op : list_op) (es : list bytes) : list_obs * list bytes :=
  match op with
  | LPushFront b => (LDone, b :: es)
  | LPushBack b => (LDone, es ++ [b])
  | LPopFront => (LPopped (head es), tail es)
  | LPopBack => (LPopped (last es), removelast es)
  | LRange start stop => (LElems (range_spec start stop es), es)
  | LLen => (LLength (len es), es)
  end.

Definition deque_spec (op : list_op) (es : list bytes) (o : list_obs) (es' : list bytes) : Prop :=
  deque_step op es = (o, es').

(** Arguments are Go slices and [int]s; a list never outgrows [int]. *)
Definition list_op_ok (op : list_op) (es : list bytes) : Prop :=
  len es <= MaxInt64 /\
  match op with
  | LPushFront b | LPushBack b => go_len b
  | LRange start stop => is_int64 start /\ is_int64 stop
  | _ => True
  end.

Definition list_inv (max : Thresholds) (l : List) (es : list bytes) : Prop :=
  list_rep l es /\ list_within l es /\ l_max l = max.

#[global] Instance list_simulates max :
  Simulates list_step deque_spec list_op_ok (list_inv max).
Proof.
  intros op l es (Hrep & Hw & Hm) [Hn Hok].
  destruct op; simpl in Hok; unfold list_step, deque_spec, deque_step.
  - destruct (List_PushFront_spec l es b) as (l' & -> & ? & ? & ?); [done..|].
    sim_step; split_and!; [done..|congruence].
  - destruct (List_PushBack_spec l es b) as (l' & -> & ? & ? & ?); [done..|].
    sim_step; split_and!; [done..|congruence].
  - destruct es as [|e es].
    + destruct (List_pop_empty l Hrep) as [-> _]. by sim_step.
    + destruct (List_PopFront_spec l e es) as (l' & -> & ? & ? & ?); [done..|].
      sim_step; split_and!; [done..|congruence].
  - destruct es as [|e es _] using rev_ind.
    + destruct (List_pop_empty l Hrep) as [_ ->]. by sim_step.
    + destruct (List_PopBack_spec l e es) as (l' & -> & ? & ? & ?); [done..|].
      rewrite last_snoc, removelast_last. sim_step; split_and!; [done..|congruence].
  - destruct Hok. rewrite (List_Range_spec l es) by done. by sim_step.
  - rewrite (List_Len_spec l es) by done. by sim_step.
Qed.

(** C15. Whatever its thresholds, a list behaves as a double-ended queue: every
    finite sequence of pushes, pops, range queries and length queries from the
    empty list returns (no bounds or nil-pointer panic, no endless scan), with
    exactly the answers of the queue, across the promotion from the packed to
    the linked encoding. At the end the list still holds the queue's elements,
    and if it is still packed it is within its thresholds. *)
Theorem List_refines_deque max ops :
  ok_run deque_spec list_op_ok ops [] ->
  exists obs l es,
    run list_step ops (NewList max) = Ret (obs, l) /\
    spec_run deque_spec ops [] obs es /\
    list_rep l es /\ list_within l es.
Proof.
  intros Hok.
  destruct (run_simulates list_step deque_spec list_op_ok (list_inv max) ops
    (NewList max) []) as (obs & l & es & E & Hs & Hrep & Hw & _).
  - split_and!; [apply NewList_rep|apply NewList_within|done].
  - done.
  - exists obs, l, es. done.
Qed.

(** The queue of the witness crosses the promotion threshold. *)
Definition list_witness_ops : list list_op :=
  [LPushBack (lit "a"); LPushFront (lit "b"); LPopBack; LPushBack (lit "c");
   LPushBack (lit "d"); LRange (-2) (-1); LPopFront; LPopBack; LLen].

Lemma List_refines_deque_witness :
  exists obs l es,
    run list_step list_witness_ops (NewList (mkThresholds 2 8)) = Ret (obs, l) /\
    spec_run deque_spec list_witness_ops [] obs es /\
    list_rep l es /\ list_within l es.
Proof.
  apply (List_refines_deque (mkThresholds 2 8) list_witness_ops).
  cbn [list_witness_ops ok_run].
  repeat (split; [by vm_compute|]; intros o a' E; vm_compute in E; simplify_eq).
  done.
Defined.
