(* ===== verification/ValueHash.v ===== *)
(** * internal/value/hash.go

    [Hash]: alternating field and value elements in a pack, promoting to a Go
    map. The refinement relation [hash_rep] says a [Hash] in either encoding
    holds a finite map; each operation is proved against that map. *)

From S2P Require Import Prelude GoBinary Pack.

(** ** Definitions *)

Record Hash := mkHash {
  h_pack : bytes;
  h_count : Z;
  h_full : option (gmap bytes bytes);
  h_max : Thresholds }.

Definition NewHash (max : Thresholds) : Hash := mkHash [] 0 None max.

Definition Hash_Compact (h : Hash) : bool := bool_decide (h_full h = None).

Definition Hash_Len (h : Hash) : Z :=
  match h_full h with
  | Some m => Z.of_nat (size m)
  | None => h_count h
  end.

(** [scanPairs]: the closure keeps the pending field and whether it has one. *)
Definition scanPairs {St} (buf : bytes) (fn : bytes -> bytes -> St -> St * bool)
    (st : St) : outcome St :=
  snd <$> packEach buf
    (λ e '((field, haveField), st),
      if haveField : bool then
        let '(st, more) := fn field e st in (((field, false), st), more)
      else (((e, true), st), true))
    (([], false), st).

Definition Hash_Get (h : Hash) (field : bytes) : outcome (option bytes) :=
  match h_full h with
  | Some m => Ret (m !! field)
  | None =>
      scanPairs (h_pack h)
        (λ f v out, if bool_decide (f = field) then (Some v, false) else (out, true)) None
  end.

Definition Hash_promote (h : Hash) : outcome Hash :=
  full ← scanPairs (h_pack h) (λ f v (full : gmap bytes bytes), (<[f := v]> full, true)) ∅;
  Ret (mkHash [] 0 (Some full) (h_max h)).

Definition Hash_promoteIfNeeded (h : Hash) (fieldSize valSize : Z) : outcome Hash :=
  let big := fieldSize in
  let big := if big <? valSize then valSize else big in
  if exceeded (h_max h) (h_count h) big then Hash_promote h else Ret h.

(** The closure of [Set] rebuilds the pack and records whether the field was
    there. *)
Definition set_closure (field val f v : bytes) (st : bool * bytes) : (bool * bytes) * bool :=
  let '(existed, rebuilt) := st in
  let rebuilt := packAppend rebuilt f in
  if bool_decide (f = field)
  then ((true, packAppend rebuilt val), true)
  else ((existed, packAppend rebuilt v), true).

Definition Hash_Set (h : Hash) (field val : bytes) : outcome (bool * Hash) :=
  match h_full h with
  | Some m =>
      let existed := bool_decide (is_Some (m !! field)) in
      Ret (negb existed, mkHash (h_pack h) (h_count h) (Some (<[field := val]> m)) (h_max h))
  | None =>
      '(existed, rebuilt) ← scanPairs (h_pack h) (set_closure field val) (false, []);
      let '(rebuilt, count) :=
        if existed : bool then (rebuilt, h_count h)
        else (packAppend (packAppend rebuilt field) val, h_count h + 1) in
      h ← Hash_promoteIfNeeded (mkHash rebuilt count None (h_max h)) (len field) (len val);
      Ret (negb existed, h)
  end.

Definition delete_closure (field f v : bytes) (st : bool * bytes) : (bool * bytes) * bool :=
  let '(found, rebuilt) := st in
  if bool_decide (f = field) then ((true, rebuilt), true)
  else ((found, packAppend (packAppend rebuilt f) v), true).

Definition Hash_Delete (h : Hash) (field : bytes) : outcome (bool * Hash) :=
  match h_full h with
  | Some m =>
      Ret (bool_decide (is_Some (m !! field)),
           mkHash (h_pack h) (h_count h) (Some (delete field m)) (h_max h))
  | None =>
      '(found, rebuilt) ← scanPairs (h_pack h) (delete_closure field) (false, []);
      if found : bool
      then Ret (true, mkHash rebuilt (h_count h - 1) None (h_max h))
      else Ret (false, h)
  end.

(** The flat sequence field, value, field, value, ... *)
Definition flat (ps : list (bytes * bytes)) : list bytes :=
  concat (map (λ p, [p.1; p.2]) ps).

(** [Pairs]; the iteration order of the promoted map is given by [seed]. *)
Definition Hash_Pairs (seed : list nat) (h : Hash) : outcome (list bytes) :=
  match h_full h with
  | Some m => Ret (flat (shuffle seed (map_to_list m)))
  | None => scanPairs (h_pack h) (λ f v out, (out ++ [f; v], true)) []
  end.

(** ** Representation *)

(** A packed hash holds its pairs [ps] in insertion order, without duplicates. *)
Definition pairs_rep (h : Hash) (ps : list (bytes * bytes)) : Prop :=
  h_pack h = pack_of (flat ps) /\ h_count h = len ps /\ NoDup ps.*1.

Definition pair_ok (P : bytes -> Prop) (m : gmap bytes bytes) : Prop :=
  map_Forall (λ f v, P f /\ P v) m.

Definition hash_rep (h : Hash) (m : gmap bytes bytes) : Prop :=
  pair_ok go_len m /\
  match h_full h with
  | None => exists ps, pairs_rep h ps /\ m = list_to_map ps
  | Some full => full = m
  end.

Definition hash_within (h : Hash) (m : gmap bytes bytes) : Prop :=
  h_full h = None ->
  Z.of_nat (size m) <= Z.max 0 (MaxEntries (h_max h)) /\
  pair_ok (λ b : bytes, len b <= MaxBytes (h_max h)) m.

(** ** Lemmas: scanning pairs *)

Lemma flat_app ps qs : flat (ps ++ qs) = flat ps ++ flat qs.
Proof. unfold flat. by rewrite map_app, concat_app. Qed.

Lemma Forall_flat P ps : Forall P (flat ps) <-> Forall (λ p, P p.1 /\ P p.2) ps.
Proof.
  induction ps as [|[f v] ps IH]; [split; constructor|].
  change (flat ((f, v) :: ps)) with (f :: v :: flat ps).
  rewrite !Forall_cons, IH. simpl. tauto.
Qed.

Lemma scanPairs_flat {St} ps (fn : bytes -> bytes -> St -> St * bool) st :
  Forall go_len (flat ps) ->
  scanPairs (pack_of (flat ps)) fn st = Ret (each ps (λ p, fn p.1 p.2) st).
Proof.
  intros Hps. unfold scanPairs. rewrite packEach_pack_of by done. orun. f_equal.
  clear Hps. generalize (@nil byte) as fld.
  revert st. induction ps as [|[f v] ps IH]; intros st fld; [done|].
  change (flat ((f, v) :: ps)) with (f :: v :: flat ps). cbn [each fst snd].
  destruct (fn f v st) as [st' []]; [apply IH|done].
Qed.

(** ** Lemmas: the list of pairs behind a packed hash *)

(** The pairs after a [Set] of an existing field. *)
Definition replace_pair (field val : bytes) (p : bytes * bytes) : bytes * bytes :=
  if bool_decide (p.1 = field) then (p.1, val) else p.

Lemma replace_pair_fst field val ps : (replace_pair field val <$> ps).*1 = ps.*1.
Proof.
  induction ps as [|[f v] ps IH]; [done|]. simpl. f_equal; [|done].
  unfold replace_pair. by case_bool_decide.
Qed.

Lemma list_to_map_replace field val (ps : list (bytes * bytes)) :
  field ∈ ps.*1 ->
  list_to_map (replace_pair field val <$> ps)
  =@{gmap bytes bytes} <[field := val]> (list_to_map ps).
Proof.
  intros Hin. apply map_eq. intros k. induction ps as [|[f v] ps IH]; [set_solver|].
  rewrite fmap_cons. unfold replace_pair at 1. simpl.
  case_bool_decide as E.
  - subst f. simpl. destruct (decide (k = field)) as [->|Hne].
    + by rewrite !lookup_insert_eq.
    + rewrite !lookup_insert_ne by done.
      destruct (decide (field ∈ ps.*1)) as [Hin'|Hout].
      * rewrite IH by done. by rewrite lookup_insert_ne.
      * clear IH Hin. induction ps as [|[f' v'] ps IH]; [done|].
        apply not_elem_of_cons in Hout as [? Hout]. rewrite fmap_cons.
        unfold replace_pair at 1. simpl in *. rewrite bool_decide_false by done. simpl.
        destruct (decide (k = f')) as [->|]; [by rewrite !lookup_insert_eq|].
        rewrite !lookup_insert_ne by done. auto.
  - simpl in Hin. apply elem_of_cons in Hin as [->|Hin]; [done|].
    simpl. destruct (decide (k = f)) as [->|Hne].
    + rewrite lookup_insert_eq, lookup_insert_ne, lookup_insert_eq by done. done.
    + rewrite lookup_insert_ne, IH by done.
      destruct (decide (k = field)) as [->|]; [by rewrite !lookup_insert_eq|].
      by rewrite !lookup_insert_ne.
Qed.

(** The element sizes of the map are those of the pairs. *)
Lemma pair_ok_pairs P (ps : list (bytes * bytes)) :
  NoDup ps.*1 -> pair_ok P (list_to_map ps) -> Forall P (flat ps).
Proof.
  intros Hnd Hok. apply Forall_flat, Forall_forall. intros [f v] Hin.
  apply (Hok f v). by apply elem_of_list_to_map.
Qed.

Lemma pack_flat_snoc ps f v :
  packAppend (packAppend (pack_of (flat ps)) f) v = pack_of (flat (ps ++ [(f, v)])).
Proof. by rewrite !pack_of_snoc, flat_app, <- app_assoc. Qed.

(** ** Lemmas: the closures *)

Lemma each_get field (ps : list (bytes * bytes)) :
  each ps (λ p out, if bool_decide (p.1 = field) then (Some p.2, false) else (out, true)) None
  = (list_to_map ps : gmap bytes bytes) !! field.
Proof.
  induction ps as [|[f v] ps IH]; [done|]. cbn [each fst snd list_to_map foldr].
  case_bool_decide as E; simpl.
  - subst. by rewrite lookup_insert_eq.
  - by rewrite lookup_insert_ne.
Qed.

Lemma set_closure_eq field val f v ex qs :
  set_closure field val f v (ex, pack_of (flat qs)) =
  ((bool_decide (f = field) || ex, pack_of (flat (qs ++ [replace_pair field val (f, v)]))), true).
Proof.
  unfold set_closure, replace_pair. simpl.
  case_bool_decide; by rewrite pack_flat_snoc.
Qed.

Lemma delete_closure_eq field f v ex qs :
  delete_closure field f v (ex, pack_of (flat qs)) =
  ((bool_decide (f = field) || ex,
    pack_of (flat (qs ++ filter (λ p, p.1 <> field) [(f, v)]))), true).
Proof.
  unfold delete_closure. rewrite filter_cons. simpl. case_bool_decide.
  - rewrite decide_False by naive_solver. by rewrite app_nil_r.
  - by rewrite decide_True, pack_flat_snoc.
Qed.

Lemma each_set field val ps qs ex :
  each ps (λ p, set_closure field val p.1 p.2) (ex, pack_of (flat qs))
  = (ex || bool_decide (field ∈ ps.*1), pack_of (flat (qs ++ (replace_pair field val <$> ps)))).
Proof.
  revert qs ex. induction ps as [|[f v] ps IH]; intros qs ex.
  { simpl. by rewrite orb_false_r, app_nil_r. }
  cbn [each fst snd]. rewrite set_closure_eq, IH, <- app_assoc.
  change (((f, v) :: ps).*1) with (f :: ps.*1). by rewrite bool_decide_elem_cons.
Qed.

Lemma each_delete field ps qs ex :
  each ps (λ p, delete_closure field p.1 p.2) (ex, pack_of (flat qs))
  = (ex || bool_decide (field ∈ ps.*1),
     pack_of (flat (qs ++ filter (λ p, p.1 <> field) ps))).
Proof.
  revert qs ex. induction ps as [|[f v] ps IH]; intros qs ex.
  { simpl. by rewrite orb_false_r, app_nil_r. }
  cbn [each fst snd]. rewrite delete_closure_eq, IH, <- app_assoc, <- filter_app.
  change (((f, v) :: ps).*1) with (f :: ps.*1). by rewrite bool_decide_elem_cons.
Qed.

Lemma each_promote (ps : list (bytes * bytes)) :
  NoDup ps.*1 ->
  each ps (λ p (full : gmap bytes bytes), (<[p.1 := p.2]> full, true)) ∅ = list_to_map ps.
Proof.
  rewrite (each_fold ps (λ p full, <[p.1 := p.2]> full)).
  induction ps as [|[f v] ps IH] using rev_ind; [done|].
  rewrite fmap_app, foldl_app. simpl. intros (Hnd & Hd & _)%NoDup_app.
  rewrite IH by done. rewrite list_to_map_snoc; [done|].
  intros Hin. by apply (Hd f), list_elem_of_here.
Qed.

Lemma each_pairs (ps : list (bytes * bytes)) out :
  each ps (λ p out, (out ++ [p.1; p.2], true)) out = out ++ flat ps.
Proof.
  revert out. induction ps as [|[f v] ps IH]; intros out; simpl.
  - by rewrite app_nil_r.
  - by rewrite IH, <- app_assoc.
Qed.

(** ** Lemmas: the operations *)

Lemma NewHash_rep max : hash_rep (NewHash max) ∅.
Proof.
  split; [apply map_Forall_empty|]. simpl. exists []. split; [|done].
  split_and!; [done|done|constructor].
Qed.

Lemma NewHash_within max : hash_within (NewHash max) ∅.
Proof. intros _. rewrite map_size_empty. split; [lia|apply map_Forall_empty]. Qed.

Lemma Hash_Len_spec h m : hash_rep h m -> Hash_Len h = Z.of_nat (size m).
Proof.
  intros [_ H]. unfold Hash_Len. destruct (h_full h); [by subst|].
  destruct H as (ps & (_ & -> & Hnd) & ->). by rewrite size_list_to_map.
Qed.

Lemma Hash_Get_spec h m field : hash_rep h m -> Hash_Get h field = Ret (m !! field).
Proof.
  intros [Hok H]. unfold Hash_Get. destruct (h_full h) as [full|]; [by subst|].
  destruct H as (ps & (-> & _ & Hnd) & ->).
  rewrite scanPairs_flat by (by apply pair_ok_pairs). by rewrite each_get.
Qed.

Lemma Hash_promoteIfNeeded_spec p c mx ps (field val : bytes) :
  p = pack_of (flat ps) -> c = len ps -> NoDup ps.*1 ->
  pair_ok go_len (list_to_map ps) ->
  pair_ok (λ b : bytes, len b <= Z.max (MaxBytes mx) (Z.max (len field) (len val))) (list_to_map ps) ->
  exists h', Hash_promoteIfNeeded (mkHash p c None mx) (len field) (len val) = Ret h' /\
    hash_rep h' (list_to_map ps) /\ h_max h' = mx /\ hash_within h' (list_to_map ps).
Proof.
  intros -> -> Hnd Hok Hsz. unfold Hash_promoteIfNeeded. cbn [h_max h_count].
  assert ((if len field <? len val then len val else len field)
    = Z.max (len field) (len val)) as -> by zcases.
  destruct (exceeded mx (len ps) (Z.max (len field) (len val))) eqn:Ex.
  - unfold Hash_promote. cbn [h_pack h_max].
    rewrite scanPairs_flat by (by apply pair_ok_pairs). orun.
    rewrite each_promote by done. eexists. split_and!; [done|done|done|by intros ?].
  - eexists. split_and!; [done| |done|].
    + split; [done|]. exists ps. done.
    + intros _. unfold exceeded in Ex. cbn [h_max].
      apply orb_false_iff in Ex as [?%Z.ltb_ge ?%Z.ltb_ge]. split.
      * rewrite size_list_to_map by done. unfold len in *. lia.
      * eapply map_Forall_impl; [apply Hsz|]. simpl. lia.
Qed.

Lemma pair_ok_insert P m f v :
  pair_ok P m -> P f -> P v -> pair_ok P (<[f := v]> m).
Proof. intros. by apply map_Forall_insert_2. Qed.

Lemma Hash_Set_spec h m field val :
  hash_rep h m -> hash_within h m -> go_len field -> go_len val ->
  exists h', Hash_Set h field val = Ret (bool_decide (m !! field = None), h') /\
    hash_rep h' (<[field := val]> m) /\ h_max h' = h_max h /\
    hash_within h' (<[field := val]> m).
Proof.
  intros [Hok H] Hw Hf Hv. unfold Hash_Set. destruct (h_full h) as [full|] eqn:Ef.
  - subst. assert (negb (bool_decide (is_Some (m !! field)))
      = bool_decide (m !! field = None)) as -> by by destruct (m !! field).
    eexists. split_and!; [done|split; [by apply pair_ok_insert|done]|done|by intros ?].
  - destruct (Hw Ef) as [_ Hsz]. destruct H as (ps & (-> & -> & Hnd) & ->).
    rewrite scanPairs_flat by (by apply pair_ok_pairs).
    pose proof (each_set field val ps [] false) as Heach.
    change (pack_of (flat [])) with (@nil byte) in Heach. cbn [app] in Heach.
    orun. rewrite Heach. clear Heach.
    set (mx := h_max h) in *.
    assert (exists ps', NoDup ps'.*1 /\
      list_to_map ps' = <[field := val]> (list_to_map ps : gmap bytes bytes) /\
      (if bool_decide (field ∈ ps.*1)
       then (pack_of (flat (replace_pair field val <$> ps)), len ps)
       else (packAppend (packAppend (pack_of (flat (replace_pair field val <$> ps)))
               field) val, len ps + 1)) = (pack_of (flat ps'), len ps')) as (ps' & Hnd' & Hm & E).
    { case_bool_decide as Hin.
      - exists (replace_pair field val <$> ps).
        rewrite replace_pair_fst, list_to_map_replace by done.
        split_and!; [done|done|]. unfold len. by rewrite length_fmap.
      - exists (ps ++ [(field, val)]). split_and!.
        + rewrite fmap_app. apply NoDup_app.
          split_and!; [done| |apply NoDup_singleton].
          intros x Hx ->%list_elem_of_singleton. done.
        + by rewrite list_to_map_snoc.
        + rewrite pack_flat_snoc, len_app. f_equal. do 4 f_equal.
          clear -Hin. induction ps as [|[f v] ps IH]; [done|].
          apply not_elem_of_cons in Hin as [? Hin]. rewrite fmap_cons, IH by done.
          unfold replace_pair. simpl in *. by rewrite bool_decide_false. }
    cbn [orb]. rewrite E.
    destruct (Hash_promoteIfNeeded_spec (pack_of (flat ps')) (len ps') mx ps' field val)
      as (h' & -> & Hrep & Hmx & Hw'); [done|done|done|rewrite Hm..|].
    { by apply pair_ok_insert. }
    { apply pair_ok_insert; [|lia..]. eapply map_Forall_impl; [apply Hsz|]. simpl. lia. }
    rewrite Hm in Hrep, Hw'. orun. exists h'. split_and!; [|done..]. do 2 f_equal.
    rewrite <- bool_decide_not. apply bool_decide_ext.
    rewrite eq_None_not_Some, lookup_list_to_map_is_Some. done.
Qed.

Lemma hash_within_delete h h' m field :
  hash_within h m -> h_max h' = h_max h -> (h_full h' = None -> h_full h = None) ->
  hash_within h' (delete field m).
Proof.
  intros Hw Hm Hf Hc. destruct (Hw (Hf Hc)) as [Hn Hb]. rewrite Hm. split.
  - rewrite map_size_delete. destruct (m !! field); unfold id; lia.
  - by apply map_Forall_delete.
Qed.

Lemma Hash_Delete_spec h m field :
  hash_rep h m -> hash_within h m ->
  exists h', Hash_Delete h field = Ret (bool_decide (is_Some (m !! field)), h') /\
    hash_rep h' (delete field m) /\ h_max h' = h_max h /\ hash_within h' (delete field m).
Proof.
  intros [Hok H] Hw. unfold Hash_Delete. destruct (h_full h) as [full|] eqn:Ef.
  - subst. eexists. split_and!; [done|split; [by apply map_Forall_delete|done]|done|].
    by intros ?.
  - destruct H as (ps & (Hp & Hc & Hnd) & ->). rewrite Hp.
    rewrite scanPairs_flat by (by apply pair_ok_pairs).
    pose proof (each_delete field ps [] false) as Heach.
    change (pack_of (flat [])) with (@nil byte) in Heach. cbn [app orb] in Heach.
    orun. rewrite Heach. clear Heach.
    assert (bool_decide (is_Some ((list_to_map ps : gmap bytes bytes) !! field))
      = bool_decide (field ∈ ps.*1)) as ->
      by apply bool_decide_ext, lookup_list_to_map_is_Some.
    case_bool_decide as Hin.
    + assert (NoDup (filter (λ p, p.1 <> field) ps).*1) as Hnd'.
      { eapply sublist_NoDup; [done|]. apply fmap_sublist, sublist_filter. }
      eexists. split_and!; [done| |done|by eapply hash_within_delete].
      split; [by apply map_Forall_delete|]. exists (filter (λ p, p.1 <> field) ps).
      split; [|by rewrite list_to_map_filter]. split_and!; [done| |].
      * assert (size (delete field (list_to_map ps : gmap bytes bytes)) = pred (length ps)) as Hsz.
        { rewrite map_size_delete_Some, size_list_to_map; [done|done|].
          by apply lookup_list_to_map_is_Some. }
        rewrite <- list_to_map_filter, size_list_to_map in Hsz by done.
        simpl. rewrite Hc. unfold len. rewrite Hsz.
        destruct ps; [by apply elem_of_nil in Hin|simpl; lia].
      * done.
    + assert (delete field (list_to_map ps : gmap bytes bytes) = list_to_map ps) as ->.
      { apply delete_id, not_elem_of_list_to_map_1, Hin. }
      exists h. split_and!; [done| |done|done]. split; [done|].
      rewrite Ef. exists ps. done.
Qed.

Lemma Hash_Pairs_spec seed h m :
  hash_rep h m ->
  exists ps, Hash_Pairs seed h = Ret (flat ps) /\ ps ≡ₚ map_to_list m.
Proof.
  intros [Hok H]. unfold Hash_Pairs. destruct (h_full h) as [full|].
  - subst. eexists. split; [done|]. apply shuffle_perm.
  - destruct H as (ps & (-> & _ & Hnd) & ->).
    rewrite scanPairs_flat by (by apply pair_ok_pairs).
    rewrite each_pairs. exists ps. split; [done|]. by rewrite map_to_list_to_map.
Qed.

(** ** The contract: a finite map *)

Inductive hash_op :=
  | HSet (field val : bytes)
  | HGet (field : bytes)
  | HDelete (field : bytes)
  | HPairs (seed : list nat)
  | HLen.

Inductive hash_obs :=
  | HBool (b : bool)
  | HVal (v : option bytes)
  | HFlat (es : list bytes)
  | HLength (n : Z).

Definition hash_step (op : hash_op) (h : Hash) : outcome (hash_obs * Hash) :=
  match op with
  | HSet f v => '(new, h) ← Hash_Set h f v; Ret (HBool new, h)
  | HGet f => v ← Hash_Get h f; Ret (HVal v, h)
  | HDelete f => '(b, h) ← Hash_Delete h f; Ret (HBool b, h)
  | HPairs seed => es ← Hash_Pairs seed h; Ret (HFlat es, h)
  | HLen => Ret (HLength (Hash_Len h), h)
  end.

Definition fmap_spec (op : hash_op) (m : gmap bytes bytes) (o : hash_obs)
    (m' : gmap bytes bytes) : Prop :=
  match op with
  | HSet f v => o = HBool (bool_decide (m !! f = None)) /\ m' = <[f := v]> m
  | HGet f => o = HVal (m !! f) /\ m' = m
  | HDelete f => o = HBool (bool_decide (is_Some (m !! f))) /\ m' = delete f m
  | HPairs _ => (exists ps, o = HFlat (flat ps) /\ ps ≡ₚ map_to_list m) /\ m' = m
  | HLen => o = HLength (Z.of_nat (size m)) /\ m' = m
  end.

Definition hash_op_ok (op : hash_op) (m : gmap bytes bytes) : Prop :=
  match op with
  | HSet f v => go_len f /\ go_len v
  | _ => True
  end.

Definition hash_inv (max : Thresholds) (h : Hash) (m : gmap bytes bytes) : Prop :=
  hash_rep h m /\ hash_within h m /\ h_max h = max.

#[global] Instance hash_simulates max :
  Simulates hash_step fmap_spec hash_op_ok (hash_inv max).
Proof.
  intros op h m (Hrep & Hw & Hm) Hok.
  destruct op as [f v|f|f|seed|]; simpl in Hok; unfold hash_step, fmap_spec.
  - destruct Hok, (Hash_Set_spec h m f v) as (h' & -> & ? & ? & ?); [done..|].
    sim_step. split_and!; [done..|congruence].
  - rewrite (Hash_Get_spec h m f) by done. by sim_step.
  - destruct (Hash_Delete_spec h m f) as (h' & -> & ? & ? & ?); [done..|].
    sim_step. split_and!; [done..|congruence].
  - destruct (Hash_Pairs_spec seed h m) as (ps & -> & ?); [done|].
    orun. eexists _, _, _. split; [done|]. split; [split; [by eexists|done]|done].
  - rewrite (Hash_Len_spec h m) by done. by sim_step.
Qed.

(** C16. Whatever its thresholds, a hash behaves as a finite map from fields to
    values: every finite sequence of sets, gets, deletes, enumerations and
    length queries from the empty hash returns without a panic or an endless
    scan, with the map's answers (an enumeration lists every pair once, in an
    order the language leaves open), across the promotion from the packed to
    the Go-map encoding; a hash still packed is within its thresholds. *)
Theorem Hash_refines_map max ops :
  ok_run fmap_spec hash_op_ok ops ∅ ->
  exists obs h m,
    run hash_step ops (NewHash max) = Ret (obs, h) /\
    spec_run fmap_spec ops ∅ obs m /\
    hash_rep h m /\ hash_within h m.
Proof.
  intros Hok.
  destruct (run_simulates hash_step fmap_spec hash_op_ok (hash_inv max) ops
    (NewHash max) ∅) as (obs & h & m & E & Hs & Hrep & Hw & _).
  - split_and!; [apply NewHash_rep|apply NewHash_within|done].
  - done.
  - exists obs, h, m. done.
Qed.

Definition hash_witness_ops : list hash_op :=
  [HSet (lit "f") (lit "1"); HSet (lit "g") (lit "2"); HSet (lit "f") (lit "3");
   HSet (lit "h") (lit "4"); HGet (lit "f"); HDelete (lit "g"); HPairs [1%nat]; HLen].

Lemma Hash_refines_map_witness :
  exists obs h m,
    run hash_step hash_witness_ops (NewHash (mkThresholds 2 8)) = Ret (obs, h) /\
    spec_run fmap_spec hash_witness_ops ∅ obs m /\
    hash_rep h m /\ hash_within h m.
Proof.
  apply (Hash_refines_map (mkThresholds 2 8) hash_witness_ops).
  cbn [hash_witness_ops ok_run].
  repeat (split; [by vm_compute|intros ? ? _]). done.
Defined.
