(* ===== verification/ValueSet.v ===== *)
(** * internal/value/set.go

    [Set]: members in a pack, promoting to a Go map used as a set. The
    refinement relation [set_rep] says a [Set] in either encoding holds a
    finite set; each operation is proved against that set. *)

From S2P Require Import Prelude GoBinary Pack.

(** ** The promoted representation *)

Definition fullSet_add (s : gset bytes) (member : bytes) : bool * gset bytes :=
  if bool_decide (member ∈ s) then (false, s) else (true, {[member]} ∪ s).

Definition fullSet_remove (s : gset bytes) (member : bytes) : bool * gset bytes :=
  if bool_decide (member ∈ s) then (true, s ∖ {[member]}) else (false, s).

Definition fullSet_contains (s : gset bytes) (member : bytes) : bool :=
  bool_decide (member ∈ s).

Definition fullSet_all (seed : list nat) (s : gset bytes) : list bytes :=
  shuffle seed (elements s).

(** ** Set *)

Record GoSet := mkSet {
  s_pack : bytes;
  s_count : Z;
  s_full : option (gset bytes);
  s_max : Thresholds }.

Definition NewSet (max : Thresholds) : GoSet := mkSet [] 0 None max.

Definition Set_Compact (s : GoSet) : bool := bool_decide (s_full s = None).

Definition Set_Len (s : GoSet) : Z :=
  match s_full s with
  | Some m => Z.of_nat (size m)
  | None => s_count s
  end.

Definition Set_scanContains (s : GoSet) (member : bytes) : outcome bool :=
  packEach (s_pack s)
    (λ e found, if bool_decide (e = member) then (true, false) else (found, true)) false.

Definition Set_promote (s : GoSet) : outcome GoSet :=
  full ← packEach (s_pack s) (λ e (full : gset bytes), ({[e]} ∪ full, true)) ∅;
  Ret (mkSet [] 0 (Some full) (s_max s)).

Definition Set_Add (s : GoSet) (member : bytes) : outcome (bool * GoSet) :=
  match s_full s with
  | Some m =>
      let '(added, m) := fullSet_add m member in
      Ret (added, mkSet (s_pack s) (s_count s) (Some m) (s_max s))
  | None =>
      present ← Set_scanContains s member;
      if present : bool then Ret (false, s) else
      let s := mkSet (packAppend (s_pack s) member) (s_count s + 1) None (s_max s) in
      s ← (if exceeded (s_max s) (s_count s) (len member) then Set_promote s else Ret s);
      Ret (true, s)
  end.

Definition remove_closure (member e : bytes) (st : bool * bytes) : (bool * bytes) * bool :=
  let '(found, rebuilt) := st in
  if bool_decide (e = member) then ((true, rebuilt), true)
  else ((found, packAppend rebuilt e), true).

Definition Set_Remove (s : GoSet) (member : bytes) : outcome (bool * GoSet) :=
  match s_full s with
  | Some m =>
      let '(removed, m) := fullSet_remove m member in
      Ret (removed, mkSet (s_pack s) (s_count s) (Some m) (s_max s))
  | None =>
      '(found, rebuilt) ← packEach (s_pack s) (remove_closure member) (false, []);
      if found : bool
      then Ret (true, mkSet rebuilt (s_count s - 1) None (s_max s))
      else Ret (false, s)
  end.

Definition Set_Contains (s : GoSet) (member : bytes) : outcome bool :=
  match s_full s with
  | Some m => Ret (fullSet_contains m member)
  | None => Set_scanContains s member
  end.

(** [Members]; the iteration order of the promoted map is given by [seed]. *)
Definition Set_Members (seed : list nat) (s : GoSet) : outcome (list bytes) :=
  match s_full s with
  | Some m => Ret (fullSet_all seed m)
  | None => packEach (s_pack s) (λ e out, (out ++ [e], true)) []
  end.

(** ** Representation *)

Definition members_rep (s : GoSet) (es : list bytes) : Prop :=
  s_pack s = pack_of es /\ s_count s = len es /\ NoDup es.

Definition set_rep (s : GoSet) (X : gset bytes) : Prop :=
  set_Forall go_len X /\
  match s_full s with
  | None => exists es, members_rep s es /\ X = list_to_set es
  | Some m => m = X
  end.

Definition set_within (s : GoSet) (X : gset bytes) : Prop :=
  s_full s = None ->
  Z.of_nat (size X) <= Z.max 0 (MaxEntries (s_max s)) /\
  set_Forall (λ b : bytes, len b <= MaxBytes (s_max s)) X.

(** ** Lemmas: the closures *)

Lemma each_contains member (es : list bytes) :
  each es (λ e found, if bool_decide (e = member) then (true, false) else (found, true)) false
  = bool_decide (member ∈ es).
Proof.
  induction es as [|e es IH]; [done|]. cbn [each].
  destruct (decide (e = member)) as [->|E].
  - rewrite !bool_decide_true; [done|apply list_elem_of_here|done].
  - rewrite (bool_decide_false (e = member)) by done. rewrite IH. apply bool_decide_ext.
    rewrite elem_of_cons. split; [auto|]. intros [->|]; done.
Qed.

Lemma remove_closure_eq member e ex qs :
  remove_closure member e (ex, pack_of qs) =
  ((bool_decide (e = member) || ex, pack_of (qs ++ filter (λ x, x <> member) [e])), true).
Proof.
  unfold remove_closure. rewrite filter_cons. case_bool_decide.
  - rewrite decide_False by naive_solver. by rewrite app_nil_r.
  - by rewrite decide_True, pack_of_snoc.
Qed.

Lemma each_remove member es qs ex :
  each es (remove_closure member) (ex, pack_of qs)
  = (ex || bool_decide (member ∈ es), pack_of (qs ++ filter (λ e, e <> member) es)).
Proof.
  revert qs ex. induction es as [|e es IH]; intros qs ex.
  { simpl. by rewrite orb_false_r, app_nil_r. }
  cbn [each]. rewrite remove_closure_eq, IH, <- app_assoc, <- filter_app.
  by rewrite bool_decide_elem_cons.
Qed.

Lemma each_union (es : list bytes) X :
  each es (λ e (full : gset bytes), ({[e]} ∪ full, true)) X = list_to_set es ∪ X.
Proof.
  revert X. induction es as [|e es IH]; intros X; cbn [each].
  - apply leibniz_equiv. set_solver.
  - rewrite IH. apply leibniz_equiv. set_solver.
Qed.

Lemma each_all (es : list bytes) : each es (λ e out, (out ++ [e], true)) [] = es.
Proof.
  rewrite (each_fold es (λ e out, out ++ [e])), (foldl_snoc id). by rewrite map_id.
Qed.

(** ** Lemmas: the operations *)

Lemma set_Forall_list_to_set (P : bytes -> Prop) (es : list bytes) :
  set_Forall P (list_to_set es : gset bytes) -> Forall P es.
Proof.
  intros H. apply Forall_forall. intros x Hx. apply H. by apply elem_of_list_to_set.
Qed.

Lemma size_list_to_set_NoDup (es : list bytes) :
  NoDup es -> size (list_to_set es : gset bytes) = length es.
Proof. apply size_list_to_set. Qed.

Lemma NewSet_rep max : set_rep (NewSet max) ∅.
Proof.
  split; [apply set_Forall_empty|]. simpl. exists []. split; [|done].
  split_and!; [done|done|constructor].
Qed.

Lemma NewSet_within max : set_within (NewSet max) ∅.
Proof. intros _. rewrite size_empty. split; [lia|apply set_Forall_empty]. Qed.

Lemma Set_Len_spec s X : set_rep s X -> Set_Len s = Z.of_nat (size X).
Proof.
  intros [_ H]. unfold Set_Len. destruct (s_full s); [by subst|].
  destruct H as (es & (_ & -> & Hnd) & ->). by rewrite size_list_to_set_NoDup.
Qed.

Lemma Set_scanContains_spec s es member :
  s_pack s = pack_of es -> Forall go_len es ->
  Set_scanContains s member = Ret (bool_decide (member ∈ es)).
Proof.
  intros Hp Hes. unfold Set_scanContains. rewrite Hp.
  rewrite packEach_pack_of by done. by rewrite each_contains.
Qed.

Lemma Set_Contains_spec s X member :
  set_rep s X -> Set_Contains s member = Ret (bool_decide (member ∈ X)).
Proof.
  intros [Hok H]. unfold Set_Contains. destruct (s_full s); [by subst|].
  destruct H as (es & (Hp & _) & ->). apply set_Forall_list_to_set in Hok.
  rewrite (Set_scanContains_spec s es) by done. f_equal.
  apply bool_decide_ext. by rewrite elem_of_list_to_set.
Qed.

Lemma set_Forall_insert (P : bytes -> Prop) (X : gset bytes) (x : bytes) :
  set_Forall P X -> P x -> set_Forall P ({[x]} ∪ X).
Proof. intros HX Hx y [->%elem_of_singleton|Hy]%elem_of_union; auto. Qed.

Lemma Set_Add_spec s X member :
  set_rep s X -> set_within s X -> go_len member ->
  exists s', Set_Add s member = Ret (bool_decide (member ∉ X), s') /\
    set_rep s' ({[member]} ∪ X) /\ s_max s' = s_max s /\ set_within s' ({[member]} ∪ X).
Proof.
  intros [Hok H] Hw Hm. unfold Set_Add. destruct (s_full s) as [m|] eqn:Ef.
  - subst m. unfold fullSet_add. rewrite bool_decide_not. case_bool_decide as Hin.
    + assert ({[member]} ∪ X = X) as -> by (apply leibniz_equiv; set_solver).
      eexists. split_and!; [done|done|done|by intros ?].
    + eexists. split_and!; [done| |done|by intros ?].
      split; [by apply set_Forall_insert|done].
  - destruct (Hw Ef) as [_ Hsz]. destruct H as (es & (Hp & Hc & Hnd) & ->).
    pose proof (set_Forall_list_to_set _ _ Hok) as Hes.
    rewrite (Set_scanContains_spec s es) by done. orun.
    rewrite bool_decide_not.
    rewrite (bool_decide_ext (member ∈ (list_to_set es : gset bytes)) (member ∈ es))
      by apply elem_of_list_to_set.
    case_bool_decide as Hin.
    + assert ({[member]} ∪ list_to_set es = (list_to_set es : gset bytes)) as ->.
      { apply leibniz_equiv. set_solver. }
      exists s. split_and!; [done| |done|done]. split; [done|]. rewrite Ef. by exists es.
    + assert (NoDup (es ++ [member])) as Hnd'.
      { apply NoDup_app. split_and!; [done| |apply NoDup_singleton].
        by intros x Hx ->%list_elem_of_singleton. }
      assert ({[member]} ∪ list_to_set es = (list_to_set (es ++ [member]) : gset bytes)) as EX.
      { rewrite list_to_set_app_L. simpl. apply leibniz_equiv. set_solver. }
      assert (set_Forall go_len ({[member]} ∪ list_to_set es : gset bytes)) as Hok'
        by by apply set_Forall_insert.
      rewrite EX in *. cbn [s_max s_count].
      rewrite Hp, Hc, pack_of_snoc. replace (len es + 1) with (len (es ++ [member]))
        by (rewrite len_app; done).
      destruct (exceeded _ _ _) eqn:Ex.
      * unfold Set_promote. cbn [s_pack s_max].
        rewrite packEach_pack_of by (apply set_Forall_list_to_set, Hok'). orun.
        rewrite each_union, union_empty_r_L.
        eexists. split_and!; [done|done|done|by intros ?].
      * orun. eexists. split_and!; [done|split; [done|by exists (es ++ [member])]|done|].
        intros _. unfold exceeded in Ex. cbn [s_max].
        apply orb_false_iff in Ex as [?%Z.ltb_ge ?%Z.ltb_ge]. split.
        -- rewrite size_list_to_set_NoDup by done. unfold len in *. lia.
        -- rewrite <- EX. by apply set_Forall_insert.
Qed.

Lemma set_within_remove s s' X member :
  set_within s X -> s_max s' = s_max s -> (s_full s' = None -> s_full s = None) ->
  set_within s' (X ∖ {[member]}).
Proof.
  intros Hw Hm Hf Hc. destruct (Hw (Hf Hc)) as [Hn Hb]. rewrite Hm. split.
  - assert (size (X ∖ {[member]}) <= size X)%nat by (apply subseteq_size; set_solver). lia.
  - intros x Hx. apply Hb. set_solver.
Qed.

Lemma Set_Remove_spec s X member :
  set_rep s X -> set_within s X ->
  exists s', Set_Remove s member = Ret (bool_decide (member ∈ X), s') /\
    set_rep s' (X ∖ {[member]}) /\ s_max s' = s_max s /\ set_within s' (X ∖ {[member]}).
Proof.
  intros [Hok H] Hw. assert (set_Forall go_len (X ∖ {[member]})) as Hok'.
  { intros x Hx. apply Hok. set_solver. }
  unfold Set_Remove. destruct (s_full s) as [m|] eqn:Ef.
  - subst m. unfold fullSet_remove. case_bool_decide as Hin.
    + eexists. split_and!; [done|by split|done|by intros ?].
    + assert (X ∖ {[member]} = X) as -> by (apply leibniz_equiv; set_solver).
      eexists. split_and!; [done|by split|done|by intros ?].
  - destruct H as (es & (Hp & Hc & Hnd) & EX).
    assert (Forall go_len es) as Hes by (apply set_Forall_list_to_set; by rewrite <- EX).
    rewrite Hp, packEach_pack_of by done.
    pose proof (each_remove member es [] false) as Heach.
    change (pack_of []) with (@nil byte) in Heach. cbn [app orb] in Heach.
    orun. rewrite Heach. clear Heach.
    assert (bool_decide (member ∈ X) = bool_decide (member ∈ es)) as ->.
    { apply bool_decide_ext. by rewrite EX, elem_of_list_to_set. }
    case_bool_decide as Hin.
    + eexists. split_and!; [done| |done|by eapply set_within_remove].
      split; [done|]. exists (filter (λ e, e <> member) es).
      assert (X ∖ {[member]} = list_to_set (filter (λ e, e <> member) es)) as ->.
      { rewrite EX. apply leibniz_equiv. intros x.
        rewrite elem_of_difference, !elem_of_list_to_set, list_elem_of_filter,
          elem_of_singleton. tauto. }
      split; [|done]. split_and!; [done| |by apply NoDup_filter].
      simpl. rewrite Hc. apply list_elem_of_split in Hin as (l1 & l2 & ->).
      apply NoDup_app in Hnd as (_ & Hd & [Hn2 _]%NoDup_cons).
      assert (forall l : list bytes, member ∉ l -> filter (λ e, e <> member) l = l) as Hid.
      { induction l as [|x l IHl]; [done|]. intros [? ?]%not_elem_of_cons.
        rewrite filter_cons_True, IHl by auto. done. }
      rewrite filter_app, filter_cons_False by naive_solver.
      rewrite !Hid; [rewrite !len_app, len_cons; lia|done|].
      intros Hm1. by apply (Hd member), list_elem_of_here.
    + assert (X ∖ {[member]} = X) as ->.
      { apply leibniz_equiv. rewrite EX. intros x.
        rewrite elem_of_difference, elem_of_list_to_set, elem_of_singleton. naive_solver. }
      exists s. split_and!; [done| |done|done]. split; [done|]. rewrite Ef. by exists es.
Qed.

Lemma Set_Members_spec seed s X :
  set_rep s X -> exists es, Set_Members seed s = Ret es /\ es ≡ₚ elements X.
Proof.
  intros [Hok H]. unfold Set_Members. destruct (s_full s) as [m|].
  - subst. eexists. split; [done|]. apply shuffle_perm.
  - destruct H as (es & (-> & _ & Hnd) & ->).
    rewrite packEach_pack_of by (by apply set_Forall_list_to_set).
    rewrite each_all. exists es. split; [done|]. by rewrite elements_list_to_set.
Qed.

(** ** The contract: a finite set *)

Inductive set_op :=
  | SAdd (member : bytes)
  | SRemove (member : bytes)
  | SContains (member : bytes)
  | SMembers (seed : list nat)
  | SLen.

Inductive set_obs :=
  | SBool (b : bool)
  | SElems (es : list bytes)
  | SLength (n : Z).

Definition set_step (op : set_op) (s : GoSet) : outcome (set_obs * GoSet) :=
  match op with
  | SAdd m => '(b, s) ← Set_Add s m; Ret (SBool b, s)
  | SRemove m => '(b, s) ← Set_Remove s m; Ret (SBool b, s)
  | SContains m => b ← Set_Contains s m; Ret (SBool b, s)
  | SMembers seed => es ← Set_Members seed s; Ret (SElems es, s)
  | SLen => Ret (SLength (Set_Len s), s)
  end.

Definition fset_spec (op : set_op) (X : gset bytes) (o : set_obs) (X' : gset bytes) : Prop :=
  match op with
  | SAdd m => o = SBool (bool_decide (m ∉ X)) /\ X' = {[m]} ∪ X
  | SRemove m => o = SBool (bool_decide (m ∈ X)) /\ X' = X ∖ {[m]}
  | SContains m => o = SBool (bool_decide (m ∈ X)) /\ X' = X
  | SMembers _ => (exists es, o = SElems es /\ es ≡ₚ elements X) /\ X' = X
  | SLen => o = SLength (Z.of_nat (size X)) /\ X' = X
  end.

Definition set_op_ok (op : set_op) (X : gset bytes) : Prop :=
  match op with SAdd m => go_len m | _ => True end.

Definition set_inv (max : Thresholds) (s : GoSet) (X : gset bytes) : Prop :=
  set_rep s X /\ set_within s X /\ s_max s = max.

#[global] Instance set_simulates max :
  Simulates set_step fset_spec set_op_ok (set_inv max).
Proof.
  intros op s X (Hrep & Hw & Hm) Hok.
  destruct op as [m|m|m|seed|]; simpl in Hok; unfold set_step, fset_spec.
  - destruct (Set_Add_spec s X m) as (s' & -> & ? & ? & ?); [done..|].
    sim_step. split_and!; [done..|congruence].
  - destruct (Set_Remove_spec s X m) as (s' & -> & ? & ? & ?); [done..|].
    sim_step. split_and!; [done..|congruence].
  - rewrite (Set_Contains_spec s X m) by done. by sim_step.
  - destruct (Set_Members_spec seed s X) as (es & -> & ?); [done|].
    orun. eexists _, _, _. split; [done|]. split; [split; [by eexists|done]|done].
  - rewrite (Set_Len_spec s X) by done. by sim_step.
Qed.

(** C17. Whatever its thresholds, a set behaves as a finite set of byte strings:
    every finite sequence of adds, removes, membership tests, enumerations and
    length queries from the empty set returns without a panic or an endless
    scan, with the set's answers (an enumeration lists every member once),
    across the promotion from the packed to the Go-map encoding; a set still
    packed is within its thresholds. *)
Theorem Set_refines_fset max ops :
  ok_run fset_spec set_op_ok ops ∅ ->
  exists obs s X,
    run set_step ops (NewSet max) = Ret (obs, s) /\
    spec_run fset_spec ops ∅ obs X /\
    set_rep s X /\ set_within s X.
Proof.
  intros Hok.
  destruct (run_simulates set_step fset_spec set_op_ok (set_inv max) ops
    (NewSet max) ∅) as (obs & s & X & E & Hs & Hrep & Hw & _).
  - split_and!; [apply NewSet_rep|apply NewSet_within|done].
  - done.
  - exists obs, s, X. done.
Qed.

Definition set_witness_ops : list set_op :=
  [SAdd (lit "a"); SAdd (lit "b"); SAdd (lit "a"); SAdd (lit "c"); SRemove (lit "b");
   SContains (lit "b"); SMembers [1%nat]; SLen].

Lemma Set_refines_fset_witness :
  exists obs s X,
    run set_step set_witness_ops (NewSet (mkThresholds 2 8)) = Ret (obs, s) /\
    spec_run fset_spec set_witness_ops ∅ obs X /\
    set_rep s X /\ set_within s X.
Proof.
  apply (Set_refines_fset (mkThresholds 2 8) set_witness_ops).
  cbn [set_witness_ops ok_run].
  repeat (split; [by vm_compute|intros ? ? _]). done.
Defined.
