(* ===== verification/Float64.v ===== *)
(** * float64: scores

    A Go [float64] is modelled by its IEEE 754 bit pattern, a 64-bit word, so
    [math.Float64bits] and [math.Float64frombits] are the identity. Equality
    and order are the IEEE ones: the sign-magnitude order of the patterns, with
    the two zeros equal and a NaN unordered. Also here: the order of sorted-set
    members ([zskipLess] of internal/value/zset.go), a strict total order on
    pairs without NaN. *)

From S2P Require Import Prelude.

Definition float64 := Z.

Definition is_f64 (f : float64) : Prop := 0 <= f < 2 ^ 64.

(** The exponent field all ones and the fraction zero: an infinity. *)
Definition inf_mag : Z := 2047 * 2 ^ 52.

Definition fmag (f : float64) : Z := f mod 2 ^ 63.
Definition fneg (f : float64) : bool := 2 ^ 63 <=? f.

(** [math.IsNaN] and [math.IsInf]. *)
Definition IsNaN (f : float64) : bool := inf_mag <? fmag f.
Definition IsInf (f : float64) (sign : Z) : bool :=
  (fmag f =? inf_mag) && (if 0 <? sign then negb (fneg f) else fneg f).

(** The integer whose order is the order of the floats. *)
Definition fkey (f : float64) : Z := if fneg f then - fmag f else fmag f.

Definition feq (a b : float64) : bool :=
  negb (IsNaN a) && negb (IsNaN b) && (fkey a =? fkey b).
Definition flt (a b : float64) : bool :=
  negb (IsNaN a) && negb (IsNaN b) && (fkey a <? fkey b).

(** [zskipLess]: by score, then by member. *)
Definition zskipLess (s1 : float64) (m1 : bytes) (s2 : float64) (m2 : bytes) : bool :=
  if negb (feq s1 s2) then flt s1 s2 else bytes_ltb m1 m2.

(** The same on (member, score) pairs. *)
Definition zless (a b : bytes * float64) : bool := zskipLess a.2 a.1 b.2 b.1.

Definition not_nan (a : bytes * float64) : Prop := IsNaN a.2 = false.

(** ** The order *)

Lemma zless_unfold a b :
  not_nan a -> not_nan b ->
  zless a b = (fkey a.2 <? fkey b.2) || ((fkey a.2 =? fkey b.2) && bytes_ltb a.1 b.1).
Proof.
  unfold not_nan, zless, zskipLess, feq, flt. intros -> ->. cbn [negb andb].
  zcases; reflexivity.
Qed.

Lemma zless_irrefl a : not_nan a -> zless a a = false.
Proof.
  intros. rewrite zless_unfold by done.
  by rewrite Z.ltb_irrefl, Z.eqb_refl, bytes_ltb_irrefl.
Qed.

Lemma zless_trans a b c :
  not_nan a -> not_nan b -> not_nan c ->
  zless a b = true -> zless b c = true -> zless a c = true.
Proof.
  intros. rewrite zless_unfold in * by done. zcases.
  all: repeat match goal with H : _ && _ = true |- _ => apply andb_true_iff in H as [? ?] end;
    eauto using bytes_ltb_trans.
Qed.

Lemma zless_asym a b : not_nan a -> not_nan b -> zless a b = true -> zless b a = false.
Proof.
  intros Ha Hb H. destruct (zless b a) eqn:E; [|done].
  by rewrite <- (zless_irrefl a), (zless_trans a b a).
Qed.

(** Two pairs neither of which is less have equal scores and the same member. *)
Lemma zless_total a b :
  not_nan a -> not_nan b ->
  zless a b = false -> zless b a = false -> fkey a.2 = fkey b.2 /\ a.1 = b.1.
Proof.
  intros. rewrite zless_unfold in * by done. zcases. eauto using bytes_ltb_total.
Qed.
