(* ===== verification/Skiplist.v ===== *)
(** * The skip list of internal/value/zset.go

    [zskiplist] with its pointers: an arena of nodes, each carrying one forward
    pointer per level of its tower. [insert] and [delete] are translated with
    the descent that fills the [update] array, the splice loop and the level
    adjustments. The representation predicate [sl_rep] determines every forward
    pointer from the ordered sequence of nodes and their heights; the
    operations are proved to insert into, delete from and read that sequence. *)

From S2P Require Import Prelude Float64.

(** ** Definitions *)

Definition zloc := nat.

Record zskiplistNode := mkZNode {
  zn_member : bytes;
  zn_score : float64;
  zn_next : list (option zloc) }.

(** The head node lives at location 0; [zs_alloc] is the next free one. *)
Record zskiplist := mkZSL {
  zs_heap : gmap zloc zskiplistNode;
  zs_alloc : zloc;
  zs_level : nat;
  zs_length : Z }.

Definition zskipMaxLevel : nat := 32.
Definition zhead : zloc := 0%nat.

Definition newZskiplist : zskiplist :=
  mkZSL {[zhead := mkZNode [] 0 (replicate zskipMaxLevel None)]} 1%nat 1%nat 0.

(** [zskipRandomLevel]: each [true] of [coins] is a draw below [zskipP]. The
    draws left over are returned. *)
Fixpoint flips (n : nat) (coins : list bool) : nat * list bool :=
  match n, coins with
  | S n, true :: coins => let '(k, rest) := flips n coins in (S k, rest)
  | S _, false :: coins => (0%nat, coins)
  | _, _ => (0%nat, coins)
  end.

Definition zskipRandomLevel (coins : list bool) : nat * list bool :=
  let '(k, rest) := flips (zskipMaxLevel - 1) coins in (S k, rest).

(** Node access: [x], [x.next[i]] and the assignment [x.next[i] = v]. *)
Definition zderef (h : gmap zloc zskiplistNode) (p : zloc) : outcome zskiplistNode :=
  match h !! p with Some n => Ret n | None => Panic NilDereference end.

Definition znext (h : gmap zloc zskiplistNode) (p : zloc) (i : nat) : outcome (option zloc) :=
  n ← zderef h p;
  match zn_next n !! i with Some q => Ret q | None => Panic IndexOutOfRange end.

Definition set_znext (h : gmap zloc zskiplistNode) (p : zloc) (i : nat) (v : option zloc) :
    outcome (gmap zloc zskiplistNode) :=
  n ← zderef h p;
  if bool_decide (i < length (zn_next n))%nat
  then Ret (<[p := mkZNode (zn_member n) (zn_score n) (<[i := v]> (zn_next n))]> h)
  else Panic IndexOutOfRange.

(** The inner loop of the descent: step along level [i] while the next node is
    less than the target. *)
Fixpoint zwalk (fuel : nat) (h : gmap zloc zskiplistNode) (i : nat)
    (score : float64) (member : bytes) (x : zloc) : outcome zloc :=
  q ← znext h x i;
  match q with
  | None => Ret x
  | Some q =>
      n ← zderef h q;
      if zskipLess (zn_score n) (zn_member n) score member then
        match fuel with
        | O => Diverge
        | S fuel => zwalk fuel h i score member q
        end
      else Ret x
  end.

(** The descent from level [i - 1] to level 0, filling [update]. *)
Fixpoint zdescend (fuel : nat) (h : gmap zloc zskiplistNode) (score : float64)
    (member : bytes) (i : nat) (x : zloc) (update : list (option zloc)) :
    outcome (zloc * list (option zloc)) :=
  match i with
  | O => Ret (x, update)
  | S i =>
      x ← zwalk fuel h i score member x;
      zdescend fuel h score member i x (<[i := Some x]> update)
  end.

(** [update[i]], which must not be nil. *)
Definition zupdate (update : list (option zloc)) (i : nat) : outcome zloc :=
  match update !! i with
  | Some (Some u) => Ret u
  | Some None => Panic NilDereference
  | None => Panic IndexOutOfRange
  end.

Definition zsplice_at (node : zloc) (update : list (option zloc))
    (h : gmap zloc zskiplistNode) (i : nat) : outcome (gmap zloc zskiplistNode) :=
  u ← zupdate update i;
  q ← znext h u i;
  h ← set_znext h node i q;
  set_znext h u i (Some node).

(** Insertion with a tower of the given height. *)
Definition zskiplist_insert_at (sl : zskiplist) (member : bytes) (score : float64)
    (level : nat) : outcome zskiplist :=
  '(_, update) ← zdescend (zs_alloc sl) (zs_heap sl) score member (zs_level sl) zhead
                   (replicate zskipMaxLevel None);
  let '(update, sl_level) :=
    if bool_decide (zs_level sl < level)%nat
    then (foldl (λ u i, <[i := Some zhead]> u) update
            (seq (zs_level sl) (level - zs_level sl)), level)
    else (update, zs_level sl) in
  let node := zs_alloc sl in
  let h := <[node := mkZNode member score (replicate level None)]> (zs_heap sl) in
  h ← ofold (zsplice_at node update) (seq 0 level) h;
  Ret (mkZSL h (S node) sl_level (zs_length sl + 1)).

Definition zskiplist_insert (sl : zskiplist) (member : bytes) (score : float64)
    (coins : list bool) : outcome (zskiplist * list bool) :=
  let '(level, coins) := zskipRandomLevel coins in
  sl ← zskiplist_insert_at sl member score level;
  Ret (sl, coins).

Definition zunlink_at (x : zloc) (update : list (option zloc))
    (h : gmap zloc zskiplistNode) (i : nat) : outcome (gmap zloc zskiplistNode) :=
  u ← zupdate update i;
  q ← znext h u i;
  if bool_decide (q = Some x) then
    v ← znext h x i;
    set_znext h u i v
  else Ret h.

(** [for sl.level > 1 && sl.head.next[sl.level-1] == nil { sl.level-- }], from
    level [S l1]. *)
Fixpoint zshrink (h : gmap zloc zskiplistNode) (l1 : nat) : outcome nat :=
  match l1 with
  | O => Ret 1%nat
  | S l =>
      q ← znext h zhead l1;
      match q with
      | None => zshrink h l
      | Some _ => Ret (S l1)
      end
  end.

Definition zskiplist_delete (sl : zskiplist) (member : bytes) (score : float64) :
    outcome zskiplist :=
  '(x, update) ← zdescend (zs_alloc sl) (zs_heap sl) score member (zs_level sl) zhead
                   (replicate zskipMaxLevel None);
  q ← znext (zs_heap sl) x 0;
  match q with
  | None => Ret sl
  | Some x =>
      n ← zderef (zs_heap sl) x;
      if bool_decide (zn_member n <> member) || negb (feq (zn_score n) score) then Ret sl else
      h ← ofold (zunlink_at x update) (seq 0 (zs_level sl)) (zs_heap sl);
      level ← zshrink h (pred (zs_level sl));
      Ret (mkZSL h (zs_alloc sl) level (zs_length sl - 1))
  end.

Fixpoint zskip (h : gmap zloc zskiplistNode) (k : nat) (x : option zloc) : outcome (option zloc) :=
  match k, x with
  | S k, Some p => q ← znext h p 0; zskip h k q
  | _, _ => Ret x
  end.

Fixpoint ztake (h : gmap zloc zskiplistNode) (k : nat) (x : option zloc) :
    outcome (list (bytes * float64)) :=
  match k, x with
  | S k, Some p =>
      n ← zderef h p;
      q ← znext h p 0;
      out ← ztake h k q;
      Ret ((zn_member n, zn_score n) :: out)
  | _, _ => Ret []
  end.

(** [eachInRank lo hi] with the members and scores it passes to its callback. *)
Definition zskiplist_eachInRank (sl : zskiplist) (lo hi : Z) :
    outcome (list (bytes * float64)) :=
  x ← znext (zs_heap sl) zhead 0;
  x ← zskip (zs_heap sl) (Z.to_nat lo) x;
  ztake (zs_heap sl) (Z.to_nat (hi - lo + 1)) x.

(** ** Representation *)

(** A node of the list: where it is, what it holds, how tall it is. *)
Record zitem := mkItem {
  zi_loc : zloc;
  zi_pair : bytes * float64;
  zi_height : nat }.

#[global] Instance zitem_eq_dec : EqDecision zitem.
Proof. solve_decision. Defined.

(** The nodes present on level [i]. *)
Definition chain (i : nat) (ns : list zitem) : list zitem :=
  filter (λ x, i < zi_height x)%nat ns.

(** The forward pointer on level [i] of a node followed by [l]. *)
Definition fwd (i : nat) (l : list zitem) : option zloc := zi_loc <$> head (chain i l).

(** The whole tower of a node of height [k] followed by [l]. *)
Definition tower (k : nat) (l : list zitem) : list (option zloc) :=
  (λ i, fwd i l) <$> seq 0 k.

Definition head_item : zitem := mkItem zhead ([], 0) zskipMaxLevel.

(** The heap holds the head followed by the nodes [ns]. *)
Definition heap_rep (h : gmap zloc zskiplistNode) (ns : list zitem) : Prop :=
  forall l1 x l2, head_item :: ns = l1 ++ x :: l2 ->
    h !! zi_loc x = Some (mkZNode (zi_pair x).1 (zi_pair x).2 (tower (zi_height x) l2)).

Definition zsorted (ps : list (bytes * float64)) : Prop :=
  StronglySorted (λ a b, zless a b = true) ps.

Definition sl_rep (sl : zskiplist) (ns : list zitem) : Prop :=
  heap_rep (zs_heap sl) ns /\
  NoDup (zi_loc <$> head_item :: ns) /\
  Forall (λ p, p < zs_alloc sl)%nat (zi_loc <$> head_item :: ns) /\
  (1 <= zs_level sl <= zskipMaxLevel)%nat /\
  Forall (λ x, 1 <= zi_height x <= zs_level sl)%nat ns /\
  zs_length sl = len ns /\
  zsorted (zi_pair <$> ns) /\
  Forall not_nan (zi_pair <$> ns).

(** ** Lemmas: towers *)

Lemma chain_app i l1 l2 : chain i (l1 ++ l2) = chain i l1 ++ chain i l2.
Proof. apply filter_app. Qed.

Lemma chain_cons_tall i x l : (i < zi_height x)%nat -> chain i (x :: l) = x :: chain i l.
Proof. intros. unfold chain. by rewrite filter_cons_True. Qed.

Lemma chain_cons_short i x l : ¬ (i < zi_height x)%nat -> chain i (x :: l) = chain i l.
Proof. intros. unfold chain. by rewrite filter_cons_False. Qed.

Lemma fwd_app_nil i l1 l2 : chain i l1 = [] -> fwd i (l1 ++ l2) = fwd i l2.
Proof. intros E. unfold fwd. by rewrite chain_app, E. Qed.

Lemma fwd_app_some i l1 l2 : chain i l1 <> [] -> fwd i (l1 ++ l2) = fwd i l1.
Proof. intros E. unfold fwd. rewrite chain_app. by destruct (chain i l1). Qed.

Lemma tower_lookup k l i : (i < k)%nat -> tower k l !! i = Some (fwd i l).
Proof. intros. unfold tower. by rewrite list_lookup_fmap, lookup_seq_lt. Qed.

Lemma tower_length k l : length (tower k l) = k.
Proof. unfold tower. by rewrite length_fmap, length_seq. Qed.

(** Splitting a level at its first node. *)
Lemma chain_split i l y c :
  chain i l = y :: c ->
  exists la lb, l = la ++ y :: lb /\ chain i la = [] /\ chain i lb = c /\ (i < zi_height y)%nat.
Proof.
  induction l as [|x l IH]; [done|]. destruct (decide (i < zi_height x)%nat).
  - rewrite chain_cons_tall by done. intros [= -> <-]. exists [], l. done.
  - rewrite chain_cons_short by done. intros (la & lb & -> & Ha & Hb & Hy)%IH.
    exists (x :: la), lb. rewrite chain_cons_short; done.
Qed.

(** ** Lemmas: node access *)

Section heap_access.
Context (h : gmap zloc zskiplistNode) (ns : list zitem) (Hrep : heap_rep h ns).

Lemma zderef_item l1 x l2 :
  head_item :: ns = l1 ++ x :: l2 ->
  zderef h (zi_loc x) = Ret (mkZNode (zi_pair x).1 (zi_pair x).2 (tower (zi_height x) l2)).
Proof. intros E. unfold zderef. by rewrite (Hrep _ _ _ E). Qed.

Lemma znext_item l1 x l2 i :
  head_item :: ns = l1 ++ x :: l2 -> (i < zi_height x)%nat ->
  znext h (zi_loc x) i = Ret (fwd i l2).
Proof.
  intros E Hi. unfold znext. rewrite (zderef_item _ _ _ E). orun. simpl.
  by rewrite tower_lookup.
Qed.
End heap_access.

Lemma set_znext_ok h p i v n :
  h !! p = Some n -> (i < length (zn_next n))%nat ->
  set_znext h p i v =
  Ret (<[p := mkZNode (zn_member n) (zn_score n) (<[i := v]> (zn_next n))]> h).
Proof.
  intros E Hi. unfold set_znext, zderef. rewrite E. orun. by rewrite bool_decide_true.
Qed.

(** ** Lemmas: the descent *)

(** The last node before the target on level [j]. *)
Definition is_pred (lt : list zitem) (j : nat) (y : zitem) : Prop :=
  exists l1 l2, head_item :: lt = l1 ++ y :: l2 /\ (j < zi_height y)%nat /\ chain j l2 = [].

Section descent.
Context (h : gmap zloc zskiplistNode) (lt ge : list zitem).
Context (Hrep : heap_rep h (lt ++ ge)).
Context (member : bytes) (score : float64).
Context (Hlt : Forall (λ x, zless (zi_pair x) (member, score) = true) lt).
Context (Hge : Forall (λ x, zless (zi_pair x) (member, score) = false) ge).

Lemma split_ge l1 x l2 :
  head_item :: lt = l1 ++ x :: l2 -> head_item :: lt ++ ge = l1 ++ x :: l2 ++ ge.
Proof. intros E. by rewrite app_comm_cons, E, <- app_assoc. Qed.

(** The node after the target on a level stops the walk. *)
Lemma walk_stop l1 x l2 i fuel :
  head_item :: lt = l1 ++ x :: l2 -> (i < zi_height x)%nat -> chain i l2 = [] ->
  zwalk fuel h i score member (zi_loc x) = Ret (zi_loc x).
Proof.
  intros E Hi Hc.
  assert (forall (k : zloc -> outcome zloc),
    (q ← znext h (zi_loc x) i;
     match q with
     | None => Ret (zi_loc x)
     | Some q => n ← zderef h q;
         if zskipLess (zn_score n) (zn_member n) score member then k q else Ret (zi_loc x)
     end) = Ret (zi_loc x)) as Hstop.
  { intros k. rewrite (znext_item _ _ Hrep _ _ _ _ (split_ge _ _ _ E) Hi). orun.
    rewrite fwd_app_nil by done. unfold fwd.
    destruct (chain i ge) as [|y c] eqn:Ec; simpl; [done|].
    destruct (chain_split _ _ _ _ Ec) as (la & lb & Eg & _).
    rewrite (zderef_item _ _ Hrep (head_item :: lt ++ la) y lb)
      by (rewrite Eg; simpl; by rewrite <- app_assoc).
    orun. cbn [zn_score zn_member].
    rewrite Eg in Hge. apply Forall_app in Hge as [_ Hge'].
    apply Forall_cons in Hge' as [Hy _]. unfold zless in Hy. simpl in Hy.
    by rewrite Hy. }
  destruct fuel; cbn [zwalk]; [apply (Hstop (λ _, Diverge))|apply Hstop].
Qed.

Lemma walk_spec fuel l1 x l2 i :
  head_item :: lt = l1 ++ x :: l2 -> (i < zi_height x)%nat -> (length l2 <= fuel)%nat ->
  exists y, zwalk fuel h i score member (zi_loc x) = Ret (zi_loc y) /\ is_pred lt i y.
Proof.
  revert l1 x l2. induction fuel as [|fuel IH]; intros l1 x l2 E Hi Hf.
  all: destruct (chain i l2) as [|y c] eqn:Ec.
  1, 3: exists x; split; [by eapply walk_stop|by exists l1, l2].
  { destruct l2; [done|simpl in Hf; lia]. }
  destruct (chain_split _ _ _ _ Ec) as (la & lb & -> & Ha & Hb & Hy).
  assert (head_item :: lt = (l1 ++ x :: la) ++ y :: lb) as E'
    by (rewrite E, <- app_assoc; done).
  destruct (IH _ _ _ E' Hy) as (z & Hz & Hp).
  { rewrite length_app in Hf. simpl in Hf. lia. }
  exists z. split; [|done]. cbn [zwalk].
  rewrite (znext_item _ _ Hrep _ _ _ _ (split_ge _ _ _ E) Hi). orun.
  rewrite <- app_assoc, fwd_app_nil by done.
  rewrite <- app_comm_cons. unfold fwd. rewrite chain_cons_tall by done. simpl.
  rewrite (zderef_item _ _ Hrep _ _ _ (split_ge _ _ _ E')). orun. cbn [zn_score zn_member].
  assert (y ∈ lt) as Hin.
  { destruct (l1 ++ x :: la) as [|a l] eqn:El; [by destruct l1|].
    simplify_eq/=. apply elem_of_mid. }
  rewrite Forall_forall in Hlt. specialize (Hlt _ Hin). unfold zless in Hlt. simpl in Hlt.
  by rewrite Hlt.
Qed.

(** The descent fills [update] with the predecessor of the target on every
    level, and ends at the one on level 0. *)
Lemma descend_spec fuel i l1 x l2 update :
  head_item :: lt = l1 ++ x :: l2 -> (i <= zi_height x)%nat ->
  (length lt <= fuel)%nat -> (i <= length update)%nat ->
  exists y update',
    zdescend fuel h score member i (zi_loc x) update = Ret (zi_loc y, update') /\
    length update' = length update /\
    (forall j, (j < i)%nat ->
      exists z, update' !! j = Some (Some (zi_loc z)) /\ is_pred lt j z) /\
    (forall j, (i <= j)%nat -> update' !! j = update !! j) /\
    (i = 0%nat -> y = x) /\ ((0 < i)%nat -> is_pred lt 0 y).
Proof.
  revert l1 x l2 update. induction i as [|i IH]; intros l1 x l2 update E Hi Hf Hu.
  { exists x, update. split_and!; [done|done|intros; lia|done|done|lia]. }
  assert (length l2 <= fuel)%nat as Hf2.
  { apply (f_equal length) in E. rewrite length_app in E. simpl in E. lia. }
  destruct (walk_spec fuel l1 x l2 i E ltac:(lia) Hf2) as (y & Hy & Hp).
  pose proof Hp as (l1' & l2' & E' & Hiy & Hc).
  destruct (IH l1' y l2' (<[i := Some (zi_loc y)]> update) E')
    as (z & u' & Hz & Hlen & Hlow & Hhigh & Hz0 & H0); [lia|lia|rewrite length_insert; lia|].
  exists z, u'. cbn [zdescend]. rewrite Hy. orun. split_and!.
  - done.
  - by rewrite length_insert in Hlen.
  - intros j Hj. destruct (decide (j = i)) as [->|]; [|apply Hlow; lia].
    exists y. split; [|done]. by rewrite Hhigh, list_lookup_insert_eq by lia.
  - intros j Hj. by rewrite Hhigh, list_lookup_insert_ne by lia.
  - lia.
  - intros _. destruct i as [|i]; [|apply H0; lia]. by rewrite Hz0.
Qed.
End descent.

(** ** Lemmas: relinking

    Insertion and deletion both change what follows the nodes before the
    target, from one suffix [S1] to another [S2], one level at a time. *)

Lemma map_seq_ext {A} (f g : nat -> A) k :
  (forall j, (j < k)%nat -> f j = g j) -> f <$> seq 0 k = g <$> seq 0 k.
Proof.
  intros H. apply list_fmap_ext. intros i x [-> Hi]%lookup_seq. apply H. lia.
Qed.

Lemma map_seq_insert {A} (f g : nat -> A) k i v :
  (forall j, (j < k)%nat -> g j = if decide (j = i) then v else f j) ->
  <[i := v]> (f <$> seq 0 k) = g <$> seq 0 k.
Proof.
  intros H. apply list_eq. intros j. destruct (decide (j < k)%nat) as [Hj|Hj].
  - rewrite (list_lookup_fmap g), lookup_seq_lt by done. simpl. rewrite H by done.
    case_decide as E.
    + subst. apply list_lookup_insert_eq. by rewrite length_fmap, length_seq.
    + rewrite list_lookup_insert_ne by done. by rewrite list_lookup_fmap, lookup_seq_lt.
  - rewrite !lookup_ge_None_2; [done|..]; rewrite ?length_insert, length_fmap, length_seq; lia.
Qed.

(** Two splits of one list are the same, or one element is left of the other. *)
Lemma split_trichotomy {A} (l1 l2 a b : list A) x u :
  l1 ++ x :: l2 = a ++ u :: b ->
  (l1 = a /\ x = u /\ l2 = b) \/
  (exists m, a = l1 ++ x :: m /\ l2 = m ++ u :: b) \/
  (exists m, l1 = a ++ u :: m /\ b = m ++ x :: l2).
Proof.
  revert a. induction l1 as [|y l1 IH]; intros [|z a] E; simpl in E; injection E as -> E.
  - by left.
  - right. left. by exists a.
  - right. right. by exists l1.
  - destruct (IH _ E) as [(-> & -> & ->)|[(m & -> & ->)|(m & -> & ->)]].
    + by left.
    + right. left. by exists m.
    + right. right. by exists m.
Qed.

(** A split of a concatenation falls on one side. *)
Lemma app_split {A} (a b l1 l2 : list A) x :
  a ++ b = l1 ++ x :: l2 ->
  (exists m, a = l1 ++ x :: m /\ l2 = m ++ b) \/ (exists m, b = m ++ x :: l2 /\ l1 = a ++ m).
Proof.
  revert l1. induction a as [|y a IH]; intros l1 E; simpl in *.
  - right. by exists l1.
  - destruct l1 as [|z l1]; simpl in E; injection E as -> E.
    + left. subst. by exists a.
    + destruct (IH _ E) as [(m & -> & ->)|(m & -> & ->)]; [left|right]; by exists m.
Qed.

Lemma chain_elem i l x : x ∈ l -> (i < zi_height x)%nat -> chain i l <> [].
Proof.
  intros Hx Hi E. assert (x ∈ chain i l) as Hin by (by apply list_elem_of_filter).
  rewrite E in Hin. by apply elem_of_nil in Hin.
Qed.

(** Only the predecessor has nothing after it on its level. *)
Lemma pred_last lt i a u b l1 x l2 :
  head_item :: lt = a ++ u :: b -> chain i b = [] ->
  head_item :: lt = l1 ++ x :: l2 -> (i < zi_height x)%nat -> (i < zi_height u)%nat ->
  (x = u /\ l2 = b) \/ chain i l2 <> [].
Proof.
  intros E Hb E' Hx Hu. rewrite E in E'.
  destruct (split_trichotomy _ _ _ _ _ _ E') as [(_ & -> & ->)|[(m & _ & Hm)|(m & _ & ->)]].
  - by left.
  - exfalso. eapply (chain_elem i b x); [rewrite Hm; apply elem_of_mid|done|done].
  - right. eapply chain_elem; [apply elem_of_mid|done].
Qed.

(** The tower of a node followed by [l2] when levels below [i] already see [S2]
    and the others still see [S1]. *)
Definition mix (i k : nat) (S1 S2 l2 : list zitem) : list (option zloc) :=
  (λ j, if decide (j < i)%nat then fwd j (l2 ++ S2) else fwd j (l2 ++ S1)) <$> seq 0 k.

Definition mix_rep (h : gmap zloc zskiplistNode) (lt : list zitem) (i : nat)
    (S1 S2 : list zitem) : Prop :=
  forall l1 x l2, head_item :: lt = l1 ++ x :: l2 ->
    h !! zi_loc x = Some (mkZNode (zi_pair x).1 (zi_pair x).2 (mix i (zi_height x) S1 S2 l2)).

Lemma mix_rep_start h lt S1 S2 :
  heap_rep h (lt ++ S1) -> mix_rep h lt 0 S1 S2.
Proof.
  intros H l1 x l2 E. by rewrite (H l1 x (l2 ++ S1)) by by apply split_ge.
Qed.

Lemma mix_znext h lt i S1 S2 u :
  mix_rep h lt i S1 S2 -> is_pred lt i u -> znext h (zi_loc u) i = Ret (fwd i S1).
Proof.
  intros H (a & b & E & Hu & Hb). unfold znext, zderef. rewrite (H _ _ _ E). orun.
  cbn [zn_next]. unfold mix. rewrite list_lookup_fmap, lookup_seq_lt by done. simpl.
  by rewrite decide_False, fwd_app_nil by (done || lia).
Qed.

(** A level whose two suffixes agree needs no relinking. *)
Lemma mix_rep_same h lt i S1 S2 :
  mix_rep h lt i S1 S2 -> fwd i S1 = fwd i S2 -> mix_rep h lt (S i) S1 S2.
Proof.
  intros H Hf l1 x l2 E. rewrite (H _ _ _ E). do 2 f_equal. apply map_seq_ext.
  intros j _. destruct (decide (j = i)) as [->|].
  - rewrite decide_False, decide_True by lia.
    destruct (decide (chain i l2 = [])).
    + by rewrite !fwd_app_nil.
    + by rewrite !fwd_app_some.
  - destruct (decide (j < i)%nat); [rewrite decide_True by lia|rewrite decide_False by lia]; done.
Qed.

Lemma mix_rep_step h lt i S1 S2 u :
  NoDup (zi_loc <$> head_item :: lt) ->
  mix_rep h lt i S1 S2 -> is_pred lt i u ->
  exists h', set_znext h (zi_loc u) i (fwd i S2) = Ret h' /\
    mix_rep h' lt (S i) S1 S2 /\
    (forall p, p <> zi_loc u -> h' !! p = h !! p).
Proof.
  intros Hnd H (a & b & E & Hu & Hb). rewrite (set_znext_ok _ _ _ _ _ (H _ _ _ E)).
  2: { simpl. unfold mix. by rewrite length_fmap, length_seq. }
  cbn [zn_next zn_member zn_score].
  eexists. split_and!; [done| |intros p Hp; by rewrite lookup_insert_ne].
  intros l1 x l2 E'.
  destruct (decide (x = u /\ l2 = b)) as [[-> ->]|Hne].
  - rewrite lookup_insert_eq. do 2 f_equal. apply map_seq_insert. intros j Hj.
    destruct (decide (j = i)) as [->|].
    + by rewrite decide_True, fwd_app_nil by (done || lia).
    + destruct (decide (j < i)%nat); [rewrite decide_True by lia|rewrite decide_False by lia]; done.
  - rewrite lookup_insert_ne.
    2: { intros Hloc. apply Hne. rewrite E in E'.
         destruct (split_trichotomy _ _ _ _ _ _ E') as [(_ & -> & ->)|[(m & Ha & Hm)|(m & Ha & Hm)]];
           [done|exfalso..]; rewrite E in Hnd.
         - rewrite Hm in Hnd. rewrite fmap_app, fmap_cons, fmap_app, fmap_cons, Hloc in Hnd.
           apply NoDup_app in Hnd as (_ & _ & [Hn _]%NoDup_cons). apply Hn, elem_of_mid.
         - rewrite Ha in Hnd. rewrite fmap_app, fmap_cons, fmap_app, fmap_cons, Hloc in Hnd.
           apply NoDup_app in Hnd as (_ & Hd & _). apply (Hd (zi_loc x)); [apply elem_of_mid|left]. }
    rewrite (H _ _ _ E'). do 2 f_equal. apply map_seq_ext. intros j Hj.
    destruct (decide (j = i)) as [->|].
    + rewrite decide_False, decide_True by lia.
      destruct (pred_last _ _ _ _ _ _ _ _ E Hb E' Hj Hu) as [|Hc]; [done|].
      by rewrite !fwd_app_some.
    + destruct (decide (j < i)%nat); [rewrite decide_True by lia|rewrite decide_False by lia]; done.
Qed.

(** [update] holds the predecessor of the target on every level below [k]. *)
Definition update_ok (lt : list zitem) (update : list (option zloc)) (k : nat) : Prop :=
  forall j, (j < k)%nat ->
    exists z, update !! j = Some (Some (zi_loc z)) /\ is_pred lt j z.

Lemma is_pred_elem lt j z : is_pred lt j z -> zi_loc z ∈ zi_loc <$> head_item :: lt.
Proof.
  intros (a & b & E & _). rewrite E. apply list_elem_of_fmap_2, elem_of_mid.
Qed.

Section splice.
Context (lt ge : list zitem) (node : zloc) (p : bytes * float64) (k : nat).
Context (Hnd : NoDup (zi_loc <$> head_item :: lt)).
Context (Hfresh : node ∉ (zi_loc <$> head_item :: lt)).

Local Abbreviation y := (mkItem node p k).

(** The new node's tower after [i] rounds of the splice loop. *)
Definition new_tower (i : nat) : list (option zloc) :=
  (λ j, if decide (j < i)%nat then fwd j ge else None) <$> seq 0 k.

Lemma new_tower_start : new_tower 0 = replicate k None.
Proof.
  unfold new_tower. apply list_eq. intros i. destruct (decide (i < k)%nat).
  - by rewrite lookup_replicate_2, list_lookup_fmap, lookup_seq_lt.
  - rewrite !lookup_ge_None_2; [done|..];
      rewrite ?length_replicate, ?length_fmap, ?length_seq; lia.
Qed.

Lemma splice_step h update i :
  (i < k)%nat -> mix_rep h lt i ge (y :: ge) ->
  h !! node = Some (mkZNode p.1 p.2 (new_tower i)) -> update_ok lt update k ->
  exists h', zsplice_at node update h i = Ret h' /\
    mix_rep h' lt (S i) ge (y :: ge) /\
    h' !! node = Some (mkZNode p.1 p.2 (new_tower (S i))) /\
    (forall q, q <> node -> q ∉ (zi_loc <$> head_item :: lt) -> h' !! q = h !! q).
Proof.
  intros Hi Hmix Hnode Hup. destruct (Hup i Hi) as (z & Ez & Hz).
  pose proof (is_pred_elem _ _ _ Hz) as Hzin.
  unfold zsplice_at, zupdate. rewrite Ez. orun.
  rewrite (mix_znext _ _ _ _ _ _ Hmix Hz). orun.
  rewrite (set_znext_ok _ _ _ _ _ Hnode)
    by (simpl; unfold new_tower; by rewrite length_fmap, length_seq).
  orun. cbn [zn_next zn_member zn_score]. set (h1 := <[node := _]> h).
  assert (mix_rep h1 lt i ge (y :: ge)) as Hmix1.
  { intros l1 x l2 E. unfold h1. rewrite lookup_insert_ne; [by apply Hmix with l1|].
    intros Heq. apply Hfresh. rewrite Heq, E. apply list_elem_of_fmap_2, elem_of_mid. }
  destruct (mix_rep_step h1 lt i ge (y :: ge) z Hnd Hmix1 Hz) as (h' & Hset & Hmix' & Hoth).
  assert (fwd i (y :: ge) = Some node) as Hfwd.
  { unfold fwd. by rewrite chain_cons_tall. }
  rewrite Hfwd in Hset. exists h'. split_and!; [done|done| |].
  - rewrite Hoth by (intros Heq; by rewrite <- Heq in Hzin). unfold h1.
    rewrite lookup_insert_eq.
    do 2 f_equal. apply map_seq_insert. intros j Hj.
    destruct (decide (j = i)) as [->|]; [by rewrite decide_True by lia|].
    destruct (decide (j < i)%nat); [rewrite decide_True by lia|rewrite decide_False by lia]; done.
  - intros q Hq Hq'. rewrite Hoth by (intros ->; done). unfold h1.
    by rewrite lookup_insert_ne.
Qed.

Lemma splice_loop n i h update :
  (i + n = k)%nat -> mix_rep h lt i ge (y :: ge) ->
  h !! node = Some (mkZNode p.1 p.2 (new_tower i)) -> update_ok lt update k ->
  exists h', ofold (zsplice_at node update) (seq i n) h = Ret h' /\
    mix_rep h' lt k ge (y :: ge) /\
    h' !! node = Some (mkZNode p.1 p.2 (tower k ge)) /\
    (forall q, q <> node -> q ∉ (zi_loc <$> head_item :: lt) -> h' !! q = h !! q).
Proof.
  revert i h. induction n as [|n IH]; intros i h Hk Hmix Hnode Hup; cbn [seq ofold].
  - assert (i = k) as -> by lia. exists h. split_and!; [done|done| |done].
    rewrite Hnode. do 2 f_equal. apply map_seq_ext. intros j Hj. by rewrite decide_True.
  - destruct (splice_step h update i) as (h1 & -> & Hmix1 & Hnode1 & Hoth1); [lia|done..|].
    orun. destruct (IH (S i) h1) as (h2 & -> & ? & ? & Hoth2); [lia|done..|].
    exists h2. split_and!; [done..|]. intros q Hq Hq'. by rewrite Hoth2, Hoth1.
Qed.

Lemma splice_heap_rep h :
  mix_rep h lt k ge (y :: ge) ->
  h !! node = Some (mkZNode p.1 p.2 (tower k ge)) ->
  (forall l1 x l2, ge = l1 ++ x :: l2 ->
    h !! zi_loc x = Some (mkZNode (zi_pair x).1 (zi_pair x).2 (tower (zi_height x) l2))) ->
  heap_rep h (lt ++ y :: ge).
Proof.
  intros Hmix Hnode Hge l1 x l2 E. rewrite app_comm_cons in E.
  destruct (app_split _ _ _ _ _ E) as [(m & E1 & ->)|(m & E1 & _)].
  - rewrite (Hmix _ _ _ E1). do 2 f_equal. apply map_seq_ext. intros j Hj.
    destruct (decide (j < k)%nat); [done|].
    unfold fwd. by rewrite !chain_app, (chain_cons_short j y).
  - destruct m as [|z m]; simpl in E1; injection E1 as <- E1.
    + by subst.
    + by eapply Hge.
Qed.
End splice.

(** ** Lemmas: the order *)

Lemma zsorted_app ps qs :
  zsorted (ps ++ qs) ->
  zsorted ps /\ zsorted qs /\ Forall (λ a, Forall (λ b, zless a b = true) qs) ps.
Proof.
  induction ps as [|a ps IH]; intros H; simpl in *.
  - split_and!; [constructor|done|constructor].
  - inversion_clear H as [|? ? H1 H2]. destruct (IH H1) as (? & ? & ?).
    apply Forall_app in H2 as [H2 H4]. split_and!; [by constructor|done|by constructor].
Qed.

Lemma zsorted_app_2 ps qs :
  zsorted ps -> zsorted qs -> Forall (λ a, Forall (λ b, zless a b = true) qs) ps ->
  zsorted (ps ++ qs).
Proof.
  induction ps as [|a ps IH]; intros H1 H2 H3; [done|]; simpl.
  inversion_clear H1. inversion_clear H3. constructor; [by apply IH|].
  apply Forall_app. done.
Qed.

(** A sorted sequence splits at a target. *)
Lemma zsorted_split (ns : list zitem) (tgt : bytes * float64) :
  zsorted (zi_pair <$> ns) -> Forall not_nan (zi_pair <$> ns) -> not_nan tgt ->
  exists lt ge, ns = lt ++ ge /\
    Forall (λ x, zless (zi_pair x) tgt = true) lt /\
    Forall (λ x, zless (zi_pair x) tgt = false) ge.
Proof.
  intros Hs Hn Ht. induction ns as [|x ns IH].
  { by exists [], []. }
  rewrite fmap_cons in Hs, Hn. inversion_clear Hs as [|? ? Hs' Hx].
  apply Forall_cons in Hn as [Hnx Hn].
  destruct (zless (zi_pair x) tgt) eqn:E.
  - destruct (IH Hs' Hn) as (lt & ge & -> & ? & ?). exists (x :: lt), ge.
    split_and!; [done|by constructor|done].
  - exists [], (x :: ns). split_and!; [done|constructor|]. constructor; [done|].
    apply Forall_forall. intros z Hz. destruct (zless (zi_pair z) tgt) eqn:Ez; [|done].
    rewrite Forall_fmap, Forall_forall in Hx, Hn.
    by rewrite <- E, (zless_trans _ _ _ Hnx (Hn _ Hz) Ht (Hx _ Hz) Ez).
Qed.

Lemma zless_of_not tgt x :
  not_nan x -> not_nan tgt -> x.1 <> tgt.1 -> zless x tgt = false -> zless tgt x = true.
Proof.
  intros Hx Ht Hne H. destruct (zless tgt x) eqn:E; [done|].
  by destruct (zless_total x tgt Hx Ht H E).
Qed.

(** ** Insertion *)

Lemma foldl_insert_lookup (v : option zloc) (js : list nat) u j :
  length (foldl (λ u i, <[i := v]> u) u js) = length u /\
  foldl (λ u i, <[i := v]> u) u js !! j =
    if decide (j ∈ js /\ (j < length u)%nat) then Some v else u !! j.
Proof.
  revert u. induction js as [|i js IH]; intros u; cbn [foldl].
  { split; [done|]. rewrite decide_False; [done|]. intros [[]%elem_of_nil _]. }
  destruct (IH (<[i := v]> u)) as [-> ->]. rewrite length_insert. split; [done|].
  destruct (decide (j ∈ js /\ (j < length u)%nat)) as [[Hj Hlt]|Hn].
  { rewrite decide_True; [done|]. split; [by right|done]. }
  destruct (decide (j = i)) as [->|Hne].
  - destruct (decide (i < length u)%nat).
    + rewrite decide_True, list_lookup_insert_eq; [done|done|]. split; [left|done].
    + rewrite decide_False by tauto. by rewrite list_insert_ge by lia.
  - rewrite decide_False, list_lookup_insert_ne by
      (try done; rewrite elem_of_cons; naive_solver). done.
Qed.

Lemma chain_above ns k j :
  Forall (λ x, 1 <= zi_height x <= k)%nat ns -> (k <= j)%nat -> chain j ns = [].
Proof.
  intros H Hj. induction ns as [|x ns IH]; [done|]. apply Forall_cons in H as [? ?].
  rewrite chain_cons_short by lia. auto.
Qed.

Lemma sl_rep_fuel sl lt ge : sl_rep sl (lt ++ ge) -> (length lt <= zs_alloc sl)%nat.
Proof.
  intros (_ & Hnd & Hlt & _).
  assert (length (zi_loc <$> head_item :: lt ++ ge) <= zs_alloc sl)%nat as H.
  { rewrite <- (length_seq (zs_alloc sl) 0). apply submseteq_length, NoDup_submseteq; [done|].
    intros p Hp. rewrite Forall_forall in Hlt. apply elem_of_seq. specialize (Hlt _ Hp).
    simpl in Hlt. lia. }
  rewrite length_fmap in H. simpl in H. rewrite length_app in H. lia.
Qed.

(** What the descent of [insert] and [delete] leaves in [update]. *)
Lemma sl_descend sl lt ge member score :
  sl_rep sl (lt ++ ge) ->
  Forall (λ x, zless (zi_pair x) (member, score) = true) lt ->
  Forall (λ x, zless (zi_pair x) (member, score) = false) ge ->
  exists y update,
    zdescend (zs_alloc sl) (zs_heap sl) score member (zs_level sl) zhead
      (replicate zskipMaxLevel None) = Ret (zi_loc y, update) /\
    length update = zskipMaxLevel /\ update_ok lt update (zs_level sl) /\ is_pred lt 0 y.
Proof.
  intros Hrep Hlt Hge. pose proof (sl_rep_fuel _ _ _ Hrep) as Hfuel.
  destruct Hrep as (Hheap & _ & _ & Hlev & _).
  destruct (descend_spec (zs_heap sl) lt ge Hheap member score Hlt Hge (zs_alloc sl)
    (zs_level sl) [] head_item lt (replicate zskipMaxLevel None))
    as (y & update & Hd & Hlen & Hlow & _ & _ & H0);
    [done|simpl; lia|done|rewrite length_replicate; lia|].
  exists y, update. rewrite length_replicate in Hlen.
  split_and!; [done|done|done|apply H0; lia].
Qed.

(** The sequence and its order after the new node is spliced in. *)
Lemma sl_rep_inserted h node lt ge p k lev lev' n :
  heap_rep h (lt ++ mkItem node p k :: ge) ->
  NoDup ((zi_loc <$> head_item :: lt) ++ (zi_loc <$> ge)) ->
  Forall (λ q, q < node)%nat ((zi_loc <$> head_item :: lt) ++ (zi_loc <$> ge)) ->
  (lev <= lev' <= zskipMaxLevel)%nat -> (1 <= k <= lev')%nat ->
  Forall (λ x, 1 <= zi_height x <= lev)%nat (lt ++ ge) ->
  n = len (lt ++ ge) ->
  zsorted (zi_pair <$> lt ++ ge) -> Forall not_nan (zi_pair <$> lt ++ ge) -> not_nan p ->
  p.1 ∉ (zi_pair <$> lt ++ ge).*1 ->
  Forall (λ x, zless (zi_pair x) p = true) lt ->
  Forall (λ x, zless (zi_pair x) p = false) ge ->
  sl_rep (mkZSL h (S node) lev' (n + 1)) (lt ++ mkItem node p k :: ge).
Proof.
  intros Hheap Hnd Hal Hlev Hk Hh -> Hs Hn Hp Hnew Hlt Hge.
  assert (zi_loc <$> head_item :: lt ++ mkItem node p k :: ge
    ≡ₚ node :: (zi_loc <$> head_item :: lt) ++ (zi_loc <$> ge)) as HP.
  { rewrite app_comm_cons, fmap_app, (fmap_cons _ (mkItem _ _ _)). by rewrite <- Permutation_middle. }
  assert (lt ++ mkItem node p k :: ge ≡ₚ mkItem node p k :: lt ++ ge) as HP'
    by by rewrite <- Permutation_middle.
  unfold sl_rep. cbn [zs_heap zs_alloc zs_level zs_length]. split_and!.
  - done.
  - rewrite HP. constructor; [|done]. intros Hin. rewrite Forall_forall in Hal.
    specialize (Hal _ Hin). simpl in Hal. lia.
  - rewrite HP. constructor; [lia|]. eapply Forall_impl; [done|]. simpl. lia.
  - lia.
  - lia.
  - rewrite HP'. constructor; [done|]. eapply Forall_impl; [done|]. simpl. lia.
  - unfold len. rewrite HP'. simpl. lia.
  - rewrite fmap_app in Hs, Hn, Hnew |- *. apply zsorted_app in Hs as (Hs1 & Hs2 & Hs3).
    apply Forall_app in Hn as [Hn1 Hn2]. rewrite fmap_cons. simpl.
    rewrite fmap_app, not_elem_of_app in Hnew. destruct Hnew as [_ Hnew].
    apply zsorted_app_2; [done| |].
    + constructor; [done|]. rewrite Forall_fmap, Forall_forall in *. intros x Hx. simpl.
      apply zless_of_not; [by apply Hn2|done| |by apply Hge].
      intros Heq. apply Hnew. rewrite <- Heq. by apply list_elem_of_fmap_2, list_elem_of_fmap_2.
    + rewrite Forall_fmap, Forall_forall in *. intros x Hx. simpl.
      constructor; [by apply Hlt|by apply (Hs3 x)].
  - rewrite HP'. by constructor.
Qed.

(** The update vector of a taller node: the levels above the list start at the
    head. *)
Lemma raised_update_ok lt update levels level :
  Forall (λ x, 1 <= zi_height x <= levels)%nat lt -> length update = zskipMaxLevel ->
  (levels < level <= zskipMaxLevel)%nat -> update_ok lt update levels ->
  update_ok lt (foldl (λ u i, <[i := Some zhead]> u) update (seq levels (level - levels))) level.
Proof.
  intros Hh Hul Hlev Hup j Hj.
  destruct (foldl_insert_lookup (Some zhead) (seq levels (level - levels)) update j) as [_ ->].
  destruct (decide (j < levels)%nat) as [Hjl|Hjl].
  - rewrite decide_False; [by apply Hup|]. rewrite elem_of_seq. lia.
  - rewrite decide_True by (rewrite elem_of_seq, Hul; lia).
    exists head_item. split; [done|]. exists [], lt.
    split_and!; [done|simpl; lia|]. eapply chain_above; [done|lia].
Qed.

Lemma zskiplist_insert_at_spec sl ns member score level :
  sl_rep sl ns -> (1 <= level <= zskipMaxLevel)%nat -> not_nan (member, score) ->
  member ∉ (zi_pair <$> ns).*1 ->
  exists sl' lt ge, zskiplist_insert_at sl member score level = Ret sl' /\
    ns = lt ++ ge /\ sl_rep sl' (lt ++ mkItem (zs_alloc sl) (member, score) level :: ge).
Proof.
  intros Hrep Hlev Hnan Hnew.
  destruct (zsorted_split ns (member, score)) as (lt & ge & -> & Hlt & Hge);
    [apply Hrep|apply Hrep|done|].
  destruct (sl_descend sl lt ge member score Hrep Hlt Hge) as (y & update & Hd & Hul & Hup & _).
  destruct Hrep as (Hheap & Hnd & Hal & Hl & Hh & Hlen & Hs & Hn).
  unfold zskiplist_insert_at. rewrite Hd. orun.
  set (update' := if bool_decide (zs_level sl < level)%nat
    then foldl (λ u i, <[i := Some zhead]> u) update
           (seq (zs_level sl) (level - zs_level sl)) else update).
  set (level' := if bool_decide (zs_level sl < level)%nat then level else zs_level sl).
  assert ((if bool_decide (zs_level sl < level)%nat
    then (foldl (λ u i, <[i := Some zhead]> u) update
            (seq (zs_level sl) (level - zs_level sl)), level)
    else (update, zs_level sl)) = (update', level')) as ->
    by (unfold update', level'; by case_bool_decide).
  apply Forall_app in Hh as [Hh1 Hh2].
  assert (update_ok lt update' level) as Hup'.
  { unfold update'. case_bool_decide as Hcmp; [|intros j Hj; apply Hup; lia]. apply raised_update_ok; [done|done|lia|done]. }
  rewrite fmap_cons, fmap_app, app_comm_cons in Hnd, Hal.
  apply NoDup_app in Hnd as (Hnd1 & Hndx & Hnd2). apply Forall_app in Hal as [Hal1 Hal2].
  assert (forall l, Forall (λ p, p < zs_alloc sl)%nat l -> zs_alloc sl ∉ l) as Hfr.
  { intros l Hf Hin. rewrite Forall_forall in Hf. specialize (Hf _ Hin). simpl in Hf. lia. }
  destruct (splice_loop lt ge (zs_alloc sl) (member, score) level Hnd1 (Hfr _ Hal1)
    level 0 (<[zs_alloc sl := mkZNode member score (replicate level None)]> (zs_heap sl)) update')
    as (h' & -> & Hmix & Hnode & Hoth).
  - lia.
  - apply mix_rep_start. intros l1 x l2 E. rewrite lookup_insert_ne; [by eapply Hheap|].
    intros Heq. apply (Hfr (zi_loc <$> head_item :: lt ++ ge)).
    + rewrite fmap_cons, fmap_app, app_comm_cons. by apply Forall_app.
    + rewrite Heq, E. apply list_elem_of_fmap_2, elem_of_mid.
  - rewrite lookup_insert_eq. by rewrite new_tower_start.
  - done.
  - orun. eexists _, lt, ge. split_and!; [done|done|].
    apply sl_rep_inserted with (lev := zs_level sl); try done.
    + apply splice_heap_rep; [done|done|]. intros l1 x l2 E.
      rewrite Hoth, lookup_insert_ne.
      * apply (Hheap (head_item :: lt ++ l1) x l2). rewrite E. simpl. by rewrite <- app_assoc.
      * intros Heq. apply (Hfr _ Hal2). rewrite Heq, E. apply list_elem_of_fmap_2, elem_of_mid.
      * intros Heq. apply (Hfr _ Hal2). rewrite <- Heq, E. apply list_elem_of_fmap_2, elem_of_mid.
      * intros Hin. apply (Hndx _ Hin). rewrite E. apply list_elem_of_fmap_2, elem_of_mid.
    + apply NoDup_app. done.
    + by apply Forall_app.
    + unfold level'. case_bool_decide; lia.
    + unfold level'. case_bool_decide; lia.
    + by apply Forall_app.
Qed.

(** ** Deletion *)

Section unlink.
Context (lt ge : list zitem) (x : zitem).
Context (Hnd : NoDup (zi_loc <$> head_item :: lt ++ x :: ge)).

Lemma unlink_nd_lt : NoDup (zi_loc <$> head_item :: lt).
Proof. rewrite app_comm_cons, fmap_app in Hnd. by apply NoDup_app in Hnd as (? & _). Qed.

Lemma unlink_x_lt : zi_loc x ∉ (zi_loc <$> head_item :: lt).
Proof.
  rewrite app_comm_cons, fmap_app in Hnd. apply NoDup_app in Hnd as (_ & Hd & _).
  intros Hin. by apply (Hd _ Hin), list_elem_of_here.
Qed.

Lemma unlink_fwd i : fwd i ge <> Some (zi_loc x).
Proof.
  unfold fwd. destruct (chain i ge) as [|z c] eqn:E; [done|]. simpl. intros [= Heq].
  destruct (chain_split _ _ _ _ E) as (la & lb & Eg & _).
  rewrite app_comm_cons, fmap_app, fmap_cons in Hnd.
  apply NoDup_app in Hnd as (_ & _ & [Hn _]%NoDup_cons). apply Hn.
  rewrite Eg, <- Heq. apply list_elem_of_fmap_2, elem_of_mid.
Qed.

Lemma unlink_step h update i k :
  (i < k)%nat -> mix_rep h lt i (x :: ge) ge ->
  h !! zi_loc x = Some (mkZNode (zi_pair x).1 (zi_pair x).2 (tower (zi_height x) ge)) ->
  update_ok lt update k ->
  exists h', zunlink_at (zi_loc x) update h i = Ret h' /\
    mix_rep h' lt (S i) (x :: ge) ge /\
    (forall q, q ∉ (zi_loc <$> head_item :: lt) -> h' !! q = h !! q).
Proof.
  intros Hi Hmix Hx Hup. destruct (Hup i Hi) as (z & Ez & Hz).
  unfold zunlink_at, zupdate. rewrite Ez. orun.
  rewrite (mix_znext _ _ _ _ _ _ Hmix Hz). orun.
  destruct (decide (i < zi_height x)%nat) as [Hxi|Hxi].
  - rewrite bool_decide_true by (unfold fwd; by rewrite chain_cons_tall).
    unfold znext, zderef. rewrite Hx. orun. cbn [zn_next].
    rewrite tower_lookup by done. orun.
    destruct (mix_rep_step h lt i (x :: ge) ge z unlink_nd_lt Hmix Hz)
      as (h' & -> & Hmix' & Hoth).
    exists h'. split_and!; [done|done|]. intros q Hq. apply Hoth. intros ->.
    by apply Hq, is_pred_elem with i.
  - assert (fwd i (x :: ge) = fwd i ge) as Hf
      by (unfold fwd; by rewrite chain_cons_short).
    rewrite bool_decide_false by (rewrite Hf; apply unlink_fwd).
    exists h. split_and!; [done|by apply mix_rep_same|done].
Qed.

Lemma unlink_loop n i h update :
  mix_rep h lt i (x :: ge) ge ->
  h !! zi_loc x = Some (mkZNode (zi_pair x).1 (zi_pair x).2 (tower (zi_height x) ge)) ->
  update_ok lt update (i + n) ->
  exists h', ofold (zunlink_at (zi_loc x) update) (seq i n) h = Ret h' /\
    mix_rep h' lt (i + n) (x :: ge) ge /\
    (forall q, q ∉ (zi_loc <$> head_item :: lt) -> h' !! q = h !! q).
Proof.
  revert i h. induction n as [|n IH]; intros i h Hmix Hx Hup; cbn [seq ofold].
  - exists h. rewrite Nat.add_0_r. done.
  - destruct (unlink_step h update i (i + S n)) as (h1 & -> & Hmix1 & Hoth1); [lia|done..|].
    orun. destruct (IH (S i) h1) as (h2 & -> & Hmix2 & Hoth2).
    + done.
    + by rewrite Hoth1 by apply unlink_x_lt.
    + by rewrite Nat.add_succ_comm.
    + exists h2. rewrite <- Nat.add_succ_comm. split_and!; [done..|].
      intros q Hq. by rewrite Hoth2, Hoth1.
Qed.

Lemma unlink_heap_rep h k :
  mix_rep h lt k (x :: ge) ge ->
  (zi_height x <= k)%nat -> Forall (λ z, 1 <= zi_height z <= k)%nat (lt ++ ge) ->
  (forall l1 z l2, ge = l1 ++ z :: l2 ->
    h !! zi_loc z = Some (mkZNode (zi_pair z).1 (zi_pair z).2 (tower (zi_height z) l2))) ->
  heap_rep h (lt ++ ge).
Proof.
  intros Hmix Hk Hh Hge l1 z l2 E. rewrite app_comm_cons in E.
  destruct (app_split _ _ _ _ _ E) as [(m & E1 & ->)|(m & E1 & _)]; [|by eapply Hge].
  rewrite (Hmix _ _ _ E1). do 2 f_equal. apply map_seq_ext. intros j Hj.
  destruct (decide (j < k)%nat); [done|].
  unfold fwd. by rewrite !chain_app, (chain_cons_short j x) by lia.
Qed.
End unlink.

(** The level loop stops at a level no node exceeds. *)
Lemma zshrink_spec h ns l1 :
  heap_rep h ns -> (S l1 <= zskipMaxLevel)%nat ->
  Forall (λ x, 1 <= zi_height x <= S l1)%nat ns ->
  exists lev, zshrink h l1 = Ret lev /\ (1 <= lev <= S l1)%nat /\
    Forall (λ x, 1 <= zi_height x <= lev)%nat ns.
Proof.
  intros Hrep. induction l1 as [|l IH]; intros Hl Hh; cbn [zshrink].
  { exists 1%nat. split_and!; [done|lia|lia|done]. }
  change zhead with (zi_loc head_item).
  rewrite (znext_item _ _ Hrep [] head_item ns (S l) eq_refl) by (simpl; lia). orun.
  unfold fwd. destruct (chain (S l) ns) as [|z c] eqn:E; simpl.
  - destruct IH as (lev & -> & ? & ?); [lia| |exists lev; split_and!; [done|lia|lia|done]].
    apply Forall_forall. intros z Hz. rewrite Forall_forall in Hh. specialize (Hh _ Hz).
    simpl in Hh. destruct (decide (S l < zi_height z)%nat); [|lia].
    by destruct (chain_elem (S l) ns z).
  - exists (S (S l)). split_and!; [done|lia|lia|done].
Qed.

Lemma zless_feq_r a m s s' :
  IsNaN s = false -> feq s s' = true -> zless a (m, s) = zless a (m, s').
Proof.
  unfold feq. intros Hs H. apply andb_true_iff in H as [[_ Hs']%andb_true_iff H%Z.eqb_eq].
  apply negb_true_iff in Hs'. destruct (IsNaN a.2) eqn:Ha.
  - unfold zless, zskipLess, feq, flt. by rewrite Ha.
  - rewrite !zless_unfold by done. simpl. by rewrite H.
Qed.

(** The sequence and its order after a node is unlinked. *)
Lemma sl_rep_removed sl h lt x ge lev :
  sl_rep sl (lt ++ x :: ge) -> heap_rep h (lt ++ ge) ->
  (1 <= lev <= zskipMaxLevel)%nat -> Forall (λ z, 1 <= zi_height z <= lev)%nat (lt ++ ge) ->
  sl_rep (mkZSL h (zs_alloc sl) lev (zs_length sl - 1)) (lt ++ ge).
Proof.
  intros (_ & Hnd & Hal & _ & _ & Hlen & Hs & Hn) Hheap Hlev Hh.
  assert (lt ++ x :: ge ≡ₚ x :: lt ++ ge) as HP by by rewrite <- Permutation_middle.
  rewrite HP in Hnd, Hal. unfold sl_rep. cbn [zs_heap zs_alloc zs_level zs_length].
  split_and!; [done| | |lia|lia|done| | |].
  - rewrite !fmap_cons in Hnd |- *. apply NoDup_cons in Hnd as [Hnd1 [Hnd2 Hnd3]%NoDup_cons].
    apply NoDup_cons. split; [|done]. intros Hin. apply Hnd1. by right.
  - rewrite !fmap_cons in Hal |- *. apply Forall_cons in Hal as [? [? ?]%Forall_cons].
    by constructor.
  - rewrite Hlen. unfold len. rewrite HP. simpl. lia.
  - rewrite fmap_app, fmap_cons in Hs. apply zsorted_app in Hs as (Hs1 & Hs2 & Hs3).
    inversion_clear Hs2. rewrite fmap_app. apply zsorted_app_2; [done|done|].
    eapply Forall_impl; [apply Hs3|]. intros q Hq. by apply Forall_cons in Hq as [_ ?].
  - rewrite fmap_app in Hn |- *. apply Forall_app in Hn as [? [_ ?]%Forall_cons].
    by apply Forall_app.
Qed.

(** The order around a node, for a target with the node's member and an equal
    score. *)
Lemma sl_rep_around sl lt x ge score :
  sl_rep sl (lt ++ x :: ge) -> feq (zi_pair x).2 score = true ->
  Forall (λ z, zless (zi_pair z) ((zi_pair x).1, score) = true) lt /\
  Forall (λ z, zless (zi_pair z) ((zi_pair x).1, score) = false) (x :: ge).
Proof.
  intros (_ & _ & _ & _ & _ & _ & Hs & Hn) Hfeq. rewrite fmap_app, fmap_cons in Hs, Hn.
  apply zsorted_app in Hs as (_ & Hs2 & Hs3). inversion_clear Hs2 as [|? ? _ Hs4].
  apply Forall_app in Hn as [_ [Hnx Hn2]%Forall_cons].
  destruct (zi_pair x) as [member sx] eqn:Ex. cbn [fst snd] in *.
  assert (forall a, zless a (member, score) = zless a (member, sx)) as Hcmp.
  { intros a. symmetry. by apply zless_feq_r. }
  split.
  - rewrite Forall_fmap, Forall_forall in Hs3. apply Forall_forall. intros z Hz.
    specialize (Hs3 z Hz). simpl in Hs3. apply Forall_cons in Hs3 as [? _]. by rewrite Hcmp.
  - constructor; [rewrite Hcmp, Ex; by apply zless_irrefl|].
    rewrite Forall_fmap, Forall_forall in Hs4, Hn2. apply Forall_forall. intros z Hz.
    rewrite Hcmp. apply zless_asym; [done|by apply Hn2|by apply Hs4].
Qed.

Lemma zskiplist_delete_spec sl lt x ge score :
  sl_rep sl (lt ++ x :: ge) -> feq (zi_pair x).2 score = true ->
  exists sl', zskiplist_delete sl (zi_pair x).1 score = Ret sl' /\ sl_rep sl' (lt ++ ge).
Proof.
  intros Hrep Hfeq. destruct (sl_rep_around _ _ _ _ _ Hrep Hfeq) as [Hlt Hge].
  destruct (sl_descend sl lt (x :: ge) _ score Hrep Hlt Hge)
    as (y & update & Hd & Hul & Hup & a & b & Ey & Hy0 & Hb).
  pose proof Hrep as (Hheap & Hnd & _ & Hl & Hh & _).
  unfold zskiplist_delete. rewrite Hd. orun.
  rewrite (znext_item _ _ Hheap _ _ _ _ (split_ge _ _ _ _ _ Ey) Hy0). orun.
  apply Forall_app in Hh as [Hh1 [Hhx Hh2]%Forall_cons].
  rewrite fwd_app_nil by done. unfold fwd. rewrite chain_cons_tall by lia. simpl.
  assert (head_item :: lt ++ x :: ge = (head_item :: lt) ++ x :: ge) as Esplit by done.
  rewrite (zderef_item _ _ Hheap _ _ _ Esplit). orun. cbn [zn_member zn_score].
  rewrite bool_decide_false by naive_solver. rewrite Hfeq. cbn [orb negb].
  destruct (unlink_loop lt ge x Hnd (zs_level sl) 0 (zs_heap sl) update)
    as (h' & -> & Hmix & Hoth); [by apply mix_rep_start|by apply (Hheap _ _ _ Esplit)|done|].
  orun. assert (heap_rep h' (lt ++ ge)) as Hheap'.
  { eapply (unlink_heap_rep lt ge x h' (zs_level sl)); [done|lia|by apply Forall_app|].
    intros l1 z l2 E. rewrite Hoth.
    - apply (Hheap (head_item :: lt ++ x :: l1) z l2). rewrite E. simpl. by rewrite <- app_assoc.
    - rewrite app_comm_cons, fmap_app, fmap_cons in Hnd.
      apply NoDup_app in Hnd as (_ & Hd' & _). intros Hin. apply (Hd' _ Hin). right.
      rewrite E. apply list_elem_of_fmap_2, elem_of_mid. }
  destruct (zshrink_spec h' (lt ++ ge) (pred (zs_level sl)) Hheap') as (lev & -> & Hlev & Hh').
  { lia. }
  { replace (S (pred (zs_level sl))) with (zs_level sl) by lia. by apply Forall_app. }
  orun. eexists. split; [done|]. eapply sl_rep_removed; [done|done|lia|done].
Qed.

(** ** Reading *)

Lemma chain_0 ns k : Forall (λ x, 1 <= zi_height x <= k)%nat ns -> chain 0 ns = ns.
Proof.
  induction ns as [|x ns IH]; [done|]. intros [? ?]%Forall_cons.
  rewrite chain_cons_tall, IH by (done || lia). done.
Qed.

Lemma sl_znext0 sl ns l1 x l2 :
  sl_rep sl ns -> head_item :: ns = l1 ++ x :: l2 ->
  znext (zs_heap sl) (zi_loc x) 0 = Ret (zi_loc <$> head l2).
Proof.
  intros (Hheap & _ & _ & _ & Hh & _) E.
  assert ((1 <= zi_height x)%nat /\ Forall (λ x, 1 <= zi_height x <= zs_level sl)%nat l2) as [Hx Hl2].
  { destruct l1 as [|z l1]; simpl in E; injection E as <- E.
    - subst. simpl. split; [unfold zskipMaxLevel; lia|done].
    - rewrite E in Hh. apply Forall_app in Hh as [_ [? ?]%Forall_cons]. split; [lia|done]. }
  rewrite (znext_item _ _ Hheap _ _ _ _ E) by lia. unfold fwd. by erewrite chain_0.
Qed.

Lemma zskip_spec sl ns k l1 l2 :
  sl_rep sl ns -> ns = l1 ++ l2 ->
  zskip (zs_heap sl) k (zi_loc <$> head l2) = Ret (zi_loc <$> head (drop k l2)).
Proof.
  intros Hrep. revert l1 l2. induction k as [|k IH]; intros l1 l2 E; [by destruct l2|].
  destruct l2 as [|x l2]; [done|]. cbn [zskip head drop]. simpl.
  rewrite (sl_znext0 sl ns (head_item :: l1) x l2) by (done || (rewrite E; done)). orun.
  apply (IH (l1 ++ [x])). by rewrite <- app_assoc.
Qed.

Lemma ztake_spec sl ns k l1 l2 :
  sl_rep sl ns -> ns = l1 ++ l2 ->
  ztake (zs_heap sl) k (zi_loc <$> head l2) = Ret (take k (zi_pair <$> l2)).
Proof.
  intros Hrep. revert l1 l2. induction k as [|k IH]; intros l1 l2 E; [by destruct l2|].
  destruct l2 as [|x l2]; [done|]. cbn [ztake head take]. simpl.
  assert (head_item :: ns = (head_item :: l1) ++ x :: l2) as E' by by rewrite E.
  rewrite (zderef_item _ _ (proj1 Hrep) _ _ _ E'). orun.
  rewrite (sl_znext0 sl ns _ x l2 Hrep E'). orun.
  rewrite (IH (l1 ++ [x])) by by rewrite <- app_assoc. orun.
  by destruct (zi_pair x).
Qed.

Lemma zskiplist_eachInRank_spec sl ns lo hi :
  sl_rep sl ns ->
  zskiplist_eachInRank sl lo hi =
  Ret (take (Z.to_nat (hi - lo + 1)) (drop (Z.to_nat lo) (zi_pair <$> ns))).
Proof.
  intros Hrep. unfold zskiplist_eachInRank. change zhead with (zi_loc head_item).
  rewrite (sl_znext0 sl ns [] head_item ns Hrep eq_refl). orun.
  rewrite (zskip_spec sl ns _ [] ns Hrep eq_refl). orun.
  rewrite (ztake_spec sl ns _ (take (Z.to_nat lo) ns) (drop (Z.to_nat lo) ns) Hrep)
    by by rewrite take_drop.
  by rewrite fmap_drop.
Qed.

Lemma newZskiplist_rep : sl_rep newZskiplist [].
Proof.
  unfold sl_rep, newZskiplist. cbn [zs_heap zs_alloc zs_level zs_length].
  split_and!; [|apply NoDup_singleton|by repeat constructor|unfold zskipMaxLevel; lia..
    |constructor|done|constructor|constructor].
  intros [|? l1] x l2 E; simpl in E; injection E as <- E; [|by destruct l1].
  subst. by rewrite lookup_singleton_eq.
Qed.

Lemma flips_range n coins : ((flips n coins).1 <= n)%nat.
Proof.
  revert coins. induction n as [|n IH]; intros [|[] coins]; simpl; try lia.
  specialize (IH coins). destruct (flips n coins). simpl in *. lia.
Qed.

(** Every tower is between one and [zskipMaxLevel] high. *)
Lemma zskipRandomLevel_range coins :
  (1 <= (zskipRandomLevel coins).1 <= zskipMaxLevel)%nat.
Proof.
  unfold zskipRandomLevel. pose proof (flips_range (zskipMaxLevel - 1) coins) as H.
  destruct (flips _ coins). simpl in *. unfold zskipMaxLevel in *. lia.
Qed.
