(* ===== verification/ValueZSet.v ===== *)
(** * internal/value/zset.go

    [ZSet]: member and score pairs in a pack kept in score order, promoting to
    a member-to-score map beside a skip list. The relation [zset_rep] says a
    sorted set in either encoding holds an ordered sequence of pairs; the
    operations are proved against the finite map those pairs make up, with
    ranges in the order by score and then by member. The random tower heights
    are drawn from a list of coin flips the operations consume. *)

From S2P Require Import Prelude GoBinary Pack Float64 Skiplist.

(** ** Definitions *)

(** [ZMember]: a member and its score. *)
Abbreviation ZMember := (bytes * float64)%type.

Record fullZSet := mkFullZSet {
  fz_scores : gmap bytes float64;
  fz_order : zskiplist }.

Record ZSet := mkZSet {
  z_pack : bytes;
  z_count : Z;
  z_full : option fullZSet;
  z_max : Thresholds }.

Definition NewZSet (max : Thresholds) : ZSet := mkZSet [] 0 None max.

Definition ZSet_Compact (z : ZSet) : bool := bool_decide (z_full z = None).

Definition ZSet_Len (z : ZSet) : Z :=
  match z_full z with
  | Some f => Z.of_nat (size (fz_scores f))
  | None => z_count z
  end.

Definition newFullZSet : fullZSet := mkFullZSet ∅ newZskiplist.

Definition fullZSet_add (coins : list bool) (z : fullZSet) (m : bytes) (score : float64) :
    outcome (bool * fullZSet * list bool) :=
  match fz_scores z !! m with
  | Some old =>
      if negb (feq old score) then
        order ← zskiplist_delete (fz_order z) m old;
        '(order, coins) ← zskiplist_insert order m score coins;
        Ret (false, mkFullZSet (<[m := score]> (fz_scores z)) order, coins)
      else Ret (false, z, coins)
  | None =>
      '(order, coins) ← zskiplist_insert (fz_order z) m score coins;
      Ret (true, mkFullZSet (<[m := score]> (fz_scores z)) order, coins)
  end.

Definition fullZSet_score (z : fullZSet) (member : bytes) : option float64 :=
  fz_scores z !! member.

Definition fullZSet_rangeByRank (z : fullZSet) (lo hi : Z) : outcome (list ZMember) :=
  zskiplist_eachInRank (fz_order z) lo hi.

Definition packAppendZ (buf member : bytes) (score : float64) : bytes :=
  packAppend buf member ++ PutUint64 score.

(** [scanZPairs buf fn]; the closure may itself panic. *)
Fixpoint scanZPairs_loop {St} (fuel : nat) (buf : bytes)
    (fn : bytes -> float64 -> St -> outcome (St * bool)) (st : St) : outcome St :=
  match buf with
  | [] => Ret st
  | _ :: _ =>
      match fuel with
      | O => Diverge
      | S fuel =>
          let '(n, w) := Uvarint buf in
          buf ← slice_from buf w;
          member ← slice_to buf n;
          buf ← slice_from buf n;
          raw ← slice_to buf 8;
          buf ← slice_from buf 8;
          '(st, more) ← fn member (Uint64 raw) st;
          if more : bool then scanZPairs_loop fuel buf fn st else Ret st
      end
  end.

Definition scanZPairs {St} (buf : bytes)
    (fn : bytes -> float64 -> St -> outcome (St * bool)) (st : St) : outcome St :=
  scanZPairs_loop (length buf) buf fn st.

(** The closure of [Score]. *)
Definition score_closure (member m : bytes) (s : float64) (out : option float64) :
    outcome (option float64 * bool) :=
  Ret (if bool_decide (m = member) then (Some s, false) else (out, true)).

Definition ZSet_Score (z : ZSet) (member : bytes) : outcome (option float64) :=
  match z_full z with
  | Some f => Ret (fullZSet_score f member)
  | None => scanZPairs (z_pack z) (score_closure member) None
  end.

Definition ZSet_Range (z : ZSet) (start stop : Z) : outcome (list ZMember) :=
  match normalizeRange start stop (ZSet_Len z) with
  | None => Ret []
  | Some (lo, hi) =>
      match z_full z with
      | Some f => fullZSet_rangeByRank f lo hi
      | None =>
          snd <$> scanZPairs (z_pack z)
            (λ m s '(i, out),
              let out := if lo <=? i then out ++ [(m, s)] else out in
              let i := i + 1 in
              Ret ((i, out), i <=? hi)) (0, [])
      end
  end.

(** [sort.Slice] by [zskipLess]: some permutation in order. With no NaN and no
    repeated member the order is strict and total and there is only one. *)
Definition zle (a b : ZMember) : Prop := zless b a = false.

#[global] Instance zle_dec : RelDecision zle := λ a b, decide (zless b a = false).

Definition sort_entries (entries : list ZMember) : list ZMember := merge_sort zle entries.

(** The closure of [compactAdd]. *)
Definition compact_closure (member : bytes) (score : float64) (m : bytes) (s : float64)
    (st : bool * list ZMember) : outcome ((bool * list ZMember) * bool) :=
  let '(found, entries) := st in
  Ret (if bool_decide (m = member) then ((true, entries ++ [(member, score)]), true)
       else ((found, entries ++ [(m, s)]), true)).

Definition compactAdd (z : ZSet) (member : bytes) (score : float64) : outcome (bool * ZSet) :=
  '(found, entries) ← scanZPairs (z_pack z) (compact_closure member score) (false, []);
  let '(entries, count) :=
    if found : bool then (entries, z_count z)
    else (entries ++ [(member, score)], z_count z + 1) in
  let rebuilt := foldl (λ b e, packAppendZ b e.1 e.2) [] (sort_entries entries) in
  Ret (negb found, mkZSet rebuilt count (z_full z) (z_max z)).

Definition promote_closure (m : bytes) (s : float64) (st : fullZSet * list bool) :
    outcome ((fullZSet * list bool) * bool) :=
  let '(full, coins) := st in
  '(_, full, coins) ← fullZSet_add coins full m s;
  Ret ((full, coins), true).

Definition ZSet_promote (coins : list bool) (z : ZSet) : outcome (ZSet * list bool) :=
  '(full, coins) ← scanZPairs (z_pack z) promote_closure (newFullZSet, coins);
  Ret (mkZSet [] 0 (Some full) (z_max z), coins).

Definition ZSet_Add (coins : list bool) (z : ZSet) (member : bytes) (score : float64) :
    outcome (bool * ZSet * list bool) :=
  match z_full z with
  | Some f =>
      '(added, f, coins) ← fullZSet_add coins f member score;
      Ret (added, mkZSet (z_pack z) (z_count z) (Some f) (z_max z), coins)
  | None =>
      '(added, z) ← compactAdd z member score;
      if exceeded (z_max z) (z_count z) (len member) then
        '(z, coins) ← ZSet_promote coins z;
        Ret (added, z, coins)
      else Ret (added, z, coins)
  end.

(** ** Representation *)

(** The packed form of a sequence of pairs. *)
Definition encode_zpair (p : ZMember) : bytes := encode_elem p.1 ++ PutUint64 p.2.
Definition zpack_of (ps : list ZMember) : bytes := concat (map encode_zpair ps).

(** A closure run over the pairs themselves. *)
Fixpoint zeach {St} (ps : list ZMember)
    (fn : bytes -> float64 -> St -> outcome (St * bool)) (st : St) : outcome St :=
  match ps with
  | [] => Ret st
  | p :: ps =>
      '(st, more) ← fn p.1 p.2 st;
      if more : bool then zeach ps fn st else Ret st
  end.

(** A pair the sorted set can hold. *)
Definition zpair_ok (p : ZMember) : Prop := go_len p.1 /\ is_f64 p.2 /\ not_nan p.

(** A sorted set's contents: the pairs in order, each member once. *)
Definition zcontents (ps : list ZMember) (m : gmap bytes float64) : Prop :=
  zsorted ps /\ Forall zpair_ok ps /\ NoDup ps.*1 /\ m = list_to_map ps.

Definition fullZSet_rep (f : fullZSet) (ps : list ZMember) : Prop :=
  (exists ns, sl_rep (fz_order f) ns /\ zi_pair <$> ns = ps) /\
  fz_scores f = list_to_map ps.

Definition zset_rep (z : ZSet) (m : gmap bytes float64) : Prop :=
  exists ps, zcontents ps m /\
  match z_full z with
  | None => z_pack z = zpack_of ps /\ z_count z = len ps
  | Some f => fullZSet_rep f ps
  end.

Definition zset_within (z : ZSet) (m : gmap bytes float64) : Prop :=
  z_full z = None ->
  Z.of_nat (size m) <= Z.max 0 (MaxEntries (z_max z)) /\
  map_Forall (λ (k : bytes) _, len k <= MaxBytes (z_max z)) m.

(** ** Lemmas: scanning *)

Lemma zpack_of_app ps qs : zpack_of (ps ++ qs) = zpack_of ps ++ zpack_of qs.
Proof. unfold zpack_of. by rewrite map_app, concat_app. Qed.

Lemma packAppendZ_snoc ps p :
  packAppendZ (zpack_of ps) p.1 p.2 = zpack_of (ps ++ [p]).
Proof.
  rewrite zpack_of_app. unfold packAppendZ, packAppend, zpack_of, encode_zpair, encode_elem.
  simpl. by rewrite app_nil_r, <- !app_assoc.
Qed.

Lemma rebuild_zpack ps qs :
  foldl (λ b e, packAppendZ b e.1 e.2) (zpack_of qs) ps = zpack_of (qs ++ ps).
Proof.
  revert qs. induction ps as [|p ps IH]; intros qs; simpl; [by rewrite app_nil_r|].
  by rewrite packAppendZ_snoc, IH, <- app_assoc.
Qed.

Lemma length_zpack_of ps : (length ps <= length (zpack_of ps))%nat.
Proof.
  induction ps as [|p ps IH]; [done|]. unfold zpack_of in *. simpl.
  unfold encode_zpair at 1. rewrite !length_app.
  destruct (encode_elem_cons p.1) as (b & r & ->). simpl. lia.
Qed.

Lemma scanZPairs_loop_encode {St} fuel p rest fn (st : St) :
  zpair_ok p ->
  scanZPairs_loop (S fuel) (encode_zpair p ++ rest) fn st =
  ('(st, more) ← fn p.1 p.2 st;
   if more : bool then scanZPairs_loop fuel rest fn st else Ret st).
Proof.
  intros (Hl & Hf & _).
  pose proof (Uvarint_encode_elem p.1 (PutUint64 p.2 ++ rest) Hl) as EU.
  unfold encode_zpair. rewrite <- app_assoc.
  destruct (encode_elem_cons p.1) as (b & r & Eb).
  unfold scanZPairs_loop; fold (@scanZPairs_loop St).
  rewrite Eb at 1. cbn [app]. rewrite EU.
  unfold encode_elem. rewrite <- app_assoc.
  rewrite slice_from_app by done. orun.
  rewrite slice_to_app by done. orun.
  rewrite slice_from_app by done. orun.
  rewrite slice_to_app by (unfold len, PutUint64; by rewrite le_bytes_length). orun.
  rewrite slice_from_app by (unfold len, PutUint64; by rewrite le_bytes_length). orun.
  pose proof (Uint64_PutUint64 p.2 [] Hf) as E. rewrite app_nil_r in E. by rewrite E.
Qed.

(** The scan visits the packed pairs in order. *)
Lemma scanZPairs_zpack {St} ps fn (st : St) :
  Forall zpair_ok ps -> scanZPairs (zpack_of ps) fn st = zeach ps fn st.
Proof.
  intros Hps. unfold scanZPairs. pose proof (length_zpack_of ps) as Hf. revert Hf.
  generalize (length (zpack_of ps)) as fuel. revert st Hps.
  induction ps as [|p ps IH]; intros st Hps fuel Hf; [by destruct fuel|].
  apply Forall_cons in Hps as [Hp Hps]. destruct fuel as [|fuel]; [simpl in Hf; lia|].
  change (zpack_of (p :: ps)) with (encode_zpair p ++ zpack_of ps).
  rewrite scanZPairs_loop_encode by done. cbn [zeach].
  destruct (fn p.1 p.2 st) as [[st' []]| |]; orun; [|done..].
  apply IH; [done|simpl in Hf; lia].
Qed.

Lemma zeach_ext {St} ps (f g : bytes -> float64 -> St -> outcome (St * bool)) st :
  (forall m s st, f m s st = g m s st) -> zeach ps f st = zeach ps g st.
Proof.
  intros E. revert st. induction ps as [|p ps IH]; intros st; [done|]. cbn [zeach].
  rewrite E. destruct (g p.1 p.2 st) as [[st' []]| |]; orun; auto.
Qed.

(** A closure that cannot panic. *)
Lemma zeach_pure {St} ps (fn : bytes -> float64 -> St -> St * bool) st :
  zeach ps (λ m s st, Ret (fn m s st)) st = Ret (each ps (λ p, fn p.1 p.2) st).
Proof.
  revert st. induction ps as [|p ps IH]; intros st; [done|]. cbn [zeach each]. orun.
  destruct (fn p.1 p.2 st) as [st' []]; [apply IH|done].
Qed.

Lemma each_score member ps :
  zeach ps (score_closure member) None = Ret ((list_to_map ps : gmap bytes float64) !! member).
Proof.
  induction ps as [|[m s] ps IH]; [done|]. cbn [zeach]. unfold score_closure at 1. simpl.
  case_bool_decide as E; orun.
  - subst. by rewrite lookup_insert_eq.
  - by rewrite lookup_insert_ne.
Qed.

(** What [compactAdd] collects before it sorts. *)
Definition entry_of (member : bytes) (score : float64) (p : ZMember) : ZMember :=
  if bool_decide (p.1 = member) then (member, score) else p.

Lemma each_compact member score ps found entries :
  zeach ps (compact_closure member score) (found, entries) =
  Ret (found || bool_decide (member ∈ ps.*1), entries ++ (entry_of member score <$> ps)).
Proof.
  revert found entries. induction ps as [|[m s] ps IH]; intros found entries.
  { simpl. by rewrite orb_false_r, app_nil_r. }
  cbn [zeach]. rewrite (fmap_cons (entry_of member score)), (fmap_cons fst). cbn [fst snd].
  rewrite bool_decide_elem_cons.
  assert (compact_closure member score m s (found, entries) =
    Ret ((bool_decide (m = member) || found, entries ++ [entry_of member score (m, s)]), true))
    as -> by (unfold compact_closure, entry_of; cbn [fst]; by destruct (bool_decide (m = member))).
  orun. by rewrite IH, <- app_assoc.
Qed.

Lemma entry_of_id member score ps :
  member ∉ ps.*1 -> entry_of member score <$> ps = ps.
Proof.
  induction ps as [|[m s] ps IH]; [done|]. intros [? ?]%not_elem_of_cons.
  rewrite fmap_cons, IH by done. unfold entry_of. simpl in *. by rewrite bool_decide_false.
Qed.

(** Whether or not the member was there, the collected entries are the other
    pairs and the new one. *)
Lemma entries_perm member score ps :
  NoDup ps.*1 ->
  (if bool_decide (member ∈ ps.*1) then entry_of member score <$> ps
   else (entry_of member score <$> ps) ++ [(member, score)])
  ≡ₚ (member, score) :: filter (λ p, p.1 <> member) ps.
Proof.
  intros Hnd. case_bool_decide as Hin.
  - induction ps as [|[m s] ps IH]; [by apply elem_of_nil in Hin|].
    change (((m, s) :: ps).*1) with (m :: ps.*1) in *. apply NoDup_cons in Hnd as [Hm Hnd].
    rewrite fmap_cons, filter_cons. unfold entry_of at 1. cbn [fst] in *.
    destruct (decide (m = member)) as [->|Hne].
    + rewrite bool_decide_true by done. rewrite decide_False by naive_solver.
      by rewrite entry_of_id, filter_fst_id.
    + rewrite bool_decide_false, decide_True by done.
      apply elem_of_cons in Hin as [->|Hin]; [done|].
      rewrite IH by done. constructor.
  - rewrite entry_of_id, filter_fst_id by done. by rewrite Permutation_app_comm.
Qed.

(** ** Lemmas: sorting *)

#[global] Instance zle_total : Total zle.
Proof.
  intros a b. unfold zle, zless, zskipLess, feq, flt.
  destruct (IsNaN a.2), (IsNaN b.2); cbn [negb andb]; auto.
  zcases; auto. destruct (bytes_ltb b.1 a.1) eqn:E; [right|by left].
  by apply bytes_ltb_asym.
Qed.

Lemma Sorted_zsorted ps :
  Sorted zle ps -> Forall not_nan ps -> NoDup ps.*1 -> zsorted ps.
Proof.
  unfold zsorted. induction 1 as [|a ps Hs IH Hd]; intros Hn Hnd; [constructor|].
  apply Forall_cons in Hn as [Ha Hn]. apply NoDup_cons in Hnd as [Hnd1 Hnd].
  specialize (IH Hn Hnd). constructor; [done|].
  destruct Hd as [|b ps Hab]; [constructor|].
  apply Forall_cons in Hn as [Hb Hn].
  assert (zless a b = true) as Hlt.
  { destruct (zless a b) eqn:E; [done|]. exfalso. apply Hnd1.
    destruct (zless_total a b Ha Hb E Hab) as [_ ->]. left. }
  constructor; [done|]. inversion_clear IH as [|? ? _ Hall].
  rewrite Forall_forall in *. eauto using zless_trans.
Qed.

Lemma sort_entries_perm es : sort_entries es ≡ₚ es.
Proof. apply merge_sort_Permutation. Qed.

Lemma sort_entries_zsorted es :
  Forall not_nan es -> NoDup es.*1 -> zsorted (sort_entries es).
Proof.
  intros. apply Sorted_zsorted; [apply Sorted_merge_sort, _|..]; by rewrite sort_entries_perm.
Qed.

(** Two ordered sequences of the same pairs are the same sequence. *)
Lemma zsorted_unique ps qs :
  zsorted ps -> zsorted qs -> Forall not_nan ps -> ps ≡ₚ qs -> ps = qs.
Proof.
  unfold zsorted. revert qs. induction ps as [|a ps IH]; intros qs Hp Hq Hn HP.
  { by apply Permutation_nil_l in HP. }
  destruct qs as [|b qs]; [by apply Permutation_nil_r in HP|].
  inversion_clear Hp as [|? ? Hp1 Hp2]. inversion_clear Hq as [|? ? Hq1 Hq2].
  assert (Forall not_nan (b :: qs)) as Hn' by by rewrite <- HP.
  rewrite Forall_forall in Hn, Hn', Hp2, Hq2.
  assert (a = b) as ->.
  { destruct (decide (a = b)) as [|Hne]; [done|].
    assert (a ∈ b :: qs) as [?|Ha]%elem_of_cons by (rewrite <- HP; left); [done|].
    assert (b ∈ a :: ps) as [?|Hb]%elem_of_cons by (rewrite HP; left); [done|].
    pose proof (Hp2 _ Hb) as E1. pose proof (Hq2 _ Ha) as E2.
    rewrite zless_asym in E2; [done|apply Hn; left|apply Hn'; left|done]. }
  f_equal. apply IH; [done..|apply Forall_forall; intros; apply Hn; by right|].
  by apply (inj (cons b)) in HP.
Qed.

(** ** Lemmas: contents *)

Lemma zcontents_not_nan ps m : zcontents ps m -> Forall not_nan ps.
Proof. intros (_ & Hok & _). eapply Forall_impl; [done|]. by intros p (_ & _ & ?). Qed.

(** The contents after an update, given some sequence in order of the other
    pairs and the new one. *)
Lemma zcontents_insert ps m ps' member score :
  zcontents ps m -> zpair_ok (member, score) -> zsorted ps' ->
  ps' ≡ₚ (member, score) :: filter (λ p, p.1 <> member) ps ->
  zcontents ps' (<[member := score]> m).
Proof.
  intros (Hs & Hok & Hnd & ->) Hp Hs' HP.
  assert (NoDup ((member, score) :: filter (λ p, p.1 <> member) ps).*1) as Hnd'.
  { rewrite fmap_cons. apply NoDup_cons.
    split; [apply not_elem_of_fst_filter|by apply NoDup_fst_filter]. }
  assert (NoDup ps'.*1) as Hnd2 by by rewrite HP.
  split_and!; [done| |done|].
  - rewrite HP. constructor; [done|]. rewrite Forall_forall in Hok |- *.
    intros p [_ Hin]%list_elem_of_filter. by apply Hok.
  - rewrite (list_to_map_proper ps' _ Hnd2 HP). simpl.
    by rewrite list_to_map_filter, insert_delete_eq.
Qed.

Lemma zcontents_size ps m : zcontents ps m -> len ps = Z.of_nat (size m).
Proof. intros (_ & _ & Hnd & ->). by rewrite size_list_to_map. Qed.

Lemma zcontents_mem ps m member :
  zcontents ps m -> bool_decide (member ∈ ps.*1) = bool_decide (is_Some (m !! member)).
Proof.
  intros (_ & _ & _ & ->). apply bool_decide_ext. by rewrite lookup_list_to_map_is_Some.
Qed.

(** ** Lemmas: the promoted representation *)

(** Inserting a new member into the order. *)
Lemma zskiplist_insert_pair sl ns coins member score :
  sl_rep sl ns -> not_nan (member, score) -> member ∉ (zi_pair <$> ns).*1 ->
  exists sl' coins' ns', zskiplist_insert sl member score coins = Ret (sl', coins') /\
    sl_rep sl' ns' /\ zi_pair <$> ns' ≡ₚ (member, score) :: (zi_pair <$> ns).
Proof.
  intros Hrep Hn Hnew. unfold zskiplist_insert.
  pose proof (zskipRandomLevel_range coins) as Hlev.
  destruct (zskipRandomLevel coins) as [level coins'].
  destruct (zskiplist_insert_at_spec sl ns member score level) as (sl' & lt & ge & -> & -> & Hrep');
    [done..|]. orun.
  eexists _, _, _. split; [done|]. split; [done|].
  rewrite fmap_app, fmap_cons, fmap_app. by rewrite <- Permutation_middle.
Qed.

(** Deleting a member from the order. *)
Lemma zskiplist_delete_pair sl ns member score :
  sl_rep sl ns -> (member, score) ∈ zi_pair <$> ns -> NoDup (zi_pair <$> ns).*1 ->
  exists sl' ns', zskiplist_delete sl member score = Ret sl' /\ sl_rep sl' ns' /\
    zi_pair <$> ns' = filter (λ p, p.1 <> member) (zi_pair <$> ns).
Proof.
  intros Hrep (x & Hx & (lt & ge & ->)%list_elem_of_split)%list_elem_of_fmap Hnd.
  assert (not_nan (zi_pair x)) as Hn.
  { destruct Hrep as (_ & _ & _ & _ & _ & _ & _ & Hn). rewrite Forall_forall in Hn.
    apply Hn, list_elem_of_fmap_2, elem_of_mid. }
  destruct (zskiplist_delete_spec sl lt x ge score Hrep) as (sl' & Hd & Hrep').
  { rewrite <- Hx in *. unfold feq, not_nan in *. simpl in *. by rewrite Hn, Z.eqb_refl. }
  rewrite <- Hx in Hd. exists sl', (lt ++ ge). split_and!; [done|done|].
  assert (zi_pair <$> lt ++ x :: ge = (zi_pair <$> lt) ++ (member, score) :: (zi_pair <$> ge))
    as E by by rewrite fmap_app, fmap_cons, <- Hx.
  rewrite E in Hnd |- *. rewrite (fmap_app fst), (fmap_cons fst) in Hnd.
  rewrite fmap_app, filter_app, filter_cons_False by naive_solver.
  apply NoDup_app in Hnd as (Hnd1 & Hd1 & [Hnd2 _]%NoDup_cons).
  rewrite !filter_fst_id; [done|done|].
  intros Hin. by apply (Hd1 member Hin), list_elem_of_here.
Qed.

(** [add] on the promoted representation: the new score is kept unless the old
    one is equal to it as a float. *)
Lemma fullZSet_add_spec coins f ps m member score :
  fullZSet_rep f ps -> zcontents ps m -> zpair_ok (member, score) ->
  exists f' coins' ps' s',
    fullZSet_add coins f member score
      = Ret (bool_decide (m !! member = None), f', coins') /\
    fullZSet_rep f' ps' /\ zcontents ps' (<[member := s']> m) /\
    (s' = score \/ m !! member = Some s' /\ feq s' score = true).
Proof.
  intros [(ns & Hsl & <-) Hsc] Hc Hp. pose proof Hc as (Hs & Hok & Hnd & Hm).
  unfold fullZSet_add. rewrite Hsc, <- Hm.
  assert (forall sl' ns', sl_rep sl' ns' ->
    zi_pair <$> ns' ≡ₚ (member, score) :: filter (λ p, p.1 <> member) (zi_pair <$> ns) ->
    fullZSet_rep (mkFullZSet (<[member := score]> m) sl') (zi_pair <$> ns') /\
    zcontents (zi_pair <$> ns') (<[member := score]> m)) as Hdone.
  { intros sl' ns' Hsl' HP.
    assert (zcontents (zi_pair <$> ns') (<[member := score]> m)) as Hc'.
    { eapply zcontents_insert; [done..|apply Hsl'|done]. }
    split; [|done]. split; [by exists ns'|]. apply Hc'. }
  destruct (m !! member) as [old|] eqn:Eo.
  - destruct (feq old score) eqn:Ef; cbn [negb].
    + exists f, coins, (zi_pair <$> ns), old. rewrite insert_id by done.
      split_and!; [by rewrite bool_decide_false|split; [by exists ns|done]|done|by right].
    + assert ((member, old) ∈ zi_pair <$> ns) as Hin.
      { apply elem_of_list_to_map; [done|]. by rewrite <- Hm. }
      destruct (zskiplist_delete_pair (fz_order f) ns member old)
        as (sl1 & ns1 & -> & Hsl1 & E1); [done..|]. orun.
      destruct (zskiplist_insert_pair sl1 ns1 coins member score)
        as (sl2 & coins2 & ns2 & -> & Hsl2 & E2); [done|apply Hp|rewrite E1;
        apply not_elem_of_fst_filter|]. orun. rewrite E1 in E2.
      destruct (Hdone sl2 ns2 Hsl2 E2).
      eexists _, coins2, _, score. split_and!; [by rewrite bool_decide_false|done|done|by left].
  - assert (member ∉ (zi_pair <$> ns).*1) as Hnew.
    { rewrite <- lookup_list_to_map_is_Some, <- Hm, Eo. by intros []. }
    destruct (zskiplist_insert_pair (fz_order f) ns coins member score)
      as (sl2 & coins2 & ns2 & -> & Hsl2 & E2); [done|apply Hp|done|]. orun.
    rewrite <- (filter_fst_id member (zi_pair <$> ns) Hnew) in E2.
    destruct (Hdone sl2 ns2 Hsl2 E2).
    eexists _, coins2, _, score. split_and!; [by rewrite bool_decide_true|done|done|by left].
Qed.

(** ** Lemmas: the operations *)

Lemma NewZSet_rep max : zset_rep (NewZSet max) ∅.
Proof. exists []. split; [|done]. by split_and!; constructor. Qed.

Lemma NewZSet_within max : zset_within (NewZSet max) ∅.
Proof. intros _. rewrite map_size_empty. split; [lia|apply map_Forall_empty]. Qed.

Lemma ZSet_Len_spec z m : zset_rep z m -> ZSet_Len z = Z.of_nat (size m).
Proof.
  intros (ps & Hc & H). unfold ZSet_Len. destruct (z_full z).
  - destruct H as [_ ->]. by destruct Hc as (_ & _ & _ & ->).
  - destruct H as [_ ->]. by apply zcontents_size.
Qed.

Lemma ZSet_Score_spec z m member : zset_rep z m -> ZSet_Score z member = Ret (m !! member).
Proof.
  intros (ps & (_ & Hok & _ & ->) & H). unfold ZSet_Score, fullZSet_score.
  destruct (z_full z).
  - by destruct H as [_ ->].
  - destruct H as [-> _]. rewrite scanZPairs_zpack by done. apply each_score.
Qed.

Lemma ZSet_Range_total z m start stop :
  zset_rep z m -> exists ps, zcontents ps m /\ ZSet_Range z start stop = Ret (in_range start stop ps).
Proof.
  intros Hrep. pose proof (ZSet_Len_spec z m Hrep) as Hlen.
  destruct Hrep as (ps & Hc & H). exists ps. split; [done|].
  pose proof (zcontents_size _ _ Hc) as Hsz. rewrite <- Hsz in *. unfold ZSet_Range.
  rewrite Hlen. unfold in_range.
  destruct (normalizeRange start stop (len ps)) as [[lo hi]|] eqn:En; [|done].
  apply normalizeRange_bounds in En.
  destruct (z_full z) as [f|].
  - destruct H as [(ns & Hsl & <-) _]. unfold fullZSet_rangeByRank.
    by rewrite (zskiplist_eachInRank_spec _ ns).
  - destruct H as [-> _]. rewrite scanZPairs_zpack by apply Hc.
    transitivity (snd <$> Ret (each ps (collect id lo hi) (0, []))).
    { f_equal. transitivity (zeach ps (λ m s st, Ret (collect id lo hi (m, s) st)) (0, [])).
      - apply zeach_ext. by intros m' s' [i out].
      - rewrite zeach_pure. f_equal. apply each_ext. by intros [? ?]. }
    orun. rewrite collect_spec, map_id, !Z.sub_0_r, Z.max_r by lia. done.
Qed.

Lemma ZSet_Range_spec z m start stop :
  zset_rep z m -> is_int64 start -> is_int64 stop -> Z.of_nat (size m) <= MaxInt64 ->
  exists ps, zcontents ps m /\ ZSet_Range z start stop = Ret (range_spec start stop ps).
Proof.
  intros Hrep Hs Ht Hm. destruct (ZSet_Range_total z m start stop Hrep) as (ps & Hc & ->).
  exists ps. split; [done|]. rewrite normalizeRange_spec by (done || by rewrite (zcontents_size _ _ Hc)). done.
Qed.

Lemma compactAdd_spec z ps m member score :
  z_full z = None -> z_pack z = zpack_of ps -> z_count z = len ps ->
  zcontents ps m -> zpair_ok (member, score) ->
  exists ps', zcontents ps' (<[member := score]> m) /\
    compactAdd z member score
    = Ret (bool_decide (m !! member = None), mkZSet (zpack_of ps') (len ps') None (z_max z)).
Proof.
  intros Hf Hpk Hct Hc Hp. pose proof Hc as (_ & Hok & Hnd & _). unfold compactAdd.
  rewrite Hpk, scanZPairs_zpack, each_compact by done. orun. cbn [orb app].
  pose proof (entries_perm member score ps Hnd) as HP.
  set (es := if bool_decide (member ∈ ps.*1) then entry_of member score <$> ps
             else (entry_of member score <$> ps) ++ [(member, score)]) in *.
  assert (zcontents (sort_entries es) (<[member := score]> m)) as Hc'.
  { eapply zcontents_insert; [done..| |by rewrite sort_entries_perm].
    apply sort_entries_zsorted.
    - rewrite HP. constructor; [apply Hp|]. apply zcontents_not_nan in Hc.
      rewrite Forall_forall in Hc |- *. intros p [_ Hin]%list_elem_of_filter. by apply Hc.
    - rewrite HP, fmap_cons. apply NoDup_cons.
      split; [apply not_elem_of_fst_filter|by apply NoDup_fst_filter]. }
  exists (sort_entries es). split; [done|].
  assert (negb (bool_decide (member ∈ ps.*1)) = bool_decide (m !! member = None)) as Hadd.
  { rewrite (zcontents_mem _ _ _ Hc). by destruct (m !! member). }
  assert ((if bool_decide (member ∈ ps.*1)
           then (entry_of member score <$> ps, z_count z)
           else ((entry_of member score <$> ps) ++ [(member, score)], z_count z + 1))
          = (es, len (sort_entries es))) as ->.
  { unfold len. rewrite sort_entries_perm. subst es. rewrite Hct. unfold len.
    destruct (bool_decide _); rewrite ?length_app, ?length_fmap; simpl; f_equal; lia. }
  rewrite (rebuild_zpack _ []), Hadd, Hf. done.
Qed.

(** Replaying the pairs of a pack into an empty promoted set. *)
Lemma each_promote_zset ps qs f m coins :
  fullZSet_rep f qs -> zcontents qs m -> Forall zpair_ok ps -> NoDup ps.*1 ->
  Forall (λ k, m !! k = None) ps.*1 ->
  exists f' coins' qs', zeach ps promote_closure (f, coins) = Ret (f', coins') /\
    fullZSet_rep f' qs' /\ zcontents qs' (list_to_map ps ∪ m).
Proof.
  revert qs f m coins. induction ps as [|[k s] ps IH]; intros qs f m coins Hf Hc Hok Hnd Hnew.
  { exists f, coins, qs. split_and!; [done..|]. simpl. by rewrite (left_id_L ∅ (∪)). }
  apply Forall_cons in Hok as [Hp Hok]. apply NoDup_cons in Hnd as [Hk Hnd].
  apply Forall_cons in Hnew as [Hmk Hnew]. cbn [fst snd] in *.
  destruct (fullZSet_add_spec coins f qs m k s) as (f1 & c1 & q1 & s' & E & Hf1 & Hc1 & Hs');
    [done..|].
  assert (s' = s) as -> by (destruct Hs' as [?|[? _]]; congruence).
  assert (promote_closure k s (f, coins) = Ret ((f1, c1), true)) as Ep
    by (unfold promote_closure; by rewrite E).
  cbn [zeach fst snd]. rewrite Ep. orun.
  destruct (IH q1 f1 (<[k := s]> m) c1) as (f2 & c2 & q2 & E2 & Hf2 & Hc2); [done..| |].
  { rewrite Forall_forall in Hnew |- *. intros k' Hk'.
    rewrite lookup_insert_ne by (intros ->; done). by apply Hnew. }
  exists f2, c2, q2. split_and!; [done..|]. simpl.
  rewrite <- insert_union_l. rewrite <- insert_union_r in Hc2; [done|].
  by apply not_elem_of_list_to_map.
Qed.

Lemma newFullZSet_rep : fullZSet_rep newFullZSet [] /\ zcontents [] ∅.
Proof.
  split; [|by split_and!; constructor].
  split; [|done]. exists []. split; [apply newZskiplist_rep|done].
Qed.

Lemma ZSet_promote_spec coins z ps m :
  z_pack z = zpack_of ps -> zcontents ps m ->
  exists z' coins', ZSet_promote coins z = Ret (z', coins') /\
    zset_rep z' m /\ z_max z' = z_max z /\ z_full z' <> None.
Proof.
  intros Hpk Hc. pose proof Hc as (_ & Hok & Hnd & Hm). unfold ZSet_promote.
  rewrite Hpk, scanZPairs_zpack by done.
  destruct (each_promote_zset ps [] newFullZSet ∅ coins) as (f & c & qs & -> & Hf & Hc');
    [apply newFullZSet_rep|apply newFullZSet_rep|done|done|by apply Forall_true|].
  orun. rewrite (right_id_L ∅ (∪)), <- Hm in Hc'.
  eexists _, _. split; [done|]. split_and!; [by exists qs|done|done].
Qed.

(** The map after an [Add]: the score given, or the equal score already there. *)
Definition add_result (m : gmap bytes float64) (member : bytes) (score : float64)
    (m' : gmap bytes float64) : Prop :=
  exists s, m' = <[member := s]> m /\
    (s = score \/ m !! member = Some s /\ feq s score = true).

Lemma ZSet_Add_spec coins z m member score :
  zset_rep z m -> zset_within z m -> zpair_ok (member, score) ->
  exists z' coins' m', ZSet_Add coins z member score
      = Ret (bool_decide (m !! member = None), z', coins') /\
    add_result m member score m' /\
    zset_rep z' m' /\ z_max z' = z_max z /\ zset_within z' m'.
Proof.
  intros (ps & Hc & H) Hw Hp. unfold ZSet_Add, add_result.
  destruct (z_full z) as [f|] eqn:Ef.
  - destruct (fullZSet_add_spec coins f ps m member score)
      as (f' & c' & ps' & s' & -> & Hf' & Hc' & Hs'); [done..|]. orun.
    eexists _, _, _. split; [done|]. split_and!; [by eexists|by exists ps'|done|done].
  - destruct H as [Hpk Hct].
    destruct (compactAdd_spec z ps m member score) as (ps' & Hc' & ->); [done..|]. orun.
    cbn [z_max z_count]. destruct (exceeded _ _ _) eqn:Ex.
    + destruct (ZSet_promote_spec coins (mkZSet (zpack_of ps') (len ps') None (z_max z)) ps'
        (<[member := score]> m)) as (z' & c' & -> & Hr & Hmx & Hn); [done..|]. orun.
      eexists _, _, _. split; [done|].
      split_and!; [eexists; by split; [|left]|done|done|by intros ?].
    + eexists _, _, _. split; [done|].
      split_and!; [eexists; by split; [|left]|by exists ps'|done|].
      intros _. unfold exceeded in Ex. cbn [z_max].
      apply orb_false_iff in Ex as [?%Z.ltb_ge ?%Z.ltb_ge].
      rewrite <- (zcontents_size _ _ Hc'). split; [lia|].
      apply map_Forall_insert_2; [lia|]. by apply Hw.
Qed.

(** ** The contract: a finite map read in score order *)

Inductive zset_op :=
  | ZAdd (coins : list bool) (member : bytes) (score : float64)
  | ZScore (member : bytes)
  | ZRange (start stop : Z)
  | ZLen.

Inductive zset_obs :=
  | ZBool (b : bool)
  | ZVal (s : option float64)
  | ZMembers (ps : list ZMember)
  | ZLength (n : Z).

Definition zset_step (op : zset_op) (z : ZSet) : outcome (zset_obs * ZSet) :=
  match op with
  | ZAdd coins member score =>
      '(added, z, _) ← ZSet_Add coins z member score; Ret (ZBool added, z)
  | ZScore member => s ← ZSet_Score z member; Ret (ZVal s, z)
  | ZRange start stop => ps ← ZSet_Range z start stop; Ret (ZMembers ps, z)
  | ZLen => Ret (ZLength (ZSet_Len z), z)
  end.

Definition scored_spec (op : zset_op) (m : gmap bytes float64) (o : zset_obs)
    (m' : gmap bytes float64) : Prop :=
  match op with
  | ZAdd _ member score =>
      o = ZBool (bool_decide (m !! member = None)) /\ add_result m member score m'
  | ZScore member => o = ZVal (m !! member) /\ m' = m
  | ZRange start stop =>
      (exists ps, ps ≡ₚ map_to_list m /\ zsorted ps /\
        o = ZMembers (range_spec start stop ps)) /\ m' = m
  | ZLen => o = ZLength (Z.of_nat (size m)) /\ m' = m
  end.

Definition zset_op_ok (op : zset_op) (m : gmap bytes float64) : Prop :=
  match op with
  | ZAdd _ member score => zpair_ok (member, score)
  | ZRange start stop =>
      is_int64 start /\ is_int64 stop /\ Z.of_nat (size m) <= MaxInt64
  | _ => True
  end.

Definition zset_inv (max : Thresholds) (z : ZSet) (m : gmap bytes float64) : Prop :=
  zset_rep z m /\ zset_within z m /\ z_max z = max.

#[global] Instance zset_simulates max :
  Simulates zset_step scored_spec zset_op_ok (zset_inv max).
Proof.
  intros op z m (Hrep & Hw & Hm) Hok.
  destruct op as [coins member score|member|start stop|]; simpl in Hok;
    unfold zset_step, scored_spec.
  - destruct (ZSet_Add_spec coins z m member score) as (z' & c' & m' & -> & Ha & ? & ? & ?);
      [done..|]. orun. eexists _, _, m'. split; [done|].
    split_and!; [done..|]. split_and!; [done|done|congruence].
  - rewrite (ZSet_Score_spec z m) by done. by sim_step.
  - destruct Hok as (? & ? & ?).
    destruct (ZSet_Range_spec z m start stop) as (ps & Hc & ->); [done..|].
    orun. eexists _, _, _. split; [done|]. split; [|done]. split; [|done].
    destruct Hc as (Hs & _ & Hnd & ->). exists ps.
    split_and!; [by rewrite map_to_list_to_map|done|done].
  - rewrite (ZSet_Len_spec z m) by done. by sim_step.
Qed.

(** C14. Whatever its thresholds and whatever tower heights are drawn, a sorted
    set behaves as a finite map from members to scores read in the order by
    score, then by member: every finite sequence of adds (of scores that are
    not NaN), score queries, ranges and length queries from the empty set
    returns without a panic or an endless walk, and a range answers the slice of
    the ordered pairs its ranks select, across the promotion from the packed
    form to the map and skip list. An add stores the score given, or keeps a
    score equal to it as a float; a set still packed is within its
    thresholds. *)
Theorem ZSet_refines_scored_map max ops :
  ok_run scored_spec zset_op_ok ops ∅ ->
  exists obs z m,
    run zset_step ops (NewZSet max) = Ret (obs, z) /\
    spec_run scored_spec ops ∅ obs m /\
    zset_rep z m /\ zset_within z m.
Proof.
  intros Hok.
  destruct (run_simulates zset_step scored_spec zset_op_ok (zset_inv max) ops
    (NewZSet max) ∅) as (obs & z & m & E & Hs & Hrep & Hw & _).
  - split_and!; [apply NewZSet_rep|apply NewZSet_within|done].
  - done.
  - exists obs, z, m. done.
Qed.

(** Bit patterns of 1.0, 2.0 and -0.0. *)
Definition f64_one : float64 := 4607182418800017408.
Definition f64_two : float64 := 4611686018427387904.
Definition f64_negzero : float64 := 9223372036854775808.

Definition zset_witness_ops : list zset_op :=
  [ZAdd [] (lit "a") f64_two; ZAdd [] (lit "b") f64_one;
   ZAdd [true; false; true] (lit "c") f64_two; ZAdd [true] (lit "a") f64_one;
   ZScore (lit "a"); ZLen].

Lemma ZSet_refines_scored_map_witness :
  exists obs z m,
    run zset_step zset_witness_ops (NewZSet (mkThresholds 2 8)) = Ret (obs, z) /\
    spec_run scored_spec zset_witness_ops ∅ obs m /\
    zset_rep z m /\ zset_within z m.
Proof.
  apply (ZSet_refines_scored_map (mkThresholds 2 8) zset_witness_ops).
  cbn [zset_witness_ops ok_run].
  repeat (split; [by vm_compute|intros ? ? _]). done.
Defined.

(** The two encodings of a sorted set differ on one visible point: a member
    with score 0 given the score -0 keeps 0 in a promoted set, where the code
    updates only when [old != score], and takes -0 in a packed one, which is
    rebuilt with the score given. *)
Lemma ZSet_negzero_depends_on_encoding :
  exists z_small z_full_,
    run zset_step [ZAdd [] (lit "a") 0; ZAdd [] (lit "a") f64_negzero; ZScore (lit "a")]
      (NewZSet (mkThresholds 1 1))
    = Ret ([ZBool true; ZBool false; ZVal (Some f64_negzero)], z_small) /\
    run zset_step [ZAdd [] (lit "a") 0; ZAdd [] (lit "a") f64_negzero; ZScore (lit "a")]
      (NewZSet (mkThresholds 0 1))
    = Ret ([ZBool true; ZBool false; ZVal (Some 0)], z_full_) /\
    ZSet_Compact z_small = true /\ ZSet_Compact z_full_ = false.
Proof. eexists _, _. split; [vm_compute; reflexivity|]. split; [vm_compute; reflexivity|]. done. Qed.
