(* ===== verification/GoTime.v ===== *)
(** * time.Time and internal/clock

    A [time.Time] is modelled by its instant: nanoseconds since the zero time
    (January 1 of year 1), so the zero [Time] is 0. A [time.Duration] is an
    int64 of nanoseconds and wraps. Monotonic clock readings are not modelled:
    a clock reports instants. Also here: [ManualClock] of
    internal/clock/clock.go. *)

From S2P Require Import Prelude.

Definition Time := Z.
Definition Duration := Z.

Definition zeroTime : Time := 0.
Definition IsZero (t : Time) : bool := t =? zeroTime.
Definition Before (t u : Time) : bool := t <? u.

Definition Second : Duration := 1000000000.
Definition Millisecond : Duration := 1000000.

(** The product of two durations, an int64. *)
Definition mul_duration (a b : Z) : Duration := wrap64 (a * b).

Definition time_Add (t : Time) (d : Duration) : Time := t + d.

(** [t.Sub(u)], saturating at the ends of [Duration]. *)
Definition time_Sub (t u : Time) : Duration := Z.max MinInt64 (Z.min MaxInt64 (t - u)).

Definition Milliseconds (d : Duration) : Z := Z.quot d 1000000.

(** January 1, 1970. *)
Definition unix_epoch : Time := 62135596800 * 1000000000.

(** [time.Unix(0, ns)] and [time.UnixMilli(ms)]. *)
Definition time_Unix0 (ns : Z) : Time := unix_epoch + ns.
Definition time_UnixMilli (ms : Z) : Time := unix_epoch + ms * 1000000.

(** [t.UnixNano()] and [t.UnixMilli()]: int64 arithmetic. *)
Definition UnixNano (t : Time) : Z := wrap64 (t - unix_epoch).
Definition UnixMilli (t : Time) : Z := wrap64 ((t - unix_epoch) / 1000000).

(** ** internal/clock *)

Record ManualClock := mkManualClock { mc_now : Time }.

Definition NewManualClock (t : Time) : ManualClock := mkManualClock t.
Definition ManualClock_Now (c : ManualClock) : Time := mc_now c.
Definition ManualClock_Advance (c : ManualClock) (d : Duration) : ManualClock :=
  mkManualClock (time_Add (mc_now c) d).
Definition ManualClock_Set (c : ManualClock) (t : Time) : ManualClock := mkManualClock t.

(** ** Lemmas *)

(** An instant whose nanosecond count fits an int64 survives the snapshot's
    representation. *)
Lemma Unix0_UnixNano t : is_int64 (t - unix_epoch) -> time_Unix0 (UnixNano t) = t.
Proof. intros. unfold time_Unix0, UnixNano. rewrite wrap64_id by done. lia. Qed.

(** Truncating to milliseconds moves a deadline back by less than one. *)
Lemma UnixMilli_bounds t :
  is_int64 ((t - unix_epoch) / 1000000) ->
  t - 1000000 < time_UnixMilli (UnixMilli t) <= t.
Proof.
  intros H. unfold time_UnixMilli, UnixMilli. rewrite wrap64_id by done.
  pose proof (Z.mul_div_le (t - unix_epoch) 1000000 ltac:(lia)).
  pose proof (Z.mul_succ_div_gt (t - unix_epoch) 1000000 ltac:(lia)). lia.
Qed.
