(* ===== verification/Value.v ===== *)
(** * internal/value/value.go and string.go

    The tagged union of data values. A Go [Value] holds one live payload
    selected by its kind; here it is an inductive type with one constructor per
    kind, and the accessors panic on the wrong kind as the source does.
    Collection payloads are pointers in the source: the components that mutate
    one write the new payload back where the pointer is stored. *)

From S2P Require Import Prelude GoBinary Pack Float64 Skiplist.
From S2P Require Import ValueList ValueHash ValueSet ValueZSet.

Inductive Kind := KindNone | KindString | KindList | KindHash | KindSet | KindZSet.

#[global] Instance Kind_eq_dec : EqDecision Kind.
Proof. solve_decision. Defined.

Definition Kind_String (k : Kind) : bytes :=
  match k with
  | KindNone => lit "none"
  | KindString => lit "string"
  | KindList => lit "list"
  | KindHash => lit "hash"
  | KindSet => lit "set"
  | KindZSet => lit "zset"
  end.

Inductive Value :=
  | VNone
  | VString (str : bytes)
  | VList (l : List)
  | VHash (h : Hash)
  | VSet (s : GoSet)
  | VZSet (z : ZSet).

Definition Value_Kind (v : Value) : Kind :=
  match v with
  | VNone => KindNone
  | VString _ => KindString
  | VList _ => KindList
  | VHash _ => KindHash
  | VSet _ => KindSet
  | VZSet _ => KindZSet
  end.

Definition IsCollection (v : Value) : bool :=
  match Value_Kind v with
  | KindList | KindHash | KindSet | KindZSet => true
  | _ => false
  end.

Definition MakeString (b : bytes) : Value := VString b.
Definition MakeList (l : List) : Value := VList l.
Definition MakeHash (h : Hash) : Value := VHash h.
Definition MakeSet (s : GoSet) : Value := VSet s.
Definition MakeZSet (z : ZSet) : Value := VZSet z.

Definition Value_Str (v : Value) : outcome bytes :=
  match v with VString b => Ret b | _ => Panic WrongKind end.
Definition Value_List (v : Value) : outcome List :=
  match v with VList l => Ret l | _ => Panic WrongKind end.
Definition Value_Hash (v : Value) : outcome Hash :=
  match v with VHash h => Ret h | _ => Panic WrongKind end.
Definition Value_Set (v : Value) : outcome GoSet :=
  match v with VSet s => Ret s | _ => Panic WrongKind end.
Definition Value_ZSet (v : Value) : outcome ZSet :=
  match v with VZSet z => Ret z | _ => Panic WrongKind end.

(** ** Abstract values: what a client can observe of a value. *)
Inductive avalue :=
  | AString (b : bytes)
  | AList (es : list bytes)
  | AHash (m : gmap bytes bytes)
  | ASet (s : gset bytes)
  | AZSet (m : gmap bytes float64).

Definition value_rep (v : Value) (a : avalue) : Prop :=
  match v, a with
  | VString b, AString b' => b = b' /\ go_len b
  | VList l, AList es => list_rep l es /\ list_within l es
  | VHash h, AHash m => hash_rep h m /\ hash_within h m
  | VSet s, ASet X => set_rep s X /\ set_within s X
  | VZSet z, AZSet m => zset_rep z m /\ zset_within z m
  | _, _ => False
  end.

(** Every reachable value: one that represents some abstract value. *)
Definition value_wf (v : Value) : Prop := exists a, value_rep v a.

(** A collection's size fits an [int]. *)
Definition small_value (a : avalue) : Prop :=
  match a with
  | AString b => len b <= MaxInt64
  | AList es => len es <= MaxInt64
  | AHash m => Z.of_nat (size m) <= MaxInt64
  | ASet X => Z.of_nat (size X) <= MaxInt64
  | AZSet m => Z.of_nat (size m) <= MaxInt64
  end.
