(* ===== verification/Keyspace.v ===== *)
(** * internal/keyspace

    One shard's key space: the key-to-entry map and the index of keys that
    carry a deadline. Reads hide an expired entry without removing it; writes
    and active expiry reclaim it. The relation [ks_rep] abstracts a key space at
    a time to the map of its live entries, and every operation is proved
    against that map: when and whether expired entries are reclaimed cannot be
    observed. *)

From S2P Require Import Prelude GoTime Value.

(** ** Definitions (entry.go, keyspace.go) *)

Record Entry := mkEntry { e_Value : Value; e_ExpireAt : Time }.

Definition HasExpiry (e : Entry) : bool := negb (IsZero (e_ExpireAt e)).

Definition expired (e : Entry) (now : Time) : bool :=
  HasExpiry e && negb (Before now (e_ExpireAt e)).

Record Keyspace := mkKeyspace {
  entries : gmap bytes Entry;
  withTTL : gset bytes }.

Definition Keyspace_New : Keyspace := mkKeyspace ∅ ∅.

(** The operations that read the clock take its reading [now]. *)
Definition peek (now : Time) (k : Keyspace) (key : bytes) : option Entry :=
  match entries k !! key with
  | Some e => if expired e now then None else Some e
  | None => None
  end.

Definition Keyspace_Lookup := peek.

Definition Keyspace_Get (now : Time) (k : Keyspace) (key : bytes) : option Value :=
  e_Value <$> peek now k key.

Definition Keyspace_GetBytes (now : Time) (k : Keyspace) (key : bytes) : option Value :=
  match entries k !! key with
  | Some e => if expired e now then None else Some (e_Value e)
  | None => None
  end.

Definition Keyspace_ExistsBytes (now : Time) (k : Keyspace) (key : bytes) : bool :=
  match entries k !! key with
  | Some e => negb (expired e now)
  | None => false
  end.

Definition Keyspace_Exists (now : Time) (k : Keyspace) (key : bytes) : bool :=
  bool_decide (is_Some (peek now k key)).

Definition Keyspace_Set (k : Keyspace) (key : bytes) (v : Value) : Keyspace :=
  mkKeyspace (<[key := mkEntry v zeroTime]> (entries k)) (withTTL k ∖ {[key]}).

Definition Keyspace_SetEntry (k : Keyspace) (key : bytes) (e : Entry) : Keyspace :=
  mkKeyspace (<[key := e]> (entries k))
    (if HasExpiry e then {[key]} ∪ withTTL k else withTTL k ∖ {[key]}).

Definition Keyspace_SetExpire (now : Time) (k : Keyspace) (key : bytes) (at_ : Time) :
    bool * Keyspace :=
  match peek now k key with
  | None => (false, k)
  | Some e =>
      (true, mkKeyspace (<[key := mkEntry (e_Value e) at_]> (entries k))
               ({[key]} ∪ withTTL k))
  end.

Definition Keyspace_Persist (now : Time) (k : Keyspace) (key : bytes) : bool * Keyspace :=
  match peek now k key with
  | Some e =>
      if HasExpiry e
      then (true, mkKeyspace (<[key := mkEntry (e_Value e) zeroTime]> (entries k))
                    (withTTL k ∖ {[key]}))
      else (false, k)
  | None => (false, k)
  end.

Definition Keyspace_Delete (now : Time) (k : Keyspace) (key : bytes) : bool * Keyspace :=
  match entries k !! key with
  | None => (false, k)
  | Some e =>
      (negb (expired e now), mkKeyspace (delete key (entries k)) (withTTL k ∖ {[key]}))
  end.

Definition Keyspace_Take (now : Time) (k : Keyspace) (key : bytes) :
    (option Entry * bool) * Keyspace :=
  match entries k !! key with
  | None => ((None, false), k)
  | Some e =>
      ((Some e, negb (expired e now)),
       mkKeyspace (delete key (entries k)) (withTTL k ∖ {[key]}))
  end.

(** The body of [SampleExpired]'s loop for one key, then the loop over the keys
    in iteration order. Deleting the key being visited does not disturb the
    iteration. *)
Definition sample_key (now : Time) (k : Keyspace) (key : bytes) : Keyspace * Z :=
  match entries k !! key with
  | None => (mkKeyspace (entries k) (withTTL k ∖ {[key]}), 0)
  | Some e =>
      if negb (HasExpiry e) then (mkKeyspace (entries k) (withTTL k ∖ {[key]}), 0)
      else if expired e now
      then (mkKeyspace (delete key (entries k)) (withTTL k ∖ {[key]}), 1)
      else (k, 0)
  end.

Fixpoint sample_loop (now : Time) (limit : Z) (keys : list bytes) (k : Keyspace)
    (examined evicted : Z) : Keyspace * Z * Z :=
  match keys with
  | [] => (k, examined, evicted)
  | key :: keys =>
      if limit <=? examined then (k, examined, evicted)
      else
        let '(k, n) := sample_key now k key in
        sample_loop now limit keys k (examined + 1) (evicted + n)
  end.

Definition SampleExpired (seed : list nat) (k : Keyspace) (now : Time) (limit : Z) :
    Keyspace * Z * Z :=
  sample_loop now limit (shuffle seed (elements (withTTL k))) k 0 0.

Definition Keyspace_Len (k : Keyspace) : Z := Z.of_nat (size (entries k)).

(** [Range]: the entries in the order the callback sees them. *)
Definition Keyspace_Range (seed : list nat) (k : Keyspace) : list (bytes * Entry) :=
  shuffle seed (map_to_list (entries k)).

Definition Keyspace_Flush (k : Keyspace) : Keyspace := mkKeyspace ∅ ∅.

(** A collection mutated in place through the pointer its entry holds. *)
Definition Keyspace_mutate (k : Keyspace) (key : bytes) (v : Value) : Keyspace :=
  mkKeyspace (alter (λ e, mkEntry v (e_ExpireAt e)) key (entries k)) (withTTL k).

(** ** Representation *)

(** The entries that have not expired at [t]. *)
Definition live (t : Time) (m : gmap bytes Entry) : gmap bytes Entry :=
  filter (λ p, expired p.2 t = false) m.

(** The index covers every entry with a deadline, and nothing that is not
    stored. *)
Definition index_ok (k : Keyspace) : Prop :=
  (forall key e, entries k !! key = Some e -> HasExpiry e = true -> key ∈ withTTL k) /\
  withTTL k ⊆ dom (entries k).

Definition ks_rep (k : Keyspace) (s : Time * gmap bytes Entry) : Prop :=
  live s.1 (entries k) = s.2 /\ index_ok k.

(** ** Lemmas: liveness *)

Lemma lookup_live t m k :
  live t m !! k = m !! k ≫= λ e, if expired e t then None else Some e.
Proof.
  unfold live. rewrite map_lookup_filter. destruct (m !! k) as [e|]; [|done]. simpl.
  by destruct (expired e t).
Qed.

(** An expired entry stays expired. *)
Lemma expired_mono e t t' : t <= t' -> expired e t = true -> expired e t' = true.
Proof.
  unfold expired, Before. intros Ht [H1 H2]%andb_true_iff. rewrite H1. simpl.
  apply negb_true_iff, Z.ltb_ge in H2. apply negb_true_iff, Z.ltb_ge. lia.
Qed.

Lemma live_live t t' m : t <= t' -> live t' (live t m) = live t' m.
Proof.
  intros Ht. apply map_eq. intros k. rewrite !lookup_live. destruct (m !! k) as [e|]; [|done].
  simpl. destruct (expired e t) eqn:E; [|done]. simpl. by rewrite (expired_mono e t t').
Qed.

Lemma live_insert t m k e :
  expired e t = false -> live t (<[k := e]> m) = <[k := e]> (live t m).
Proof.
  intros He. apply map_eq. intros j. rewrite lookup_live. destruct (decide (j = k)) as [->|].
  - rewrite !lookup_insert_eq. simpl. by rewrite He.
  - rewrite !lookup_insert_ne by done. by rewrite lookup_live.
Qed.

Lemma live_insert_expired t m k e :
  expired e t = true -> live t (<[k := e]> m) = delete k (live t m).
Proof.
  intros He. apply map_eq. intros j. rewrite lookup_live. destruct (decide (j = k)) as [->|].
  - rewrite lookup_insert_eq, lookup_delete_eq. simpl. by rewrite He.
  - rewrite lookup_insert_ne, lookup_delete_ne by done. by rewrite lookup_live.
Qed.

Lemma live_delete t m k : live t (delete k m) = delete k (live t m).
Proof.
  apply map_eq. intros j. rewrite lookup_live. destruct (decide (j = k)) as [->|].
  - by rewrite !lookup_delete_eq.
  - rewrite !lookup_delete_ne by done. by rewrite lookup_live.
Qed.

Lemma live_empty t : live t ∅ = ∅.
Proof. apply map_filter_empty. Qed.

Lemma expired_no_deadline v t : expired (mkEntry v zeroTime) t = false.
Proof. done. Qed.

(** Entries that agree in deadline expire together. *)
Lemma expired_deadline v v' d t : expired (mkEntry v d) t = expired (mkEntry v' d) t.
Proof. done. Qed.

Lemma peek_live now k key : peek now k key = live now (entries k) !! key.
Proof. unfold peek. rewrite lookup_live. by destruct (entries k !! key). Qed.

(** ** Lemmas: the index *)

Lemma index_ok_insert (k : Keyspace) (key : bytes) (e : Entry) (idx : gset bytes) :
  index_ok k -> (HasExpiry e = true -> key ∈ idx) ->
  idx ⊆ {[key]} ∪ withTTL k -> withTTL k ∖ {[key]} ⊆ idx ->
  index_ok (mkKeyspace (<[key := e]> (entries k)) idx).
Proof.
  intros [H1 H2] Hk Hsub Hsup. split; cbn [entries withTTL].
  - intros j e' Hj He. destruct (decide (j = key)) as [->|Hne].
    + rewrite lookup_insert_eq in Hj. naive_solver.
    + rewrite lookup_insert_ne in Hj by done. specialize (H1 _ _ Hj He). set_solver.
  - rewrite dom_insert. set_solver.
Qed.

Lemma index_ok_delete (k : Keyspace) (key : bytes) :
  index_ok k -> index_ok (mkKeyspace (delete key (entries k)) (withTTL k ∖ {[key]})).
Proof.
  intros [H1 H2]. split; cbn [entries withTTL].
  - intros j e [Hne Hj]%lookup_delete_Some He. specialize (H1 _ _ Hj He). set_solver.
  - rewrite dom_delete. set_solver.
Qed.

(** A key with no deadline may leave the index. *)
Lemma index_ok_stale (k : Keyspace) (key : bytes) :
  index_ok k -> (forall e, entries k !! key = Some e -> HasExpiry e = false) ->
  index_ok (mkKeyspace (entries k) (withTTL k ∖ {[key]})).
Proof.
  intros [H1 H2] Hn. split; cbn [entries withTTL]; [|set_solver].
  intros j e Hj He. specialize (H1 _ _ Hj He).
  assert (j <> key) by (intros ->; rewrite (Hn _ Hj) in He; done). set_solver.
Qed.

Lemma index_ok_mutate (k : Keyspace) key v : index_ok k -> index_ok (Keyspace_mutate k key v).
Proof.
  intros [H1 H2]. split; cbn [entries withTTL Keyspace_mutate]; [|by rewrite dom_alter].
  intros j e Hj He. destruct (decide (j = key)) as [->|Hne].
  - rewrite lookup_alter_eq in Hj. destruct (entries k !! key) as [e'|] eqn:E; [|done].
    injection Hj as <-. by apply (H1 key e').
  - rewrite lookup_alter_ne in Hj by done. by apply (H1 j e).
Qed.

(** ** Lemmas: active expiry *)

Lemma sample_key_live now t k key :
  now <= t -> live t (entries (sample_key now k key).1) = live t (entries k).
Proof.
  intros Ht. unfold sample_key. destruct (entries k !! key) as [e|] eqn:E; [|done].
  destruct (HasExpiry e); [|done]. cbn [negb]. destruct (expired e now) eqn:Ee; [|done].
  cbn [fst entries]. rewrite live_delete. apply delete_id.
  rewrite lookup_live, E. simpl. by rewrite (expired_mono e now t).
Qed.

Lemma sample_key_index now k key : index_ok k -> index_ok (sample_key now k key).1.
Proof.
  intros H. unfold sample_key. destruct (entries k !! key) as [e|] eqn:E.
  - destruct (HasExpiry e) eqn:He; cbn [negb].
    + destruct (expired e now); [by apply index_ok_delete|done].
    + apply index_ok_stale; [done|]. intros e' ?. congruence.
  - apply index_ok_stale; [done|]. intros e' ?. congruence.
Qed.

Lemma sample_key_size now k key :
  Z.of_nat (size (entries (sample_key now k key).1)) + (sample_key now k key).2
    = Z.of_nat (size (entries k)) /\
  0 <= (sample_key now k key).2 <= 1.
Proof.
  unfold sample_key. destruct (entries k !! key) as [e|] eqn:E; [|simpl; lia].
  destruct (HasExpiry e); cbn [negb]; [|simpl; lia].
  destruct (expired e now); cbn [fst snd entries]; [|lia].
  rewrite map_size_delete_Some by done.
  assert (size (entries k) <> 0%nat) by (intros Hz; apply map_size_empty_inv in Hz;
    rewrite Hz in E; done). lia.
Qed.

(** The loop changes no live entry, keeps the index, and counts what it evicts
    within its budget. *)
Lemma sample_loop_spec now limit keys k examined evicted :
  index_ok k -> 0 <= examined ->
  exists k' ex ev,
    sample_loop now limit keys k examined evicted = (k', ex, ev) /\
    index_ok k' /\ (forall t, now <= t -> live t (entries k') = live t (entries k)) /\
    examined <= ex <= Z.max examined limit /\ ex - examined <= len keys /\
    0 <= ev - evicted <= ex - examined /\
    Keyspace_Len k' + (ev - evicted) = Keyspace_Len k.
Proof.
  revert k examined evicted. induction keys as [|key keys IH]; intros k examined evicted Hok Hex.
  { exists k, examined, evicted. rewrite len_nil. split_and!; [done|done|done|lia..]. }
  cbn [sample_loop]. rewrite len_cons. destruct (Z.leb_spec limit examined).
  { exists k, examined, evicted. pose proof (len_nonneg keys).
    split_and!; [done|done|done|lia..]. }
  pose proof (sample_key_index now k key Hok) as Hok1.
  pose proof (sample_key_size now k key) as [Hsz Hn].
  pose proof (fun t => sample_key_live now t k key) as Hlive.
  destruct (sample_key now k key) as [k1 n]. cbn [fst snd] in *.
  destruct (IH k1 (examined + 1) (evicted + n)) as
    (k' & ex & ev & E & Hok' & Hl & H1 & H2 & H3 & H4); [done|lia|].
  exists k', ex, ev. unfold Keyspace_Len in *. split_and!; [done|done| |lia..].
  intros t Ht. by rewrite Hl, Hlive.
Qed.

Lemma SampleExpired_spec seed k now limit :
  index_ok k ->
  exists k' ex ev,
    SampleExpired seed k now limit = (k', ex, ev) /\ index_ok k' /\
    (forall t, now <= t -> live t (entries k') = live t (entries k)) /\
    0 <= ev <= ex /\ ex <= Z.max 0 limit /\ Keyspace_Len k' + ev = Keyspace_Len k.
Proof.
  intros Hok. unfold SampleExpired.
  destruct (sample_loop_spec now limit (shuffle seed (elements (withTTL k))) k 0 0)
    as (k' & ex & ev & E & H1 & H2 & H3 & H4 & H5 & H6); [done|lia|].
  exists k', ex, ev. split_and!; [done..|lia|lia|lia|lia].
Qed.

Lemma sample_key_subseteq now k key : entries (sample_key now k key).1 ⊆ entries k.
Proof.
  unfold sample_key. destruct (entries k !! key) as [e|]; [|done].
  destruct (HasExpiry e); [|done]. cbn [negb]. destruct (expired e now); [|done].
  apply delete_subseteq.
Qed.

Lemma sample_loop_subseteq now limit keys k examined evicted :
  entries (sample_loop now limit keys k examined evicted).1.1 ⊆ entries k.
Proof.
  revert k examined evicted. induction keys as [|key keys IH]; intros k examined evicted; [done|].
  cbn [sample_loop]. destruct (limit <=? examined); [done|].
  pose proof (sample_key_subseteq now k key). destruct (sample_key now k key) as [k1 n].
  etrans; [apply IH|done].
Qed.

(** With budget left for every key, no key visited is left expired. *)
Lemma sample_loop_complete now limit keys k examined evicted :
  examined + len keys <= limit ->
  exists k' ex ev,
    sample_loop now limit keys k examined evicted = (k', ex, ev) /\
    entries k' ⊆ entries k /\
    (forall key e, key ∈ keys -> entries k' !! key = Some e -> expired e now = false).
Proof.
  revert k examined evicted. induction keys as [|key keys IH]; intros k examined evicted Hb.
  { exists k, examined, evicted. split_and!; [done..|]. intros ? ? Hin. by apply elem_of_nil in Hin. }
  rewrite len_cons in Hb. pose proof (len_nonneg keys). cbn [sample_loop].
  destruct (Z.leb_spec limit examined); [lia|].
  pose proof (sample_key_subseteq now k key) as Hsub.
  assert (forall e, entries (sample_key now k key).1 !! key = Some e -> expired e now = false)
    as Hkey.
  { unfold sample_key. destruct (entries k !! key) as [e|] eqn:E; [|intros; simpl in *; congruence].
    destruct (HasExpiry e) eqn:He; cbn [negb].
    - destruct (expired e now) eqn:Ee; cbn [fst entries]; intros e' He'.
      + by rewrite lookup_delete_eq in He'.
      + congruence.
    - cbn [fst entries]. intros e' He'. unfold expired. replace e' with e by congruence.
      by rewrite He. }
  destruct (sample_key now k key) as [k1 n]. cbn [fst] in *.
  destruct (IH k1 (examined + 1) (evicted + n)) as (k' & ex & ev & E & Hs & Hall); [lia|].
  exists k', ex, ev. split_and!; [done|by etrans|].
  intros key' e [->|Hin]%elem_of_cons He; [|by eapply Hall].
  apply Hkey. eapply lookup_weaken; done.
Qed.

(** ** The contract: a map whose entries vanish at their deadlines

    The abstract state is the last clock reading and the live entries. A call
    that reads the clock first drops the entries whose deadline has come. *)

Inductive store_op :=
  | SLookup (now : Time) (key : bytes)
  | SGet (now : Time) (key : bytes)
  | SGetBytes (now : Time) (key : bytes)
  | SExists (now : Time) (key : bytes)
  | SExistsBytes (now : Time) (key : bytes)
  | SSet (key : bytes) (v : Value)
  | SSetEntry (key : bytes) (e : Entry)
  | SSetExpire (now : Time) (key : bytes) (at_ : Time)
  | SPersist (now : Time) (key : bytes)
  | SDelete (now : Time) (key : bytes)
  | STake (now : Time) (key : bytes)
  | SMutate (key : bytes) (v : Value)
  | SFlush
  | SExpireCycle (seeds : nat -> list nat) (now : Time) (limit : Z).

Inductive store_obs :=
  | OEntry (e : option Entry)
  | OValue (v : option Value)
  | OBool (b : bool)
  | OUnit
  | OCounts (examined evicted : Z).

(** The clock reading a call makes, if it makes one. *)
Definition op_now (op : store_op) : option Time :=
  match op with
  | SLookup now _ | SGet now _ | SGetBytes now _ | SExists now _ | SExistsBytes now _
  | SSetExpire now _ _ | SPersist now _ | SDelete now _ | STake now _
  | SExpireCycle _ now _ => Some now
  | SSet _ _ | SSetEntry _ _ | SMutate _ _ | SFlush => None
  end.

(** The key a call names. *)
Definition op_key (op : store_op) : option bytes :=
  match op with
  | SLookup _ key | SGet _ key | SGetBytes _ key | SExists _ key | SExistsBytes _ key
  | SSet key _ | SSetEntry key _ | SSetExpire _ key _ | SPersist _ key | SDelete _ key
  | STake _ key | SMutate key _ => Some key
  | SFlush | SExpireCycle _ _ _ => None
  end.

(** An entry stored at [t]: not there if its deadline has already come. *)
Definition alive (t : Time) (e : Entry) : option Entry := if expired e t then None else Some e.

(** What a call at time [t] makes of the live entry at its key. *)
Definition op_update (op : store_op) (t : Time) (o : option Entry) : option Entry :=
  match op with
  | SSet _ v => Some (mkEntry v zeroTime)
  | SSetEntry _ e => alive t e
  | SSetExpire _ _ at_ => o ≫= λ e, alive t (mkEntry (e_Value e) at_)
  | SPersist _ _ => (λ e, mkEntry (e_Value e) zeroTime) <$> o
  | SDelete _ _ | STake _ _ => None
  | SMutate _ v => (λ e, mkEntry v (e_ExpireAt e)) <$> o
  | _ => o
  end.

(** The live map after a call. *)
Definition store_after (op : store_op) (t : Time) (m : gmap bytes Entry) : gmap bytes Entry :=
  match op_key op with
  | Some key => partial_alter (op_update op t) key m
  | None => match op with SFlush => ∅ | _ => m end
  end.

(** The answer of a call that finds [o] live at its key; [n] is the number of
    shards an expiry cycle visits. *)
Definition store_answer (n : Z) (op : store_op) (o : option Entry) (obs : store_obs) : Prop :=
  match op with
  | SLookup _ _ | STake _ _ => obs = OEntry o
  | SGet _ _ | SGetBytes _ _ => obs = OValue (e_Value <$> o)
  | SExists _ _ | SExistsBytes _ _ | SSetExpire _ _ _ | SDelete _ _ =>
      obs = OBool (bool_decide (is_Some o))
  | SPersist _ _ => obs = OBool (default false (HasExpiry <$> o))
  | SSet _ _ | SSetEntry _ _ | SMutate _ _ | SFlush => obs = OUnit
  | SExpireCycle _ _ limit =>
      exists ex ev, obs = OCounts ex ev /\ 0 <= ev <= ex /\ ex <= n * Z.max 0 limit
  end.

Definition found (op : store_op) (m : gmap bytes Entry) : option Entry :=
  op_key op ≫= λ key, m !! key.

Definition store_spec (n : Z) (op : store_op) (s : Time * gmap bytes Entry) (o : store_obs)
    (s' : Time * gmap bytes Entry) : Prop :=
  let t := default s.1 (op_now op) in
  let m := live t s.2 in
  store_answer n op (found op m) o /\ s' = (t, store_after op t m).

(** Clock readings never go back. *)
Definition store_op_ok (op : store_op) (s : Time * gmap bytes Entry) : Prop :=
  s.1 <= default s.1 (op_now op).

Definition ks_step (op : store_op) (k : Keyspace) : outcome (store_obs * Keyspace) :=
  Ret match op with
  | SLookup now key => (OEntry (Keyspace_Lookup now k key), k)
  | SGet now key => (OValue (Keyspace_Get now k key), k)
  | SGetBytes now key => (OValue (Keyspace_GetBytes now k key), k)
  | SExists now key => (OBool (Keyspace_Exists now k key), k)
  | SExistsBytes now key => (OBool (Keyspace_ExistsBytes now k key), k)
  | SSet key v => (OUnit, Keyspace_Set k key v)
  | SSetEntry key e => (OUnit, Keyspace_SetEntry k key e)
  | SSetExpire now key at_ =>
      let '(b, k) := Keyspace_SetExpire now k key at_ in (OBool b, k)
  | SPersist now key => let '(b, k) := Keyspace_Persist now k key in (OBool b, k)
  | SDelete now key => let '(b, k) := Keyspace_Delete now k key in (OBool b, k)
  | STake now key =>
      let '((e, live), k) := Keyspace_Take now k key in
      (OEntry (if live : bool then e else None), k)
  | SMutate key v => (OUnit, Keyspace_mutate k key v)
  | SFlush => (OUnit, Keyspace_Flush k)
  | SExpireCycle seeds now limit =>
      let '(k, ex, ev) := SampleExpired (seeds 0%nat) k now limit in (OCounts ex ev, k)
  end.

(** ** Lemmas: each operation against the live map *)

Lemma ks_rep_time k t m t' : ks_rep k (t, m) -> t <= t' -> ks_rep k (t', live t' m).
Proof.
  intros [Hm Hi] Ht. split; [|done]. cbn [fst snd] in *. rewrite <- Hm. by rewrite live_live.
Qed.

(** Storing what is alive of an entry. *)
Lemma live_put t m key e :
  live t (<[key := e]> m) = partial_alter (λ _, alive t e) key (live t m).
Proof.
  unfold alive. destruct (expired e t) eqn:E; [by apply live_insert_expired|by apply live_insert].
Qed.

Lemma partial_alter_const (m : gmap bytes Entry) key f :
  partial_alter f key m = partial_alter (λ _, f (m !! key)) key m.
Proof.
  apply map_eq. intros j. destruct (decide (j = key)) as [->|].
  - by rewrite !lookup_partial_alter_eq.
  - by rewrite !lookup_partial_alter_ne.
Qed.

Section KeyspaceOps.
Context (t : Time) (k : Keyspace) (m : gmap bytes Entry).
Context (Hrep : ks_rep k (t, m)).

Lemma ks_live : live t (entries k) = m.
Proof. apply Hrep. Qed.

Lemma ks_peek key : peek t k key = m !! key.
Proof. by rewrite peek_live, ks_live. Qed.

Lemma ks_Lookup key : Keyspace_Lookup t k key = m !! key.
Proof. apply ks_peek. Qed.

Lemma ks_Get key : Keyspace_Get t k key = e_Value <$> m !! key.
Proof. unfold Keyspace_Get. by rewrite ks_peek. Qed.

Lemma ks_GetBytes key : Keyspace_GetBytes t k key = e_Value <$> m !! key.
Proof.
  rewrite <- ks_peek. unfold Keyspace_GetBytes, peek.
  destruct (entries k !! key) as [e|]; [|done]. by destruct (expired e t).
Qed.

Lemma ks_Exists key : Keyspace_Exists t k key = bool_decide (is_Some (m !! key)).
Proof. unfold Keyspace_Exists. by rewrite ks_peek. Qed.

Lemma ks_ExistsBytes key : Keyspace_ExistsBytes t k key = bool_decide (is_Some (m !! key)).
Proof.
  rewrite <- ks_peek. unfold Keyspace_ExistsBytes, peek.
  destruct (entries k !! key) as [e|]; [|done]. by destruct (expired e t).
Qed.

Lemma ks_stored (key : bytes) (e : Entry) (idx : gset bytes) :
  (HasExpiry e = true -> key ∈ idx) ->
  idx ⊆ {[key]} ∪ withTTL k -> withTTL k ∖ {[key]} ⊆ idx ->
  ks_rep (mkKeyspace (<[key := e]> (entries k)) idx)
    (t, partial_alter (λ _, alive t e) key m).
Proof.
  intros. split; cbn [fst snd entries]; [by rewrite live_put, ks_live|].
  apply index_ok_insert; [apply Hrep|done..].
Qed.

Lemma ks_same f key : f (m !! key) = m !! key -> ks_rep k (t, partial_alter f key m).
Proof. intros E. by rewrite partial_alter_const, E, partial_alter_self. Qed.

Lemma ks_SetEntry key e :
  ks_rep (Keyspace_SetEntry k key e) (t, partial_alter (λ _, alive t e) key m).
Proof. apply ks_stored; destruct (HasExpiry e); set_solver. Qed.

Lemma ks_Set key v :
  ks_rep (Keyspace_Set k key v) (t, partial_alter (λ _, Some (mkEntry v zeroTime)) key m).
Proof. apply (ks_stored key (mkEntry v zeroTime)); [done|set_solver..]. Qed.

Lemma ks_SetExpire key at_ :
  exists k', Keyspace_SetExpire t k key at_ = (bool_decide (is_Some (m !! key)), k') /\
    ks_rep k' (t, partial_alter (λ o, o ≫= λ e, alive t (mkEntry (e_Value e) at_)) key m).
Proof.
  unfold Keyspace_SetExpire. rewrite ks_peek.
  destruct (m !! key) as [e|] eqn:E; eexists; (split; [done|]).
  - rewrite partial_alter_const, E. apply ks_stored; set_solver.
  - apply ks_same. by rewrite E.
Qed.

Lemma ks_Persist key :
  exists k', Keyspace_Persist t k key = (default false (HasExpiry <$> m !! key), k') /\
    ks_rep k' (t, partial_alter (fmap (λ e, mkEntry (e_Value e) zeroTime)) key m).
Proof.
  unfold Keyspace_Persist. rewrite ks_peek.
  destruct (m !! key) as [e|] eqn:E; simpl.
  - destruct (HasExpiry e) eqn:He; eexists; (split; [done|]).
    + rewrite partial_alter_const, E.
      apply (ks_stored key (mkEntry (e_Value e) zeroTime)); [done|set_solver..].
    + apply ks_same. rewrite E. simpl. f_equal. destruct e as [v d]. simpl. f_equal.
      unfold HasExpiry, IsZero in He. by apply negb_false_iff, Z.eqb_eq in He.
  - eexists. split; [done|]. apply ks_same. by rewrite E.
Qed.

Lemma ks_removed key :
  ks_rep (mkKeyspace (delete key (entries k)) (withTTL k ∖ {[key]})) (t, delete key m).
Proof.
  split; cbn [fst snd entries]; [by rewrite live_delete, ks_live|].
  apply index_ok_delete, Hrep.
Qed.

Lemma ks_Delete key :
  exists k', Keyspace_Delete t k key = (bool_decide (is_Some (m !! key)), k') /\
    ks_rep k' (t, delete key m).
Proof.
  unfold Keyspace_Delete. rewrite <- ks_peek. unfold peek.
  destruct (entries k !! key) as [e|] eqn:E.
  - eexists. split; [by destruct (expired e t)|apply ks_removed].
  - eexists. split; [done|]. rewrite delete_id; [done|].
    rewrite <- ks_live, lookup_live. by rewrite E.
Qed.

Lemma ks_Take key :
  exists e live k', Keyspace_Take t k key = ((e, live), k') /\
    (if live : bool then e else None) = m !! key /\ live = bool_decide (is_Some (m !! key)) /\
    ks_rep k' (t, delete key m).
Proof.
  unfold Keyspace_Take. rewrite <- ks_peek. unfold peek.
  destruct (entries k !! key) as [e|] eqn:E.
  - eexists _, _, _. split; [done|]. split_and!; [by destruct (expired e t)..|apply ks_removed].
  - eexists _, _, _. split; [done|]. split_and!; [done..|]. rewrite delete_id; [done|].
    rewrite <- ks_live, lookup_live. by rewrite E.
Qed.

Lemma ks_mutate key v :
  ks_rep (Keyspace_mutate k key v)
    (t, partial_alter (fmap (λ e, mkEntry v (e_ExpireAt e))) key m).
Proof.
  split; cbn [fst snd]; [|apply index_ok_mutate, Hrep].
  cbn [Keyspace_mutate entries]. rewrite <- ks_live. apply map_eq. intros j.
  rewrite lookup_live. destruct (decide (j = key)) as [->|].
  - rewrite lookup_alter_eq, lookup_partial_alter_eq, lookup_live.
    destruct (entries k !! key) as [e|]; [|done]. simpl.
    rewrite (expired_deadline v (e_Value e)). destruct e. by destruct (expired _ t).
  - rewrite lookup_alter_ne, lookup_partial_alter_ne by done. by rewrite lookup_live.
Qed.

Lemma ks_Flush : ks_rep (Keyspace_Flush k) (t, ∅).
Proof. split; cbn [fst snd Keyspace_Flush entries]; [apply live_empty|]. split; [done|set_solver]. Qed.
End KeyspaceOps.

(** A call that names a key stores under no other. *)
Lemma ks_step_dom op k o k' key :
  op_key op = Some key -> ks_step op k = Ret (o, k') ->
  dom (entries k') ⊆ {[key]} ∪ dom (entries k).
Proof.
  unfold ks_step. intros Hop E.
  destruct op; simplify_eq/=; unfold Keyspace_Set, Keyspace_SetEntry, Keyspace_SetExpire,
    Keyspace_Persist, Keyspace_Delete, Keyspace_Take, Keyspace_mutate in *;
    repeat case_match; simplify_eq/=; rewrite ?dom_insert, ?dom_delete, ?dom_alter; set_solver.
Qed.

(** Every stored value, live or not, is a [Q]. *)
Definition ks_values (Q : Value -> Prop) (k : Keyspace) : Prop :=
  map_Forall (λ _ e, Q (e_Value e)) (entries k).

(** The value a call stores. *)
Definition op_value (op : store_op) : option Value :=
  match op with
  | SSet _ v | SMutate _ v => Some v
  | SSetEntry _ e => Some (e_Value e)
  | _ => None
  end.

(** A call leaves no value but those there were and the one it stores. *)
Lemma ks_step_values (Q : Value -> Prop) op k o k' :
  (forall v, op_value op = Some v -> Q v) -> ks_step op k = Ret (o, k') -> ks_values Q k -> ks_values Q k'.
Proof.
  intros Hop E HQ. unfold ks_values, ks_step in *.
  assert (forall key e, Q (e_Value e) -> map_Forall (λ _ e, Q (e_Value e)) (<[key := e]> (entries k))) as Hins
    by (intros; by apply map_Forall_insert_2).
  assert (forall key, map_Forall (λ _ e, Q (e_Value e)) (delete key (entries k))) as Hdel
    by (intros; by apply map_Forall_delete).
  assert (forall now key e, peek now k key = Some e -> Q (e_Value e)) as Hpeek.
  { intros now key e. unfold peek. destruct (entries k !! key) as [e'|] eqn:Ek; [|done].
    destruct (expired e' now); [done|]. intros [= <-]. exact (HQ key e' Ek). }
  destruct op; cbn [op_value] in *;
    unfold Keyspace_Set, Keyspace_SetEntry, Keyspace_SetExpire, Keyspace_Persist, Keyspace_Delete, Keyspace_Take in E;
    repeat case_match; simplify_eq/=; auto.
  - apply Hins. cbn. by eapply Hpeek.
  - apply Hins. cbn. by eapply Hpeek.
  - intros j e Hj. destruct (decide (j = key)) as [->|Hne].
    + rewrite lookup_alter_eq in Hj. destruct (entries k !! key); [|done]. injection Hj as <-. by apply Hop.
    + rewrite lookup_alter_ne in Hj by done. exact (HQ j e Hj).
  - apply map_Forall_empty.
  - intros j e Hj. apply (HQ j e).
    pose proof (sample_loop_subseteq now limit (shuffle (seeds 0%nat) (elements (withTTL k))) k 0 0) as Hsub.
    unfold SampleExpired in *. match goal with H : sample_loop _ _ _ _ _ _ = _ |- _ => rewrite H in Hsub end.
    by eapply lookup_weaken.
Qed.

(** What a store promises its clients, whatever its internals. *)
Class ExpiringStore {S : Type} (n : S -> Z) (step : store_op -> S -> outcome (store_obs * S))
    (R : S -> Time * gmap bytes Entry -> Prop) : Prop := {
  store_advance c t m t' : R c (t, m) -> t <= t' -> R c (t', live t' m);
  store_call op c t m :
    R c (t, m) -> t = default t (op_now op) ->
    exists o c', step op c = Ret (o, c') /\ store_answer (n c) op (found op m) o /\
      R c' (t, store_after op t m) /\ n c' = n c }.

#[global] Instance keyspace_store : ExpiringStore (λ _, 1) ks_step ks_rep.
Proof.
  split; [apply ks_rep_time|].
  intros op k t m Hrep Ht. unfold ks_step.
  destruct op as [now key|now key|now key|now key|now key|key v|key e|now key at_|now key|now key
    |now key|key v| |seeds now limit]; cbn [op_now default from_option id] in Ht;
    try subst now; cbn [store_answer found op_key mbind option_bind];
    unfold store_after; cbn [op_key op_update].
  - rewrite (ks_Lookup t k m) by done. eexists _, _. split_and!; [done..|by apply ks_same|done].
  - rewrite (ks_Get t k m) by done. eexists _, _. split_and!; [done..|by apply ks_same|done].
  - rewrite (ks_GetBytes t k m) by done. eexists _, _. split_and!; [done..|by apply ks_same|done].
  - rewrite (ks_Exists t k m) by done. eexists _, _. split_and!; [done..|by apply ks_same|done].
  - rewrite (ks_ExistsBytes t k m) by done. eexists _, _. split_and!; [done..|by apply ks_same|done].
  - eexists _, _. split_and!; [done..|by apply ks_Set|done].
  - eexists _, _. split_and!; [done..|by apply ks_SetEntry|done].
  - destruct (ks_SetExpire t k m Hrep key at_) as (k' & -> & ?). by eexists _, _.
  - destruct (ks_Persist t k m Hrep key) as (k' & -> & ?). by eexists _, _.
  - destruct (ks_Delete t k m Hrep key) as (k' & -> & ?). by eexists _, _.
  - destruct (ks_Take t k m Hrep key) as (e & l & k' & -> & -> & _ & ?). by eexists _, _.
  - eexists _, _. split_and!; [done..|by apply ks_mutate|done].
  - eexists _, _. split_and!; [done..|by apply ks_Flush|done].
  - destruct (SampleExpired_spec (seeds 0%nat) k t limit) as
      (k' & ex & ev & -> & Hi & Hl & ? & ? & ?); [apply Hrep|].
    eexists _, _. split; [done|]. split_and!; [| |done].
    + exists ex, ev. split_and!; [done|lia..].
    + split; [|done]. cbn [fst snd]. rewrite Hl by done. apply Hrep.
Qed.

(** A store that keeps the promise refines the contract, call by call. *)
Section StoreSimulates.
Context {S : Type} (n : S -> Z) (step : store_op -> S -> outcome (store_obs * S)).
Context (R : S -> Time * gmap bytes Entry -> Prop).
Context `{!ExpiringStore n step R}.

#[export] Instance store_simulates N :
  Simulates step (store_spec N) store_op_ok (λ c s, R c s /\ n c = N).
Proof.
  intros op c [t m] [HR HN] Hok. unfold store_op_ok, store_spec in *. cbn [fst snd] in *.
  pose proof (store_advance c t m _ HR Hok) as HR'.
  destruct (store_call op c _ _ HR') as (o & c' & E & Ha & HR2 & Hn).
  { destruct op; done. }
  rewrite HN in Ha, Hn. by eexists o, c', _.
Qed.
End StoreSimulates.

Lemma Keyspace_New_rep t : ks_rep Keyspace_New (t, ∅).
Proof. split; [apply live_empty|]. split; [done|set_solver]. Qed.

(** C12. A key space is a map whose entries vanish at their deadlines: every
    finite sequence of calls, with clock readings that do not go back, is
    answered as that map answers it, whichever expired entries the writes and
    the active-expiry samples have reclaimed so far and in whatever order the
    samples visit keys; and the deadline index always covers every entry with a
    deadline and holds only stored keys. *)
Theorem Keyspace_refines_expiring_map t ops :
  ok_run (store_spec 1) store_op_ok ops (t, ∅) ->
  exists obs k s,
    run ks_step ops Keyspace_New = Ret (obs, k) /\
    spec_run (store_spec 1) ops (t, ∅) obs s /\
    live s.1 (entries k) = s.2 /\ index_ok k.
Proof.
  intros Hok.
  destruct (run_simulates ks_step (store_spec 1) store_op_ok
    (λ c s, ks_rep c s /\ 1 = 1) ops Keyspace_New (t, ∅))
    as (obs & k & s & E & Hs & [Hrep Hi] & _); [by split; [apply Keyspace_New_rep|]|done|].
  by exists obs, k, s.
Qed.

Definition ks_witness_ops : list store_op :=
  [SSet (lit "a") (VString (lit "1")); SSetExpire 10 (lit "a") 20;
   SGet 15 (lit "a"); SGet 20 (lit "a"); SExpireCycle (λ _, []) 21 5; SDelete 21 (lit "a")].

Lemma Keyspace_refines_expiring_map_witness :
  exists obs k s,
    run ks_step ks_witness_ops Keyspace_New = Ret (obs, k) /\
    spec_run (store_spec 1) ks_witness_ops (0, ∅) obs s /\
    live s.1 (entries k) = s.2 /\ index_ok k.
Proof.
  apply (Keyspace_refines_expiring_map 0 ks_witness_ops).
  unfold ks_witness_ops. cbn [ok_run].
  repeat (split; [unfold store_op_ok; simpl; lia|
    intros ? [? ?] [_ [= -> _]]; cbn [fst snd op_now default from_option id] in *]). done.
Defined.

(** C33. Active expiry reclaims every expired entry of a key space when its
    budget covers the keys with a deadline, and never an entry that is still
    live: what is left afterwards is exactly the live map. *)
Theorem SampleExpired_reclaims_all seed k now limit :
  index_ok k -> Z.of_nat (size (withTTL k)) <= limit ->
  exists k' ex ev, SampleExpired seed k now limit = (k', ex, ev) /\
    entries k' = live now (entries k) /\ index_ok k'.
Proof.
  intros Hok Hlim. pose proof (SampleExpired_spec seed k now limit Hok)
    as (k' & ex & ev & E & Hok' & Hl & _).
  exists k', ex, ev. split_and!; [done| |done]. rewrite <- (Hl now) by lia.
  symmetry. apply map_filter_id. intros key e He. cbn [snd].
  unfold SampleExpired in E.
  destruct (sample_loop_complete now limit (shuffle seed (elements (withTTL k))) k 0 0)
    as (k1 & ex1 & ev1 & E1 & Hsub & Hall).
  { unfold len. rewrite shuffle_perm. unfold size, set_size in Hlim. simpl in Hlim. lia. }
  rewrite E in E1. injection E1 as <- <- <-.
  destruct (HasExpiry e) eqn:Hx; [|unfold expired; by rewrite Hx].
  apply (Hall key); [|done]. rewrite shuffle_perm. apply elem_of_elements.
  apply (proj1 Hok key e); [|done]. by eapply lookup_weaken.
Qed.

Definition ks_example : Keyspace :=
  mkKeyspace {[lit "a" := mkEntry (VString []) 5]} {[lit "a"]}.

Lemma SampleExpired_reclaims_all_witness :
  exists k' ex ev, SampleExpired [] ks_example 7 1 = (k', ex, ev) /\
    entries k' = live 7 (entries ks_example) /\ index_ok k'.
Proof.
  apply (SampleExpired_reclaims_all [] ks_example 7 1).
  - split; unfold ks_example; cbn [entries withTTL].
    + intros key e [<- _]%lookup_singleton_Some _. set_solver.
    + rewrite dom_singleton_L. done.
  - vm_compute. discriminate.
Defined.
