(* ===== verification/Shard.v ===== *)
(** * internal/shard: a logical database split across shards

    [DB] routes each key by hash to one of a fixed number of key spaces. The
    hash is the runtime's seeded [maphash], a parameter of the model (the same
    function of the bytes for a [string] and a [[]byte]). A database of any
    number of shards is proved to keep the same promise as a single key space:
    the split is invisible. Also here: the shard sets the lock helpers take,
    sorted and without repeats. The locks themselves are modelled in
    Locking. *)

From S2P Require Import Prelude Pack ValueList GoTime Value Keyspace.

Record DB := mkDB {
  shards : list Keyspace;
  db_reap : bool (** whether a reaper is installed *) }.

Definition Shard_New (n : Z) : DB :=
  let n := if n <? 1 then 1 else n in
  mkDB (replicate (Z.to_nat n) Keyspace_New) false.

Definition DB_Shards (db : DB) : Z := len (shards db).

Definition SetReaper (db : DB) : DB := mkDB (shards db) true.

(** ** Routing *)
Section Routing.
Context (maphash : bytes -> Z).

Definition indexString (db : DB) (key : bytes) : Z :=
  wrapu64 (maphash key) mod len (shards db).

Definition indexBytes (db : DB) (key : bytes) : Z :=
  wrapu64 (maphash key) mod len (shards db).

Definition ShardOf (db : DB) (key : bytes) : Z := indexBytes db key.

Definition keyspaceFor (db : DB) (key : bytes) : outcome Keyspace :=
  index (shards db) (indexString db key).

(** A method call on one shard, through its pointer. *)
Definition set_shard (db : DB) (i : Z) (ks : Keyspace) : DB :=
  mkDB (<[Z.to_nat i := ks]> (shards db)) (db_reap db).

Definition DB_Get (now : Time) (db : DB) (key : bytes) : outcome (option Value) :=
  ks ← keyspaceFor db key; Ret (Keyspace_Get now ks key).

Definition DB_GetBytes (now : Time) (db : DB) (key : bytes) : outcome (option Value) :=
  ks ← index (shards db) (indexBytes db key); Ret (Keyspace_GetBytes now ks key).

Definition DB_ExistsBytes (now : Time) (db : DB) (key : bytes) : outcome bool :=
  ks ← index (shards db) (indexBytes db key); Ret (Keyspace_ExistsBytes now ks key).

Definition DB_Lookup (now : Time) (db : DB) (key : bytes) : outcome (option Entry) :=
  ks ← keyspaceFor db key; Ret (Keyspace_Lookup now ks key).

Definition DB_Exists (now : Time) (db : DB) (key : bytes) : outcome bool :=
  ks ← keyspaceFor db key; Ret (Keyspace_Exists now ks key).

Definition DB_Set (db : DB) (key : bytes) (v : Value) : outcome DB :=
  ks ← keyspaceFor db key;
  Ret (set_shard db (indexString db key) (Keyspace_Set ks key v)).

Definition DB_SetEntry (db : DB) (key : bytes) (e : Entry) : outcome DB :=
  ks ← keyspaceFor db key;
  Ret (set_shard db (indexString db key) (Keyspace_SetEntry ks key e)).

Definition DB_SetExpire (now : Time) (db : DB) (key : bytes) (at_ : Time) : outcome (bool * DB) :=
  ks ← keyspaceFor db key;
  let '(b, ks) := Keyspace_SetExpire now ks key at_ in
  Ret (b, set_shard db (indexString db key) ks).

Definition DB_Persist (now : Time) (db : DB) (key : bytes) : outcome (bool * DB) :=
  ks ← keyspaceFor db key;
  let '(b, ks) := Keyspace_Persist now ks key in
  Ret (b, set_shard db (indexString db key) ks).

Definition DB_Delete (now : Time) (db : DB) (key : bytes) : outcome (bool * DB) :=
  ks ← keyspaceFor db key;
  let '(b, ks) := Keyspace_Delete now ks key in
  Ret (b, set_shard db (indexString db key) ks).

Definition DB_Restore (db : DB) (key : bytes) (e : Entry) : outcome DB :=
  ks ← keyspaceFor db key;
  Ret (set_shard db (indexString db key) (Keyspace_SetEntry ks key e)).

(** A collection of the entry at [key] mutated in place. *)
Definition DB_mutate (db : DB) (key : bytes) (v : Value) : outcome DB :=
  ks ← keyspaceFor db key;
  Ret (set_shard db (indexString db key) (Keyspace_mutate ks key v)).

(** [db.keyspaceFor(key).Take(key)], and [Unlink] with the value it hands to
    the reaper. *)
Definition DB_Take (now : Time) (db : DB) (key : bytes) :
    outcome ((option Entry * bool) * DB) :=
  ks ← keyspaceFor db key;
  let '(r, ks) := Keyspace_Take now ks key in
  Ret (r, set_shard db (indexString db key) ks).

Definition Unlink (now : Time) (db : DB) (key : bytes) : outcome (bool * option Value * DB) :=
  '((e, live), db) ← DB_Take now db key;
  let reaped :=
    match e with
    | Some e => if live && db_reap db && IsCollection (e_Value e) then Some (e_Value e) else None
    | None => None
    end in
  Ret (live, reaped, db).

Definition DB_Flush (db : DB) : DB :=
  mkDB (map Keyspace_Flush (shards db)) (db_reap db).

Definition DB_Len (db : DB) : Z := foldl (λ n ks, n + Keyspace_Len ks) 0 (shards db).

(** [EachEntry]: the entries in the order the callback sees them; each shard's
    map is iterated in its own order. *)
Fixpoint each_shard_entry (seeds : nat -> list nat) (i : nat) (kss : list Keyspace) :
    list (bytes * Entry) :=
  match kss with
  | [] => []
  | ks :: kss => Keyspace_Range (seeds i) ks ++ each_shard_entry seeds (S i) kss
  end.

Definition EachEntry (seeds : nat -> list nat) (db : DB) : list (bytes * Entry) :=
  each_shard_entry seeds 0 (shards db).

(** [ExpireCycle]: one shard after the other, the totals added up. *)
Fixpoint expire_shards (seeds : nat -> list nat) (i : nat) (now : Time) (limit : Z)
    (kss : list Keyspace) : list Keyspace * Z * Z :=
  match kss with
  | [] => ([], 0, 0)
  | ks :: kss =>
      let '(ks, ex, ev) := SampleExpired (seeds i) ks now limit in
      let '(kss, exs, evs) := expire_shards seeds (S i) now limit kss in
      (ks :: kss, ex + exs, ev + evs)
  end.

Definition ExpireCycle (seeds : nat -> list nat) (db : DB) (now : Time) (limitPerShard : Z) :
    DB * Z * Z :=
  let '(kss, ex, ev) := expire_shards seeds 0 now limitPerShard (shards db) in
  (mkDB kss (db_reap db), ex, ev).

(** ** The shards to lock *)

(** [shardSet]: the distinct indices, ascending. *)
Fixpoint dedup_indices (idxs : list Z) (seen : gset Z) (idx : list Z) : list Z :=
  match idxs with
  | [] => idx
  | i :: idxs =>
      if bool_decide (i ∈ seen) then dedup_indices idxs seen idx
      else dedup_indices idxs ({[i]} ∪ seen) (idx ++ [i])
  end.

Definition shardSet (db : DB) (keys : list bytes) : list Z :=
  match keys with
  | [] => []
  | [k] => [indexBytes db k]
  | _ => merge_sort Z.le (dedup_indices (map (indexBytes db) keys) ∅ [])
  end.

(** ** The calls, as the contract names them *)
Definition db_step (op : store_op) (db : DB) : outcome (store_obs * DB) :=
  match op with
  | SLookup now key => e ← DB_Lookup now db key; Ret (OEntry e, db)
  | SGet now key => v ← DB_Get now db key; Ret (OValue v, db)
  | SGetBytes now key => v ← DB_GetBytes now db key; Ret (OValue v, db)
  | SExists now key => b ← DB_Exists now db key; Ret (OBool b, db)
  | SExistsBytes now key => b ← DB_ExistsBytes now db key; Ret (OBool b, db)
  | SSet key v => db ← DB_Set db key v; Ret (OUnit, db)
  | SSetEntry key e => db ← DB_SetEntry db key e; Ret (OUnit, db)
  | SSetExpire now key at_ => '(b, db) ← DB_SetExpire now db key at_; Ret (OBool b, db)
  | SPersist now key => '(b, db) ← DB_Persist now db key; Ret (OBool b, db)
  | SDelete now key => '(b, db) ← DB_Delete now db key; Ret (OBool b, db)
  | STake now key =>
      '((e, live), db) ← DB_Take now db key; Ret (OEntry (if live : bool then e else None), db)
  | SMutate key v => db ← DB_mutate db key v; Ret (OUnit, db)
  | SFlush => Ret (OUnit, DB_Flush db)
  | SExpireCycle seeds now limit =>
      let '(db, ex, ev) := ExpireCycle seeds db now limit in Ret (OCounts ex ev, db)
  end.

(** ** Representation *)

(** The entries routed to shard [i]. *)
Definition part (db : DB) (i : nat) (m : gmap bytes Entry) : gmap bytes Entry :=
  filter (λ p, indexString db p.1 = Z.of_nat i) m.

(** Every stored entry, live or not, is in its key's shard. *)
Definition routed (db : DB) : Prop :=
  forall i ks key, shards db !! i = Some ks -> key ∈ dom (entries ks) ->
    indexString db key = Z.of_nat i.

Definition db_rep (db : DB) (s : Time * gmap bytes Entry) : Prop :=
  shards db <> [] /\ routed db /\
  forall i ks, shards db !! i = Some ks -> ks_rep ks (s.1, part db i s.2).

(** ** Lemmas: routing *)

Lemma index_same_length db db' key :
  length (shards db) = length (shards db') -> indexString db key = indexString db' key.
Proof. unfold indexString, len. by intros ->. Qed.

Lemma part_same_length db db' i m :
  length (shards db) = length (shards db') -> part db i m = part db' i m.
Proof.
  intros E. unfold part. apply map_filter_ext. intros key e _. simpl.
  by rewrite (index_same_length db db').
Qed.

Lemma lookup_part db i m key :
  part db i m !! key = if bool_decide (indexString db key = Z.of_nat i) then m !! key else None.
Proof.
  unfold part. rewrite map_lookup_filter. destruct (m !! key) as [e|]; simpl.
  - case_bool_decide; [by rewrite option_guard_True|by rewrite option_guard_False].
  - by case_bool_decide.
Qed.

(** Every key has a shard. *)
Lemma key_shard db key :
  shards db <> [] ->
  exists i ks, indexString db key = Z.of_nat i /\ shards db !! i = Some ks.
Proof.
  intros Hne. assert (0 < len (shards db)) as Hpos
    by (unfold len; destruct (shards db); [done|simpl; lia]).
  pose proof (Z.mod_pos_bound (wrapu64 (maphash key)) (len (shards db)) Hpos) as Hb.
  change (0 <= indexString db key < len (shards db)) in Hb. unfold len in Hb.
  destruct (lookup_lt_is_Some_2 (shards db) (Z.to_nat (indexString db key))) as [ks Hks]; [lia|].
  exists (Z.to_nat (indexString db key)), ks. split; [lia|done].
Qed.

Lemma part_update db i m key f :
  indexString db key = Z.of_nat i ->
  part db i (partial_alter f key m) = partial_alter f key (part db i m).
Proof.
  intros E. apply map_eq. intros j. rewrite lookup_part. destruct (decide (j = key)) as [->|].
  - rewrite !lookup_partial_alter_eq, lookup_part. by rewrite bool_decide_true.
  - rewrite !lookup_partial_alter_ne by done. by rewrite lookup_part.
Qed.

Lemma part_update_ne db i m key f :
  indexString db key <> Z.of_nat i -> part db i (partial_alter f key m) = part db i m.
Proof.
  intros E. apply map_eq. intros j. rewrite !lookup_part. case_bool_decide; [|done].
  rewrite lookup_partial_alter_ne; [done|]. intros ->. done.
Qed.

Lemma set_shard_same db i ks :
  shards db !! i = Some ks -> set_shard db (Z.of_nat i) ks = db.
Proof. intros E. unfold set_shard. rewrite Nat2Z.id, list_insert_id by done. by destruct db. Qed.

(** A call that names a key is the same call on that key's shard. *)
Lemma db_step_keyed op db key i ks :
  op_key op = Some key -> indexString db key = Z.of_nat i -> shards db !! i = Some ks ->
  db_step op db = ('(o, ks) ← ks_step op ks; Ret (o, set_shard db (Z.of_nat i) ks)).
Proof.
  intros Hop Hi Hks.
  assert (index (shards db) (Z.of_nat i) = Ret ks) as Hx by by apply index_lookup.
  assert (indexBytes db key = Z.of_nat i) as Hi' by done.
  destruct op; simplify_eq/=; unfold DB_Lookup, DB_Get, DB_GetBytes, DB_Exists, DB_ExistsBytes,
    DB_Set, DB_SetEntry, DB_SetExpire, DB_Persist, DB_Delete, DB_Take, DB_mutate, keyspaceFor;
    rewrite ?Hi', ?Hi, Hx; orun; rewrite ?(set_shard_same db i ks) by done; try done.
  - destruct (Keyspace_SetExpire _ _ _ _); by rewrite ?Hi.
  - destruct (Keyspace_Persist _ _ _); by rewrite ?Hi.
  - destruct (Keyspace_Delete _ _ _); by rewrite ?Hi.
  - destruct (Keyspace_Take _ _ _) as [[? ?] ?]; by rewrite ?Hi.
Qed.

Lemma store_call_keyed op db t m key :
  db_rep db (t, m) -> t = default t (op_now op) -> op_key op = Some key ->
  exists o db', db_step op db = Ret (o, db') /\
    store_answer (len (shards db)) op (found op m) o /\
    db_rep db' (t, store_after op t m) /\ len (shards db') = len (shards db).
Proof.
  intros (Hne & Hro & Hrep) Ht Hop. destruct (key_shard db key Hne) as (i & ks & Hi & Hks).
  destruct (store_call op ks t (part db i m) (Hrep i ks Hks) Ht) as (o & ks' & E & Ha & HR & _).
  rewrite (db_step_keyed op db key i ks) by done. rewrite E. orun.
  assert (length (shards (set_shard db (Z.of_nat i) ks')) = length (shards db)) as Hl
    by apply length_insert.
  eexists _, _. split; [done|]. split_and!.
  - unfold found in *. rewrite Hop in *. simpl in *. rewrite lookup_part, bool_decide_true in Ha by done.
    by destruct op.
  - split; [intros E'; rewrite E' in Hl; by destruct (shards db)|]. split.
    { intros j ksj key' Hj Hin. rewrite (index_same_length _ db) by done.
      cbn [set_shard shards] in Hj. rewrite Nat2Z.id in Hj.
      destruct (decide (j = i)) as [->|Hji].
      - rewrite list_lookup_insert_eq in Hj by (by eapply lookup_lt_Some). injection Hj as <-.
        pose proof (ks_step_dom op ks o ks' key Hop E key' Hin) as [->%elem_of_singleton|?]%elem_of_union;
          [done|by eapply Hro].
      - rewrite list_lookup_insert_ne in Hj by done. by eapply Hro. }
    intros j ksj Hj. cbn [fst snd]. rewrite (part_same_length _ db) by done.
    cbn [set_shard shards] in Hj. rewrite Nat2Z.id in Hj. unfold store_after in *. rewrite Hop in *.
    destruct (decide (j = i)) as [->|Hji].
    + rewrite list_lookup_insert_eq in Hj by (by eapply lookup_lt_Some). injection Hj as <-.
      by rewrite part_update.
    + rewrite list_lookup_insert_ne in Hj by done.
      rewrite part_update_ne by (rewrite Hi; lia). by apply Hrep.
  - unfold len. by rewrite Hl.
Qed.
(** A shard after an expiry sample at [now]. *)
Definition sampled (now : Time) (ks ks' : Keyspace) : Prop :=
  index_ok ks' /\ entries ks' ⊆ entries ks /\ forall t, now <= t -> live t (entries ks') = live t (entries ks).

Lemma expire_shards_spec seeds i now limit kss :
  Forall index_ok kss ->
  exists kss' ex ev, expire_shards seeds i now limit kss = (kss', ex, ev) /\
    Forall2 (sampled now) kss kss' /\ 0 <= ev <= ex /\ ex <= len kss * Z.max 0 limit.
Proof.
  revert i. induction kss as [|ks kss IH]; intros i Hok.
  { exists [], 0, 0. change (@len Keyspace []) with 0. split_and!; [done|constructor|lia..]. }
  apply Forall_cons in Hok as [Hks Hok].
  destruct (SampleExpired_spec (seeds i) ks now limit Hks) as (ks' & ex & ev & E & ? & ? & ? & ? & _).
  destruct (IH (S i) Hok) as (kss' & exs & evs & E' & ? & ? & ?).
  assert (entries ks' ⊆ entries ks) as Hsub.
  { pose proof (sample_loop_subseteq now limit (shuffle (seeds i) (elements (withTTL ks))) ks 0 0) as H'.
    unfold SampleExpired in E. by rewrite E in H'. }
  exists (ks' :: kss'), (ex + exs), (ev + evs). rewrite len_cons. cbn [expire_shards].
  rewrite E, E'. split_and!; [done|by constructor|lia..].
Qed.

Lemma db_rep_index db t m : db_rep db (t, m) -> Forall index_ok (shards db).
Proof. intros (_ & _ & H). apply Forall_lookup. intros i ks Hks. by apply (H i). Qed.

(** A database keeps the promise of a key space. *)
#[global] Instance db_store : ExpiringStore (λ db, len (shards db)) db_step db_rep.
Proof.
  split.
  { intros db t m t' (Hne & Hro & H) Ht. split_and!; [done..|]. intros i ks Hks. cbn [fst snd].
    assert (part db i (live t' m) = live t' (part db i m)) as ->.
    { apply map_eq. intros key. rewrite lookup_part, !lookup_live, lookup_part.
      by case_bool_decide. }
    apply (ks_rep_time ks t); [by apply H|done]. }
  intros op db t m Hrep Ht. destruct (op_key op) as [key|] eqn:Hop.
  { by apply (store_call_keyed op db t m key). }
  destruct op; try done; unfold store_after, found; cbn [op_key store_answer db_step].
  - eexists _, _. split_and!; [done|done| |unfold len; simpl; by rewrite length_map].
    assert (forall i ks, shards (DB_Flush db) !! i = Some ks -> ks = mkKeyspace ∅ ∅) as Hall.
    { intros i ks Hks. cbn [DB_Flush shards] in Hks.
      rewrite list_lookup_fmap in Hks. by destruct (shards db !! i); simplify_eq/=. }
    split; [intros E%map_eq_nil; by destruct Hrep|].
    split; [intros i ks key ->%Hall; set_solver|].
    cbn [fst snd]. intros i ks ->%Hall. assert (part (DB_Flush db) i ∅ = ∅) as -> by apply map_filter_empty.
    apply Keyspace_New_rep.
  - unfold ExpireCycle. cbn [op_now default from_option id] in Ht. subst now.
    destruct (expire_shards_spec seeds 0 t limit (shards db)) as (kss' & ex & ev & -> & HF & ? & ?).
    { by eapply db_rep_index. }
    pose proof (Forall2_length _ _ _ HF) as Hl.
    eexists _, _. split_and!; [done|by exists ex, ev| |unfold len; simpl; congruence].
    destruct Hrep as (Hne & Hro & Hrep). split_and!; cbn [fst snd shards].
    + intros ->. by destruct (shards db).
    + intros i ks' key Hks' Hin.
      destruct (Forall2_lookup_r _ _ _ _ _ HF Hks') as (ks & Hks & _ & Hsub & _).
      rewrite (index_same_length _ db) by (simpl; congruence).
      apply (Hro i ks); [done|]. by eapply subseteq_dom.
    + intros i ks' Hks'. destruct (Forall2_lookup_r _ _ _ _ _ HF Hks') as (ks & Hks & Hi & _ & Hlv).
      rewrite (part_same_length _ db) by (simpl; congruence).
      split; [|done]. cbn [fst snd]. rewrite Hlv by lia. by apply (Hrep i ks Hks).
Qed.

Lemma Shard_New_rep n t : db_rep (Shard_New n) (t, ∅).
Proof.
  unfold Shard_New. split_and!; cbn [fst snd shards].
  - assert (1 <= (if n <? 1 then 1 else n)) by zcases.
    destruct (Z.to_nat _) eqn:E; [lia|done].
  - intros i ks key [-> _]%lookup_replicate_1. set_solver.
  - intros i ks [-> _]%lookup_replicate_1. unfold part. rewrite map_filter_empty.
    apply Keyspace_New_rep.
Qed.

(** ** Lemmas: the shards to lock *)

Lemma dedup_indices_spec idxs seen idx :
  (forall i, i ∈ seen <-> i ∈ idx) -> NoDup idx ->
  NoDup (dedup_indices idxs seen idx) /\
  forall i, i ∈ dedup_indices idxs seen idx <-> i ∈ idx \/ i ∈ idxs.
Proof.
  revert seen idx. induction idxs as [|j idxs IH]; intros seen idx Hs Hnd; cbn [dedup_indices].
  { split; [done|]. set_solver. }
  case_bool_decide as Hj.
  - destruct (IH seen idx Hs Hnd) as [? Hi]. split; [done|]. intros i. rewrite Hi.
    rewrite elem_of_cons. split; [tauto|]. intros [?|[->|?]]; [auto|left; by apply Hs|auto].
  - destruct (IH ({[j]} ∪ seen) (idx ++ [j])) as [? Hi].
    + intros i. rewrite elem_of_app, list_elem_of_singleton, <- Hs. set_solver.
    + apply NoDup_app. split_and!; [done| |apply NoDup_singleton].
      intros i Hi ->%list_elem_of_singleton. by apply Hj, Hs.
    + split; [done|]. intros i. rewrite Hi, elem_of_app, list_elem_of_singleton, elem_of_cons. tauto.
Qed.

Lemma StronglySorted_strict (l : list Z) :
  StronglySorted Z.le l -> NoDup l -> StronglySorted Z.lt l.
Proof.
  induction 1 as [|x l _ IH Hx]; intros Hnd; constructor;
    apply NoDup_cons in Hnd as [Hn Hnd]; [auto|].
  rewrite Forall_forall in *. intros y Hy. specialize (Hx y Hy).
  assert (y <> x) by (intros ->; done). lia.
Qed.

Lemma shardSet_dedup db keys :
  shardSet db keys ≡ₚ dedup_indices (map (indexBytes db) keys) ∅ [].
Proof.
  destruct keys as [|k [|k' keys]]; [done|done|]. apply merge_sort_Permutation.
Qed.

Lemma shardSet_sorted_le db keys : Sorted Z.le (shardSet db keys).
Proof.
  destruct keys as [|k [|k' keys]]; [constructor|by repeat constructor|].
  apply Sorted_merge_sort, _.
Qed.

Lemma elem_of_shardSet db keys i : i ∈ shardSet db keys <-> exists k, k ∈ keys /\ i = ShardOf db k.
Proof.
  destruct (dedup_indices_spec (map (indexBytes db) keys) ∅ []) as [_ Hin];
    [set_solver|constructor|].
  rewrite shardSet_dedup, Hin, elem_of_nil, list_elem_of_fmap.
  unfold ShardOf. split; [intros [[]|(k & ? & ?)]; eauto|intros (k & ? & ->); eauto].
Qed.

Lemma shardSet_sorted db keys : StronglySorted Z.lt (shardSet db keys).
Proof.
  destruct (dedup_indices_spec (map (indexBytes db) keys) ∅ []) as [Hnd _];
    [set_solver|constructor|].
  rewrite <- shardSet_dedup in Hnd. apply StronglySorted_strict; [|done].
  apply Sorted_StronglySorted; [apply _|apply shardSet_sorted_le].
Qed.

(** ** Lemmas: enumeration *)

Lemma elem_of_each_shard_entry seeds i kss key e :
  (key, e) ∈ each_shard_entry seeds i kss <->
  exists j ks, kss !! j = Some ks /\ entries ks !! key = Some e.
Proof.
  revert i. induction kss as [|ks kss IH]; intros i; cbn [each_shard_entry].
  { rewrite elem_of_nil. split; [done|]. intros (j & ks & H & _). by rewrite lookup_nil in H. }
  rewrite elem_of_app, IH. unfold Keyspace_Range. rewrite shuffle_perm, elem_of_map_to_list.
  split.
  - intros [H|(j & ks' & H1 & H2)]; [by exists 0%nat, ks|by exists (S j), ks'].
  - intros ([|j] & ks' & H1 & H2); simpl in H1; [left; congruence|right; by exists j, ks'].
Qed.

Lemma NoDup_each_shard_entry seeds i kss :
  (forall j j' ks ks' key, kss !! j = Some ks -> kss !! j' = Some ks' ->
    key ∈ dom (entries ks) -> key ∈ dom (entries ks') -> j = j') ->
  NoDup (each_shard_entry seeds i kss).*1.
Proof.
  revert i. induction kss as [|ks kss IH]; intros i Hd; [constructor|]. cbn [each_shard_entry].
  rewrite fmap_app. apply NoDup_app. split_and!.
  - unfold Keyspace_Range. rewrite shuffle_perm. apply NoDup_fst_map_to_list.
  - unfold Keyspace_Range. intros key Hin. rewrite shuffle_perm in Hin.
    apply list_elem_of_fmap in Hin as ([? e] & -> & He%elem_of_map_to_list).
    intros ([? e'] & E & (j & ks' & Hj & He')%elem_of_each_shard_entry)%list_elem_of_fmap.
    simpl in *. subst. assert (0%nat = S j); [|done].
    eapply (Hd 0%nat (S j)); [done..|by eapply elem_of_dom_2|by eapply elem_of_dom_2].
  - apply IH. intros j j' ks1 ks2 key H1 H2 H3 H4.
    assert (S j = S j') by (by eapply (Hd (S j) (S j') ks1 ks2 key)). lia.
Qed.

Lemma DB_Take_spec now db m key :
  db_rep db (now, m) ->
  exists e live db', DB_Take now db key = Ret ((e, live), db') /\
    (if live : bool then e else None) = m !! key /\ live = bool_decide (is_Some (m !! key)) /\
    db_reap db' = db_reap db /\ db_rep db' (now, delete key m).
Proof.
  intros Hrep. pose proof Hrep as (Hne & _ & Hks).
  destruct (store_call_keyed (STake now key) db now m key Hrep eq_refl eq_refl)
    as (o & db' & E & Ha & HR & _).
  destruct (key_shard db key Hne) as (i & ks & Hi & Hx).
  destruct (ks_Take now ks _ (Hks i ks Hx) key) as (e & l & ks' & Et & Em & El & _).
  assert (part db i m !! key = m !! key) as Ep by by rewrite lookup_part, bool_decide_true.
  cbn [snd] in Em, El. rewrite Ep in Em, El.
  cbn [db_step] in E. unfold DB_Take, keyspaceFor in *.
  rewrite Hi, (index_lookup (shards db) i ks Hx) in *. cbn [mbind outcome_bind] in *.
  rewrite Et in *. simpl in E. injection E as _ <-. eexists _, _, _. split; [done|].
  split_and!; [done..|]. exact HR.
Qed.

(** ** Lemmas: the stored values *)

(** Every stored value, live or not, is a [Q]. *)
Definition all_values (Q : Value -> Prop) (db : DB) : Prop := Forall (ks_values Q) (shards db).

Lemma db_step_values (Q : Value -> Prop) op db o db' :
  shards db <> [] -> (forall v, op_value op = Some v -> Q v) -> db_step op db = Ret (o, db') ->
  all_values Q db -> all_values Q db'.
Proof.
  intros Hne Hop E HQ. unfold all_values in *. destruct (op_key op) as [key|] eqn:Hk.
  { destruct (key_shard db key Hne) as (i & ks & Hi & Hks). rewrite (db_step_keyed op db key i ks) in E by done.
    destruct (ks_step op ks) as [[o1 ks1]| |] eqn:E1; [|done..]. cbn in E. injection E as _ <-.
    cbn [set_shard shards]. apply Forall_insert; [done|]. eapply ks_step_values; [exact Hop|exact E1|].
    by eapply Forall_lookup_1. }
  destruct op; try done; cbn [db_step] in E.
  - injection E as _ <-. cbn [DB_Flush shards]. apply Forall_fmap, Forall_true. intros ks. apply map_Forall_empty.
  - unfold ExpireCycle in E. destruct (expire_shards seeds 0 now limit (shards db)) as [[kss ex] ev] eqn:Ee.
    injection E as _ <-. cbn [shards]. clear Hne Hop. revert Ee. generalize 0%nat as i. revert kss ex ev.
    induction HQ as [|ks kss HQ _ IH]; intros kss' ex ev i Ee; cbn [expire_shards] in Ee; [by injection Ee as <- _ _|].
    destruct (SampleExpired (seeds i) ks now limit) as [[ks1 ex1] ev1] eqn:E1.
    destruct (expire_shards seeds (S i) now limit kss) as [[kss1 exs] evs] eqn:E2. injection Ee as <- _ _.
    constructor; [|by eapply IH].
    eapply (ks_step_values Q (SExpireCycle (λ _, seeds i) now limit) ks); [done| |exact HQ].
    unfold ks_step. rewrite E1. reflexivity.
Qed.

(** ** Properties *)

(** C13. A database split into any number of shards behaves as one map whose
    entries vanish at their deadlines, whatever the hash: every finite sequence
    of data-method calls and expiry cycles, with clock readings that do not go
    back, is answered as that map answers it and never indexes a shard out of
    range; an expiry cycle examines at most its budget per shard. *)
Theorem DB_refines_expiring_map n t ops :
  ok_run (store_spec (Z.max 1 n)) store_op_ok ops (t, ∅) ->
  exists obs db s,
    run db_step ops (Shard_New n) = Ret (obs, db) /\
    spec_run (store_spec (Z.max 1 n)) ops (t, ∅) obs s /\ db_rep db s.
Proof.
  intros Hok.
  destruct (run_simulates db_step (store_spec (Z.max 1 n)) store_op_ok
    (λ db s, db_rep db s /\ len (shards db) = Z.max 1 n) ops (Shard_New n) (t, ∅))
    as (obs & db & s & E & Hs & Hrep & _); [|done|by exists obs, db, s].
  split; [apply Shard_New_rep|]. unfold Shard_New, len. simpl. rewrite length_replicate. zcases.
Qed.

(** The shards a multi-key command locks are the shards of its keys, each
    once, in strictly ascending order and within range, so that all commands
    acquire locks in one global order. *)
Lemma shardSet_ascending db keys :
  shards db <> [] ->
  StronglySorted Z.lt (shardSet db keys) /\
  (forall i, i ∈ shardSet db keys <-> exists k, k ∈ keys /\ i = ShardOf db k) /\
  Forall (λ i, 0 <= i < len (shards db)) (shardSet db keys).
Proof.
  intros Hne. split_and!; [apply shardSet_sorted|apply elem_of_shardSet|].
  apply Forall_forall. intros i (k & _ & ->)%elem_of_shardSet. apply Z.mod_pos_bound.
  unfold len. destruct (shards db); [done|simpl; lia].
Qed.

(** Walking a database visits exactly its stored entries, each key once, and
    every live entry of the contract's map is among them. *)
Lemma EachEntry_complete seeds db t m :
  db_rep db (t, m) ->
  NoDup (EachEntry seeds db).*1 /\
  forall key e, (key, e) ∈ EachEntry seeds db /\ expired e t = false <-> m !! key = Some e.
Proof.
  intros (Hne & Hro & Hrep). split.
  - apply NoDup_each_shard_entry. intros j j' ks ks' key Hj Hj' Hin Hin'.
    pose proof (Hro _ _ _ Hj Hin). pose proof (Hro _ _ _ Hj' Hin'). lia.
  - intros key e. unfold EachEntry. rewrite elem_of_each_shard_entry.
    assert (forall i ks, shards db !! i = Some ks ->
      live t (entries ks) !! key = if bool_decide (indexString db key = Z.of_nat i)
                                   then m !! key else None) as Hlk.
    { intros i ks Hks. rewrite <- lookup_part. f_equal. apply (Hrep i ks Hks). }
    split.
    + intros [(i & ks & Hks & He) Hx]. pose proof (Hlk i ks Hks) as H.
      rewrite bool_decide_true in H by (eapply Hro; [done|by eapply elem_of_dom_2]).
      by rewrite <- H, lookup_live, He; simpl; rewrite Hx.
    + intros Hm. destruct (key_shard db key Hne) as (i & ks & Hi & Hks).
      pose proof (Hlk i ks Hks) as H. rewrite bool_decide_true, Hm, lookup_live in H by done.
      destruct (entries ks !! key) as [e'|] eqn:E; [|done]. simpl in H.
      destruct (expired e' t) eqn:Ee; simplify_eq. split; [by exists i, ks|done].
Qed.

(** [Unlink] removes the key and reports whether it was live, and hands a
    value to the reaper exactly when the key was live, a reaper is installed and
    the value is a collection. *)
Lemma Unlink_spec now db m key :
  db_rep db (now, m) ->
  exists db', Unlink now db key
    = Ret (bool_decide (is_Some (m !! key)),
           m !! key ≫= λ e, if db_reap db && IsCollection (e_Value e) then Some (e_Value e) else None,
           db') /\
    db_rep db' (now, delete key m).
Proof.
  intros Hrep. destruct (DB_Take_spec now db m key Hrep) as (e & l & db' & E & Em & El & Hr & HR).
  unfold Unlink. rewrite E. orun. exists db'. split; [|done]. rewrite <- El, Hr. do 3 f_equal.
  destruct l; cbn [andb].
  - subst e. destruct (m !! key); done.
  - destruct (m !! key); [done|]. by destruct e.
Qed.

End Routing.

(** ** Witnesses *)

Definition len_hash : bytes -> Z := len.

Definition db_witness_ops : list store_op :=
  [SSet (lit "a") (VString (lit "1")); SSet (lit "bb") (VString (lit "2"));
   SSetExpire 10 (lit "a") 20; SGetBytes 15 (lit "a"); SExpireCycle (λ _, []) 21 5;
   SExists 21 (lit "a"); SDelete 22 (lit "bb")].

Lemma DB_refines_expiring_map_witness :
  exists obs db s,
    run (db_step len_hash) db_witness_ops (Shard_New 4) = Ret (obs, db) /\
    spec_run (store_spec (Z.max 1 4)) db_witness_ops (0, ∅) obs s /\ db_rep len_hash db s.
Proof.
  apply (DB_refines_expiring_map len_hash 4 0 db_witness_ops).
  unfold db_witness_ops. cbn [ok_run].
  repeat (split; [unfold store_op_ok; simpl; lia|
    intros ? [? ?] [_ [= -> _]]; cbn [fst snd op_now default from_option id] in *]). done.
Defined.

(** A database with one list and a reaper. *)
Definition db_example : DB :=
  mkDB [mkKeyspace {[lit "l" := mkEntry (VList (NewList (mkThresholds 1 1))) 0]} ∅] true.

Definition db_example_map : gmap bytes Entry :=
  {[lit "l" := mkEntry (VList (NewList (mkThresholds 1 1))) 0]}.

Lemma db_example_rep : db_rep len_hash db_example (5, db_example_map).
Proof.
  split_and!; [done| |].
  - intros [|i] ks key Hi; [|done]. injection Hi as <-. intros _.
    unfold indexString. change (len (shards db_example)) with 1. by rewrite Z.mod_1_r.
  - intros [|i] ks Hi; [|done]. injection Hi as <-. split; cbn [fst snd entries].
    + unfold live, part, db_example_map. rewrite map_filter_singleton_True by done.
      rewrite map_filter_singleton_True; [done|]. cbn [fst].
      unfold indexString. change (len (shards db_example)) with 1. by rewrite Z.mod_1_r.
    + unfold index_ok. cbn [entries withTTL]. split; [|set_solver].
      intros key e [_ <-]%lookup_singleton_Some He. done.
Qed.

