(* ===== verification/Expiry.v ===== *)
(** * internal/expiry: the active-expiry runner

    [cycle] samples every shard of every database within a budget per shard;
    [Run] drives it from a ticker until its context is canceled. A cycle is
    proved invisible to readers and bounded in work, and with a sufficient
    budget it reclaims everything that has expired. *)

From S2P Require Import Prelude Pack GoTime Value Keyspace Shard.

(** ** Definitions *)

(** [Config]: a nil sample function is [None]; the function is read each cycle,
    so its value is given with each tick. *)
Record ExpiryConfig := mkExpiryConfig {
  Interval : Duration;
  SamplePerShard : option (nat -> Z) }.

(** [cycle], with the budget [limit] and the time [now] it reads; [seeds] gives
    the iteration orders of database [i]. *)
Fixpoint cycle_dbs (seeds : nat -> nat -> list nat) (i : nat) (now : Time) (limit : Z)
    (dbs : list DB) : list DB * Z * Z :=
  match dbs with
  | [] => ([], 0, 0)
  | db :: dbs =>
      let '(db, ex, ev) := ExpireCycle (seeds i) db now limit in
      let '(dbs, exs, evs) := cycle_dbs seeds (S i) now limit dbs in
      (db :: dbs, ex + exs, ev + evs)
  end.

Definition Runner_cycle (seeds : nat -> nat -> list nat) (limit : Z) (now : Time)
    (dbs : list DB) : list DB * Z * Z :=
  if limit <=? 0 then (dbs, 0, 0) else cycle_dbs seeds 0 now limit dbs.

(** What the [select] of [Run] receives. *)
Inductive run_event :=
  | TickerFired (now : Time) (seeds : nat -> nat -> list nat)
  | ContextDone.

Fixpoint run_cycles (sample : nat -> Z) (n : nat) (events : list run_event) (dbs : list DB) :
    list DB :=
  match events with
  | [] => dbs
  | ContextDone :: _ => dbs
  | TickerFired now seeds :: events =>
      run_cycles sample (S n) events (Runner_cycle seeds (sample n) now dbs).1.1
  end.

(** [Run] up to the events it has received. *)
Definition Runner_Run (cfg : ExpiryConfig) (events : list run_event) (dbs : list DB) : list DB :=
  match SamplePerShard cfg with
  | None => dbs
  | Some sample => if Interval cfg <=? 0 then dbs else run_cycles sample 0 events dbs
  end.

(** ** Lemmas *)

Definition total_shards (dbs : list DB) : Z := foldr (λ db n, len (shards db) + n) 0 dbs.

Section Expiry.
Context (maphash : bytes -> Z).

(** Every database at time [t] represents its map. *)
Definition dbs_rep (t : Time) (dbs : list DB) (ms : list (gmap bytes Entry)) : Prop :=
  Forall2 (λ db m, db_rep maphash db (t, m)) dbs ms.

Lemma ExpireCycle_rep seeds db now t m limit :
  db_rep maphash db (t, m) -> t <= now ->
  exists db' ex ev, ExpireCycle seeds db now limit = (db', ex, ev) /\
    db_rep maphash db' (now, live now m) /\ 0 <= ev <= ex /\ ex <= len (shards db) * Z.max 0 limit.
Proof.
  intros Hrep Ht. pose proof (store_advance _ _ _ _ Hrep Ht) as Hrep'.
  destruct (store_call (SExpireCycle seeds now limit) db now (live now m) Hrep' eq_refl)
    as (o & db' & E & (ex & ev & -> & ? & ?) & HR & _).
  cbn [db_step] in E. destruct (ExpireCycle seeds db now limit) as [[d x] v].
  injection E as -> -> ->. by exists db', ex, ev.
Qed.

Lemma cycle_dbs_spec seeds i now t limit dbs ms :
  dbs_rep t dbs ms -> t <= now ->
  exists dbs' ex ev, cycle_dbs seeds i now limit dbs = (dbs', ex, ev) /\
    dbs_rep now dbs' (live now <$> ms) /\ 0 <= ev <= ex /\ ex <= total_shards dbs * Z.max 0 limit.
Proof.
  intros HF Ht. revert i. induction HF as [|db m dbs ms Hrep HF IH]; intros i.
  { exists [], 0, 0. split_and!; [done|constructor|simpl; lia..]. }
  destruct (ExpireCycle_rep (seeds i) db now t m limit Hrep Ht) as (db' & ex & ev & E & ? & ? & ?).
  destruct (IH (S i)) as (dbs' & exs & evs & E' & ? & ? & ?).
  exists (db' :: dbs'), (ex + exs), (ev + evs). cbn [cycle_dbs]. rewrite E, E'.
  split_and!; [done|by constructor|lia|lia|]. 
  change (total_shards (db :: dbs)) with (len (shards db) + total_shards dbs).
  rewrite Z.mul_add_distr_r. lia.
Qed.

(** ** Properties *)

(** C34. An active-expiry cycle evicts only what has expired and stays within its
    work budget: after it every database still answers as its map does at the
    cycle's time, the evictions are among the keys examined, and those are at
    most the budget per shard; a budget of zero or less does nothing. *)
Theorem cycle_invisible_and_bounded seeds limit now t dbs ms :
  dbs_rep t dbs ms -> t <= now ->
  exists dbs' ex ev, Runner_cycle seeds limit now dbs = (dbs', ex, ev) /\
    dbs_rep now dbs' (live now <$> ms) /\
    0 <= ev <= ex /\ ex <= total_shards dbs * Z.max 0 limit /\
    (limit <= 0 -> dbs' = dbs).
Proof.
  intros HF Ht. unfold Runner_cycle. destruct (Z.leb_spec limit 0).
  - exists dbs, 0, 0. split_and!; [done| |lia|lia| |done].
    + eapply Forall2_fmap_r, Forall2_impl; [exact HF|]. intros db m Hrep. simpl.
      exact (store_advance _ _ _ _ Hrep Ht).
    + rewrite Z.max_l by lia. lia.
  - destruct (cycle_dbs_spec seeds 0 now t limit dbs ms HF Ht) as (dbs' & ex & ev & E & ? & ? & ?).
    exists dbs', ex, ev. split_and!; [done..|lia|lia|lia|lia].
Qed.

(** Ticks whose times do not go back from [t]. *)
Fixpoint ticks_from (t : Time) (events : list run_event) : Prop :=
  match events with
  | TickerFired now _ :: events => t <= now /\ ticks_from now events
  | _ => True
  end.

Lemma run_cycles_spec sample n events t dbs ms :
  dbs_rep t dbs ms -> ticks_from t events ->
  exists t', t <= t' /\ dbs_rep t' (run_cycles sample n events dbs) (live t' <$> ms).
Proof.
  assert (forall t ms dbs, dbs_rep t dbs ms -> dbs_rep t dbs (live t <$> ms)) as Hid.
  { intros t0 ms0 dbs0 HF. eapply Forall2_fmap_r, Forall2_impl; [exact HF|].
    intros db m Hrep. simpl. exact (store_advance _ _ _ _ Hrep (Z.le_refl _)). }
  revert n t dbs ms. induction events as [|[now seeds|] events IH]; intros n t dbs ms HF Hev.
  - exists t. split; [lia|by apply Hid].
  - destruct Hev as [Ht Hev]. cbn [run_cycles].
    assert (dbs_rep now (Runner_cycle seeds (sample n) now dbs).1.1 (live now <$> ms)) as HF'.
    { unfold Runner_cycle. destruct (sample n <=? 0).
      - eapply Forall2_fmap_r, Forall2_impl; [exact HF|]. intros db m Hrep. simpl.
        exact (store_advance _ _ _ _ Hrep Ht).
      - by destruct (cycle_dbs_spec seeds 0 now t (sample n) dbs ms HF Ht) as (? & ? & ? & -> & ? & _). }
    destruct (IH (S n) now _ _ HF' Hev) as (t' & Ht' & Hr). exists t'. split; [lia|].
    rewrite <- list_fmap_compose in Hr. erewrite list_fmap_ext; [exact Hr|].
    intros _ m _. simpl. by rewrite live_live.
  - exists t. split; [lia|by apply Hid].
Qed.

(** The expiry loop never changes what readers see: after any run of ticks
    until its context is canceled, every database still answers as its map does
    at some later time, and a loop disabled by its configuration touches
    nothing. *)
Lemma Runner_Run_invisible cfg events t dbs ms :
  dbs_rep t dbs ms -> ticks_from t events ->
  (exists t', t <= t' /\ dbs_rep t' (Runner_Run cfg events dbs) (live t' <$> ms)) /\
  (Interval cfg <= 0 \/ SamplePerShard cfg = None -> Runner_Run cfg events dbs = dbs).
Proof.
  intros HF Hev. unfold Runner_Run. split.
  - destruct (SamplePerShard cfg) as [sample|];
      [destruct (Interval cfg <=? 0)|]; [|by eapply run_cycles_spec|];
      eapply (run_cycles_spec (λ _, 0) 0 []); done.
  - intros [H|H]; [|by rewrite H]. destruct (SamplePerShard cfg); [|done].
    by rewrite (proj2 (Z.leb_le _ _) H).
Qed.

End Expiry.

Lemma cycle_invisible_and_bounded_witness :
  exists dbs' ex ev, Runner_cycle (λ _ _, []) 3 7 [db_example] = (dbs', ex, ev) /\
    dbs_rep len_hash 7 dbs' (live 7 <$> [db_example_map]) /\
    0 <= ev <= ex /\ ex <= total_shards [db_example] * Z.max 0 3 /\
    (3 <= 0 -> dbs' = [db_example]).
Proof.
  apply (cycle_invisible_and_bounded len_hash (λ _ _, []) 3 7 5 [db_example] [db_example_map]).
  - constructor; [exact db_example_rep|constructor].
  - lia.
Defined.
