(* ===== verification/Locking.v ===== *)
(** * Shard locks and the append-log lock

    The locks of internal/shard ([sync.RWMutex] per shard of each database) and
    of internal/persistence ([Store.mu]), and the goroutines that take them. A
    goroutine runs one section at a time: it acquires the locks of its plan in
    order, runs, and releases them in reverse. A writer that waits keeps later
    readers out, as Go's [RWMutex] does. The step relation interleaves any
    number of goroutines; two invariants are proved by rule induction, and
    deadlock freedom from them: plans in one global order never block forever. *)

From S2P Require Import Prelude.

(** ** Locks, in their global order *)

Inductive lock :=
  | ShardLock (db shard : Z)
  | LogLock.

Inductive mode := Rd | Wr.

#[global] Instance lock_eq_dec : EqDecision lock.
Proof. solve_decision. Defined.
#[global] Instance mode_eq_dec : EqDecision mode.
Proof. solve_decision. Defined.

Definition lock_ltb (a b : lock) : bool :=
  match a, b with
  | ShardLock d i, ShardLock d' i' => (d <? d') || ((d =? d') && (i <? i'))
  | ShardLock _ _, LogLock => true
  | LogLock, _ => false
  end.

(** The acquisitions of a section, in order. *)
Abbreviation plan := (list (mode * lock)).

Definition ascending (p : plan) : Prop :=
  StronglySorted (λ a b, lock_ltb a b = true) p.*2.

(** ** Goroutines *)

(** [g_held] is a stack, the last acquisition first; [g_waiting] is set while
    the goroutine is a writer queued on the first lock of [g_want]. *)
Record goroutine := mkG {
  g_held : list (mode * lock);
  g_want : plan;
  g_waiting : bool }.

Definition idle : goroutine := mkG [] [] false.

Abbreviation system := (list goroutine).

Definition holds (s : system) (j : nat) (m : mode) (l : lock) : Prop :=
  exists g, s !! j = Some g /\ (m, l) ∈ g_held g.

Definition queued (s : system) (j : nat) (l : lock) : Prop :=
  exists g rest, s !! j = Some g /\ g_want g = (Wr, l) :: rest /\ g_waiting g = true.

(** One step of one goroutine. [allowed] is the set of plans the program's
    sections use. *)
Inductive lock_step (allowed : plan -> Prop) (s : system) : system -> Prop :=
  | step_enter i p :
      s !! i = Some idle -> allowed p ->
      lock_step allowed s (<[i := mkG [] p false]> s)
  | step_queue i h l rest :
      s !! i = Some (mkG h ((Wr, l) :: rest) false) ->
      lock_step allowed s (<[i := mkG h ((Wr, l) :: rest) true]> s)
  | step_lock i h l rest :
      s !! i = Some (mkG h ((Wr, l) :: rest) true) ->
      (forall j m, ~ holds s j m l) ->
      lock_step allowed s (<[i := mkG ((Wr, l) :: h) rest false]> s)
  | step_rlock i h l rest :
      s !! i = Some (mkG h ((Rd, l) :: rest) false) ->
      (forall j, ~ holds s j Wr l) -> (forall j, ~ queued s j l) ->
      lock_step allowed s (<[i := mkG ((Rd, l) :: h) rest false]> s)
  | step_unlock i a h :
      s !! i = Some (mkG (a :: h) [] false) ->
      lock_step allowed s (<[i := mkG h [] false]> s).

(** A step that is not the start of a new section. *)
Definition progress (s : system) : Prop := exists s', lock_step (λ _, False) s s'.

Definition init (n : nat) : system := replicate n idle.

Definition reachable (allowed : plan -> Prop) (n : nat) (s : system) : Prop :=
  rtc (lock_step allowed) (init n) s.

(** ** Lemmas: the order *)

Lemma lock_ltb_irrefl a : lock_ltb a a = false.
Proof. destruct a; simpl; [|done]. zcases. Qed.

Lemma lock_ltb_trans a b c : lock_ltb a b = true -> lock_ltb b c = true -> lock_ltb a c = true.
Proof. destruct a, b, c; simpl; try done. intros. zcases. Qed.

(** A non-empty list has a greatest lock. *)
Lemma greatest (ls : list lock) :
  ls <> [] -> exists l, l ∈ ls /\ Forall (λ x, lock_ltb l x = false) ls.
Proof.
  induction ls as [|a ls IH]; intros Hne; [done|]. destruct ls as [|b ls].
  { exists a. split; [left|]. repeat constructor. apply lock_ltb_irrefl. }
  destruct IH as (l & Hl & Hall); [done|].
  destruct (lock_ltb l a) eqn:E.
  - exists a. split; [left|]. constructor; [apply lock_ltb_irrefl|].
    eapply Forall_impl; [exact Hall|]. intros x Hx. destruct (lock_ltb a x) eqn:E'; [|done].
    simpl in Hx. by rewrite (lock_ltb_trans l a x) in Hx.
  - exists l. split; [by right|]. by constructor.
Qed.

(** ** Invariants *)

(** What a goroutine holds is below what it wants, and it wants in order. *)
Definition g_ordered (g : goroutine) : Prop :=
  ascending (reverse (g_held g) ++ g_want g) /\
  (g_waiting g = true -> exists l rest, g_want g = (Wr, l) :: rest).

Definition all_ordered (s : system) : Prop := Forall g_ordered s.

(** A lock held for writing is held by nobody else. *)
Definition exclusive (s : system) : Prop :=
  forall i j m l, holds s i Wr l -> holds s j m l -> i = j.

Lemma holds_insert s i g j m l :
  holds (<[i := g]> s) j m l ->
  (i = j /\ (m, l) ∈ g_held g /\ (i < length s)%nat) \/ (i <> j /\ holds s j m l).
Proof.
  intros (g' & Hg & Hin). destruct (decide (i = j)) as [->|Hne].
  - apply list_lookup_insert_Some in Hg as [(_ & <- & ?)|[? _]]; [by left|done].
  - rewrite list_lookup_insert_ne in Hg by done. right. split; [done|]. by exists g'.
Qed.

Lemma ascending_snoc h a rest :
  ascending (reverse h ++ a :: rest) -> ascending (reverse (a :: h) ++ rest).
Proof. by rewrite reverse_cons, <- app_assoc. Qed.

Lemma ascending_prefix p q : ascending (p ++ q) -> ascending p.
Proof. unfold ascending. rewrite fmap_app. apply StronglySorted_app_1_l. Qed.

Lemma lock_step_ordered allowed s s' :
  (forall p, allowed p -> ascending p) ->
  lock_step allowed s s' -> all_ordered s -> all_ordered s'.
Proof.
  intros Hal Hst Hs. unfold all_ordered in *.
  assert (forall i g, s !! i = Some g -> g_ordered g) as Hg by (intros i g; by apply Forall_lookup_1).
  destruct Hst as [i p Hi Hp|i h l rest Hi|i h l rest Hi _|i h l rest Hi _ _|i a h Hi];
    apply Forall_insert; try done; try (destruct (Hg _ _ Hi) as [Ho Hw]); cbn [g_held g_want] in *.
  - split; [by apply Hal|done].
  - split; [done|]. intros _. by eexists _, _.
  - split; [by apply ascending_snoc|done].
  - split; [by apply ascending_snoc|done].
  - split; [|done]. rewrite app_nil_r in Ho. cbn [g_held g_want]. rewrite app_nil_r.
    rewrite reverse_cons in Ho. by eapply ascending_prefix.
Qed.

Lemma lock_step_exclusive allowed s s' :
  lock_step allowed s s' -> exclusive s -> exclusive s'.
Proof.
  intros Hst Hex i' j m l' Hi' Hj.
  destruct Hst as [i p Hi Hp|i h l rest Hi|i h l rest Hi Hfree|i h l rest Hi Hnw _|i a h Hi].
  - apply holds_insert in Hi' as [(_ & Hin & _)|[? Hi']]; [by apply elem_of_nil in Hin|].
    apply holds_insert in Hj as [(_ & Hin & _)|[? Hj]]; [by apply elem_of_nil in Hin|].
    by eapply Hex.
  - assert (forall j m l', holds (<[i := mkG h ((Wr, l) :: rest) true]> s) j m l' -> holds s j m l')
      as Hsame.
    { intros j0 m0 l0 [(<- & Hin & _)|[_ ?]]%holds_insert; [by eexists; split|done]. }
    eapply Hex; eauto.
  - (* the new writer: nobody else holds the lock *)
    assert (forall j m l', holds (<[i := mkG ((Wr, l) :: h) rest false]> s) j m l' ->
      (j = i /\ m = Wr /\ l' = l) \/ holds s j m l') as Hsame.
    { intros j0 m0 l0 [(<- & Hin & _)|[_ ?]]%holds_insert; [|by right].
      apply elem_of_cons in Hin as [[= -> ->]|Hin]; [by left|right; by eexists; split]. }
    apply Hsame in Hi' as [(-> & _ & ->)|Hi']; apply Hsame in Hj as [(-> & -> & Hl)|Hj].
    + done.
    + by destruct (Hfree j m).
    + subst. by destruct (Hfree i' Wr).
    + by eapply Hex.
  - assert (forall j m l', holds (<[i := mkG ((Rd, l) :: h) rest false]> s) j m l' ->
      (j = i /\ m = Rd /\ l' = l) \/ holds s j m l') as Hsame.
    { intros j0 m0 l0 [(<- & Hin & _)|[_ ?]]%holds_insert; [|by right].
      apply elem_of_cons in Hin as [[= -> ->]|Hin]; [by left|right; by eexists; split]. }
    apply Hsame in Hi' as [(_ & ? & _)|Hi']; [done|]. apply Hsame in Hj as [(-> & -> & ->)|Hj].
    + by destruct (Hnw i').
    + by eapply Hex.
  - assert (forall j m l', holds (<[i := mkG h [] false]> s) j m l' -> holds s j m l') as Hsame.
    { intros j0 m0 l0 [(<- & Hin & _)|[_ ?]]%holds_insert; [|done].
      eexists. split; [done|]. simpl. by right. }
    eapply Hex; eauto.
Qed.

Lemma reachable_invariant allowed n s :
  (forall p, allowed p -> ascending p) -> reachable allowed n s -> all_ordered s /\ exclusive s.
Proof.
  intros Hal Hr. apply (rtc_ind_r (R := lock_step allowed) (λ s, all_ordered s /\ exclusive s) (init n));
    [| |exact Hr].
  - split.
    + apply Forall_replicate. split; [constructor|done].
    + intros i j m l (g & [-> _]%lookup_replicate_1 & Hin) _. by apply elem_of_nil in Hin.
  - intros s1 s2 _ Hst [Ho He]. split; [by eapply lock_step_ordered|by eapply lock_step_exclusive].
Qed.

(** What a goroutine holds is below the next lock it wants. *)
Lemma held_below g m l m' l' rest :
  g_ordered g -> (m, l) ∈ g_held g -> g_want g = (m', l') :: rest -> lock_ltb l l' = true.
Proof.
  intros [Ho _] Hin Hw. unfold ascending in Ho. rewrite Hw, fmap_app in Ho.
  apply (StronglySorted_app_1_elem_of (λ a b, lock_ltb a b = true) _ _ l l' Ho); [|left].
  apply list_elem_of_fmap. exists (m, l). split; [done|]. by apply elem_of_reverse.
Qed.

Definition busy (g : goroutine) : Prop := g <> idle.

(** The lock a goroutine asks for next. *)
Definition next_lock (g : goroutine) : option lock := snd <$> head (g_want g).

(** Whether a goroutine is queued on [l]. *)
Definition queuedb (l : lock) (g : goroutine) : bool :=
  match g_want g with
  | (Wr, l') :: _ => bool_decide (l' = l) && g_waiting g
  | _ => false
  end.

Lemma queuedb_spec s j g l : s !! j = Some g -> queued s j l <-> queuedb l g = true.
Proof.
  intros Hg. unfold queued, queuedb. split.
  - intros (g' & rest & Hg' & Hw & Hq). simplify_eq. rewrite Hw, Hq. by rewrite bool_decide_true.
  - destruct (g_want g) as [|[[] l'] rest] eqn:E; [done..|].
    intros [->%bool_decide_eq_true ?]%andb_true_iff. by exists g, rest.
Qed.

(** Nobody holds the greatest lock anyone asks for, when everybody who holds
    something asks for something more. *)
Lemma greatest_free s l :
  all_ordered s -> Forall (λ g, g_held g <> [] -> g_want g <> []) s ->
  Forall (λ x, lock_ltb l x = false) (omap next_lock s) ->
  forall j m, ~ holds s j m l.
Proof.
  intros Ho Hbusy Hmax j m (g & Hg & Hin).
  pose proof (Forall_lookup_1 _ _ _ _ Ho Hg) as Hog.
  pose proof (Forall_lookup_1 _ _ _ _ Hbusy Hg) as Hb. simpl in Hb.
  destruct (g_want g) as [|[m' l'] rest] eqn:Hw.
  { apply Hb; [|done]. intros E. rewrite E in Hin. by apply elem_of_nil in Hin. }
  pose proof (held_below g m l m' l' rest Hog Hin Hw) as Hlt.
  rewrite Forall_forall in Hmax. rewrite (Hmax l') in Hlt; [done|].
  apply list_elem_of_omap. exists g. split; [by eapply list_elem_of_lookup_2|].
  unfold next_lock. by rewrite Hw.
Qed.

(** Whoever asks for a lock nobody holds can go on, or a queued writer can. *)
Lemma free_lock_progress s i g m l rest :
  all_ordered s -> s !! i = Some g -> g_want g = (m, l) :: rest ->
  (forall j m, ~ holds s j m l) -> progress s.
Proof.
  intros Ho Hg Hw Hfree. pose proof (Forall_lookup_1 _ _ _ _ Ho Hg) as [_ Hwait].
  destruct g as [h w q]. cbn [g_want g_waiting] in *. subst w. destruct m.
  - destruct q; [by destruct (Hwait eq_refl) as (? & ? & [=])|].
    destruct (list_find (λ g, queuedb l g = true) s) as [[j gj]|] eqn:Ef.
    + apply list_find_Some in Ef as (Hj & Hq & _).
      apply (queuedb_spec s j gj l Hj) in Hq as (g' & rest' & Hg' & Hw' & Hq').
      destruct g' as [h' w' q']. simpl in *. subst. eexists. by eapply step_lock.
    + apply list_find_None in Ef. eexists. eapply step_rlock; [done|by intros; apply Hfree|].
      intros j (gj & restj & Hj & Hwj & Hqj).
      apply (Forall_lookup_1 _ _ _ _ Ef Hj). apply (queuedb_spec s j gj l Hj).
      by exists gj, restj.
  - destruct q; eexists; [by eapply step_lock|by eapply step_queue].
Qed.

(** ** Properties *)

(** Goroutines that take locks in the global order never deadlock: in every
    reachable state of any number of goroutines in which one is inside a
    section, some goroutine can take its next step without a new section being
    started, even though a waiting writer keeps later readers out. *)
Lemma deadlock_free allowed n s :
  (forall p, allowed p -> ascending p) -> reachable allowed n s ->
  Exists busy s -> progress s.
Proof.
  intros Hal Hr Hb. destruct (reachable_invariant allowed n s Hal Hr) as [Ho _].
  destruct (list_find (λ g, g_held g <> [] /\ g_want g = []) s) as [[i g]|] eqn:Ef.
  { apply list_find_Some in Ef as (Hi & [Hh Hw] & _).
    destruct (Forall_lookup_1 _ _ _ _ Ho Hi) as [_ Hq].
    destruct g as [[|a h] w q]; cbn [g_held g_want g_waiting] in *; subst; [done|].
    destruct q; [by destruct (Hq eq_refl) as (? & ? & ?)|]. eexists. by eapply step_unlock. }
  apply list_find_None in Ef.
  assert (Forall (λ g, g_held g <> [] -> g_want g <> []) s) as Hbusy.
  { eapply Forall_impl; [exact Ef|]. simpl. naive_solver. }
  destruct (greatest (omap next_lock s)) as (l & Hl & Hmax).
  { apply Exists_exists in Hb as (g & Hin & Hg). intros E.
    assert (next_lock g = None) as Hn.
    { destruct (next_lock g) as [l|] eqn:En; [|done].
      assert (l ∈ omap next_lock s) as H by (apply list_elem_of_omap; eauto).
      rewrite E in H. by apply elem_of_nil in H. }
    unfold all_ordered in Ho. rewrite Forall_forall in Hbusy, Ho. specialize (Hbusy g Hin). destruct (Ho g Hin) as [_ Hq].
    destruct g as [h w q]. unfold next_lock in Hn. cbn [g_held g_want g_waiting] in *.
    destruct w; [|done]. destruct h; [|by destruct (Hbusy ltac:(done))].
    destruct q; [by destruct (Hq eq_refl) as (? & ? & ?)|]. by apply Hg. }
  apply list_elem_of_omap in Hl as (g & [i Hi]%list_elem_of_lookup & Hn).
  unfold next_lock in Hn. destruct (g_want g) as [|[m l'] rest] eqn:Hw; [done|].
  injection Hn as ->. eapply free_lock_progress; [done..|]. by eapply greatest_free.
Qed.

(** A shard held for writing is held by nobody else, in every reachable
    state: a writer runs alone on its shards, and readers share them only with
    readers. *)
Lemma mutual_exclusion allowed n s :
  (forall p, allowed p -> ascending p) -> reachable allowed n s -> exclusive s.
Proof. intros. by eapply reachable_invariant. Qed.
