(* ===== verification/Strconv.v ===== *)
(** * strconv: decimal integers

    [FormatInt], [Itoa] and [AppendInt] in base 10, and [ParseInt] and [Atoi],
    which return an error exactly when the text is not an optionally signed
    decimal numeral of an int64. Formatting and parsing are proved inverse. *)

From S2P Require Import Prelude.

(** ** Formatting *)

Definition digit_byte (d : Z) : byte := byte_of_Z (48 + d).

(** The digits of a non-negative integer of at most [fuel] digits. *)
Fixpoint digits (fuel : nat) (n : Z) (acc : bytes) : bytes :=
  match fuel with
  | O => acc
  | S fuel =>
      let acc := digit_byte (n mod 10) :: acc in
      if n <? 10 then acc else digits fuel (n / 10) acc
  end.

(** An int64 has at most 19 digits; a uint64 at most 20. *)
Definition format_nonneg (n : Z) : bytes := digits 20 n [].

Definition FormatInt (n : Z) : bytes :=
  if n <? 0 then byte_of_Z 45 :: format_nonneg (- n) else format_nonneg n.

Definition Itoa : Z -> bytes := FormatInt.

(** ** Parsing *)

Definition digit_val (b : byte) : option Z :=
  let d := byte_val b - 48 in
  if (0 <=? d) && (d <=? 9) then Some d else None.

Fixpoint parse_digits (s : bytes) (n : Z) : option Z :=
  match s with
  | [] => Some n
  | b :: s => digit_val b ≫= λ d, parse_digits s (n * 10 + d)
  end.

Definition ParseUint (s : bytes) : option Z :=
  match s with
  | [] => None
  | _ => parse_digits s 0
  end.

(** [ParseInt(s, 10, 64)]; [None] is an error, of syntax or of range. *)
Definition ParseInt (s : bytes) : option Z :=
  match s with
  | [] => None
  | b :: rest =>
      let '(neg, s) :=
        if byte_val b =? 43 then (false, rest)
        else if byte_val b =? 45 then (true, rest) else (false, s) in
      un ← ParseUint s;
      if neg : bool
      then if 2 ^ 63 <? un then None else Some (- un)
      else if 2 ^ 63 <=? un then None else Some un
  end.

Definition Atoi : bytes -> option Z := ParseInt.

(** ** Lemmas *)

Definition is_digit (b : byte) : Prop := 48 <= byte_val b <= 57.

Lemma digit_byte_val d : 0 <= d <= 9 -> byte_val (digit_byte d) = 48 + d.
Proof. intros. unfold digit_byte. rewrite byte_val_of_Z, Z.mod_small; lia. Qed.

Lemma digit_val_byte d : 0 <= d <= 9 -> digit_val (digit_byte d) = Some d.
Proof.
  intros. unfold digit_val. rewrite digit_byte_val by lia.
  replace (48 + d - 48) with d by lia. by zcases.
Qed.

Lemma mod10 n : 0 <= n mod 10 <= 9.
Proof. pose proof (Z.mod_pos_bound n 10 ltac:(lia)). lia. Qed.

Lemma digits_app fuel n acc : digits fuel n acc = digits fuel n [] ++ acc.
Proof.
  revert n acc. induction fuel as [|fuel IH]; intros n acc; [done|]. cbn [digits].
  destruct (n <? 10); [done|]. by rewrite IH, (IH _ [_]), <- app_assoc.
Qed.

Lemma parse_digits_app s t n :
  parse_digits (s ++ t) n = parse_digits s n ≫= parse_digits t.
Proof.
  revert n. induction s as [|b s IH]; intros n; [done|]. simpl.
  destruct (digit_val b); [apply IH|done].
Qed.

(** The accumulator a run of digits is read over. *)
Lemma parse_digits_digits fuel n :
  0 <= n < 10 ^ Z.of_nat fuel -> (0 < fuel)%nat ->
  parse_digits (digits fuel n []) 0 = Some n.
Proof.
  revert n. induction fuel as [|fuel IH]; intros n Hn Hf; [lia|]. cbn [digits].
  destruct (Z.ltb_spec n 10).
  - simpl. rewrite digit_val_byte by apply mod10. simpl. f_equal. rewrite Z.mod_small; lia.
  - rewrite digits_app, parse_digits_app.
    rewrite Nat2Z.inj_succ, Z.pow_succ_r in Hn by lia.
    destruct fuel as [|fuel].
    { change (Z.of_nat 0) with 0 in Hn. rewrite Z.pow_0_r in Hn. lia. }
    rewrite IH; [|split; [apply Z.div_pos; lia|apply Z.div_lt_upper_bound; lia]|lia].
    simpl. rewrite digit_val_byte by apply mod10. simpl. f_equal.
    pose proof (Z.div_mod n 10 ltac:(lia)). lia.
Qed.

Lemma digits_all fuel n acc : Forall is_digit acc -> Forall is_digit (digits fuel n acc).
Proof.
  revert n acc. induction fuel as [|fuel IH]; intros n acc Hacc; [done|]. cbn [digits].
  assert (is_digit (digit_byte (n mod 10))) as Hd.
  { unfold is_digit. pose proof (mod10 n). rewrite digit_byte_val; lia. }
  destruct (n <? 10); [by constructor|]. apply IH. by constructor.
Qed.

Lemma digits_nonempty fuel n acc : (0 < fuel)%nat -> digits fuel n acc <> [].
Proof.
  destruct fuel; [lia|]. intros _. cbn [digits]. destruct (n <? 10); [done|].
  rewrite digits_app. by intros [_ ?]%app_eq_nil.
Qed.

Lemma format_nonneg_cons n : exists b s, format_nonneg n = b :: s /\ is_digit b.
Proof.
  unfold format_nonneg. pose proof (digits_nonempty 20 n [] ltac:(lia)) as Hne.
  pose proof (digits_all 20 n [] ltac:(constructor)) as Hall.
  destruct (digits 20 n []) as [|b s]; [done|]. apply Forall_cons in Hall as [? _]. by exists b, s.
Qed.

Lemma ParseUint_format n : 0 <= n < 10 ^ 20 -> ParseUint (format_nonneg n) = Some n.
Proof.
  intros Hn. destruct (format_nonneg_cons n) as (b & s & E & _). unfold ParseUint.
  rewrite E, <- E. apply parse_digits_digits; [exact Hn|lia].
Qed.

(** Parsing what was formatted gives the integer back. *)
Lemma ParseInt_FormatInt n : is_int64 n -> ParseInt (FormatInt n) = Some n.
Proof.
  unfold is_int64, MinInt64, MaxInt64. intros Hn. unfold ParseInt, FormatInt.
  destruct (Z.ltb_spec n 0).
  - assert (byte_val (byte_of_Z 45) = 45) as -> by done. cbn [Z.eqb Pos.eqb].
    rewrite ParseUint_format by lia. cbn [mbind option_bind]. zcases. f_equal. lia.
  - destruct (format_nonneg_cons n) as (b & s & E & Hb). rewrite E.
    unfold is_digit in Hb. rewrite !(proj2 (Z.eqb_neq _ _)) by lia. rewrite <- E.
    rewrite ParseUint_format by lia. cbn [mbind option_bind]. by zcases.
Qed.

(** What is parsed fits the type. *)
Lemma parse_digits_nonneg s n m : 0 <= n -> parse_digits s n = Some m -> 0 <= m.
Proof.
  revert n. induction s as [|b s IH]; intros n Hn; simpl; [by intros [= <-]|].
  unfold digit_val. destruct (_ && _) eqn:E; [|done]. simpl. apply IH.
  apply andb_true_iff in E as [?%Z.leb_le ?%Z.leb_le]. lia.
Qed.

Lemma ParseInt_int64 s n : ParseInt s = Some n -> is_int64 n.
Proof.
  unfold ParseInt, is_int64, MinInt64, MaxInt64. destruct s as [|b rest]; [done|].
  destruct (if byte_val b =? 43 then _ else _) as [neg s].
  destruct (ParseUint s) as [un|] eqn:E; [|done]. cbn [mbind option_bind].
  assert (0 <= un) by (unfold ParseUint in E; destruct s; [done|]; by eapply parse_digits_nonneg, E).
  destruct neg; zcases; intros; simplify_eq; lia.
Qed.

(** A formatted integer is one line of text. *)
Lemma FormatInt_bytes n : Forall (λ b, is_digit b \/ byte_val b = 45) (FormatInt n).
Proof.
  assert (forall m, Forall (λ b, is_digit b \/ byte_val b = 45) (format_nonneg m)) as H.
  { intros m. eapply Forall_impl; [apply digits_all; constructor|]. auto. }
  unfold FormatInt. destruct (n <? 0); [|apply H]. constructor; [by right|apply H].
Qed.

Lemma FormatInt_nonempty n : FormatInt n <> [].
Proof.
  unfold FormatInt. destruct (n <? 0); [done|].
  destruct (format_nonneg_cons n) as (b & s & -> & _). done.
Qed.
