(* ===== verification/Resp.v ===== *)
(** * internal/resp and the Go client's protocol code

    The wire protocol: [Reply] and its [Writer], the request [Reader] with its
    two request forms, and the client's side of both (clients/go/memcore.go). A
    byte stream is the list of the bytes still to come; a stream that ends does
    so with [EOF]. Requests and replies are proved to round-trip between client
    and server, whatever follows them in the stream. *)

From S2P Require Import Prelude GoBinary Strconv.

(** ** Replies (reply.go) *)

Inductive Reply :=
  | RNil
  | RSimple (str : bytes)
  | RError (str : bytes)
  | RInt (num : Z)
  | RBulk (bulk : bytes)
  | RArray (array : list Reply).

Definition Reply_Nil : Reply := RNil.
Definition Reply_Simple (s : bytes) : Reply := RSimple s.
Definition Reply_OK : Reply := RSimple (lit "OK").
Definition Reply_Error (s : bytes) : Reply := RError s.
Definition Reply_Int (n : Z) : Reply := RInt n.
Definition Reply_Bulk (b : bytes) : Reply := RBulk b.
Definition Reply_Array (elems : list Reply) : Reply := RArray elems.

Definition IsError (r : Reply) : bool := match r with RError _ => true | _ => false end.

Definition Elements (r : Reply) : list Reply := match r with RArray es => es | _ => [] end.

Fixpoint Reply_Equal (r o : Reply) {struct r} : bool :=
  match r, o with
  | RNil, RNil => true
  | RSimple a, RSimple b => bool_decide (a = b)
  | RError a, RError b => bool_decide (a = b)
  | RInt a, RInt b => a =? b
  | RBulk a, RBulk b => bool_decide (a = b)
  | RArray a, RArray b =>
      (fix go (a b : list Reply) {struct a} : bool :=
         match a, b with
         | [], [] => true
         | x :: a, y :: b => Reply_Equal x y && go a b
         | _, _ => false
         end) a b
  | _, _ => false
  end.

(** [String]; [quote] is [strconv.Quote]. *)
Fixpoint Reply_String (quote : bytes -> bytes) (r : Reply) : bytes :=
  match r with
  | RNil => lit "(nil)"
  | RSimple s => s
  | RError s => lit "(error) " ++ s
  | RInt n => FormatInt n
  | RBulk b => quote b
  | RArray [] => lit "[]"
  | RArray (e :: es) =>
      lit "[" ++ Reply_String quote e ++ concat (map (λ e, lit " " ++ Reply_String quote e) es) ++ lit "]"
  end.

(** ** The writer (writer.go)

    [w_out] is everything written, in order; [w_err] is the sticky error. *)
Record Writer := mkWriter { w_out : bytes; w_err : bool }.

Definition NewWriter : Writer := mkWriter [] false.

Definition CRLF : bytes := [byte_of_Z 13; byte_of_Z 10].

Definition Writer_write (w : Writer) (p : bytes) : Writer :=
  if w_err w then w else mkWriter (w_out w ++ p) false.
Definition Writer_writeString : Writer -> bytes -> Writer := Writer_write.
Definition Writer_writeByte (w : Writer) (b : byte) : Writer :=
  if w_err w then w else mkWriter (w_out w ++ [b]) false.
Definition Writer_writeInt (w : Writer) (n : Z) : Writer :=
  if w_err w then w else mkWriter (w_out w ++ FormatInt n) false.

Definition Writer_writeBulk (w : Writer) (b : bytes) : Writer :=
  let w := Writer_writeByte w (byte_of_Z 36) in
  let w := Writer_writeInt w (len b) in
  let w := Writer_writeString w CRLF in
  let w := Writer_write w b in
  Writer_writeString w CRLF.

Definition Writer_writeFrame (w : Writer) (prefix : byte) (s : bytes) : Writer :=
  let w := Writer_writeByte w prefix in
  let w := Writer_writeString w s in
  Writer_writeString w CRLF.

Fixpoint Writer_writeReply (w : Writer) (r : Reply) {struct r} : Writer :=
  match r with
  | RNil => Writer_writeString w (lit "$-1" ++ CRLF)
  | RSimple s => Writer_writeFrame w (byte_of_Z 43) s
  | RError s => Writer_writeFrame w (byte_of_Z 45) s
  | RInt n =>
      let w := Writer_writeByte w (byte_of_Z 58) in
      let w := Writer_writeInt w n in
      Writer_writeString w CRLF
  | RBulk b => Writer_writeBulk w b
  | RArray es =>
      let w := Writer_writeByte w (byte_of_Z 42) in
      let w := Writer_writeInt w (len es) in
      let w := Writer_writeString w CRLF in
      (fix go (w : Writer) (es : list Reply) {struct es} : Writer :=
         match es with
         | [] => w
         | e :: es => go (Writer_writeReply w e) es
         end) w es
  end.

(** [WriteReply]: the writer and whether it reports an error. *)
Definition WriteReply (w : Writer) (r : Reply) : Writer * bool :=
  let w := Writer_writeReply w r in (w, w_err w).

(** ** The reader (reader.go) *)

Definition maxBulkLen : Z := 512 * 2 ^ 20.
Definition maxMultiBulkLen : Z := 2 ^ 20.
Definition directReadLimit : Z := 64 * 2 ^ 10.
Definition readBufferSize : nat := 16 * 1024.

Definition eofIsUnexpected (e : io_error) : io_error :=
  match e with EOF => UnexpectedEOF | e => e end.

(** The length of the line that ends at the first newline of [s]. *)
Fixpoint line_length (s : bytes) : option nat :=
  match s with
  | [] => None
  | b :: s => if byte_val b =? 10 then Some 1%nat else S <$> line_length s
  end.

(** [ReadSlice] of the newline over a buffer of [size] bytes: a line that does not fit is
    [bufio.ErrBufferFull], reported here as the protocol error it becomes. *)
Definition ReadSlice (size : nat) : reader bytes := λ r,
  match line_length (take size r) with
  | Some n => (inl (take n r), drop n r)
  | None => if bool_decide (size <= length r)%nat then (inr ErrProtocol, drop size r)
            else (inr EOF, [])
  end.

(** A line without its CRLF. *)
Definition trim_crlf (line : bytes) : option bytes :=
  let n := length line in
  match line !! (n - 2)%nat with
  | Some c => if bool_decide (2 <= n)%nat && (byte_val c =? 13)
              then Some (take (n - 2) line) else None
  | None => None
  end.

Definition readLine : reader bytes :=
  let! line := rmap_err eofIsUnexpected (ReadSlice readBufferSize) in
  match trim_crlf line with
  | Some l => rret l
  | None => rfail ErrProtocol
  end.

Definition readCount : reader Z :=
  let! line := readLine in
  match Atoi line with
  | Some n => rret n
  | None => rfail ErrProtocol
  end.

Definition expectCRLF : reader unit :=
  let! cr := rmap_err eofIsUnexpected ReadByte in
  let! lf := rmap_err eofIsUnexpected ReadByte in
  if (byte_val cr =? 13) && (byte_val lf =? 10) then rret tt else rfail ErrProtocol.

(** The chunk loop of [readN] with [buf] read so far. *)
Fixpoint readN_loop (fuel : nat) (n : Z) (buf : bytes) : reader bytes :=
  if n <=? len buf then rret buf else
  match fuel with
  | O => rfail (ErrOther (lit "no fuel"))
  | S fuel =>
      let want := Z.min (n - len buf) directReadLimit in
      let! chunk := rmap_err eofIsUnexpected (ReadFull (Z.to_nat want)) in
      readN_loop fuel n (buf ++ chunk)
  end.

Definition readN (n : Z) : reader bytes :=
  if n <=? directReadLimit
  then rmap_err eofIsUnexpected (ReadFull (Z.to_nat n))
  else readN_loop (S (Z.to_nat (n / directReadLimit))) n [].

Definition readBulk : reader bytes :=
  let! n := readCount in
  if (n <? 0) || (maxBulkLen <? n) then rfail ErrProtocol else
  let! body := readN n in
  let! _ := expectCRLF in
  rret body.

Fixpoint readBulks (n : nat) : reader (list bytes) :=
  match n with
  | O => rret []
  | S n =>
      let! marker := rmap_err eofIsUnexpected ReadByte in
      if negb (byte_val marker =? 36) then rfail ErrProtocol else
      let! arg := readBulk in
      let! args := readBulks n in
      rret (arg :: args)
  end.

Definition readMultiBulk : reader (list bytes) :=
  let! n := readCount in
  if n <=? 0 then rret [] else
  if maxMultiBulkLen <? n then rfail ErrProtocol else
  readBulks (Z.to_nat n).

(** The length of the white space character [s] starts with, 0 if there is
    none: the ASCII ones and the UTF-8 encodings of the Unicode ones. Inside a
    multi-byte character no byte starts one, so the split can go byte by byte. *)
Definition space_length (s : bytes) : nat :=
  match map byte_val s with
  | 9 :: _ | 10 :: _ | 11 :: _ | 12 :: _ | 13 :: _ | 32 :: _ => 1%nat
  | 194 :: 133 :: _ | 194 :: 160 :: _ => 2%nat
  | 225 :: 154 :: 128 :: _ => 3%nat
  | 226 :: 128 :: c :: _ =>
      if ((128 <=? c) && (c <=? 138)) || (c =? 168) || (c =? 169) || (c =? 175)
      then 3%nat else 0%nat
  | 226 :: 129 :: 159 :: _ => 3%nat
  | 227 :: 128 :: 128 :: _ => 3%nat
  | _ => 0%nat
  end.

(** [bytes.Fields]: [cur] is the field being read, [skip] the bytes of a white
    space character still to pass. *)
Fixpoint fields_loop (s cur : bytes) (skip : nat) : list bytes :=
  match s with
  | [] => if bool_decide (cur = []) then [] else [cur]
  | b :: s' =>
      match skip with
      | S skip => fields_loop s' cur skip
      | O =>
          match space_length s with
          | O => fields_loop s' (cur ++ [b]) 0
          | S n => if bool_decide (cur = []) then fields_loop s' [] n
                   else cur :: fields_loop s' [] n
          end
      end
  end.

Definition Fields (s : bytes) : list bytes := fields_loop s [] 0.

Definition readInline : reader (list bytes) :=
  let! line := readLine in
  rret (Fields line).

(** [ReadRequest]: an empty result is a request the server skips. *)
Definition ReadRequest : reader (list bytes) := λ r,
  match ReadByte r with
  | (inr e, r') => (inr e, r')
  | (inl prefix, r') => if byte_val prefix =? 42 then readMultiBulk r' else readInline r
  end.

(** ** The client (clients/go/memcore.go) *)

Definition client_writeArg (a : bytes) : bytes :=
  lit "$" ++ FormatInt (len a) ++ CRLF ++ a ++ CRLF.

(** [writeCommand]: [None] is the empty-command error. *)
Definition client_writeCommand (args : list bytes) : option bytes :=
  match args with
  | [] => None
  | _ => Some (lit "*" ++ FormatInt (len args) ++ CRLF ++ concat (map client_writeArg args))
  end.

(** The decoded replies: Go's [string], [int64], [nil] and [[]any]. *)
Inductive client_value :=
  | CString (s : bytes)
  | CInt (n : Z)
  | CNil
  | CArray (items : list client_value).

Inductive client_error :=
  | CServerError (msg : bytes)
  | CTransport (e : io_error).

(** [ReadBytes] of the newline: the line and the rest. *)
Definition ReadBytes_lf : reader bytes := λ r,
  match line_length r with
  | Some n => (inl (take n r), drop n r)
  | None => (inr EOF, [])
  end.

Definition client_readLine : reader bytes :=
  let! line := ReadBytes_lf in
  let n := length line in
  match line !! (n - 2)%nat with
  | Some c => if bool_decide (2 <= n)%nat && (byte_val c =? 13)
              then rret (take (n - 2) line) else rret (take (n - 1) line)
  | None => rret (take (n - 1) line)
  end.

(** A client result with the rest of the stream. *)
Abbreviation client_result A := ((A + client_error) * bytes)%type.

(** The items of an array reply, each read by [rd]. *)
Fixpoint client_items (rd : bytes -> client_result client_value) (n : nat) (r : bytes) :
    client_result (list client_value) :=
  match n with
  | O => (inl [], r)
  | S n =>
      match rd r with
      | (inr e, r) => (inr e, r)
      | (inl v, r) =>
          match client_items rd n r with
          | (inr e, r) => (inr e, r)
          | (inl vs, r) => (inl (v :: vs), r)
          end
      end
  end.

Definition transport {A} (msg : string) (r : bytes) : client_result A :=
  (inr (CTransport (ErrOther (lit msg))), r).

(** [readReply]; [fuel] bounds the nesting of arrays. *)
Fixpoint client_readReply (fuel : nat) (r : bytes) : client_result client_value :=
  match fuel with
  | O => transport "nesting" r
  | S fuel =>
      match client_readLine r with
      | (inr e, r) => (inr (CTransport e), r)
      | (inl [], r) => transport "empty reply" r
      | (inl (c :: body), r) =>
          let c := byte_val c in
          if c =? 43 then (inl (CString body), r)
          else if c =? 45 then (inr (CServerError body), r)
          else if c =? 58 then
            match ParseInt body with
            | Some n => (inl (CInt n), r)
            | None => transport "ParseInt" r
            end
          else if c =? 36 then
            match Atoi body with
            | None => transport "Atoi" r
            | Some n =>
                if n <? 0 then (inl CNil, r)
                else if wrap64 (n + 2) <? 0 then transport "makeslice" r
                else match ReadFull (Z.to_nat (n + 2)) r with
                     | (inr e, r) => (inr (CTransport e), r)
                     | (inl buf, r) => (inl (CString (take (Z.to_nat n) buf)), r)
                     end
            end
          else if c =? 42 then
            match Atoi body with
            | None => transport "Atoi" r
            | Some n =>
                if n <? 0 then (inl CNil, r)
                else match client_items (client_readReply fuel) (Z.to_nat n) r with
                     | (inr e, r) => (inr e, r)
                     | (inl vs, r) => (inl (CArray vs), r)
                     end
            end
          else transport "unknown reply type" r
      end
  end.

(** ** Lemmas: lines and counts *)

Definition no_lf (s : bytes) : Prop := Forall (λ b, byte_val b <> 10) s.

Lemma line_length_app s rest :
  no_lf s -> line_length (s ++ byte_of_Z 10 :: rest) = Some (S (length s)).
Proof.
  induction 1 as [|b s Hb Hs IH]; [done|]. cbn [line_length app length].
  rewrite (proj2 (Z.eqb_neq _ _)) by done. by rewrite IH.
Qed.

Lemma no_lf_cr s : no_lf s -> no_lf (s ++ [byte_of_Z 13]).
Proof. intros. apply Forall_app. split; [done|]. by repeat constructor. Qed.

(** A line of [s] as the two line readers see it. *)
Lemma crlf_line s rest :
  no_lf s ->
  line_length (s ++ CRLF ++ rest) = Some (length s + 2)%nat /\
  take (length s + 2) (s ++ CRLF ++ rest) = s ++ CRLF /\
  drop (length s + 2) (s ++ CRLF ++ rest) = rest.
Proof.
  intros Hs. split_and!.
  - pose proof (line_length_app (s ++ [byte_of_Z 13]) rest (no_lf_cr s Hs)) as E.
    rewrite <- app_assoc in E. rewrite length_app in E.
    replace (length s + 2)%nat with (S (length s + 1)) by lia. exact E.
  - rewrite app_assoc, take_app_length'; [done|]. rewrite length_app. done.
  - rewrite app_assoc, drop_app_length'; [done|]. rewrite length_app. done.
Qed.

Lemma crlf_last s : (s ++ CRLF) !! (length (s ++ CRLF) - 2)%nat = Some (byte_of_Z 13).
Proof.
  rewrite length_app. replace (length s + length CRLF - 2)%nat with (length s) by (simpl; lia).
  rewrite lookup_app_r by lia. by rewrite Nat.sub_diag.
Qed.

Lemma crlf_body s : take (length (s ++ CRLF) - 2) (s ++ CRLF) = s.
Proof.
  rewrite length_app. replace (length s + length CRLF - 2)%nat with (length s) by (simpl; lia).
  by rewrite take_app_length.
Qed.

Lemma crlf_long s : (2 <= length (s ++ CRLF))%nat.
Proof. rewrite length_app. simpl. lia. Qed.

Lemma trim_crlf_app s : trim_crlf (s ++ CRLF) = Some s.
Proof.
  unfold trim_crlf. rewrite crlf_last, crlf_body, bool_decide_true by apply crlf_long. done.
Qed.

Lemma readLine_app s rest :
  no_lf s -> (length s + 2 <= readBufferSize)%nat -> readLine (s ++ CRLF ++ rest) = (inl s, rest).
Proof.
  intros Hs Hl. destruct (crlf_line s rest Hs) as (E1 & E2 & E3).
  assert (line_length (take readBufferSize (s ++ CRLF ++ rest)) = Some (length s + 2)%nat) as E.
  { replace (take readBufferSize (s ++ CRLF ++ rest))
      with (s ++ CRLF ++ take (readBufferSize - length s - 2) rest).
    - by apply crlf_line.
    - rewrite !take_app, (take_ge s) by lia.
      rewrite (take_ge CRLF) by (change (length CRLF) with 2%nat; lia). done. }
  unfold readLine. erewrite rbind_inl; cycle 1.
  { unfold rmap_err, ReadSlice. rewrite E, E2, E3. done. }
  by rewrite trim_crlf_app.
Qed.

Lemma digits_length fuel n acc : (length (digits fuel n acc) <= fuel + length acc)%nat.
Proof.
  revert n acc. induction fuel as [|fuel IH]; intros n acc; cbn [digits]; [lia|].
  destruct (n <? 10); [simpl; lia|]. etrans; [apply IH|]. simpl. lia.
Qed.

Lemma FormatInt_length n : (length (FormatInt n) <= 21)%nat.
Proof.
  assert (forall m, length (format_nonneg m) <= 20)%nat as H
    by (intros m; exact (digits_length 20 m [])).
  unfold FormatInt. destruct (n <? 0); cbn [length].
  - specialize (H (- n)). lia.
  - specialize (H n). lia.
Qed.

Lemma FormatInt_no_lf n : no_lf (FormatInt n).
Proof.
  eapply Forall_impl; [apply FormatInt_bytes|]. unfold is_digit. simpl. intros b [?|?]; lia.
Qed.

Lemma no_lf_prefix p q : no_lf (p ++ q) -> no_lf p.
Proof. intros H. by apply Forall_app in H as [? _]. Qed.

Lemma line_length_None s : no_lf s -> line_length s = None.
Proof.
  induction 1 as [|b s Hb Hs IH]; [done|]. cbn [line_length].
  rewrite (proj2 (Z.eqb_neq _ _)) by done. by rewrite IH.
Qed.

(** A cut line holds no newline. *)
Lemma cut_line_no_lf s p q : no_lf s -> s ++ CRLF = p ++ q -> q <> [] -> no_lf p.
Proof.
  intros Hs E Hq. destruct (app_cut _ _ _ _ E Hq) as [(q' & -> & _)|(p' & -> & E')].
  - by eapply no_lf_prefix.
  - destruct p' as [|c [|c' p']]; [by rewrite app_nil_r| |].
    + injection E' as <- _. by apply no_lf_cr.
    + injection E' as _ _ E'. symmetry in E'. by apply app_eq_nil in E' as [_ ->].
Qed.

Lemma frames_readLine s :
  no_lf s -> (length s + 2 <= readBufferSize)%nat ->
  frames readLine (s ++ CRLF) s UnexpectedEOF.
Proof.
  intros Hs Hl. split; [intros rest; rewrite <- app_assoc; by apply readLine_app|].
  intros p q E Hq. pose proof (cut_line_no_lf s p q Hs E Hq) as Hp.
  assert (length p < readBufferSize)%nat as Hlt.
  { apply (f_equal length) in E. rewrite !length_app in E. change (length CRLF) with 2%nat in E.
    destruct q; [done|]. simpl in E. lia. }
  unfold readLine. erewrite rbind_inr; cycle 1.
  { unfold rmap_err, ReadSlice. rewrite take_ge by lia. rewrite line_length_None by done.
    rewrite bool_decide_false by lia. done. }
  by destruct (bool_decide _).
Qed.

Lemma frames_readCount n :
  is_int64 n -> frames readCount (FormatInt n ++ CRLF) n UnexpectedEOF.
Proof.
  intros Hn. pose proof (FormatInt_length n). unfold readCount.
  rewrite <- (app_nil_r (FormatInt n ++ CRLF)).
  apply frames_bind with (a := FormatInt n);
    [apply frames_readLine; [apply FormatInt_no_lf|unfold readBufferSize; lia]|by right|].
  unfold Atoi. rewrite ParseInt_FormatInt by done. apply frames_ret.
Qed.

(** ** Lemmas: bodies *)

Lemma frames_expectCRLF : frames expectCRLF CRLF tt UnexpectedEOF.
Proof.
  unfold expectCRLF. change CRLF with ([byte_of_Z 13] ++ [byte_of_Z 10] ++ []).
  apply frames_bind with (a := byte_of_Z 13);
    [by eapply frames_map_err; [apply frames_ReadByte|..]|by right|].
  apply frames_bind with (a := byte_of_Z 10);
    [by eapply frames_map_err; [apply frames_ReadByte|..]|by right|].
  apply frames_ret.
Qed.

Lemma len_0_nil {A} (s : list A) : len s <= 0 -> s = [].
Proof. destruct s; [done|]. rewrite len_cons. pose proof (len_nonneg s). lia. Qed.

(** The chunk loop reads what one read would. *)
Lemma frames_readN_loop fuel n buf b :
  len buf + len b = n -> len b <= Z.of_nat fuel * directReadLimit ->
  frames (readN_loop fuel n buf) b (buf ++ b) UnexpectedEOF.
Proof.
  unfold directReadLimit.
  revert buf b. induction fuel as [|fuel IH]; intros buf b Hn Hf; cbn [readN_loop].
  - assert (b = []) as -> by (apply len_0_nil; lia). rewrite len_nil in Hn.
    rewrite (proj2 (Z.leb_le _ _)), app_nil_r by lia. apply frames_ret.
  - destruct (Z.leb_spec n (len buf)).
    { assert (b = []) as -> by (apply len_0_nil; lia). rewrite app_nil_r. apply frames_ret. }
    set (want := Z.min (n - len buf) directReadLimit).
    assert (0 <= want <= len b) as Hw by (unfold want, directReadLimit; lia).
    assert (length (take (Z.to_nat want) b) = Z.to_nat want) as Hlt
      by (rewrite length_take; unfold len in *; lia).
    rewrite <- (take_drop (Z.to_nat want) b).
    apply frames_bind with (a := take (Z.to_nat want) b); [|by right|].
    + eapply frames_map_err; [by apply frames_ReadFull|done..].
    + rewrite app_assoc. apply IH.
      * rewrite len_app. unfold len at 2 3. rewrite Hlt, length_drop. unfold len in *. lia.
      * unfold len at 1. rewrite length_drop. unfold want, directReadLimit, len in *. lia.
Qed.

Lemma frames_readN n b : n = len b -> frames (readN n) b b UnexpectedEOF.
Proof.
  intros ->. unfold readN. destruct (len b <=? directReadLimit).
  - eapply frames_map_err; [apply frames_ReadFull; by rewrite to_nat_len|done..].
  - apply (frames_readN_loop _ _ []); [done|].
    pose proof (Z.mul_succ_div_gt (len b) directReadLimit ltac:(done)).
    pose proof (Z.div_pos (len b) directReadLimit (len_nonneg b) ltac:(done)).
    unfold directReadLimit in *. lia.
Qed.

Lemma frames_readBulk b :
  len b <= maxBulkLen ->
  frames readBulk ((FormatInt (len b) ++ CRLF) ++ b ++ CRLF) b UnexpectedEOF.
Proof.
  intros Hb. pose proof (len_nonneg b). unfold readBulk.
  apply frames_bind with (a := len b); [apply frames_readCount|by right|].
  - unfold is_int64, MinInt64, MaxInt64, maxBulkLen in *. lia.
  - rewrite !(proj2 (Z.ltb_ge _ _)) by lia. cbn [orb].
    apply frames_bind with (a := b); [by apply frames_readN|by right|].
    rewrite <- (app_nil_r CRLF).
    apply frames_bind with (a := tt); [apply frames_expectCRLF|by right|apply frames_ret].
Qed.

Lemma frames_readBulks args :
  Forall (λ a, len a <= maxBulkLen) args ->
  frames (readBulks (length args)) (concat (map client_writeArg args)) args UnexpectedEOF.
Proof.
  induction 1 as [|a args Ha Hargs IH]; [apply frames_ret|]. cbn [length readBulks map concat].
  unfold client_writeArg at 1. change (lit "$") with [byte_of_Z 36]. rewrite <- (app_assoc [_]).
  apply frames_bind with (a := byte_of_Z 36);
    [by eapply frames_map_err; [apply frames_ReadByte|..]|by right|].
  change (byte_val (byte_of_Z 36) =? 36) with true. cbn [negb].
  rewrite (app_assoc (FormatInt (len a))).
  apply frames_bind with (a := a); [by apply frames_readBulk|by right|].
  rewrite <- (app_nil_r (concat _)).
  apply frames_bind with (a := args); [exact IH|by right|apply frames_ret].
Qed.

Lemma frames_readMultiBulk args :
  0 < len args <= maxMultiBulkLen -> Forall (λ a, len a <= maxBulkLen) args ->
  frames readMultiBulk ((FormatInt (len args) ++ CRLF) ++ concat (map client_writeArg args))
    args UnexpectedEOF.
Proof.
  intros Hn Ha. unfold readMultiBulk.
  apply frames_bind with (a := len args); [apply frames_readCount|by right|].
  - unfold is_int64, MinInt64, MaxInt64, maxMultiBulkLen in *. lia.
  - rewrite (proj2 (Z.leb_gt _ _)), (proj2 (Z.ltb_ge _ _)) by lia. rewrite to_nat_len.
    by apply frames_readBulks.
Qed.

(** A request that starts with the multi-bulk marker. *)
Lemma ReadRequest_multi r : ReadRequest (byte_of_Z 42 :: r) = readMultiBulk r.
Proof. done. Qed.

Lemma frames_ReadRequest args buf :
  client_writeCommand args = Some buf -> len args <= maxMultiBulkLen ->
  Forall (λ a, len a <= maxBulkLen) args -> frames ReadRequest buf args EOF.
Proof.
  intros E Hn Ha.
  assert (0 < len args /\ buf = byte_of_Z 42 ::
    (FormatInt (len args) ++ CRLF) ++ concat (map client_writeArg args)) as [Hpos ->].
  { destruct args as [|a args']; [done|]. split; [rewrite len_cons; pose proof (len_nonneg args'); lia|].
    cbn [client_writeCommand] in E. apply (inj Some) in E.
    rewrite <- E, <- app_assoc. done. }
  destruct (frames_readMultiBulk args (conj Hpos Hn) Ha) as [H1 H2]. split.
  - intros rest. cbn [app]. rewrite ReadRequest_multi. apply H1.
  - intros [|c p] q Ep Hq; [done|]. injection Ep as <- Ep. rewrite ReadRequest_multi.
    rewrite (H2 p q Ep Hq). by destruct (bool_decide _).
Qed.

(** ** Lemmas: replies *)

(** Induction over replies with the elements of arrays. *)
Lemma Reply_nested_ind (P : Reply -> Prop) :
  P RNil -> (forall s, P (RSimple s)) -> (forall s, P (RError s)) -> (forall n, P (RInt n)) ->
  (forall b, P (RBulk b)) -> (forall es, Forall P es -> P (RArray es)) -> forall r, P r.
Proof.
  intros H1 H2 H3 H4 H5 H6. fix IH 1. intros [| | | | |es]; [auto..|].
  apply H6. induction es as [|e es IHes]; constructor; [apply IH|apply IHes].
Qed.

(** The bytes of a reply. *)
Fixpoint encode_reply (r : Reply) : bytes :=
  match r with
  | RNil => lit "$-1" ++ CRLF
  | RSimple s => byte_of_Z 43 :: s ++ CRLF
  | RError s => byte_of_Z 45 :: s ++ CRLF
  | RInt n => byte_of_Z 58 :: FormatInt n ++ CRLF
  | RBulk b => byte_of_Z 36 :: FormatInt (len b) ++ CRLF ++ b ++ CRLF
  | RArray es => byte_of_Z 42 :: FormatInt (len es) ++ CRLF ++ concat (map encode_reply es)
  end.

Lemma writeReply_encode r out :
  Writer_writeReply (mkWriter out false) r = mkWriter (out ++ encode_reply r) false.
Proof.
  revert out. induction r as [|s|s|n|b|es IH] using Reply_nested_ind; intros out;
    cbn [Writer_writeReply encode_reply];
    unfold Writer_writeFrame, Writer_writeBulk, Writer_writeString, Writer_write,
      Writer_writeByte, Writer_writeInt; cbn [w_err w_out]; rewrite <- ?app_assoc; try done.
  cbn [app]. set (start := out ++ byte_of_Z 42 :: FormatInt (len es) ++ CRLF).
  transitivity (mkWriter (start ++ concat (map encode_reply es)) false).
  - clearbody start. revert start. induction IH as [|e es He Hes IHes]; intros start.
    + by rewrite app_nil_r.
    + rewrite He, IHes. cbn [map concat]. by rewrite <- app_assoc.
  - unfold start. rewrite <- app_assoc. cbn [app]. by rewrite <- !app_assoc.
Qed.

(** What the client makes of a reply that is not an error. *)
Fixpoint client_view (r : Reply) : client_value :=
  match r with
  | RNil => CNil
  | RSimple s => CString s
  | RError _ => CNil
  | RInt n => CInt n
  | RBulk b => CString b
  | RArray es => CArray (map client_view es)
  end.

(** Replies the wire can carry: one-line texts, int64 numbers, sizes an [int]
    can hold, no error inside an array. *)
Fixpoint reply_ok (r : Reply) : Prop :=
  match r with
  | RNil => True
  | RSimple s => no_lf s
  | RError _ => False
  | RInt n => is_int64 n
  | RBulk b => len b + 2 <= MaxInt64
  | RArray es => len es <= MaxInt64 /\ foldr and True (map reply_ok es)
  end.

Fixpoint reply_depth (r : Reply) : nat :=
  match r with
  | RArray es => S (foldr max 0%nat (map reply_depth es))
  | _ => 1%nat
  end.

Lemma client_readLine_app s rest :
  no_lf s -> client_readLine (s ++ CRLF ++ rest) = (inl s, rest).
Proof.
  intros Hs. destruct (crlf_line s rest Hs) as (E1 & E2 & E3). unfold client_readLine.
  erewrite rbind_inl; cycle 1.
  { unfold ReadBytes_lf. rewrite E1, E2, E3. done. }
  cbn zeta. rewrite crlf_last, crlf_body, bool_decide_true by apply crlf_long. done.
Qed.

(** The first line of a reply: its marker byte and text. *)
Lemma client_line c s rest :
  byte_val c <> 10 -> no_lf s -> client_readLine ((c :: s) ++ CRLF ++ rest) = (inl (c :: s), rest).
Proof. intros. apply client_readLine_app. by constructor. Qed.

Lemma client_items_app rd es rest :
  Forall (λ e, forall rest, rd (encode_reply e ++ rest) = (inl (client_view e), rest)) es ->
  client_items rd (length es) (concat (map encode_reply es) ++ rest)
  = (inl (map client_view es), rest).
Proof.
  induction 1 as [|e es He Hes IH]; [done|]. cbn [length client_items map concat].
  by rewrite <- app_assoc, He, IH.
Qed.

Lemma client_readReply_encode r fuel rest :
  reply_ok r -> (reply_depth r <= fuel)%nat ->
  client_readReply fuel (encode_reply r ++ rest) = (inl (client_view r), rest).
Proof.
  revert fuel rest. induction r as [|s|s|n|b|es IH] using Reply_nested_ind;
    intros [|fuel] rest Hok Hd; try (simpl in Hd; lia); try done;
    cbn [client_readReply encode_reply client_view reply_ok] in *.
  - rewrite app_comm_cons, <- app_assoc, client_line by done.
    by change (byte_val (byte_of_Z 43)) with 43.
  - rewrite app_comm_cons, <- app_assoc, client_line by (done || apply FormatInt_no_lf).
    change (byte_val (byte_of_Z 58)) with 58. cbn [Z.eqb Pos.eqb].
    by rewrite ParseInt_FormatInt.
  - pose proof (len_nonneg b).
    assert (is_int64 (len b) /\ is_int64 (len b + 2)) as [? ?]
      by (unfold is_int64, MinInt64, MaxInt64 in *; lia).
    rewrite app_comm_cons, <- !app_assoc, client_line by (done || apply FormatInt_no_lf).
    change (byte_val (byte_of_Z 36)) with 36. cbn [Z.eqb Pos.eqb]. unfold Atoi.
    rewrite ParseInt_FormatInt, wrap64_id by done. rewrite !(proj2 (Z.ltb_ge _ _)) by lia.
    rewrite (app_assoc b), ReadFull_app.
    + by rewrite to_nat_len, take_app_length.
    + rewrite length_app. unfold len. simpl. lia.
  - destruct Hok as [Hl Hall]. pose proof (len_nonneg es).
    assert (is_int64 (len es)) by (unfold is_int64, MinInt64, MaxInt64 in *; lia).
    rewrite app_comm_cons, <- !app_assoc, client_line by (done || apply FormatInt_no_lf).
    change (byte_val (byte_of_Z 42)) with 42. cbn [Z.eqb Pos.eqb]. unfold Atoi.
    rewrite ParseInt_FormatInt by done. rewrite (proj2 (Z.ltb_ge _ _)), to_nat_len by lia.
    rewrite client_items_app; [done|]. cbn [reply_depth] in Hd. apply le_S_n in Hd.
    clear -IH Hall Hd. induction IH as [|e es He Hes IHes]; constructor.
    + intros rest. simpl in *. apply He; [tauto|lia].
    + simpl in *. apply IHes; [tauto|lia].
Qed.

Lemma client_readReply_error s fuel rest :
  no_lf s -> (1 <= fuel)%nat ->
  client_readReply fuel (encode_reply (RError s) ++ rest) = (inr (CServerError s), rest).
Proof.
  intros Hs Hf. destruct fuel as [|fuel]; [lia|]. cbn [client_readReply encode_reply].
  rewrite app_comm_cons, <- app_assoc, client_line by done.
  by change (byte_val (byte_of_Z 45)) with 45.
Qed.

(** ** Properties *)

(** C26. A request a client sends is the request the server reads, whatever the
    bytes of its arguments and whatever follows it on the connection: the reader
    takes exactly that request off the stream. A connection that ends inside the
    request yields [io.ErrUnexpectedEOF] and never a shortened request, and one
    that ends before it [io.EOF]. *)
Theorem request_roundtrip args buf :
  client_writeCommand args = Some buf -> len args <= maxMultiBulkLen ->
  Forall (λ a, len a <= maxBulkLen) args ->
  (forall rest, ReadRequest (buf ++ rest) = (inl args, rest)) /\
  (forall p q, buf = p ++ q -> q <> [] ->
    ReadRequest p = (inr (if bool_decide (p = []) then EOF else UnexpectedEOF), [])).
Proof. apply frames_ReadRequest. Qed.

Lemma request_roundtrip_witness :
  exists buf, client_writeCommand [lit "GET"; CRLF] = Some buf /\
    (forall rest, ReadRequest (buf ++ rest) = (inl [lit "GET"; CRLF], rest)).
Proof.
  eexists. split; [reflexivity|].
  apply (request_roundtrip [lit "GET"; CRLF] _ eq_refl).
  - vm_compute. discriminate.
  - repeat constructor; vm_compute; discriminate.
Defined.

(** C27. A reply the server writes is the reply the client decodes, arrays nested
    to any depth included, and the client takes exactly that reply off the
    stream; a one-line error reply arrives as the server's error. *)
Theorem reply_roundtrip r fuel rest :
  (reply_depth r <= fuel)%nat ->
  (reply_ok r ->
    client_readReply fuel (w_out (fst (WriteReply NewWriter r)) ++ rest)
    = (inl (client_view r), rest)) /\
  (forall s, r = RError s -> no_lf s ->
    client_readReply fuel (w_out (fst (WriteReply NewWriter r)) ++ rest)
    = (inr (CServerError s), rest)).
Proof.
  intros Hd. unfold WriteReply, NewWriter. rewrite writeReply_encode. cbn [fst w_out app]. split.
  - intros Hok. by apply client_readReply_encode.
  - intros s -> Hs. apply client_readReply_error; [done|]. simpl in Hd. lia.
Qed.

Lemma reply_roundtrip_witness :
  client_readReply 2 (w_out (fst (WriteReply NewWriter (RArray [RBulk CRLF; RInt (-7)]))) ++ lit "+")
  = (inl (CArray [CString CRLF; CInt (-7)]), lit "+").
Proof.
  apply (reply_roundtrip (RArray [RBulk CRLF; RInt (-7)]) 2 (lit "+")).
  - simpl. lia.
  - vm_compute. repeat split; discriminate.
Defined.

(** [Reply.Equal] decides equality of replies. *)
Lemma Reply_Equal_spec r o : Reply_Equal r o = true <-> r = o.
Proof.
  revert o. induction r as [|a|a|a|a|a IH] using Reply_nested_ind; intros [|b|b|b|b|b];
    cbn [Reply_Equal]; try (split; [discriminate|congruence]); try done.
  1, 2, 4: rewrite bool_decide_eq_true; split; congruence.
  - rewrite Z.eqb_eq. split; congruence.
  - transitivity (a = b); [|split; congruence].
    revert b. induction IH as [|x a Hx Ha IHa]; intros [|y b]; try (split; discriminate).
    + done.
    + rewrite andb_true_iff, Hx, IHa. split; [by intros [-> ->]|by intros [= -> ->]].
Qed.

(** A line break inside an error text splits the reply: the client reads a
    second, forged reply off the stream. The writer does not escape the text,
    and error texts quote client bytes verbatim, such as the name of an unknown
    command. *)
Lemma error_text_splits_reply s t fuel rest :
  no_lf s -> no_lf t -> (1 <= fuel)%nat ->
  let stream := w_out (fst (WriteReply NewWriter (RError (s ++ CRLF ++ lit "+" ++ t)))) ++ rest in
  client_readReply fuel stream = (inr (CServerError s), lit "+" ++ t ++ CRLF ++ rest) /\
  client_readReply fuel (lit "+" ++ t ++ CRLF ++ rest) = (inl (CString t), rest).
Proof.
  intros Hs Ht Hf. unfold WriteReply, NewWriter. rewrite writeReply_encode. cbn [fst w_out app].
  destruct fuel as [|fuel]; [lia|]. cbn [client_readReply encode_reply].
  change (lit "+") with [byte_of_Z 43]. split.
  - replace ((byte_of_Z 45 :: (s ++ CRLF ++ [byte_of_Z 43] ++ t) ++ CRLF) ++ rest)
      with ((byte_of_Z 45 :: s) ++ CRLF ++ [byte_of_Z 43] ++ t ++ CRLF ++ rest)
      by (cbn [app]; f_equal; by rewrite <- !app_assoc).
    rewrite client_line by done. by change (byte_val (byte_of_Z 45)) with 45.
  - cbn [app]. rewrite app_comm_cons, client_line by done.
    by change (byte_val (byte_of_Z 43)) with 43.
Qed.

