(* ===== verification/Config.v ===== *)
(** * internal/config: boot configuration and reloadable settings

    [Config] with its defaults and validation (config.go), and the subset of it
    that CONFIG SET changes at run time (settings.go). Durations are int64
    nanoseconds and wrap as the Go arithmetic does. *)

From S2P Require Import Prelude Strconv GoTime Pack.

(** ** config.go *)

Record Network := mkNetwork {
  Net_Host : bytes; Net_Port : Z; Net_Databases : Z; Net_Shards : Z }.
Record LogConfig := mkLog { Log_Level : Z; Log_Format : bytes }.
Record ExpiryGroup := mkExpiryGroup { Exp_Interval : Duration; Exp_SamplePerShard : Z }.
Record Persistence := mkPersistence {
  Per_Enabled : bool; Per_Dir : bytes; Per_FSync : bytes; Per_CompactEvery : Duration }.
Record Metrics := mkMetrics {
  Met_Enabled : bool; Met_Host : bytes; Met_Port : Z; Met_SlowThreshold : Duration }.
Record Config := mkConfig {
  cfg_Network : Network; cfg_Limits : Limits; cfg_Expiry : ExpiryGroup;
  cfg_Persistence : Persistence; cfg_Metrics : Metrics; cfg_Log : LogConfig }.

(** [defaultShards], from the number [procs] that [GOMAXPROCS] reports. *)
Definition defaultShards (procs : Z) : Z :=
  let n := wrap64 (procs * 16) in
  let n := if 1024 <? n then 1024 else n in
  if n <? 1 then 1 else n.

Definition Minute : Duration := 60 * Second.

Definition Config_Default (procs : Z) : Config :=
  let compact := mkThresholds 128 64 in
  mkConfig
    (mkNetwork (lit "127.0.0.1") 6380 16 (defaultShards procs))
    (mkLimits compact compact compact compact)
    (mkExpiryGroup (100 * Millisecond) 20)
    (mkPersistence false (lit "data") (lit "everysec") (5 * Minute))
    (mkMetrics false (lit "127.0.0.1") 9121 (10 * Millisecond))
    (mkLog 0 (lit "text")).

(** The invariant a configuration violates first. *)
Inductive config_error :=
  | HostEmpty | PortRange | DatabasesTooFew | ShardsTooFew | NegativeThresholds
  | NegativeInterval | NegativeSample | NoDirectory | BadFSync | MetricsPortRange
  | NegativeSlow | BadLogFormat.

Definition port_bad (p : Z) : bool := (p <? 1) || (65535 <? p).
Definition thresholds_bad (th : Thresholds) : bool := (MaxEntries th <? 0) || (MaxBytes th <? 0).
Definition one_of (s : bytes) (names : list bytes) : bool := bool_decide (s ∈ names).

Definition Validate (c : Config) : option config_error :=
  let n := cfg_Network c in
  let l := cfg_Limits c in
  let p := cfg_Persistence c in
  let m := cfg_Metrics c in
  if bool_decide (Net_Host n = []) then Some HostEmpty else
  if port_bad (Net_Port n) then Some PortRange else
  if Net_Databases n <? 1 then Some DatabasesTooFew else
  if Net_Shards n <? 1 then Some ShardsTooFew else
  if existsb thresholds_bad [lim_List l; lim_Hash l; lim_Set l; lim_ZSet l]
  then Some NegativeThresholds else
  if Exp_Interval (cfg_Expiry c) <? 0 then Some NegativeInterval else
  if Exp_SamplePerShard (cfg_Expiry c) <? 0 then Some NegativeSample else
  if Per_Enabled p && bool_decide (Per_Dir p = []) then Some NoDirectory else
  if Per_Enabled p && negb (one_of (Per_FSync p) [lit "always"; lit "everysec"; lit "no"])
  then Some BadFSync else
  if Met_Enabled m && port_bad (Met_Port m) then Some MetricsPortRange else
  if Met_SlowThreshold m <? 0 then Some NegativeSlow else
  if negb (one_of (Log_Format (cfg_Log c)) [lit "text"; lit "json"]) then Some BadLogFormat
  else None.

(** ** settings.go *)

Record Reloadable := mkReloadable {
  SlowThreshold : Duration; ExpirySample : Z; SlowLogEnabled : bool }.

(** [Settings] is an atomic pointer to the current [Reloadable]; [NewSettings]
    stores the first one and [Load] reads it. *)
Abbreviation Settings := Reloadable.

Definition paramSlowThreshold : bytes := lit "slowlog-threshold-ms".
Definition paramExpirySample : bytes := lit "expiry-sample-per-shard".
Definition paramSlowLog : bytes := lit "slowlog-enabled".

Definition boolParam (b : bool) : bytes := if b then lit "yes" else lit "no".

Definition parseBoolParam (s : bytes) : option bool :=
  if one_of s [lit "yes"; lit "1"; lit "true"] then Some true
  else if one_of s [lit "no"; lit "0"; lit "false"] then Some false
  else None.

Definition Settings_Get (r : Settings) (name : bytes) : option bytes :=
  if bool_decide (name = paramSlowThreshold) then Some (FormatInt (Milliseconds (SlowThreshold r)))
  else if bool_decide (name = paramExpirySample) then Some (Itoa (ExpirySample r))
  else if bool_decide (name = paramSlowLog) then Some (boolParam (SlowLogEnabled r))
  else None.

Definition Settings_All (r : Settings) : list (bytes * bytes) :=
  [(paramSlowThreshold, FormatInt (Milliseconds (SlowThreshold r)));
   (paramExpirySample, Itoa (ExpirySample r));
   (paramSlowLog, boolParam (SlowLogEnabled r))].

Inductive settings_error :=
  | MustBeNonNegative (name : bytes)
  | MustBeYesOrNo (name : bytes)
  | UnknownParameter (name : bytes).

Definition Settings_Set (r : Settings) (name val : bytes) : Settings + settings_error :=
  if bool_decide (name = paramSlowThreshold) then
    match Atoi val with
    | Some ms =>
        if ms <? 0 then inr (MustBeNonNegative name)
        else inl (mkReloadable (mul_duration ms Millisecond) (ExpirySample r) (SlowLogEnabled r))
    | None => inr (MustBeNonNegative name)
    end
  else if bool_decide (name = paramExpirySample) then
    match Atoi val with
    | Some n =>
        if n <? 0 then inr (MustBeNonNegative name)
        else inl (mkReloadable (SlowThreshold r) n (SlowLogEnabled r))
    | None => inr (MustBeNonNegative name)
    end
  else if bool_decide (name = paramSlowLog) then
    match parseBoolParam val with
    | Some b => inl (mkReloadable (SlowThreshold r) (ExpirySample r) b)
    | None => inr (MustBeYesOrNo name)
    end
  else inr (UnknownParameter name).

(** ** Properties *)

(** The default configuration is valid whatever the parallelism reported,
    with between 1 and 1024 shards. *)
Lemma Default_valid procs :
  Validate (Config_Default procs) = None /\ 1 <= defaultShards procs <= 1024.
Proof.
  assert (1 <= defaultShards procs <= 1024) as H.
  { unfold defaultShards. zcases. }
  split; [|done]. unfold Validate, Config_Default. cbn.
  by rewrite (proj2 (Z.ltb_ge _ _)) by lia.
Qed.

(** What a valid configuration guarantees the server. *)
Lemma Validate_None_databases c :
  Validate c = None -> 1 <= Net_Databases (cfg_Network c) /\ 1 <= Net_Shards (cfg_Network c).
Proof.
  unfold Validate. destruct (bool_decide _); [done|]. destruct (port_bad _); [done|].
  destruct (Z.ltb_spec (Net_Databases (cfg_Network c)) 1); [done|].
  destruct (Z.ltb_spec (Net_Shards (cfg_Network c)) 1); [done|]. done.
Qed.

(** The value CONFIG GET shows for a parameter after CONFIG SET accepted it. *)
Definition shown (name val : bytes) : option bytes :=
  if bool_decide (name = paramSlowLog) then boolParam <$> parseBoolParam val
  else FormatInt <$> Atoi val.

(** A CONFIG SET that is accepted is what CONFIG GET then shows, for a
    threshold that fits a duration; every other parameter keeps its value, and a
    sample budget is never negative. *)
Lemma Settings_Set_Get r name val r' :
  Settings_Set r name val = inl r' ->
  (name = paramSlowThreshold -> exists ms, Atoi val = Some ms /\ ms * 1000000 <= MaxInt64) ->
  Settings_Get r' name = shown name val /\
  (forall other, other <> name -> Settings_Get r' other = Settings_Get r other) /\
  (0 <= ExpirySample r -> 0 <= ExpirySample r').
Proof.
  unfold Settings_Set, shown, Settings_Get. intros E Hfit.
  destruct (bool_decide (name = paramSlowThreshold)) eqn:E1.
  { apply bool_decide_eq_true in E1. subst name.
    destruct (Hfit eq_refl) as (ms & Hms & Hle). rewrite Hms in E |- *.
    destruct (Z.ltb_spec ms 0); simplify_eq/=. split_and!; [| |done].
    - unfold mul_duration, Millisecond. rewrite wrap64_id.
      + unfold Milliseconds. by rewrite Z.quot_mul by lia.
      + unfold is_int64, MinInt64, MaxInt64 in *. lia.
    - intros other Ho. by rewrite !(bool_decide_false (other = paramSlowThreshold)). }
  destruct (bool_decide (name = paramExpirySample)) eqn:E2.
  { apply bool_decide_eq_true in E2. subst name. destruct (Atoi val) as [n|]; [|done].
    destruct (Z.ltb_spec n 0); simplify_eq/=. split_and!; [done| |done].
    intros other Ho. by rewrite !(bool_decide_false (other = paramExpirySample)). }
  destruct (bool_decide (name = paramSlowLog)) eqn:E3; [|done].
  apply bool_decide_eq_true in E3. subst name. destruct (parseBoolParam val) as [b|]; simplify_eq/=.
  split_and!; [done| |done].
  intros other Ho. by rewrite !(bool_decide_false (other = paramSlowLog)).
Qed.

(** A slow-log threshold too large for a duration is accepted and stored
    wrapped: the settings then report a negative threshold. *)
Lemma Settings_Set_threshold_wraps r :
  exists r', Settings_Set r paramSlowThreshold (lit "9223372036855") = inl r' /\
    SlowThreshold r' < 0 /\
    Settings_Get r' paramSlowThreshold = Some (lit "-9223372036854").
Proof. eexists. split; [reflexivity|]. split; reflexivity. Qed.
