(* ===== verification/Command.v ===== *)
(** * internal/command: the command handlers

    Each handler is translated in a monad over the session: it reads the clock,
    routes to the selected database, may panic, and returns a reply. A clock
    reading, the coin flips of a skip-list insertion and the iteration order of
    a map come from the environment [Env], one answer per question asked; every
    statement quantifies over it. [strconv.ParseFloat], [strconv.FormatFloat]
    and the [%q] quoting of an error text are parameters. *)

From S2P Require Import Prelude Pack Float64 ValueList ValueHash ValueSet ValueZSet.
From S2P Require Import GoTime Value Keyspace Shard Strconv Resp Config.

(** ** Sessions (command.go) *)

(** What the environment answers to the [i]-th question of a run. *)
Record Env := mkEnv {
  env_now : nat -> Time;
  env_coins : nat -> list bool;
  env_order : nat -> list nat }.

(** [Context]: [c_index] names the selected database, which the source also
    keeps as the pointer [Keyspace]. [c_tick] counts the questions asked, and
    [c_reaped] collects what UNLINK handed to the reaper. *)
Record CmdContext := mkCtx {
  c_databases : list DB;
  c_index : Z;
  c_limits : Limits;
  c_settings : option Settings;
  c_tick : nat;
  c_reaped : list Value }.

Definition NewContext (databases : list DB) (limits : Limits) (settings : option Settings) :
    CmdContext :=
  mkCtx databases 0 limits settings 0 [].

Definition set_tick (c : CmdContext) (n : nat) : CmdContext :=
  mkCtx (c_databases c) (c_index c) (c_limits c) (c_settings c) n (c_reaped c).
Definition set_index (c : CmdContext) (i : Z) : CmdContext :=
  mkCtx (c_databases c) i (c_limits c) (c_settings c) (c_tick c) (c_reaped c).
Definition set_settings (c : CmdContext) (s : Settings) : CmdContext :=
  mkCtx (c_databases c) (c_index c) (c_limits c) (Some s) (c_tick c) (c_reaped c).
Definition set_db (c : CmdContext) (db : DB) : CmdContext :=
  mkCtx (<[Z.to_nat (c_index c) := db]> (c_databases c)) (c_index c) (c_limits c) (c_settings c)
    (c_tick c) (c_reaped c).
Definition add_reaped (c : CmdContext) (v : option Value) : CmdContext :=
  match v with
  | Some v => mkCtx (c_databases c) (c_index c) (c_limits c) (c_settings c) (c_tick c)
                (c_reaped c ++ [v])
  | None => c
  end.

(** [Select]: [None] is the out-of-range error. *)
Definition Context_Select (c : CmdContext) (i : Z) : option CmdContext :=
  if (i <? 0) || (len (c_databases c) <=? i) then None else Some (set_index c i).

Definition Context_DB (c : CmdContext) : Z := c_index c.

(** ** The handlers' monad *)

Definition cmd (A : Type) : Type := CmdContext -> outcome (A * CmdContext).

Definition cret {A} (a : A) : cmd A := λ c, Ret (a, c).
Definition cbind {A B} (m : cmd A) (k : A -> cmd B) : cmd B := λ c, '(a, c) ← m c; k a c.
Definition lift {A} (m : outcome A) : cmd A := λ c, a ← m; Ret (a, c).

Notation "'do' x ':=' m 'in' k" := (cbind m (λ x, k))
  (at level 10, x pattern, m at level 100, k at level 200).

(** ** Letter case

    [strings.ToUpper], [ToLower] and [EqualFold] as far as a comparison with an
    ASCII keyword can tell: ASCII letters, and the letters outside ASCII whose
    case mapping is an ASCII letter (U+017F to S and U+0131 to I going up,
    U+212A to k and U+0130 to i going down). Every other character stays outside
    ASCII under the mappings. *)
Definition upper_ascii (b : byte) : byte :=
  if (97 <=? byte_val b) && (byte_val b <=? 122) then byte_of_Z (byte_val b - 32) else b.
Definition lower_ascii (b : byte) : byte :=
  if (65 <=? byte_val b) && (byte_val b <=? 90) then byte_of_Z (byte_val b + 32) else b.

(** Whether [s] starts with the bytes [p]. *)
Fixpoint has_prefix (p : list Z) (s : bytes) : bool :=
  match p, s with
  | [], _ => true
  | x :: p, b :: s => (byte_val b =? x) && has_prefix p s
  | _ :: _, [] => false
  end.

(** [skip] counts the bytes of a character already mapped. *)
Fixpoint map_case (special : bytes -> option (nat * Z)) (f : byte -> byte) (s : bytes) (skip : nat) :
    bytes :=
  match s with
  | [] => []
  | b :: s' =>
      match skip with
      | S skip => map_case special f s' skip
      | O =>
          match special s with
          | Some (n, c) => byte_of_Z c :: map_case special f s' n
          | None => f b :: map_case special f s' 0
          end
      end
  end.

Definition ToUpper (s : bytes) : bytes :=
  map_case (λ s, if has_prefix [197; 191] s then Some (1%nat, 83)
                 else if has_prefix [196; 177] s then Some (1%nat, 73) else None)
    upper_ascii s 0.

Definition ToLower (s : bytes) : bytes :=
  map_case (λ s, if has_prefix [226; 132; 170] s then Some (2%nat, 107)
                 else if has_prefix [196; 176] s then Some (1%nat, 105) else None)
    lower_ascii s 0.

(** [strings.EqualFold(s, kw)] for an upper-case keyword. *)
Definition EqualFold (s kw : bytes) : bool :=
  bool_decide (map_case (λ s, if has_prefix [197; 191] s then Some (1%nat, 83) else None)
                 upper_ascii s 0 = kw).

(** [args[i]]. *)
Definition arg (args : list bytes) (i : Z) : cmd bytes := lift (index args i).

(** [args[i:]]. *)
Definition args_from (args : list bytes) (i : Z) : cmd (list bytes) := lift (slice_from args i).

Section Handlers.
Context (maphash : bytes -> Z) (parseFloat : bytes -> option float64)
  (formatFloat : float64 -> bytes) (quote : bytes -> bytes) (E : Env).

Definition tick : cmd nat := λ c, Ret (c_tick c, set_tick c (S (c_tick c))).
Definition Now : cmd Time := do i := tick in cret (env_now E i).
Definition coins : cmd (list bool) := do i := tick in cret (env_coins E i).
Definition order : cmd (list nat) := do i := tick in cret (env_order E i).

(** The selected database, and a call on it. *)
Definition selected : cmd DB := λ c, db ← index (c_databases c) (c_index c); Ret (db, c).
Definition store_db (db : DB) : cmd unit := λ c, Ret (tt, set_db c db).

Definition k_Lookup (key : bytes) : cmd (option Entry) :=
  do now := Now in do db := selected in lift (DB_Lookup maphash now db key).
Definition k_GetBytes (key : bytes) : cmd (option Value) :=
  do now := Now in do db := selected in lift (DB_GetBytes maphash now db key).
Definition k_ExistsBytes (key : bytes) : cmd bool :=
  do now := Now in do db := selected in lift (DB_ExistsBytes maphash now db key).
Definition k_Set (key : bytes) (v : Value) : cmd unit :=
  do db := selected in do db := lift (DB_Set maphash db key v) in store_db db.
Definition k_SetEntry (key : bytes) (e : Entry) : cmd unit :=
  do db := selected in do db := lift (DB_SetEntry maphash db key e) in store_db db.
Definition k_mutate (key : bytes) (v : Value) : cmd unit :=
  do db := selected in do db := lift (DB_mutate maphash db key v) in store_db db.
Definition k_SetExpire (key : bytes) (at_ : Time) : cmd bool :=
  do now := Now in do db := selected in
  do (b, db) := lift (DB_SetExpire maphash now db key at_) in
  do _ := store_db db in cret b.
Definition k_Persist (key : bytes) : cmd bool :=
  do now := Now in do db := selected in
  do (b, db) := lift (DB_Persist maphash now db key) in
  do _ := store_db db in cret b.
Definition k_Delete (key : bytes) : cmd bool :=
  do now := Now in do db := selected in
  do (b, db) := lift (DB_Delete maphash now db key) in
  do _ := store_db db in cret b.
Definition k_Unlink (key : bytes) : cmd bool :=
  do now := Now in do db := selected in
  do (b, reaped, db) := lift (Unlink maphash now db key) in
  do _ := store_db db in
  λ c, Ret (b, add_reaped c reaped).
Definition k_Flush : cmd unit := do db := selected in store_db (DB_Flush db).

(** A loop over a list of arguments that counts the calls answering true. *)
Fixpoint count_true (f : bytes -> cmd bool) (l : list bytes) (n : Z) : cmd Z :=
  match l with
  | [] => cret n
  | x :: l => do b := f x in count_true f l (if b : bool then n + 1 else n)
  end.

(** ** Error texts (command.go) *)
Definition msgWrongType : bytes :=
  lit "WRONGTYPE Operation against a key holding the wrong kind of value".
Definition msgNotInteger : bytes := lit "ERR value is not an integer or out of range".
Definition msgArgs (name : bytes) : bytes :=
  lit "ERR wrong number of arguments for '" ++ name ++ lit "' command".

(** ** Strings (strings.go) *)

Definition cmdGet (args : list bytes) : cmd Reply :=
  do key := arg args 1 in
  do v := k_GetBytes key in
  match v with
  | None => cret RNil
  | Some v =>
      if bool_decide (Value_Kind v <> KindString) then cret (RError msgWrongType)
      else do s := lift (Value_Str v) in cret (RBulk s)
  end.

Definition cmdSet (args : list bytes) : cmd Reply :=
  do key := arg args 1 in
  do val := arg args 2 in
  do _ := k_Set key (MakeString val) in
  cret Reply_OK.

Definition incr_overflows (cur delta : Z) : bool :=
  ((0 <? delta) && (wrap64 (MaxInt64 - delta) <? cur)) ||
  ((delta <? 0) && (cur <? wrap64 (MinInt64 - delta))).

(** The arithmetic and the store of [incrBy], once the current value is known. *)
Definition incr_store (key : bytes) (e : option Entry) (cur delta : Z) : cmd Reply :=
  if incr_overflows cur delta
  then cret (RError (lit "ERR increment or decrement would overflow"))
  else
    let cur := wrap64 (cur + delta) in
    let next := MakeString (FormatInt cur) in
    do _ := match e with
            | Some e => k_SetEntry key (mkEntry next (e_ExpireAt e))
            | None => k_Set key next
            end in
    cret (RInt cur).

Definition incrBy (key : bytes) (delta : Z) : cmd Reply :=
  do e := k_Lookup key in
  match e with
  | None => incr_store key None 0 delta
  | Some en =>
      if bool_decide (Value_Kind (e_Value en) <> KindString) then cret (RError msgWrongType)
      else
        do s := lift (Value_Str (e_Value en)) in
        match ParseInt s with
        | None => cret (RError msgNotInteger)
        | Some n => incr_store key (Some en) n delta
        end
  end.

Definition cmdIncr (args : list bytes) : cmd Reply := do key := arg args 1 in incrBy key 1.
Definition cmdDecr (args : list bytes) : cmd Reply := do key := arg args 1 in incrBy key (-1).

(** ** Keys (keys.go) *)

Definition cmdDel (args : list bytes) : cmd Reply :=
  do raws := args_from args 1 in
  do n := count_true k_Delete raws 0 in
  cret (RInt n).

Definition cmdUnlink (args : list bytes) : cmd Reply :=
  do raws := args_from args 1 in
  do n := count_true k_Unlink raws 0 in
  cret (RInt n).

Definition cmdExists (args : list bytes) : cmd Reply :=
  do raws := args_from args 1 in
  do n := count_true k_ExistsBytes raws 0 in
  cret (RInt n).

Definition bool_reply (b : bool) : Reply := RInt (if b then 1 else 0).

Definition cmdExpire (args : list bytes) : cmd Reply :=
  do a2 := arg args 2 in
  match ParseInt a2 with
  | None => cret (RError msgNotInteger)
  | Some secs =>
      do now := Now in
      let at_ := time_Add now (mul_duration secs Second) in
      do key := arg args 1 in
      do b := k_SetExpire key at_ in
      cret (bool_reply b)
  end.

Definition cmdPExpireAt (args : list bytes) : cmd Reply :=
  do a2 := arg args 2 in
  match ParseInt a2 with
  | None => cret (RError msgNotInteger)
  | Some ms =>
      do key := arg args 1 in
      do b := k_SetExpire key (time_UnixMilli ms) in
      cret (bool_reply b)
  end.

Definition cmdTTL (args : list bytes) : cmd Reply :=
  do key := arg args 1 in
  do e := k_Lookup key in
  match e with
  | None => cret (RInt (-2))
  | Some e =>
      if negb (HasExpiry e) then cret (RInt (-1))
      else
        do now := Now in
        let ms := Milliseconds (time_Sub (e_ExpireAt e) now) in
        let ms := if ms <? 0 then 0 else ms in
        cret (RInt (Z.quot (ms + 500) 1000))
  end.

Definition cmdPersist (args : list bytes) : cmd Reply :=
  do key := arg args 1 in
  do b := k_Persist key in
  cret (bool_reply b).

Definition cmdType (args : list bytes) : cmd Reply :=
  do key := arg args 1 in
  do e := k_Lookup key in
  match e with
  | None => cret (RSimple (lit "none"))
  | Some e => cret (RSimple (Kind_String (Value_Kind (e_Value e))))
  end.
(** ** Collections

    The common head of the write handlers: the live entry at [key], whose kind
    must be [kind], or none. *)
Definition lookup_kind (key : bytes) (kind : Kind) : cmd (option Entry + Reply) :=
  do e := k_Lookup key in
  cret match e with
       | None => inl None
       | Some e => if bool_decide (Value_Kind (e_Value e) <> kind)
                   then inr (RError msgWrongType) else inl (Some e)
       end.

(** The collection [v] after its mutation: stored under a new key, or already
    in place in the entry it came from. *)
Definition store_collection (key : bytes) (existing : bool) (v : Value) : cmd unit :=
  if existing then k_mutate key v else k_Set key v.

(** ** Lists (lists.go) *)

Definition list_push (front : bool) (l : List) (v : bytes) : outcome List :=
  if front then List_PushFront l v else List_PushBack l v.

Definition listPush (args : list bytes) (front : bool) : cmd Reply :=
  do key := arg args 1 in
  do e := lookup_kind key KindList in
  match e with
  | inr reply => cret reply
  | inl e =>
      do l := match e with
              | Some e => lift (Value_List (e_Value e))
              | None => λ c, Ret (NewList (lim_List (c_limits c)), c)
              end in
      do vs := args_from args 2 in
      do l := lift (ofold (list_push front) vs l) in
      do _ := store_collection key (bool_decide (is_Some e)) (MakeList l) in
      cret (RInt (List_Len l))
  end.

Definition cmdLPush (args : list bytes) : cmd Reply := listPush args true.
Definition cmdRPush (args : list bytes) : cmd Reply := listPush args false.

Definition list_pop (front : bool) (l : List) : outcome (option bytes * List) :=
  if front then List_PopFront l else List_PopBack l.

(** The loop [for i := 0; i < count; i++] with its early exit; it ends with the
    list, so it is structural on the elements left. *)
Fixpoint pop_loop (fuel : nat) (front : bool) (count : Z) (l : List) (out : list Reply) :
    outcome (list Reply * List) :=
  if count <=? 0 then Ret (out, l) else
  match fuel with
  | O => Diverge
  | S fuel =>
      '(v, l) ← list_pop front l;
      match v with
      | None => Ret (out, l)
      | Some v => pop_loop fuel front (count - 1) l (out ++ [RBulk v])
      end
  end.

(** [make([]resp.Reply, 0, count)]: a [Reply] is 80 bytes, and a capacity past
    the 48-bit address space panics. *)
Definition make_replies (count : Z) : outcome unit :=
  if 2 ^ 48 <? count * 80 then Panic MakeSliceLen else Ret tt.

(** The collection [v], now of size [n], stays in its entry; the key of an
    emptied one is deleted. *)
Definition finish_remove (key : bytes) (v : Value) (n : Z) : cmd unit :=
  do _ := k_mutate key v in
  if n =? 0 then do _ := k_Delete key in cret tt else cret tt.

Definition pop_count (args : list bytes) : cmd ((Z * bool) + Reply) :=
  if len args =? 3 then
    do a2 := arg args 2 in
    cret match Atoi a2 with
         | None => inr (RError msgNotInteger)
         | Some n => if n <? 0
                     then inr (RError (lit "ERR value is out of range, must be positive"))
                     else inl (n, true)
         end
  else cret (inl (1, false)).

Definition listPop (args : list bytes) (front : bool) : cmd Reply :=
  if 3 <? len args then do name := arg args 0 in cret (RError (msgArgs name)) else
  do r := pop_count args in
  match r with
  | inr reply => cret reply
  | inl (count, counted) =>
      do key := arg args 1 in
      do e := lookup_kind key KindList in
      match e with
      | inr reply => cret reply
      | inl None => cret RNil
      | inl (Some e) =>
          do l := lift (Value_List (e_Value e)) in
          if counted : bool then
            do _ := lift (make_replies count) in
            do (out, l) := lift (pop_loop (S (Z.to_nat (List_Len l))) front count l []) in
            do _ := finish_remove key (MakeList l) (List_Len l) in
            cret (RArray out)
          else
            do (v, l) := lift (list_pop front l) in
            do _ := finish_remove key (MakeList l) (List_Len l) in
            cret (RBulk (default [] v))
      end
  end.

Definition cmdLPop (args : list bytes) : cmd Reply := listPop args true.
Definition cmdRPop (args : list bytes) : cmd Reply := listPop args false.

Definition bulks (es : list bytes) : Reply := RArray (map RBulk es).

Definition cmdLRange (args : list bytes) : cmd Reply :=
  do a2 := arg args 2 in
  do a3 := arg args 3 in
  match Atoi a2, Atoi a3 with
  | Some start, Some stop =>
      do key := arg args 1 in
      do e := lookup_kind key KindList in
      match e with
      | inr reply => cret reply
      | inl None => cret (RArray [])
      | inl (Some e) =>
          do l := lift (Value_List (e_Value e)) in
          do es := lift (List_Range l start stop) in
          cret (bulks es)
      end
  | _, _ => cret (RError msgNotInteger)
  end.

Definition cmdLLen (args : list bytes) : cmd Reply :=
  do key := arg args 1 in
  do e := lookup_kind key KindList in
  match e with
  | inr reply => cret reply
  | inl None => cret (RInt 0)
  | inl (Some e) => do l := lift (Value_List (e_Value e)) in cret (RInt (List_Len l))
  end.

(** ** Hashes (hashes.go) *)

(** The loop over field and value arguments from [args[2]] on. *)
Fixpoint hash_set_loop (l : list bytes) (h : Hash) (added : Z) : outcome (Z * Hash) :=
  match l with
  | f :: v :: l => '(new, h) ← Hash_Set h f v; hash_set_loop l h (if new : bool then added + 1 else added)
  | _ => Ret (added, h)
  end.

Definition cmdHSet (args : list bytes) : cmd Reply :=
  if negb (len args mod 2 =? 0) then cret (RError (msgArgs (lit "hset"))) else
  do key := arg args 1 in
  do e := lookup_kind key KindHash in
  match e with
  | inr reply => cret reply
  | inl e =>
      do h := match e with
              | Some e => lift (Value_Hash (e_Value e))
              | None => λ c, Ret (NewHash (lim_Hash (c_limits c)), c)
              end in
      do fvs := args_from args 2 in
      do (added, h) := lift (hash_set_loop fvs h 0) in
      do _ := store_collection key (bool_decide (is_Some e)) (MakeHash h) in
      cret (RInt added)
  end.

Definition cmdHGet (args : list bytes) : cmd Reply :=
  do key := arg args 1 in
  do e := lookup_kind key KindHash in
  match e with
  | inr reply => cret reply
  | inl None => cret RNil
  | inl (Some e) =>
      do h := lift (Value_Hash (e_Value e)) in
      do field := arg args 2 in
      do v := lift (Hash_Get h field) in
      cret match v with Some v => RBulk v | None => RNil end
  end.

Fixpoint hash_delete_loop (fs : list bytes) (h : Hash) (removed : Z) : outcome (Z * Hash) :=
  match fs with
  | [] => Ret (removed, h)
  | f :: fs =>
      '(b, h) ← Hash_Delete h f;
      hash_delete_loop fs h (if b : bool then removed + 1 else removed)
  end.

Definition cmdHDel (args : list bytes) : cmd Reply :=
  do key := arg args 1 in
  do e := lookup_kind key KindHash in
  match e with
  | inr reply => cret reply
  | inl None => cret (RInt 0)
  | inl (Some e) =>
      do h := lift (Value_Hash (e_Value e)) in
      do fs := args_from args 2 in
      do (removed, h) := lift (hash_delete_loop fs h 0) in
      do _ := finish_remove key (MakeHash h) (Hash_Len h) in
      cret (RInt removed)
  end.

Definition cmdHGetAll (args : list bytes) : cmd Reply :=
  do key := arg args 1 in
  do e := lookup_kind key KindHash in
  match e with
  | inr reply => cret reply
  | inl None => cret (RArray [])
  | inl (Some e) =>
      do h := lift (Value_Hash (e_Value e)) in
      do seed := order in
      do pairs := lift (Hash_Pairs seed h) in
      cret (bulks pairs)
  end.

(** ** Sets (sets.go) *)

Fixpoint set_add_loop (ms : list bytes) (s : GoSet) (added : Z) : outcome (Z * GoSet) :=
  match ms with
  | [] => Ret (added, s)
  | m :: ms =>
      '(b, s) ← Set_Add s m; set_add_loop ms s (if b : bool then added + 1 else added)
  end.

Definition cmdSAdd (args : list bytes) : cmd Reply :=
  do key := arg args 1 in
  do e := lookup_kind key KindSet in
  match e with
  | inr reply => cret reply
  | inl e =>
      do s := match e with
              | Some e => lift (Value_Set (e_Value e))
              | None => λ c, Ret (NewSet (lim_Set (c_limits c)), c)
              end in
      do ms := args_from args 2 in
      do (added, s) := lift (set_add_loop ms s 0) in
      do _ := store_collection key (bool_decide (is_Some e)) (MakeSet s) in
      cret (RInt added)
  end.

Fixpoint set_remove_loop (ms : list bytes) (s : GoSet) (removed : Z) : outcome (Z * GoSet) :=
  match ms with
  | [] => Ret (removed, s)
  | m :: ms =>
      '(b, s) ← Set_Remove s m; set_remove_loop ms s (if b : bool then removed + 1 else removed)
  end.

Definition cmdSRem (args : list bytes) : cmd Reply :=
  do key := arg args 1 in
  do e := lookup_kind key KindSet in
  match e with
  | inr reply => cret reply
  | inl None => cret (RInt 0)
  | inl (Some e) =>
      do s := lift (Value_Set (e_Value e)) in
      do ms := args_from args 2 in
      do (removed, s) := lift (set_remove_loop ms s 0) in
      do _ := finish_remove key (MakeSet s) (Set_Len s) in
      cret (RInt removed)
  end.

Definition cmdSMembers (args : list bytes) : cmd Reply :=
  do key := arg args 1 in
  do e := lookup_kind key KindSet in
  match e with
  | inr reply => cret reply
  | inl None => cret (RArray [])
  | inl (Some e) =>
      do s := lift (Value_Set (e_Value e)) in
      do seed := order in
      do ms := lift (Set_Members seed s) in
      cret (bulks ms)
  end.

(** The first loop of [cmdSInter]: the sets at the keys, or the reply that ends
    the command early. *)
Fixpoint inter_sets (keys : list bytes) (sets : list GoSet) : cmd (list GoSet + Reply) :=
  match keys with
  | [] => cret (inl sets)
  | raw :: keys =>
      do e := k_Lookup raw in
      match e with
      | None => cret (inr (RArray []))
      | Some e =>
          if bool_decide (Value_Kind (e_Value e) <> KindSet) then cret (inr (RError msgWrongType))
          else do s := lift (Value_Set (e_Value e)) in inter_sets keys (sets ++ [s])
      end
  end.

(** The index of the smallest set, the first of several. *)
Fixpoint smallest_from (sets : list GoSet) (i : nat) (best : nat) (bestLen : Z) : nat :=
  match sets with
  | [] => best
  | s :: sets =>
      if Set_Len s <? bestLen then smallest_from sets (S i) i (Set_Len s)
      else smallest_from sets (S i) best bestLen
  end.

(** Whether every set but the one at [smallest] contains [m]. *)
Fixpoint in_all (sets : list GoSet) (i smallest : nat) (m : bytes) : outcome bool :=
  match sets with
  | [] => Ret true
  | s :: sets =>
      if bool_decide (i = smallest) then in_all sets (S i) smallest m
      else
        b ← Set_Contains s m;
        if b : bool then in_all sets (S i) smallest m else Ret false
  end.

Fixpoint inter_members (sets : list GoSet) (smallest : nat) (ms : list bytes) (out : list Reply) :
    outcome (list Reply) :=
  match ms with
  | [] => Ret out
  | m :: ms =>
      b ← in_all sets 0 smallest m;
      inter_members sets smallest ms (if b : bool then out ++ [RBulk m] else out)
  end.

Definition cmdSInter (args : list bytes) : cmd Reply :=
  do keys := args_from args 1 in
  do r := inter_sets keys [] in
  match r with
  | inr reply => cret reply
  | inl sets =>
      do s0 := lift (index sets 0) in
      let smallest := smallest_from sets 0 0 (Set_Len s0) in
      do s := lift (index sets (Z.of_nat smallest)) in
      do seed := order in
      do ms := lift (Set_Members seed s) in
      do out := lift (inter_members sets smallest ms []) in
      cret (RArray out)
  end.

(** ** Sorted sets (zsets.go) *)

Definition formatScore (f : float64) : bytes :=
  if IsInf f 1 then lit "inf" else if IsInf f (-1) then lit "-inf" else formatFloat f.

(** The first loop of [cmdZAdd]: every score parsed before anything is stored. *)
Fixpoint parse_pairs (l : list bytes) : option (list (float64 * bytes)) :=
  match l with
  | sc :: m :: l =>
      score ← parseFloat sc;
      if IsNaN score then None else
      ps ← parse_pairs l;
      Some ((score, m) :: ps)
  | _ => Some []
  end.

Fixpoint zadd_loop (ps : list (float64 * bytes)) (z : ZSet) (added : Z) : cmd (Z * ZSet) :=
  match ps with
  | [] => cret (added, z)
  | (score, m) :: ps =>
      do cs := coins in
      do (b, z, _) := lift (ZSet_Add cs z m score) in
      zadd_loop ps z (if b : bool then added + 1 else added)
  end.

Definition cmdZAdd (args : list bytes) : cmd Reply :=
  if negb (len args mod 2 =? 0) then cret (RError (msgArgs (lit "zadd"))) else
  do rest := args_from args 2 in
  match parse_pairs rest with
  | None => cret (RError (lit "ERR value is not a valid float"))
  | Some pairs =>
      do key := arg args 1 in
      do e := lookup_kind key KindZSet in
      match e with
      | inr reply => cret reply
      | inl e =>
          do z := match e with
                  | Some e => lift (Value_ZSet (e_Value e))
                  | None => λ c, Ret (NewZSet (lim_ZSet (c_limits c)), c)
                  end in
          do (added, z) := zadd_loop pairs z 0 in
          do _ := store_collection key (bool_decide (is_Some e)) (MakeZSet z) in
          cret (RInt added)
      end
  end.

(** Whether scores are wanted, or the syntax error. *)
Definition zrange_form (args : list bytes) : cmd (option bool) :=
  if len args =? 4 then cret (Some false)
  else if len args =? 5 then
    do a4 := arg args 4 in
    cret (if EqualFold a4 (lit "WITHSCORES") then Some true else None)
  else cret None.

Definition cmdZRange (args : list bytes) : cmd Reply :=
  do form := zrange_form args in
  match form with
  | None => cret (RError (lit "ERR syntax error"))
  | Some withScores =>
      do a2 := arg args 2 in
      do a3 := arg args 3 in
      match Atoi a2, Atoi a3 with
      | Some start, Some stop =>
          do key := arg args 1 in
          do e := lookup_kind key KindZSet in
          match e with
          | inr reply => cret reply
          | inl None => cret (RArray [])
          | inl (Some e) =>
              do z := lift (Value_ZSet (e_Value e)) in
              do ms := lift (ZSet_Range z start stop) in
              cret (RArray (if withScores : bool
                            then concat (map (λ p, [RBulk p.1; RBulk (formatScore p.2)]) ms)
                            else map (λ p, RBulk p.1) ms))
          end
      | _, _ => cret (RError msgNotInteger)
      end
  end.

Definition cmdZScore (args : list bytes) : cmd Reply :=
  do key := arg args 1 in
  do e := lookup_kind key KindZSet in
  match e with
  | inr reply => cret reply
  | inl None => cret RNil
  | inl (Some e) =>
      do z := lift (Value_ZSet (e_Value e)) in
      do m := arg args 2 in
      do s := lift (ZSet_Score z m) in
      cret match s with Some s => RBulk (formatScore s) | None => RNil end
  end.

(** ** Server commands (server.go) *)

Definition cmdPing (args : list bytes) : cmd Reply :=
  if len args =? 1 then cret (RSimple (lit "PONG"))
  else if len args =? 2 then do a := arg args 1 in cret (RBulk a)
  else cret (RError (msgArgs (lit "ping"))).

Definition cmdSelect (args : list bytes) : cmd Reply :=
  do a := arg args 1 in
  match Atoi a with
  | None => cret (RError msgNotInteger)
  | Some idx =>
      λ c, match Context_Select c idx with
           | None => Ret (RError (lit "ERR DB index is out of range"), c)
           | Some c => Ret (Reply_OK, c)
           end
  end.

Definition cmdFlushDB (args : list bytes) : cmd Reply :=
  do _ := k_Flush in cret Reply_OK.

(** The text of a settings error, as [fmt.Errorf] builds it. *)
Definition settings_error_text (e : settings_error) : bytes :=
  lit "config: invalid: " ++
  match e with
  | MustBeNonNegative name => name ++ lit " must be a non-negative integer"
  | MustBeYesOrNo name => name ++ lit " must be yes or no"
  | UnknownParameter name => lit "unknown or non-reloadable parameter " ++ quote name
  end.

Definition configGet (s : Settings) (pattern : bytes) : Reply :=
  if bool_decide (pattern = lit "*")
  then RArray (concat (map (λ kv, [RBulk kv.1; RBulk kv.2]) (Settings_All s)))
  else match Settings_Get s (ToLower pattern) with
       | Some v => RArray [RBulk (ToLower pattern); RBulk v]
       | None => RArray []
       end.

Definition cmdConfig (args : list bytes) : cmd Reply := λ c,
  match c_settings c with
  | None => Ret (RError (lit "ERR CONFIG is unavailable"), c)
  | Some s =>
      (do a1 := arg args 1 in
       if bool_decide (ToUpper a1 = lit "GET") then
         if negb (len args =? 3)
         then cret (RError (msgArgs (lit "config|get")))
         else do a2 := arg args 2 in cret (configGet s a2)
       else if bool_decide (ToUpper a1 = lit "SET") then
         if negb (len args =? 4)
         then cret (RError (msgArgs (lit "config|set")))
         else
           do a2 := arg args 2 in
           do a3 := arg args 3 in
           match Settings_Set s (ToLower a2) a3 with
           | inr e => cret (RError (lit "ERR " ++ settings_error_text e))
           | inl s => λ c, Ret (Reply_OK, set_settings c s)
           end
       else cret (RError (lit "ERR unknown CONFIG subcommand '" ++ a1 ++ lit "'"))) c
  end.

(** ** The command table (command.go, registry.go) *)

Record Command := mkCommand {
  cmd_name : bytes;
  cmd_arity : Z;
  cmd_run : list bytes -> cmd Reply;
  cmd_readOnly : bool;
  cmd_wholeDB : bool;
  cmd_firstKey : Z;
  cmd_lastKey : Z;
  cmd_keyStep : Z }.

Definition plain (name : string) arity run : Command :=
  mkCommand (lit name) arity run false false 0 0 0.
Definition readKey (name : string) arity run : Command :=
  mkCommand (lit name) arity run true false 1 1 1.
Definition writeKey (name : string) arity run : Command :=
  mkCommand (lit name) arity run false false 1 1 1.
Definition readKeys (name : string) arity run : Command :=
  mkCommand (lit name) arity run true false 1 (-1) 1.
Definition writeKeys (name : string) arity run : Command :=
  mkCommand (lit name) arity run false false 1 (-1) 1.
Definition wholeDB (name : string) arity run : Command :=
  mkCommand (lit name) arity run false true 0 0 0.

Definition stringCommands : list Command :=
  [readKey "get" 2 cmdGet; writeKey "set" 3 cmdSet; writeKey "incr" 2 cmdIncr;
   writeKey "decr" 2 cmdDecr].
Definition keyCommands : list Command :=
  [writeKeys "del" (-2) cmdDel; writeKeys "unlink" (-2) cmdUnlink;
   readKeys "exists" (-2) cmdExists; writeKey "expire" 3 cmdExpire;
   writeKey "pexpireat" 3 cmdPExpireAt; readKey "ttl" 2 cmdTTL;
   writeKey "persist" 2 cmdPersist; readKey "type" 2 cmdType].
Definition listCommands : list Command :=
  [writeKey "lpush" (-3) cmdLPush; writeKey "rpush" (-3) cmdRPush; writeKey "lpop" (-2) cmdLPop;
   writeKey "rpop" (-2) cmdRPop; readKey "lrange" 4 cmdLRange; readKey "llen" 2 cmdLLen].
Definition hashCommands : list Command :=
  [writeKey "hset" (-4) cmdHSet; readKey "hget" 3 cmdHGet; writeKey "hdel" (-3) cmdHDel;
   readKey "hgetall" 2 cmdHGetAll].
Definition setCommands : list Command :=
  [writeKey "sadd" (-3) cmdSAdd; writeKey "srem" (-3) cmdSRem; readKey "smembers" 2 cmdSMembers;
   readKeys "sinter" (-2) cmdSInter].
Definition zsetCommands : list Command :=
  [writeKey "zadd" (-4) cmdZAdd; readKey "zrange" (-4) cmdZRange; readKey "zscore" 3 cmdZScore].
Definition serverCommands : list Command :=
  [plain "ping" (-1) cmdPing; plain "select" 2 cmdSelect; plain "config" (-2) cmdConfig;
   wholeDB "flushdb" (-1) cmdFlushDB].

(** [register]: the table after adding [cmds]; [None] is the panic on a
    duplicate name. *)
Fixpoint register (r : gmap bytes Command) (cmds : list Command) : option (gmap bytes Command) :=
  match cmds with
  | [] => Some r
  | c :: cmds =>
      match r !! cmd_name c with
      | Some _ => None
      | None => register (<[cmd_name c := c]> r) cmds
      end
  end.

Definition NewRegistry : option (gmap bytes Command) :=
  r ← register ∅ stringCommands;
  r ← register r keyCommands;
  r ← register r listCommands;
  r ← register r hashCommands;
  r ← register r setCommands;
  r ← register r zsetCommands;
  register r serverCommands.

Definition maxCommandNameLen : Z := 32.

(** [lookupFold]: only the ASCII upper-case letters are folded. *)
Definition lookupFold (r : gmap bytes Command) (name : bytes) : option Command :=
  if (len name =? 0) || (maxCommandNameLen <? len name) then None
  else r !! map lower_ascii name.

Definition accepts (c : Command) (n : Z) : bool :=
  if 0 <=? cmd_arity c then n =? cmd_arity c else - cmd_arity c <=? n.

(** [Lookup], by the lower-cased name. *)
Definition Registry_Lookup (r : gmap bytes Command) (name : bytes) : option Command := r !! name.

Definition Resolve (r : gmap bytes Command) (args : list bytes) : Command + Reply :=
  match args with
  | [] => inr (RError (lit "ERR empty command"))
  | name :: _ =>
      match lookupFold r name with
      | None => inr (RError (lit "ERR unknown command '" ++ name ++ lit "'"))
      | Some c =>
          if accepts c (len args) then inl c
          else inr (RError (msgArgs (cmd_name c)))
      end
  end.

Definition Dispatch (r : gmap bytes Command) (args : list bytes) : cmd Reply :=
  match Resolve r args with
  | inr reply => cret reply
  | inl c => cmd_run c args
  end.

Definition SingleKey (c : Command) : bool :=
  (cmd_firstKey c =? 1) && (cmd_lastKey c =? 1) && (cmd_keyStep c =? 1) && negb (cmd_wholeDB c).

(** The loop [for i := firstKey; i <= last; i += keyStep]. *)
Fixpoint keys_loop (fuel : nat) (args : list bytes) (i last step : Z) : outcome (list bytes) :=
  if last <? i then Ret [] else
  match fuel with
  | O => Diverge
  | S fuel => k ← index args i; ks ← keys_loop fuel args (i + step) last step; Ret (k :: ks)
  end.

Definition Command_Keys (c : Command) (args : list bytes) : outcome (list bytes) :=
  if (cmd_firstKey c =? 0) || cmd_wholeDB c then Ret [] else
  let last := if cmd_lastKey c <? 0 then len args + cmd_lastKey c else cmd_lastKey c in
  let last := if len args <=? last then len args - 1 else last in
  if last <? cmd_firstKey c then Ret []
  else keys_loop (S (Z.to_nat last)) args (cmd_firstKey c) last (cmd_keyStep c).
End Handlers.
