(* ===== verification/Session.v ===== *)
(** * Sessions against abstract stores

    The abstract store of a database maps keys to abstract values with
    deadlines; an entry past its deadline counts as absent. [sess] relates a
    session to the stores of its databases at a time, and each database call of
    a handler is proved against them: this is the interface the handler proofs
    in CommandSpec use. *)

From S2P Require Import Prelude Pack Float64 ValueList ValueHash ValueSet ValueZSet.
From S2P Require Import GoTime Value Keyspace Shard Strconv Resp Config Command.

(** ** Abstract stores *)

Abbreviation astore := (gmap bytes (avalue * Time)).

Definition dead (d t : Time) : bool := negb (IsZero d) && negb (Before t d).

(** The live value and deadline at [key] at time [t]. *)
Definition get (t : Time) (A : astore) (key : bytes) : option (avalue * Time) :=
  match A !! key with
  | Some (v, d) => if dead d t then None else Some (v, d)
  | None => None
  end.

Definition entry_rel (o : option Entry) (a : option (avalue * Time)) : Prop :=
  match o, a with
  | Some e, Some (v, d) => value_rep (e_Value e) v /\ e_ExpireAt e = d
  | None, None => True
  | _, _ => False
  end.

Section Sessions.
Context (maphash : bytes -> Z).

(** [db] is the live map [s], and every value it stores, those of expired entries
    not yet reclaimed included, represents one. *)
Definition db_holds (db : DB) (s : Time * gmap bytes Entry) : Prop :=
  db_rep maphash db s /\ all_values value_wf db.

(** The database [db] holds [A] at time [t]. *)
Definition db_abs (db : DB) (t : Time) (A : astore) : Prop :=
  exists m, db_holds db (t, m) /\ forall k, entry_rel (m !! k) (get t A k).

(** The session's databases hold [As] at [t], the clock readings to come start
    from [t] and do not go back, and the selected database exists. *)
Definition sess (E : Env) (c : CmdContext) (t : Time) (As : list astore) : Prop :=
  Forall2 (λ db A, db_abs db t A) (c_databases c) As /\
  0 <= c_index c < len (c_databases c) /\
  t <= env_now E (c_tick c) /\
  (forall i j, (c_tick c <= i)%nat -> (i <= j)%nat -> env_now E i <= env_now E j).

(** The store the session has selected. *)
Definition sel (c : CmdContext) (As : list astore) (A : astore) : Prop :=
  As !! Z.to_nat (c_index c) = Some A.

(** What a handler leaves alone. *)
Definition same_frame (c c' : CmdContext) : Prop :=
  c_index c' = c_index c /\ c_limits c' = c_limits c /\ c_settings c' = c_settings c.

Definition upd (c : CmdContext) (As : list astore) (A : astore) : list astore :=
  <[Z.to_nat (c_index c) := A]> As.

(** ** Lemmas: stores *)

Lemma dead_expired e t : dead (e_ExpireAt e) t = expired e t.
Proof. done. Qed.

Lemma dead_mono d t t' : t <= t' -> dead d t = true -> dead d t' = true.
Proof. intros Ht. exact (expired_mono (mkEntry VNone d) t t' Ht). Qed.

(** Once absent, absent. *)
Lemma get_mono t t' A k : t <= t' -> get t A k = None -> get t' A k = None.
Proof.
  intros Ht. unfold get. destruct (A !! k) as [[v d]|]; [|done].
  destruct (dead d t) eqn:Ed; [|done]. by rewrite (dead_mono d t t').
Qed.

(** What is live later was live before. *)
Lemma get_later t t' A k p : t <= t' -> get t' A k = Some p -> get t A k = Some p.
Proof.
  intros Ht. unfold get. destruct (A !! k) as [[v d]|]; [|done].
  destruct (dead d t) eqn:Ed; [by rewrite (dead_mono d t t')|]. by destruct (dead d t').
Qed.

Lemma get_insert_eq t A k v d :
  get t (<[k := (v, d)]> A) k = if dead d t then None else Some (v, d).
Proof. unfold get. by rewrite lookup_insert_eq. Qed.

Lemma get_insert_ne t A k k' p : k <> k' -> get t (<[k := p]> A) k' = get t A k'.
Proof. intros. unfold get. by rewrite lookup_insert_ne. Qed.

Lemma get_delete_eq t A k : get t (delete k A) k = None.
Proof. unfold get. by rewrite lookup_delete_eq. Qed.

Lemma get_delete_ne t A k k' : k <> k' -> get t (delete k A) k' = get t A k'.
Proof. intros. unfold get. by rewrite lookup_delete_ne. Qed.

Lemma get_dead t A k v d : get t A k = Some (v, d) -> dead d t = false.
Proof.
  unfold get. destruct (A !! k) as [[v' d']|]; [|done]. destruct (dead d' t) eqn:E; [done|].
  by intros [= _ <-].
Qed.

Lemma get_Some t A k p : get t A k = Some p -> A !! k = Some p.
Proof. unfold get. destruct (A !! k) as [[v d]|]; [|done]. by destruct (dead d t). Qed.

Lemma entry_rel_is_Some o a : entry_rel o a -> is_Some o <-> is_Some a.
Proof. destruct o as [e|], a as [[v d]|]; simpl; intros; try done; split; eauto. Qed.

(** A new database holds nothing. *)
Lemma new_db_abs n t : db_abs (Shard_New n) t ∅.
Proof.
  exists ∅. split; [|done]. split; [apply Shard_New_rep|]. apply Forall_replicate, map_Forall_empty.
Qed.

(** A call that changes the entry at one key. *)
Lemma db_abs_update t A m key (f : option Entry -> option Entry) db' A' :
  (forall k, entry_rel (m !! k) (get t A k)) ->
  db_holds db' (t, partial_alter f key m) ->
  (forall k, k <> key -> get t A' k = get t A k) ->
  entry_rel (f (m !! key)) (get t A' key) -> db_abs db' t A'.
Proof.
  intros HA Hrep Hne Heq. exists (partial_alter f key m). split; [done|].
  intros k. destruct (decide (k = key)) as [->|Hk].
  - by rewrite lookup_partial_alter_eq.
  - rewrite lookup_partial_alter_ne, Hne by done. apply HA.
Qed.

Lemma entry_rel_live (t t' : Time) (m : gmap bytes Entry) (A : astore) (k : bytes) :
  entry_rel (m !! k) (get t A k) -> t <= t' -> entry_rel (live t' m !! k) (get t' A k).
Proof.
  intros HA Ht. rewrite lookup_live. destruct (m !! k) as [e|]; simpl in *.
  - destruct (get t A k) as [[v d]|] eqn:Eg; [|done]. destruct HA as [Hv Hd].
    rewrite <- dead_expired, Hd. unfold get in Eg |- *. destruct (A !! k) as [[v' d']|]; [|done].
    destruct (dead d' t); simplify_eq. by destruct (dead _ t').
  - destruct (get t A k) as [[v d]|] eqn:Eg; [done|]. by rewrite (get_mono t t').
Qed.

Lemma db_abs_advance db t A t' : db_abs db t A -> t <= t' -> db_abs db t' A.
Proof.
  intros (m & [Hrep Hv] & HA) Ht. exists (live t' m). split; [exact (conj (store_advance _ _ _ _ Hrep Ht) Hv)|].
  intros k. by apply (entry_rel_live t).
Qed.

(** ** Lemmas: the calls, on one database *)

Section Calls.
Context (db : DB) (t : Time) (A : astore) (Habs : db_abs db t A).

(** A call keeps the representation and the stored values. *)
Lemma holds_step op m o db' :
  db_holds db (t, m) -> db_step maphash op db = Ret (o, db') ->
  (forall v, op_value op = Some v -> value_wf v) -> db_rep maphash db' (t, store_after op t m) ->
  db_holds db' (t, store_after op t m).
Proof. intros [Hrep Hv] E Hop HR. split; [exact HR|]. eapply db_step_values; [by destruct Hrep|exact Hop|exact E|exact Hv]. Qed.

(** The contract's step for a call that names a key. *)
Lemma abs_step op key :
  op_key op = Some key -> t = default t (op_now op) -> (forall v, op_value op = Some v -> value_wf v) ->
  exists m o db', (forall k, entry_rel (m !! k) (get t A k)) /\
    db_step maphash op db = Ret (o, db') /\
    store_answer (len (shards db)) op (m !! key) o /\
    db_holds db' (t, partial_alter (op_update op t) key m).
Proof.
  intros Hk Ht Hop. destruct Habs as (m & Hrep & HA).
  destruct (store_call op db t m (proj1 Hrep) Ht) as (o & db' & E & Ha & HR & _).
  pose proof (holds_step op m o db' Hrep E Hop HR) as HR'.
  unfold found, store_after in *. rewrite Hk in *. by exists m, o, db'.
Qed.

Lemma abs_Lookup key :
  exists o, DB_Lookup maphash t db key = Ret o /\ entry_rel o (get t A key).
Proof.
  destruct (abs_step (SLookup t key) key) as (m & o & db' & HA & E & -> & _); [done..|].
  cbn [db_step] in E. destruct (DB_Lookup maphash t db key) as [e| |]; [|done..].
  simpl in E. injection E as -> _. exists (m !! key). split; [done|apply HA].
Qed.

Lemma abs_GetBytes key :
  exists o, DB_GetBytes maphash t db key = Ret o /\
    match o, get t A key with
    | Some v, Some (a, _) => value_rep v a
    | None, None => True
    | _, _ => False
    end.
Proof.
  destruct (abs_step (SGetBytes t key) key) as (m & o & db' & HA & E & -> & _); [done..|].
  cbn [db_step] in E. destruct (DB_GetBytes maphash t db key) as [e| |]; [|done..].
  simpl in E. injection E as -> _. exists (e_Value <$> m !! key). split; [done|].
  specialize (HA key). destruct (m !! key), (get t A key) as [[? ?]|]; simpl in *; naive_solver.
Qed.

Lemma abs_ExistsBytes key :
  DB_ExistsBytes maphash t db key = Ret (bool_decide (is_Some (get t A key))).
Proof.
  destruct (abs_step (SExistsBytes t key) key) as (m & o & db' & HA & E & -> & _); [done..|].
  cbn [db_step] in E. destruct (DB_ExistsBytes maphash t db key) as [b| |]; [|done..].
  simpl in E. injection E as -> _. f_equal. apply bool_decide_ext.
  apply entry_rel_is_Some, HA.
Qed.

Lemma abs_SetEntry key v av d :
  value_rep v av ->
  exists db', DB_SetEntry maphash db key (mkEntry v d) = Ret db' /\
    db_abs db' t (<[key := (av, d)]> A).
Proof.
  intros Hv. destruct (abs_step (SSetEntry key (mkEntry v d)) key)
    as (m & o & db' & HA & E & -> & HR); [done..|by intros ? [= <-]; exists av|].
  cbn [db_step] in E. destruct (DB_SetEntry maphash db key _) as [db1| |]; [|done..].
  simpl in E. injection E as ->. exists db'. split; [done|].
  eapply db_abs_update; [exact HA|exact HR| |].
  - intros k Hk. by rewrite get_insert_ne.
  - rewrite get_insert_eq. cbn [op_update]. unfold alive. rewrite <- dead_expired.
    cbn [e_ExpireAt]. by destruct (dead d t).
Qed.

Lemma abs_Set key v av :
  value_rep v av ->
  exists db', DB_Set maphash db key v = Ret db' /\ db_abs db' t (<[key := (av, zeroTime)]> A).
Proof.
  intros Hv. destruct (abs_step (SSet key v) key) as (m & o & db' & HA & E & -> & HR); [done..|by intros ? [= <-]; exists av|].
  cbn [db_step] in E. destruct (DB_Set maphash db key v) as [db1| |]; [|done..].
  simpl in E. injection E as ->. exists db'. split; [done|].
  eapply db_abs_update; [exact HA|exact HR| |].
  - intros k Hk. by rewrite get_insert_ne.
  - by rewrite get_insert_eq.
Qed.

(** A collection mutated in place keeps its deadline. *)
Lemma abs_mutate key v av av0 d :
  get t A key = Some (av0, d) -> value_rep v av ->
  exists db', DB_mutate maphash db key v = Ret db' /\ db_abs db' t (<[key := (av, d)]> A).
Proof.
  intros Hg Hv. destruct (abs_step (SMutate key v) key) as (m & o & db' & HA & E & -> & HR); [done..|by intros ? [= <-]; exists av|].
  cbn [db_step] in E. destruct (DB_mutate maphash db key v) as [db1| |]; [|done..].
  simpl in E. injection E as ->. exists db'. split; [done|].
  eapply db_abs_update; [exact HA|exact HR| |].
  - intros k Hk. by rewrite get_insert_ne.
  - rewrite get_insert_eq, (get_dead _ _ _ _ _ Hg). specialize (HA key). rewrite Hg in HA.
    cbn [op_update]. destruct (m !! key) as [e|]; [|done]. simpl in *. naive_solver.
Qed.

Lemma abs_Delete key :
  exists db', DB_Delete maphash t db key = Ret (bool_decide (is_Some (get t A key)), db') /\
    db_abs db' t (delete key A).
Proof.
  destruct (abs_step (SDelete t key) key) as (m & o & db' & HA & E & -> & HR); [done..|].
  cbn [db_step] in E. destruct (DB_Delete maphash t db key) as [[b db1]| |]; [|done..].
  simpl in E. injection E as -> ->. exists db'. split.
  - do 2 f_equal. apply bool_decide_ext, entry_rel_is_Some, HA.
  - eapply db_abs_update; [exact HA|exact HR| |].
    + intros k Hk. by rewrite get_delete_ne.
    + by rewrite get_delete_eq.
Qed.

Lemma abs_Unlink key :
  exists v db', Unlink maphash t db key = Ret (bool_decide (is_Some (get t A key)), v, db') /\
    db_abs db' t (delete key A).
Proof.
  destruct Habs as (m & Hrep & HA).
  destruct (DB_Take_spec maphash t db m key (proj1 Hrep)) as (e & l & db' & E & Em & El & _ & HR).
  assert (db_holds db' (t, delete key m)) as HR'.
  { split; [exact HR|]. destruct Hrep as [Hrep Hv].
    eapply (db_step_values maphash value_wf (STake t key) db); [by destruct Hrep|done| |exact Hv].
    cbn [db_step]. rewrite E. reflexivity. }
  unfold Unlink. rewrite E. orun. eexists _, db'. split.
  - subst l. do 3 f_equal. apply bool_decide_ext, entry_rel_is_Some, HA.
  - eapply (db_abs_update t A m key (λ _, None)); [exact HA|exact HR'| |].
    + intros k Hk. by rewrite get_delete_ne.
    + by rewrite get_delete_eq.
Qed.

(** The store after [SetExpire]. *)
Definition set_deadline (key : bytes) (at_ : Time) : astore :=
  match get t A key with
  | Some (v, _) => <[key := (v, at_)]> A
  | None => A
  end.

Lemma abs_SetExpire key at_ :
  exists db', DB_SetExpire maphash t db key at_ = Ret (bool_decide (is_Some (get t A key)), db') /\
    db_abs db' t (set_deadline key at_).
Proof.
  destruct (abs_step (SSetExpire t key at_) key) as (m & o & db' & HA & E & -> & HR); [done..|].
  cbn [db_step] in E. destruct (DB_SetExpire maphash t db key at_) as [[b db1]| |]; [|done..].
  simpl in E. injection E as -> ->. exists db'. split.
  - do 2 f_equal. apply bool_decide_ext, entry_rel_is_Some, HA.
  - unfold set_deadline. pose proof (HA key) as Hk.
    destruct (get t A key) as [[v d]|] eqn:Eg; destruct (m !! key) as [e|] eqn:Em; try done.
    + eapply db_abs_update; [exact HA|exact HR| |].
      * intros k Hne. by rewrite get_insert_ne.
      * rewrite get_insert_eq, Em. cbn [op_update]. simpl. unfold alive. rewrite <- dead_expired.
        cbn [e_ExpireAt]. destruct Hk as [Hv _]. by destruct (dead at_ t).
    + eapply db_abs_update; [exact HA|exact HR|done|]. rewrite Em, Eg. done.
Qed.

(** The store after [Persist]. *)
Definition clear_deadline (key : bytes) : astore :=
  match get t A key with
  | Some (v, _) => <[key := (v, zeroTime)]> A
  | None => A
  end.

Definition has_deadline (key : bytes) : bool :=
  match get t A key with
  | Some (_, d) => negb (IsZero d)
  | None => false
  end.

Lemma abs_Persist key :
  exists db', DB_Persist maphash t db key = Ret (has_deadline key, db') /\
    db_abs db' t (clear_deadline key).
Proof.
  destruct (abs_step (SPersist t key) key) as (m & o & db' & HA & E & -> & HR); [done..|].
  cbn [db_step] in E. destruct (DB_Persist maphash t db key) as [[b db1]| |]; [|done..].
  simpl in E. injection E as -> ->. exists db'. pose proof (HA key) as Hk.
  unfold clear_deadline, has_deadline.
  destruct (get t A key) as [[v d]|] eqn:Eg; destruct (m !! key) as [e|] eqn:Em; try done; simpl in *.
  - destruct Hk as [Hv <-]. split; [done|]. eapply db_abs_update; [exact HA|exact HR| |].
    + intros k Hne. by rewrite get_insert_ne.
    + rewrite get_insert_eq, Em. done.
  - split; [done|]. eapply db_abs_update; [exact HA|exact HR|done|]. rewrite Em, Eg. done.
Qed.

Lemma abs_Flush : db_abs (DB_Flush db) t ∅.
Proof.
  destruct Habs as (m & Hrep & HA).
  destruct (store_call SFlush db t m (proj1 Hrep) eq_refl) as (o & db' & E & _ & HR & _).
  pose proof (holds_step SFlush m o db' Hrep E ltac:(done) HR) as HR'.
  simpl in E. injection E as _ <-. exists ∅. split; [exact HR'|done].
Qed.
End Calls.

(** ** Lemmas: the calls, in a session *)

Section SessionCalls.
Context (E : Env).

Lemma same_frame_refl c : same_frame c c.
Proof. done. Qed.

Lemma same_frame_trans c1 c2 c3 : same_frame c1 c2 -> same_frame c2 c3 -> same_frame c1 c3.
Proof. unfold same_frame. intros (-> & -> & ->) (-> & -> & ->). done. Qed.

Lemma sel_frame c c' As A : same_frame c c' -> sel c As A -> sel c' As A.
Proof. unfold sel. by intros (-> & _). Qed.

Lemma upd_frame c c' As A : same_frame c c' -> upd c' As A = upd c As A.
Proof. unfold upd. by intros (-> & _). Qed.

Lemma upd_upd c As A A' : upd c (upd c As A) A' = upd c As A'.
Proof. unfold upd. by rewrite list_insert_insert_eq. Qed.

Lemma sel_upd c As A A' : sel c As A -> sel c (upd c As A') A'.
Proof. unfold sel, upd. intros H. apply list_lookup_insert_eq. by eapply lookup_lt_Some. Qed.

Lemma upd_same c As A : sel c As A -> upd c As A = As.
Proof. apply list_insert_id. Qed.

Lemma sess_sel c t As : sess E c t As -> exists A, sel c As A.
Proof.
  intros (HF & Hi & _). unfold sel. apply lookup_lt_is_Some_2.
  rewrite <- (Forall2_length _ _ _ HF). unfold len in Hi. lia.
Qed.

(** A question to the environment. *)
Lemma sess_tick c t As : sess E c t As -> sess E (set_tick c (S (c_tick c))) t As.
Proof.
  intros (HF & Hi & Ht & Hm). split; [exact HF|]. split; [exact Hi|]. split.
  - cbn [set_tick c_tick]. etrans; [exact Ht|]. apply Hm; lia.
  - cbn [set_tick c_tick]. intros i j ??. apply Hm; lia.
Qed.

Lemma sess_now c t As :
  sess E c t As ->
  t <= env_now E (c_tick c) /\
  Now E c = Ret (env_now E (c_tick c), set_tick c (S (c_tick c))) /\
  sess E (set_tick c (S (c_tick c))) (env_now E (c_tick c)) As.
Proof.
  intros (HF & Hi & Ht & Hm). split; [exact Ht|]. split; [done|].
  split; [|split; [exact Hi|split]].
  - eapply Forall2_impl; [exact HF|]. intros db A Habs. eapply db_abs_advance; [exact Habs|exact Ht].
  - apply Hm; cbn [set_tick c_tick]; lia.
  - cbn [set_tick c_tick]. intros i j ??. apply Hm; lia.
Qed.

Lemma sess_selected c t As A :
  sess E c t As -> sel c As A ->
  exists db, selected c = Ret (db, c) /\ db_abs db t A.
Proof.
  intros (HF & Hi & _) Hsel.
  destruct (Forall2_lookup_r _ _ _ _ _ HF Hsel) as (db & Hdb & Habs).
  exists db. split; [|done]. unfold selected.
  assert (index (c_databases c) (c_index c) = Ret db) as ->; [|done].
  rewrite <- (Z2Nat.id (c_index c)) by lia. by apply index_lookup.
Qed.

Lemma sess_store c t As db' A' :
  sess E c t As -> db_abs db' t A' ->
  store_db db' c = Ret (tt, set_db c db') /\ sess E (set_db c db') t (upd c As A') /\
  same_frame c (set_db c db').
Proof.
  intros (HF & Hi & Ht & Hm) Habs. split_and!; [done| |done].
  split; [by apply Forall2_insert|]. split; [|done].
  cbn [set_db c_index c_databases]. unfold len. rewrite length_insert. exact Hi.
Qed.

(** Runs a handler through the binds of its monad. *)
Lemma cbind_Ret {A B} (m : cmd A) (k : A -> cmd B) c a c' :
  m c = Ret (a, c') -> cbind m k c = k a c'.
Proof. unfold cbind. by intros ->. Qed.

Lemma lift_Ret {A} (m : outcome A) c a : m = Ret a -> lift m c = Ret (a, c).
Proof. unfold lift. by intros ->. Qed.

(** A read: the clock, the database, the answer. *)
Lemma k_read {A} (f : Time -> DB -> outcome A) c t As St (P : Time -> A -> Prop) :
  sess E c t As -> sel c As St ->
  (forall db t, db_abs db t St -> exists a, f t db = Ret a /\ P t a) ->
  exists t' c' a,
    (do now := Now E in do db := selected in lift (f now db)) c = Ret (a, c') /\
    t <= t' /\ sess E c' t' As /\ same_frame c c' /\ P t' a.
Proof.
  intros Hs Hsel Hf. destruct (sess_now c t As Hs) as (Ht & En & Hs').
  set (c' := set_tick c (S (c_tick c))) in *. assert (sel c' As St) as Hsel' by exact Hsel.
  destruct (sess_selected c' _ As St Hs' Hsel') as (db & Ed & Habs).
  destruct (Hf db _ Habs) as (a & Ea & HP).
  exists (env_now E (c_tick c)), c', a.
  rewrite (cbind_Ret _ _ _ _ _ En), (cbind_Ret _ _ _ _ _ Ed), (lift_Ret _ _ _ Ea). done.
Qed.

Lemma k_Lookup_spec key c t As A :
  sess E c t As -> sel c As A ->
  exists t' c' o, k_Lookup maphash E key c = Ret (o, c') /\
    t <= t' /\ sess E c' t' As /\ same_frame c c' /\ entry_rel o (get t' A key).
Proof.
  intros Hs Hsel. apply (k_read _ c t As A (λ t' o, entry_rel o (get t' A key)) Hs Hsel).
  intros db t0 Habs. by apply abs_Lookup.
Qed.

Lemma k_GetBytes_spec key c t As A :
  sess E c t As -> sel c As A ->
  exists t' c' o, k_GetBytes maphash E key c = Ret (o, c') /\
    t <= t' /\ sess E c' t' As /\ same_frame c c' /\
    match o, get t' A key with
    | Some v, Some (a, _) => value_rep v a
    | None, None => True
    | _, _ => False
    end.
Proof.
  intros Hs Hsel. apply (k_read _ c t As A (λ t' o, match o, get t' A key with
    | Some v, Some (a, _) => value_rep v a | None, None => True | _, _ => False end) Hs Hsel).
  intros db t0 Habs. by apply abs_GetBytes.
Qed.

Lemma k_ExistsBytes_spec key c t As A :
  sess E c t As -> sel c As A ->
  exists t' c' b, k_ExistsBytes maphash E key c = Ret (b, c') /\
    t <= t' /\ sess E c' t' As /\ same_frame c c' /\ b = bool_decide (is_Some (get t' A key)).
Proof.
  intros Hs Hsel.
  apply (k_read _ c t As A (λ t' b, b = bool_decide (is_Some (get t' A key))) Hs Hsel).
  intros db t0 Habs. eexists. split; [by apply abs_ExistsBytes|done].
Qed.

(** A write that reads no clock. *)
Lemma k_write (f : DB -> outcome DB) c t As St St' :
  sess E c t As -> sel c As St ->
  (forall db, db_abs db t St -> exists db', f db = Ret db' /\ db_abs db' t St') ->
  exists c', (do db := selected in do db := lift (f db) in store_db db) c = Ret (tt, c') /\
    sess E c' t (upd c As St') /\ same_frame c c'.
Proof.
  intros Hs Hsel Hf. destruct (sess_selected c t As St Hs Hsel) as (db & Ed & Habs).
  destruct (Hf db Habs) as (db' & Ef & Habs').
  destruct (sess_store c t As db' St' Hs Habs') as (Es & Hs' & Hfr).
  exists (set_db c db').
  rewrite (cbind_Ret _ _ _ _ _ Ed), (cbind_Ret _ _ _ _ _ (lift_Ret _ _ _ Ef)). done.
Qed.

Lemma k_Set_spec key v av c t As A :
  sess E c t As -> sel c As A -> value_rep v av ->
  exists c', k_Set maphash key v c = Ret (tt, c') /\
    sess E c' t (upd c As (<[key := (av, zeroTime)]> A)) /\ same_frame c c'.
Proof.
  intros Hs Hsel Hv. apply (k_write _ c t As A); [done..|]. intros db Habs. by apply abs_Set.
Qed.

Lemma k_SetEntry_spec key v av d c t As A :
  sess E c t As -> sel c As A -> value_rep v av ->
  exists c', k_SetEntry maphash key (mkEntry v d) c = Ret (tt, c') /\
    sess E c' t (upd c As (<[key := (av, d)]> A)) /\ same_frame c c'.
Proof.
  intros Hs Hsel Hv. apply (k_write _ c t As A); [done..|]. intros db Habs. by apply abs_SetEntry.
Qed.

Lemma k_mutate_spec key v av av0 d c t As A :
  sess E c t As -> sel c As A -> get t A key = Some (av0, d) -> value_rep v av ->
  exists c', k_mutate maphash key v c = Ret (tt, c') /\
    sess E c' t (upd c As (<[key := (av, d)]> A)) /\ same_frame c c'.
Proof.
  intros Hs Hsel Hg Hv. apply (k_write _ c t As A); [done..|]. intros db Habs.
  by eapply abs_mutate.
Qed.

Lemma k_Flush_spec c t As A :
  sess E c t As -> sel c As A ->
  exists c', k_Flush c = Ret (tt, c') /\ sess E c' t (upd c As ∅) /\ same_frame c c'.
Proof.
  intros Hs Hsel. destruct (sess_selected c t As A Hs Hsel) as (db & Ed & Habs).
  destruct (sess_store c t As (DB_Flush db) ∅ Hs) as (Es & Hs' & Hfr).
  { by eapply abs_Flush. }
  exists (set_db c (DB_Flush db)). unfold k_Flush. by rewrite (cbind_Ret _ _ _ _ _ Ed).
Qed.

(** A write that reads the clock and answers a boolean. *)
Lemma k_write_now (f : Time -> DB -> outcome (bool * DB)) (c : CmdContext) (t : Time)
    (As : list astore) (St : astore)
    (b : Time -> bool) (St' : Time -> astore) :
  sess E c t As -> sel c As St ->
  (forall db t, db_abs db t St -> exists db', f t db = Ret (b t, db') /\ db_abs db' t (St' t)) ->
  exists t' c',
    (do now := Now E in do db := selected in do (b, db) := lift (f now db) in
     do _ := store_db db in cret b) c = Ret (b t', c') /\
    t <= t' /\ sess E c' t' (upd c As (St' t')) /\ same_frame c c'.
Proof.
  intros Hs Hsel Hf. destruct (sess_now c t As Hs) as (Ht & En & Hs').
  set (c1 := set_tick c (S (c_tick c))) in *. set (t' := env_now E (c_tick c)) in *.
  destruct (sess_selected c1 t' As St Hs' Hsel) as (db & Ed & Habs).
  destruct (Hf db t' Habs) as (db' & Ef & Habs').
  destruct (sess_store c1 t' As db' (St' t') Hs' Habs') as (Es & Hs2 & Hfr).
  exists t', (set_db c1 db').
  rewrite (cbind_Ret _ _ _ _ _ En), (cbind_Ret _ _ _ _ _ Ed).
  rewrite (cbind_Ret _ _ _ _ _ (lift_Ret _ _ _ Ef)). cbn beta iota.
  rewrite (cbind_Ret _ _ _ _ _ Es). done.
Qed.

Lemma k_Delete_spec key c t As A :
  sess E c t As -> sel c As A ->
  exists t' c', k_Delete maphash E key c = Ret (bool_decide (is_Some (get t' A key)), c') /\
    t <= t' /\ sess E c' t' (upd c As (delete key A)) /\ same_frame c c'.
Proof.
  intros Hs Hsel. apply (k_write_now _ c t As A (λ t', bool_decide (is_Some (get t' A key)))
    (λ _, delete key A) Hs Hsel). intros db t0 Habs. by apply abs_Delete.
Qed.

Lemma k_SetExpire_spec key at_ c t As A :
  sess E c t As -> sel c As A ->
  exists t' c', k_SetExpire maphash E key at_ c
      = Ret (bool_decide (is_Some (get t' A key)), c') /\
    t <= t' /\ sess E c' t' (upd c As (set_deadline t' A key at_)) /\ same_frame c c'.
Proof.
  intros Hs Hsel. apply (k_write_now _ c t As A (λ t', bool_decide (is_Some (get t' A key)))
    (λ t', set_deadline t' A key at_) Hs Hsel). intros db t0 Habs. by apply abs_SetExpire.
Qed.

Lemma k_Persist_spec key c t As A :
  sess E c t As -> sel c As A ->
  exists t' c', k_Persist maphash E key c = Ret (has_deadline t' A key, c') /\
    t <= t' /\ sess E c' t' (upd c As (clear_deadline t' A key)) /\ same_frame c c'.
Proof.
  intros Hs Hsel. apply (k_write_now _ c t As A (λ t', has_deadline t' A key)
    (λ t', clear_deadline t' A key) Hs Hsel). intros db t0 Habs. by apply abs_Persist.
Qed.

Lemma sess_reaped c t As v : sess E c t As -> sess E (add_reaped c v) t As.
Proof. by destruct v. Qed.

Lemma k_Unlink_spec key c t As A :
  sess E c t As -> sel c As A ->
  exists t' c', k_Unlink maphash E key c = Ret (bool_decide (is_Some (get t' A key)), c') /\
    t <= t' /\ sess E c' t' (upd c As (delete key A)) /\ same_frame c c'.
Proof.
  intros Hs Hsel. destruct (sess_now c t As Hs) as (Ht & En & Hs').
  set (c1 := set_tick c (S (c_tick c))) in *. set (t' := env_now E (c_tick c)) in *.
  destruct (sess_selected c1 t' As A Hs' Hsel) as (db & Ed & Habs).
  destruct (abs_Unlink db t' A Habs key) as (v & db' & Ef & Habs').
  destruct (sess_store c1 t' As db' (delete key A) Hs' Habs') as (Es & Hs2 & Hfr).
  exists t', (add_reaped (set_db c1 db') v). unfold k_Unlink.
  rewrite (cbind_Ret _ _ _ _ _ En), (cbind_Ret _ _ _ _ _ Ed).
  rewrite (cbind_Ret _ _ _ _ _ (lift_Ret _ _ _ Ef)). cbn beta iota.
  rewrite (cbind_Ret _ _ _ _ _ Es).
  split_and!; [done|done|by apply sess_reaped|]. by destruct v.
Qed.
End SessionCalls.
End Sessions.
