(* ===== verification/CommandSpec.v ===== *)
(** * What the commands mean

    For every data command, its meaning on an abstract store: the reply and the
    store after it, given the first and the last clock reading the handler
    makes. The handlers are proved to refine these meanings from any session,
    under any clock that does not go back. *)

From S2P Require Import Prelude Pack Float64 ValueList ValueHash ValueSet ValueZSet.
From S2P Require Import GoTime Value Keyspace Shard Strconv Resp Config Command Session.

(** ** Meanings *)

(** [spec t1 t2 args A r A']: with first clock reading [t1] and last [t2], the
    command answers [r] and turns the store [A] into [A']. *)
Abbreviation aspec := (Time -> Time -> list bytes -> astore -> Reply -> astore -> Prop).

Definition wrong_type : Reply := RError msgWrongType.

Definition spec_get : aspec := λ t1 _ args A r A',
  exists key, args !! 1%nat = Some key /\ A' = A /\
  r = match get t1 A key with
      | None => RNil
      | Some (AString b, _) => RBulk b
      | Some _ => wrong_type
      end.

Definition spec_set : aspec := λ _ _ args A r A',
  exists key val, args !! 1%nat = Some key /\ args !! 2%nat = Some val /\
  r = Reply_OK /\ A' = <[key := (AString val, zeroTime)]> A.

(** INCR and DECR: the sum when it fits an int64; the deadline is kept. *)
Definition spec_incr (delta : Z) : aspec := λ t1 _ args A r A',
  exists key, args !! 1%nat = Some key /\
  let add n d :=
    if (MinInt64 <=? n + delta) && (n + delta <=? MaxInt64)
    then r = RInt (n + delta) /\ A' = <[key := (AString (FormatInt (n + delta)), d)]> A
    else r = RError (lit "ERR increment or decrement would overflow") /\ A' = A in
  match get t1 A key with
  | None => add 0 zeroTime
  | Some (AString s, d) =>
      match ParseInt s with
      | Some n => add n d
      | None => r = RError msgNotInteger /\ A' = A
      end
  | Some _ => r = wrong_type /\ A' = A
  end.

(** The keys of [X] live at [t]. *)
Definition live_keys (t : Time) (A : astore) (X : gset bytes) : gset bytes :=
  filter (λ k, is_Some (get t A k)) X.

(** DEL and UNLINK: the keys are gone; the count is that of the distinct keys
    live, each as the clock stood when it was removed. *)
Definition spec_del : aspec := λ t1 t2 args A r A',
  exists name keys n, args = name :: keys /\ r = RInt n /\
  A' = foldl (λ A k, delete k A) A keys /\
  Z.of_nat (size (live_keys t2 A (list_to_set keys))) <= n
    <= Z.of_nat (size (live_keys t1 A (list_to_set keys))).

(** EXISTS counts a key as often as it is named. *)
Definition spec_exists : aspec := λ t1 t2 args A r A',
  exists name keys n, args = name :: keys /\ r = RInt n /\ A' = A /\
  len (filter (λ k, is_Some (get t2 A k)) keys) <= n
    <= len (filter (λ k, is_Some (get t1 A k)) keys).

(** EXPIRE: a deadline [secs] seconds after the first reading, the product
    wrapping; the key is looked up at the last one. *)
Definition spec_expire : aspec := λ t1 t2 args A r A',
  exists key a, args !! 1%nat = Some key /\ args !! 2%nat = Some a /\
  match ParseInt a with
  | None => r = RError msgNotInteger /\ A' = A
  | Some secs =>
      r = bool_reply (bool_decide (is_Some (get t2 A key))) /\
      A' = set_deadline t2 A key (t1 + wrap64 (secs * 1000000000))
  end.

Definition spec_pexpireat : aspec := λ _ t2 args A r A',
  exists key a, args !! 1%nat = Some key /\ args !! 2%nat = Some a /\
  match ParseInt a with
  | None => r = RError msgNotInteger /\ A' = A
  | Some ms =>
      r = bool_reply (bool_decide (is_Some (get t2 A key))) /\
      A' = set_deadline t2 A key (unix_epoch + ms * 1000000)
  end.

(** TTL: the seconds from the last reading to the deadline, rounded. *)
Definition spec_ttl : aspec := λ t1 t2 args A r A',
  exists key, args !! 1%nat = Some key /\ A' = A /\
  r = match get t1 A key with
      | None => RInt (-2)
      | Some (_, d) =>
          if IsZero d then RInt (-1)
          else RInt (Z.quot (Z.max 0 (Milliseconds (time_Sub d t2)) + 500) 1000)
      end.

Definition spec_persist : aspec := λ t1 _ args A r A',
  exists key, args !! 1%nat = Some key /\
  r = bool_reply (has_deadline t1 A key) /\ A' = clear_deadline t1 A key.

Definition akind (a : avalue) : Kind :=
  match a with
  | AString _ => KindString | AList _ => KindList | AHash _ => KindHash
  | ASet _ => KindSet | AZSet _ => KindZSet
  end.

Definition spec_type : aspec := λ t1 _ args A r A',
  exists key, args !! 1%nat = Some key /\ A' = A /\
  r = RSimple match get t1 A key with
              | None => lit "none"
              | Some (a, _) => Kind_String (akind a)
              end.

(** The number of arguments a command accepts. *)
Definition arity_ok (arity n : Z) : Prop :=
  if 0 <=? arity then n = arity else - arity <= n.

(** ** Automation *)

(** One step of a handler whose next call computes. *)
Ltac cstep := try red; erewrite cbind_Ret; [|reflexivity]; cbn beta iota.

(** One step by a known equation. *)
Ltac cgo H := try red; rewrite (cbind_Ret _ _ _ _ _ H); cbn beta iota.

(** An argument list of known length, or of at least a known length. *)
Lemma args_2 (args : list bytes) : arity_ok 2 (len args) -> exists a key, args = [a; key].
Proof. unfold arity_ok, len. destruct args as [|? [|? [|? ?]]]; simpl; intros; try lia; eauto. Qed.

Lemma args_3 (args : list bytes) : arity_ok 3 (len args) -> exists a key x, args = [a; key; x].
Proof. unfold arity_ok, len. destruct args as [|? [|? [|? [|? ?]]]]; simpl; intros; try lia; eauto. Qed.

Lemma args_4 (args : list bytes) :
  arity_ok 4 (len args) -> exists a key x y, args = [a; key; x; y].
Proof.
  unfold arity_ok, len. destruct args as [|? [|? [|? [|? [|? ?]]]]]; simpl; intros; try lia; eauto.
Qed.

Lemma args_from_n (n : Z) (args : list bytes) :
  n <= -2 -> arity_ok n (len args) -> exists a key rest, args = a :: key :: rest.
Proof.
  unfold arity_ok, len. intros Hn. destruct (Z.leb_spec 0 n); [lia|].
  destruct args as [|? [|? ?]]; simpl; intros; try lia; eauto.
Qed.

Lemma args_from_1 a (l : list bytes) c : args_from (a :: l) 1 c = Ret (l, c).
Proof. apply lift_Ret, (slice_from_app [a]). done. Qed.

Lemma args_from_2 a b (l : list bytes) c : args_from (a :: b :: l) 2 c = Ret (l, c).
Proof. apply lift_Ret, (slice_from_app [a; b]). done. Qed.

(** What a value of a given meaning is. *)
Lemma value_rep_string v b : value_rep v (AString b) -> v = VString b.
Proof. destruct v; simpl; try done. by intros [-> _]. Qed.

Lemma value_rep_kind v a : value_rep v a -> Value_Kind v = akind a.
Proof. by destruct v, a. Qed.

(** The kind test of a value of the right kind. *)
Ltac kind_ok :=
  match goal with
  | |- context [bool_decide (?k <> ?k)] =>
      rewrite (bool_decide_false (k <> k)) by (let HH := fresh in intros HH; by apply HH)
  end; cbn iota.

(** Ends a handler that leaves the store alone, or that has stored. *)
Ltac unchanged t1 t2 :=
  eexists t1, t2, _, _, _; split; [reflexivity|]; split; [lia|];
  split; [erewrite upd_same by eassumption; eassumption|]; split; [done|].

Ltac stored t1 t2 :=
  eexists t1, t2, _, _, _; split; [reflexivity|]; split; [lia|];
  split; [eassumption|]; split; [by eauto using same_frame_trans|].

(** ** Handlers and meanings *)

Section Refinement.
Context (maphash : bytes -> Z) (E : Env).

(** Every collection's size fits an [int]. *)
Definition small (A : astore) : Prop := map_Forall (λ _ p, small_value p.1) A.

(** A run of [m] that ends in store [A'] with [P] of the readings and the answer. *)
Definition ends (m : cmd Reply) (c : CmdContext) (t : Time) (As : list astore)
    (P : Time -> Time -> Reply -> astore -> Prop) : Prop :=
  exists t1 t2 c' r A', m c = Ret (r, c') /\ t <= t1 <= t2 /\
    sess maphash E c' t2 (upd c As A') /\ same_frame c c' /\ P t1 t2 r A'.

(** The handler [run] does what [spec] says, from any session. *)
Definition refines (arity : Z) (pre : list bytes -> Prop) (run : list bytes -> cmd Reply)
    (spec : aspec) : Prop :=
  forall args c t As A,
    sess maphash E c t As -> sel c As A -> small A ->
    Forall go_len args -> arity_ok arity (len args) -> pre args ->
    ends (run args) c t As (λ t1 t2 r A', spec t1 t2 args A r A').

Lemma ends_mono (m : cmd Reply) (c : CmdContext) (t : Time) (As : list astore) (P Q : Time -> Time -> Reply -> astore -> Prop) :
  ends m c t As P -> (forall t1 t2 r A', P t1 t2 r A' -> Q t1 t2 r A') -> ends m c t As Q.
Proof.
  intros (t1 & t2 & c' & r & A' & Er & Ht & Hs & Hf & HP) HPQ.
  exists t1, t2, c', r, A'. split; [done|]. split; [done|]. split_and!; auto.
Qed.

(** A step that leaves the session as it is. *)
Lemma ends_bind {X} (m : cmd X) (k : X -> cmd Reply) (c : CmdContext) (t : Time) (As : list astore) (x : X)
    (P : Time -> Time -> Reply -> astore -> Prop) :
  m c = Ret (x, c) -> ends (k x) c t As P -> ends (cbind m k) c t As P.
Proof. intros Em. unfold ends. by rewrite (cbind_Ret _ _ _ _ _ Em). Qed.

(** An early answer. *)
Lemma ends_now (m : cmd Reply) (c : CmdContext) (t : Time) (As : list astore) (A : astore) (r : Reply)
    (P : Time -> Time -> Reply -> astore -> Prop) :
  sess maphash E c t As -> sel c As A -> m c = Ret (r, c) -> P t t r A -> ends m c t As P.
Proof.
  intros Hs Hsel Em HP. exists t, t, c, r, A. rewrite upd_same by done.
  split; [done|]. split; [lia|]. done.
Qed.

Definition no_pre (args : list bytes) : Prop := True.

(** *** Strings *)

Lemma cmdGet_refines : refines 2 no_pre (cmdGet maphash E) spec_get.
Proof.
  intros args c t As A Hs Hsel _ _ (a0 & key & ->)%args_2 _. unfold cmdGet. cstep.
  destruct (k_GetBytes_spec maphash E key c t As A Hs Hsel) as (t' & c' & o & Eg & Ht & Hs' & Hf & Hr).
  cgo Eg. destruct o as [v|], (get t' A key) as [[a d]|] eqn:Ega; try done.
  - pose proof (value_rep_kind _ _ Hr) as Hk. rewrite Hk.
    destruct a; cbn [akind]; try (kind_ok; rewrite (value_rep_string _ _ Hr); cstep);
      unchanged t' t'; exists key; by rewrite Ega.
  - unchanged t' t'. exists key. by rewrite Ega.
Qed.

Lemma cmdSet_refines : refines 3 no_pre (cmdSet maphash) spec_set.
Proof.
  intros args c t As A Hs Hsel _ Hl (a0 & key & val & ->)%args_3 _. unfold cmdSet. do 2 cstep.
  apply Forall_cons in Hl as [_ [_ [Hv _]%Forall_cons]%Forall_cons].
  destruct (k_Set_spec maphash E key (MakeString val) (AString val) c t As A Hs Hsel)
    as (c' & Es & Hs' & Hf); [done|].
  cgo Es. stored t t. by exists key, val.
Qed.

Lemma incr_overflows_spec cur delta :
  is_int64 cur -> delta = 1 \/ delta = -1 ->
  incr_overflows cur delta = negb ((MinInt64 <=? cur + delta) && (cur + delta <=? MaxInt64)).
Proof.
  unfold is_int64, incr_overflows, MinInt64, MaxInt64. intros Hc [->| ->].
  - rewrite wrap64_id by (unfold is_int64, MinInt64, MaxInt64; lia). zcases; lia.
  - rewrite (wrap64_id (- 2 ^ 63 - -1)) by (unfold is_int64, MinInt64, MaxInt64; lia). zcases; lia.
Qed.

Lemma FormatInt_go_len n : go_len (FormatInt n).
Proof. unfold go_len, len. pose proof (FormatInt_length n). lia. Qed.

(** The store half of INCR and DECR. *)
Lemma incr_store_spec key (e : option Entry) d cur delta c t As A :
  sess maphash E c t As -> sel c As A -> is_int64 cur -> delta = 1 \/ delta = -1 ->
  d = match e with Some e => e_ExpireAt e | None => zeroTime end ->
  exists c' r A', incr_store maphash key e cur delta c = Ret (r, c') /\
    sess maphash E c' t (upd c As A') /\ same_frame c c' /\
    if (MinInt64 <=? cur + delta) && (cur + delta <=? MaxInt64)
    then r = RInt (cur + delta) /\ A' = <[key := (AString (FormatInt (cur + delta)), d)]> A
    else r = RError (lit "ERR increment or decrement would overflow") /\ A' = A.
Proof.
  intros Hs Hsel Hc Hd ->. unfold incr_store. rewrite incr_overflows_spec by done.
  destruct ((MinInt64 <=? cur + delta) && (cur + delta <=? MaxInt64)) eqn:Er; cbn [negb].
  - apply andb_true_iff in Er as [?%Z.leb_le ?%Z.leb_le]. rewrite wrap64_id by done.
    assert (value_rep (MakeString (FormatInt (cur + delta))) (AString (FormatInt (cur + delta)))) as Hv
      by (split; [done|apply FormatInt_go_len]).
    destruct e as [e|].
    + destruct (k_SetEntry_spec maphash E key _ _ (e_ExpireAt e) c t As A Hs Hsel Hv)
        as (c' & Es & Hs' & Hf).
      cgo Es. by eexists c', _, _.
    + destruct (k_Set_spec maphash E key _ _ c t As A Hs Hsel Hv) as (c' & Es & Hs' & Hf).
      cgo Es. by eexists c', _, _.
  - eexists c, _, A. rewrite upd_same by done. done.
Qed.

Lemma incrBy_refines delta c t As A key args :
  args !! 1%nat = Some key -> delta = 1 \/ delta = -1 ->
  sess maphash E c t As -> sel c As A ->
  exists t1 t2 c' r A', incrBy maphash E key delta c = Ret (r, c') /\ t <= t1 <= t2 /\
    sess maphash E c' t2 (upd c As A') /\ same_frame c c' /\ spec_incr delta t1 t2 args A r A'.
Proof.
  intros Ha Hd Hs Hsel. unfold incrBy.
  destruct (k_Lookup_spec maphash E key c t As A Hs Hsel) as (t' & c' & o & Eg & Ht & Hs' & Hf & Hr).
  cgo Eg. pose proof (sel_frame _ _ _ _ Hf Hsel) as Hsel'.
  destruct o as [e|], (get t' A key) as [[a d]|] eqn:Ega; try done.
  - destruct Hr as [Hv He]. pose proof (value_rep_kind _ _ Hv) as Hk. rewrite Hk.
    destruct a as [s|?|?|?|?]; cbn [akind];
      try (unchanged t' t'; exists key; cbn zeta; rewrite Ega; done).
    kind_ok. rewrite (value_rep_string _ _ Hv). cstep. destruct (ParseInt s) as [n|] eqn:Ep.
    + destruct (incr_store_spec key (Some e) d n delta c' t' As A) as (c2 & r & A' & E2 & Hs2 & Hf2 & Hspec);
        [done|done|by eapply ParseInt_int64|done|done|].
      exists t', t', c2, r, A'. rewrite E2. split; [done|]. split; [lia|].
      rewrite (upd_frame c c') in Hs2 by done. split; [done|].
      split; [by eapply same_frame_trans|]. exists key. split; [done|]. cbn zeta. by rewrite Ega, Ep.
    + unchanged t' t'. exists key. cbn zeta. rewrite Ega, Ep. done.
  - destruct (incr_store_spec key None zeroTime 0 delta c' t' As A) as (c2 & r & A' & E2 & Hs2 & Hf2 & Hspec);
      [done|done|unfold is_int64, MinInt64, MaxInt64; lia|done|done|].
    exists t', t', c2, r, A'. rewrite E2. split; [done|]. split; [lia|].
    rewrite (upd_frame c c') in Hs2 by done. split; [done|].
    split; [by eapply same_frame_trans|]. exists key. split; [done|]. cbn zeta. by rewrite Ega.
Qed.

Lemma cmdIncr_refines : refines 2 no_pre (cmdIncr maphash E) (spec_incr 1).
Proof.
  intros args c t As A Hs Hsel _ _ (a0 & key & ->)%args_2 _. unfold cmdIncr. cstep.
  apply incrBy_refines; auto.
Qed.

Lemma cmdDecr_refines : refines 2 no_pre (cmdDecr maphash E) (spec_incr (-1)).
Proof.
  intros args c t As A Hs Hsel _ _ (a0 & key & ->)%args_2 _. unfold cmdDecr. cstep.
  apply incrBy_refines; auto.
Qed.

(** *** Keys *)

Lemma live_keys_mono (t t' : Time) (A : astore) (X : gset bytes) : t <= t' -> (size (live_keys t' A X) <= size (live_keys t A X))%nat.
Proof.
  intros Ht. apply subseteq_size. unfold live_keys. intros k [[p Hp] Hk]%elem_of_filter.
  apply elem_of_filter. split; [|done]. exists p. by eapply get_later.
Qed.

(** Counting a key first and removing it counts it once. *)
Lemma live_keys_cons (t : Time) (A : astore) (key : bytes) (X : gset bytes) :
  size (live_keys t A ({[key]} ∪ X)) =
  ((if bool_decide (is_Some (get t A key)) then 1 else 0)
   + size (live_keys t (delete key A) X))%nat.
Proof.
  unfold live_keys.
  assert (key ∉ filter (λ k, is_Some (get t (delete key A) k)) X) as Hnot.
  { intros [[p Hp] _]%elem_of_filter. by rewrite get_delete_eq in Hp. }
  assert (forall k, k <> key -> get t (delete key A) k = get t A k) as Hne
    by (intros; by rewrite get_delete_ne).
  case_bool_decide as Hl.
  - assert (filter (λ k, is_Some (get t A k)) ({[key]} ∪ X)
      = {[key]} ∪ filter (λ k, is_Some (get t (delete key A) k)) X) as ->.
    { apply set_eq. intros k. destruct (decide (k = key)) as [->|Hk]; [set_solver|].
      rewrite elem_of_union, !elem_of_filter, Hne by done. set_solver. }
    rewrite size_union by set_solver. by rewrite size_singleton.
  - assert (filter (λ k, is_Some (get t A k)) ({[key]} ∪ X)
      = filter (λ k, is_Some (get t (delete key A) k)) X) as ->; [|done].
    apply set_eq. intros k. destruct (decide (k = key)) as [->|Hk]; [set_solver|].
    rewrite !elem_of_filter, Hne by done. set_solver.
Qed.

(** The counting loop of DEL and UNLINK. *)
Lemma count_deletes (f : bytes -> cmd bool) keys n c t As A :
  (forall key c t As A, sess maphash E c t As -> sel c As A ->
    exists t' c', f key c = Ret (bool_decide (is_Some (get t' A key)), c') /\
      t <= t' /\ sess maphash E c' t' (upd c As (delete key A)) /\ same_frame c c') ->
  sess maphash E c t As -> sel c As A ->
  exists t' c' n', count_true f keys n c = Ret (n', c') /\ t <= t' /\
    sess maphash E c' t' (upd c As (foldl (λ A k, delete k A) A keys)) /\ same_frame c c' /\
    Z.of_nat (size (live_keys t' A (list_to_set keys))) <= n' - n
      <= Z.of_nat (size (live_keys t A (list_to_set keys))).
Proof.
  intros Hf. revert n c t As A. induction keys as [|key keys IH]; intros n c t As A Hs Hsel.
  { exists t, c, n. cbn [foldl list_to_set]. rewrite upd_same by done.
    assert (live_keys t A ∅ = ∅) as -> by set_solver. rewrite size_empty. split_and!; try done; lia. }
  cbn [count_true foldl]. destruct (Hf key c t As A Hs Hsel) as (t1 & c1 & E1 & Ht1 & Hs1 & Hf1).
  rewrite (cbind_Ret _ _ _ _ _ E1).
  destruct (IH (if bool_decide (is_Some (get t1 A key)) then n + 1 else n) c1 t1
    (upd c As (delete key A)) (delete key A)) as (t2 & c2 & n2 & E2 & Ht2 & Hs2 & Hf2 & Hn).
  { done. }
  { eapply sel_frame; [done|]. by eapply sel_upd. }
  exists t2, c2, n2. rewrite E2. split; [done|]. split; [lia|].
  rewrite (upd_frame c c1), upd_upd in Hs2 by done. split; [done|].
  split; [by eapply same_frame_trans|]. cbn [list_to_set].
  rewrite !live_keys_cons.
  pose proof (live_keys_mono t t1 (delete key A) (list_to_set keys) Ht1).
  assert (is_Some (get t2 A key) -> is_Some (get t1 A key)) by (intros [p ?]; exists p; by eapply get_later).
  assert (is_Some (get t1 A key) -> is_Some (get t A key)) by (intros [p ?]; exists p; by eapply get_later).
  repeat case_bool_decide; naive_solver lia.
Qed.

Lemma cmdDel_refines : refines (-2) no_pre (cmdDel maphash E) spec_del.
Proof.
  intros args c t As A Hs Hsel _ _ (a0 & key & rest & ->)%args_from_n _; [|done].
  unfold cmdDel. cgo (args_from_1 a0 (key :: rest) c).
  destruct (count_deletes (k_Delete maphash E) (key :: rest) 0 c t As A)
    as (t' & c' & n & En & Ht & Hs' & Hf & Hn); [apply k_Delete_spec|done|done|].
  cgo En. stored t t'. rewrite Z.sub_0_r in Hn. by eexists _, _, _.
Qed.

Lemma cmdUnlink_refines : refines (-2) no_pre (cmdUnlink maphash E) spec_del.
Proof.
  intros args c t As A Hs Hsel _ _ (a0 & key & rest & ->)%args_from_n _; [|done].
  unfold cmdUnlink. cgo (args_from_1 a0 (key :: rest) c).
  destruct (count_deletes (k_Unlink maphash E) (key :: rest) 0 c t As A)
    as (t' & c' & n & En & Ht & Hs' & Hf & Hn); [apply k_Unlink_spec|done|done|].
  cgo En. stored t t'. rewrite Z.sub_0_r in Hn. by eexists _, _, _.
Qed.

(** The counting loop of EXISTS. *)
Lemma count_exists keys n c t As A :
  sess maphash E c t As -> sel c As A ->
  exists t' c' n', count_true (k_ExistsBytes maphash E) keys n c = Ret (n', c') /\ t <= t' /\
    sess maphash E c' t' As /\ same_frame c c' /\
    len (filter (λ k, is_Some (get t' A k)) keys) <= n' - n
      <= len (filter (λ k, is_Some (get t A k)) keys).
Proof.
  revert n c t. induction keys as [|key keys IH]; intros n c t Hs Hsel.
  { exists t, c, n. split_and!; try done; rewrite filter_nil, len_nil; lia. }
  cbn [count_true]. destruct (k_ExistsBytes_spec maphash E key c t As A Hs Hsel)
    as (t1 & c1 & b & E1 & Ht1 & Hs1 & Hf1 & ->).
  rewrite (cbind_Ret _ _ _ _ _ E1).
  destruct (IH (if bool_decide (is_Some (get t1 A key)) then n + 1 else n) c1 t1 Hs1)
    as (t2 & c2 & n2 & E2 & Ht2 & Hs2 & Hf2 & Hn); [by eapply sel_frame|].
  exists t2, c2, n2. rewrite E2. split; [done|]. split; [lia|]. split; [done|].
  split; [by eapply same_frame_trans|].
  assert (is_Some (get t2 A key) -> is_Some (get t1 A key)) by (intros [p ?]; exists p; by eapply get_later).
  assert (is_Some (get t1 A key) -> is_Some (get t A key)) by (intros [p ?]; exists p; by eapply get_later).
  assert (len (filter (λ k, is_Some (get t1 A k)) keys) <= len (filter (λ k, is_Some (get t A k)) keys)).
  { unfold len. apply Nat2Z.inj_le, sublist_length. clear -Ht1.
    induction keys as [|k keys IHk]; [done|]. rewrite !filter_cons.
    destruct (decide (is_Some (get t1 A k))) as [[p Hp]|].
    - rewrite decide_True by (exists p; by eapply get_later). by constructor.
    - destruct (decide _); [by constructor|done]. }
  rewrite !filter_cons. case_bool_decide; repeat destruct (decide _); rewrite ?len_cons;
    naive_solver lia.
Qed.

Lemma cmdExists_refines : refines (-2) no_pre (cmdExists maphash E) spec_exists.
Proof.
  intros args c t As A Hs Hsel _ _ (a0 & key & rest & ->)%args_from_n _; [|done].
  unfold cmdExists. cgo (args_from_1 a0 (key :: rest) c).
  destruct (count_exists (key :: rest) 0 c t As A) as (t' & c' & n & En & Ht & Hs' & Hf & Hn); [done..|].
  cgo En. unchanged t t'. rewrite Z.sub_0_r in Hn. by eexists _, _, _.
Qed.

Lemma cmdExpire_refines : refines 3 no_pre (cmdExpire maphash E) spec_expire.
Proof.
  intros args c t As A Hs Hsel _ _ (a0 & key & x & ->)%args_3 _. unfold cmdExpire. cstep.
  destruct (ParseInt x) as [secs|] eqn:Ep.
  - destruct (sess_now maphash E c t As Hs) as (Ht & En & Hs1). cgo En.
    set (c1 := set_tick c (S (c_tick c))) in *. set (t1 := env_now E (c_tick c)) in *.
    cstep. destruct (k_SetExpire_spec maphash E key (time_Add t1 (mul_duration secs Second)) c1 t1 As A)
      as (t2 & c2 & E2 & Ht2 & Hs2 & Hf2); [done|done|].
    cgo E2. stored t1 t2. exists key, x. rewrite Ep. done.
  - unchanged t t. exists key, x. rewrite Ep. done.
Qed.

Lemma cmdPExpireAt_refines : refines 3 no_pre (cmdPExpireAt maphash E) spec_pexpireat.
Proof.
  intros args c t As A Hs Hsel _ _ (a0 & key & x & ->)%args_3 _. unfold cmdPExpireAt. cstep.
  destruct (ParseInt x) as [ms|] eqn:Ep.
  - cstep. destruct (k_SetExpire_spec maphash E key (time_UnixMilli ms) c t As A)
      as (t2 & c2 & E2 & Ht2 & Hs2 & Hf2); [done|done|].
    cgo E2. stored t2 t2. exists key, x. rewrite Ep. done.
  - unchanged t t. exists key, x. rewrite Ep. done.
Qed.

Lemma cmdTTL_refines : refines 2 no_pre (cmdTTL maphash E) spec_ttl.
Proof.
  intros args c t As A Hs Hsel _ _ (a0 & key & ->)%args_2 _. unfold cmdTTL. cstep.
  destruct (k_Lookup_spec maphash E key c t As A Hs Hsel) as (t1 & c1 & o & Eg & Ht & Hs1 & Hf & Hr).
  cgo Eg. destruct o as [e|], (get t1 A key) as [[a d]|] eqn:Ega; try done.
  - destruct Hr as [Hv He]. unfold HasExpiry. rewrite He, negb_involutive.
    destruct (IsZero d) eqn:Ez.
    + unchanged t1 t1. exists key. rewrite Ega, Ez. done.
    + destruct (sess_now maphash E c1 t1 As Hs1) as (Ht2 & En & Hs2). cgo En.
      unchanged t1 (env_now E (c_tick c1)). exists key. rewrite Ega, Ez. split_and!; [done..|].
      do 2 f_equal. zcases.
  - unchanged t1 t1. exists key. by rewrite Ega.
Qed.

Lemma cmdPersist_refines : refines 2 no_pre (cmdPersist maphash E) spec_persist.
Proof.
  intros args c t As A Hs Hsel _ _ (a0 & key & ->)%args_2 _. unfold cmdPersist. cstep.
  destruct (k_Persist_spec maphash E key c t As A Hs Hsel) as (t1 & c1 & E1 & Ht & Hs1 & Hf).
  cgo E1. stored t1 t1. by exists key.
Qed.

Lemma cmdType_refines : refines 2 no_pre (cmdType maphash E) spec_type.
Proof.
  intros args c t As A Hs Hsel _ _ (a0 & key & ->)%args_2 _. unfold cmdType. cstep.
  destruct (k_Lookup_spec maphash E key c t As A Hs Hsel) as (t1 & c1 & o & Eg & Ht & Hs1 & Hf & Hr).
  cgo Eg. destruct o as [e|], (get t1 A key) as [[a d]|] eqn:Ega; try done.
  - destruct Hr as [Hv He]. rewrite (value_rep_kind _ _ Hv).
    unchanged t1 t1. exists key. by rewrite Ega.
  - unchanged t1 t1. exists key. by rewrite Ega.
Qed.
End Refinement.
