(* ===== verification/CollectionSpec.v ===== *)
(** * What the collection commands mean

    The meanings of the list, hash, set and sorted-set commands on an abstract
    store, and the proofs that the handlers refine them. *)

From S2P Require Import Prelude Pack Float64 Skiplist ValueList ValueHash ValueSet ValueZSet.
From S2P Require Import GoTime Value Keyspace Shard Strconv Resp Config Command Session CommandSpec.

(** ** Collections

    What the handlers need of a collection: its kind, its accessor and
    constructor among the values, how to make an empty one, and that these agree
    with its abstract contents. *)
Class Collection (C X : Type) := {
  coll_kind : Kind;
  coll_unwrap : Value -> outcome C;
  coll_wrap : C -> Value;
  coll_new : Limits -> C;
  coll_proj : avalue -> option X;
  coll_inj : X -> avalue;
  coll_empty : X;
  coll_is_empty : X -> bool;
  coll_proj_kind : forall a, is_Some (coll_proj a) <-> akind a = coll_kind;
  coll_proj_inj : forall a x, coll_proj a = Some x -> a = coll_inj x;
  coll_rep_unwrap : forall v x, value_rep v (coll_inj x) ->
    exists l, coll_unwrap v = Ret l /\ v = coll_wrap l;
  coll_new_rep : forall lim, value_rep (coll_wrap (coll_new lim)) (coll_inj coll_empty) }.

Definition as_list (a : avalue) : option (list bytes) :=
  match a with AList es => Some es | _ => None end.
Definition as_hash (a : avalue) : option (gmap bytes bytes) :=
  match a with AHash m => Some m | _ => None end.
Definition as_set (a : avalue) : option (gset bytes) :=
  match a with ASet X => Some X | _ => None end.
Definition as_zset (a : avalue) : option (gmap bytes float64) :=
  match a with AZSet m => Some m | _ => None end.

#[export] Program Instance list_collection : Collection List (list bytes) := {
  coll_kind := KindList;
  coll_unwrap := Value_List;
  coll_wrap := MakeList;
  coll_new lim := NewList (lim_List lim);
  coll_proj := as_list;
  coll_inj := AList;
  coll_empty := [];
  coll_is_empty es := bool_decide (es = []) }.
Next Obligation. intros []; simpl; split; intros Hk; try done; eauto; by destruct Hk. Qed.
Next Obligation. by intros [] ? [= ->]. Qed.
Next Obligation. intros [] ?; simpl; intros; try done; eauto. Qed.
Next Obligation. intros lim. split; [apply NewList_rep|apply NewList_within]. Qed.

#[export] Program Instance hash_collection : Collection Hash (gmap bytes bytes) := {
  coll_kind := KindHash;
  coll_unwrap := Value_Hash;
  coll_wrap := MakeHash;
  coll_new lim := NewHash (lim_Hash lim);
  coll_proj := as_hash;
  coll_inj := AHash;
  coll_empty := ∅;
  coll_is_empty m := bool_decide (m = ∅) }.
Next Obligation. intros []; simpl; split; intros Hk; try done; eauto; by destruct Hk. Qed.
Next Obligation. by intros [] ? [= ->]. Qed.
Next Obligation. intros [] ?; simpl; intros; try done; eauto. Qed.
Next Obligation. intros lim. split; [apply NewHash_rep|apply NewHash_within]. Qed.

#[export] Program Instance set_collection : Collection GoSet (gset bytes) := {
  coll_kind := KindSet;
  coll_unwrap := Value_Set;
  coll_wrap := MakeSet;
  coll_new lim := NewSet (lim_Set lim);
  coll_proj := as_set;
  coll_inj := ASet;
  coll_empty := ∅;
  coll_is_empty X := bool_decide (X = ∅) }.
Next Obligation. intros []; simpl; split; intros Hk; try done; eauto; by destruct Hk. Qed.
Next Obligation. by intros [] ? [= ->]. Qed.
Next Obligation. intros [] ?; simpl; intros; try done; eauto. Qed.
Next Obligation. intros lim. split; [apply NewSet_rep|apply NewSet_within]. Qed.

#[export] Program Instance zset_collection : Collection ZSet (gmap bytes float64) := {
  coll_kind := KindZSet;
  coll_unwrap := Value_ZSet;
  coll_wrap := MakeZSet;
  coll_new lim := NewZSet (lim_ZSet lim);
  coll_proj := as_zset;
  coll_inj := AZSet;
  coll_empty := ∅;
  coll_is_empty m := bool_decide (m = ∅) }.
Next Obligation. intros []; simpl; split; intros Hk; try done; eauto; by destruct Hk. Qed.
Next Obligation. by intros [] ? [= ->]. Qed.
Next Obligation. intros [] ?; simpl; intros; try done; eauto. Qed.
Next Obligation. intros lim. split; [apply NewZSet_rep|apply NewZSet_within]. Qed.

(** ** Meanings *)

(** What a handler finds at a key it uses as a collection of one kind. *)
Inductive seen (X : Type) :=
  | Absent
  | Wrong
  | Seen (x : X) (d : Time).
Arguments Absent {X}.
Arguments Wrong {X}.
Arguments Seen {X} x d.

Section Shapes.
Context {C X : Type} `{!Collection C X}.

Definition see (t : Time) (A : astore) (key : bytes) : seen X :=
  match get t A key with
  | None => Absent
  | Some (a, d) => match coll_proj a with Some x => Seen x d | None => Wrong end
  end.

(** A read-only command on a collection: [missing] answers for an absent key. *)
Definition reads (missing : Reply) (answer : X -> Reply -> Prop)
    (t : Time) (key : bytes) (A : astore) (r : Reply) (A' : astore) : Prop :=
  A' = A /\
  match see t A key with
  | Absent => r = missing
  | Wrong => r = wrong_type
  | Seen x _ => answer x r
  end.

(** A command that adds to a collection: a missing key is an empty collection
    without a deadline, and the deadline is kept. *)
Definition adds (change : X -> Reply -> X -> Prop)
    (t : Time) (key : bytes) (A : astore) (r : Reply) (A' : astore) : Prop :=
  let added x d := exists x', change x r x' /\ A' = <[key := (coll_inj x', d)]> A in
  match see t A key with
  | Absent => added coll_empty zeroTime
  | Wrong => r = wrong_type /\ A' = A
  | Seen x d => added x d
  end.

(** A command that removes from a collection: one that is emptied takes its
    key with it. *)
Definition removes (missing : Reply) (change : X -> Reply -> X -> Prop)
    (t : Time) (key : bytes) (A : astore) (r : Reply) (A' : astore) : Prop :=
  match see t A key with
  | Absent => r = missing /\ A' = A
  | Wrong => r = wrong_type /\ A' = A
  | Seen x d => exists x', change x r x' /\
      A' = if coll_is_empty x' then delete key A else <[key := (coll_inj x', d)]> A
  end.
End Shapes.
Arguments reads C {X _} missing answer t key A r A'.
Arguments adds C {X _} change t key A r A'.
Arguments removes C {X _} missing change t key A r A'.

(** *** Lists *)

Definition pushes (front : bool) (vs es : list bytes) : list bytes :=
  if front then reverse vs ++ es else es ++ vs.

Definition spec_push (front : bool) : aspec := λ t1 _ args A r A',
  exists key vs, args !! 1%nat = Some key /\ vs = drop 2 args /\
  adds List (λ es r es', es' = pushes front vs es /\ r = RInt (len es')) t1 key A r A'.

(** The [n] elements popped, in the order they come off, and the rest. *)
Definition pops (front : bool) (n : nat) (es : list bytes) : list bytes * list bytes :=
  if front then (take n es, drop n es)
  else (take n (reverse es), reverse (drop n (reverse es))).

(** With a count, an array of up to that many; without, one element. *)
Definition spec_pop (front : bool) : aspec := λ t1 _ args A r A',
  exists name key, args !! 0%nat = Some name /\ args !! 1%nat = Some key /\
  let removed n reply :=
    removes List RNil
      (λ es r es', r = reply (pops front n es).1 /\ es' = (pops front n es).2) t1 key A r A' in
  match drop 2 args with
  | [] => removed 1%nat (λ out, RBulk (default [] (head out)))
  | [a] =>
      match Atoi a with
      | None => r = RError msgNotInteger /\ A' = A
      | Some n =>
          if n <? 0 then r = RError (lit "ERR value is out of range, must be positive") /\ A' = A
          else removed (Z.to_nat n) bulks
      end
  | _ => r = RError (msgArgs name) /\ A' = A
  end.

(** A count whose reply slice fits the address space. *)
Definition pop_pre (args : list bytes) : Prop :=
  forall a n, args !! 2%nat = Some a -> Atoi a = Some n -> n * 80 <= 2 ^ 48.

Definition spec_lrange : aspec := λ t1 _ args A r A',
  exists key a b, args !! 1%nat = Some key /\ args !! 2%nat = Some a /\ args !! 3%nat = Some b /\
  match Atoi a, Atoi b with
  | Some start, Some stop =>
      reads List (RArray []) (λ es r, r = bulks (range_spec start stop es)) t1 key A r A'
  | _, _ => r = RError msgNotInteger /\ A' = A
  end.

Definition spec_llen : aspec := λ t1 _ args A r A',
  exists key, args !! 1%nat = Some key /\
  reads List (RInt 0) (λ es r, r = RInt (len es)) t1 key A r A'.

(** *** Hashes *)

Fixpoint field_values (l : list bytes) : list (bytes * bytes) :=
  match l with
  | f :: v :: l => (f, v) :: field_values l
  | _ => []
  end.

(** HSET: later pairs win; the answer counts the fields that are new. *)
Definition hsets (ps : list (bytes * bytes)) (m : gmap bytes bytes) : gmap bytes bytes :=
  foldl (λ m p, <[p.1 := p.2]> m) m ps.

Definition spec_hset : aspec := λ t1 _ args A r A',
  exists key, args !! 1%nat = Some key /\
  if negb (len args mod 2 =? 0) then r = RError (msgArgs (lit "hset")) /\ A' = A else
  adds Hash (λ m r m', m' = hsets (field_values (drop 2 args)) m /\
    r = RInt (Z.of_nat (size m') - Z.of_nat (size m))) t1 key A r A'.

Definition spec_hget : aspec := λ t1 _ args A r A',
  exists key field, args !! 1%nat = Some key /\ args !! 2%nat = Some field /\
  reads Hash RNil (λ m r, r = match m !! field with Some v => RBulk v | None => RNil end)
    t1 key A r A'.

(** HDEL: the answer counts the fields that were there. *)
Definition spec_hdel : aspec := λ t1 _ args A r A',
  exists key, args !! 1%nat = Some key /\
  removes Hash (RInt 0) (λ m r m', m' = foldl (λ m f, delete f m) m (drop 2 args) /\
    r = RInt (Z.of_nat (size m) - Z.of_nat (size m'))) t1 key A r A'.

(** HGETALL: every pair once, in some order. *)
Definition spec_hgetall : aspec := λ t1 _ args A r A',
  exists key, args !! 1%nat = Some key /\
  reads Hash (RArray []) (λ m r, exists ps, ps ≡ₚ map_to_list m /\ r = bulks (flat ps)) t1 key A r A'.

(** *** Sets *)

Definition spec_sadd : aspec := λ t1 _ args A r A',
  exists key, args !! 1%nat = Some key /\
  adds GoSet (λ X r X', X' = list_to_set (drop 2 args) ∪ X /\
    r = RInt (Z.of_nat (size X') - Z.of_nat (size X))) t1 key A r A'.

Definition spec_srem : aspec := λ t1 _ args A r A',
  exists key, args !! 1%nat = Some key /\
  removes GoSet (RInt 0) (λ X r X', X' = X ∖ list_to_set (drop 2 args) /\
    r = RInt (Z.of_nat (size X) - Z.of_nat (size X'))) t1 key A r A'.

Definition spec_smembers : aspec := λ t1 _ args A r A',
  exists key, args !! 1%nat = Some key /\
  reads GoSet (RArray []) (λ X r, exists es, es ≡ₚ elements X /\ r = bulks es) t1 key A r A'.

(** SINTER: the keys are looked up one after the other; the first that is
    absent or not a set decides the answer. *)
Fixpoint sinter_sets (A : astore) (ks : list (Time * bytes)) : list (gset bytes) + Reply :=
  match ks with
  | [] => inl []
  | (t, k) :: ks =>
      match see (C := GoSet) t A k with
      | Absent => inr (RArray [])
      | Wrong => inr wrong_type
      | Seen X _ => match sinter_sets A ks with inl Xs => inl (X :: Xs) | inr r => inr r end
      end
  end.

Definition spec_sinter : aspec := λ t1 t2 args A r A',
  A' = A /\ exists ts, length ts = length (drop 1 args) /\ Forall (λ t, t1 <= t <= t2) ts /\
  match sinter_sets A (zip ts (drop 1 args)) with
  | inr r' => r = r'
  | inl Xs => exists es, r = bulks es /\ NoDup es /\ forall x, x ∈ es <-> Forall (λ X, x ∈ X) Xs
  end.

(** *** Sorted sets *)

(** The pairs added in order; see [add_result] for what one addition does. *)
Fixpoint zadds (ps : list (float64 * bytes)) (m m' : gmap bytes float64) : Prop :=
  match ps with
  | [] => m' = m
  | (score, member) :: ps => exists m1, add_result m member score m1 /\ zadds ps m1 m'
  end.

(** ZADD: all scores are parsed before the key is looked at. *)
Definition spec_zadd (parseFloat : bytes -> option float64) : aspec := λ t1 _ args A r A',
  exists key, args !! 1%nat = Some key /\
  if negb (len args mod 2 =? 0) then r = RError (msgArgs (lit "zadd")) /\ A' = A else
  match parse_pairs parseFloat (drop 2 args) with
  | None => r = RError (lit "ERR value is not a valid float") /\ A' = A
  | Some pairs =>
      adds ZSet (λ m r m', zadds pairs m m' /\ r = RInt (Z.of_nat (size m') - Z.of_nat (size m)))
        t1 key A r A'
  end.

(** Whether ZRANGE wants the scores; [None] is a syntax error. *)
Definition zrange_scores (args : list bytes) : option bool :=
  match drop 4 args with
  | [] => Some false
  | [a] => if EqualFold a (lit "WITHSCORES") then Some true else None
  | _ => None
  end.

Definition zrange_reply (formatFloat : float64 -> bytes) (scores : bool) (ps : list (bytes * float64)) :
    Reply :=
  RArray (if scores then concat (map (λ p, [RBulk p.1; RBulk (formatScore formatFloat p.2)]) ps)
          else map (λ p, RBulk p.1) ps).

(** ZRANGE: a range of the members by score, then by name. *)
Definition spec_zrange (formatFloat : float64 -> bytes) : aspec := λ t1 _ args A r A',
  exists key a b, args !! 1%nat = Some key /\ args !! 2%nat = Some a /\ args !! 3%nat = Some b /\
  match zrange_scores args with
  | None => r = RError (lit "ERR syntax error") /\ A' = A
  | Some scores =>
      match Atoi a, Atoi b with
      | Some start, Some stop =>
          reads ZSet (RArray []) (λ m r, exists ps, ps ≡ₚ map_to_list m /\ zsorted ps /\
            r = zrange_reply formatFloat scores (range_spec start stop ps)) t1 key A r A'
      | _, _ => r = RError msgNotInteger /\ A' = A
      end
  end.

Definition spec_zscore (formatFloat : float64 -> bytes) : aspec := λ t1 _ args A r A',
  exists key member, args !! 1%nat = Some key /\ args !! 2%nat = Some member /\
  reads ZSet RNil (λ m r, r = match m !! member with
    | Some s => RBulk (formatScore formatFloat s) | None => RNil end) t1 key A r A'.

(** ** Handlers and meanings *)

Section CollectionRefinement.
Context (maphash : bytes -> Z) (E : Env).

Section Generic.
Context {C X : Type} `{!Collection C X}.

(** What [lookup_kind] finds. *)
Lemma lookup_kind_spec key c t As A :
  sess maphash E c t As -> sel c As A ->
  exists t' c' r, lookup_kind maphash E key coll_kind c = Ret (r, c') /\
    t <= t' /\ sess maphash E c' t' As /\ same_frame c c' /\
    match see (C := C) t' A key with
    | Absent => r = inl None /\ get t' A key = None
    | Wrong => r = inr wrong_type
    | Seen x d => exists e l, r = inl (Some e) /\ get t' A key = Some (coll_inj x, d) /\
        coll_unwrap (e_Value e) = Ret l /\ value_rep (coll_wrap l) (coll_inj x)
    end.
Proof.
  intros Hs Hsel.
  destruct (k_Lookup_spec maphash E key c t As A Hs Hsel) as (t' & c' & o & Eg & Ht & Hs' & Hf & Hr).
  eexists t', c', _. unfold lookup_kind. cgo Eg. split; [done|]. split_and!; [done..|].
  unfold see. destruct o as [e|], (get t' A key) as [[a d]|] eqn:Ega; try done.
  destruct Hr as [Hv He]. rewrite (value_rep_kind _ _ Hv). pose proof (coll_proj_kind a) as Hp.
  destruct (coll_proj a) as [x|] eqn:Ep.
  - rewrite bool_decide_false by (intros Hn; apply Hn, Hp; eauto).
    pose proof (coll_proj_inj a x Ep) as ->.
    destruct (coll_rep_unwrap _ _ Hv) as (l & El & Ev). exists e, l. by rewrite <- Ev.
  - by rewrite bool_decide_true by (intros Hn; by apply Hp in Hn as [? ?]).
Qed.

(** The store of a write: in place, or a new entry. *)
Lemma store_collection_spec key existing v av d c t As A :
  sess maphash E c t As -> sel c As A -> value_rep v av ->
  match get t A key with
  | Some (_, d') => existing = true /\ d = d'
  | None => existing = false /\ d = zeroTime
  end ->
  exists c', store_collection maphash key existing v c = Ret (tt, c') /\
    sess maphash E c' t (upd c As (<[key := (av, d)]> A)) /\ same_frame c c'.
Proof.
  intros Hs Hsel Hv Hd. unfold store_collection.
  destruct (get t A key) as [[a d']|] eqn:Eg; destruct Hd as [-> ->].
  - by eapply k_mutate_spec.
  - by apply k_Set_spec.
Qed.

(** The end of a removal. *)
Lemma finish_remove_spec key v av av0 d n c t As A :
  sess maphash E c t As -> sel c As A -> get t A key = Some (av0, d) -> value_rep v av ->
  exists t' c', finish_remove maphash E key v n c = Ret (tt, c') /\ t <= t' /\
    sess maphash E c' t' (upd c As (if n =? 0 then delete key A else <[key := (av, d)]> A)) /\
    same_frame c c'.
Proof.
  intros Hs Hsel Hg Hv. unfold finish_remove.
  destruct (k_mutate_spec maphash E key v av av0 d c t As A Hs Hsel Hg Hv) as (c1 & E1 & Hs1 & Hf1).
  cgo E1. destruct (n =? 0).
  - destruct (k_Delete_spec maphash E key c1 t _ (<[key := (av, d)]> A) Hs1)
      as (t' & c' & E2 & Ht & Hs2 & Hf2).
    { eapply sel_frame; [done|]. by eapply sel_upd. }
    cgo E2. exists t', c'. split_and!; [done|done| |by eapply same_frame_trans].
    rewrite (upd_frame c c1), upd_upd, delete_insert_eq in Hs2 by done. done.
  - exists t, c1. split_and!; [done|lia|done|done].
Qed.

(** The shape of the read-only and the removing handlers. *)
Lemma inspect_ends (K : C -> cmd Reply) (missing : Reply) (key : bytes) (P : Time -> Time -> Reply -> astore -> Prop)
    c t As A :
  sess maphash E c t As -> sel c As A ->
  (forall t, see (C := C) t A key = Absent -> P t t missing A) ->
  (forall t, see (C := C) t A key = Wrong -> P t t wrong_type A) ->
  (forall c t l x d, sess maphash E c t As -> sel c As A ->
    see (C := C) t A key = Seen x d -> get t A key = Some (coll_inj x, d) ->
    value_rep (coll_wrap l) (coll_inj x) ->
    ends maphash E (K l) c t As (λ t1 t2 r A', t1 = t /\ P t t2 r A')) ->
  ends maphash E (do e := lookup_kind maphash E key coll_kind in
        match e with
        | inr reply => cret reply
        | inl None => cret missing
        | inl (Some e) => do l := lift (coll_unwrap (e_Value e)) in K l
        end) c t As P.
Proof.
  intros Hs Hsel Ha Hw HK.
  destruct (lookup_kind_spec key c t As A Hs Hsel) as (t1 & c1 & r & E1 & Ht & Hs1 & Hf1 & Hr).
  unfold ends. cgo E1. destruct (see t1 A key) as [| |x d] eqn:Es.
  - destruct Hr as [-> _]. unchanged t1 t1. by apply Ha.
  - subst r. unchanged t1 t1. by apply Hw.
  - destruct Hr as (e & l & -> & Hg & El & Hv). cgo (lift_Ret _ c1 _ El).
    destruct (HK c1 t1 l x d Hs1 (sel_frame _ _ _ _ Hf1 Hsel) Es Hg Hv)
      as (? & t2 & c2 & r & A' & E2 & Ht2 & Hs2 & Hf2 & -> & HP).
    rewrite E2, (upd_frame c c1) in * by done.
    exists t1, t2, c2, r, A'. split_and!; [done|lia|lia|done|by eapply same_frame_trans|done].
Qed.

Lemma reads_ends (K : C -> cmd Reply) (missing : Reply) (key : bytes) (answer : X -> Reply -> Prop) c t As A :
  sess maphash E c t As -> sel c As A ->
  (forall c t l x d, sess maphash E c t As -> value_rep (coll_wrap l) (coll_inj x) ->
    A !! key = Some (coll_inj x, d) ->
    exists r c', K l c = Ret (r, c') /\ sess maphash E c' t As /\ same_frame c c' /\ answer x r) ->
  ends maphash E (do e := lookup_kind maphash E key coll_kind in
        match e with
        | inr reply => cret reply
        | inl None => cret missing
        | inl (Some e) => do l := lift (coll_unwrap (e_Value e)) in K l
        end) c t As (λ t1 _ r A', reads C missing answer t1 key A r A').
Proof.
  intros Hs Hsel HK. apply (inspect_ends _ _ _ _ _ _ _ A); [done..| | |].
  - intros t0 Hsee. unfold reads. by rewrite Hsee.
  - intros t0 Hsee. unfold reads. by rewrite Hsee.
  - intros c0 t0 l x d Hs0 Hsel0 Hsee Hg Hv.
    destruct (HK c0 t0 l x d Hs0 Hv (get_Some _ _ _ _ Hg)) as (r & c' & EK & Hs' & Hf & Ha).
    exists t0, t0, c', r, A. rewrite upd_same by done. split_and!; [done|lia|lia|done..|].
    unfold reads. by rewrite Hsee.
Qed.

Lemma removes_ends (K : C -> cmd Reply) (missing : Reply) (key : bytes) (change : X -> Reply -> X -> Prop) c t As A :
  sess maphash E c t As -> sel c As A ->
  (forall c l x, sel c As A -> value_rep (coll_wrap l) (coll_inj x) ->
    exists r l' x' n, value_rep (coll_wrap l') (coll_inj x') /\ change x r x' /\
      (n =? 0) = coll_is_empty x' /\
      K l c = (do _ := finish_remove maphash E key (coll_wrap l') n in cret r) c) ->
  ends maphash E (do e := lookup_kind maphash E key coll_kind in
        match e with
        | inr reply => cret reply
        | inl None => cret missing
        | inl (Some e) => do l := lift (coll_unwrap (e_Value e)) in K l
        end) c t As (λ t1 _ r A', removes C missing change t1 key A r A').
Proof.
  intros Hs Hsel HK. apply (inspect_ends _ _ _ _ _ _ _ A); [done..| | |].
  - intros t0 Hsee. unfold removes. by rewrite Hsee.
  - intros t0 Hsee. unfold removes. by rewrite Hsee.
  - intros c0 t0 l x d Hs0 Hsel0 Hsee Hg Hv.
    destruct (HK c0 l x Hsel0 Hv) as (r & l' & x' & n & Hv' & Hc & Hn & EK).
    destruct (finish_remove_spec key (coll_wrap l') (coll_inj x') _ d n c0 t0 As A Hs0 Hsel0 Hg Hv')
      as (t' & c' & E2 & Ht & Hs2 & Hf2).
    unfold ends. rewrite EK. cgo E2. rewrite Hn in Hs2.
    eexists t0, t', c', _, _. split_and!; [done|lia|lia|done..|].
    unfold removes. rewrite Hsee. by exists x'.
Qed.

(** The shape of the adding handlers. *)
Lemma adds_ends (K : bool -> C -> cmd Reply) (key : bytes) (change : X -> Reply -> X -> Prop) c t As A :
  sess maphash E c t As -> sel c As A ->
  (forall c t existing l x, sess maphash E c t As -> sel c As A ->
    value_rep (coll_wrap l) (coll_inj x) ->
    exists c' r l' x', value_rep (coll_wrap l') (coll_inj x') /\ change x r x' /\
      sess maphash E c' t As /\ same_frame c c' /\
      K existing l c = (do _ := store_collection maphash key existing (coll_wrap l') in cret r) c') ->
  ends maphash E (do e := lookup_kind maphash E key coll_kind in
        match e with
        | inr reply => cret reply
        | inl e =>
            do l := match e with
                    | Some e => lift (coll_unwrap (e_Value e))
                    | None => λ c, Ret (coll_new (c_limits c), c)
                    end in
            K (bool_decide (is_Some e)) l
        end) c t As (λ t1 _ r A', adds C change t1 key A r A').
Proof.
  intros Hs Hsel HK.
  destruct (lookup_kind_spec key c t As A Hs Hsel) as (t1 & c1 & r & E1 & Ht & Hs1 & Hf1 & Hr).
  pose proof (sel_frame _ _ _ _ Hf1 Hsel) as Hsel1.
  assert (forall existing l x d, value_rep (coll_wrap l) (coll_inj x) ->
    match get t1 A key with
    | Some (_, d') => existing = true /\ d = d'
    | None => existing = false /\ d = zeroTime
    end ->
    (exists r x', change x r x' /\ exists c', K existing l c1 = Ret (r, c') /\
      sess maphash E c' t1 (upd c As (<[key := (coll_inj x', d)]> A)) /\ same_frame c c')) as Hgo.
  { intros existing l x d Hv Hd.
    destruct (HK c1 t1 existing l x Hs1 Hsel1 Hv) as (c2 & r' & l' & x' & Hv' & Hc & Hs2 & Hf2 & EK).
    destruct (store_collection_spec key existing _ _ d c2 t1 As A Hs2 (sel_frame _ _ _ _ Hf2 Hsel1) Hv' Hd)
      as (c3 & E3 & Hs3 & Hf3).
    pose proof (same_frame_trans _ _ _ Hf1 Hf2) as Hf12.
    exists r', x'. split; [done|]. exists c3. rewrite EK. cgo E3.
    rewrite (upd_frame c c2) in Hs3 by done. split_and!; [done..|by eapply same_frame_trans]. }
  unfold ends. cgo E1. destruct (see t1 A key) as [| |x d] eqn:Es.
  - destruct Hr as [-> Hg]. rewrite Hg in Hgo. cstep.
    destruct (Hgo false (coll_new (c_limits c1)) coll_empty zeroTime) as (r & x' & Hc & c' & EK & Hs' & Hf');
      [apply coll_new_rep|done|].
    eexists t1, t1, c', r, _. split_and!; [exact EK|lia|lia|exact Hs'|done|].
    unfold adds. rewrite Es. by exists x'.
  - subst r. unchanged t1 t1. unfold adds. by rewrite Es.
  - destruct Hr as (e & l & -> & Hg & El & Hv). rewrite Hg in Hgo. cgo (lift_Ret _ c1 _ El).
    destruct (Hgo true l x d Hv) as (r & x' & Hc & c' & EK & Hs' & Hf'); [done|].
    eexists t1, t1, c', r, _. split_and!; [exact EK|lia|lia|exact Hs'|done|].
    unfold adds. rewrite Es. by exists x'.
Qed.
End Generic.

(** *** Lists *)

Lemma list_push_spec front vs l es :
  list_rep l es -> list_within l es -> Forall go_len vs ->
  exists l', ofold (list_push front) vs l = Ret l' /\
    list_rep l' (pushes front vs es) /\ list_within l' (pushes front vs es).
Proof.
  intros Hr Hw Hvs. revert l es Hr Hw.
  induction Hvs as [|v vs Hv Hvs IH]; intros l es Hr Hw.
  { exists l. unfold pushes. destruct front; simpl; by rewrite ?app_nil_r. }
  cbn [ofold]. unfold pushes in *. destruct front; simpl.
  - destruct (List_PushFront_spec l es v Hr Hw Hv) as (l1 & -> & Hr1 & _ & Hw1). orun.
    destruct (IH l1 (v :: es) Hr1 Hw1) as (l2 & -> & Hr2 & Hw2).
    exists l2. by rewrite reverse_cons, <- app_assoc.
  - destruct (List_PushBack_spec l es v Hr Hw Hv) as (l1 & -> & Hr1 & _ & Hw1). orun.
    destruct (IH l1 (es ++ [v]) Hr1 Hw1) as (l2 & -> & Hr2 & Hw2).
    exists l2. by rewrite <- app_assoc in Hr2, Hw2.
Qed.

Lemma listPush_refines front :
  refines maphash E (-3) no_pre (λ args, listPush maphash E args front) (spec_push front).
Proof.
  intros args c t As A Hs Hsel _ Hl (a0 & key & vs & ->)%args_from_n _; [|done].
  apply Forall_cons in Hl as [_ [_ Hvs]%Forall_cons].
  eapply ends_bind; [reflexivity|]. eapply ends_mono.
  - refine (adds_ends (C := List) (λ existing l, do vs := args_from (a0 :: key :: vs) 2 in
      do l := lift (ofold (list_push front) vs l) in
      do _ := store_collection maphash key existing (MakeList l) in
      cret (RInt (List_Len l))) key (λ es r es', es' = pushes front vs es /\ r = RInt (len es'))
      c t As A Hs Hsel _).
    intros c0 t0 existing l es Hs0 Hsel0 [Hr Hw].
    destruct (list_push_spec front vs l es Hr Hw Hvs) as (l' & El & Hr' & Hw').
    exists c0, (RInt (List_Len l')), l', (pushes front vs es). cgo (args_from_2 a0 key vs c0).
    cgo (lift_Ret _ c0 _ El). by rewrite (List_Len_spec l' _ Hr').
  - intros t1 t2 r A' Ha. by exists key, vs.
Qed.

Lemma pops_nil front n : pops front n [] = ([], []).
Proof. unfold pops. destruct front; by rewrite ?reverse_nil, ?take_nil, ?drop_nil. Qed.

Lemma pops_0 front es : pops front 0 es = ([], es).
Proof. unfold pops. destruct front; simpl; by rewrite ?drop_0, ?reverse_involutive. Qed.

(** One pop, at either end. *)
Lemma list_pop_spec front l es :
  list_rep l es -> list_within l es ->
  es = [] /\ list_pop front l = Ret (None, l) \/
  exists e es' l', list_pop front l = Ret (Some e, l') /\
    list_rep l' es' /\ list_within l' es' /\ length es = S (length es') /\
    forall n, pops front (S n) es = (e :: (pops front n es').1, (pops front n es').2).
Proof.
  intros Hr Hw. unfold list_pop. destruct front.
  - destruct es as [|e es].
    + left. by destruct (List_pop_empty l Hr) as [-> _].
    + destruct (List_PopFront_spec l e es Hr Hw) as (l' & -> & Hr' & _ & Hw').
      right. by exists e, es, l'.
  - destruct es as [|e es _] using rev_ind.
    + left. by destruct (List_pop_empty l Hr) as [_ ->].
    + destruct (List_PopBack_spec l e es Hr Hw) as (l' & -> & Hr' & _ & Hw').
      right. exists e, es, l'. split_and!; [done..|rewrite length_app; simpl; lia|].
      intros n. unfold pops. by rewrite reverse_app.
Qed.

(** The counted loop: [fuel] past the length is enough. *)
Lemma pop_loop_spec front n : forall fuel l es out,
  list_rep l es -> list_within l es -> (length es < fuel)%nat ->
  exists l', pop_loop fuel front (Z.of_nat n) l out
      = Ret (out ++ map RBulk (pops front n es).1, l') /\
    list_rep l' (pops front n es).2 /\ list_within l' (pops front n es).2.
Proof.
  induction n as [|n IH]; intros fuel l es out Hr Hw Hf.
  { exists l. rewrite pops_0, app_nil_r. by destruct fuel. }
  destruct fuel as [|fuel]; [lia|]. cbn [pop_loop].
  destruct (Z.leb_spec (Z.of_nat (S n)) 0); [lia|].
  destruct (list_pop_spec front l es Hr Hw)
    as [[-> ->]|(e & es' & l' & -> & Hr' & Hw' & Hlen & Hpops)]; orun.
  - exists l. by rewrite pops_nil, app_nil_r.
  - replace (Z.of_nat (S n) - 1) with (Z.of_nat n) by lia.
    destruct (IH fuel l' es' (out ++ [RBulk e]) Hr' Hw') as (l2 & -> & Hr2 & Hw2); [lia|].
    exists l2. rewrite Hpops. simpl. by rewrite <- app_assoc.
Qed.

(** The removal of a pop, for any reply made of the elements popped. *)
Lemma pop_removes front n key (K : List -> cmd Reply) (reply : list bytes -> Reply) c t As A :
  sess maphash E c t As -> sel c As A ->
  (forall c l es, list_rep l es -> list_within l es ->
    exists l', list_rep l' (pops front n es).2 /\ list_within l' (pops front n es).2 /\
      K l c = (do _ := finish_remove maphash E key (MakeList l') (List_Len l') in
               cret (reply (pops front n es).1)) c) ->
  ends maphash E (do e := lookup_kind maphash E key KindList in
        match e with
        | inr reply => cret reply
        | inl None => cret RNil
        | inl (Some e) => do l := lift (Value_List (e_Value e)) in K l
        end) c t As (λ t1 _ r A', removes List RNil (λ es r es',
          r = reply (pops front n es).1 /\ es' = (pops front n es).2) t1 key A r A').
Proof.
  intros Hs Hsel HK. refine (removes_ends (C := List) K RNil key _ c t As A Hs Hsel _).
  intros c0 l es _ [Hr Hw]. destruct (HK c0 l es Hr Hw) as (l' & Hr' & Hw' & EK).
  eexists _, l', _, (List_Len l'). split; [by split|]. split; [done|]. split; [|exact EK].
  rewrite (List_Len_spec _ _ Hr'). cbn [coll_is_empty list_collection].
  destruct (pops front n es).2 as [|e0 es0]; [done|]. rewrite len_cons, bool_decide_false by done.
  apply Z.eqb_neq. pose proof (len_nonneg es0). lia.
Qed.

(** Popping without a count. *)
Lemma pop_one_ends front (a0 key : bytes) c t As A :
  sess maphash E c t As -> sel c As A ->
  ends maphash E (listPop maphash E [a0; key] front) c t As (λ t1 t2 r A', spec_pop front t1 t2 [a0; key] A r A').
Proof.
  intros Hs Hsel. unfold listPop. cbn [len length Z.ltb Z.compare]. eapply ends_bind; [reflexivity|]. cbn iota beta.
  eapply ends_bind; [reflexivity|]. eapply ends_mono.
  - apply (pop_removes front 1 key (λ l, do (v, l) := lift (list_pop front l) in
      do _ := finish_remove maphash E key (MakeList l) (List_Len l) in
      cret (RBulk (default [] v))) (λ out, RBulk (default [] (head out)))); [done..|].
    intros c0 l es Hr Hw.
    destruct (list_pop_spec front l es Hr Hw)
      as [[-> Ep]|(e & es' & l' & Ep & Hr' & Hw' & Hlen & Hpops)].
    + exists l. rewrite pops_nil. by cgo (lift_Ret _ c0 _ Ep).
    + exists l'. rewrite (Hpops 0%nat), pops_0. by cgo (lift_Ret _ c0 _ Ep).
  - intros t1 t2 r A' Hr. by exists a0, key.
Qed.

Lemma pop_count_run (a0 key a : bytes) (c : CmdContext) :
  pop_count [a0; key; a] c = Ret (match Atoi a with
    | None => inr (RError msgNotInteger)
    | Some n => if n <? 0 then inr (RError (lit "ERR value is out of range, must be positive"))
                else inl (n, true) end, c).
Proof. reflexivity. Qed.

(** Popping [n] elements, at least none. *)
Lemma pop_count_ends front (a0 key a : bytes) n c t As A :
  sess maphash E c t As -> sel c As A -> Atoi a = Some n -> 0 <= n -> n * 80 <= 2 ^ 48 ->
  ends maphash E (listPop maphash E [a0; key; a] front) c t As (λ t1 t2 r A', spec_pop front t1 t2 [a0; key; a] A r A').
Proof.
  intros Hs Hsel Ea Hn Hfit. unfold listPop. change (3 <? len [a0; key; a]) with false. cbn iota.
  assert (forall c, pop_count [a0; key; a] c = Ret (inl (n, true), c)) as Ep.
  { intros c0. rewrite pop_count_run, Ea. by destruct (Z.ltb_spec n 0); [lia|]. }
  eapply ends_bind; [apply Ep|]. cbn iota beta. eapply ends_bind; [reflexivity|]. eapply ends_mono.
  - apply (pop_removes front (Z.to_nat n) key (λ l, do _ := lift (make_replies n) in
      do (out, l) := lift (pop_loop (S (Z.to_nat (List_Len l))) front n l []) in
      do _ := finish_remove maphash E key (MakeList l) (List_Len l) in
      cret (RArray out)) bulks); [done..|].
    intros c0 l es Hr Hw.
    destruct (pop_loop_spec front (Z.to_nat n) (S (Z.to_nat (List_Len l))) l es [] Hr Hw)
      as (l' & El & Hr' & Hw').
    { rewrite (List_Len_spec _ _ Hr), to_nat_len. lia. }
    rewrite Z2Nat.id in El by done. exists l'. split_and!; [done..|].
    assert (make_replies n = Ret tt) as Em.
    { unfold make_replies. by destruct (Z.ltb_spec (2 ^ 48) (n * 80)); [lia|]. }
    cgo (lift_Ret _ c0 _ Em). by cgo (lift_Ret _ c0 _ El).
  - intros t1 t2 r A' Hr. exists a0, key. split_and!; [done..|]. cbn. rewrite Ea.
    by destruct (Z.ltb_spec n 0); [lia|].
Qed.

Lemma listPop_refines front :
  refines maphash E (-2) pop_pre (λ args, listPop maphash E args front) (spec_pop front).
Proof.
  intros args c t As A Hs Hsel _ Hl (a0 & key & rest & ->)%args_from_n Hpre; [|done].
  destruct rest as [|a [|b rest]]; [by apply pop_one_ends| |].
  - destruct (Atoi a) as [n|] eqn:Ea; [destruct (Z.ltb_spec n 0) as [Hn|Hn]|].
    2: { apply (pop_count_ends front a0 key a n); [done..|]. by apply (Hpre a). }
    all: eapply ends_now; [done..| |exists a0, key; split_and!; [done..|]; cbn; rewrite Ea].
    1, 3: unfold listPop; change (3 <? len [a0; key; a]) with false; cbn iota;
      cgo (pop_count_run a0 key a c); by rewrite Ea, ?(proj2 (Z.ltb_lt n 0) Hn).
    + by rewrite (proj2 (Z.ltb_lt n 0) Hn).
    + done.
  - eapply ends_now; [done..| |by exists a0, key]. unfold listPop.
    destruct (Z.ltb_spec 3 (len (a0 :: key :: a :: b :: rest))); [done|].
    rewrite !len_cons in *. pose proof (len_nonneg rest). lia.
Qed.
Lemma small_list (A : astore) (key : bytes) (es : list bytes) (d : Time) :
  small A -> A !! key = Some (AList es, d) -> len es <= MaxInt64.
Proof. intros Hsm Hk. apply (Hsm _ _ Hk). Qed.

Lemma cmdLRange_refines : refines maphash E 4 no_pre (cmdLRange maphash E) spec_lrange.
Proof.
  intros args c t As A Hs Hsel Hsm _ (a0 & key & a & b & ->)%args_4 _. unfold cmdLRange.
  do 2 (eapply ends_bind; [reflexivity|]).
  destruct (Atoi a) as [start|] eqn:Ea, (Atoi b) as [stop|] eqn:Eb;
    try (eapply ends_now; [done..|]; exists key, a, b; by rewrite Ea, ?Eb).
  eapply ends_bind; [reflexivity|]. eapply ends_mono.
  - refine (reads_ends (C := List) _ (RArray []) key (λ es r, r = bulks (range_spec start stop es))
      c t As A Hs Hsel _).
    intros c0 t0 l es d Hs0 [Hr _] Hk. eexists _, c0. split; [|done].
    by cgo (lift_Ret _ c0 _ (List_Range_spec l es start stop Hr (ParseInt_int64 _ _ Ea)
      (ParseInt_int64 _ _ Eb) (small_list A key es d Hsm Hk))).
  - intros t1 t2 r A' Hr. exists key, a, b. by rewrite Ea, Eb.
Qed.

Lemma cmdLLen_refines : refines maphash E 2 no_pre (cmdLLen maphash E) spec_llen.
Proof.
  intros args c t As A Hs Hsel Hsm _ (a0 & key & ->)%args_2 _.
  eapply ends_bind; [reflexivity|]. eapply ends_mono.
  - refine (reads_ends (C := List) _ (RInt 0) key (λ es r, r = RInt (len es)) c t As A Hs Hsel _).
    intros c0 t0 l es d Hs0 [Hr _] Hk. eexists _, c0. split; [done|].
    by rewrite (List_Len_spec _ _ Hr).
  - intros t1 t2 r A' Hr. by exists key.
Qed.

(** *** Hashes *)

Lemma hash_set_loop_spec l : forall h m n,
  hash_rep h m -> hash_within h m -> Forall go_len l ->
  exists h', hash_set_loop l h n
      = Ret (n + Z.of_nat (size (hsets (field_values l) m)) - Z.of_nat (size m), h') /\
    hash_rep h' (hsets (field_values l) m) /\ hash_within h' (hsets (field_values l) m).
Proof.
  assert (forall k l, (length l <= k)%nat -> forall h m n,
    hash_rep h m -> hash_within h m -> Forall go_len l ->
    exists h', hash_set_loop l h n
        = Ret (n + Z.of_nat (size (hsets (field_values l) m)) - Z.of_nat (size m), h') /\
      hash_rep h' (hsets (field_values l) m) /\ hash_within h' (hsets (field_values l) m)) as Hgo;
    [|by eauto].
  clear l. induction k as [|k IH]; intros l Hk h m n Hr Hw Hl.
  all: destruct l as [|f [|v l]]; simpl in Hk; try lia;
    try (exists h; split; [by rewrite Z.add_simpl_r|done]).
  apply Forall_cons in Hl as [Hf [Hv Hl]%Forall_cons].
  destruct (Hash_Set_spec h m f v Hr Hw Hf Hv) as (h1 & Eh & Hr1 & _ & Hw1).
  cbn [hash_set_loop field_values]. rewrite Eh. orun.
  destruct (IH l ltac:(lia) h1 _ (if bool_decide (m !! f = None) then n + 1 else n) Hr1 Hw1 Hl)
    as (h2 & E2 & Hr2 & Hw2).
  exists h2. split; [|done]. rewrite E2. do 2 f_equal. unfold hsets. cbn [foldl fst snd].
  destruct (m !! f) as [v0|] eqn:Ef.
  - rewrite (map_size_insert_Some f v m), bool_decide_false by eauto. lia.
  - rewrite (map_size_insert_None f v m), bool_decide_true by done. lia.
Qed.

Lemma cmdHSet_refines : refines maphash E (-4) no_pre (cmdHSet maphash E) spec_hset.
Proof.
  intros args c t As A Hs Hsel _ Hl (a0 & key & vs & ->)%args_from_n _; [|done].
  apply Forall_cons in Hl as [_ [_ Hvs]%Forall_cons]. unfold cmdHSet.
  destruct (negb (len (a0 :: key :: vs) mod 2 =? 0)) eqn:Eo.
  { eapply ends_now; [done..|]. exists key. by rewrite Eo. }
  eapply ends_bind; [reflexivity|]. eapply ends_mono.
  - refine (adds_ends (C := Hash) (λ existing h, do fvs := args_from (a0 :: key :: vs) 2 in
      do (added, h) := lift (hash_set_loop fvs h 0) in
      do _ := store_collection maphash key existing (MakeHash h) in
      cret (RInt added)) key (λ m r m', m' = hsets (field_values vs) m /\
        r = RInt (Z.of_nat (size m') - Z.of_nat (size m))) c t As A Hs Hsel _).
    intros c0 t0 existing h m Hs0 Hsel0 [Hr Hw].
    destruct (hash_set_loop_spec vs h m 0 Hr Hw Hvs) as (h' & Eh & Hr' & Hw').
    eexists c0, _, h', (hsets (field_values vs) m). split; [done|]. split; [done|]. split_and!; [done..|].
    cgo (args_from_2 a0 key vs c0). by cgo (lift_Ret _ c0 _ Eh).
  - intros t1 t2 r A' Ha. exists key. by rewrite Eo.
Qed.

Lemma cmdHGet_refines : refines maphash E 3 no_pre (cmdHGet maphash E) spec_hget.
Proof.
  intros args c t As A Hs Hsel _ _ (a0 & key & f & ->)%args_3 _.
  eapply ends_bind; [reflexivity|]. eapply ends_mono.
  - refine (reads_ends (C := Hash) _ RNil key
      (λ m r, r = match m !! f with Some v => RBulk v | None => RNil end) c t As A Hs Hsel _).
    intros c0 t0 h m d Hs0 [Hr _] Hk. eexists _, c0. split; [|done]. cstep.
    by cgo (lift_Ret _ c0 _ (Hash_Get_spec h m f Hr)).
  - intros t1 t2 r A' Hr. by exists key, f.
Qed.

Lemma hash_delete_loop_spec fs : forall h m n,
  hash_rep h m -> hash_within h m ->
  exists h', hash_delete_loop fs h n
      = Ret (n + Z.of_nat (size m) - Z.of_nat (size (foldl (λ m f, delete f m) m fs)), h') /\
    hash_rep h' (foldl (λ m f, delete f m) m fs) /\ hash_within h' (foldl (λ m f, delete f m) m fs).
Proof.
  induction fs as [|f fs IH]; intros h m n Hr Hw.
  { exists h. split; [cbn [hash_delete_loop foldl]; by rewrite Z.add_simpl_r|done]. }
  destruct (Hash_Delete_spec h m f Hr Hw) as (h1 & Eh & Hr1 & _ & Hw1).
  cbn [hash_delete_loop foldl]. rewrite Eh. orun.
  destruct (IH h1 _ (if bool_decide (is_Some (m !! f)) then n + 1 else n) Hr1 Hw1)
    as (h2 & E2 & Hr2 & Hw2).
  exists h2. split; [|done]. rewrite E2. do 2 f_equal.
  destruct (m !! f) as [v0|] eqn:Ef.
  - rewrite (map_size_delete_Some f m), bool_decide_true by eauto.
    assert (size m <> 0%nat) by (intros Hz%map_size_empty_inv; by subst). lia.
  - rewrite delete_id, bool_decide_false by (done || by intros []). lia.
Qed.

Lemma size_map_empty (m : gmap bytes bytes) : (Z.of_nat (size m) =? 0) = bool_decide (m = ∅).
Proof.
  destruct (decide (m = ∅)) as [->|Hm]; [by rewrite bool_decide_true|].
  rewrite bool_decide_false by done. apply Z.eqb_neq. intros Hz. apply Hm, map_size_empty_inv. lia.
Qed.

Lemma cmdHDel_refines : refines maphash E (-3) no_pre (cmdHDel maphash E) spec_hdel.
Proof.
  intros args c t As A Hs Hsel _ _ (a0 & key & fs & ->)%args_from_n _; [|done].
  eapply ends_bind; [reflexivity|]. eapply ends_mono.
  - refine (removes_ends (C := Hash) _ (RInt 0) key (λ m r m', m' = foldl (λ m f, delete f m) m fs /\
      r = RInt (Z.of_nat (size m) - Z.of_nat (size m'))) c t As A Hs Hsel _).
    intros c0 h m _ [Hr Hw]. destruct (hash_delete_loop_spec fs h m 0 Hr Hw) as (h' & Eh & Hr' & Hw').
    eexists _, h', _, (Hash_Len h'). split; [by split|]. split; [done|]. split.
    + rewrite (Hash_Len_spec _ _ Hr'). apply size_map_empty.
    + cgo (args_from_2 a0 key fs c0). by cgo (lift_Ret _ c0 _ Eh).
  - intros t1 t2 r A' Hr. by exists key.
Qed.

Lemma cmdHGetAll_refines : refines maphash E 2 no_pre (cmdHGetAll maphash E) spec_hgetall.
Proof.
  intros args c t As A Hs Hsel _ _ (a0 & key & ->)%args_2 _.
  eapply ends_bind; [reflexivity|]. eapply ends_mono.
  - refine (reads_ends (C := Hash) _ (RArray []) key
      (λ m r, exists ps, ps ≡ₚ map_to_list m /\ r = bulks (flat ps)) c t As A Hs Hsel _).
    intros c0 t0 h m d Hs0 [Hr _] Hk. cstep.
    destruct (Hash_Pairs_spec (env_order E (c_tick c0)) h m Hr) as (ps & Ep & Hp).
    eexists _, _. split; [by cgo (lift_Ret _ (set_tick c0 (S (c_tick c0))) _ Ep)|].
    split; [by apply sess_tick|]. split; [done|]. by exists ps.
  - intros t1 t2 r A' Hr. by exists key.
Qed.

(** *** Sets *)

Lemma set_add_loop_spec ms : forall s X n,
  set_rep s X -> set_within s X -> Forall go_len ms ->
  exists s', set_add_loop ms s n
      = Ret (n + Z.of_nat (size (list_to_set ms ∪ X)) - Z.of_nat (size X), s') /\
    set_rep s' (list_to_set ms ∪ X) /\ set_within s' (list_to_set ms ∪ X).
Proof.
  induction ms as [|x ms IH]; intros s X n Hr Hw Hl.
  { exists s. cbn [set_add_loop list_to_set]. rewrite (left_id_L ∅ (∪)), Z.add_simpl_r. done. }
  apply Forall_cons in Hl as [Hx Hl].
  destruct (Set_Add_spec s X x Hr Hw Hx) as (s1 & Es & Hr1 & _ & Hw1).
  cbn [set_add_loop list_to_set]. rewrite Es. orun.
  destruct (IH s1 _ (if bool_decide (x ∉ X) then n + 1 else n) Hr1 Hw1 Hl) as (s2 & E2 & Hr2 & Hw2).
  assert (list_to_set ms ∪ ({[x]} ∪ X) = {[x]} ∪ list_to_set ms ∪ X) as Hu by set_solver.
  rewrite Hu in *. exists s2. split; [|done]. rewrite E2. do 2 f_equal.
  destruct (decide (x ∈ X)) as [Hin|Hin].
  - rewrite (subseteq_union_1_L {[x]} X), bool_decide_false by set_solver. lia.
  - rewrite (size_union {[x]} X), size_singleton, bool_decide_true by set_solver. lia.
Qed.

Lemma cmdSAdd_refines : refines maphash E (-3) no_pre (cmdSAdd maphash E) spec_sadd.
Proof.
  intros args c t As A Hs Hsel _ Hl (a0 & key & vs & ->)%args_from_n _; [|done].
  apply Forall_cons in Hl as [_ [_ Hvs]%Forall_cons].
  eapply ends_bind; [reflexivity|]. eapply ends_mono.
  - refine (adds_ends (C := GoSet) (λ existing s, do ms := args_from (a0 :: key :: vs) 2 in
      do (added, s) := lift (set_add_loop ms s 0) in
      do _ := store_collection maphash key existing (MakeSet s) in
      cret (RInt added)) key (λ X r X', X' = list_to_set vs ∪ X /\
        r = RInt (Z.of_nat (size X') - Z.of_nat (size X))) c t As A Hs Hsel _).
    intros c0 t0 existing s X Hs0 Hsel0 [Hr Hw].
    destruct (set_add_loop_spec vs s X 0 Hr Hw Hvs) as (s' & Es & Hr' & Hw').
    eexists c0, _, s', (list_to_set vs ∪ X). split; [done|]. split; [done|]. split_and!; [done..|].
    cgo (args_from_2 a0 key vs c0). by cgo (lift_Ret _ c0 _ Es).
  - intros t1 t2 r A' Ha. by exists key.
Qed.

Lemma set_remove_loop_spec ms : forall s X n,
  set_rep s X -> set_within s X ->
  exists s', set_remove_loop ms s n
      = Ret (n + Z.of_nat (size X) - Z.of_nat (size (X ∖ list_to_set ms)), s') /\
    set_rep s' (X ∖ list_to_set ms) /\ set_within s' (X ∖ list_to_set ms).
Proof.
  induction ms as [|x ms IH]; intros s X n Hr Hw.
  { exists s. cbn [set_remove_loop list_to_set]. rewrite (difference_empty_L X), Z.add_simpl_r. done. }
  destruct (Set_Remove_spec s X x Hr Hw) as (s1 & Es & Hr1 & _ & Hw1).
  cbn [set_remove_loop list_to_set]. rewrite Es. orun.
  destruct (IH s1 _ (if bool_decide (x ∈ X) then n + 1 else n) Hr1 Hw1) as (s2 & E2 & Hr2 & Hw2).
  rewrite (difference_difference_l_L X {[x]}) in *. exists s2. split; [|done]. rewrite E2. do 2 f_equal.
  destruct (decide (x ∈ X)) as [Hin|Hin].
  - rewrite (size_difference X {[x]}), size_singleton, bool_decide_true by set_solver.
    assert (size X <> 0%nat) by (intros Hz%size_empty_inv; set_solver). lia.
  - rewrite bool_decide_false by done.
    assert (X ∖ {[x]} = X) as -> by set_solver. lia.
Qed.

Lemma cmdSRem_refines : refines maphash E (-3) no_pre (cmdSRem maphash E) spec_srem.
Proof.
  intros args c t As A Hs Hsel _ _ (a0 & key & fs & ->)%args_from_n _; [|done].
  eapply ends_bind; [reflexivity|]. eapply ends_mono.
  - refine (removes_ends (C := GoSet) _ (RInt 0) key (λ X r X', X' = X ∖ list_to_set fs /\
      r = RInt (Z.of_nat (size X) - Z.of_nat (size X'))) c t As A Hs Hsel _).
    intros c0 s X _ [Hr Hw]. destruct (set_remove_loop_spec fs s X 0 Hr Hw) as (s' & Es & Hr' & Hw').
    eexists _, s', _, (Set_Len s'). split; [by split|]. split; [done|]. split.
    + rewrite (Set_Len_spec _ _ Hr'). cbn [coll_is_empty set_collection].
      destruct (decide (X ∖ list_to_set fs = ∅)) as [->|Hne].
      * by rewrite size_empty, bool_decide_true.
      * rewrite bool_decide_false by done. apply Z.eqb_neq. intros Hz.
        apply Hne, leibniz_equiv, size_empty_inv. lia.
    + cgo (args_from_2 a0 key fs c0). by cgo (lift_Ret _ c0 _ Es).
  - intros t1 t2 r A' Hr. by exists key.
Qed.

Lemma cmdSMembers_refines : refines maphash E 2 no_pre (cmdSMembers maphash E) spec_smembers.
Proof.
  intros args c t As A Hs Hsel _ _ (a0 & key & ->)%args_2 _.
  eapply ends_bind; [reflexivity|]. eapply ends_mono.
  - refine (reads_ends (C := GoSet) _ (RArray []) key
      (λ X r, exists es, es ≡ₚ elements X /\ r = bulks es) c t As A Hs Hsel _).
    intros c0 t0 s X d Hs0 [Hr _] Hk. cstep.
    destruct (Set_Members_spec (env_order E (c_tick c0)) s X Hr) as (es & Es & Hp).
    eexists _, _. split; [by cgo (lift_Ret _ (set_tick c0 (S (c_tick c0))) _ Es)|].
    split; [by apply sess_tick|]. split; [done|]. by exists es.
  - intros t1 t2 r A' Hr. by exists key.
Qed.

Lemma inter_sets_spec keys : forall sets Xs c t As A,
  sess maphash E c t As -> sel c As A -> Forall2 set_rep sets Xs ->
  exists t' c' r ts, inter_sets maphash E keys sets c = Ret (r, c') /\ t <= t' /\
    sess maphash E c' t' As /\ same_frame c c' /\
    length ts = length keys /\ Forall (λ t0, t <= t0 <= t') ts /\
    match sinter_sets A (zip ts keys) with
    | inr reply => r = inr reply
    | inl Ys => exists sets', r = inl sets' /\ Forall2 set_rep sets' (Xs ++ Ys)
    end.
Proof.
  induction keys as [|k keys IH]; intros sets Xs c t As A Hs Hsel HF.
  { exists t, c, (inl sets), []. cbn. split_and!; try done. exists sets. by rewrite app_nil_r. }
  cbn [inter_sets].
  destruct (k_Lookup_spec maphash E k c t As A Hs Hsel) as (t1 & c1 & o & Eg & Ht & Hs1 & Hf1 & Hr).
  cgo Eg.
  assert (forall reply, see (C := GoSet) t1 A k = Absent /\ reply = RArray [] \/
      see (C := GoSet) t1 A k = Wrong /\ reply = wrong_type ->
    exists t' c' r ts, Ret (inr reply, c1) = Ret (r, c') /\ t <= t' /\
    sess maphash E c' t' As /\ same_frame c c' /\
    length ts = length (k :: keys) /\ Forall (λ t0, t <= t0 <= t') ts /\
    match sinter_sets A (zip ts (k :: keys)) with
    | inr reply => r = inr reply
    | inl Ys => exists sets', r = inl sets' /\ Forall2 set_rep sets' (Xs ++ Ys)
    end) as Hearly.
  { intros reply Hreply. exists t1, c1, (inr reply), (replicate (length (k :: keys)) t1).
    rewrite length_replicate. split_and!; try done.
    - apply Forall_replicate. lia.
    - cbn. by destruct Hreply as [[-> ->]|[-> ->]]. }
  destruct o as [e|], (get t1 A k) as [[a d]|] eqn:Ega; try done.
  - destruct Hr as [Hv He]. rewrite (value_rep_kind _ _ Hv).
    destruct (decide (akind a = KindSet)) as [Hk|Hk].
    + rewrite bool_decide_false by (intros Hn; by apply Hn). destruct a; try done.
      destruct e as [v d']. simpl in Hv. destruct v; try done. destruct Hv as [Hrep _]. cstep.
      destruct (IH (sets ++ [s0]) (Xs ++ [s]) c1 t1 As A Hs1 (sel_frame _ _ _ _ Hf1 Hsel))
        as (t' & c' & r & ts & Ei & Ht' & Hs' & Hf' & Hlen & Hts & Hres).
      { apply Forall2_app; [done|]. by apply Forall2_cons. }
      exists t', c', r, (t1 :: ts). rewrite Ei. split_and!; [done|lia|done|by eapply same_frame_trans|..].
      * simpl. by rewrite Hlen.
      * constructor; [lia|]. eapply Forall_impl; [exact Hts|]. simpl. intros; lia.
      * cbn [zip zip_with sinter_sets]. unfold see. rewrite Ega. cbn [coll_proj set_collection as_set].
        fold (zip ts keys). destruct (sinter_sets A (zip ts keys)); [|done].
        by rewrite <- app_assoc in Hres.
    + rewrite bool_decide_true by done. apply Hearly. right. unfold see. rewrite Ega. by destruct a.
  - apply Hearly. left. unfold see. by rewrite Ega.
Qed.

Lemma smallest_from_lt (sets : list GoSet) : forall i best n,
  (best < i + length sets)%nat -> (smallest_from sets i best n < i + length sets)%nat.
Proof.
  induction sets as [|s sets IH]; intros i best n Hb; simpl in *; [lia|].
  destruct (Set_Len s <? n); (eapply Nat.lt_le_trans; [apply IH; lia|lia]).
Qed.

Lemma in_all_spec sets Xs sm m : forall i,
  Forall2 set_rep sets Xs ->
  (forall j X, Xs !! j = Some X -> (i + j)%nat = sm -> m ∈ X) ->
  in_all sets i sm m = Ret (bool_decide (Forall (λ X, m ∈ X) Xs)).
Proof.
  intros i HF. revert i. induction HF as [|s X sets Xs Hs HF IH]; intros i Hin; cbn [in_all].
  { by rewrite bool_decide_true by constructor. }
  assert (in_all sets (S i) sm m = Ret (bool_decide (Forall (λ X, m ∈ X) Xs))) as IH'.
  { apply IH. intros j Y HY Hj. apply (Hin (S j) Y HY). lia. }
  assert (m ∈ X -> bool_decide (Forall (λ X, m ∈ X) (X :: Xs)) = bool_decide (Forall (λ X, m ∈ X) Xs)) as Hc.
  { intros Hm. apply bool_decide_ext. rewrite Forall_cons. naive_solver. }
  destruct (decide (i = sm)) as [->|Hi].
  - rewrite bool_decide_true by done. rewrite IH', Hc; [done|]. apply (Hin 0%nat X); [done|lia].
  - rewrite (bool_decide_false (i = sm)) by done. rewrite (Set_Contains_spec s X m Hs). orun.
    destruct (decide (m ∈ X)) as [Hm|Hm].
    + rewrite (bool_decide_true (m ∈ X)) by done. by rewrite IH', Hc.
    + rewrite (bool_decide_false (m ∈ X)) by done.
      rewrite bool_decide_false; [done|]. by intros [? _]%Forall_cons.
Qed.

Lemma inter_members_spec sets Xs sm X0 ms : forall out,
  Forall2 set_rep sets Xs -> Xs !! sm = Some X0 -> Forall (λ m, m ∈ X0) ms ->
  inter_members sets sm ms out = Ret (out ++ map RBulk (filter (λ m, Forall (λ X, m ∈ X) Xs) ms)).
Proof.
  intros out HF H0 Hms. revert out. induction Hms as [|m ms Hm Hms IH]; intros out; simpl.
  { by rewrite app_nil_r. }
  rewrite (in_all_spec sets Xs sm m 0 HF).
  2:{ intros j X HX Hj. simpl in Hj. subst j. by simplify_eq. }
  orun. rewrite IH, filter_cons. destruct (decide (Forall (λ X, m ∈ X) Xs)) as [Ha|Ha].
  - rewrite bool_decide_true by done. simpl. by rewrite <- app_assoc.
  - by rewrite bool_decide_false by done.
Qed.

Lemma sinter_sets_length A ks Xs : sinter_sets A ks = inl Xs -> length Xs = length ks.
Proof.
  revert Xs. induction ks as [|[t k] ks IH]; simpl; [by intros ? [= <-]|].
  destruct (see t A k); try done. destruct (sinter_sets A ks); [|done].
  intros ? [= <-]. simpl. by rewrite (IH l).
Qed.

Lemma cmdSInter_refines : refines maphash E (-2) no_pre (cmdSInter maphash E) spec_sinter.
Proof.
  intros args c t As A Hs Hsel _ _ (a0 & key & rest & ->)%args_from_n _; [|done].
  eapply ends_bind; [apply args_from_1|].
  destruct (inter_sets_spec (key :: rest) [] [] c t As A Hs Hsel)
    as (t' & c' & r & ts & Ei & Ht & Hs' & Hf & Hlen & Hts & Hres); [constructor|].
  cgo Ei. destruct (sinter_sets A (zip ts (key :: rest))) as [Xs|reply] eqn:Exs.
  - destruct Hres as (sets & -> & HF). simpl in HF.
    assert (length sets = length (key :: rest)) as Hl.
    { rewrite (Forall2_length _ _ _ HF), (sinter_sets_length _ _ _ Exs), length_zip_with. lia. }
    assert (exists s0, index sets 0 = Ret s0) as (s0 & E0).
    { destruct sets as [|s0 ?]; [done|]. by exists s0. }
    cgo (lift_Ret _ c' _ E0). set (sm := smallest_from sets 0 0 (Set_Len s0)).
    assert (sm < length sets)%nat as Hsm.
    { apply (smallest_from_lt sets 0 0). rewrite Hl. simpl. lia. }
    apply lookup_lt_is_Some_2 in Hsm as [s Hsm].
    destruct (Forall2_lookup_l _ _ _ _ _ HF Hsm) as (X0 & HX0 & Hrep).
    cgo (lift_Ret _ c' _ (index_lookup sets sm s Hsm)).
    cgo (eq_refl : order E c' = Ret (env_order E (c_tick c'), set_tick c' (S (c_tick c')))).
    set (c2 := set_tick c' (S (c_tick c'))).
    destruct (Set_Members_spec (env_order E (c_tick c')) s X0 Hrep) as (ms & Em & Hms).
    cgo (lift_Ret _ c2 _ Em).
    assert (Forall (λ m, m ∈ X0) ms) as Hin.
    { rewrite Hms. apply Forall_forall. intros x. by rewrite elem_of_elements. }
    cgo (lift_Ret _ c2 _ (inter_members_spec sets Xs sm X0 ms [] HF HX0 Hin)).
    assert (sess maphash E c2 t' As) as Hs2 by by apply sess_tick.
    unchanged t t'. split; [done|]. exists ts. split_and!; [done..|].
    cbn [drop skipn]. rewrite Exs. eexists. split; [done|]. split.
    + apply NoDup_filter. rewrite Hms. apply NoDup_elements.
    + intros x. rewrite list_elem_of_filter, Hms, elem_of_elements. split; [naive_solver|].
      intros HX. split; [done|]. rewrite Forall_forall in HX. apply HX. by eapply list_elem_of_lookup_2.
  - subst r. unchanged t t'. split; [done|]. exists ts. split_and!; [done..|].
    cbn [drop skipn]. by rewrite Exs.
Qed.

(** *** Sorted sets *)

Context (parseFloat : bytes -> option float64) (formatFloat : float64 -> bytes).

(** [ParseFloat] answers a 64-bit pattern. *)
Definition parses_f64 : Prop := forall b f, parseFloat b = Some f -> is_f64 f.

Lemma parse_pairs_ok l pairs :
  parses_f64 -> Forall go_len l -> parse_pairs parseFloat l = Some pairs ->
  Forall (λ p, zpair_ok (p.2, p.1)) pairs.
Proof.
  intros Hf. revert pairs.
  assert (forall k l, (length l <= k)%nat -> forall pairs, Forall go_len l ->
    parse_pairs parseFloat l = Some pairs -> Forall (λ p, zpair_ok (p.2, p.1)) pairs) as Hgo;
    [|by eauto].
  clear l. induction k as [|k IH]; intros l Hk pairs Hl.
  all: destruct l as [|sc [|m l]]; simpl in Hk; try lia; try (intros [= <-]; constructor).
  apply Forall_cons in Hl as [_ [Hm Hl]%Forall_cons]. cbn [parse_pairs].
  destruct (parseFloat sc) as [f|] eqn:Ef; [|done]. cbn.
  destruct (IsNaN f) eqn:En; [done|].
  destruct (parse_pairs parseFloat l) as [ps|] eqn:Ep; [|done]. intros [= <-].
  constructor; [|by eapply (IH l); [lia|..]].
  split_and!; [done|by eapply Hf|done].
Qed.

Lemma add_result_size (m m' : gmap bytes float64) (member : bytes) (score : float64) :
  add_result m member score m' ->
  size m' = ((if bool_decide (m !! member = None) then 1 else 0) + size m)%nat.
Proof.
  intros (s & -> & _). destruct (m !! member) as [s0|] eqn:Em.
  - by rewrite (map_size_insert_Some member s m), bool_decide_false by eauto.
  - by rewrite (map_size_insert_None member s m), bool_decide_true by done.
Qed.

Lemma zadd_loop_spec ps : forall z m n c t As,
  sess maphash E c t As -> zset_rep z m -> zset_within z m ->
  Forall (λ p, zpair_ok (p.2, p.1)) ps ->
  exists z' m' c', zadd_loop E ps z n c
      = Ret ((n + Z.of_nat (size m') - Z.of_nat (size m), z'), c') /\
    zadds ps m m' /\ zset_rep z' m' /\ zset_within z' m' /\
    sess maphash E c' t As /\ same_frame c c'.
Proof.
  induction ps as [|[score member] ps IH]; intros z m n c t As Hs Hr Hw Hps.
  { exists z, m, c. cbn [zadd_loop]. by rewrite Z.add_simpl_r. }
  apply Forall_cons in Hps as [Hp Hps]. cbn [zadd_loop].
  set (c1 := set_tick c (S (c_tick c))).
  cgo (eq_refl : coins E c = Ret (env_coins E (c_tick c), c1)).
  destruct (ZSet_Add_spec (env_coins E (c_tick c)) z m member score Hr Hw Hp)
    as (z1 & cs & m1 & Ez & Ha & Hr1 & _ & Hw1).
  cgo (lift_Ret _ c1 _ Ez).
  destruct (IH z1 m1 (if bool_decide (m !! member = None) then n + 1 else n) c1 t As)
    as (z2 & m2 & c2 & E2 & Hz2 & Hr2 & Hw2 & Hs2 & Hf2); [by apply sess_tick|done..|].
  exists z2, m2, c2. rewrite E2. split.
  { do 3 f_equal. rewrite (add_result_size _ _ _ _ Ha). destruct (bool_decide _); lia. }
  split; [by exists m1|]. done.
Qed.

Lemma cmdZAdd_refines :
  parses_f64 -> refines maphash E (-4) no_pre (cmdZAdd maphash parseFloat E) (spec_zadd parseFloat).
Proof.
  intros Hpf args c t As A Hs Hsel _ Hl (a0 & key & vs & ->)%args_from_n _; [|done].
  apply Forall_cons in Hl as [_ [_ Hvs]%Forall_cons]. unfold cmdZAdd.
  destruct (negb (len (a0 :: key :: vs) mod 2 =? 0)) eqn:Eo.
  { eapply ends_now; [done..|]. exists key. by rewrite Eo. }
  eapply ends_bind; [apply args_from_2|].
  destruct (parse_pairs parseFloat vs) as [pairs|] eqn:Ep.
  2:{ eapply ends_now; [done..|]. exists key. split; [done|]. rewrite Eo. cbn [drop skipn]. by rewrite ?drop_0, Ep. }
  eapply ends_bind; [reflexivity|]. eapply ends_mono.
  - refine (adds_ends (C := ZSet) (λ existing z, do (added, z) := zadd_loop E pairs z 0 in
      do _ := store_collection maphash key existing (MakeZSet z) in
      cret (RInt added)) key (λ m r m', zadds pairs m m' /\
        r = RInt (Z.of_nat (size m') - Z.of_nat (size m))) c t As A Hs Hsel _).
    intros c0 t0 existing z m Hs0 Hsel0 [Hr Hw].
    destruct (zadd_loop_spec pairs z m 0 c0 t0 As Hs0 Hr Hw (parse_pairs_ok _ _ Hpf Hvs Ep))
      as (z' & m' & c' & Ez & Hz & Hr' & Hw' & Hs' & Hf').
    eexists c', _, z', m'. split; [done|]. split; [done|]. split_and!; [done..|]. by cgo Ez.
  - intros t1 t2 r A' Ha. exists key. split; [done|]. rewrite Eo. cbn [drop skipn]. by rewrite ?drop_0, Ep.
Qed.

Lemma zrange_form_spec a0 key a b rest c :
  zrange_form (a0 :: key :: a :: b :: rest) c
  = Ret (zrange_scores (a0 :: key :: a :: b :: rest), c).
Proof.
  unfold zrange_form, zrange_scores. cbn [drop skipn]. rewrite ?drop_0.
  destruct rest as [|w [|w' rest]]; [done|done|].
  rewrite !len_cons. pose proof (len_nonneg rest).
  destruct (Z.eqb_spec (1 + (1 + (1 + (1 + (1 + (1 + len rest)))))) 4); [lia|].
  by destruct (Z.eqb_spec (1 + (1 + (1 + (1 + (1 + (1 + len rest)))))) 5); [lia|].
Qed.

Lemma args_from_4 (args : list bytes) :
  arity_ok (-4) (len args) -> exists a key x y rest, args = a :: key :: x :: y :: rest.
Proof.
  unfold arity_ok, len. destruct args as [|? [|? [|? [|? ?]]]]; simpl; intros; try lia. by eauto 6.
Qed.

Lemma zcontents_perm ps m : zcontents ps m -> ps ≡ₚ map_to_list m /\ zsorted ps.
Proof. intros (Hz & _ & Hnd & ->). by rewrite map_to_list_to_map. Qed.

Lemma cmdZRange_refines :
  refines maphash E (-4) no_pre (cmdZRange maphash formatFloat E) (spec_zrange formatFloat).
Proof.
  intros args c t As A Hs Hsel Hsm _ (a0 & key & a & b & rest & ->)%args_from_4 _. unfold cmdZRange.
  eapply ends_bind; [apply zrange_form_spec|].
  destruct (zrange_scores (a0 :: key :: a :: b :: rest)) as [scores|] eqn:Esc.
  2:{ eapply ends_now; [done..|]. exists key, a, b. by rewrite Esc. }
  do 2 (eapply ends_bind; [reflexivity|]).
  destruct (Atoi a) as [start|] eqn:Ea, (Atoi b) as [stop|] eqn:Eb;
    try (eapply ends_now; [done..|]; exists key, a, b; by rewrite Esc, Ea, ?Eb).
  eapply ends_bind; [reflexivity|]. eapply ends_mono.
  - refine (reads_ends (C := ZSet) _ (RArray []) key (λ m r, exists ps, ps ≡ₚ map_to_list m /\ zsorted ps /\
      r = zrange_reply formatFloat scores (range_spec start stop ps)) c t As A Hs Hsel _).
    intros c0 t0 z m d Hs0 [Hr _] Hk.
    destruct (ZSet_Range_spec z m start stop Hr (ParseInt_int64 _ _ Ea) (ParseInt_int64 _ _ Eb))
      as (ps & Hc & Ez); [apply (Hsm _ _ Hk)|].
    eexists _, c0. split; [by cgo (lift_Ret _ c0 _ Ez)|]. split_and!; [done..|].
    exists ps. destruct (zcontents_perm _ _ Hc). by split_and!.
  - intros t1 t2 r A' Hr. exists key, a, b. by rewrite Esc, Ea, Eb.
Qed.

Lemma cmdZScore_refines :
  refines maphash E 3 no_pre (cmdZScore maphash formatFloat E) (spec_zscore formatFloat).
Proof.
  intros args c t As A Hs Hsel _ _ (a0 & key & f & ->)%args_3 _.
  eapply ends_bind; [reflexivity|]. eapply ends_mono.
  - refine (reads_ends (C := ZSet) _ RNil key (λ m r, r = match m !! f with
      | Some s => RBulk (formatScore formatFloat s) | None => RNil end) c t As A Hs Hsel _).
    intros c0 t0 h m d Hs0 [Hr _] Hk. eexists _, c0. split; [|done]. cstep.
    by cgo (lift_Ret _ c0 _ (ZSet_Score_spec h m f Hr)).
  - intros t1 t2 r A' Hr. by exists key, f.
Qed.
End CollectionRefinement.
