(* ===== verification/Registry.v ===== *)
(** * The command table

    The registry holds every command once and resolves a request whatever the
    case of its name; what each data command does, collected in one table; and
    that a command reads and writes no key but those it declares, which is what
    the server's shard locking rests on. *)

From S2P Require Import Prelude Pack Float64 Skiplist ValueList ValueHash ValueSet ValueZSet.
From S2P Require Import GoTime Value Keyspace Shard Strconv Resp Config Command Session CommandSpec.
From S2P Require Import CollectionSpec.

(** ** Meanings of the remaining commands *)

Definition spec_ping : aspec := λ _ _ args A r A',
  A' = A /\
  r = match drop 1 args with
      | [] => RSimple (lit "PONG")
      | [a] => RBulk a
      | _ => RError (msgArgs (lit "ping"))
      end.

Definition spec_flushdb : aspec := λ _ _ args A r A', r = Reply_OK /\ A' = ∅.

Section Registry.
Context (maphash : bytes -> Z) (parseFloat : bytes -> option float64)
  (formatFloat : float64 -> bytes) (quote : bytes -> bytes) (E : Env).

Abbreviation registry := (NewRegistry maphash parseFloat formatFloat quote E).

(** What a command of each name means, and what its arguments must satisfy for
    its allocation to succeed. SELECT and CONFIG change the session instead and
    are treated apart. *)
Definition meanings : list (bytes * ((list bytes -> Prop) * aspec)) :=
  [(lit "get", (no_pre, spec_get));
   (lit "set", (no_pre, spec_set));
   (lit "incr", (no_pre, spec_incr 1));
   (lit "decr", (no_pre, spec_incr (-1)));
   (lit "del", (no_pre, spec_del));
   (lit "unlink", (no_pre, spec_del));
   (lit "exists", (no_pre, spec_exists));
   (lit "expire", (no_pre, spec_expire));
   (lit "pexpireat", (no_pre, spec_pexpireat));
   (lit "ttl", (no_pre, spec_ttl));
   (lit "persist", (no_pre, spec_persist));
   (lit "type", (no_pre, spec_type));
   (lit "lpush", (no_pre, spec_push true));
   (lit "rpush", (no_pre, spec_push false));
   (lit "lpop", (pop_pre, spec_pop true));
   (lit "rpop", (pop_pre, spec_pop false));
   (lit "lrange", (no_pre, spec_lrange));
   (lit "llen", (no_pre, spec_llen));
   (lit "hset", (no_pre, spec_hset));
   (lit "hget", (no_pre, spec_hget));
   (lit "hdel", (no_pre, spec_hdel));
   (lit "hgetall", (no_pre, spec_hgetall));
   (lit "sadd", (no_pre, spec_sadd));
   (lit "srem", (no_pre, spec_srem));
   (lit "smembers", (no_pre, spec_smembers));
   (lit "sinter", (no_pre, spec_sinter));
   (lit "zadd", (no_pre, spec_zadd parseFloat));
   (lit "zrange", (no_pre, spec_zrange formatFloat));
   (lit "zscore", (no_pre, spec_zscore formatFloat));
   (lit "ping", (no_pre, spec_ping));
   (lit "flushdb", (no_pre, spec_flushdb))].

Definition all_commands : list Command :=
  stringCommands maphash E ++ keyCommands maphash E ++ listCommands maphash E ++
  hashCommands maphash E ++ setCommands maphash E ++ zsetCommands maphash parseFloat formatFloat E ++
  serverCommands quote.

(** ** The registry *)

Lemma register_app r a b :
  register r (a ++ b) = (r ← register r a; register r b).
Proof. revert r. induction a as [|c a IH]; intros r; simpl; [done|]. by destruct (r !! cmd_name c). Qed.

Lemma register_NoDup (cmds : list Command) : forall r : gmap bytes Command,
  NoDup (map cmd_name cmds) -> (forall c, c ∈ cmds -> r !! cmd_name c = None) ->
  exists r', register r cmds = Some r' /\
    forall n c, r' !! n = Some c <-> r !! n = Some c \/ c ∈ cmds /\ cmd_name c = n.
Proof.
  induction cmds as [|x cmds IH]; intros r Hnd Hr; simpl.
  { exists r. split; [done|]. intros n c. set_solver. }
  simpl in Hnd. apply NoDup_cons in Hnd as [Hx Hnd]. rewrite (Hr x) by set_solver.
  assert (forall c, c ∈ cmds -> cmd_name c <> cmd_name x) as Hne.
  { intros c Hc Hn. apply Hx. rewrite <- Hn. by apply list_elem_of_fmap_2. }
  destruct (IH (<[cmd_name x := x]> r) Hnd) as (r' & -> & Hr').
  { intros c Hc. rewrite lookup_insert_ne by (intros ?; by eapply Hne). apply Hr. set_solver. }
  exists r'. split; [done|]. intros n c. rewrite Hr', lookup_insert_Some.
  assert (r !! cmd_name x = None) by (apply Hr; set_solver). set_unfold. naive_solver.
Qed.

Lemma all_names_NoDup : NoDup (map cmd_name all_commands).
Proof. apply (bool_decide_unpack _). vm_compute. exact I. Qed.

Lemma NewRegistry_all :
  exists r, registry = Some r /\ forall n c, r !! n = Some c <-> c ∈ all_commands /\ cmd_name c = n.
Proof.
  destruct (register_NoDup all_commands ∅ all_names_NoDup) as (r & Hr & Hl); [done|].
  exists r. split.
  - rewrite <- Hr. unfold all_commands, NewRegistry.
    do 6 (rewrite register_app; match goal with
      |- context [register ?r ?l] => destruct (register r l) as [?|] end;
      cbn [mbind option_bind]; [|reflexivity]). reflexivity.
  - intros n c. rewrite Hl, lookup_empty. split; [by intros [?|?]|by right].
Qed.

Lemma Resolve_spec r args cm :
  registry = Some r ->
  Resolve r args = inl cm <->
  exists name rest, args = name :: rest /\ map lower_ascii name = cmd_name cm /\
    0 < len name <= maxCommandNameLen /\ cm ∈ all_commands /\ arity_ok (cmd_arity cm) (len args).
Proof.
  intros Hr. destruct NewRegistry_all as (r' & Hr' & Hl). rewrite Hr in Hr'. injection Hr' as <-.
  unfold Resolve, lookupFold. destruct args as [|name rest].
  { split; [done|]. by intros (? & ? & [=] & _). }
  assert (forall c, accepts c (len (name :: rest)) = true <-> arity_ok (cmd_arity c) (len (name :: rest))) as Ha.
  { intros c. unfold accepts, arity_ok. destruct (0 <=? cmd_arity c); [apply Z.eqb_eq|apply Z.leb_le]. }
  pose proof (len_nonneg name).
  destruct ((len name =? 0) || (maxCommandNameLen <? len name)) eqn:Eb.
  { split; [done|]. intros (? & ? & [= <- <-] & _ & Hn & _).
    apply orb_true_iff in Eb as [?%Z.eqb_eq|?%Z.ltb_lt]; lia. }
  apply orb_false_iff in Eb as [?%Z.eqb_neq ?%Z.ltb_ge].
  destruct (r !! map lower_ascii name) as [c|] eqn:El.
  - apply Hl in El as [Hc Hn]. destruct (accepts c _) eqn:Eacc.
    + split.
      * intros [= <-]. exists name, rest. split_and!; [done..|lia|done|done|]. by apply Ha.
      * intros (? & ? & [= <- <-] & Hn' & _ & Hcm & _). f_equal.
        assert (r !! cmd_name cm = Some c) as Hx by (apply Hl; split; [exact Hc|congruence]).
        assert (r !! cmd_name cm = Some cm) as Hy by (apply Hl; split; [exact Hcm|reflexivity]). congruence.
    + split; [done|]. intros (? & ? & [= <- <-] & Hn' & _ & Hcm & Hok).
      assert (r !! cmd_name cm = Some c) as Hx by (apply Hl; split; [exact Hc|congruence]).
      assert (r !! cmd_name cm = Some cm) as Hy by (apply Hl; split; [exact Hcm|reflexivity]).
      assert (c = cm) as -> by congruence. apply Ha in Hok. by rewrite Hok in Eacc.
  - split; [done|]. intros (? & ? & [= <- <-] & Hn' & _ & Hcm & _).
    assert (r !! cmd_name cm = Some cm) as Hy by (apply Hl; split; [exact Hcm|reflexivity]). by rewrite <- Hn', El in Hy.
Qed.

(** ** The handlers refine their meanings *)

Lemma cmdPing_refines : refines maphash E (-1) no_pre cmdPing spec_ping.
Proof.
  intros args c t As A Hs Hsel _ _ Ha _. unfold cmdPing.
  destruct args as [|a [|b [|d args]]]; [done|by eapply ends_now..|].
  assert ((len (a :: b :: d :: args) =? 1) = false /\ (len (a :: b :: d :: args) =? 2) = false)
    as [-> ->].
  { rewrite !len_cons. pose proof (len_nonneg args). split; apply Z.eqb_neq; lia. }
  by eapply ends_now.
Qed.

Lemma cmdFlushDB_refines : refines maphash E (-1) no_pre cmdFlushDB spec_flushdb.
Proof.
  intros args c t As A Hs Hsel _ _ _ _. unfold cmdFlushDB.
  destruct (k_Flush_spec maphash E c t As A Hs Hsel) as (c' & Ef & Hs' & Hf).
  cgo Ef. by stored t t.
Qed.

(** The commands of the table, in its order. *)
Definition data_commands : list Command := take 30 all_commands ++ drop 32 all_commands.

Ltac entry H := apply Forall2_cons_2; [split; [reflexivity|first [by apply H|apply H]]|].

Lemma data_commands_refine :
  parses_f64 parseFloat ->
  Forall2 (λ cm (m : bytes * ((list bytes -> Prop) * aspec)),
    cmd_name cm = m.1 /\ refines maphash E (cmd_arity cm) m.2.1 (cmd_run cm) m.2.2)
    data_commands meanings.
Proof.
  intros Hpf.
  entry cmdGet_refines. entry cmdSet_refines. entry cmdIncr_refines. entry cmdDecr_refines.
  entry cmdDel_refines. entry cmdUnlink_refines. entry cmdExists_refines.
  entry cmdExpire_refines. entry cmdPExpireAt_refines. entry cmdTTL_refines.
  entry cmdPersist_refines. entry cmdType_refines. entry listPush_refines.
  entry listPush_refines. entry listPop_refines. entry listPop_refines. entry cmdLRange_refines.
  entry cmdLLen_refines. entry cmdHSet_refines. entry cmdHGet_refines. entry cmdHDel_refines.
  entry cmdHGetAll_refines. entry cmdSAdd_refines. entry cmdSRem_refines.
  entry cmdSMembers_refines. entry cmdSInter_refines. entry cmdZAdd_refines.
  entry cmdZRange_refines. entry cmdZScore_refines. entry cmdPing_refines.
  entry cmdFlushDB_refines.
  by apply Forall2_nil.
Qed.

Lemma data_commands_all cm : cm ∈ data_commands -> cm ∈ all_commands.
Proof.
  unfold data_commands. rewrite elem_of_app. intros [H|H].
  - eapply subseteq_take; [exact H].
  - eapply subseteq_drop; [exact H].
Qed.

(** A fact proved along the table holds of a command by its name. *)
Lemma table_at (P : Command -> (list bytes -> Prop) * aspec -> Prop) cm x :
  Forall2 (λ cm (m : bytes * ((list bytes -> Prop) * aspec)), cmd_name cm = m.1 /\ P cm m.2)
    data_commands meanings ->
  cm ∈ all_commands -> (cmd_name cm, x) ∈ meanings -> P cm x.
Proof.
  intros HF Hcm (i & Hi)%list_elem_of_lookup_1.
  destruct (Forall2_lookup_r _ _ _ _ _ HF Hi) as (cm' & Hcm' & Hn & HP). simpl in Hn, HP.
  assert (cm' = cm) as ->; [|done].
  apply list_elem_of_lookup_2, data_commands_all in Hcm'.
  pose proof all_names_NoDup as Hnd.
  apply list_elem_of_lookup_1 in Hcm as [a Ha]. apply list_elem_of_lookup_1 in Hcm' as [b Hb].
  assert (a = b) as ->; [|congruence].
  apply (NoDup_lookup (map cmd_name all_commands) a b (cmd_name cm) Hnd).
  - by rewrite list_lookup_fmap, Ha.
  - by rewrite list_lookup_fmap, Hb, <- Hn.
Qed.


(** C5. The commands do what they mean. A request that the registry resolves to
    a data command runs, from any session over any number of databases and under
    any clock that does not go back, to a reply (it neither panics nor loops),
    and the reply and the store after it are those of the command's meaning:
    GET, SET, INCR, ..., ZSCORE, PING, FLUSHDB. The other databases, the
    selection, the limits and the settings are unchanged, and the session still
    represents a store. (LPOP and RPOP need a count whose reply slice fits the
    address space.) *)
Theorem dispatch_refines r args cm pre spec c t As A :
  parses_f64 parseFloat ->
  registry = Some r -> Resolve r args = inl cm -> (cmd_name cm, (pre, spec)) ∈ meanings ->
  sess maphash E c t As -> sel c As A -> small A -> Forall go_len args -> pre args ->
  ends maphash E (Dispatch r args) c t As (λ t1 t2 reply A', spec t1 t2 args A reply A').
Proof.
  intros Hpf Hr Hres Hm Hs Hsel Hsm Hl Hpre. unfold Dispatch. rewrite Hres.
  apply (Resolve_spec r args cm Hr) in Hres as (name & rest & _ & _ & _ & Hcm & Ha).
  exact (table_at (λ cm x, refines maphash E (cmd_arity cm) x.1 (cmd_run cm) x.2) cm (pre, spec)
    (data_commands_refine Hpf) Hcm Hm args c t As A Hs Hsel Hsm Hl Ha Hpre).
Qed.

(** C35. The table is complete and unambiguous: building it does not panic on a
    duplicate name; a request resolves to a command exactly when its first word,
    lower-cased, is the command's name (of 1 to 32 bytes) and the number of words
    fits the command's arity; and every command has a meaning in the table above,
    but for SELECT and CONFIG. *)
Theorem registry_complete :
  exists r, registry = Some r /\
    (forall args cm, Resolve r args = inl cm <->
      exists name rest, args = name :: rest /\ map lower_ascii name = cmd_name cm /\
        0 < len name <= maxCommandNameLen /\ cm ∈ all_commands /\ arity_ok (cmd_arity cm) (len args)) /\
    map cmd_name all_commands = take 30 meanings.*1 ++ [lit "select"; lit "config"] ++ drop 30 meanings.*1.
Proof.
  destruct NewRegistry_all as (r & Hr & _). exists r. split_and!; [done| |done].
  intros args cm. by apply Resolve_spec.
Qed.
End Registry.

(** ** Witnesses *)

Definition example_env : Env := mkEnv (λ i, 1000 + Z.of_nat i) (λ _, []) (λ _, []).
Definition example_limits : Limits :=
  mkLimits (mkThresholds 2 8) (mkThresholds 2 8) (mkThresholds 2 8) (mkThresholds 2 8).
Definition example_ctx : CmdContext := NewContext [Shard_New 2; Shard_New 2] example_limits None.

Lemma example_sess : sess len_hash example_env example_ctx 1000 [∅; ∅].
Proof.
  split; [|split; [done|split; [done|]]].
  - pose proof (new_db_abs len_hash 2 1000) as H. by repeat constructor.
  - intros i j _ Hij. unfold example_env, env_now. lia.
Qed.

Definition zero_float (b : bytes) : option float64 := Some 0.

Lemma dispatch_refines_witness :
  exists r cm, NewRegistry len_hash zero_float (λ _, []) id example_env = Some r /\
    Resolve r [lit "LPush"; lit "l"; lit "a"; lit "b"] = inl cm /\
    ends len_hash example_env (Dispatch r [lit "LPush"; lit "l"; lit "a"; lit "b"]) example_ctx 1000
      [∅; ∅] (λ t1 t2 reply A',
        spec_push true t1 t2 [lit "LPush"; lit "l"; lit "a"; lit "b"] ∅ reply A').
Proof.
  destruct (NewRegistry_all len_hash zero_float (λ _, []) id example_env) as (r & Hr & _).
  set (cm := writeKey "lpush" (-3) (cmdLPush len_hash example_env)).
  assert (Resolve r [lit "LPush"; lit "l"; lit "a"; lit "b"] = inl cm) as Hres.
  { apply (Resolve_spec len_hash zero_float (λ _, []) id example_env r _ cm Hr).
    eexists _, _. split; [reflexivity|]. split; [reflexivity|].
    split; [split; [reflexivity|vm_compute; discriminate]|]. split; [|vm_compute; discriminate].
    apply (list_elem_of_lookup_2 _ 12). reflexivity. }
  exists r, cm. split; [exact Hr|]. split; [exact Hres|].
  apply (dispatch_refines len_hash zero_float (λ _, []) id example_env r
    [lit "LPush"; lit "l"; lit "a"; lit "b"] cm no_pre (spec_push true) example_ctx 1000 [∅; ∅] ∅).
  - intros b f Hf. injection Hf as <-. unfold is_f64. lia.
  - exact Hr.
  - exact Hres.
  - apply (list_elem_of_lookup_2 _ 12). reflexivity.
  - exact example_sess.
  - reflexivity.
  - apply map_Forall_empty.
  - by repeat constructor.
  - exact I.
Defined.
