(* ===== verification/Locality.v ===== *)
(** * A command touches only the keys it declares

    [Command_Keys] is what the server locks before it runs a command. Each
    meaning in the table is shown to depend on those keys only, to change no
    other, and to change nothing at all when the command is declared read-only;
    and no command leaves an empty collection behind. *)

From S2P Require Import Prelude Pack Float64 Skiplist ValueList ValueHash ValueSet ValueZSet.
From S2P Require Import GoTime Value Keyspace Shard Strconv Resp Config Command Session CommandSpec.
From S2P Require Import CollectionSpec Registry.

(** ** Locality *)

(** The answer and the changes of [spec] depend on the keys [ks] of the store
    only, and only those change. *)
Definition local (ks : list bytes) (spec : aspec) (args : list bytes) : Prop :=
  forall t1 t2 A r A', spec t1 t2 args A r A' ->
    (forall k, k ∉ ks -> A' !! k = A !! k) /\
    forall B : astore, (forall k, k ∈ ks -> B !! k = A !! k) ->
      exists B', spec t1 t2 args B r B' /\
        (forall k, k ∈ ks -> B' !! k = A' !! k) /\ (forall k, k ∉ ks -> B' !! k = B !! k).

(** What a command does at one key. *)
Inductive change := Keep | Drop | Put (p : avalue * Time).

Definition apply_change (u : change) (key : bytes) (A : astore) : astore :=
  match u with Keep => A | Drop => delete key A | Put p => <[key := p]> A end.

(** Two stores a command on [key] cannot tell apart. *)
Definition agree (key : bytes) (A B : astore) : Prop := B !! key = A !! key.

Lemma agree_get (key : bytes) (A B : astore) (t : Time) : agree key A B -> get t B key = get t A key.
Proof. unfold agree, get. by intros ->. Qed.

(** A relation that is a change at [key], decided by what is there. *)
Definition at_key (key : bytes) (R : astore -> Reply -> astore -> Prop) : Prop :=
  forall A r A', R A r A' ->
    exists u, A' = apply_change u key A /\
      forall B, agree key A B -> R B r (apply_change u key B).

Lemma at_key_local (spec : aspec) (args : list bytes) (key : bytes) :
  (forall t1 t2, at_key key (spec t1 t2 args)) -> local [key] spec args.
Proof.
  intros Hk t1 t2 A r A' Hs. destruct (Hk t1 t2 A r A' Hs) as (u & -> & Hu). split.
  - intros k Hne. apply not_elem_of_cons in Hne as [Hne _].
    destruct u; simpl; [done|by rewrite lookup_delete_ne|by rewrite lookup_insert_ne].
  - intros B HB. exists (apply_change u key B). split; [|split].
    + apply Hu. apply HB. by constructor.
    + intros k ->%list_elem_of_singleton. destruct u; simpl;
        [apply HB; by constructor|by rewrite !lookup_delete_eq|by rewrite !lookup_insert_eq].
    + intros k Hne. apply not_elem_of_cons in Hne as [Hne _].
      destruct u; simpl; [done|by rewrite lookup_delete_ne|by rewrite lookup_insert_ne].
Qed.

(** The shapes of the collection commands. *)
Section ShapesLocal.
Context {C X : Type} `{!Collection C X}.

Lemma agree_see (key : bytes) (A B : astore) (t : Time) :
  agree key A B -> see (C := C) t B key = see t A key.
Proof. intros Hg. unfold see. by rewrite (agree_get key A B t Hg). Qed.

Lemma reads_at_key (key : bytes) (missing : Reply) (answer : X -> Reply -> Prop) (t : Time) :
  at_key key (λ A r A', reads C missing answer t key A r A').
Proof.
  intros A r A' [-> Hr]. exists Keep. split; [done|]. intros B Hg. split; [done|].
  by rewrite (agree_see key A B t Hg).
Qed.

Lemma adds_at_key (key : bytes) (ch : X -> Reply -> X -> Prop) (t : Time) :
  at_key key (λ A r A', adds C ch t key A r A').
Proof.
  intros A r A' Ha. unfold adds in *. destruct (see t A key) as [| |x d] eqn:Es.
  - destruct Ha as (x' & Hc & ->). eexists (Put _). split; [done|]. intros B Hg.
    rewrite (agree_see key A B t Hg), Es. by exists x'.
  - destruct Ha as [-> ->]. exists Keep. split; [done|]. intros B Hg.
    by rewrite (agree_see key A B t Hg), Es.
  - destruct Ha as (x' & Hc & ->). eexists (Put _). split; [done|]. intros B Hg.
    rewrite (agree_see key A B t Hg), Es. by exists x'.
Qed.

Lemma removes_at_key (key : bytes) (missing : Reply) (ch : X -> Reply -> X -> Prop) (t : Time) :
  at_key key (λ A r A', removes C missing ch t key A r A').
Proof.
  intros A r A' Ha. unfold removes in *. destruct (see t A key) as [| |x d] eqn:Es.
  1,2: destruct Ha as [-> ->]; exists Keep; split; [done|]; intros B Hg;
    by rewrite (agree_see key A B t Hg), Es.
  destruct Ha as (x' & Hc & ->).
  exists (if coll_is_empty x' then Drop else Put (coll_inj x', d)).
  split; [by destruct (coll_is_empty x')|]. intros B Hg. rewrite (agree_see key A B t Hg), Es.
  exists x'. split; [done|]. by destruct (coll_is_empty x').
Qed.
End ShapesLocal.

(** Chooses the change and rewrites the lookups. *)
Ltac keep := exists Keep; split; [done|]; intros B Hg.
Ltac put := eexists (Put _); split; [done|]; intros B Hg.

Ltac same_key Hk Hk' := rewrite Hk in Hk'; injection Hk' as <-.

Lemma get_at_key args key t1 t2 : args !! 1%nat = Some key -> at_key key (spec_get t1 t2 args).
Proof.
  intros Hk A r A' (k & Hk' & -> & ->). same_key Hk Hk'. keep. exists key.
  by rewrite (agree_get key A B t1 Hg).
Qed.

Lemma set_at_key args key t1 t2 : args !! 1%nat = Some key -> at_key key (spec_set t1 t2 args).
Proof.
  intros Hk A r A' (k & v & Hk' & Hv & -> & ->). same_key Hk Hk'. put. by exists key, v.
Qed.

Lemma incr_at_key delta args key t1 t2 :
  args !! 1%nat = Some key -> at_key key (spec_incr delta t1 t2 args).
Proof.
  intros Hk A r A' (k & Hk' & H). same_key Hk Hk'. cbn zeta in H.
  repeat case_match; destruct H as [-> ->]; (keep || put); exists key; cbn zeta;
    rewrite (agree_get key A B t1 Hg); repeat (case_match; simplify_eq); done.
Qed.

(** The deadline commands. *)
Lemma set_deadline_change (t : Time) (A : astore) (key : bytes) (at_ : Time) :
  exists u, set_deadline t A key at_ = apply_change u key A /\
    forall B, agree key A B -> set_deadline t B key at_ = apply_change u key B.
Proof.
  unfold set_deadline. destruct (get t A key) as [[v d]|] eqn:Eg.
  - eexists (Put _). split; [done|]. intros B Hg. by rewrite (agree_get key A B t Hg), Eg.
  - exists Keep. split; [done|]. intros B Hg. by rewrite (agree_get key A B t Hg), Eg.
Qed.

Lemma expire_at_key args key t1 t2 : args !! 1%nat = Some key -> at_key key (spec_expire t1 t2 args).
Proof.
  intros Hk A r A' (k & a & Hk' & Ha & H). same_key Hk Hk'.
  destruct (ParseInt a) as [secs|] eqn:Ep; destruct H as [-> ->].
  - destruct (set_deadline_change t2 A key (t1 + wrap64 (secs * 1000000000))) as (u & -> & Hu).
    exists u. split; [done|]. intros B Hg. exists key, a.
    by rewrite Ep, (agree_get key A B t2 Hg), Hu.
  - keep. exists key, a. by rewrite Ep.
Qed.

Lemma pexpireat_at_key args key t1 t2 :
  args !! 1%nat = Some key -> at_key key (spec_pexpireat t1 t2 args).
Proof.
  intros Hk A r A' (k & a & Hk' & Ha & H). same_key Hk Hk'.
  destruct (ParseInt a) as [ms|] eqn:Ep; destruct H as [-> ->].
  - destruct (set_deadline_change t2 A key (unix_epoch + ms * 1000000)) as (u & -> & Hu).
    exists u. split; [done|]. intros B Hg. exists key, a.
    by rewrite Ep, (agree_get key A B t2 Hg), Hu.
  - keep. exists key, a. by rewrite Ep.
Qed.

Lemma ttl_at_key args key t1 t2 : args !! 1%nat = Some key -> at_key key (spec_ttl t1 t2 args).
Proof.
  intros Hk A r A' (k & Hk' & -> & ->). same_key Hk Hk'. keep. exists key.
  by rewrite (agree_get key A B t1 Hg).
Qed.

Lemma persist_at_key args key t1 t2 :
  args !! 1%nat = Some key -> at_key key (spec_persist t1 t2 args).
Proof.
  intros Hk A r A' (k & Hk' & -> & ->). same_key Hk Hk'.
  exists match get t1 A key with Some (v, _) => Put (v, zeroTime) | None => Keep end.
  unfold clear_deadline, has_deadline. split; [by destruct (get t1 A key) as [[]|]|].
  intros B Hg. exists key. unfold clear_deadline, has_deadline.
  rewrite (agree_get key A B t1 Hg). by destruct (get t1 A key) as [[]|].
Qed.

Lemma type_at_key args key t1 t2 : args !! 1%nat = Some key -> at_key key (spec_type t1 t2 args).
Proof.
  intros Hk A r A' (k & Hk' & -> & ->). same_key Hk Hk'. keep. exists key.
  by rewrite (agree_get key A B t1 Hg).
Qed.

(** A meaning that is a shape at its key. *)
Lemma at_key_from (key : bytes) (R S : astore -> Reply -> astore -> Prop) :
  at_key key S -> (forall A r A', R A r A' <-> S A r A') -> at_key key R.
Proof.
  intros HS HRS A r A' H%HRS. destruct (HS A r A' H) as (u & -> & Hu).
  exists u. split; [done|]. intros B Hg. by apply HRS, Hu.
Qed.

(** An error answer that depends on the arguments only. *)
Lemma error_at_key (key : bytes) (r0 : Reply) : at_key key (λ A r A', r = r0 /\ A' = A).
Proof. intros A r A' [-> ->]. by keep. Qed.

Lemma push_at_key front args key t1 t2 :
  args !! 1%nat = Some key -> at_key key (spec_push front t1 t2 args).
Proof.
  intros Hk. eapply at_key_from; [apply (adds_at_key (C := List))|]. intros A r A'. split.
  - intros (k & vs & Hk' & -> & H). same_key Hk Hk'. exact H.
  - intros H. by exists key, (drop 2 args).
Qed.

Lemma pop_at_key front args key t1 t2 :
  args !! 1%nat = Some key -> at_key key (spec_pop front t1 t2 args).
Proof.
  intros Hk. destruct args as [|name [|k rest]]; [done..|]. injection Hk as ->.
  assert (forall S, at_key key S -> (forall A r A', spec_pop front t1 t2 (name :: key :: rest) A r A' <-> S A r A') ->
    at_key key (spec_pop front t1 t2 (name :: key :: rest))) as Hgo.
  { intros S HS Heq. by eapply at_key_from. }
  destruct rest as [|a [|b rest]].
  - eapply Hgo; [apply (removes_at_key (C := List))|]. intros A r A'. split.
    + intros (n & k & [= <-] & [= <-] & H). exact H.
    + intros H. exists name, key. split; [done|]. split; [done|]. exact H.
  - destruct (Atoi a) as [n|] eqn:Ea; [destruct (n <? 0) eqn:En|].
    + eapply Hgo; [apply error_at_key|]. intros A r A'. split.
      * intros (m & k & [= <-] & [= <-] & H). cbn in H. by rewrite Ea, En in H.
      * intros H. exists name, key. split; [done|]. split; [done|]. cbn. by rewrite Ea, En.
    + eapply Hgo; [apply (removes_at_key (C := List))|]. intros A r A'. split.
      * intros (m & k & [= <-] & [= <-] & H). cbn in H. rewrite Ea, En in H. exact H.
      * intros H. exists name, key. split; [done|]. split; [done|]. cbn. by rewrite Ea, En.
    + eapply Hgo; [apply error_at_key|]. intros A r A'. split.
      * intros (m & k & [= <-] & [= <-] & H). cbn in H. by rewrite Ea in H.
      * intros H. exists name, key. split; [done|]. split; [done|]. cbn. by rewrite Ea.
  - eapply Hgo; [apply error_at_key|]. intros A r A'. split.
    + intros (m & k & [= <-] & [= <-] & H). exact H.
    + intros H. exists name, key. split; [done|]. split; [done|]. exact H.
Qed.

(** A meaning that names its key and is then a shape, or an error decided by
    the arguments. *)
Ltac by_shape Hk L :=
  eapply at_key_from; [apply L|]; intros A r A'; split;
  [intros (k & Hk' & H); same_key Hk Hk'; exact H
  |intros H; eexists; split; [exact Hk|exact H]].

Ltac by_shape2 Hk Hx L :=
  eapply at_key_from; [apply L|]; intros A r A'; split;
  [intros (k & x & Hk' & Hx' & H); same_key Hk Hk'; same_key Hx Hx'; exact H
  |intros H; eexists _, _; split; [exact Hk|]; split; [exact Hx|exact H]].

Lemma llen_at_key args key t1 t2 : args !! 1%nat = Some key -> at_key key (spec_llen t1 t2 args).
Proof. intros Hk. by_shape Hk (reads_at_key (C := List)). Qed.

Lemma lrange_at_key args key a b t1 t2 :
  args !! 1%nat = Some key -> args !! 2%nat = Some a -> args !! 3%nat = Some b ->
  at_key key (spec_lrange t1 t2 args).
Proof.
  intros Hk Ha Hb.
  assert (forall A r A', spec_lrange t1 t2 args A r A' <->
    match Atoi a, Atoi b with
    | Some start, Some stop =>
        reads List (RArray []) (λ es r, r = bulks (range_spec start stop es)) t1 key A r A'
    | _, _ => r = RError msgNotInteger /\ A' = A
    end) as Heq.
  { intros A r A'. split; [|intros H; by exists key, a, b].
    intros (k & x & y & Hk' & Ha' & Hb' & H). by same_key Hk Hk'; same_key Ha Ha'; same_key Hb Hb'. }
  eapply at_key_from; [|exact Heq].
  destruct (Atoi a), (Atoi b); try apply error_at_key. apply (reads_at_key (C := List)).
Qed.

Lemma hset_at_key args key t1 t2 : args !! 1%nat = Some key -> at_key key (spec_hset t1 t2 args).
Proof.
  intros Hk. unfold spec_hset. destruct (negb (len args mod 2 =? 0)).
  - by_shape Hk error_at_key.
  - by_shape Hk (adds_at_key (C := Hash)).
Qed.

Lemma hget_at_key args key f t1 t2 :
  args !! 1%nat = Some key -> args !! 2%nat = Some f -> at_key key (spec_hget t1 t2 args).
Proof. intros Hk Hf. by_shape2 Hk Hf (reads_at_key (C := Hash)). Qed.

Lemma hdel_at_key args key t1 t2 : args !! 1%nat = Some key -> at_key key (spec_hdel t1 t2 args).
Proof. intros Hk. by_shape Hk (removes_at_key (C := Hash)). Qed.

Lemma hgetall_at_key args key t1 t2 :
  args !! 1%nat = Some key -> at_key key (spec_hgetall t1 t2 args).
Proof. intros Hk. by_shape Hk (reads_at_key (C := Hash)). Qed.

Lemma sadd_at_key args key t1 t2 : args !! 1%nat = Some key -> at_key key (spec_sadd t1 t2 args).
Proof. intros Hk. by_shape Hk (adds_at_key (C := GoSet)). Qed.

Lemma srem_at_key args key t1 t2 : args !! 1%nat = Some key -> at_key key (spec_srem t1 t2 args).
Proof. intros Hk. by_shape Hk (removes_at_key (C := GoSet)). Qed.

Lemma smembers_at_key args key t1 t2 :
  args !! 1%nat = Some key -> at_key key (spec_smembers t1 t2 args).
Proof. intros Hk. by_shape Hk (reads_at_key (C := GoSet)). Qed.

Lemma zadd_at_key parseFloat args key t1 t2 :
  args !! 1%nat = Some key -> at_key key (spec_zadd parseFloat t1 t2 args).
Proof.
  intros Hk. unfold spec_zadd. destruct (negb (len args mod 2 =? 0)).
  - by_shape Hk error_at_key.
  - destruct (parse_pairs parseFloat (drop 2 args)).
    + by_shape Hk (adds_at_key (C := ZSet)).
    + by_shape Hk error_at_key.
Qed.

Lemma zrange_at_key formatFloat args key a b t1 t2 :
  args !! 1%nat = Some key -> args !! 2%nat = Some a -> args !! 3%nat = Some b ->
  at_key key (spec_zrange formatFloat t1 t2 args).
Proof.
  intros Hk Ha Hb.
  assert (forall A r A', spec_zrange formatFloat t1 t2 args A r A' <->
    match zrange_scores args with
    | None => r = RError (lit "ERR syntax error") /\ A' = A
    | Some scores =>
        match Atoi a, Atoi b with
        | Some start, Some stop =>
            reads ZSet (RArray []) (λ m r, exists ps, ps ≡ₚ map_to_list m /\ zsorted ps /\
              r = zrange_reply formatFloat scores (range_spec start stop ps)) t1 key A r A'
        | _, _ => r = RError msgNotInteger /\ A' = A
        end
    end) as Heq.
  { intros A r A'. split; [|intros H; by exists key, a, b].
    intros (k & x & y & Hk' & Ha' & Hb' & H). by same_key Hk Hk'; same_key Ha Ha'; same_key Hb Hb'. }
  eapply at_key_from; [|exact Heq]. destruct (zrange_scores args); [|apply error_at_key].
  destruct (Atoi a), (Atoi b); try apply error_at_key. apply (reads_at_key (C := ZSet)).
Qed.

Lemma zscore_at_key formatFloat args key m t1 t2 :
  args !! 1%nat = Some key -> args !! 2%nat = Some m ->
  at_key key (spec_zscore formatFloat t1 t2 args).
Proof. intros Hk Hm. by_shape2 Hk Hm (reads_at_key (C := ZSet)). Qed.

(** *** Several keys *)

Lemma foldl_delete_lookup (keys : list bytes) : forall (A : astore) (k : bytes),
  foldl (λ A k, delete k A) A keys !! k = if decide (k ∈ keys) then None else A !! k.
Proof.
  induction keys as [|x keys IH]; intros A k; cbn [foldl].
  { by rewrite decide_False by set_solver. }
  rewrite IH. destruct (decide (k ∈ keys)) as [Hk|Hk].
  - by rewrite decide_True by set_solver.
  - destruct (decide (k = x)) as [->|Hne].
    + by rewrite lookup_delete_eq, decide_True by set_solver.
    + by rewrite lookup_delete_ne, decide_False by set_solver.
Qed.

Lemma live_keys_agree (t : Time) (A B : astore) (keys : list bytes) :
  (forall k, k ∈ keys -> B !! k = A !! k) ->
  live_keys t B (list_to_set keys) = live_keys t A (list_to_set keys).
Proof.
  intros H. apply set_eq. intros k. unfold live_keys. rewrite !elem_of_filter, elem_of_list_to_set.
  split; (intros [[p Hp] Hk]; split; [|done]; exists p; rewrite <- Hp; unfold get; by rewrite H).
Qed.

Lemma del_local name keys : local keys spec_del (name :: keys).
Proof.
  intros t1 t2 A r A' (n0 & ks & n & [= <- <-] & -> & -> & Hn). split.
  - intros k Hk. by rewrite foldl_delete_lookup, decide_False.
  - intros B HB. exists (foldl (λ A k, delete k A) B keys). split_and!.
    + exists name, keys, n. by rewrite !(live_keys_agree _ A B).
    + intros k Hk. by rewrite !foldl_delete_lookup, !decide_True.
    + intros k Hk. by rewrite foldl_delete_lookup, decide_False.
Qed.

Lemma filter_get_agree (t : Time) (A B : astore) (keys : list bytes) :
  (forall k, k ∈ keys -> B !! k = A !! k) ->
  filter (λ k, is_Some (get t B k)) keys = filter (λ k, is_Some (get t A k)) keys.
Proof.
  induction keys as [|k keys IH]; intros H; [done|].
  rewrite !filter_cons. rewrite IH by (intros; apply H; by constructor).
  assert (get t B k = get t A k) as Hk by (unfold get; by rewrite H by constructor).
  destruct (decide (is_Some (get t B k))) as [HB|HB], (decide (is_Some (get t A k))) as [HA|HA];
    rewrite Hk in HB; done.
Qed.

Lemma exists_local name keys : local keys spec_exists (name :: keys).
Proof.
  intros t1 t2 A r A' (n0 & ks & n & [= <- <-] & -> & -> & Hn). split; [done|].
  intros B HB. exists B. split_and!; [|done..]. exists name, keys, n.
  by rewrite !(filter_get_agree _ A B).
Qed.

Lemma sinter_sets_agree (A B : astore) (ts : list Time) (keys : list bytes) :
  (forall k, k ∈ keys -> B !! k = A !! k) ->
  sinter_sets B (zip ts keys) = sinter_sets A (zip ts keys).
Proof.
  revert ts. induction keys as [|k keys IH]; intros [|t ts] H; simpl; try done.
  unfold see, get. rewrite H by constructor. rewrite IH; [done|]. intros. apply H. by constructor.
Qed.

Lemma sinter_local name keys : local keys spec_sinter (name :: keys).
Proof.
  intros t1 t2 A r A' (-> & ts & Hl & Hts & H). split; [done|].
  intros B HB. exists B. split_and!; [|done..]. split; [done|]. exists ts. split_and!; [done..|].
  cbn [drop skipn] in *. rewrite ?drop_0 in *. by rewrite (sinter_sets_agree A B).
Qed.

Lemma ping_local args : local [] spec_ping args.
Proof. intros t1 t2 A r A' [-> ->]. split; [done|]. intros B HB. by exists B. Qed.

(** ** The declared keys *)

Lemma keys_loop_spec (args : list bytes) (last : Z) : forall fuel i,
  0 <= i -> last < len args -> (Z.to_nat (last - i + 1) <= fuel)%nat ->
  keys_loop fuel args i last 1 = Ret (take (Z.to_nat (last - i + 1)) (drop (Z.to_nat i) args)).
Proof.
  induction fuel as [|fuel IH]; intros i Hi Hl Hf; cbn [keys_loop].
  - destruct (Z.ltb_spec last i); [|lia]. by replace (Z.to_nat (last - i + 1)) with 0%nat by lia.
  - destruct (Z.ltb_spec last i); [by replace (Z.to_nat (last - i + 1)) with 0%nat by lia|].
    assert (Z.to_nat i < length args)%nat as Hlt by (unfold len in Hl; lia).
    apply lookup_lt_is_Some_2 in Hlt as [k Hk].
    rewrite <- (Z2Nat.id i) at 1 by done. rewrite (index_lookup _ _ _ Hk). orun.
    rewrite IH by lia. orun. rewrite (drop_S _ _ _ Hk).
    replace (Z.to_nat (last - i + 1)) with (S (Z.to_nat (last - (i + 1) + 1))) by lia.
    simpl. by replace (Z.to_nat (i + 1)) with (S (Z.to_nat i)) by lia.
Qed.

Lemma Keys_one (cm : Command) a key rest :
  cmd_wholeDB cm = false -> cmd_firstKey cm = 1 -> cmd_lastKey cm = 1 -> cmd_keyStep cm = 1 ->
  Command_Keys cm (a :: key :: rest) = Ret [key].
Proof.
  intros Hw Hf Hl Hs. unfold Command_Keys. rewrite Hw, Hf, Hl, Hs. cbn [Z.eqb Z.ltb Z.compare orb].
  rewrite !len_cons. pose proof (len_nonneg rest).
  destruct (Z.leb_spec (1 + (1 + len rest)) 1); [lia|]. cbn [Z.ltb Z.compare].
  rewrite keys_loop_spec; [|lia|rewrite !len_cons; lia|simpl; lia].
  change (Z.to_nat (1 - 1 + 1)) with 1%nat. change (Z.to_nat 1) with 1%nat. simpl.
  by rewrite ?drop_0, ?take_0.
Qed.

Lemma Keys_many (cm : Command) a keys :
  cmd_wholeDB cm = false -> cmd_firstKey cm = 1 -> cmd_lastKey cm = -1 -> cmd_keyStep cm = 1 ->
  Command_Keys cm (a :: keys) = Ret keys.
Proof.
  intros Hw Hf Hl Hs. unfold Command_Keys. rewrite Hw, Hf, Hl, Hs. cbn [Z.eqb Z.ltb Z.compare orb].
  rewrite !len_cons. pose proof (len_nonneg keys).
  destruct (Z.leb_spec (1 + len keys) (1 + len keys + -1)); [lia|].
  destruct (Z.ltb_spec (1 + len keys + -1) 1).
  - by destruct keys as [|k keys]; [|rewrite len_cons in *; pose proof (len_nonneg keys); lia].
  - rewrite keys_loop_spec; [|lia|rewrite len_cons; lia|lia].
    replace (Z.to_nat (1 + len keys + -1 - 1 + 1)) with (length keys) by (unfold len; lia).
    change (Z.to_nat 1) with 1%nat. cbn [drop skipn]. rewrite ?drop_0. by rewrite firstn_all.
Qed.

Lemma Keys_none (cm : Command) args : cmd_firstKey cm = 0 -> Command_Keys cm args = Ret [].
Proof. intros Hf. unfold Command_Keys. by rewrite Hf. Qed.

(** A command with meaning [spec]: its keys are found and cover what it does. *)
Definition covered (cm : Command) (spec : aspec) : Prop :=
  forall args, arity_ok (cmd_arity cm) (len args) -> cmd_wholeDB cm = false ->
    exists ks, Command_Keys cm args = Ret ks /\ local ks spec args /\
      (cmd_readOnly cm = true -> forall t1 t2 A r A', spec t1 t2 args A r A' -> A' = A).

(** A fixed number of arguments, or a least number. *)
Lemma covered_one (cm : Command) (spec : aspec) :
  cmd_wholeDB cm = false -> cmd_firstKey cm = 1 -> cmd_lastKey cm = 1 -> cmd_keyStep cm = 1 ->
  (cmd_arity cm <= -2 \/ 2 <= cmd_arity cm) ->
  (forall args key t1 t2, arity_ok (cmd_arity cm) (len args) -> args !! 1%nat = Some key ->
    at_key key (spec t1 t2 args)) ->
  (cmd_readOnly cm = true -> forall t1 t2 args A r A', spec t1 t2 args A r A' -> A' = A) ->
  covered cm spec.
Proof.
  intros Hw Hf Hl Hs Ha Hk Hr args Hok _.
  assert (exists a key rest, args = a :: key :: rest) as (a & key & rest & ->).
  { unfold arity_ok in Hok. destruct args as [|a [|key rest]]; [| |by eauto]; exfalso; revert Hok;
      unfold len; simpl; destruct (0 <=? cmd_arity cm) eqn:E0; intros; lia. }
  exists [key]. split; [by apply Keys_one|]. split; [|by eauto].
  apply at_key_local. intros t1 t2. by apply Hk.
Qed.

Lemma covered_many (cm : Command) (spec : aspec) :
  cmd_wholeDB cm = false -> cmd_firstKey cm = 1 -> cmd_lastKey cm = -1 -> cmd_keyStep cm = 1 ->
  cmd_arity cm = -2 -> (forall name keys, local keys spec (name :: keys)) ->
  (cmd_readOnly cm = true -> forall t1 t2 args A r A', spec t1 t2 args A r A' -> A' = A) ->
  covered cm spec.
Proof.
  intros Hw Hf Hl Hs Ha Hk Hr args Hok _. rewrite Ha in Hok.
  apply args_from_n in Hok as (a & key & rest & ->); [|done].
  exists (key :: rest). split; [by apply Keys_many|]. split; [apply Hk|by eauto].
Qed.

(** One row of the table: a command on its first argument, or on all of them. *)
Ltac one := apply Forall2_cons_2; [split; [reflexivity|apply covered_one;
    [reflexivity..|cbn [cmd_arity readKey writeKey]; lia|cbn [cmd_arity readKey writeKey]
    |cbn [cmd_readOnly readKey writeKey]; intros Hro; try discriminate Hro; clear Hro]]|].

Ltac many L := apply Forall2_cons_2; [split; [reflexivity|apply covered_many;
    [reflexivity..|intros; apply L
    |cbn [cmd_readOnly readKeys writeKeys]; intros Hro; try discriminate Hro; clear Hro]]|].

Section Table.
Context (maphash : bytes -> Z) (parseFloat : bytes -> option float64)
  (formatFloat : float64 -> bytes) (quote : bytes -> bytes) (E : Env).

Abbreviation all_commands := (Registry.all_commands maphash parseFloat formatFloat quote E).
Abbreviation data_commands := (Registry.data_commands maphash parseFloat formatFloat quote E).
Abbreviation meanings := (Registry.meanings parseFloat formatFloat).

Lemma table_covered :
  Forall2 (λ cm (m : bytes * ((list bytes -> Prop) * aspec)),
    cmd_name cm = m.1 /\ covered cm m.2.2) data_commands meanings.
Proof.
  one; [intros; by apply get_at_key|by intros t1 t2 args A r A' (? & _ & -> & _)|].
  one; [intros; by apply set_at_key|].
  one; [intros; by apply incr_at_key|].
  one; [intros; by apply incr_at_key|].
  many del_local. many del_local.
  many exists_local; [by intros t1 t2 args A r A' (? & ? & ? & _ & _ & -> & _)|].
  one; [intros; by apply expire_at_key|].
  one; [intros; by apply pexpireat_at_key|].
  one; [intros; by apply ttl_at_key|by intros t1 t2 args A r A' (? & _ & -> & _)|].
  one; [intros; by apply persist_at_key|].
  one; [intros; by apply type_at_key|by intros t1 t2 args A r A' (? & _ & -> & _)|].
  one; [intros; by apply push_at_key|].
  one; [intros; by apply push_at_key|].
  one; [intros; by apply pop_at_key|].
  one; [intros; by apply pop_at_key|].
  one; [|intros t1 t2 args A r A' (? & a & b & _ & _ & _ & H)|].
  { intros args key t1 t2 (? & ? & a & b & ->)%args_4 [= ->]. by eapply lrange_at_key. }
  { destruct (Atoi a), (Atoi b); [by destruct H..]. }
  one; [intros; by apply llen_at_key|intros t1 t2 args A r A' (? & _ & H); by destruct H|].
  one; [intros; by apply hset_at_key|].
  one; [intros args key t1 t2 (? & ? & f & ->)%args_3 ?; by eapply hget_at_key
       |intros t1 t2 args A r A' (? & ? & _ & _ & H); by destruct H|].
  one; [intros; by apply hdel_at_key|].
  one; [intros; by apply hgetall_at_key|intros t1 t2 args A r A' (? & _ & H); by destruct H|].
  one; [intros; by apply sadd_at_key|].
  one; [intros; by apply srem_at_key|].
  one; [intros; by apply smembers_at_key|intros t1 t2 args A r A' (? & _ & H); by destruct H|].
  many sinter_local; [by intros t1 t2 args A r A' [-> _]|].
  one; [intros; by apply zadd_at_key|].
  one; [|intros t1 t2 args A r A' (? & a & b & _ & _ & _ & H)|].
  { intros args key t1 t2 (? & ? & a & b & rest & ->)%args_from_4 [= ->]. by eapply zrange_at_key. }
  { destruct (zrange_scores args); [|by destruct H].
    destruct (Atoi a), (Atoi b); [by destruct H..]. }
  one; [intros args key t1 t2 (? & ? & f & ->)%args_3 ?; by eapply zscore_at_key
       |intros t1 t2 args A r A' (? & ? & _ & _ & H); by destruct H|].
  apply Forall2_cons_2.
  { split; [reflexivity|]. intros args _ _. exists []. split; [by apply Keys_none|].
    split; [apply ping_local|]. by intros _ t1 t2 A r A' [-> _]. }
  apply Forall2_cons_2; [split; [reflexivity|by intros args _]|]. by apply Forall2_nil.
Qed.

(** C30. A command reads and writes no key but those it declares. For every
    command of the table but FLUSHDB, [Command_Keys] finds the keys of a request
    of the right arity without a panic; the command's answer is the same, and its
    effect on those keys the same, in any two stores that agree on them; every
    other key keeps its value and its deadline; and a command declared read-only
    changes nothing. So a command that holds the shards of its declared keys runs
    as if alone. *)
Theorem commands_touch_declared_keys cm pre spec args :
  cm ∈ all_commands -> (cmd_name cm, (pre, spec)) ∈ meanings ->
  arity_ok (cmd_arity cm) (len args) -> cmd_wholeDB cm = false ->
  exists ks, Command_Keys cm args = Ret ks /\ local ks spec args /\
    (cmd_readOnly cm = true -> forall t1 t2 A r A', spec t1 t2 args A r A' -> A' = A).
Proof.
  intros Hcm Hm. exact (table_at maphash parseFloat formatFloat quote E (λ cm x, covered cm x.2)
    cm (pre, spec) table_covered Hcm Hm args).
Qed.
End Table.

(** ** No empty collections *)

(** A value that is not an empty collection. *)
Definition inhabited_value (a : avalue) : Prop :=
  match a with
  | AString _ => True
  | AList es => es <> []
  | AHash m => m <> ∅
  | ASet X => X <> ∅
  | AZSet m => m <> ∅
  end.

Definition no_empty (A : astore) : Prop := map_Forall (λ _ p, inhabited_value p.1) A.

(** [spec] leaves no empty collection in a store that has none. *)
Definition keeps_inhabited (spec : aspec) (args : list bytes) : Prop :=
  forall t1 t2 A r A', spec t1 t2 args A r A' -> no_empty A -> no_empty A'.

Lemma no_empty_insert (A : astore) (k : bytes) (a : avalue) (d : Time) :
  inhabited_value a -> no_empty A -> no_empty (<[k := (a, d)]> A).
Proof. intros Ha HA. by apply map_Forall_insert_2. Qed.

Lemma no_empty_delete (A : astore) (k : bytes) : no_empty A -> no_empty (delete k A).
Proof. intros HA. by apply map_Forall_delete. Qed.

Lemma no_empty_get (t : Time) (A : astore) (k : bytes) (a : avalue) (d : Time) :
  no_empty A -> get t A k = Some (a, d) -> inhabited_value a.
Proof. intros HA Hg%get_Some. exact (HA _ _ Hg). Qed.

#[local] Hint Resolve no_empty_insert no_empty_delete no_empty_get : core.

Lemma adds_inhabited {C X} `{!Collection C X} (ch : X -> Reply -> X -> Prop) t key A r A' :
  (forall x r x', ch x r x' -> inhabited_value (coll_inj x')) ->
  adds C ch t key A r A' -> no_empty A -> no_empty A'.
Proof.
  intros Hc Ha HA. unfold adds in Ha.
  destruct (see t A key); [|by destruct Ha as [_ ->]|]; destruct Ha as (x' & ? & ->); eauto.
Qed.

Lemma removes_inhabited {C X} `{!Collection C X} missing (ch : X -> Reply -> X -> Prop) t key A r A' :
  (forall x : X, coll_is_empty x = false -> inhabited_value (coll_inj x)) ->
  removes C missing ch t key A r A' -> no_empty A -> no_empty A'.
Proof.
  intros Hc Ha HA. unfold removes in Ha.
  destruct (see t A key); [by destruct Ha as [_ ->]..|]; destruct Ha as (x' & ? & ->).
  destruct (coll_is_empty x') eqn:Ee; eauto.
Qed.

(** HSET and ZADD bind at least one field. *)
Lemma hsets_inhabited (ps : list (bytes * bytes)) : forall m : gmap bytes bytes,
  ps <> [] \/ m <> ∅ -> hsets ps m <> ∅.
Proof.
  induction ps as [|[f v] ps IH]; intros m Hm; [by destruct Hm|].
  apply IH. right. apply insert_non_empty.
Qed.

Lemma zadds_inhabited (ps : list (float64 * bytes)) : forall m m' : gmap bytes float64,
  ps <> [] \/ m <> ∅ -> zadds ps m m' -> m' <> ∅.
Proof.
  induction ps as [|[sc f] ps IH]; intros m m' Hm Hz; simpl in Hz.
  { subst. by destruct Hm. }
  destruct Hz as (m1 & (s & -> & _) & Hz). eapply IH; [|exact Hz]. right. apply insert_non_empty.
Qed.

Lemma push_inhabited front args :
  arity_ok (-3) (len args) -> keeps_inhabited (spec_push front) args.
Proof.
  intros Ha t1 t2 A r A' (key & vs & _ & -> & H) HA. eapply (adds_inhabited (C := List)); [|exact H|done].
  intros es rep es' [-> _]. cbn [coll_inj list_collection inhabited_value].
  destruct args as [|a0 [|a1 [|a2 args]]]; try done. cbn [drop skipn].
  unfold pushes. destruct front; [rewrite reverse_cons|]; intros Hn.
  - apply app_eq_nil in Hn as [Hn _]. by apply app_eq_nil in Hn as [_ ?].
  - by apply app_eq_nil in Hn as [_ ?].
Qed.

Lemma list_not_empty (es : list bytes) :
  coll_is_empty (C := List) es = false -> inhabited_value (coll_inj (C := List) es).
Proof. apply bool_decide_eq_false_1. Qed.

Lemma pop_inhabited front args : keeps_inhabited (spec_pop front) args.
Proof.
  intros t1 t2 A r A' (name & key & _ & _ & H) HA. cbn zeta in H.
  repeat case_match; try (by destruct H as [_ ->]);
    by eapply (removes_inhabited (C := List)); [apply list_not_empty|exact H|].
Qed.

Lemma hset_inhabited args : arity_ok (-4) (len args) -> keeps_inhabited spec_hset args.
Proof.
  intros Ha t1 t2 A r A' (key & _ & H) HA.
  destruct (negb (len args mod 2 =? 0)); [by destruct H as [_ ->]|].
  eapply (adds_inhabited (C := Hash)); [|exact H|done]. intros m rep m' [-> _].
  apply args_from_4 in Ha as (a & k & x & y & rest & ->). cbn [coll_inj hash_collection inhabited_value].
  apply hsets_inhabited. by left.
Qed.

Lemma zadd_inhabited parseFloat args :
  arity_ok (-4) (len args) -> keeps_inhabited (spec_zadd parseFloat) args.
Proof.
  intros Ha t1 t2 A r A' (key & _ & H) HA.
  destruct (negb (len args mod 2 =? 0)); [by destruct H as [_ ->]|].
  destruct (parse_pairs parseFloat (drop 2 args)) as [pairs|] eqn:Ep; [|by destruct H as [_ ->]].
  eapply (adds_inhabited (C := ZSet)); [|exact H|done]. intros m rep m' [Hz _].
  apply args_from_4 in Ha as (a & k & x & y & rest & ->). cbn [coll_inj zset_collection inhabited_value].
  eapply zadds_inhabited; [|exact Hz]. left. intros ->. cbn [drop skipn] in Ep. rewrite ?drop_0 in Ep.
  cbn [parse_pairs] in Ep. destruct (parseFloat x) as [f|]; [|done]. cbn in Ep.
  destruct (IsNaN f); [done|]. by destruct (parse_pairs parseFloat rest).
Qed.

Lemma hdel_inhabited args : keeps_inhabited spec_hdel args.
Proof.
  intros t1 t2 A r A' (key & _ & H) HA. eapply (removes_inhabited (C := Hash)); [|exact H|done].
  intros m. apply bool_decide_eq_false_1.
Qed.

Lemma srem_inhabited args : keeps_inhabited spec_srem args.
Proof.
  intros t1 t2 A r A' (key & _ & H) HA. eapply (removes_inhabited (C := GoSet)); [|exact H|done].
  intros X. apply bool_decide_eq_false_1.
Qed.

Lemma sadd_inhabited args : arity_ok (-3) (len args) -> keeps_inhabited spec_sadd args.
Proof.
  intros Ha t1 t2 A r A' (key & _ & H) HA. eapply (adds_inhabited (C := GoSet)); [|exact H|done].
  intros X rep X' [-> _]. cbn [coll_inj set_collection inhabited_value].
  destruct args as [|a0 [|a1 [|a2 args]]]; try done. cbn [drop skipn list_to_set]. set_solver.
Qed.

Lemma string_inhabited (A : astore) (key b : bytes) (d : Time) :
  no_empty A -> no_empty (<[key := (AString b, d)]> A).
Proof. intros. by apply no_empty_insert. Qed.

Lemma set_deadline_inhabited (t : Time) (A : astore) (key : bytes) (at_ : Time) :
  no_empty A -> no_empty (set_deadline t A key at_).
Proof. intros HA. unfold set_deadline. destruct (get t A key) as [[v d]|] eqn:Eg; eauto. Qed.

Lemma persist_inhabited args : keeps_inhabited spec_persist args.
Proof.
  intros t1 t2 A r A' (key & _ & _ & ->) HA. unfold clear_deadline.
  destruct (get t1 A key) as [[v d]|] eqn:Eg; eauto.
Qed.

Lemma incr_inhabited delta args : keeps_inhabited (spec_incr delta) args.
Proof.
  intros t1 t2 A r A' (key & _ & H) HA. cbn zeta in H.
  repeat case_match; destruct H as [_ ->]; auto using string_inhabited.
Qed.

Lemma expire_inhabited args : keeps_inhabited spec_expire args.
Proof.
  intros t1 t2 A r A' (key & a & _ & _ & H) HA.
  destruct (ParseInt a); destruct H as [_ ->]; auto using set_deadline_inhabited.
Qed.

Lemma pexpireat_inhabited args : keeps_inhabited spec_pexpireat args.
Proof.
  intros t1 t2 A r A' (key & a & _ & _ & H) HA.
  destruct (ParseInt a); destruct H as [_ ->]; auto using set_deadline_inhabited.
Qed.

Lemma del_inhabited args : keeps_inhabited spec_del args.
Proof.
  intros t1 t2 A r A' (name & keys & n & _ & _ & -> & _). revert A.
  induction keys as [|k keys IH]; intros A HA; [done|]. apply IH. auto.
Qed.

(** A row of a read-only command, and of a writing one. *)
Ltac ro := apply Forall2_cons_2; [split; [reflexivity|by left]|].
Ltac wr L := apply Forall2_cons_2; [split; [reflexivity|right; intros args Ha; by apply L]|].

Section Inhabited.
Context (maphash : bytes -> Z) (parseFloat : bytes -> option float64)
  (formatFloat : float64 -> bytes) (quote : bytes -> bytes) (E : Env).

Abbreviation all_commands := (Registry.all_commands maphash parseFloat formatFloat quote E).
Abbreviation data_commands := (Registry.data_commands maphash parseFloat formatFloat quote E).
Abbreviation meanings := (Registry.meanings parseFloat formatFloat).

(** The writing commands; the others change nothing by their declaration. *)
Lemma table_inhabited :
  Forall2 (λ cm (m : bytes * ((list bytes -> Prop) * aspec)), cmd_name cm = m.1 /\
    (cmd_readOnly cm = true \/ forall args, arity_ok (cmd_arity cm) (len args) ->
      keeps_inhabited m.2.2 args)) data_commands meanings.
Proof.
  ro. apply Forall2_cons_2; [split; [reflexivity|right]|].
  { intros args _ t1 t2 A r A' (key & v & _ & _ & _ & ->) HA. by apply string_inhabited. }
  wr incr_inhabited. wr incr_inhabited. wr del_inhabited. wr del_inhabited. ro.
  wr expire_inhabited. wr pexpireat_inhabited. ro. wr persist_inhabited. ro.
  wr push_inhabited. wr push_inhabited. wr pop_inhabited. wr pop_inhabited. ro. ro.
  wr hset_inhabited. ro. wr hdel_inhabited. ro. wr sadd_inhabited. wr srem_inhabited. ro. ro.
  wr zadd_inhabited. ro. ro.
  apply Forall2_cons_2; [split; [reflexivity|right]|].
  { by intros args _ t1 t2 A r A' [-> _] HA. }
  apply Forall2_cons_2; [split; [reflexivity|right]|].
  { intros args _ t1 t2 A r A' [_ ->] HA. apply map_Forall_empty. }
  by apply Forall2_nil.
Qed.

Lemma readOnly_not_whole cm : cm ∈ all_commands -> cmd_readOnly cm = true -> cmd_wholeDB cm = false.
Proof.
  intros Hcm Hro.
  assert (Forall (λ cm, negb (cmd_readOnly cm && cmd_wholeDB cm)) all_commands) as HF
    by by repeat constructor.
  rewrite Forall_forall in HF. specialize (HF cm Hcm). rewrite Hro in HF. by destruct (cmd_wholeDB cm).
Qed.

(** No command leaves an empty list, hash, set or sorted set behind. *)
Lemma command_inhabited cm pre spec args t1 t2 A r A' :
  cm ∈ all_commands -> (cmd_name cm, (pre, spec)) ∈ meanings ->
  arity_ok (cmd_arity cm) (len args) ->
  spec t1 t2 args A r A' -> no_empty A -> no_empty A'.
Proof.
  intros Hcm Hm Ha Hspec HA.
  destruct (table_at maphash parseFloat formatFloat quote E
    (λ cm x, cmd_readOnly cm = true \/ forall args, arity_ok (cmd_arity cm) (len args) ->
      keeps_inhabited x.2 args) cm (pre, spec) table_inhabited Hcm Hm) as [Hro|Hk].
  - destruct (table_at maphash parseFloat formatFloat quote E (λ cm x, covered cm x.2)
      cm (pre, spec) (table_covered _ _ _ _ _) Hcm Hm args Ha) as (ks & _ & _ & Hsame).
    { by apply (readOnly_not_whole cm Hcm). }
    by rewrite (Hsame Hro _ _ _ _ _ Hspec).
  - exact (Hk args Ha _ _ _ _ _ Hspec HA).
Qed.
End Inhabited.

(** ** Witnesses *)

Definition example_sinter : Command := readKeys "sinter" (-2) (cmdSInter len_hash example_env).

Lemma commands_touch_declared_keys_witness :
  exists ks, Command_Keys example_sinter [lit "SINTER"; lit "a"; lit "b"] = Ret ks /\
    local ks spec_sinter [lit "SINTER"; lit "a"; lit "b"] /\
    (cmd_readOnly example_sinter = true -> forall t1 t2 A r A',
      spec_sinter t1 t2 [lit "SINTER"; lit "a"; lit "b"] A r A' -> A' = A).
Proof.
  apply (commands_touch_declared_keys len_hash zero_float (λ _, []) id example_env
    example_sinter no_pre spec_sinter [lit "SINTER"; lit "a"; lit "b"]).
  - apply (list_elem_of_lookup_2 _ 25). reflexivity.
  - apply (list_elem_of_lookup_2 _ 25). reflexivity.
  - vm_compute. discriminate.
  - reflexivity.
Defined.
