(* ===== verification/Codec.v ===== *)
(** * internal/persistence: the binary formats (codec.go, snapshot.go, appendlog.go)

    Values, snapshot records and logged commands as bytes, and the readers that
    take them back. Writers produce the bytes they hand to the buffered writer;
    a reader runs on the stream left and may fail with an error, or panic where
    the source allocates by a length it has just read. *)

From S2P Require Import Prelude GoBinary Pack Float64 Skiplist.
From S2P Require Import ValueList ValueHash ValueSet ValueZSet Value.

(** ** Readers that may panic *)

Definition preader (A : Type) : Type := bytes -> outcome ((A + io_error) * bytes).

Definition pret {A} (a : A) : preader A := λ r, Ret (inl a, r).
Definition pfail {A} (e : io_error) : preader A := λ r, Ret (inr e, r).
Definition pbind {A B} (m : preader A) (k : A -> preader B) : preader B := λ r,
  match m r with
  | Ret (inl a, r) => k a r
  | Ret (inr e, r) => Ret (inr e, r)
  | Panic p => Panic p
  | Diverge => Diverge
  end.
Definition plift {A} (m : reader A) : preader A := λ r, Ret (m r).
Definition pdo {A} (m : outcome A) : preader A := λ r, a ← m; Ret (inl a, r).
Definition pmap_err {A} (f : io_error -> io_error) (m : preader A) : preader A := λ r,
  '(x, r) ← m r; Ret (match x with inl a => inl a | inr e => inr (f e) end, r).

Notation "'let?' x ':=' m 'in' k" := (pbind m (λ x, k))
  (at level 10, x pattern, m at level 100, k at level 200).

(** [make([]T, n)] for elements of [size] bytes. *)
Definition make_slice (n size : Z) : outcome unit :=
  if 2 ^ 48 <? n * size then Panic MakeSliceLen else Ret tt.

(** ** Values (codec.go) *)

Definition tagString : byte := byte_of_Z 115.
Definition tagList : byte := byte_of_Z 108.
Definition tagHash : byte := byte_of_Z 104.
Definition tagSet : byte := byte_of_Z 112.
Definition tagZSet : byte := byte_of_Z 122.

Definition writeUvarint (n : Z) : bytes := PutUvarint n.
Definition writeBytes (b : bytes) : bytes := writeUvarint (len b) ++ b.

Definition readBytes : preader bytes :=
  let? n := plift ReadUvarint in
  let? _ := pdo (make_slice n 1) in
  plift (ReadFull (Z.to_nat n)).

Definition writeElements (tag : byte) (elems : list bytes) : bytes :=
  [tag] ++ writeUvarint (len elems) ++ concat (map writeBytes elems).

Definition writeScore (score : float64) : bytes := PutUint64 score.

Definition readScore : preader float64 :=
  let? sb := plift (ReadFull 8) in pret (Uint64 sb).

(** [seed] orders the iteration of a promoted hash or set. *)
Definition writeValue (seed : list nat) (v : Value) : outcome (bytes + io_error) :=
  match v with
  | VString s => Ret (inl ([tagString] ++ writeBytes s))
  | VList l => es ← List_Range l 0 (-1); Ret (inl (writeElements tagList es))
  | VHash h =>
      pairs ← Hash_Pairs seed h;
      Ret (inl ([tagHash] ++ writeUvarint (len pairs `quot` 2) ++ concat (map writeBytes pairs)))
  | VSet s => ms ← Set_Members seed s; Ret (inl (writeElements tagSet ms))
  | VZSet z =>
      ms ← ZSet_Range z 0 (-1);
      Ret (inl ([tagZSet] ++ writeUvarint (len ms) ++
                concat (map (λ m, writeBytes m.1 ++ writeScore m.2) ms)))
  | VNone => Ret (inr (ErrOther (lit "persistence: cannot encode value kind none")))
  end.

(** The loops [for i := uint64(0); i < n; i++]: every round reads from the
    stream, so a round more than there are bytes is enough. *)
Fixpoint read_loop {St} (fuel : nat) (n : Z) (step : Z -> St -> preader St) (i : Z) (st : St) :
    preader St :=
  if n <=? i then pret st else
  match fuel with
  | O => λ _, Diverge
  | S fuel => let? st := step i st in read_loop fuel n step (i + 1) st
  end.

Definition read_count {St} (step : Z -> St -> preader St) (st : St) : preader St :=
  let? n := plift ReadUvarint in λ r, read_loop (S (length r)) n step 0 st r.

Definition readElements {St} (add : St -> bytes -> outcome St) (st : St) : preader St :=
  read_count (λ _ st, let? b := readBytes in pdo (add st b)) st.

Definition read_pair (_ : Z) (h : Hash) : preader Hash :=
  let? field := readBytes in
  let? val := readBytes in
  pdo ('(_, h) ← Hash_Set h field val; Ret h).

(** [coins i] are the level draws of the [i]-th insertion. *)
Definition read_member (coins : Z -> list bool) (i : Z) (z : ZSet) : preader ZSet :=
  let? member := readBytes in
  let? score := readScore in
  pdo ('(_, z, _) ← ZSet_Add (coins i) z member score; Ret z).

(** The quoted tag at the end of the last error text is left out. *)
Definition readValue (limits : Limits) (coins : Z -> list bool) : preader Value :=
  let? tag := plift ReadByte in
  if bool_decide (tag = tagString) then let? b := readBytes in pret (MakeString b)
  else if bool_decide (tag = tagList) then
    let? l := readElements List_PushBack (NewList (lim_List limits)) in pret (MakeList l)
  else if bool_decide (tag = tagHash) then
    let? h := read_count read_pair (NewHash (lim_Hash limits)) in pret (MakeHash h)
  else if bool_decide (tag = tagSet) then
    let? s := readElements (λ s b, '(_, s) ← Set_Add s b; Ret s) (NewSet (lim_Set limits)) in
    pret (MakeSet s)
  else if bool_decide (tag = tagZSet) then
    let? z := read_count (read_member coins) (NewZSet (lim_ZSet limits)) in pret (MakeZSet z)
  else pfail (ErrOther (lit "persistence: unknown value tag")).

Definition unexpectedEOF (e : io_error) : io_error :=
  if bool_decide (e = EOF) then UnexpectedEOF else e.

(** ** Snapshot records (snapshot.go) *)

Record Record_ := mkRecord {
  rec_DB : Z;
  rec_Key : bytes;
  rec_ExpireAt : Z;
  rec_Value : Value }.

Definition snapshotMagic : bytes := lit "MEMCORE-SNAP1" ++ [byte_of_Z 10].

Definition writeRecord (seed : list nat) (rec : Record_) : outcome (bytes + io_error) :=
  v ← writeValue seed (rec_Value rec);
  Ret match v with
      | inl v => inl (writeUvarint (wrapu64 (rec_DB rec)) ++ writeBytes (rec_Key rec) ++
                      PutUint64 (wrapu64 (rec_ExpireAt rec)) ++ v)
      | inr e => inr e
      end.

Definition readRecord (limits : Limits) (coins : Z -> list bool) : preader Record_ :=
  let? db := plift ReadUvarint in
  let? key := pmap_err unexpectedEOF readBytes in
  let? ts := pmap_err unexpectedEOF (plift (ReadFull 8)) in
  let? v := pmap_err unexpectedEOF (readValue limits coins) in
  pret (mkRecord (wrap64 db) key (wrap64 (Uint64 ts)) v).

(** The records [emit] passes to [write], in order; the first error ends it. *)
Fixpoint write_records (seeds : nat -> list nat) (i : nat) (recs : list Record_) :
    outcome (bytes + io_error) :=
  match recs with
  | [] => Ret (inl [])
  | rec :: recs =>
      b ← writeRecord (seeds i) rec;
      match b with
      | inr e => Ret (inr e)
      | inl b =>
          bs ← write_records seeds (S i) recs;
          Ret match bs with inl bs => inl (b ++ bs) | inr e => inr e end
      end
  end.

Definition WriteSnapshot (seeds : nat -> list nat) (baseGen : Z) (recs : list Record_) :
    outcome (bytes + io_error) :=
  bs ← write_records seeds 0 recs;
  Ret match bs with
      | inl bs => inl (snapshotMagic ++ writeUvarint (wrapu64 baseGen) ++ bs)
      | inr e => inr e
      end.

Section Apply.
Context {St : Type}.

(** The loop of [ReadSnapshot]: [apply] restores a record, or stops with an
    error. Every record takes at least a byte. *)
Fixpoint read_records (fuel : nat) (limits : Limits) (coins : nat -> Z -> list bool) (i : nat)
    (apply : Record_ -> St -> outcome (St * option io_error)) (r : bytes) (st : St) :
    outcome (option io_error * St) :=
  match fuel with
  | O => Diverge
  | S fuel =>
      '(x, r) ← readRecord limits (coins i) r;
      match x with
      | inr e => Ret (if bool_decide (e = EOF) then None else Some e, st)
      | inl rec =>
          '(st, err) ← apply rec st;
          match err with
          | Some e => Ret (Some e, st)
          | None => read_records fuel limits coins (S i) apply r st
          end
      end
  end.

(** The base generation, the error if any, and the state restored. *)
Definition ReadSnapshot (limits : Limits) (coins : nat -> Z -> list bool)
    (apply : Record_ -> St -> outcome (St * option io_error)) (r : bytes) (st : St) :
    outcome (Z * option io_error * St) :=
  match ReadFull (length snapshotMagic) r with
  | (inr e, _) => Ret (0, if bool_decide (e = EOF) then None else Some e, st)
  | (inl magic, r) =>
      if bool_decide (magic <> snapshotMagic)
      then Ret (0, Some (ErrOther (lit "persistence: snapshot magic mismatch")), st)
      else
        match ReadUvarint r with
        | (inr e, _) => Ret (0, Some (unexpectedEOF e), st)
        | (inl baseGen, r) =>
            '(err, st) ← read_records (S (length r)) limits coins 0 apply r st;
            Ret (wrap64 baseGen, err, st)
        end
  end.
End Apply.

(** ** Logged commands (appendlog.go) *)

Definition writeCommand (db : Z) (args : list bytes) : bytes :=
  writeUvarint (wrapu64 db) ++ writeUvarint (len args) ++ concat (map writeBytes args).

(** [for i := range args]: the arguments read so far are kept. *)
Definition readCommand : preader (Z * list bytes) :=
  let? d := plift ReadUvarint in
  let? n := pmap_err unexpectedEOF (plift ReadUvarint) in
  let? _ := pdo (make_slice n 24) in
  let? args := pmap_err unexpectedEOF
    (λ r, read_loop (S (length r)) n (λ _ args, let? a := readBytes in pret (args ++ [a])) 0 [] r) in
  pret (wrap64 d, args).

(** ** Framing

    [pframes R m s a]: on a stream that starts with [s] the reader [m] takes
    exactly [s] and answers [a]; on a stream that is a proper prefix [p] of [s]
    it fails, with the stream used up and an error [R] allows after [p]. *)
Definition pframes {A} (R : bytes -> io_error -> Prop) (m : preader A) (s : bytes) (a : A) : Prop :=
  (forall rest, m (s ++ rest) = Ret (inl a, rest)) /\
  (forall p q, s = p ++ q -> q <> [] -> exists e, m p = Ret (inr e, []) /\ R p e).

(** Either end of file; a clean one at a boundary only; the torn one. *)
Definition eof_any (_ : bytes) (e : io_error) : Prop := e = EOF \/ e = UnexpectedEOF.
Definition eof_clean (p : bytes) (e : io_error) : Prop :=
  e = if bool_decide (p = []) then EOF else UnexpectedEOF.
Definition eof_torn (_ : bytes) (e : io_error) : Prop := e = UnexpectedEOF.

Lemma pframes_ret {A} R (a : A) : pframes R (pret a) [] a.
Proof. split; [done|]. intros p q E Hq. symmetry in E. by apply app_eq_nil in E as [_ ->]. Qed.

Lemma pframes_do {A} R (m : outcome A) a : m = Ret a -> pframes R (pdo m) [] a.
Proof.
  intros ->. split; [done|]. intros p q E Hq. symmetry in E. by apply app_eq_nil in E as [_ ->].
Qed.

Lemma pframes_lift {A} (m : reader A) s a : frames m s a EOF -> pframes eof_clean (plift m) s a.
Proof.
  intros [H1 H2]. unfold plift. split; [intros rest; by rewrite H1|].
  intros p q E Hq. rewrite (H2 p q E Hq). by eexists.
Qed.

Lemma pframes_impl {A} (R R' : bytes -> io_error -> Prop) (m : preader A) s a :
  pframes R m s a -> (forall p e, R p e -> R' p e) -> pframes R' m s a.
Proof. intros [H1 H2] HR. split; [done|]. intros p q E Hq. destruct (H2 p q E Hq) as (e & ? & ?). eauto. Qed.

Lemma eof_clean_any p e : eof_clean p e -> eof_any p e.
Proof. unfold eof_clean, eof_any. destruct (bool_decide _); auto. Qed.

Lemma pframes_bind {A B} (R1 R2 R : bytes -> io_error -> Prop) (m : preader A) (k : A -> preader B) s t a b :
  pframes R1 m s a -> pframes R2 (k a) t b ->
  (forall p e, R1 p e -> R p e) -> (forall p e, R2 p e -> R (s ++ p) e) ->
  pframes R (pbind m k) (s ++ t) b.
Proof.
  intros [Hm1 Hm2] [Hk1 Hk2] H1 H2. unfold pbind. split.
  - intros rest. by rewrite <- app_assoc, Hm1.
  - intros p q E Hq. destruct (app_cut _ _ _ _ E Hq) as [(q' & Es & Hq')|(p' & -> & Et)].
    + destruct (Hm2 p q' Es Hq') as (e & -> & He). eauto.
    + rewrite Hm1. destruct (Hk2 p' q Et Hq) as (e & -> & He). eauto.
Qed.

(** The usual case: every cut is some end of file. *)
Lemma pframes_bind_any {A B} (m : preader A) (k : A -> preader B) s t a b :
  pframes eof_any m s a -> pframes eof_any (k a) t b -> pframes eof_any (pbind m k) (s ++ t) b.
Proof. intros Hm Hk. by eapply pframes_bind. Qed.

Lemma pframes_bind_torn {A B} (m : preader A) (k : A -> preader B) s t a b :
  pframes eof_torn m s a -> pframes eof_torn (k a) t b -> pframes eof_torn (pbind m k) (s ++ t) b.
Proof. intros Hm Hk. by eapply pframes_bind. Qed.

(** A record: a clean end of file before it, a torn one inside. *)
Lemma pframes_bind_record {A B} (m : preader A) (k : A -> preader B) s t a b :
  pframes eof_clean m s a -> s <> [] -> pframes eof_torn (k a) t b ->
  pframes eof_clean (pbind m k) (s ++ t) b.
Proof.
  intros Hm Hs Hk. eapply pframes_bind; [exact Hm|exact Hk|done|].
  intros p e ->. unfold eof_clean. by rewrite bool_decide_false by (by destruct s).
Qed.

Lemma pframes_torn {A} (m : preader A) s a :
  pframes eof_any m s a -> pframes eof_torn (pmap_err unexpectedEOF m) s a.
Proof.
  intros [H1 H2]. unfold pmap_err. split.
  - intros rest. by rewrite H1.
  - intros p q E Hq. destruct (H2 p q E Hq) as (e & -> & He). eexists. split; [done|].
    destruct He as [->| ->]; done.
Qed.

(** ** Lemmas: elements *)

Lemma pframes_ReadUvarint n :
  0 <= n < 2 ^ 64 -> pframes eof_clean (plift ReadUvarint) (writeUvarint n) n.
Proof. intros Hn. by apply pframes_lift, frames_ReadUvarint. Qed.

Lemma writeUvarint_nonempty n : writeUvarint n <> [].
Proof.
  intros E. apply (f_equal length) in E. simpl in E.
  pose proof (PutUvarint_length n). unfold writeUvarint in E. lia.
Qed.

Lemma writeBytes_nonempty b : writeBytes b <> [].
Proof.
  unfold writeBytes. pose proof (writeUvarint_nonempty (len b)). by destruct (writeUvarint (len b)).
Qed.

Lemma writeBytes_app_nonempty b t : writeBytes b ++ t <> [].
Proof. intros [E _]%app_eq_nil. by apply (writeBytes_nonempty b). Qed.

#[local] Hint Resolve writeUvarint_nonempty writeBytes_nonempty writeBytes_app_nonempty : core.

Lemma make_slice_ok n size : n * size <= 2 ^ 48 -> make_slice n size = Ret tt.
Proof. intros. unfold make_slice. by destruct (Z.ltb_spec (2 ^ 48) (n * size)); [lia|]. Qed.

Lemma pframes_any {A} (m : preader A) s a : pframes eof_clean m s a -> pframes eof_any m s a.
Proof. intros H. eapply pframes_impl; [exact H|apply eof_clean_any]. Qed.

Lemma pframes_readBytes b : go_len b -> pframes eof_any readBytes (writeBytes b) b.
Proof.
  intros Hb. unfold readBytes, writeBytes. eapply pframes_bind_any.
  - apply pframes_any, pframes_ReadUvarint. by apply go_len_uint64.
  - rewrite <- (app_nil_l b) at 2. eapply pframes_bind_any.
    + apply pframes_do, make_slice_ok. unfold go_len in Hb. lia.
    + apply pframes_any, pframes_lift, frames_ReadFull. by rewrite to_nat_len.
Qed.

Lemma pframes_readScore f : is_f64 f -> pframes eof_any readScore (writeScore f) f.
Proof.
  intros Hf. unfold readScore, writeScore. rewrite <- (app_nil_r (PutUint64 f)).
  eapply pframes_bind_any.
  - apply pframes_any, pframes_lift, frames_ReadFull. unfold PutUint64. by rewrite le_bytes_length.
  - rewrite <- (app_nil_r (PutUint64 f)) at 1. rewrite Uint64_PutUint64 by done. apply pframes_ret.
Qed.

(** ** Lemmas: counted loops *)

Section Loops.
Context {St : Type} (step : Z -> St -> preader St).

(** The rounds that read [items] take [st] to [st']. *)
Fixpoint rounds (i : Z) (st : St) (items : list bytes) (st' : St) : Prop :=
  match items with
  | [] => st' = st
  | s :: items => exists st1, pframes eof_any (step i st) s st1 /\ s <> [] /\ rounds (i + 1) st1 items st'
  end.

Lemma concat_items_length (items : list bytes) :
  Forall (λ s, s <> []) items -> (length items <= length (concat items))%nat.
Proof.
  induction 1 as [|s items Hs _ IH]; simpl; [lia|].
  rewrite length_app. destruct s; [done|simpl; lia].
Qed.

Lemma rounds_nonempty items : forall i st st', rounds i st items st' -> Forall (λ s, s <> []) items.
Proof.
  induction items as [|s items IH]; intros i st st' H; [constructor|].
  destruct H as (st1 & _ & Hs & H). constructor; eauto.
Qed.

Lemma read_loop_all items : forall fuel i st st' rest,
  rounds i st items st' -> (length items <= fuel)%nat ->
  read_loop fuel (i + len items) step i st (concat items ++ rest) = Ret (inl st', rest).
Proof.
  induction items as [|s items IH]; intros fuel i st st' rest Hr Hf; simpl in Hr.
  - subst. change (len []) with 0. rewrite Z.add_0_r.
    destruct fuel; simpl; by rewrite Z.leb_refl.
  - destruct Hr as (st1 & [Hs1 _] & Hs & Hr). destruct fuel as [|fuel]; [simpl in Hf; lia|].
    rewrite len_cons. cbn [read_loop concat]. pose proof (len_nonneg items).
    destruct (Z.leb_spec (i + (1 + len items)) i); [lia|].
    unfold pbind. rewrite <- app_assoc, Hs1. rewrite Z.add_assoc.
    apply IH; [done|simpl in Hf; lia].
Qed.

Lemma read_loop_cut items : forall fuel i st st' p q,
  rounds i st items st' -> concat items = p ++ q -> q <> [] -> (length p < fuel)%nat ->
  exists e, read_loop fuel (i + len items) step i st p = Ret (inr e, []) /\ eof_any p e.
Proof.
  induction items as [|s items IH]; intros fuel i st st' p q Hr E Hq Hf; simpl in Hr.
  { symmetry in E. by apply app_eq_nil in E as [_ ->]. }
  destruct Hr as (st1 & [Hs1 Hs2] & Hs & Hr). destruct fuel as [|fuel]; [lia|].
  rewrite len_cons. cbn [read_loop]. pose proof (len_nonneg items).
  destruct (Z.leb_spec (i + (1 + len items)) i); [lia|]. unfold pbind. cbn [concat] in E.
  destruct (app_cut _ _ _ _ E Hq) as [(q' & Es & Hq')|(p' & -> & Et)].
  - destruct (Hs2 p q' Es Hq') as (e & -> & He). eauto.
  - rewrite Hs1, Z.add_assoc.
    destruct (IH fuel (i + 1) st1 st' p' q Hr Et Hq) as (e & -> & He); [|by exists e].
    rewrite length_app in Hf. destruct s; [done|simpl in Hf; lia].
Qed.

Lemma pframes_loop n items st st' :
  rounds 0 st items st' -> n = len items ->
  pframes eof_any (λ r, read_loop (S (length r)) n step 0 st r) (concat items) st'.
Proof.
  intros Hr ->. pose proof (rounds_nonempty _ _ _ _ Hr) as Hn.
  pose proof (concat_items_length _ Hn). split.
  - intros rest. rewrite <- (Z.add_0_l (len items)).
    apply read_loop_all; [done|]. rewrite length_app. lia.
  - intros p q E Hq. rewrite <- (Z.add_0_l (len items)). eapply read_loop_cut; [done..|lia].
Qed.

Lemma pframes_read_count items st st' :
  rounds 0 st items st' -> len items <= MaxInt64 ->
  pframes eof_any (read_count step st) (writeUvarint (len items) ++ concat items) st'.
Proof.
  intros Hr Hn. unfold read_count. eapply pframes_bind_any.
  - apply pframes_any, pframes_ReadUvarint. unfold MaxInt64 in Hn. pose proof (len_nonneg items). lia.
  - by apply pframes_loop.
Qed.
End Loops.

(** ** Lemmas: values *)

Lemma range_all {A} (es : list A) : range_spec 0 (-1) es = es.
Proof.
  unfold range_spec, select, from_end. pose proof (len_nonneg es). cbn [Z.ltb Z.compare].
  rewrite Z.max_id, Z.min_l by lia. change (Z.to_nat 0) with 0%nat. rewrite drop_0.
  apply take_ge. unfold len. lia.
Qed.

(** One element, one pair, one member. *)
Lemma pframes_element {St} (add : St -> bytes -> outcome St) st st' b :
  go_len b -> add st b = Ret st' ->
  pframes eof_any (let? b := readBytes in pdo (add st b)) (writeBytes b) st'.
Proof.
  intros Hb Ha. rewrite <- (app_nil_r (writeBytes b)).
  eapply pframes_bind_any; [by apply pframes_readBytes|by apply pframes_do].
Qed.

(** A loop that adds the elements [es] one by one, kept by [rep]. *)
Lemma rounds_elements {St} (add : St -> bytes -> outcome St) (rep : list bytes -> St -> Prop) es :
  (forall done st b, go_len b -> rep done st -> exists st', add st b = Ret st' /\ rep (done ++ [b]) st') ->
  Forall go_len es -> forall i done st, rep done st ->
  exists st', rounds (λ _ st, let? b := readBytes in pdo (add st b)) i st (map writeBytes es) st' /\
    rep (done ++ es) st'.
Proof.
  intros Hadd Hes. induction Hes as [|b es Hb _ IH]; intros i done st Hrep.
  { exists st. by rewrite app_nil_r. }
  destruct (Hadd done st b Hb Hrep) as (st1 & Ea & Hrep1).
  destruct (IH (i + 1) (done ++ [b]) st1 Hrep1) as (st' & Hr & Hrep').
  exists st'. rewrite <- app_assoc in Hrep'. split; [|done].
  exists st1. split_and!; [by apply pframes_element|done|done].
Qed.

Lemma pframes_readElements {St} (add : St -> bytes -> outcome St) (rep : list bytes -> St -> Prop) es st :
  (forall done st b, go_len b -> rep done st -> exists st', add st b = Ret st' /\ rep (done ++ [b]) st') ->
  Forall go_len es -> len es <= MaxInt64 -> rep [] st ->
  exists st', pframes eof_any (readElements add st)
      (writeUvarint (len es) ++ concat (map writeBytes es)) st' /\ rep es st'.
Proof.
  intros Hadd Hes Hn Hrep.
  destruct (rounds_elements add rep es Hadd Hes 0 [] st Hrep) as (st' & Hr & Hrep').
  exists st'. split; [|done].
  assert (len es = len (map writeBytes es)) as Hl by (unfold len; by rewrite length_map).
  rewrite Hl. apply pframes_read_count; [done|by rewrite <- Hl].
Qed.

Lemma rounds_pairs ps : forall i (h : Hash) (acc : list (bytes * bytes)),
  hash_rep h (list_to_map acc) -> hash_within h (list_to_map acc) ->
  Forall (λ p, go_len p.1 /\ go_len p.2) ps ->
  exists h', rounds read_pair i h (map (λ p, writeBytes p.1 ++ writeBytes p.2) ps) h' /\
    hash_rep h' (list_to_map (rev_append ps acc)) /\ hash_within h' (list_to_map (rev_append ps acc)).
Proof.
  induction ps as [|[f v] ps IH]; intros i h acc Hr Hw Hps; [by exists h|].
  apply Forall_cons in Hps as [[Hf Hv] Hps]. simpl in Hf, Hv.
  destruct (Hash_Set_spec h _ f v Hr Hw Hf Hv) as (h1 & Eh & Hr1 & _ & Hw1).
  destruct (IH (i + 1) h1 ((f, v) :: acc) Hr1 Hw1 Hps) as (h' & Hrs & Hr' & Hw').
  exists h'. split; [|done]. exists h1. split_and!; [|apply writeBytes_app_nonempty|done].
  simpl. eapply pframes_bind_any; [by apply pframes_readBytes|].
  rewrite <- (app_nil_r (writeBytes v)). eapply pframes_bind_any; [by apply pframes_readBytes|].
  apply pframes_do. by rewrite Eh.
Qed.

Lemma rounds_members coins ps : forall i (z : ZSet) (acc : list (bytes * float64)),
  zset_rep z (list_to_map acc) -> zset_within z (list_to_map acc) ->
  Forall zpair_ok ps -> NoDup (acc ++ ps).*1 ->
  exists z', rounds (read_member coins) i z (map (λ m, writeBytes m.1 ++ writeScore m.2) ps) z' /\
    zset_rep z' (list_to_map (rev_append ps acc)) /\ zset_within z' (list_to_map (rev_append ps acc)).
Proof.
  induction ps as [|[m sc] ps IH]; intros i z acc Hr Hw Hps Hnd; [by exists z|].
  apply Forall_cons in Hps as [Hp Hps].
  destruct (ZSet_Add_spec (coins i) z _ m sc Hr Hw Hp) as (z1 & cs & m1 & Ez & Ha & Hr1 & _ & Hw1).
  assert ((list_to_map acc : gmap bytes float64) !! m = None) as Hnone.
  { apply not_elem_of_list_to_map_1. rewrite fmap_app in Hnd. apply NoDup_app in Hnd as (_ & Hd & _).
    intros Hin. apply (Hd m Hin). simpl. by left. }
  assert (m1 = list_to_map ((m, sc) :: acc)) as ->.
  { destruct Ha as (s & -> & [->|[Hs _]]); [done|]. by rewrite Hnone in Hs. }
  destruct (IH (i + 1) z1 ((m, sc) :: acc) Hr1 Hw1 Hps) as (z' & Hrs & Hr' & Hw').
  { rewrite fmap_app in *. rewrite !fmap_cons in *. by rewrite <- app_comm_cons, Permutation_middle. }
  exists z'. split; [|done]. destruct Hp as (Hm & Hsc & _). simpl in Hm, Hsc.
  exists z1. split_and!; [|apply writeBytes_app_nonempty|done].
  simpl. eapply pframes_bind_any; [by apply pframes_readBytes|].
  rewrite <- (app_nil_r (writeScore sc)). eapply pframes_bind_any; [by apply pframes_readScore|].
  apply pframes_do. by rewrite Ez.
Qed.

Lemma rev_append_map {A} (ps : list (bytes * A)) (m : gmap bytes A) :
  ps ≡ₚ map_to_list m -> list_to_map (rev_append ps []) = m.
Proof.
  intros Hp. rewrite rev_append_rev, app_nil_r.
  assert (reverse ps ≡ₚ map_to_list m) as Hr by by rewrite reverse_Permutation.
  unfold reverse in Hr. rewrite rev_append_rev, app_nil_r in Hr.
  rewrite <- (list_to_map_to_list m). apply list_to_map_proper; [|done].
  rewrite Hr. apply NoDup_fst_map_to_list.
Qed.

(** The bytes [writeValue] writes are what [readValue] takes, and it rebuilds a
    value of the same meaning. *)
Definition value_framed (seed : list nat) (v : Value) (a : avalue) : Prop :=
  exists b, writeValue seed v = Ret (inl b) /\
    forall limits coins, exists v', pframes eof_any (readValue limits coins) b v' /\ value_rep v' a.

(** Reads the tag and takes its branch. *)
Ltac read_tag :=
  unfold readValue; eapply pframes_bind_any; [apply pframes_any, pframes_lift, frames_ReadByte|];
  repeat (rewrite bool_decide_false by done); rewrite bool_decide_true by done.

Lemma string_framed seed s : go_len s -> value_framed seed (VString s) (AString s).
Proof.
  intros Hs. eexists. split; [done|]. intros limits coins. exists (VString s). split; [|done].
  read_tag. rewrite <- (app_nil_r (writeBytes s)).
  eapply pframes_bind_any; [by apply pframes_readBytes|apply pframes_ret].
Qed.

Lemma list_framed seed l es :
  list_rep l es -> len es <= MaxInt64 -> value_framed seed (VList l) (AList es).
Proof.
  intros Hr Hs. pose proof Hr as [Hes _].
  assert (List_Range l 0 (-1) = Ret es) as El by by rewrite (List_Range_spec l es), range_all.
  unfold value_framed. cbn [writeValue]. rewrite El. eexists. split; [done|]. intros limits coins.
  destruct (pframes_readElements List_PushBack (λ es l, list_rep l es /\ list_within l es)
    es (NewList (lim_List limits))) as (l' & Hf & Hr');
    [|done|done|split; [apply NewList_rep|apply NewList_within]|].
  { intros es0 l0 b Hb [Hr0 Hw0].
    destruct (List_PushBack_spec l0 es0 b Hr0 Hw0 Hb) as (l1 & E1 & ? & _ & ?). by exists l1. }
  exists (VList l'). split; [|done]. unfold writeElements. read_tag.
  rewrite <- (app_nil_r (writeUvarint _ ++ _)). eapply pframes_bind_any; [exact Hf|apply pframes_ret].
Qed.

Lemma set_framed seed s X :
  set_rep s X -> Z.of_nat (size X) <= MaxInt64 -> value_framed seed (VSet s) (ASet X).
Proof.
  intros Hr Hs. destruct (Set_Members_spec seed s X Hr) as (es & Em & Hp).
  assert (len es = Z.of_nat (size X)) as Hlen.
  { unfold len. rewrite Hp. reflexivity. }
  assert (list_to_set es = X) as HX.
  { apply set_eq. intros x. by rewrite elem_of_list_to_set, Hp, elem_of_elements. }
  assert (Forall go_len es) as Hes.
  { rewrite Hp. apply Forall_forall. intros x Hx%elem_of_elements. by apply Hr. }
  unfold value_framed. cbn [writeValue]. rewrite Em. eexists. split; [done|]. intros limits coins.
  destruct (pframes_readElements (λ s b, '(_, s) ← Set_Add s b; Ret s)
    (λ es s, set_rep s (list_to_set es) /\ set_within s (list_to_set es))
    es (NewSet (lim_Set limits))) as (s' & Hf & Hr');
    [|done|lia|split; [apply NewSet_rep|apply NewSet_within]|].
  { intros es0 s0 b Hb [Hr0 Hw0].
    destruct (Set_Add_spec s0 _ b Hr0 Hw0 Hb) as (s1 & E1 & Hr1 & _ & Hw1). exists s1.
    rewrite E1. split; [done|].
    assert ((list_to_set (es0 ++ [b]) : gset bytes) = {[b]} ∪ list_to_set es0) as ->; [|done].
    rewrite list_to_set_app_L. set_solver. }
  rewrite HX in Hr'. exists (VSet s'). split; [|done]. unfold writeElements. read_tag.
  rewrite <- (app_nil_r (writeUvarint _ ++ _)). eapply pframes_bind_any; [exact Hf|apply pframes_ret].
Qed.

Lemma concat_flat ps :
  concat (map writeBytes (flat ps)) = concat (map (λ p, writeBytes p.1 ++ writeBytes p.2) ps).
Proof.
  unfold flat. induction ps as [|[f v] ps IH]; [done|].
  cbn [map concat app fst snd]. by rewrite IH, app_assoc.
Qed.

Lemma len_flat ps : len (flat ps) `quot` 2 = len ps.
Proof.
  assert (length (flat ps) = 2 * length ps)%nat as Hl.
  { unfold flat. induction ps as [|[f v] ps IH]; [done|]. cbn [map concat app length]. rewrite IH. lia. }
  unfold len. rewrite Hl, Nat2Z.inj_mul. rewrite Z.mul_comm. by apply Z.quot_mul.
Qed.

Lemma hash_framed seed h m :
  hash_rep h m -> Z.of_nat (size m) <= MaxInt64 -> value_framed seed (VHash h) (AHash m).
Proof.
  intros Hr Hs. destruct (Hash_Pairs_spec seed h m Hr) as (ps & Ep & Hp).
  assert (len ps = Z.of_nat (size m)) as Hlen by (unfold len; by rewrite Hp, length_map_to_list).
  assert (Forall (λ p, go_len p.1 /\ go_len p.2) ps) as Hok.
  { rewrite Hp. apply Forall_forall. intros [f v] Hin%elem_of_map_to_list. exact (proj1 Hr f v Hin). }
  unfold value_framed. cbn [writeValue]. rewrite Ep. eexists. split; [done|]. intros limits coins.
  destruct (rounds_pairs ps 0 (NewHash (lim_Hash limits)) []) as (h' & Hrs & Hr' & Hw');
    [apply NewHash_rep|apply NewHash_within|done|].
  rewrite (rev_append_map ps m) in Hr', Hw' by done. exists (VHash h'). split; [|done]. read_tag.
  rewrite len_flat, concat_flat.
  assert (len ps = len (map (λ p, writeBytes p.1 ++ writeBytes p.2) ps)) as ->
    by (unfold len; by rewrite length_map).
  rewrite <- (app_nil_r (writeUvarint _ ++ _)).
  eapply pframes_bind_any; [apply pframes_read_count; [exact Hrs|]|apply pframes_ret].
  unfold len in *. rewrite length_map. lia.
Qed.

Lemma zset_framed seed z m :
  zset_rep z m -> Z.of_nat (size m) <= MaxInt64 -> value_framed seed (VZSet z) (AZSet m).
Proof.
  intros Hr Hs. destruct (ZSet_Range_spec z m 0 (-1) Hr) as (ps & Hc & Ep); [done..|].
  rewrite range_all in Ep. pose proof (zcontents_size _ _ Hc) as Hlen.
  destruct Hc as (_ & Hok & Hnd & Hm).
  unfold value_framed. cbn [writeValue]. rewrite Ep. eexists. split; [done|]. intros limits coins.
  destruct (rounds_members coins ps 0 (NewZSet (lim_ZSet limits)) []) as (z' & Hrs & Hr' & Hw');
    [apply NewZSet_rep|apply NewZSet_within|done|done|].
  rewrite (rev_append_map ps m) in Hr', Hw' by (subst m; by rewrite map_to_list_to_map).
  exists (VZSet z'). split; [|done]. read_tag.
  assert (len ps = len (map (λ m, writeBytes m.1 ++ writeScore m.2) ps)) as ->
    by (unfold len; by rewrite length_map).
  rewrite <- (app_nil_r (writeUvarint _ ++ _)).
  eapply pframes_bind_any; [apply pframes_read_count; [exact Hrs|]|apply pframes_ret].
  unfold len in *. rewrite length_map. lia.
Qed.

Lemma value_frames seed v a : value_rep v a -> small_value a -> value_framed seed v a.
Proof.
  intros Hv Hs. destruct v as [|s|l|h|s|z], a as [s'|es|m|X|m]; try done; simpl in Hv, Hs.
  - destruct Hv as [-> ?]. by apply string_framed.
  - destruct Hv. by apply list_framed.
  - destruct Hv. by apply hash_framed.
  - destruct Hv. by apply set_framed.
  - destruct Hv. by apply zset_framed.
Qed.

(** ** Lemmas: records and commands *)

(** Two records of the same key that hold values of the same meaning. *)
Definition record_rep (rec : Record_) (db : Z) (key : bytes) (at_ : Z) (a : avalue) : Prop :=
  rec_DB rec = db /\ rec_Key rec = key /\ rec_ExpireAt rec = at_ /\ value_rep (rec_Value rec) a.

(** What is stored of a record that the format can hold. *)
Definition record_ok (db : Z) (key : bytes) (at_ : Z) (a : avalue) : Prop :=
  is_int64 db /\ go_len key /\ is_int64 at_ /\ small_value a.

Lemma wrapu64_range z : 0 <= wrapu64 z < 2 ^ 64.
Proof. unfold wrapu64. apply Z.mod_pos_bound. lia. Qed.

Lemma wrap64_wrapu64 z : is_int64 z -> wrap64 (wrapu64 z) = z.
Proof.
  intros Hz. unfold wrap64, wrapu64. rewrite Zplus_mod_idemp_l. fold (wrap64 z). by apply wrap64_id.
Qed.

Lemma record_frames seed rec db key at_ a :
  record_rep rec db key at_ a -> record_ok db key at_ a ->
  exists b, writeRecord seed rec = Ret (inl b) /\ b <> [] /\
    forall limits coins, exists rec', pframes eof_clean (readRecord limits coins) b rec' /\
      record_rep rec' db key at_ a.
Proof.
  intros (<- & <- & <- & Hv) (Hdb & Hkey & Hat & Hs).
  destruct (value_frames seed _ a Hv Hs) as (b & Eb & Hb).
  unfold writeRecord. rewrite Eb. orun. eexists. split; [done|]. split.
  { intros [Hn _]%app_eq_nil. by apply writeUvarint_nonempty in Hn. }
  intros limits coins. destruct (Hb limits coins) as (v' & Hf & Hv').
  exists (mkRecord (rec_DB rec) (rec_Key rec) (rec_ExpireAt rec) v'). split; [|done].
  unfold readRecord. eapply pframes_bind_record;
    [apply pframes_ReadUvarint, wrapu64_range|apply writeUvarint_nonempty|].
  eapply pframes_bind_torn; [by apply pframes_torn, pframes_readBytes|].
  eapply pframes_bind_torn; [apply pframes_torn, pframes_any, pframes_lift, frames_ReadFull;
    unfold PutUint64; by rewrite le_bytes_length|].
  rewrite <- (app_nil_r b). eapply pframes_bind_torn; [by apply pframes_torn|].
  rewrite <- (app_nil_r (PutUint64 _)). rewrite Uint64_PutUint64 by apply wrapu64_range.
  rewrite !wrap64_wrapu64 by done. apply pframes_ret.
Qed.

(** A command the log can hold. *)
Definition command_ok (db : Z) (args : list bytes) : Prop :=
  is_int64 db /\ Forall go_len args /\ len args * 24 <= 2 ^ 48.

Lemma command_frames db args :
  command_ok db args -> pframes eof_clean readCommand (writeCommand db args) (db, args).
Proof.
  intros (Hdb & Hargs & Hn). unfold readCommand, writeCommand.
  eapply pframes_bind_record; [apply pframes_ReadUvarint, wrapu64_range|apply writeUvarint_nonempty|].
  eapply pframes_bind_torn.
  { apply pframes_torn, pframes_any, pframes_ReadUvarint. pose proof (len_nonneg args). lia. }
  rewrite <- (app_nil_l (concat _)).
  eapply pframes_bind_torn; [by apply pframes_do, make_slice_ok|].
  rewrite <- (app_nil_r (concat _)).
  eapply (pframes_bind_torn _ _ _ _ args).
  - destruct (rounds_elements (λ l b, Ret (l ++ [b])) (λ es l, l = es) args) with (i := 0) (done := @nil bytes)
      (st := @nil bytes) as (st' & Hr & Hst); [|done|done|].
    { intros dn st b _ ->. by eexists. }
    simpl in Hst. subst st'. apply pframes_torn. apply pframes_loop; [exact Hr|].
    unfold len. by rewrite length_map.
  - rewrite wrap64_wrapu64 by done. apply pframes_ret.
Qed.

(** ** Snapshots *)

(** [apply] on the records in order, up to the first error. *)
Fixpoint apply_all {St} (apply : Record_ -> St -> outcome (St * option io_error))
    (recs : list Record_) (st : St) : outcome (option io_error * St) :=
  match recs with
  | [] => Ret (None, st)
  | rec :: recs =>
      '(st, err) ← apply rec st;
      match err with Some e => Ret (Some e, st) | None => apply_all apply recs st end
  end.

(** The bytes [bs] hold the records [recs], the [i]-th and on of a snapshot. *)
Fixpoint holds (limits : Limits) (coins : nat -> Z -> list bool) (i : nat) (bs : list bytes)
    (recs : list Record_) : Prop :=
  match bs, recs with
  | [], [] => True
  | b :: bs, rec :: recs =>
      b <> [] /\ pframes eof_clean (readRecord limits (coins i)) b rec /\ holds limits coins (S i) bs recs
  | _, _ => False
  end.

(** Reading whole records and then nothing. *)
Lemma read_records_all {St} limits coins (apply : Record_ -> St -> outcome (St * option io_error)) bs :
  forall fuel i recs st, holds limits coins i bs recs -> (length bs < fuel)%nat ->
  read_records fuel limits coins i apply (concat bs) st = apply_all apply recs st.
Proof.
  induction bs as [|b bs IH]; intros fuel i [|rec recs] st H Hf; try done;
    (destruct fuel as [|fuel]; [simpl in Hf; lia|]).
  - done.
  - destruct H as (Hb & [Hr _] & H). cbn [read_records concat apply_all]. rewrite Hr. orun.
    destruct (apply rec st) as [[st' [e|]]| |]; [done| |done..]. simpl.
    apply IH; [done|simpl in Hf; lia].
Qed.

Lemma holds_length limits coins bs : forall i recs,
  holds limits coins i bs recs -> (length bs <= length (concat bs))%nat.
Proof.
  induction bs as [|b bs IH]; intros i [|rec recs] H; try done.
  destruct H as (Hb & _ & H). cbn [concat length]. rewrite length_app.
  pose proof (IH _ _ H). destruct b; [done|simpl; lia].
Qed.

(** A record's description: database, key, deadline in nanoseconds, value. *)
Definition described : Type := Z * bytes * Z * avalue.
Definition describes (d : described) (rec : Record_) : Prop :=
  let '(db, key, at_, a) := d in record_rep rec db key at_ a.
Definition describable (d : described) : Prop :=
  let '(db, key, at_, a) := d in record_ok db key at_ a.

Lemma write_records_holds seeds ds recs :
  Forall2 describes ds recs -> Forall describable ds -> forall i,
  exists bs, write_records seeds i recs = Ret (inl (concat bs)) /\
    forall limits coins j, exists recs', holds limits coins j bs recs' /\ Forall2 describes ds recs'.
Proof.
  induction 1 as [|[[[db key] at_] a] rec ds recs Hd _ IH]; intros Hok i.
  { exists []. split; [done|]. intros. exists []. split; [done|constructor]. }
  apply Forall_cons in Hok as [Hr Hok].
  destruct (record_frames (seeds i) rec db key at_ a Hd Hr) as (b & Eb & Hb & Hf).
  destruct (IH Hok (S i)) as (bs & Ebs & Hbs).
  exists (b :: bs). cbn [write_records]. rewrite Eb. orun. rewrite Ebs. orun. split; [done|].
  intros limits coins j. destruct (Hf limits (coins j)) as (rec' & Hf' & Hd').
  destruct (Hbs limits coins (S j)) as (recs' & Hh & Hds).
  exists (rec' :: recs'). split; [done|]. by constructor.
Qed.

(** Every value that represents one is written without an error or a panic. *)
Lemma writeValue_total seed v : value_wf v -> exists b, writeValue seed v = Ret (inl b).
Proof.
  intros [a Hv]. destruct v as [|s|l|h|s|z], a as [s'|es|m|X|m]; try done; cbn [writeValue value_rep] in *.
  - by eexists.
  - destruct Hv as [Hr _]. rewrite (List_Range_total l es) by done. by eexists.
  - destruct Hv as [Hr _]. destruct (Hash_Pairs_spec seed h m Hr) as (ps & -> & _). by eexists.
  - destruct Hv as [Hr _]. destruct (Set_Members_spec seed s X Hr) as (es & -> & _). by eexists.
  - destruct Hv as [Hr _]. destruct (ZSet_Range_total z m 0 (-1) Hr) as (ps & _ & ->). by eexists.
Qed.

Lemma WriteSnapshot_total seeds gen recs :
  Forall (λ rec, value_wf (rec_Value rec)) recs ->
  exists body, WriteSnapshot seeds gen recs = Ret (inl (snapshotMagic ++ writeUvarint (wrapu64 gen) ++ body)).
Proof.
  intros Hrecs. assert (forall i, exists bs, write_records seeds i recs = Ret (inl bs)) as Hall.
  { induction Hrecs as [|rec recs Hv _ IH]; intros i; [by eexists|]. cbn [write_records]. unfold writeRecord.
    destruct (writeValue_total (seeds i) _ Hv) as [b ->]. orun. destruct (IH (S i)) as [bs ->]. orun. by eexists. }
  destruct (Hall 0%nat) as [bs Hbs]. exists bs. unfold WriteSnapshot. rewrite Hbs. reflexivity.
Qed.

(** A snapshot is read back record by record. *)
Lemma snapshot_frames seeds gen ds recs :
  Forall2 describes ds recs -> Forall describable ds -> is_int64 gen ->
  exists b, WriteSnapshot seeds gen recs = Ret (inl b) /\
    forall limits coins, exists recs', Forall2 describes ds recs' /\
      forall St (apply : Record_ -> St -> outcome (St * option io_error)) st,
        ReadSnapshot limits coins apply b st
        = ('(err, st) ← apply_all apply recs' st; Ret (gen, err, st)).
Proof.
  intros Hds Hok Hgen. destruct (write_records_holds seeds ds recs Hds Hok 0) as (bs & Ebs & Hbs).
  unfold WriteSnapshot. rewrite Ebs. orun. eexists. split; [done|].
  intros limits coins. destruct (Hbs limits coins 0%nat) as (recs' & Hh & Hd).
  exists recs'. split; [done|]. intros St apply st. unfold ReadSnapshot.
  rewrite ReadFull_app by done. rewrite bool_decide_false by (intros H; by apply H).
  rewrite (proj1 (frames_ReadUvarint _ (wrapu64_range gen))).
  pose proof (holds_length _ _ _ _ _ Hh).
  rewrite (read_records_all _ _ _ bs _ _ recs') by (done || lia).
  by rewrite wrap64_wrapu64.
Qed.

(** C29. Values survive the disk: whatever a value's encoding in memory (packed
    or promoted, in whatever order its map iterates), the bytes written for it
    read back, from a stream that goes on after them, as a value of exactly the
    same contents, under any thresholds and level draws the reader uses; and a
    stream cut anywhere inside those bytes is reported as an end of file, never
    as a value. *)
Theorem value_roundtrip seed v a :
  value_rep v a -> small_value a ->
  exists b, writeValue seed v = Ret (inl b) /\
    forall limits coins,
      (exists v', value_rep v' a /\
        forall rest, readValue limits coins (b ++ rest) = Ret (inl v', rest)) /\
      (forall p q, b = p ++ q -> q <> [] ->
        exists e, readValue limits coins p = Ret (inr e, []) /\ (e = EOF \/ e = UnexpectedEOF)).
Proof.
  intros Hv Hs. destruct (value_frames seed v a Hv Hs) as (b & Eb & Hb). exists b. split; [done|].
  intros limits coins. destruct (Hb limits coins) as (v' & [H1 H2] & Hv'). split; [by exists v'|done].
Qed.

(** C28. Snapshots are read back whole: a snapshot written for a list of records
    hands to [apply] records of the same database, key, deadline and contents,
    in the same order, until [apply] fails, and returns the generation it was
    written with. *)
Theorem snapshot_roundtrip seeds gen ds recs :
  Forall2 describes ds recs -> Forall describable ds -> is_int64 gen ->
  exists b, WriteSnapshot seeds gen recs = Ret (inl b) /\
    forall limits coins, exists recs', Forall2 describes ds recs' /\
      forall St (apply : Record_ -> St -> outcome (St * option io_error)) st,
        ReadSnapshot limits coins apply b st
        = ('(err, st) ← apply_all apply recs' st; Ret (gen, err, st)).
Proof. apply snapshot_frames. Qed.

(** ** Witnesses *)

Definition codec_limits : Limits :=
  mkLimits (mkThresholds 2 8) (mkThresholds 2 8) (mkThresholds 2 8) (mkThresholds 2 8).

Lemma value_roundtrip_witness :
  exists b, writeValue [] (VString (lit "hi")) = Ret (inl b) /\
    forall limits coins,
      (exists v', value_rep v' (AString (lit "hi")) /\
        forall rest, readValue limits coins (b ++ rest) = Ret (inl v', rest)) /\
      (forall p q, b = p ++ q -> q <> [] ->
        exists e, readValue limits coins p = Ret (inr e, []) /\ (e = EOF \/ e = UnexpectedEOF)).
Proof. by apply (value_roundtrip [] (VString (lit "hi")) (AString (lit "hi"))). Defined.

Lemma snapshot_roundtrip_witness :
  exists b, WriteSnapshot (λ _, []) 3 [mkRecord 0 (lit "k") 0 (VString (lit "v"))] = Ret (inl b) /\
    forall limits coins, exists recs',
      Forall2 describes [(0, lit "k", 0, AString (lit "v"))] recs' /\
      forall St (apply : Record_ -> St -> outcome (St * option io_error)) st,
        ReadSnapshot limits coins apply b st
        = ('(err, st) ← apply_all apply recs' st; Ret (3, err, st)).
Proof.
  apply (snapshot_roundtrip (λ _, []) 3 [(0, lit "k", 0, AString (lit "v"))]
    [mkRecord 0 (lit "k") 0 (VString (lit "v"))]); by repeat constructor.
Defined.
