(* ===== verification/Store.v ===== *)
(** * internal/persistence: the append log and recovery (appendlog.go, recover.go)

    A data directory holds a snapshot and generation-numbered log segments. The
    store appends to the newest segment through a buffered writer; a compaction
    rotates to a new segment and installs a snapshot that covers the older ones.
    A file is its bytes and how many of them have been fsynced. File operations
    do not fail here; what a crash may leave behind is [disk_crash]. *)

From S2P Require Import Prelude GoBinary Pack Float64 Skiplist.
From S2P Require Import ValueList ValueHash ValueSet ValueZSet Value Codec.

(** ** Files *)

Record File := mkFile { f_data : bytes; f_synced : nat }.

(** The files of the data directory: [memcore.snapshot], its [.tmp], and
    [memcore.aof.<gen>]. *)
Record Disk := mkDisk {
  d_snapshot : option File;
  d_tmp : option File;
  d_segments : gmap Z File }.

Definition set_segment (d : Disk) (gen : Z) (f : File) : Disk :=
  mkDisk (d_snapshot d) (d_tmp d) (<[gen := f]> (d_segments d)).

Definition file_append (f : File) (b : bytes) : File := mkFile (f_data f ++ b) (f_synced f).
Definition file_sync (f : File) : File := mkFile (f_data f) (length (f_data f)).

(** ** The buffered writer

    [bufio.Writer] with its 4096-byte buffer: a write that fits is buffered; one
    that does not fills the buffer, flushes it, and buffers the rest or writes a
    long rest straight through. *)
Definition bufferSize : nat := 4096.

Definition bufio_Write (fb : File * bytes) (p : bytes) : File * bytes :=
  let '(f, buf) := fb in
  if bool_decide (length p <= bufferSize - length buf)%nat then (f, buf ++ p)
  else if bool_decide (buf = []) then (file_append f p, [])
  else
    let k := (bufferSize - length buf)%nat in
    let f := file_append f (buf ++ take k p) in
    let p := drop k p in
    if bool_decide (length p <= bufferSize)%nat then (f, p) else (file_append f p, []).

(** ** The store (appendlog.go) *)

Record Store := mkStore {
  st_fsync : bytes;
  st_limits : Limits;
  st_gen : Z;
  st_buf : bytes }.

Definition FSyncAlways : bytes := lit "always".
Definition FSyncEverySec : bytes := lit "everysec".
Definition FSyncNo : bytes := lit "no".

Definition set_gen_buf (s : Store) (gen : Z) (buf : bytes) : Store :=
  mkStore (st_fsync s) (st_limits s) gen buf.

Definition highestSegment (d : Disk) : Z := foldr Z.max 0 (map_to_list (d_segments d)).*1.

Definition snapshotBaseGen (d : Disk) : option Z :=
  f ← d_snapshot d;
  match ReadFull (length snapshotMagic) (f_data f) with
  | (inr _, _) => None
  | (inl magic, r) =>
      if bool_decide (magic <> snapshotMagic) then None
      else match ReadUvarint r with
           | (inl gen, _) => Some (wrap64 gen)
           | (inr _, _) => None
           end
  end.

(** Opened for appending: created empty when it is not there. *)
Definition openSegment (gen : Z) (d : Disk) (s : Store) : Disk * Store :=
  (match d_segments d !! gen with
   | Some _ => d
   | None => set_segment d gen (mkFile [] 0)
   end, set_gen_buf s gen []).

Definition Open (fsync : bytes) (limits : Limits) (d : Disk) : Disk * Store :=
  let gen := highestSegment d in
  let gen := match snapshotBaseGen d with
             | Some base => if gen <? base then base else gen
             | None => gen
             end in
  openSegment gen d (mkStore fsync limits 0 []).

Definition NextGen (s : Store) : Z := st_gen s + 1.

(** The open segment. *)
Definition active (d : Disk) (s : Store) : File :=
  default (mkFile [] 0) (d_segments d !! st_gen s).

Definition set_active (d : Disk) (s : Store) (f : File) : Disk := set_segment d (st_gen s) f.

Definition flushLocked (d : Disk) (s : Store) : Disk * Store :=
  (set_active d s (file_sync (file_append (active d s) (st_buf s))), set_gen_buf s (st_gen s) []).

(** The writes [writeCommand] makes, one after the other. *)
Definition command_writes (db : Z) (args : list bytes) : list bytes :=
  writeUvarint (wrapu64 db) :: writeUvarint (len args) ::
  concat (map (λ a, [writeUvarint (len a); a]) args).

Definition Append (db : Z) (args : list bytes) (d : Disk) (s : Store) : Disk * Store :=
  let '(f, buf) := foldl bufio_Write (active d s, st_buf s) (command_writes db args) in
  let d := set_active d s f in
  let s := set_gen_buf s (st_gen s) buf in
  if bool_decide (st_fsync s = FSyncAlways) then flushLocked d s else (d, s).

Definition Flush (d : Disk) (s : Store) : Disk * Store := flushLocked d s.

(** [Close] flushes; the closed file is not used again. *)
Definition Close (d : Disk) (s : Store) : Disk * Store := flushLocked d s.

(** The segment is flushed and closed, but not fsynced. *)
Definition Rotate (d : Disk) (s : Store) : Disk * Store :=
  let d := set_active d s (file_append (active d s) (st_buf s)) in
  openSegment (st_gen s + 1) d s.

(** The file operations of [InstallSnapshot], in order. *)
Inductive disk_op :=
  | TmpCreate
  | TmpWrite (snapshot : bytes)
  | TmpSync
  | TmpRename
  | SegRemove (gen : Z).

Definition disk_exec (d : Disk) (op : disk_op) : Disk :=
  match op with
  | TmpCreate => mkDisk (d_snapshot d) (Some (mkFile [] 0)) (d_segments d)
  | TmpWrite b => mkDisk (d_snapshot d) ((λ f, file_append f b) <$> d_tmp d) (d_segments d)
  | TmpSync => mkDisk (d_snapshot d) (file_sync <$> d_tmp d) (d_segments d)
  | TmpRename => match d_tmp d with
                 | Some f => mkDisk (Some f) None (d_segments d)
                 | None => d
                 end
  | SegRemove g => mkDisk (d_snapshot d) (d_tmp d) (delete g (d_segments d))
  end.

Definition install_ops (snapshot : bytes) (baseGen : Z) : list disk_op :=
  [TmpCreate; TmpWrite snapshot; TmpSync; TmpRename] ++ (SegRemove <$> seqZ 0 baseGen).

Definition InstallSnapshot (snapshot : bytes) (baseGen : Z) (d : Disk) : Disk :=
  foldl disk_exec d (install_ops snapshot baseGen).

(** ** Recovery (recover.go) *)

Section Recover.
Context {St : Type} (limits : Limits) (coins : nat -> Z -> list bool).
Context (restore : Record_ -> St -> outcome (St * option io_error)).
Context (replay : Z -> list bytes -> St -> outcome (St * option io_error)).

(** The base generation, how many records were loaded, the error. *)
Definition loadSnapshot (d : Disk) (st : St) : outcome (Z * Z * option io_error * St) :=
  match d_snapshot d with
  | None => Ret (0, 0, None, st)
  | Some f =>
      '(baseGen, err, (loaded, st)) ←
        ReadSnapshot limits coins (λ rec '(loaded, st),
          '(st, err) ← restore rec st; Ret ((loaded + 1, st), err)) (f_data f) (0, st);
      Ret (baseGen, loaded, err, st)
  end.

(** The loop of [replaySegment]; a command takes at least a byte. *)
Fixpoint replay_commands (fuel : nat) (r : bytes) (replayed : Z) (st : St) :
    outcome (Z * option io_error * St) :=
  match fuel with
  | O => Diverge
  | S fuel =>
      '(x, r) ← readCommand r;
      match x with
      | inr e => Ret (replayed, if bool_decide (e = EOF \/ e = UnexpectedEOF) then None else Some e, st)
      | inl (db, args) =>
          '(st, err) ← replay db args st;
          match err with
          | Some e => Ret (replayed, Some e, st)
          | None => replay_commands fuel r (replayed + 1) st
          end
      end
  end.

Definition replaySegment (d : Disk) (gen : Z) (st : St) : outcome (Z * option io_error * St) :=
  match d_segments d !! gen with
  | None => Ret (0, None, st)
  | Some f => replay_commands (S (length (f_data f))) (f_data f) 0 st
  end.

Fixpoint replay_gens (gens : list Z) (d : Disk) (total : Z) (st : St) :
    outcome (Z * option io_error * St) :=
  match gens with
  | [] => Ret (total, None, st)
  | gen :: gens =>
      '(n, err, st) ← replaySegment d gen st;
      match err with
      | Some e => Ret (total + n, Some e, st)
      | None => replay_gens gens d (total + n) st
      end
  end.

(** [for gen := baseGen; gen <= highest; gen++]. *)
Definition replaySegments (d : Disk) (baseGen : Z) (st : St) : outcome (Z * option io_error * St) :=
  replay_gens (seqZ baseGen (highestSegment d - baseGen + 1)) d 0 st.

Definition Recover (d : Disk) (st : St) : outcome (Z * Z * option io_error * St) :=
  '(baseGen, loaded, err, st) ← loadSnapshot d st;
  match err with
  | Some e => Ret (loaded, 0, Some e, st)
  | None =>
      '(replayed, err, st) ← replaySegments d baseGen st;
      Ret (loaded, replayed, err, st)
  end.
End Recover.

(** ** Crashes

    The process loses its buffer. A power loss also loses of every file any part
    of what was written since its last fsync. *)
Definition file_crash (f f' : File) : Prop :=
  exists n, (f_synced f <= n <= length (f_data f))%nat /\ f' = mkFile (take n (f_data f)) n.

Definition disk_crash (d d' : Disk) : Prop :=
  option_Forall2 file_crash (d_snapshot d) (d_snapshot d') /\
  option_Forall2 file_crash (d_tmp d) (d_tmp d') /\
  forall g, option_Forall2 file_crash (d_segments d !! g) (d_segments d' !! g).

(** ** The store over time

    The calls the server makes on the store, with a record of the commands the
    directory stands for: a step appends, flushes, captures a snapshot (rotating
    the log under the same locks), performs one file operation of a snapshot's
    installation, gives an installation up, or fails and restarts. After a restart
    the record holds what the directory had kept.

    A restart may follow the death of the process or a loss of power, with data in
    the buffer, with bytes not yet fsynced, and in the middle of an append. One
    case is left out, and [reopened_torn_log_corrupts] shows what happens in it:
    [Open] appends to the last segment as it is, so when a failure has left the
    start of a record there, the record that follows is not read as it was
    written. *)

Definition logged : Type := Z * list bytes.
Definition encode (c : logged) : bytes := writeCommand c.1 c.2.
Definition encode_all (cs : list logged) : bytes := concat (map encode cs).
Definition logged_ok (c : logged) : Prop := command_ok c.1 c.2.

(** A snapshot file of generation [gen]; its records are [body]. *)
Definition snapshot_bytes (gen : Z) (body : bytes) : bytes :=
  snapshotMagic ++ writeUvarint (wrapu64 gen) ++ body.

(** A snapshot: its bytes, its base generation, the commands it covers. *)
Definition captured : Type := bytes * Z * list logged.

Record Sys := mkSys {
  s_disk : Disk;
  s_store : Store;
  s_hist : list logged;
  s_installed : option captured;
  s_pending : option (list disk_op * captured) }.

(** What the installed snapshot covers, and from which generation it does not. *)
Definition covered (inst : option captured) : list logged :=
  match inst with Some (_, _, h) => h | None => [] end.
Definition base_gen (inst : option captured) : Z :=
  match inst with Some (_, b, _) => b | None => 0 end.

(** The commands of [n] generations from [base] on. *)
Definition upto (cmds : Z -> list logged) (base n : Z) : list logged := concat (cmds <$> seqZ base n).

(** The file operations of an append that was cut short: its bytes have reached
    the open segment, the fsync has not happened. *)
Definition mid_append (c : logged) (s : Sys) : Disk :=
  set_active (s_disk s) (s_store s)
    (file_append (active (s_disk s) (s_store s)) (st_buf (s_store s) ++ encode c)).

(** The directories a failure can leave: the process dies between two calls, the
    power fails there, or it fails in the middle of an append. *)
Inductive fails (s : Sys) : Disk -> Prop :=
  | fail_killed : fails s (s_disk s)
  | fail_power d : disk_crash (s_disk s) d -> fails s d
  | fail_mid_append c d : logged_ok c -> disk_crash (mid_append c s) d -> fails s d.

(** The segments from [base] to [gen] hold the commands [cmds] and no part of a
    record behind them. *)
Definition whole_log (d : Disk) (base gen : Z) (cmds : Z -> list logged) : Prop :=
  (forall g, base <= g <= gen -> exists f, d_segments d !! g = Some f /\ f_data f = encode_all (cmds g)) /\
  Forall logged_ok (upto cmds base (gen - base + 1)).

(** What the directory holds of the history when its log is [cmds]. *)
Definition kept_hist (s : Sys) (cmds : Z -> list logged) : list logged :=
  let base := base_gen (s_installed s) in
  covered (s_installed s) ++ upto cmds base (st_gen (s_store s) - base + 1).

Section System.
Context (fsync : bytes) (limits : Limits).

Inductive sys_step : Sys -> Sys -> Prop :=
  | sys_append d st h inst pend db args d' st' :
      command_ok db args -> Append db args d st = (d', st') ->
      sys_step (mkSys d st h inst pend) (mkSys d' st' (h ++ [(db, args)]) inst pend)
  | sys_flush d st h inst pend d' st' :
      Flush d st = (d', st') ->
      sys_step (mkSys d st h inst pend) (mkSys d' st' h inst pend)
  | sys_capture d st h inst body d' st' :
      NextGen st <= MaxInt64 -> Rotate d st = (d', st') ->
      let snap := snapshot_bytes (NextGen st) body in
      sys_step (mkSys d st h inst None)
        (mkSys d' st' h inst (Some (install_ops snap (NextGen st), (snap, NextGen st, h))))
  | sys_install d st h inst op ops x :
      sys_step (mkSys d st h inst (Some (op :: ops, x)))
        (mkSys (disk_exec d op) st h (match op with TmpRename => Some x | _ => inst end) (Some (ops, x)))
  | sys_end d st h inst pend :
      sys_step (mkSys d st h inst (Some pend)) (mkSys d st h inst None)
  | sys_restart s d cmds d' st' :
      fails s d -> whole_log d (base_gen (s_installed s)) (st_gen (s_store s)) cmds ->
      Open fsync limits d = (d', st') ->
      sys_step s (mkSys d' st' (kept_hist s cmds) (s_installed s) None).

(** The first start, on an empty directory. *)
Definition sys_init : Sys :=
  let '(d, st) := Open fsync limits (mkDisk None None ∅) in mkSys d st [] None None.

Inductive sys_reachable : Sys -> Prop :=
  | sys_start : sys_reachable sys_init
  | sys_next s s' : sys_reachable s -> sys_step s s' -> sys_reachable s'.
End System.

#[local] Arguments writeUvarint : simpl never.
#[local] Arguments encode : simpl never.

(** ** Lemmas: the writer *)

Lemma bufio_Write_spec f buf p f' buf' :
  bufio_Write (f, buf) p = (f', buf') ->
  f_data f' ++ buf' = f_data f ++ buf ++ p /\ f_synced f' = f_synced f.
Proof.
  unfold bufio_Write. repeat case_bool_decide; intros [= <- <-]; simpl; subst.
  - done.
  - by rewrite app_nil_r.
  - split; [|done]. rewrite <- !app_assoc. by rewrite take_drop.
  - split; [|done]. rewrite app_nil_r, <- !app_assoc. by rewrite take_drop.
Qed.

Lemma bufio_writes_spec ps : forall f buf f' buf',
  foldl bufio_Write (f, buf) ps = (f', buf') ->
  f_data f' ++ buf' = f_data f ++ buf ++ concat ps /\ f_synced f' = f_synced f.
Proof.
  induction ps as [|p ps IH]; intros f buf f' buf' H; cbn [foldl] in H.
  { injection H as <- <-. simpl. by rewrite app_nil_r. }
  destruct (bufio_Write (f, buf) p) as [f1 buf1] eqn:E1.
  apply bufio_Write_spec in E1 as [E1 Hs1]. apply IH in H as [-> ->].
  rewrite (app_assoc (f_data f1)), E1. simpl. by rewrite <- !app_assoc.
Qed.

Lemma command_writes_concat db args : concat (command_writes db args) = writeCommand db args.
Proof.
  unfold command_writes, writeCommand. cbn [concat]. do 2 f_equal.
  induction args as [|a args IH]; [done|]. cbn [map concat app]. rewrite IH.
  unfold writeBytes. by rewrite <- app_assoc.
Qed.

(** ** Lemmas: histories by generation *)

Section Gens.
Context (cmds : Z -> list logged).

Lemma upto_split base n m :
  0 <= n <= m -> upto cmds base m = upto cmds base n ++ upto cmds (base + n) (m - n).
Proof.
  intros Hn. unfold upto. replace m with (n + (m - n)) at 1 by lia.
  rewrite seqZ_app by lia. by rewrite fmap_app, concat_app.
Qed.

Lemma upto_1 base : upto cmds base 1 = cmds base.
Proof. unfold upto. rewrite seqZ_cons by lia. simpl. by rewrite app_nil_r. Qed.

Lemma upto_snoc base n : 0 <= n -> upto cmds base (n + 1) = upto cmds base n ++ cmds (base + n).
Proof.
  intros Hn. rewrite (upto_split base n) by lia. replace (n + 1 - n) with 1 by lia. by rewrite upto_1.
Qed.
End Gens.

Lemma upto_ext cmds cmds' base n :
  (forall g, base <= g < base + n -> cmds g = cmds' g) -> upto cmds base n = upto cmds' base n.
Proof.
  intros H. unfold upto. f_equal. apply list_fmap_ext. intros i g Hg%list_elem_of_lookup_2.
  apply elem_of_seqZ in Hg. apply H. lia.
Qed.

(** ** The invariant *)

Section Invariant.
Context (fsync : bytes) (limits : Limits).

(** The segments from [base] on hold the history's commands [cmds], the last one
    together with the buffer. *)
Definition segments_hold (d : Disk) (st : Store) (base : Z) (cmds : Z -> list logged) : Prop :=
  0 <= base <= st_gen st /\ st_gen st <= MaxInt64 /\
  (forall g, base <= g < st_gen st ->
    exists f, d_segments d !! g = Some f /\ f_data f = encode_all (cmds g)) /\
  (exists f, d_segments d !! st_gen st = Some f /\ f_data f ++ st_buf st = encode_all (cmds (st_gen st))) /\
  (forall g, is_Some (d_segments d !! g) -> 0 <= g <= st_gen st).

Definition snapshot_held (d : Disk) (inst : option captured) : Prop :=
  match inst with
  | None => d_snapshot d = None
  | Some (b, g, _) => (exists body, b = snapshot_bytes g body) /\ d_snapshot d = Some (mkFile b (length b))
  end.

(** An installation under way: not yet renamed, with its temporary file in the
    making, or renamed and removing old segments. *)
Definition pending_ok (d : Disk) (st : Store) (inst : option captured) (cmds : Z -> list logged)
    (pend : option (list disk_op * captured)) : Prop :=
  match pend with
  | None => True
  | Some (ops, (snap, b, h)) =>
      exists done body, install_ops snap b = done ++ ops /\ snap = snapshot_bytes b body /\
      if bool_decide (length done < 4)%nat
      then base_gen inst < b <= st_gen st /\
           h = covered inst ++ upto cmds (base_gen inst) (b - base_gen inst) /\
           match length done with
           | 1%nat => d_tmp d = Some (mkFile [] 0)
           | 2%nat => d_tmp d = Some (mkFile snap 0)
           | 3%nat => d_tmp d = Some (mkFile snap (length snap))
           | _ => True
           end
      else inst = Some (snap, b, h)
  end.

(** Under the [always] policy nothing is buffered or waiting for an fsync. *)
Definition durable (d : Disk) (st : Store) (base : Z) : Prop :=
  fsync = FSyncAlways ->
  st_buf st = [] /\ forall g f, base <= g -> d_segments d !! g = Some f -> f_synced f = length (f_data f).

Definition sys_inv (s : Sys) : Prop :=
  exists cmds,
    segments_hold (s_disk s) (s_store s) (base_gen (s_installed s)) cmds /\
    s_hist s = covered (s_installed s) ++
      upto cmds (base_gen (s_installed s)) (st_gen (s_store s) - base_gen (s_installed s) + 1) /\
    Forall logged_ok (s_hist s) /\
    snapshot_held (s_disk s) (s_installed s) /\
    pending_ok (s_disk s) (s_store s) (s_installed s) cmds (s_pending s) /\
    durable (s_disk s) (s_store s) (base_gen (s_installed s)) /\
    st_fsync (s_store s) = fsync.

Lemma highestSegment_spec d cur :
  0 <= cur -> is_Some (d_segments d !! cur) -> (forall g, is_Some (d_segments d !! g) -> 0 <= g <= cur) ->
  highestSegment d = cur.
Proof.
  intros Hc Hin Hle. unfold highestSegment.
  assert (forall g, g ∈ (map_to_list (d_segments d)).*1 <-> is_Some (d_segments d !! g)) as Hdom.
  { intros g. split.
    - intros ([g' f] & -> & H%elem_of_map_to_list)%list_elem_of_fmap. eauto.
    - intros [f Hf]. apply list_elem_of_fmap. exists (g, f). split; [done|]. by apply elem_of_map_to_list. }
  revert Hin Hle. rewrite <- Hdom. setoid_rewrite <- Hdom. clear Hdom.
  generalize (map_to_list (d_segments d)).*1 as l. intros l Hin Hle.
  assert (forall l, Forall (λ g, 0 <= g <= cur) l -> 0 <= foldr Z.max 0 l <= cur) as Hb.
  { induction 1; simpl; lia. }
  assert (Forall (λ g, 0 <= g <= cur) l) as HF by by apply Forall_forall.
  clear Hle. induction l as [|x l IH]; [by apply not_elem_of_nil in Hin|].
  apply Forall_cons in HF as [Hx HF]. pose proof (Hb l HF). simpl.
  apply elem_of_cons in Hin as [->|Hin]; [lia|]. rewrite (IH Hin HF). lia.
Qed.

Lemma Open_empty : Open fsync limits (mkDisk None None ∅) =
  (mkDisk None None {[0 := mkFile [] 0]}, mkStore fsync limits 0 []).
Proof. done. Qed.

Lemma sys_init_inv : sys_inv (sys_init fsync limits).
Proof.
  unfold sys_init. rewrite Open_empty. exists (λ _, []). split_and!.
  - unfold segments_hold. cbn. split_and!; [lia|lia|unfold MaxInt64; lia| | |].
    + intros g Hg. lia.
    + eexists. by rewrite lookup_singleton_eq.
    + intros g [f [<- _]%lookup_singleton_Some]. lia.
  - done.
  - constructor.
  - done.
  - done.
  - intros _. split; [done|]. intros g f _ Hf. cbn in Hf.
    by apply lookup_singleton_Some in Hf as [<- <-].
  - done.
Qed.

(** The commands [cs] in place of those of generation [g]. *)
Definition with_gen (cmds : Z -> list logged) (g : Z) (cs : list logged) : Z -> list logged :=
  λ g', if decide (g' = g) then cs else cmds g'.

Lemma with_gen_eq cmds g cs : with_gen cmds g cs g = cs.
Proof. unfold with_gen. by rewrite decide_True. Qed.

Lemma with_gen_ne cmds g cs g' : g' <> g -> with_gen cmds g cs g' = cmds g'.
Proof. intros. unfold with_gen. by rewrite decide_False. Qed.

(** New contents for the open segment and the buffer. *)
Lemma set_active_holds d st base cmds f' buf' cs :
  segments_hold d st base cmds -> f_data f' ++ buf' = encode_all cs ->
  segments_hold (set_active d st f') (set_gen_buf st (st_gen st) buf') base
    (with_gen cmds (st_gen st) cs).
Proof.
  intros (Hb & Hm & Hold & (f & Hf & _) & Hdom) Hd.
  unfold segments_hold, set_active, set_segment. cbn. split_and!; [lia|lia|lia| | |].
  - intros g Hg. rewrite lookup_insert_ne, with_gen_ne by lia. by apply Hold.
  - exists f'. by rewrite lookup_insert_eq, with_gen_eq.
  - intros g. destruct (decide (g = st_gen st)) as [->|Hne]; [lia|].
    rewrite lookup_insert_ne by done. apply Hdom.
Qed.

Lemma pending_ok_later d d' st st' inst cmds cmds' pend :
  d_tmp d' = d_tmp d -> st_gen st <= st_gen st' ->
  (forall g, g < st_gen st -> cmds' g = cmds g) ->
  pending_ok d st inst cmds pend -> pending_ok d' st' inst cmds' pend.
Proof.
  intros Ht Hg Hc. destruct pend as [[ops [[snap b] h]]|]; [|done].
  intros (done & body & Ho & Hs & H). exists done, body. split_and!; [done..|].
  destruct (bool_decide _); [|done]. destruct H as (Hb & -> & Htmp). rewrite Ht.
  split; [lia|]. split; [|done]. f_equal. apply upto_ext. intros g ?. symmetry. apply Hc. lia.
Qed.

Lemma active_lookup d st f : d_segments d !! st_gen st = Some f -> active d st = f.
Proof. unfold active. by intros ->. Qed.

(** The history grows by what the open segment gains. *)
Lemma hist_with_gen cmds base cur cs :
  base <= cur -> upto (with_gen cmds cur (cmds cur ++ cs)) base (cur - base + 1)
  = upto cmds base (cur - base + 1) ++ cs.
Proof.
  intros Hb. rewrite !upto_snoc by lia. replace (base + (cur - base)) with cur by lia.
  rewrite with_gen_eq, app_assoc. f_equal. f_equal. apply upto_ext. intros g ?.
  apply with_gen_ne. lia.
Qed.

Lemma encode_all_app cs cs' : encode_all (cs ++ cs') = encode_all cs ++ encode_all cs'.
Proof. unfold encode_all. by rewrite map_app, concat_app. Qed.

(** A step that writes to the open segment, adding the commands [cs]. *)
Lemma write_inv d st h inst pend cs f' buf' :
  sys_inv (mkSys d st h inst pend) -> Forall logged_ok cs ->
  f_data f' ++ buf' = f_data (active d st) ++ st_buf st ++ encode_all cs ->
  (fsync = FSyncAlways -> buf' = [] /\ f_synced f' = length (f_data f')) ->
  sys_inv (mkSys (set_active d st f') (set_gen_buf st (st_gen st) buf') (h ++ cs) inst pend).
Proof.
  intros (cmds & Hseg & Hh & Hok & Hsnap & Hp & Hdur & Hfs) Hcs Hd Hal. cbn in *.
  pose proof Hseg as (Hb & _ & _ & (f & Hf & Hfd) & _). rewrite (active_lookup d st f Hf) in Hd.
  exists (with_gen cmds (st_gen st) (cmds (st_gen st) ++ cs)). cbn. split_and!.
  - apply set_active_holds; [done|]. by rewrite encode_all_app, <- Hfd, Hd, <- app_assoc.
  - rewrite hist_with_gen by lia. by rewrite Hh, app_assoc.
  - by apply Forall_app.
  - by destruct inst as [[[b g] ?]|].
  - eapply pending_ok_later; [..|exact Hp]; [done|done|]. intros g Hg. apply with_gen_ne. lia.
  - intros Ha. destruct (Hal Ha) as [-> Hs]. destruct (Hdur Ha) as [_ Hsy]. split; [done|].
    intros g f0 Hg. cbn. destruct (decide (g = st_gen st)) as [->|Hne].
    + rewrite lookup_insert_eq. by intros [= <-].
    + rewrite lookup_insert_ne by done. by apply Hsy.
  - done.
Qed.

Lemma flushLocked_set d st f buf :
  flushLocked (set_active d st f) (set_gen_buf st (st_gen st) buf)
  = (set_active d st (file_sync (file_append f buf)), set_gen_buf st (st_gen st) []).
Proof.
  unfold flushLocked, active, set_active, set_segment. cbn. by rewrite lookup_insert_eq, insert_insert_eq.
Qed.

Lemma append_inv d st h inst pend db args d' st' :
  command_ok db args -> Append db args d st = (d', st') ->
  sys_inv (mkSys d st h inst pend) -> sys_inv (mkSys d' st' (h ++ [(db, args)]) inst pend).
Proof.
  intros Hc Ha Hinv. unfold Append in Ha.
  destruct (foldl bufio_Write (active d st, st_buf st) (command_writes db args)) as [f1 buf1] eqn:Ew.
  apply bufio_writes_spec in Ew as [Ew _]. rewrite command_writes_concat in Ew.
  assert (encode_all [(db, args)] = writeCommand db args) as Henc by apply app_nil_r.
  assert (Forall logged_ok [(db, args)]) as Hok by by apply Forall_singleton.
  assert (st_fsync st = fsync) as Hfs by by destruct Hinv as (? & _ & _ & _ & _ & _ & _ & ?).
  rewrite <- Henc in Ew. cbn [st_fsync set_gen_buf] in Ha. case_bool_decide as Hal.
  - rewrite flushLocked_set in Ha. injection Ha as <- <-.
    apply write_inv; [done|done| |done]. cbn. by rewrite app_nil_r.
  - injection Ha as <- <-. apply write_inv; [done|done|done|]. intros ->. by destruct Hal.
Qed.

Lemma flush_inv d st h inst pend d' st' :
  Flush d st = (d', st') ->
  sys_inv (mkSys d st h inst pend) -> sys_inv (mkSys d' st' h inst pend).
Proof.
  intros Hf Hinv. injection Hf as <- <-. rewrite <- (app_nil_r h).
  apply write_inv; [done|constructor| |done]. cbn. by rewrite !app_nil_r.
Qed.

Lemma capture_inv d st h inst body d' st' :
  NextGen st <= MaxInt64 -> Rotate d st = (d', st') ->
  sys_inv (mkSys d st h inst None) ->
  let snap := snapshot_bytes (NextGen st) body in
  sys_inv (mkSys d' st' h inst (Some (install_ops snap (NextGen st), (snap, NextGen st, h)))).
Proof.
  intros Hg Hr (cmds & Hseg & Hh & Hok & Hsnap & _ & Hdur & Hfs) snap. cbn in *.
  pose proof Hseg as (Hb & Hm & Hold & (f & Hf & Hfd) & Hdom). unfold NextGen in *.
  unfold Rotate, openSegment in Hr. rewrite (active_lookup d st f Hf) in Hr.
  assert (d_segments d !! (st_gen st + 1) = None) as Hnew.
  { destruct (d_segments d !! (st_gen st + 1)) as [f0|] eqn:E0; [|done].
    assert (0 <= st_gen st + 1 <= st_gen st) by (apply Hdom; eauto). lia. }
  cbn in Hr. rewrite lookup_insert_ne, Hnew in Hr by lia. injection Hr as <- <-.
  set (fl := file_append f (st_buf st)).
  exists (with_gen cmds (st_gen st + 1) []). cbn. split_and!.
  - unfold segments_hold. cbn. split_and!; [lia|lia|lia| | |].
    + intros g Hg'. rewrite lookup_insert_ne, with_gen_ne by lia.
      destruct (decide (g = st_gen st)) as [->|Hne].
      * exists fl. by rewrite lookup_insert_eq.
      * rewrite lookup_insert_ne by done. apply Hold. lia.
    + exists (mkFile [] 0). by rewrite lookup_insert_eq, with_gen_eq.
    + intros g. destruct (decide (g = st_gen st + 1)) as [->|]; [lia|].
      rewrite lookup_insert_ne by done. destruct (decide (g = st_gen st)) as [->|]; [lia|].
      rewrite lookup_insert_ne by done. intros Hin%Hdom. lia.
  - rewrite Hh. f_equal.
    replace (st_gen st + 1 - base_gen inst + 1) with (st_gen st - base_gen inst + 1 + 1) by lia.
    rewrite (upto_snoc (with_gen _ _ _)) by lia.
    replace (base_gen inst + (st_gen st - base_gen inst + 1)) with (st_gen st + 1) by lia.
    rewrite with_gen_eq, app_nil_r. apply upto_ext. intros g ?. symmetry. apply with_gen_ne. lia.
  - done.
  - by destruct inst as [[[b g] ?]|].
  - exists [], body. split_and!; [done..|]. split; [lia|]. split; [|done].
    rewrite Hh. f_equal. replace (st_gen st + 1 - base_gen inst) with (st_gen st - base_gen inst + 1) by lia.
    apply upto_ext. intros g ?. symmetry. apply with_gen_ne. lia.
  - intros Ha. destruct (Hdur Ha) as [Hbuf Hsy]. split; [done|]. intros g f0 Hg'. cbn.
    destruct (decide (g = st_gen st + 1)) as [->|]; [rewrite lookup_insert_eq; by intros [= <-]|].
    rewrite lookup_insert_ne by done. destruct (decide (g = st_gen st)) as [->|].
    + rewrite lookup_insert_eq. intros [= <-]. unfold fl. cbn. rewrite Hbuf, app_nil_r.
      by apply (Hsy (st_gen st)).
    + rewrite lookup_insert_ne by done. by apply Hsy.
  - done.
Qed.

Lemma end_inv d st h inst pend pend' :
  sys_inv (mkSys d st h inst pend) -> pend' = None -> sys_inv (mkSys d st h inst pend').
Proof. intros (cmds & ? & ? & ? & ? & _ & ? & ?) ->. by exists cmds. Qed.

(** The invariant but for the installation under way. *)
Definition core (d : Disk) (st : Store) (h : list logged) (inst : option captured)
    (cmds : Z -> list logged) : Prop :=
  segments_hold d st (base_gen inst) cmds /\
  h = covered inst ++ upto cmds (base_gen inst) (st_gen st - base_gen inst + 1) /\
  Forall logged_ok h /\ snapshot_held d inst /\ durable d st (base_gen inst) /\ st_fsync st = fsync.

Lemma sys_inv_core d st h inst pend :
  sys_inv (mkSys d st h inst pend) <->
  exists cmds, core d st h inst cmds /\ pending_ok d st inst cmds pend.
Proof.
  split.
  - intros (cmds & ? & ? & ? & ? & ? & ? & ?). by exists cmds.
  - intros (cmds & (? & ? & ? & ? & ? & ?) & ?). by exists cmds.
Qed.

(** A file operation before the rename touches the temporary file only. *)
Lemma core_tmp d d' st h inst cmds :
  core d st h inst cmds -> d_snapshot d' = d_snapshot d -> d_segments d' = d_segments d ->
  core d' st h inst cmds.
Proof.
  intros (Hseg & Hh & Hok & Hsnap & Hdur & Hfs) Hs Hg.
  unfold core, segments_hold, snapshot_held, durable in *. by rewrite Hs, Hg.
Qed.

(** The rename makes the captured snapshot the installed one. *)
Lemma core_rename d st h inst cmds snap b h0 body :
  core d st h inst cmds -> snap = snapshot_bytes b body ->
  base_gen inst < b <= st_gen st -> d_tmp d = Some (mkFile snap (length snap)) ->
  h0 = covered inst ++ upto cmds (base_gen inst) (b - base_gen inst) ->
  core (disk_exec d TmpRename) st h (Some (snap, b, h0)) cmds.
Proof.
  intros (Hseg & Hh & Hok & Hsnap & Hdur & Hfs) Hbody Hb Ht H0.
  unfold core, disk_exec. rewrite Ht. cbn. split_and!; [|..|done].
  - destruct Hseg as (Hbc & Hm & Hold & Hcur & Hdom). split_and!; cbn; [lia|lia|lia| |done|done].
    intros g Hg. apply Hold. lia.
  - rewrite Hh, H0, <- app_assoc. f_equal.
    rewrite (upto_split cmds (base_gen inst) (b - base_gen inst)) by lia. do 2 f_equal; lia.
  - done.
  - by exists body.
  - done.
  - intros Ha. destruct (Hdur Ha) as [? Hsy]. split; [done|]. intros g f Hg. apply Hsy. lia.
Qed.

(** A covered segment may go. *)
Lemma core_remove d st h inst cmds g :
  core d st h inst cmds -> g < base_gen inst -> core (disk_exec d (SegRemove g)) st h inst cmds.
Proof.
  intros (Hseg & Hh & Hok & Hsnap & Hdur & Hfs) Hg.
  destruct Hseg as (Hbc & Hm & Hold & Hcur & Hdom). unfold core. cbn. split_and!; try done.
  - unfold segments_hold. cbn. split_and!; [lia|lia|lia| | |].
    + intros g' Hg'. rewrite lookup_delete_ne by lia. by apply Hold.
    + rewrite lookup_delete_ne by lia. done.
    + intros g' [f [_ Hf]%lookup_delete_Some]. apply Hdom. by exists f.
  - intros Ha. destruct (Hdur Ha) as [? Hsy]. split; [done|]. intros g' f Hg' Hf. cbn in Hf.
    apply lookup_delete_Some in Hf as [_ Hf]. by apply (Hsy g').
Qed.

Lemma install_inv d st h inst op ops x :
  sys_inv (mkSys d st h inst (Some (op :: ops, x))) ->
  sys_inv (mkSys (disk_exec d op) st h (match op with TmpRename => Some x | _ => inst end) (Some (ops, x))).
Proof.
  rewrite !sys_inv_core. intros (cmds & Hcore & Hp). exists cmds. destruct x as [[snap b] h0].
  destruct Hp as (dn & body & Ho & Hs & H).
  destruct dn as [|o1 [|o2 [|o3 [|o4 dn]]]]; cbn in Ho; injection Ho as ?; subst; cbn in H.
  - destruct H as (Hb & H0 & _). split; [by eapply core_tmp|]. by exists [TmpCreate], body.
  - destruct H as (Hb & H0 & Ht). split; [by eapply core_tmp|].
    eexists [_; _], body. split_and!; [done..|]. cbn. by rewrite Ht.
  - destruct H as (Hb & H0 & Ht). split; [by eapply core_tmp|].
    eexists [_; _; _], body. split_and!; [done..|]. cbn. by rewrite Ht.
  - destruct H as (Hb & H0 & Ht). split; [by eapply core_rename|].
    eexists [_; _; _; _], body. by split_and!.
  - match goal with Hx : _ = dn ++ op :: ops |- _ => rename Hx into Hrest end.
    assert (exists g, op = SegRemove g /\ g < b) as (g & -> & Hg).
    { assert (op ∈ (SegRemove <$> seqZ 0 b)) as Hin
        by (rewrite Hrest; apply elem_of_app; right; by left).
      apply list_elem_of_fmap in Hin as (g & -> & Hg%elem_of_seqZ). exists g. split; [done|lia]. }
    split; [apply core_remove; [done|by rewrite H]|].
    exists (TmpCreate :: TmpWrite (snapshot_bytes b body) :: TmpSync :: TmpRename :: dn ++ [SegRemove g]), body.
    split_and!; [|done|done]. cbn. do 4 f_equal. by rewrite <- app_assoc.
Qed.

Lemma snapshotBaseGen_held d inst :
  snapshot_held d inst -> 0 <= base_gen inst <= MaxInt64 ->
  snapshotBaseGen d = (λ x : captured, x.1.2) <$> inst.
Proof.
  unfold snapshotBaseGen. destruct inst as [[[b g] h]|]; cbn [snapshot_held base_gen].
  - intros [(body & ->) ->] Hg. cbn [mbind option_bind f_data]. unfold snapshot_bytes.
    rewrite ReadFull_app by done. rewrite bool_decide_false by (intros Hn; by apply Hn).
    rewrite (proj1 (frames_ReadUvarint _ (wrapu64_range g))).
    by rewrite wrap64_wrapu64 by (unfold is_int64, MinInt64; lia).
  - by intros -> _.
Qed.

Lemma file_crash_synced f f' :
  file_crash f f' -> f_synced f = length (f_data f) -> f' = f.
Proof.
  intros (n & Hn & ->) Hs. destruct f as [data k]. cbn in *. subst.
  assert (n = length data) as -> by lia. by rewrite take_ge.
Qed.

(** A fully fsynced file survives as it is. *)
Lemma crash_lookup d d' g f :
  disk_crash d d' -> d_segments d !! g = Some f ->
  exists f', d_segments d' !! g = Some f' /\ file_crash f f'.
Proof.
  intros (_ & _ & Hs) Hf. specialize (Hs g). rewrite Hf in Hs. inversion Hs as [? f' Hc|]; subst.
  by exists f'.
Qed.

Lemma crash_dom d d' g : disk_crash d d' -> is_Some (d_segments d' !! g) -> is_Some (d_segments d !! g).
Proof. intros (_ & _ & Hs) [f Hf]. specialize (Hs g). rewrite Hf in Hs. inversion Hs; subst. eauto. Qed.

Lemma crash_snapshot d d' inst : disk_crash d d' -> snapshot_held d inst -> snapshot_held d' inst.
Proof.
  intros (Hs & _ & _) H. destruct inst as [[[b g] h]|]; cbn in *.
  - destruct H as [Hb Hd]. split; [done|]. rewrite Hd in Hs. inversion Hs as [? f' Hc|]; subst.
    f_equal. by apply (file_crash_synced (mkFile b (length b))).
  - rewrite H in Hs. by inversion Hs.
Qed.

(** What a failure cannot touch: the snapshot, which segments there are, and under
    the [always] policy the state of being fsynced. *)
Lemma fails_keeps s d :
  fails s d -> sys_inv s ->
  snapshot_held d (s_installed s) /\
  (forall g, is_Some (d_segments d !! g) -> 0 <= g <= st_gen (s_store s)) /\
  (fsync = FSyncAlways -> forall g f, base_gen (s_installed s) <= g ->
     d_segments d !! g = Some f -> f_synced f = length (f_data f)).
Proof.
  intros Hf (cmds & Hseg & _ & _ & Hsnap & _ & Hdur & _).
  destruct Hseg as (Hb & _ & _ & (f0 & Hf0 & _) & Hdom).
  assert (forall d0, disk_crash d0 d -> forall g f, d_segments d !! g = Some f -> f_synced f = length (f_data f))
    as Hsync.
  { intros d0 (_ & _ & Hc) g f Hg. specialize (Hc g). rewrite Hg in Hc.
    inversion Hc as [? ? (n & Hn & ->)|]; subst. cbn. rewrite length_take. lia. }
  destruct Hf as [|d Hc|c d _ Hc].
  - split_and!; [done|done|]. intros Ha. by apply Hdur.
  - split_and!; [by eapply crash_snapshot| |intros _ g f _; by eapply Hsync].
    intros g Hg. apply Hdom. by eapply crash_dom.
  - split_and!; [by eapply crash_snapshot| |intros _ g f _; by eapply Hsync].
    intros g Hg%(crash_dom _ _ _ Hc). unfold mid_append in Hg. cbn in Hg.
    apply lookup_insert_is_Some in Hg as [<-|[_ Hg]]; [lia|by apply Hdom].
Qed.

(** Opening a directory that a failure has left goes on in the last segment. *)
Lemma open_gen d inst cur f :
  snapshot_held d inst -> 0 <= base_gen inst <= cur -> cur <= MaxInt64 -> d_segments d !! cur = Some f ->
  (forall g, is_Some (d_segments d !! g) -> 0 <= g <= cur) ->
  forall fs l, Open fs l d = (d, mkStore fs l cur []).
Proof.
  intros Hsnap Hb Hm Hf Hdom fs l.
  assert (highestSegment d = cur) as Hhi by (apply highestSegment_spec; [lia|eauto|done]).
  unfold Open. rewrite Hhi, (snapshotBaseGen_held d inst Hsnap) by lia.
  assert (match (λ x : captured, x.1.2) <$> inst with
    | Some base => if cur <? base then base else cur
    | None => cur end = cur) as ->.
  { destruct inst as [[[b g] hh]|]; [|done]. cbn in *. by rewrite (proj2 (Z.ltb_ge _ _)) by lia. }
  unfold openSegment. by rewrite Hf.
Qed.

(** Reopening a directory whose log has no torn tail. *)
Lemma restart_inv s d cmds d' st' :
  fails s d -> whole_log d (base_gen (s_installed s)) (st_gen (s_store s)) cmds ->
  Open fsync limits d = (d', st') ->
  sys_inv s -> sys_inv (mkSys d' st' (kept_hist s cmds) (s_installed s) None).
Proof.
  intros Hf [Hlog Hok] Ho Hinv. destruct (fails_keeps s d Hf Hinv) as (Hsnap & Hdom & Hsy).
  destruct Hinv as (cmds0 & (Hb & Hm & _) & Hh & Hok0 & _).
  destruct (Hlog (st_gen (s_store s))) as (f & Hfl & Hfd); [lia|].
  rewrite (open_gen d _ _ f Hsnap Hb Hm Hfl Hdom) in Ho. injection Ho as <- <-.
  exists cmds. cbn. split_and!; try done.
  - unfold segments_hold. cbn. split_and!; [lia|lia|lia| | |done].
    + intros g Hg. apply Hlog. lia.
    + exists f. by rewrite app_nil_r.
  - unfold kept_hist. apply Forall_app. split; [|done]. rewrite Hh in Hok0. by apply Forall_app in Hok0 as [? _].
  - intros Ha. split; [done|]. by apply Hsy.
Qed.

Lemma sys_step_inv s s' : sys_step fsync limits s s' -> sys_inv s -> sys_inv s'.
Proof.
  destruct 1; intros Hinv.
  - by eapply append_inv.
  - by eapply flush_inv.
  - by eapply (capture_inv d st h inst body).
  - by apply install_inv.
  - by eapply end_inv.
  - by eapply restart_inv.
Qed.

Lemma sys_reachable_inv s : sys_reachable fsync limits s -> sys_inv s.
Proof. induction 1; [apply sys_init_inv|by eapply sys_step_inv]. Qed.
End Invariant.

(** ** Lemmas: replaying a log *)

(** The commands replayed one after the other, up to the first error. *)
Fixpoint replay_all {St} (replay : Z -> list bytes -> St -> outcome (St * option io_error))
    (cs : list logged) (n : Z) (st : St) : outcome (Z * option io_error * St) :=
  match cs with
  | [] => Ret (n, None, st)
  | (db, args) :: cs =>
      '(st, err) ← replay db args st;
      match err with Some e => Ret (n, Some e, st) | None => replay_all replay cs (n + 1) st end
  end.

(** The start of a command that was cut off, or nothing. *)
Definition torn (p : bytes) : Prop :=
  p = [] \/ exists c q, logged_ok c /\ encode c = p ++ q /\ q <> [].

Lemma encode_nonempty c : encode c <> [].
Proof. unfold encode, writeCommand. intros [H _]%app_eq_nil. by apply writeUvarint_nonempty in H. Qed.

Lemma encode_frames c : logged_ok c -> pframes eof_clean readCommand (encode c) c.
Proof. destruct c as [db args]. apply command_frames. Qed.

(** A log determines its commands, and a part of it a part of them. *)
Lemma encode_all_prefix cs : forall cs' r,
  Forall logged_ok cs -> Forall logged_ok cs' -> encode_all cs' = encode_all cs ++ r -> cs `prefix_of` cs'.
Proof.
  induction cs as [|c cs IH]; intros cs' r Hok Hok' E; [apply prefix_nil|].
  apply Forall_cons in Hok as [Hc Hok]. unfold encode_all in E. cbn [map concat] in E.
  destruct cs' as [|c' cs']; cbn [map concat] in E.
  { symmetry in E. apply app_eq_nil in E as [[E _]%app_eq_nil _]. by apply encode_nonempty in E. }
  apply Forall_cons in Hok' as [Hc' Hok']. rewrite <- app_assoc in E.
  pose proof (proj1 (encode_frames c Hc) (encode_all cs ++ r)) as H1.
  pose proof (proj1 (encode_frames c' Hc') (encode_all cs')) as H2.
  unfold encode_all in H1, H2. rewrite E, H1 in H2. injection H2 as <- H2.
  apply prefix_cons. by apply (IH cs' r).
Qed.

Lemma encode_all_inj cs cs' :
  Forall logged_ok cs -> Forall logged_ok cs' -> encode_all cs' = encode_all cs -> cs = cs'.
Proof.
  intros Hok Hok' E. apply (anti_symm prefix); eapply encode_all_prefix; try done; by rewrite app_nil_r.
Qed.

(** [p] is the part that is left of the first of [cs2], cut off; or both are empty. *)
Definition cut_of (p : bytes) (cs2 : list logged) : Prop :=
  p = [] /\ cs2 = [] \/
  exists c cs q, cs2 = c :: cs /\ encode c = p ++ q /\ q <> [].

Lemma cut_of_torn p cs2 : Forall logged_ok cs2 -> cut_of p cs2 -> torn p.
Proof.
  intros Hok [[-> _]|(c & cs & q & -> & E & Hq)]; [by left|].
  apply Forall_cons in Hok as [Hc _]. right. by exists c, q.
Qed.

(** Where a log is cut: whole commands, then the start of the next. *)
Lemma cut_log cs : forall p0 q0,
  encode_all cs = p0 ++ q0 ->
  exists cs1 cs2 p, cs = cs1 ++ cs2 /\ p0 = encode_all cs1 ++ p /\ cut_of p cs2 /\ (q0 = [] -> cs2 = []).
Proof.
  induction cs as [|c cs IH]; intros p0 q0 E.
  { symmetry in E. apply app_eq_nil in E as [-> ->]. exists [], [], []. split_and!; try done. by left. }
  unfold encode_all in E. cbn [map concat] in E. destruct (decide (q0 = [])) as [->|Hq].
  - exists (c :: cs), [], []. rewrite !app_nil_r in *. split_and!; try done. by left.
  - destruct (app_cut _ _ _ _ E Hq) as [(q' & Ec & Hq')|(p' & -> & Et)].
    + exists [], (c :: cs), p0. split_and!; try done. right. by exists c, cs, q'.
    + destruct (IH p' q0 Et) as (cs1 & cs2 & p & -> & -> & Hp & Hn).
      exists (c :: cs1), cs2, p. split_and!; try done. unfold encode_all. cbn [map concat].
      by rewrite <- app_assoc.
Qed.

Section Replay.
Context {St : Type} (replay : Z -> list bytes -> St -> outcome (St * option io_error)).

Lemma replay_commands_spec cs p : forall fuel n st,
  Forall logged_ok cs -> torn p -> (length cs < fuel)%nat ->
  replay_commands replay fuel (encode_all cs ++ p) n st = replay_all replay cs n st.
Proof.
  induction cs as [|[db args] cs IH]; intros fuel n st Hok Hp Hf;
    (destruct fuel as [|fuel]; [simpl in Hf; lia|]); cbn [replay_commands replay_all].
  - cbn [encode_all map concat app]. destruct Hp as [->|(c & q & Hc & Ec & Hq)]; [done|].
    destruct (proj2 (encode_frames c Hc) p q Ec Hq) as (e & -> & He). orun.
    rewrite bool_decide_true; [done|]. apply eof_clean_any in He. exact He.
  - apply Forall_cons in Hok as [Hc Hok]. unfold encode_all. cbn [map concat]. rewrite <- app_assoc.
    rewrite (proj1 (encode_frames _ Hc)). orun.
    destruct (replay db args st) as [[st' [e|]]| |]; [done| |done..]. cbn.
    apply IH; [done|done|simpl in Hf; lia].
Qed.

Lemma encode_all_length cs : (length cs <= length (encode_all cs))%nat.
Proof.
  unfold encode_all. induction cs as [|c cs IH]; [done|]. cbn [map concat length].
  rewrite length_app. pose proof (encode_nonempty c). destruct (encode c); [done|simpl; lia].
Qed.

Lemma replaySegment_spec d g f cs p st :
  d_segments d !! g = Some f -> f_data f = encode_all cs ++ p -> Forall logged_ok cs -> torn p ->
  replaySegment replay d g st = replay_all replay cs 0 st.
Proof.
  intros Hf Hd Hok Hp. unfold replaySegment. rewrite Hf, Hd.
  apply replay_commands_spec; [done|done|]. pose proof (encode_all_length cs). rewrite length_app. lia.
Qed.

(** Counting goes on. *)
Lemma replay_all_count cs : forall n st,
  replay_all replay cs n st = ('(m, err, st) ← replay_all replay cs 0 st; Ret (n + m, err, st)).
Proof.
  induction cs as [|[db args] cs IH]; intros n st; cbn [replay_all]; [cbn; by rewrite Z.add_0_r|].
  destruct (replay db args st) as [[st' [e|]]| |]; cbn; [by rewrite Z.add_0_r| |done..].
  rewrite (IH (n + 1)), (IH 1). destruct (replay_all replay cs 0 st') as [[[m err] st2]| |]; cbn; try done.
  do 3 f_equal. lia.
Qed.

Lemma replay_all_app cs cs' : forall n st,
  replay_all replay (cs ++ cs') n st =
  ('(m, err, st) ← replay_all replay cs n st;
   match err with Some e => Ret (m, Some e, st) | None => replay_all replay cs' m st end).
Proof.
  induction cs as [|[db args] cs IH]; intros n st; cbn [replay_all app]; [done|].
  destruct (replay db args st) as [[st' [e|]]| |]; cbn; [done|apply IH|done..].
Qed.

Lemma replay_gens_spec cmds d : forall k base total st,
  (forall g, base <= g < base + Z.of_nat k ->
    exists f cs p, d_segments d !! g = Some f /\ f_data f = encode_all cs ++ p /\
      Forall logged_ok cs /\ torn p /\ cs = cmds g) ->
  replay_gens replay (seqZ base (Z.of_nat k)) d total st
  = replay_all replay (upto cmds base (Z.of_nat k)) total st.
Proof.
  induction k as [|k IH]; intros base total st Hg; [done|].
  rewrite (upto_split cmds base 1) by lia. rewrite upto_1.
  rewrite seqZ_cons by lia. cbn [replay_gens].
  destruct (Hg base) as (f & cs & p & Hf & Hd & Hok & Hp & ->); [lia|].
  rewrite (replaySegment_spec d base f _ p st Hf Hd Hok Hp).
  rewrite replay_all_app, (replay_all_count _ total).
  destruct (replay_all replay (cmds base) 0 st) as [[[m [e|]] st']| |]; cbn; try done.
  replace (Z.pred (Z.of_nat (S k))) with (Z.of_nat k) by lia.
  replace (Z.of_nat (S k) - 1) with (Z.of_nat k) by lia.
  replace (Z.succ base) with (base + 1) by lia. apply IH. intros g ?. apply Hg. lia.
Qed.
End Replay.

(** What [Recover] does to a directory whose log holds the commands [cs]: the
    snapshot is restored, then they are replayed. *)
Definition recovers (d : Disk) (cs : list logged) : Prop :=
  forall St limits coins (restore : Record_ -> St -> outcome (St * option io_error)) replay st,
    Recover limits coins restore replay d st =
    ('(_, loaded, err, st) ← loadSnapshot limits coins restore d st;
     match err with
     | Some e => Ret (loaded, 0, Some e, st)
     | None => '(replayed, err, st) ← replay_all replay cs 0 st; Ret (loaded, replayed, err, st)
     end).

Lemma loadSnapshot_gen {St} limits coins (restore : Record_ -> St -> outcome (St * option io_error))
    d inst st b n err st' :
  snapshot_held d inst -> 0 <= base_gen inst <= MaxInt64 ->
  loadSnapshot limits coins restore d st = Ret (b, n, err, st') -> b = base_gen inst.
Proof.
  intros Hs Hb. unfold loadSnapshot. destruct inst as [[[snap g] h]|]; cbn [snapshot_held base_gen] in *.
  - destruct Hs as [(body & ->) ->]. cbn [f_data]. unfold ReadSnapshot, snapshot_bytes.
    rewrite ReadFull_app by done. rewrite bool_decide_false by (intros Hn; by apply Hn).
    rewrite (proj1 (frames_ReadUvarint _ (wrapu64_range g))).
    rewrite wrap64_wrapu64 by (unfold is_int64, MinInt64; lia).
    destruct (read_records _ _ _ _ _ _ _) as [[e [l s]]| |]; cbn; [|done..]. by intros [= <- _ _ _].
  - rewrite Hs. by intros [= <- _ _ _].
Qed.

Lemma recover_spec d inst cur cmds :
  snapshot_held d inst -> 0 <= base_gen inst <= cur -> cur <= MaxInt64 -> highestSegment d = cur ->
  (forall g, base_gen inst <= g <= cur ->
    exists f cs p, d_segments d !! g = Some f /\ f_data f = encode_all cs ++ p /\
      Forall logged_ok cs /\ torn p /\ cs = cmds g) ->
  recovers d (upto cmds (base_gen inst) (cur - base_gen inst + 1)).
Proof.
  intros Hs Hb Hm Hhi Hg St limits coins restore replay st. unfold Recover.
  destruct (loadSnapshot limits coins restore d st) as [[[[b n] err] st']| |] eqn:El; cbn; [|done..].
  apply loadSnapshot_gen with (inst := inst) in El as ->; [|done|lia].
  destruct err as [e|]; [done|]. unfold replaySegments. rewrite Hhi.
  rewrite <- (Z2Nat.id (cur - base_gen inst + 1)) by lia.
  rewrite (replay_gens_spec replay cmds d); [done|]. intros g Hg'. apply Hg. lia.
Qed.

(** ** Crash safety *)

Lemma upto_ok cmds base n g :
  Forall logged_ok (upto cmds base n) -> base <= g < base + n -> Forall logged_ok (cmds g).
Proof.
  intros Hok Hg. rewrite Forall_forall in Hok |- *. intros c Hc. apply Hok. unfold upto.
  apply list_elem_of_In, in_concat. exists (cmds g). split; [|by apply list_elem_of_In].
  apply list_elem_of_In, list_elem_of_fmap_2, elem_of_seqZ. lia.
Qed.

(** A directory whose older segments are whole and whose last one is the start of
    the commands [cs]. *)
Lemma recover_cut d inst cur cmds cs f q :
  snapshot_held d inst -> 0 <= base_gen inst <= cur -> cur <= MaxInt64 ->
  Forall logged_ok (upto cmds (base_gen inst) (cur - base_gen inst)) -> Forall logged_ok cs ->
  (forall g, base_gen inst <= g < cur ->
    exists f, d_segments d !! g = Some f /\ f_data f = encode_all (cmds g)) ->
  d_segments d !! cur = Some f -> f_data f ++ q = encode_all cs ->
  (forall g, is_Some (d_segments d !! g) -> 0 <= g <= cur) ->
  exists cs1 cs2 p, cs = cs1 ++ cs2 /\ (q = [] -> cs2 = []) /\
    f_data f = encode_all cs1 ++ p /\ cut_of p cs2 /\
    recovers d (upto cmds (base_gen inst) (cur - base_gen inst) ++ cs1).
Proof.
  intros Hsnap Hb Hm Hok Hcs Hold Hf Hfd Hdom.
  destruct (cut_log cs (f_data f) q (eq_sym Hfd)) as (cs1 & cs2 & p & Ecs & Ef & Hcut & Hl).
  assert (Forall logged_ok cs1 /\ torn p) as [Hcs1 Hp].
  { rewrite Ecs in Hcs. apply Forall_app in Hcs as [? ?]. split; [done|]. by eapply cut_of_torn. }
  exists cs1, cs2, p. do 4 (split; [done|]).
  assert (upto cmds (base_gen inst) (cur - base_gen inst) ++ cs1
    = upto (with_gen cmds cur cs1) (base_gen inst) (cur - base_gen inst + 1)) as ->.
  { rewrite upto_snoc by lia. replace (base_gen inst + (cur - base_gen inst)) with cur by lia.
    rewrite with_gen_eq. f_equal. apply upto_ext. intros g ?. symmetry. apply with_gen_ne. lia. }
  apply recover_spec; [done|lia|lia|apply highestSegment_spec; [lia|eauto|done]|].
  intros g Hg. destruct (decide (g = cur)) as [->|Hne].
  - exists f, cs1, p. by rewrite with_gen_eq.
  - destruct (Hold g) as (f0 & Hf0 & Hd0); [lia|]. exists f0, (cmds g), [].
    rewrite with_gen_ne, app_nil_r by done. split_and!; try done; [|by left].
    eapply upto_ok; [exact Hok|lia].
Qed.

(** The history split at the open segment. *)
Lemma sys_inv_split fsync s :
  sys_inv fsync s ->
  exists cmds, segments_hold (s_disk s) (s_store s) (base_gen (s_installed s)) cmds /\
    s_hist s = covered (s_installed s) ++
      upto cmds (base_gen (s_installed s)) (st_gen (s_store s) - base_gen (s_installed s)) ++
      cmds (st_gen (s_store s)) /\
    Forall logged_ok (upto cmds (base_gen (s_installed s)) (st_gen (s_store s) - base_gen (s_installed s))) /\
    Forall logged_ok (cmds (st_gen (s_store s))) /\
    snapshot_held (s_disk s) (s_installed s) /\
    durable fsync (s_disk s) (s_store s) (base_gen (s_installed s)).
Proof.
  intros (cmds & Hseg & Hh & Hok & Hsnap & _ & Hdur & _). exists cmds.
  pose proof Hseg as (Hb & _). rewrite upto_snoc in Hh by lia.
  set (cur := st_gen (s_store s)) in *. set (base := base_gen (s_installed s)) in *.
  replace (base + (cur - base)) with cur in Hh by lia.
  rewrite Hh in Hok. apply Forall_app in Hok as [_ Hok]. apply Forall_app in Hok as [??]. done.
Qed.

(** Bytes that reach past the first commands keep all of them. *)
Lemma mid_append_cut (cs cs1 cs2 : list logged) (c : logged) (p : bytes) (n : nat) :
  cs ++ [c] = cs1 ++ cs2 -> take n (encode_all cs ++ encode c) = encode_all cs1 ++ p -> cut_of p cs2 ->
  (length (encode_all cs) <= n <= length (encode_all cs ++ encode c))%nat ->
  cs1 = cs \/ cs1 = cs ++ [c].
Proof.
  intros Ecs Ef Hcut Hn. destruct cs2 as [|x cs2] using rev_ind; [right; by rewrite app_nil_r in Ecs|].
  rewrite app_assoc in Ecs. apply app_inj_tail in Ecs as [Ecs <-].
  destruct Hcut as [[_ Hx]|(c' & l & q & Hx & Ec & Hq)]; [by apply app_eq_nil in Hx as [_ ?]|].
  destruct cs2 as [|c0 cs2]; [left; by rewrite app_nil_r in Ecs|]. exfalso.
  injection Hx as <- _. apply (f_equal length) in Ef.
  rewrite length_take, length_app in Ef. rewrite Ecs, !encode_all_app in *.
  unfold encode_all in *. cbn [map concat] in *. rewrite Ec in *. rewrite !length_app in *.
  destruct q; [done|]. simpl in *. lia.
Qed.

(** So do the older segments, all fsynced. *)
Lemma crash_old d d' base cur (cmds : Z -> list logged) :
  disk_crash d d' ->
  (forall g f, base <= g < cur -> d_segments d !! g = Some f -> f_synced f = length (f_data f)) ->
  (forall g, base <= g < cur -> exists f, d_segments d !! g = Some f /\ f_data f = encode_all (cmds g)) ->
  forall g, base <= g < cur -> exists f, d_segments d' !! g = Some f /\ f_data f = encode_all (cmds g).
Proof.
  intros Hcr Hsy Hold g Hg. destruct (Hold g Hg) as (f & Hf & Hd).
  destruct (crash_lookup _ _ _ _ Hcr Hf) as (f' & Hf' & Hc).
  exists f'. apply file_crash_synced in Hc as ->; [done|]. by eapply Hsy.
Qed.

(** What an append cut short has done to the directory. *)
Lemma mid_append_disk c s f :
  d_segments (s_disk s) !! st_gen (s_store s) = Some f -> st_buf (s_store s) = [] ->
  d_snapshot (mid_append c s) = d_snapshot (s_disk s) /\
  d_segments (mid_append c s)
    = <[st_gen (s_store s) := mkFile (f_data f ++ encode c) (f_synced f)]> (d_segments (s_disk s)).
Proof.
  intros Hf Hbuf. unfold mid_append. rewrite (active_lookup _ _ f Hf), Hbuf. done.
Qed.

Section CrashSafety.
Context (fsync : bytes) (limits : Limits).

(** C7. Compaction never loses or repeats a command, and the death of the process
    loses only what is still in its buffer. The runs are those of [sys_step]: from
    an empty directory, appends, flushes, rotations, the file operations of
    snapshot installations one at a time, abandoned installations, and restarts
    after the process died or the power failed, also in the middle of an append,
    as long as the log was left without the start of a record at its end. The
    history is what the directory held at the last restart and all that was
    appended since. At every moment of such a run, if the process dies, then: the
    snapshot on disk covers a first part of the history; recovery from the
    directory replays exactly the commands that follow it, each once and in order,
    but for a last part, [lost]; and that part is exactly the commands whose bytes
    had not all left the buffer: the buffer holds all of it, but for the bytes [p]
    of its first command, fewer than the whole, which are already in the file. *)
Theorem crash_recovery s :
  sys_reachable fsync limits s ->
  exists cmds lost p,
    s_hist s = covered (s_installed s) ++ cmds ++ lost /\
    p ++ st_buf (s_store s) = encode_all lost /\ cut_of p lost /\
    snapshot_held (s_disk s) (s_installed s) /\ recovers (s_disk s) cmds.
Proof.
  intros (cmds & Hseg & Hh & Hok & Hokc & Hsnap & _)%sys_reachable_inv%sys_inv_split.
  destruct Hseg as (Hb & Hm & Hold & (f & Hf & Hfd) & Hdom).
  destruct (recover_cut (s_disk s) (s_installed s) (st_gen (s_store s)) cmds
    (cmds (st_gen (s_store s))) f (st_buf (s_store s))) as (cs1 & cs2 & p & Ecs & _ & Ef & Hcut & Hrec); [done..|].
  eexists _, cs2, p. split_and!; [|..|exact Hrec]; [by rewrite Hh, Ecs, <- !app_assoc| |done|done].
  rewrite Ecs, encode_all_app, Ef, <- app_assoc in Hfd. by apply app_inv_head in Hfd.
Qed.

(** What a power loss leaves when nothing is buffered or waiting for an fsync. *)
Lemma synced_recovers s d' :
  sys_reachable fsync limits s -> st_buf (s_store s) = [] ->
  (forall g f, base_gen (s_installed s) <= g -> d_segments (s_disk s) !! g = Some f -> f_synced f = length (f_data f)) ->
  disk_crash (s_disk s) d' ->
  exists cmds, s_hist s = covered (s_installed s) ++ cmds /\
    snapshot_held d' (s_installed s) /\ recovers d' cmds.
Proof.
  intros (cmds & Hseg & Hh & Hok & Hokc & Hsnap & _)%sys_reachable_inv%sys_inv_split Hbuf Hsy.
  destruct Hseg as (Hb & Hm & Hold & (f & Hf & Hfd) & Hdom).
  rewrite Hbuf, app_nil_r in Hfd.
  intros Hcr. destruct (crash_lookup _ _ _ _ Hcr Hf) as (f' & Hf' & Hff).
  apply file_crash_synced in Hff as ->; [|by eapply Hsy; [|exact Hf]; lia].
  destruct (recover_cut d' (s_installed s) (st_gen (s_store s)) cmds
    (cmds (st_gen (s_store s))) f []) as (cs1 & cs2 & p & Ecs & Hl & _ & _ & Hrec);
    [by eapply crash_snapshot|done..| |done|by rewrite app_nil_r| |].
  - eapply crash_old; [exact Hcr| |done]. intros g f0 Hg. apply Hsy. lia.
  - intros g Hg. apply Hdom. by eapply crash_dom.
  - rewrite Hl, app_nil_r in Ecs by done. eexists. split; [by rewrite Hh, Ecs|].
    split; [by eapply crash_snapshot|done].
Qed.

(** So it is under the [always] policy. *)
Lemma durable_recovers s d' :
  fsync = FSyncAlways -> sys_reachable fsync limits s -> disk_crash (s_disk s) d' ->
  exists cmds, s_hist s = covered (s_installed s) ++ cmds /\
    snapshot_held d' (s_installed s) /\ recovers d' cmds.
Proof.
  intros Hal Hr. pose proof Hr as (_ & _ & _ & _ & _ & _ & Hdur)%sys_reachable_inv%sys_inv_split.
  destruct (Hdur Hal) as [Hbuf Hsy]. by apply synced_recovers.
Qed.

(** A directory that has lost nothing but unsynced bytes opens as it is. *)
Lemma open_crashed s d' f l :
  sys_reachable fsync limits s -> disk_crash (s_disk s) d' ->
  Open f l d' = (d', mkStore f l (st_gen (s_store s)) []).
Proof.
  intros (cmds & Hseg & _ & _ & _ & Hsnap & _)%sys_reachable_inv%sys_inv_split Hcr.
  destruct Hseg as (Hb & Hm & _ & (f0 & Hf & _) & Hdom).
  destruct (crash_lookup _ _ _ _ Hcr Hf) as (f' & Hf' & _).
  apply (open_gen d' (s_installed s) _ f'); [by eapply crash_snapshot|lia|lia|done|].
  intros g Hg. apply Hdom. by eapply crash_dom.
Qed.

(** Under the [always] policy no failure takes an appended command: every segment
    that counts is what it was, the last one with a first part of the bytes of the
    append that was cut short, if any. *)
Lemma fails_always s d :
  fsync = FSyncAlways -> sys_inv fsync s -> fails s d ->
  forall g f, base_gen (s_installed s) <= g -> d_segments (s_disk s) !! g = Some f ->
  exists f' r, d_segments d !! g = Some f' /\ f_data f' = f_data f ++ r /\ (g <> st_gen (s_store s) -> r = []).
Proof.
  intros Hal (cmds & (Hb & _ & _ & (fa & Hfa & _) & _) & _ & _ & _ & _ & Hdur & _) Hfail g f Hg Hf.
  destruct (Hdur Hal) as [Hbuf Hsy].
  destruct Hfail as [|d Hc|c d _ Hc].
  - exists f, []. by rewrite app_nil_r.
  - destruct (crash_lookup _ _ _ _ Hc Hf) as (f' & Hf' & Hff).
    apply file_crash_synced in Hff as ->; [|by eapply Hsy]. exists f, []. by rewrite app_nil_r.
  - destruct (mid_append_disk c s fa Hfa Hbuf) as [_ Hdg].
    destruct (decide (g = st_gen (s_store s))) as [->|Hne].
    + rewrite Hfa in Hf. injection Hf as ->.
      destruct (crash_lookup _ _ (st_gen (s_store s)) (mkFile (f_data f ++ encode c) (f_synced f)) Hc)
        as (f' & Hf' & (n & Hn & ->)); [by rewrite Hdg, lookup_insert_eq|]. cbn [f_synced f_data] in *.
      rewrite (Hsy _ f Hg Hfa) in Hn. eexists _, (take (n - length (f_data f)) (encode c)).
      split_and!; [exact Hf'| |done]. cbn. rewrite take_app, take_ge by lia. done.
    + destruct (crash_lookup _ _ g f Hc) as (f' & Hf' & Hff); [by rewrite Hdg, lookup_insert_ne by done|].
      apply file_crash_synced in Hff as ->; [|by eapply Hsy]. exists f, []. by rewrite app_nil_r.
Qed.

Lemma restart_keeps s d cmds' :
  fsync = FSyncAlways -> sys_inv fsync s -> fails s d ->
  whole_log d (base_gen (s_installed s)) (st_gen (s_store s)) cmds' ->
  s_hist s `prefix_of` kept_hist s cmds'.
Proof.
  intros Hal Hinv Hfail [Hlog Hok']. pose proof (fails_always s d Hal Hinv Hfail) as Hkeep.
  pose proof Hinv as (_ & _ & _ & _ & _ & _ & Hdur)%sys_inv_split. destruct (Hdur Hal) as [Hbuf _].
  destruct Hinv as (cmds & (Hb & _ & Hold & (f & Hf & Hfd) & _) & Hh & Hok & _).
  rewrite Hbuf, app_nil_r in Hfd. rewrite Hh in Hok |- *. apply Forall_app in Hok as [_ Hok].
  unfold kept_hist. apply prefix_app. revert Hok Hok' Hlog.
  set (base := base_gen (s_installed s)) in *. set (cur := st_gen (s_store s)) in *. intros Hok Hok' Hlog.
  assert (forall g, base <= g <= cur -> Forall logged_ok (cmds g) /\ Forall logged_ok (cmds' g)) as Hoks
    by (intros g Hg; split; eapply upto_ok; [exact Hok|lia|exact Hok'|lia]).
  rewrite !upto_snoc by lia. replace (base + (cur - base)) with cur by lia.
  rewrite (upto_ext cmds cmds' base (cur - base)).
  - apply prefix_app. destruct (Hkeep cur f) as (f' & r & Hf' & Hr & _); [lia|done|].
    destruct (Hlog cur) as (f2 & Hf2 & Hd2); [lia|]. assert (f2 = f') as -> by congruence.
    apply (encode_all_prefix _ _ r); [apply Hoks; lia|apply Hoks; lia|congruence].
  - intros g Hg. destruct (Hold g) as (f0 & Hf0 & Hd0); [lia|].
    destruct (Hkeep g f0) as (f' & r & Hf' & Hr & Hn); [lia|done|]. rewrite Hn, app_nil_r in Hr by lia.
    destruct (Hlog g) as (f2 & Hf2 & Hd2); [lia|]. assert (f2 = f') as -> by congruence.
    apply encode_all_inj; [apply Hoks; lia|apply Hoks; lia|congruence].
Qed.

Lemma always_grows s s' :
  fsync = FSyncAlways -> sys_inv fsync s -> sys_step fsync limits s s' -> s_hist s `prefix_of` s_hist s'.
Proof.
  intros Hal Hinv Hstep. destruct Hstep as [| | | | |s d cmds d' st' Hf Hw _]; cbn [s_hist];
    [by exists [(db, args)]|reflexivity|reflexivity|reflexivity|reflexivity|exact (restart_keeps s d cmds Hal Hinv Hf Hw)].
Qed.

(** C8. With the [always] policy an acknowledged write survives a power loss, as
    long as no restart has found the start of a record at the end of its log. The
    runs are those of [sys_step]: from an empty directory, with restarts after any
    death of the process between two calls and any power loss, also in the middle
    of an append, that left the log without such a record (what happens
    behind one is [reopened_torn_log_corrupts]). A power loss takes any last part
    of what was not fsynced from each file, never a file or a rename: the directory
    itself, which the code does not fsync, is durable at once. Then: at every
    moment, the snapshot and the log that a power loss leaves hold all
    commands of the history; in the middle of a further append they hold these, or
    these and the new one; and no step, a restart after a failure included, takes a
    command from the history. *)
Theorem always_durable s d' :
  fsync = FSyncAlways -> sys_reachable fsync limits s ->
  (disk_crash (s_disk s) d' ->
    exists cmds, s_hist s = covered (s_installed s) ++ cmds /\
      snapshot_held d' (s_installed s) /\ recovers d' cmds) /\
  (forall c, logged_ok c -> disk_crash (mid_append c s) d' ->
    exists cmds, (s_hist s = covered (s_installed s) ++ cmds \/
                  s_hist s ++ [c] = covered (s_installed s) ++ cmds) /\
      snapshot_held d' (s_installed s) /\ recovers d' cmds) /\
  (forall s', sys_step fsync limits s s' -> s_hist s `prefix_of` s_hist s').
Proof.
  intros Hal Hreach. split; [by apply durable_recovers|].
  split; [|intros s'; apply always_grows; [done|by eapply sys_reachable_inv]].
  pose proof Hreach as (cmds & Hseg & Hh & Hok & Hokc & Hsnap & Hdur)%sys_reachable_inv%sys_inv_split.
  destruct Hseg as (Hb & Hm & Hold & (f & Hf & Hfd) & Hdom). destruct (Hdur Hal) as [Hbuf Hsy].
  rewrite Hbuf, app_nil_r in Hfd.
  intros c Hc Hcr. destruct (mid_append_disk c s f Hf Hbuf) as [Hds Hdg].
    assert (snapshot_held d' (s_installed s)) as Hsnap'.
    { eapply crash_snapshot; [exact Hcr|]. unfold snapshot_held in *. by rewrite Hds. }
    destruct (crash_lookup _ _ (st_gen (s_store s)) (mkFile (f_data f ++ encode c) (f_synced f)) Hcr)
      as (f' & Hf' & (n & Hn & ->)); [by rewrite Hdg, lookup_insert_eq|]. cbn [f_synced f_data] in Hn.
    rewrite (Hsy (st_gen (s_store s)) f) in Hn by (lia || done).
    destruct (recover_cut d' (s_installed s) (st_gen (s_store s)) cmds
      (cmds (st_gen (s_store s)) ++ [c]) (mkFile (take n (f_data f ++ encode c)) n)
      (drop n (f_data f ++ encode c))) as (cs1 & cs2 & p & Ecs & Hl & Ef & Hcut & Hrec);
      [done|lia|lia|done|apply Forall_app; split; [done|by apply Forall_singleton]| |done| | |].
    + eapply crash_old; [exact Hcr| |]; intros g; [intros f0|]; intros Hg; rewrite Hdg, lookup_insert_ne by lia;
        [apply Hsy; lia|by apply Hold].
    + cbn [f_data]. rewrite take_drop, encode_all_app, Hfd. f_equal. symmetry. apply app_nil_r.
    + intros g Hg. apply (crash_dom _ _ _ Hcr) in Hg. rewrite Hdg in Hg.
      apply lookup_insert_is_Some in Hg as [<-|[_ Hg]]; [lia|by apply Hdom].
    + cbn [f_data] in Ef. rewrite Hfd in Ef, Hn. eexists. split; [|by split; [|exact Hrec]].
      rewrite Hh, <- !app_assoc. by destruct (mid_append_cut _ _ _ _ _ _ Ecs Ef Hcut) as [->| ->];
        [done|left|right].
Qed.
End CrashSafety.

(** ** Witnesses and examples *)

Definition set_a : logged := (0, [lit "SET"; lit "a"; lit "1"]).
Definition set_b : logged := (0, [lit "SET"; lit "b"; lit "2"]).
Definition set_c : logged := (0, [lit "SET"; lit "c"; lit "3"]).

Lemma set_logged_ok k v : logged_ok (0, [lit "SET"; [k]; [v]]).
Proof. split_and!; [done| |done]. by repeat constructor. Qed.

(** The state after appending [c] in state [s]. *)
Definition sys_after_append (c : logged) (s : Sys) : Sys :=
  let '(d, st) := Append c.1 c.2 (s_disk s) (s_store s) in
  mkSys d st (s_hist s ++ [c]) (s_installed s) (s_pending s).

Definition sys_after_flush (s : Sys) : Sys :=
  let '(d, st) := Flush (s_disk s) (s_store s) in
  mkSys d st (s_hist s) (s_installed s) (s_pending s).

Lemma reach_append fsync limits c s :
  logged_ok c -> sys_reachable fsync limits s -> sys_reachable fsync limits (sys_after_append c s).
Proof.
  intros Hc Hs. eapply sys_next; [exact Hs|]. destruct s as [d st h inst pend], c as [db args].
  unfold sys_after_append. cbn [s_disk s_store s_hist s_installed s_pending fst snd].
  destruct (Append db args d st) as [d' st'] eqn:Ea. by apply sys_append.
Qed.

Lemma reach_flush fsync limits s :
  sys_reachable fsync limits s -> sys_reachable fsync limits (sys_after_flush s).
Proof.
  intros Hs. eapply sys_next; [exact Hs|]. destruct s as [d st h inst pend]. by apply sys_flush.
Qed.

(** The state after the process died in state [s] and was started again. *)
Definition sys_after_kill (fsync : bytes) (limits : Limits) (cmds : Z -> list logged) (s : Sys) : Sys :=
  let '(d, st) := Open fsync limits (s_disk s) in mkSys d st (kept_hist s cmds) (s_installed s) None.

Lemma reach_kill fsync limits cmds s :
  whole_log (s_disk s) (base_gen (s_installed s)) (st_gen (s_store s)) cmds ->
  sys_reachable fsync limits s -> sys_reachable fsync limits (sys_after_kill fsync limits cmds s).
Proof.
  intros Hw Hs. eapply sys_next; [exact Hs|]. unfold sys_after_kill.
  destruct (Open fsync limits (s_disk s)) as [d' st'] eqn:Eo.
  by apply (sys_restart fsync limits s (s_disk s)); [apply fail_killed|..].
Qed.

(** SET a 1 is flushed; SET b 2 is in the buffer when the process dies; after the
    restart, SET c 3 is in the buffer when it dies again. *)
Definition twice_killed : Sys :=
  sys_after_append set_c (sys_after_kill FSyncEverySec codec_limits (λ _, [set_a])
    (sys_after_append set_b (sys_after_flush (sys_after_append set_a (sys_init FSyncEverySec codec_limits))))).

Lemma twice_killed_reachable : sys_reachable FSyncEverySec codec_limits twice_killed.
Proof.
  apply reach_append; [apply set_logged_ok|]. apply reach_kill.
  - split; [|apply Forall_singleton, set_logged_ok]. intros g Hg.
    assert (g = 0) as -> by (change (0 <= g <= 0) in Hg; lia). eexists. split; reflexivity.
  - apply reach_append; [apply set_logged_ok|]. apply reach_flush, reach_append; [apply set_logged_ok|apply sys_start].
Qed.

Lemma crash_recovery_witness :
  s_hist twice_killed = [set_a; set_c] /\ recovers (s_disk twice_killed) [set_a].
Proof.
  split; [reflexivity|].
  destruct (crash_recovery FSyncEverySec codec_limits twice_killed twice_killed_reachable)
    as (cmds & lost & p & Hh & Hb & Hcut & _ & Hr).
  change ([set_a; set_c] = cmds ++ lost) in Hh. change (p ++ encode set_c = encode_all lost) in Hb.
  destruct cmds as [|c1 [|c2 [|c3 cmds]]]; cbn [app] in Hh.
  - exfalso. rewrite <- Hh in Hb, Hcut. unfold encode_all in Hb. cbn [map concat] in Hb. rewrite app_nil_r in Hb.
    apply app_inv_tail in Hb. destruct Hcut as [[_ [=]]|(c & cs & q & [= <- <-] & Hq & Hne)].
    rewrite Hb in Hq. apply (f_equal length) in Hq. rewrite length_app in Hq. destruct q; [done|]. cbn in Hq. lia.
  - by injection Hh as -> _.
  - exfalso. injection Hh as _ _ <-. apply app_eq_nil in Hb as [_ Hb]. by apply encode_nonempty in Hb.
  - discriminate Hh.
Defined.

Lemma always_durable_witness :
  let s := sys_after_append set_a (sys_init FSyncAlways codec_limits) in
  (exists cmds, [set_a] = [] ++ cmds /\ recovers (s_disk s) cmds) /\
  forall s', sys_step FSyncAlways codec_limits s s' -> [set_a] `prefix_of` s_hist s'.
Proof.
  destruct (always_durable FSyncAlways codec_limits
    (sys_after_append set_a (sys_init FSyncAlways codec_limits))
    (s_disk (sys_after_append set_a (sys_init FSyncAlways codec_limits)))) as (H & _ & Hk).
  - reflexivity.
  - apply reach_append; [apply set_logged_ok|apply sys_start].
  - split; [|exact Hk]. destruct H as (cmds & Hh & _ & Hr); [|by exists cmds].
    split; [constructor|]. split; [constructor|]. intros g.
    destruct (d_segments _ !! g) as [f|] eqn:Ef; [|constructor]. constructor.
    assert (f_synced f = length (f_data f)) as Hs.
    { assert (d_segments (s_disk (sys_after_append set_a (sys_init FSyncAlways codec_limits)))
        = {[0 := mkFile (encode set_a) (length (encode set_a))]}) as Hd by reflexivity.
      rewrite Hd in Ef. by apply lookup_singleton_Some in Ef as [_ <-]. }
    exists (length (f_data f)). rewrite firstn_all. destruct f. cbn in *. subst. split; [lia|done].
Defined.

(** A directory with one segment and no snapshot. *)
Definition one_segment (data : bytes) (synced : nat) : Disk := mkDisk None None {[0 := mkFile data synced]}.

Lemma one_segment_recovers data synced cs p :
  data = encode_all cs ++ p -> Forall logged_ok cs -> torn p -> recovers (one_segment data synced) cs.
Proof.
  intros Hd Hok Hp. rewrite <- (upto_1 (λ _, cs) 0).
  apply (recover_spec (one_segment data synced) None 0); [done|done|done|done|].
  intros g Hg. assert (g = 0) as -> by (cbn in Hg; lia).
  exists (mkFile data synced), cs, p. split; [apply lookup_singleton_eq|done].
Qed.

(** The command that the log holds after the torn one has swallowed a byte. *)
Definition set_b_garbled : logged := (0, [lit "SET"; lit "b"; [byte_of_Z 0]]).

(** C37. A log reopened after a torn append corrupts what follows. Under the
    [always] policy: SET a 1 is appended; a crash leaves nine of the ten bytes of
    SET b 2, which recovery tolerates, replaying SET a 1 alone; the restarted
    server opens the same segment for appending, and appends and fsyncs SET c 3
    behind the torn bytes. At the next start the torn command swallows the first
    byte of SET c 3: recovery replays a command that was never issued, SET b
    with a zero byte, and the acknowledged SET c 3 is lost. *)
Theorem reopened_torn_log_corrupts :
  let s := sys_after_append set_a (sys_init FSyncAlways codec_limits) in
  let d1 := one_segment (encode set_a ++ take 9 (encode set_b)) 19 in
  let '(d2, st2) := Open FSyncAlways codec_limits d1 in
  let '(d3, _) := Append set_c.1 set_c.2 d2 st2 in
  sys_reachable FSyncAlways codec_limits s /\ s_hist s = [set_a] /\
  disk_crash (mid_append set_b s) d1 /\ recovers d1 [set_a] /\
  d3 = one_segment (encode set_a ++ take 9 (encode set_b) ++ encode set_c) 29 /\
  recovers d3 [set_a; set_b_garbled].
Proof.
  intros s d1. set (d3 := one_segment (encode set_a ++ take 9 (encode set_b) ++ encode set_c) 29).
  assert (let '(d2, st2) := Open FSyncAlways codec_limits d1 in
    (Append set_c.1 set_c.2 d2 st2).1 = d3) as Hd3 by reflexivity.
  destruct (Open FSyncAlways codec_limits d1) as [d2 st2].
  destruct (Append set_c.1 set_c.2 d2 st2) as [d st3]. cbn [fst] in Hd3. rewrite Hd3.
  split; [apply reach_append; [apply set_logged_ok|apply sys_start]|]. split; [reflexivity|].
  split; [|split; [|split; [reflexivity|]]].
  - assert (d_segments (mid_append set_b s) = {[0 := mkFile (encode set_a ++ encode set_b) 10]}) as Hs
      by reflexivity.
    split; [constructor|]. split; [constructor|]. intros g. rewrite Hs.
    unfold d1, one_segment. cbn [d_segments].
    destruct (decide (g = 0)) as [->|Hg]; [|rewrite !lookup_singleton_ne by done; constructor].
    rewrite !lookup_singleton_eq. constructor. exists 19%nat. split; [vm_compute; lia|reflexivity].
  - eapply one_segment_recovers; [reflexivity| |].
    + apply Forall_singleton, set_logged_ok.
    + right. exists set_b, (drop 9 (encode set_b)).
      split; [apply set_logged_ok|]. split; [by rewrite take_drop|done].
  - apply (one_segment_recovers _ _ [set_a; set_b_garbled] (drop 1 (encode set_c))); [reflexivity| |].
    + repeat (apply Forall_cons; split; [apply set_logged_ok|]). by apply Forall_nil.
    + right. exists (3, [drop 4 (encode set_c) ++ replicate 77 (byte_of_Z 0); []; []]).
      eexists. split; [|split; [reflexivity|done]].
      split_and!; [done| |done]. by repeat constructor.
Qed.

Definition sys_after_capture (body : bytes) (s : Sys) : Sys :=
  let '(d, st) := Rotate (s_disk s) (s_store s) in
  let snap := snapshot_bytes (NextGen (s_store s)) body in
  mkSys d st (s_hist s) (s_installed s)
    (Some (install_ops snap (NextGen (s_store s)), (snap, NextGen (s_store s), s_hist s))).

Lemma reach_capture fsync limits body s :
  NextGen (s_store s) <= MaxInt64 -> s_pending s = None ->
  sys_reachable fsync limits s -> sys_reachable fsync limits (sys_after_capture body s).
Proof.
  intros Hg Hp Hs. eapply sys_next; [exact Hs|]. destruct s as [d st h inst pend]. cbn in Hp. subst.
  unfold sys_after_capture. cbn [s_disk s_store s_hist s_installed].
  destruct (Rotate d st) as [d' st'] eqn:Er. by apply sys_capture.
Qed.

(** The next file operation of the installation under way. *)
Definition sys_after_install (s : Sys) : Sys :=
  match s_pending s with
  | Some (op :: ops, x) =>
      mkSys (disk_exec (s_disk s) op) (s_store s) (s_hist s)
        (match op with TmpRename => Some x | _ => s_installed s end) (Some (ops, x))
  | Some ([], x) => mkSys (s_disk s) (s_store s) (s_hist s) (s_installed s) None
  | None => s
  end.

Lemma reach_install fsync limits s :
  sys_reachable fsync limits s -> sys_reachable fsync limits (sys_after_install s).
Proof.
  intros Hs. destruct s as [d st h inst [[[|op ops] x]|]]; cbn; [..|exact Hs].
  - eapply sys_next; [exact Hs|apply sys_end].
  - eapply sys_next; [exact Hs|]. exact (sys_install fsync limits d st h inst op ops x).
Qed.

(** C38. A rotation can leave a gap in the log. Under the [everysec] policy SET a 1
    is appended, a compaction rotates the log (which flushes the old segment
    without an fsync), SET b 2 is appended to the new segment and the timer
    fsyncs that one. A power loss before the snapshot is in place may then take
    SET a 1 and keep the later SET b 2: what is recovered is not a state the
    server was ever in. *)
Theorem rotation_leaves_gap :
  let s := sys_after_flush (sys_after_append set_b (sys_after_capture []
             (sys_after_append set_a (sys_init FSyncEverySec codec_limits)))) in
  sys_reachable FSyncEverySec codec_limits s /\
  s_hist s = [set_a; set_b] /\ s_installed s = None /\
  exists d', disk_crash (s_disk s) d' /\ recovers d' [set_b].
Proof.
  intros s. split; [|split; [reflexivity|split; [reflexivity|]]].
  { apply reach_flush, reach_append; [apply set_logged_ok|].
    apply reach_capture; [done|reflexivity|]. apply reach_append; [apply set_logged_ok|apply sys_start]. }
  set (d' := mkDisk None None (<[1 := mkFile (encode set_b) 10]> {[0 := mkFile [] 0]})).
  exists d'. split.
  - assert (d_segments (s_disk s) = <[1 := mkFile (encode set_b) 10]> {[0 := mkFile (encode set_a) 0]})
      as Hs by reflexivity.
    split; [constructor|]. split; [constructor|]. intros g. rewrite Hs. unfold d'. cbn [d_segments].
    destruct (decide (g = 1)) as [->|Hg1].
    { rewrite !lookup_insert_eq. constructor. exists 10%nat. split; [vm_compute; lia|reflexivity]. }
    rewrite !lookup_insert_ne by done. destruct (decide (g = 0)) as [->|Hg0].
    { rewrite !lookup_singleton_eq. constructor. exists 0%nat. split; [vm_compute; lia|reflexivity]. }
    rewrite !lookup_singleton_ne by done. constructor.
  - assert ([set_b] = upto (λ g, if decide (g = 1) then [set_b] else []) 0 2) as -> by reflexivity.
    apply (recover_spec d' None 1); [done|done|done|reflexivity|].
    intros g Hg. assert (g = 0 \/ g = 1) as [->| ->] by (cbn in Hg; lia).
    + exists (mkFile [] 0), [], []. split_and!; first [done|reflexivity|by left].
    + exists (mkFile (encode set_b) 10), [set_b], [].
      split_and!; first [done|reflexivity|by left|apply Forall_singleton, set_logged_ok].
Qed.
