(* ===== verification/Faults.v ===== *)
(** * internal/persistence and internal/server: disk errors

    The store of Store with file operations that may fail: every system call asks
    the environment, which may stop a write after some bytes or refuse the call.
    A [bufio.Writer] keeps its first error and returns it from then on; the server
    logs the error of an append and answers the command as if it had succeeded
    ([execute]), and a compaction or the final snapshot ends at its first error.
    Without faults these are the operations of Store. *)

From S2P Require Import Prelude GoBinary Pack Float64 Skiplist.
From S2P Require Import ValueList ValueHash ValueSet ValueZSet Value Codec Store.

(** ** The state and its monad *)

(** The directory, the number of system calls made, the store, whether its
    segment is open, and the error its writer keeps. *)
Record FS := mkFS {
  fs_disk : Disk;
  fs_tick : nat;
  fs_store : Store;
  fs_open : bool;
  fs_err : option io_error }.

Definition fs (A : Type) : Type := FS -> (A + io_error) * FS.

Definition fret {A} (a : A) : fs A := λ s, (inl a, s).
Definition ffail {A} (e : io_error) : fs A := λ s, (inr e, s).
Definition fbind {A B} (m : fs A) (k : A -> fs B) : fs B := λ s,
  match m s with (inl a, s) => k a s | (inr e, s) => (inr e, s) end.

Notation "'try' x ':=' m 'in' k" := (fbind m (λ x, k)) (at level 10, x pattern, m at level 100, k at level 200).

Definition set_disk (s : FS) (d : Disk) : FS := mkFS d (fs_tick s) (fs_store s) (fs_open s) (fs_err s).
Definition set_writer (s : FS) (buf : bytes) (err : option io_error) : FS :=
  mkFS (fs_disk s) (fs_tick s) (set_gen_buf (fs_store s) (st_gen (fs_store s)) buf) (fs_open s) err.
Definition set_open (s : FS) (b : bool) : FS := mkFS (fs_disk s) (fs_tick s) (fs_store s) b (fs_err s).
Definition ticked (s : FS) : FS := mkFS (fs_disk s) (S (fs_tick s)) (fs_store s) (fs_open s) (fs_err s).

Definition ErrClosed : io_error := ErrOther (lit "file already closed").

Section Faults.
(** What the environment answers to the system calls: [None] is success,
    [Some (n, e)] the error [e], a write having done [n] bytes. *)
Context (fault : nat -> option (nat * io_error)).

(** A system call without an effect of its own on failure. *)
Definition call (k : FS -> FS) : fs unit := λ s,
  match fault (fs_tick s) with
  | None => (inl tt, k (ticked s))
  | Some (_, e) => (inr e, ticked s)
  end.

(** [s.seg.Write(p)]: the number of bytes written, and the error. *)
Definition seg_Write (p : bytes) (s : FS) : nat * option io_error * FS :=
  let append n s := set_disk s (set_active (fs_disk s) (fs_store s)
                      (file_append (active (fs_disk s) (fs_store s)) (take n p))) in
  if negb (fs_open s) then (0%nat, Some ErrClosed, s)
  else match fault (fs_tick s) with
       | None => (length p, None, append (length p) (ticked s))
       | Some (n, e) => (n, Some e, append n (ticked s))
       end.

(** [s.seg.Sync()] and [s.seg.Close()]. *)
Definition seg_Sync : fs unit := λ s,
  if negb (fs_open s) then (inr ErrClosed, s)
  else call (λ s, set_disk s (set_active (fs_disk s) (fs_store s) (file_sync (active (fs_disk s) (fs_store s))))) s.

Definition seg_Close : fs unit := λ s,
  if negb (fs_open s) then (inr ErrClosed, s) else call id (set_open s false).

(** ** bufio.Writer *)

Definition writer_Flush : fs unit := λ s,
  match fs_err s with
  | Some e => (inr e, s)
  | None =>
      let buf := st_buf (fs_store s) in
      if bool_decide (buf = []) then (inl tt, s)
      else
        let '(n, err, s) := seg_Write buf s in
        match err with
        | Some e => (inr e, set_writer s (drop n buf) (Some e))
        | None => (inl tt, set_writer s [] None)
        end
  end.

(** A long write past an empty buffer. *)
Definition writer_direct (p : bytes) : fs unit := λ s,
  let '(n, err, s) := seg_Write p s in
  match err with
  | Some e => (inr e, set_writer s [] (Some e))
  | None => (inl tt, s)
  end.

Definition writer_Write (p : bytes) : fs unit := λ s,
  match fs_err s with
  | Some e => (inr e, s)
  | None =>
      let buf := st_buf (fs_store s) in
      if bool_decide (length p <= bufferSize - length buf)%nat then (inl tt, set_writer s (buf ++ p) None)
      else if bool_decide (buf = []) then writer_direct p s
      else
        let k := (bufferSize - length buf)%nat in
        (try _ := writer_Flush in
         if bool_decide (length (drop k p) <= bufferSize)%nat
         then λ s, (inl tt, set_writer s (drop k p) None)
         else writer_direct (drop k p)) (set_writer s (buf ++ take k p) None)
  end.

(** Writes one after the other, until one fails. *)
Fixpoint write_all (ps : list bytes) : fs unit :=
  match ps with
  | [] => fret tt
  | p :: ps => try _ := writer_Write p in write_all ps
  end.

(** ** The store (appendlog.go) *)

Definition f_flushLocked : fs unit := try _ := writer_Flush in seg_Sync.

Definition f_Append (db : Z) (args : list bytes) : fs unit :=
  try _ := write_all (command_writes db args) in
  λ s, if bool_decide (st_fsync (fs_store s) = FSyncAlways) then f_flushLocked s else (inl tt, s).

Definition f_Flush : fs unit := f_flushLocked.

Definition f_Close : fs unit := try _ := f_flushLocked in seg_Close.

(** The segment and its writer are replaced when the file could be opened. *)
Definition f_openSegment (gen : Z) : fs unit :=
  call (λ s, let '(d, st) := openSegment gen (fs_disk s) (fs_store s) in mkFS d (fs_tick s) st true None).

Definition f_Rotate : fs Z :=
  try _ := writer_Flush in
  try _ := seg_Close in
  λ s, (try _ := f_openSegment (st_gen (fs_store s) + 1) in λ s, (inl (st_gen (fs_store s)), s)) s.

(** A file operation of an installation; a write may leave a part. *)
Definition f_disk_op (op : disk_op) : fs unit := λ s,
  match fault (fs_tick s), op with
  | None, _ => (inl tt, set_disk (ticked s) (disk_exec (fs_disk s) op))
  | Some (n, e), TmpWrite b => (inr e, set_disk (ticked s) (disk_exec (fs_disk s) (TmpWrite (take n b))))
  | Some (_, e), _ => (inr e, ticked s)
  end.

(** The removals of covered segments, whose errors are ignored. *)
Fixpoint f_removes (gens : list Z) : fs unit :=
  match gens with
  | [] => fret tt
  | g :: gens => λ s, let '(_, s) := f_disk_op (SegRemove g) s in f_removes gens s
  end.

Definition f_InstallSnapshot (snapshot : bytes) (baseGen : Z) : fs unit :=
  try _ := f_disk_op TmpCreate in
  try _ := f_disk_op (TmpWrite snapshot) in
  try _ := f_disk_op TmpSync in
  try _ := call id in
  try _ := f_disk_op TmpRename in
  f_removes (seqZ 0 baseGen).

(** [Open]: the directory is made, then the segment opened. The store that is
    there before the call is not used. *)
Definition f_Open (fsync : bytes) (limits : Limits) (d : Disk) (k : nat) : (unit + io_error) * FS :=
  (try _ := call id in
   λ s, let gen := highestSegment (fs_disk s) in
        let gen := match snapshotBaseGen (fs_disk s) with
                   | Some base => if gen <? base then base else gen
                   | None => gen
                   end in
        f_openSegment gen s) (mkFS d k (mkStore fsync limits 0 []) false None).

(** ** The server (conn.go, server.go) *)

(** [compact] with the captured state [snapshot]. *)
Definition f_compact (snapshot : bytes) : fs unit := λ s,
  let baseGen := NextGen (fs_store s) in
  (try _ := f_Rotate in f_InstallSnapshot snapshot baseGen) s.

Definition f_finalizePersistence (snapshot : bytes) : fs unit :=
  try _ := f_Flush in
  try _ := f_compact snapshot in
  f_Close.

(** What the server asks of its store: the append of a command that has been
    run, a tick of the flush timer, a compaction, the end. Each error is logged
    and otherwise dropped. *)
Inductive store_call :=
  | CallAppend (c : Z * list bytes)
  | CallFlush
  | CallCompact (snapshot : bytes)
  | CallFinalize (snapshot : bytes).

Definition f_call (c : store_call) : fs unit :=
  match c with
  | CallAppend (db, args) => f_Append db args
  | CallFlush => f_Flush
  | CallCompact snapshot => f_compact snapshot
  | CallFinalize snapshot => f_finalizePersistence snapshot
  end.

(** The errors logged, in order. *)
Fixpoint run_calls (calls : list store_call) (s : FS) : list (option io_error) * FS :=
  match calls with
  | [] => ([], s)
  | c :: calls =>
      let '(r, s) := f_call c s in
      let '(logs, s) := run_calls calls s in
      (match r with inl _ => None | inr e => Some e end :: logs, s)
  end.

#[local] Opaque bufferSize.

(** ** Lemmas: a writer that has failed *)

Lemma write_all_stuck ps s e : fs_err s = Some e -> ps <> [] -> write_all ps s = (inr e, s).
Proof. intros He Hp. destruct ps as [|p ps]; [done|]. cbn. unfold fbind, writer_Write. by rewrite He. Qed.

Lemma flush_stuck s e : fs_err s = Some e -> writer_Flush s = (inr e, s).
Proof. intros He. unfold writer_Flush. by rewrite He. Qed.

Lemma call_stuck c s e : fs_err s = Some e -> f_call c s = (inr e, s).
Proof.
  intros He. destruct c as [[db args]| |snap|snap]; cbn [f_call].
  - unfold f_Append, fbind. by rewrite (write_all_stuck _ _ e He).
  - unfold f_Flush, f_flushLocked, fbind. by rewrite (flush_stuck s e He).
  - unfold f_compact, f_Rotate, fbind. by rewrite (flush_stuck s e He).
  - unfold f_finalizePersistence, f_Flush, f_flushLocked, fbind. by rewrite (flush_stuck s e He).
Qed.

Lemma calls_stuck calls s e : fs_err s = Some e -> run_calls calls s = (replicate (length calls) (Some e), s).
Proof.
  intros He. induction calls as [|c calls IH]; [done|]. cbn [run_calls]. by rewrite (call_stuck c s e He), IH.
Qed.

(** ** Lemmas: what a write leaves in the segment

    [wrote s s' x]: from [s] to [s'] some writes carried the bytes [x]; the file
    has grown by a first part of what was buffered and [x], and while the writer
    has kept no error the rest is in its buffer. *)
Definition wrote (s s' : FS) (x : bytes) : Prop :=
  exists f f' rest, d_segments (fs_disk s) !! st_gen (fs_store s) = Some f /\
    fs_disk s' = set_segment (fs_disk s) (st_gen (fs_store s)) f' /\ f_synced f' = f_synced f /\
    st_gen (fs_store s') = st_gen (fs_store s) /\ st_fsync (fs_store s') = st_fsync (fs_store s) /\
    f_data f' ++ rest = f_data f ++ st_buf (fs_store s) ++ x /\
    (fs_err s' = None -> rest = st_buf (fs_store s')).

Definition has_segment (s : FS) : Prop := is_Some (d_segments (fs_disk s) !! st_gen (fs_store s)).

Lemma set_segment_id d g f : d_segments d !! g = Some f -> set_segment d g f = d.
Proof. intros H. unfold set_segment. rewrite insert_id by done. by destruct d. Qed.

Lemma set_segment_twice d g f f' : set_segment (set_segment d g f) g f' = set_segment d g f'.
Proof. unfold set_segment. cbn. by rewrite insert_insert_eq. Qed.

Lemma lookup_set_segment d g f : d_segments (set_segment d g f) !! g = Some f.
Proof. apply lookup_insert_eq. Qed.

Lemma wrote_buffered s x : has_segment s -> wrote s (set_writer s (st_buf (fs_store s) ++ x) None) x.
Proof. intros [f Hf]. exists f, f, (st_buf (fs_store s) ++ x). split_and!; try done. cbn. by rewrite set_segment_id. Qed.

Lemma seg_Write_wrote p s n err s' :
  has_segment s -> seg_Write p s = (n, err, s') ->
  exists f, d_segments (fs_disk s) !! st_gen (fs_store s) = Some f /\
    fs_disk s' = set_segment (fs_disk s) (st_gen (fs_store s)) (file_append f (take n p)) /\
    fs_store s' = fs_store s /\ (err = None -> n = length p) /\ fs_err s' = fs_err s.
Proof.
  intros [f Hf]. unfold seg_Write. destruct (fs_open s); cbn [negb].
  - destruct (fault (fs_tick s)) as [[m e]|]; intros [= <- <- <-]; exists f; cbn; unfold active; cbn; rewrite Hf;
      by split_and!.
  - intros [= <- <- <-]. exists f. split_and!; try done. rewrite take_0.
    assert (file_append f [] = f) as -> by (destruct f; unfold file_append; cbn; by rewrite app_nil_r).
    by rewrite set_segment_id.
Qed.

(** A flush, and a long write past an empty buffer. *)
Lemma writer_Flush_wrote s r s' :
  has_segment s -> writer_Flush s = (r, s') -> fs_err s = None ->
  wrote s s' [] /\ match r with inl _ => fs_err s' = None /\ st_buf (fs_store s') = [] | inr e => fs_err s' = Some e end.
Proof.
  intros Hs Hw He. unfold writer_Flush in Hw. rewrite He in Hw. case_bool_decide as Hb.
  { injection Hw as <- <-. split; [|done]. destruct Hs as [f Hf].
    exists f, f, []. split_and!; try done; [by rewrite set_segment_id|by rewrite Hb]. }
  destruct (seg_Write (st_buf (fs_store s)) s) as [[n err] s1] eqn:E1.
  destruct (seg_Write_wrote _ _ _ _ _ Hs E1) as (f & Hf & Hd & Hst & Hn & He1).
  destruct err as [e|]; injection Hw as <- <-; (split; [|by cbn]).
  - exists f, (file_append f (take n (st_buf (fs_store s)))), (drop n (st_buf (fs_store s))).
    cbn [fs_disk fs_store set_writer fs_err]. rewrite Hst. split_and!; try done.
    cbn [f_data file_append]. by rewrite <- app_assoc, take_drop, app_nil_r.
  - exists f, (file_append f (st_buf (fs_store s))), []. rewrite (Hn eq_refl), firstn_all in Hd.
    cbn [fs_disk fs_store set_writer fs_err]. rewrite Hst. split_and!; try done.
    cbn [f_data file_append]. by rewrite !app_nil_r.
Qed.

Lemma writer_direct_wrote p s r s' :
  has_segment s -> writer_direct p s = (r, s') -> fs_err s = None -> st_buf (fs_store s) = [] ->
  wrote s s' p /\ match r with inl _ => fs_err s' = None | inr e => fs_err s' = Some e end.
Proof.
  intros Hs Hw He Hb. unfold writer_direct in Hw.
  destruct (seg_Write p s) as [[n err] s1] eqn:E1.
  destruct (seg_Write_wrote _ _ _ _ _ Hs E1) as (f & Hf & Hd & Hst & Hn & He1).
  destruct err as [e|]; injection Hw as <- <-; (split; [|by cbn; rewrite ?He1]).
  - exists f, (file_append f (take n p)), (drop n p). cbn [fs_disk fs_store set_writer fs_err]. rewrite Hst, Hb.
    split_and!; try done. cbn [f_data file_append app]. by rewrite <- app_assoc, take_drop.
  - exists f, (file_append f p), []. rewrite (Hn eq_refl), firstn_all in Hd. rewrite Hst, Hb.
    split_and!; try done. cbn [f_data file_append app]. by rewrite app_nil_r.
Qed.

Lemma wrote_segment s s' x : wrote s s' x -> has_segment s'.
Proof.
  intros (f & f' & rest & Hf & Hd & _ & Hg & _). unfold has_segment. rewrite Hd, Hg. cbn. rewrite lookup_insert_eq. by eexists.
Qed.

(** Writes follow each other while nothing has failed. *)
Lemma wrote_trans s s1 s2 x y : wrote s s1 x -> fs_err s1 = None -> wrote s1 s2 y -> wrote s s2 (x ++ y).
Proof.
  intros (f & f1 & rest1 & Hf & Hd1 & Hs1 & Hg1 & Hp1 & Hx & He1) He (g & g2 & rest2 & Hg & Hd2 & Hs2 & Hg2 & Hp2 & Hy & He2).
  rewrite (He1 He) in Hx. rewrite Hd1, Hg1 in Hg, Hd2. cbn in Hg. rewrite lookup_insert_eq in Hg. injection Hg as <-.
  exists f, g2, rest2. split_and!; [done|by rewrite Hd2, set_segment_twice|congruence|congruence|congruence| |done].
  rewrite Hy, app_assoc, Hx. by rewrite <- !app_assoc.
Qed.

Lemma wrote_nothing s s' x : wrote s s' x -> forall y, fs_err s' <> None -> wrote s s' (x ++ y).
Proof.
  intros (f & f' & rest & Hf & Hd & Hs & Hg & Hp & Hx & He) y Hn. exists f, f', (rest ++ y).
  split_and!; try done. by rewrite app_assoc, Hx, <- !app_assoc.
Qed.

Lemma writer_Write_wrote p s r s' :
  has_segment s -> writer_Write p s = (r, s') -> fs_err s = None ->
  wrote s s' p /\ match r with inl _ => fs_err s' = None | inr e => fs_err s' = Some e end.
Proof.
  intros Hs Hw He. unfold writer_Write in Hw. rewrite He in Hw.
  case_bool_decide as Hfit. { injection Hw as <- <-. split; [by apply wrote_buffered|done]. }
  case_bool_decide as Hb. { by apply writer_direct_wrote. }
  set (k := (bufferSize - length (st_buf (fs_store s)))%nat) in *. unfold fbind in Hw.
  set (s0 := set_writer s (st_buf (fs_store s) ++ take k p) None) in *.
  assert (wrote s s0 (take k p)) as H0 by by apply wrote_buffered.
  rewrite <- (take_drop k p). destruct (writer_Flush s0) as [r1 s1] eqn:E1.
  destruct (writer_Flush_wrote s0 r1 s1 (wrote_segment _ _ _ H0) E1 eq_refl) as [H1 Hr1].
  pose proof (wrote_trans _ _ _ _ _ H0 eq_refl H1) as H01. rewrite app_nil_r in H01.
  destruct r1 as [u|e]; [|injection Hw as <- <-; split; [apply wrote_nothing; [done|by rewrite Hr1]|done]].
  destruct Hr1 as [Hr1 Hb1]. case_bool_decide as Hrest.
  - injection Hw as <- <-. split; [|done]. eapply wrote_trans; [exact H01|done|].
    pose proof (wrote_buffered s1 (drop k p) (wrote_segment _ _ _ H1)) as HB. by rewrite Hb1 in HB.
  - destruct (writer_direct_wrote _ _ _ _ (wrote_segment _ _ _ H1) Hw Hr1 Hb1) as [H2 Hr2].
    split; [by eapply wrote_trans|done].
Qed.

Lemma write_all_wrote ps : forall s r s',
  has_segment s -> write_all ps s = (r, s') -> fs_err s = None ->
  wrote s s' (concat ps) /\ match r with inl _ => fs_err s' = None | inr e => fs_err s' = Some e end.
Proof.
  induction ps as [|p ps IH]; intros s r s' Hs Hw He; cbn [write_all concat] in *.
  { injection Hw as <- <-. split; [|done]. pose proof (wrote_buffered s [] Hs) as H.
    rewrite app_nil_r in H. destruct s as [d k [a b c buf] o err]. cbn in He, H. by rewrite He. }
  unfold fbind in Hw. destruct (writer_Write p s) as [r1 s1] eqn:E1.
  destruct (writer_Write_wrote p s r1 s1 Hs E1 He) as [H1 Hr1]. destruct r1 as [u|e].
  - destruct (IH s1 r s' (wrote_segment _ _ _ H1) Hw Hr1) as [H2 Hr2]. split; [by eapply wrote_trans|done].
  - injection Hw as <- <-. split; [|done]. apply wrote_nothing; [done|]. by rewrite Hr1.
Qed.

(** An append that fails has put a first part of the record into the segment; if
    its writer keeps no error, all of it. *)
Lemma f_Append_failed db args s e s' :
  has_segment s -> fs_err s = None -> f_Append db args s = (inr e, s') ->
  exists f f' rest, d_segments (fs_disk s) !! st_gen (fs_store s) = Some f /\
    fs_disk s' = set_segment (fs_disk s) (st_gen (fs_store s)) f' /\
    f_data f' ++ rest = f_data f ++ st_buf (fs_store s) ++ writeCommand db args /\
    match fs_err s' with None => rest = [] | Some e' => e' = e end.
Proof.
  intros Hs He Ha. unfold f_Append, fbind in Ha.
  destruct (write_all (command_writes db args) s) as [r1 s1] eqn:E1.
  destruct (write_all_wrote _ _ _ _ Hs E1 He) as [H1 Hr1]. rewrite command_writes_concat in H1.
  destruct r1 as [u|e1].
  - case_bool_decide; [|done]. unfold f_flushLocked, fbind in Ha.
    destruct (writer_Flush s1) as [r2 s2] eqn:E2.
    destruct (writer_Flush_wrote _ _ _ (wrote_segment _ _ _ H1) E2 Hr1) as [H2 Hr2].
    pose proof (wrote_trans _ _ _ _ _ H1 Hr1 H2) as (f & f' & rest & Hf & Hd & _ & _ & _ & Hx & Hrest).
    rewrite app_nil_r in Hx. exists f, f', rest. destruct r2 as [u2|e2].
    + destruct Hr2 as [Hr2 Hb2]. unfold seg_Sync, call in Ha.
      assert (fs_disk s' = fs_disk s2 /\ fs_err s' = fs_err s2) as [Hd' ->].
      { destruct (fs_open s2); cbn [negb] in Ha; [|by injection Ha as _ <-].
        destruct (fault (fs_tick s2)) as [[n e2]|]; [by injection Ha as _ <-|done]. }
      rewrite Hr2, Hd', (Hrest Hr2), Hb2. rewrite (Hrest Hr2), Hb2 in Hx. done.
    + injection Ha as -> <-. rewrite Hr2. done.
  - injection Ha as -> <-. destruct H1 as (f & f' & rest & Hf & Hd & _ & _ & _ & Hx & _).
    exists f, f', rest. rewrite Hr1. done.
Qed.
End Faults.

(** ** Without faults *)

(** What the calls do in Store. *)
Definition s_call (c : store_call) (d : Disk) (st : Store) : Disk * Store :=
  match c with
  | CallAppend (db, args) => Append db args d st
  | CallFlush => Flush d st
  | CallCompact snapshot =>
      let baseGen := NextGen st in
      let '(d, st) := Rotate d st in (InstallSnapshot snapshot baseGen d, st)
  | CallFinalize snapshot =>
      let '(d, st) := Flush d st in
      let baseGen := NextGen st in
      let '(d, st) := Rotate d st in
      Close (InstallSnapshot snapshot baseGen d) st
  end.

Definition no_fault (_ : nat) : option (nat * io_error) := None.

(** A store whose last call went well. *)
Definition quiet (s : FS) : Prop := fs_open s = true /\ fs_err s = None /\ has_segment s.

(** [s] went to [s'], with the directory [d] and the store [st]. *)
Definition went (s : FS) (d : Disk) (st : Store) (s' : FS) : Prop :=
  quiet s' /\ fs_disk s' = d /\ fs_store s' = st.

Lemma active_segment s f : d_segments (fs_disk s) !! st_gen (fs_store s) = Some f -> active (fs_disk s) (fs_store s) = f.
Proof. unfold active. by intros ->. Qed.

Lemma quiet_write s p : quiet s ->
  exists s', seg_Write no_fault p s = (length p, None, s') /\
    went s (set_active (fs_disk s) (fs_store s) (file_append (active (fs_disk s) (fs_store s)) p)) (fs_store s) s'.
Proof.
  intros (Ho & He & Hs). unfold seg_Write. rewrite Ho. cbn. rewrite firstn_all. eexists. split; [done|].
  split; [split; [exact Ho|split; [exact He|]]|done]. unfold has_segment, set_active, set_segment. cbn.
  rewrite lookup_insert_eq. by eexists.
Qed.

Lemma quiet_writer s buf : quiet s -> quiet (set_writer s buf None).
Proof. by intros (Ho & He & Hs). Qed.

Lemma set_gen_buf_id st : set_gen_buf st (st_gen st) (st_buf st) = st.
Proof. by destruct st. Qed.

Lemma set_active_id s f : d_segments (fs_disk s) !! st_gen (fs_store s) = Some f ->
  set_active (fs_disk s) (fs_store s) f = fs_disk s.
Proof. apply set_segment_id. Qed.

Lemma file_append_nil f : file_append f [] = f.
Proof. destruct f. unfold file_append. cbn. by rewrite app_nil_r. Qed.

(** The segment after writing [b], with [buf] left in the buffer. *)
Definition after (s : FS) (b buf : bytes) (s' : FS) : Prop :=
  went s (set_active (fs_disk s) (fs_store s) (file_append (active (fs_disk s) (fs_store s)) b))
    (set_gen_buf (fs_store s) (st_gen (fs_store s)) buf) s'.

Lemma after_nil s buf : quiet s -> after s [] buf (set_writer s buf None).
Proof.
  intros Hq. pose proof Hq as (_ & _ & [f Hf]). split; [by apply quiet_writer|]. split; [|done].
  rewrite file_append_nil, (active_segment s f Hf). exact (eq_sym (set_active_id s f Hf)).
Qed.

Lemma after_trans s s1 s2 b1 b2 buf1 buf2 :
  after s b1 buf1 s1 -> after s1 b2 buf2 s2 -> after s (b1 ++ b2) buf2 s2.
Proof.
  intros (_ & Hd1 & Hs1) (Hq & Hd2 & Hs2). split; [done|]. rewrite Hd2, Hs2, Hs1. split; [|done].
  unfold set_active, active in *. rewrite Hd1. cbn. rewrite lookup_insert_eq. cbn.
  rewrite set_segment_twice. unfold file_append. cbn. by rewrite app_assoc.
Qed.

Lemma Flush_quiet s : quiet s ->
  exists s', writer_Flush no_fault s = (inl tt, s') /\ after s (st_buf (fs_store s)) [] s'.
Proof.
  intros Hq. pose proof Hq as (Ho & He & Hs). unfold writer_Flush. rewrite He. case_bool_decide as Hb.
  - exists s. split; [done|]. rewrite Hb. pose proof (after_nil s [] Hq) as H.
    rewrite <- Hb in H at 2. destruct s as [d k [a b c buf] o err]. cbn in *. subst. exact H.
  - destruct (quiet_write s (st_buf (fs_store s)) Hq) as (s1 & -> & Hq1 & Hd & Hst).
    eexists. split; [done|]. split; [by apply quiet_writer|]. cbn. by rewrite Hst.
Qed.

Lemma direct_quiet p s : quiet s -> st_buf (fs_store s) = [] ->
  exists s', writer_direct no_fault p s = (inl tt, s') /\ after s p [] s'.
Proof.
  intros Hq Hb. unfold writer_direct. destruct (quiet_write s p Hq) as (s1 & -> & Hq1 & Hd & Hst).
  exists s1. split; [done|]. split; [done|]. split; [done|]. rewrite Hst, <- Hb. by rewrite set_gen_buf_id.
Qed.

Lemma Write_quiet p s : quiet s ->
  exists s' b buf, writer_Write no_fault p s = (inl tt, s') /\ after s b buf s' /\
    bufio_Write (active (fs_disk s) (fs_store s), st_buf (fs_store s)) p
    = (file_append (active (fs_disk s) (fs_store s)) b, buf).
Proof.
  intros Hq. pose proof Hq as (Ho & He & Hs). unfold writer_Write, bufio_Write. rewrite He.
  case_bool_decide as Hfit.
  { eexists _, [], _. split; [done|]. split; [by apply after_nil|]. by rewrite file_append_nil. }
  case_bool_decide as Hb.
  { destruct (direct_quiet p s Hq Hb) as (s1 & -> & Ha). by eexists _, _, _. }
  cbv zeta. generalize (bufferSize - length (st_buf (fs_store s)))%nat as k. intros k. unfold fbind.
  set (s0 := set_writer s (st_buf (fs_store s) ++ take k p) None).
  pose proof (after_nil s (st_buf (fs_store s) ++ take k p) Hq) as H0.
  destruct (Flush_quiet s0) as (s1 & -> & H1); [by apply quiet_writer|].
  pose proof (after_trans _ _ _ _ _ _ _ H0 H1) as H01. cbn [st_buf fs_store s0 set_writer set_gen_buf app] in H01.
  case_bool_decide as Hrest.
  - eexists _, _, _. split; [done|]. split; [|done]. rewrite <- (app_nil_r (st_buf (fs_store s) ++ take k p)).
    eapply after_trans; [exact H01|]. apply after_nil. by destruct H01.
  - destruct (direct_quiet (drop k p) s1) as (s2 & -> & H2); [by destruct H01|by destruct H01 as (_ & _ & ->)|].
    eexists _, _, _. split; [done|]. split; [by eapply after_trans|].
    unfold file_append. cbn. by rewrite <- !app_assoc.
Qed.

Lemma write_all_quiet ps : forall s, quiet s ->
  exists s' b buf, write_all no_fault ps s = (inl tt, s') /\ after s b buf s' /\
    foldl bufio_Write (active (fs_disk s) (fs_store s), st_buf (fs_store s)) ps
    = (file_append (active (fs_disk s) (fs_store s)) b, buf).
Proof.
  induction ps as [|p ps IH]; intros s Hq; cbn [write_all foldl].
  { eexists s, [], (st_buf (fs_store s)). split; [done|]. split; [|by rewrite file_append_nil].
    pose proof (after_nil s (st_buf (fs_store s)) Hq) as H. pose proof Hq as (_ & He & _).
    destruct s as [d k [a b c buf] o err]. cbn in *. subst. exact H. }
  destruct (Write_quiet p s Hq) as (s1 & b1 & buf1 & E1 & H1 & ->). unfold fbind. rewrite E1.
  pose proof H1 as (Hq1 & Hd1 & Hst1). destruct (IH s1 Hq1) as (s2 & b2 & buf2 & -> & H2 & Hf).
  eexists s2, _, _. split; [done|]. split; [by eapply after_trans|].
  assert (active (fs_disk s1) (fs_store s1) = file_append (active (fs_disk s) (fs_store s)) b1) as Hact.
  { unfold active at 1. rewrite Hd1, Hst1. cbn. by rewrite lookup_insert_eq. }
  rewrite Hact, Hst1 in Hf. cbn [st_buf set_gen_buf] in Hf. rewrite Hf. unfold file_append. cbn. by rewrite <- app_assoc.
Qed.

Lemma flushLocked_quiet s : quiet s ->
  exists s', f_flushLocked no_fault s = (inl tt, s') /\
    went s (flushLocked (fs_disk s) (fs_store s)).1 (flushLocked (fs_disk s) (fs_store s)).2 s'.
Proof.
  intros Hq. unfold f_flushLocked, fbind. destruct (Flush_quiet s Hq) as (s1 & -> & (Ho & He & Hs) & Hd & Hst).
  unfold seg_Sync. rewrite Ho. cbn [negb]. eexists. split; [reflexivity|].
  split; [split; [exact Ho|split; [exact He|]]|split; [|exact Hst]].
  - unfold has_segment, set_active, set_segment. cbn. rewrite lookup_insert_eq. by eexists.
  - cbn [fs_disk set_disk ticked fs_store]. rewrite Hd, Hst. unfold flushLocked, set_active, active.
    cbn [fst st_gen set_gen_buf]. by rewrite lookup_set_segment, set_segment_twice.
Qed.

Lemma Append_quiet db args s : quiet s ->
  exists s', f_Append no_fault db args s = (inl tt, s') /\
    went s (Append db args (fs_disk s) (fs_store s)).1 (Append db args (fs_disk s) (fs_store s)).2 s'.
Proof.
  intros Hq. unfold f_Append, fbind, Append.
  destruct (write_all_quiet (command_writes db args) s Hq) as (s1 & b & buf & -> & (Hq1 & Hd & Hst) & ->).
  rewrite Hst. cbn [st_fsync set_gen_buf]. case_bool_decide; [|by exists s1].
  destruct (flushLocked_quiet s1 Hq1) as (s2 & -> & H2). exists s2. split; [done|]. by rewrite Hd, Hst in H2.
Qed.

Lemma opened_segment gen d st : is_Some (d_segments (openSegment gen d st).1 !! gen).
Proof.
  unfold openSegment. cbn [fst]. destruct (d_segments d !! gen) as [f|] eqn:Ef; [by rewrite Ef|].
  rewrite lookup_set_segment. by eexists.
Qed.

Lemma Rotate_quiet s : quiet s ->
  exists s', f_Rotate no_fault s = (inl (NextGen (fs_store s)), s') /\
    went s (Rotate (fs_disk s) (fs_store s)).1 (Rotate (fs_disk s) (fs_store s)).2 s'.
Proof.
  intros Hq. unfold f_Rotate, fbind. destruct (Flush_quiet s Hq) as (s1 & -> & (Ho & He & Hs) & Hd & Hst).
  unfold seg_Close. rewrite Ho. cbn [negb]. unfold call, no_fault at 1, f_openSegment, call, no_fault.
  cbn [fs_store set_open ticked id fs_disk]. rewrite Hst, Hd. cbn [st_gen set_gen_buf].
  unfold Rotate, openSegment, went. cbn [fst snd fs_disk fs_store]. eexists. split; [reflexivity|]. split; [|done].
  split; [done|]. split; [done|]. exact (opened_segment _ _ (fs_store s)).
Qed.

Lemma disk_op_quiet op s : f_disk_op no_fault op s = (inl tt, set_disk (ticked s) (disk_exec (fs_disk s) op)).
Proof. done. Qed.

Lemma call_quiet k s : call no_fault k s = (inl tt, k (ticked s)).
Proof. done. Qed.

Lemma removes_quiet gens : forall s,
  exists k, f_removes no_fault gens s
    = (inl tt, mkFS (foldl disk_exec (fs_disk s) (SegRemove <$> gens)) k (fs_store s) (fs_open s) (fs_err s)).
Proof.
  induction gens as [|g gens IH]; intros s; [exists (fs_tick s); by destruct s|].
  cbn [f_removes]. rewrite disk_op_quiet. destruct (IH (set_disk (ticked s) (disk_exec (fs_disk s) (SegRemove g))))
    as (k & ->). by exists k.
Qed.

Lemma Install_quiet snap baseGen s :
  exists k, f_InstallSnapshot no_fault snap baseGen s
    = (inl tt, mkFS (InstallSnapshot snap baseGen (fs_disk s)) k (fs_store s) (fs_open s) (fs_err s)).
Proof.
  unfold f_InstallSnapshot, fbind. repeat (first [rewrite disk_op_quiet|rewrite call_quiet]; cbv beta iota).
  match goal with |- context [f_removes _ _ ?s1] => destruct (removes_quiet (seqZ 0 baseGen) s1) as (k & ->) end.
  exists k. unfold InstallSnapshot, install_ops. by rewrite foldl_app.
Qed.

(** The removals leave the segments from [baseGen] on. *)
Lemma removed_segments gens d g :
  g ∉ gens -> d_segments (foldl disk_exec d (SegRemove <$> gens)) !! g = d_segments d !! g.
Proof.
  revert d. induction gens as [|g0 gens IH]; intros d Hg; [done|]. apply not_elem_of_cons in Hg as [Hne Hg].
  cbn [fmap list_fmap foldl]. rewrite IH by done. cbn. by rewrite lookup_delete_ne.
Qed.

Lemma installed_segment snap baseGen d g : baseGen <= g ->
  d_segments (InstallSnapshot snap baseGen d) !! g = d_segments d !! g.
Proof.
  intros Hg. unfold InstallSnapshot, install_ops. rewrite foldl_app, removed_segments.
  - done.
  - rewrite elem_of_seqZ. lia.
Qed.

Lemma compact_quiet snap s : quiet s ->
  exists s', f_compact no_fault snap s = (inl tt, s') /\
    went s (s_call (CallCompact snap) (fs_disk s) (fs_store s)).1 (s_call (CallCompact snap) (fs_disk s) (fs_store s)).2 s'.
Proof.
  intros Hq. unfold f_compact, fbind. destruct (Rotate_quiet s Hq) as (s1 & -> & (Ho & He & Hs) & Hd & Hst).
  destruct (Install_quiet snap (NextGen (fs_store s)) s1) as (k & ->). eexists. split; [reflexivity|].
  cbn [s_call]. destruct (Rotate (fs_disk s) (fs_store s)) as [d1 st1] eqn:ER. cbn [fst snd] in Hd, Hst.
  split; [|cbn; by rewrite Hd]. split; [done|]. split; [done|].
  unfold has_segment in *. cbn [fs_disk fs_store]. rewrite installed_segment; [done|].
  rewrite Hst. unfold Rotate, openSegment in ER. by injection ER as _ <-.
Qed.

(** ** Properties *)

(** Without faults the store with errors is the store: from a state with its
    segment open and no error kept, every call the server makes succeeds, and the
    directory and the store it leaves are those of [Append], [Flush], [Rotate],
    [InstallSnapshot] and [Close] of Store, whatever is buffered, down to the
    bytes; the segment stays open until the final [Close]. *)
Lemma no_faults_is_store c s :
  quiet s ->
  exists s', f_call no_fault c s = (inl tt, s') /\
    (fs_disk s', fs_store s') = s_call c (fs_disk s) (fs_store s) /\ fs_err s' = None /\ has_segment s' /\
    fs_open s' = match c with CallFinalize _ => false | _ => true end.
Proof.
  intros Hq. destruct c as [[db args]| |snap|snap]; cbn [f_call].
  - destruct (Append_quiet db args s Hq) as (s' & -> & (Ho & He & Hs) & Hd & Hst). exists s'.
    rewrite Hd, Hst. cbn [s_call]. by destruct (Append _ _ _ _).
  - destruct (flushLocked_quiet s Hq) as (s' & E & (Ho & He & Hs) & Hd & Hst). exists s'.
    rewrite Hd, Hst. by split.
  - destruct (compact_quiet snap s Hq) as (s' & -> & (Ho & He & Hs) & Hd & Hst). exists s'.
    rewrite Hd, Hst. split; [done|]. by destruct (s_call _ _ _).
  - unfold f_finalizePersistence, f_Flush, fbind.
    destruct (flushLocked_quiet s Hq) as (s1 & -> & Hq1 & Hd1 & Hst1).
    destruct (compact_quiet snap s1 Hq1) as (s2 & -> & Hq2 & Hd2 & Hst2).
    destruct (flushLocked_quiet s2 Hq2) as (s3 & E3 & (Ho & He & Hs) & Hd3 & Hst3).
    unfold f_Close, fbind. rewrite E3. unfold seg_Close. rewrite Ho. cbn [negb call no_fault id].
    eexists. split; [reflexivity|]. cbn [fs_disk fs_store fs_err fs_open set_open ticked has_segment].
    split; [|by split].
    rewrite Hd3, Hst3, Hd2, Hst2, Hd1, Hst1. cbn [s_call]. unfold Flush, Close.
    destruct (flushLocked (fs_disk s) (fs_store s)) as [d st]. cbn [fst snd].
    destruct (Rotate d st) as [d' st']. cbn [fst snd]. by destruct (flushLocked _ _).
Qed.

(** C19. A failed write to the log is final. From any reachable state of the
    store let the append of a command fail, at whatever system call and after
    whatever part of the bytes. What can then be recovered is the snapshot and a
    run of the commands appended so far, in order, with none left out before the
    last of them. If the writer has kept the error (a write failed, not the fsync
    alone), every later append, flush, compaction and the final snapshot fail too
    and never touch the directory again, even when the disk works again: nothing
    after that point is ever recovered, though the server goes on answering the
    commands as if they had been logged. *)
Theorem write_error_is_final fault fsync limits s c k e s' :
  sys_reachable fsync limits s -> logged_ok c ->
  f_Append fault c.1 c.2 (mkFS (s_disk s) k (s_store s) true None) = (inr e, s') ->
  (exists cmds lost, s_hist s ++ [c] = covered (s_installed s) ++ cmds ++ lost /\
    snapshot_held (fs_disk s') (s_installed s) /\ recovers (fs_disk s') cmds /\
    (fs_err s' = None -> lost = [])) /\
  (fs_err s' <> None -> forall fault' calls,
    run_calls fault' calls s' = (replicate (length calls) (Some e), s')).
Proof.
  intros Hr Hc Ha.
  pose proof Hr as (cmds & Hseg & Hh & Hok & Hokc & Hsnap & _)%sys_reachable_inv%sys_inv_split.
  destruct Hseg as (Hb & Hm & Hold & (f & Hf & Hfd) & Hdom).
  destruct (f_Append_failed fault c.1 c.2 (mkFS (s_disk s) k (s_store s) true None) e s') as (f0 & f' & rest & Hf0 & Hd & Hx & He); [|done|exact Ha|].
  { by exists f. }
  cbn [fs_disk fs_store] in Hf0, Hd, Hx. rewrite Hf in Hf0. injection Hf0 as <-. split.
  - destruct (recover_cut (fs_disk s') (s_installed s) (st_gen (s_store s)) cmds
      (cmds (st_gen (s_store s)) ++ [c]) f' rest) as (cs1 & cs2 & p & Ecs & Hl & _ & _ & Hrec);
      [|done|done|done| | |by rewrite Hd; apply lookup_set_segment| | |].
    + rewrite Hd. exact Hsnap.
    + apply Forall_app. split; [done|]. by apply Forall_singleton.
    + intros g Hg. rewrite Hd. cbn. rewrite lookup_insert_ne by lia. by apply Hold.
    + rewrite Hx, app_assoc, Hfd, encode_all_app. f_equal. symmetry. apply app_nil_r.
    + intros g Hg. rewrite Hd in Hg. cbn in Hg. apply lookup_insert_is_Some in Hg as [<-|[_ Hg]]; [lia|by apply Hdom].
    + eexists _, cs2. split; [|split; [by rewrite Hd|split; [exact Hrec|]]].
      * rewrite Hh, <- !app_assoc. do 2 f_equal. by rewrite <- Ecs.
      * intros Hn. rewrite Hn in He. by apply Hl.
  - intros Hn fault' calls. destruct (fs_err s') as [e'|] eqn:E; [subst e'|done]. by apply calls_stuck.
Qed.

#[local] Transparent bufferSize.

(** ** Witnesses *)

Lemma no_faults_is_store_witness :
  let s := mkFS (mkDisk None None {[0 := mkFile [] 0]}) 0 (mkStore FSyncAlways codec_limits 0 []) true None in
  exists s', f_call no_fault (CallAppend set_a) s = (inl tt, s') /\
    fs_disk s' = one_segment (encode set_a) 10 /\ fs_open s' = true.
Proof.
  intros s. destruct (no_faults_is_store (CallAppend set_a) s) as (s' & Hc & Heq & _ & _ & Ho).
  - split; [reflexivity|]. split; [reflexivity|]. by exists (mkFile [] 0).
  - exists s'. split; [exact Hc|]. split; [|exact Ho]. apply (f_equal fst) in Heq. exact Heq.
Defined.

(** The disk is full for the first write, of which it takes three bytes, and
    works from then on. *)
Definition full_once (k : nat) : option (nat * io_error) :=
  if bool_decide (k = 0)%nat then Some (3%nat, ErrOther (lit "no space left on device")) else None.

Lemma write_error_is_final_witness :
  exists s', f_Append full_once set_a.1 set_a.2
      (mkFS (s_disk (sys_init FSyncAlways codec_limits)) 0 (s_store (sys_init FSyncAlways codec_limits)) true None)
      = (inr (ErrOther (lit "no space left on device")), s') /\
    fs_disk s' = one_segment (take 3 (encode set_a)) 0 /\
    run_calls full_once [CallAppend set_b; CallCompact []; CallFinalize []] s'
    = (replicate 3 (Some (ErrOther (lit "no space left on device"))), s').
Proof.
  eexists. split; [reflexivity|]. split; [reflexivity|].
  apply (write_error_is_final full_once FSyncAlways codec_limits (sys_init FSyncAlways codec_limits) set_a 0
    (ErrOther (lit "no space left on device"))).
  - apply sys_start.
  - apply set_logged_ok.
  - reflexivity.
  - discriminate.
Defined.
