(* ===== verification/Names.v ===== *)
(** * internal/persistence: the names in the data directory

    Store keeps the log segments by their generation. The code keeps them by
    name: [segmentPath] prints the generation into the name of the file, and
    [highestSegment] scans every name of the directory with [fmt.Sscanf]. The two
    views agree on every directory that the program makes. *)

From S2P Require Import Prelude GoBinary Pack Float64 Skiplist.
From S2P Require Import ValueList ValueHash ValueSet ValueZSet Value Codec Store Strconv Resp.

(** ** Names (appendlog.go) *)

Definition snapshotName : bytes := lit "memcore.snapshot".
Definition appendName : bytes := lit "memcore.aof".

(** The name of a segment in the directory: [fmt.Sprintf("%s.%d", ...)]. *)
Definition segmentPath (gen : Z) : bytes := appendName ++ lit "." ++ FormatInt gen.

(** The name of the file a snapshot is written to before it is renamed. *)
Definition tmpName : bytes := snapshotName ++ lit ".tmp".

(** *** fmt.Sscanf with the format "memcore.aof.%d" *)

(** The literal part of the format has to be there. *)
Fixpoint scan_literal (p s : bytes) : option bytes :=
  match p, s with
  | [], s => Some s
  | a :: p, b :: s => if bool_decide (a = b) then scan_literal p s else None
  | _ :: _, [] => None
  end.

(** [SkipSpace] before a number; a newline is an error. *)
Fixpoint skip_space (s : bytes) (skip : nat) : option bytes :=
  match s with
  | [] => Some []
  | b :: s' =>
      match skip with
      | S skip => skip_space s' skip
      | O => if byte_val b =? 10 then None
             else match space_length s with O => Some s | S n => skip_space s' n end
      end
  end.

Definition accept_sign (s : bytes) : bytes * bytes :=
  match s with
  | b :: r => if (byte_val b =? 43) || (byte_val b =? 45) then ([b], r) else ([], s)
  | [] => ([], [])
  end.

Fixpoint accept_digits (s : bytes) : bytes :=
  match s with
  | b :: r => match digit_val b with Some _ => b :: accept_digits r | None => [] end
  | [] => []
  end.

(** The number scanned; what follows it in the name does not matter. *)
Definition Sscanf_gen (name : bytes) : option Z :=
  r ← scan_literal (appendName ++ lit ".") name;
  r ← skip_space r 0;
  let '(sign, r) := accept_sign r in
  let ds := accept_digits r in
  if bool_decide (ds = []) then None else ParseInt (sign ++ ds).

Definition scan_step (highest : Z) (name : bytes) : Z :=
  match Sscanf_gen name with
  | Some gen => if highest <? gen then gen else highest
  | None => highest
  end.

(** [highestSegment] over the names of the directory. *)
Definition highestSegment_names (entries : list bytes) : Z := foldl scan_step 0 entries.

(** The names of the files of a directory, in no particular order. *)
Definition dir_names (d : Disk) : list bytes :=
  match d_snapshot d with Some _ => [snapshotName] | None => [] end ++
  match d_tmp d with Some _ => [tmpName] | None => [] end ++
  map segmentPath (map_to_list (d_segments d)).*1.

(** ** Lemmas *)

Lemma scan_literal_app p s : scan_literal p (p ++ s) = Some s.
Proof. induction p as [|b p IH]; [done|]. cbn. by rewrite bool_decide_true. Qed.

Lemma digit_scans b s : is_digit b ->
  skip_space (b :: s) 0 = Some (b :: s) /\ accept_sign (b :: s) = ([], b :: s).
Proof.
  unfold is_digit. intros Hb. assert (space_length (b :: s) = 0%nat) as Hs.
  { unfold space_length. cbn [map]. assert (exists d, byte_val b = 48 + d /\ 0 <= d <= 9) as (d & -> & Hd)
      by (exists (byte_val b - 48); lia).
    assert (d = 0 \/ d = 1 \/ d = 2 \/ d = 3 \/ d = 4 \/ d = 5 \/ d = 6 \/ d = 7 \/ d = 8 \/ d = 9) as Hc by lia.
    repeat (destruct Hc as [->|Hc]; [done|]). by subst. }
  cbn [skip_space accept_sign]. rewrite Hs.
  rewrite (proj2 (Z.eqb_neq (byte_val b) 10)), (proj2 (Z.eqb_neq (byte_val b) 43)), (proj2 (Z.eqb_neq (byte_val b) 45))
    by lia. done.
Qed.

Lemma accept_digits_all s : Forall is_digit s -> accept_digits s = s.
Proof.
  induction 1 as [|b s Hb _ IH]; [done|]. cbn. unfold is_digit in Hb. unfold digit_val.
  rewrite (proj2 (Z.leb_le 0 (byte_val b - 48))), (proj2 (Z.leb_le (byte_val b - 48) 9)) by lia. cbn. by rewrite IH.
Qed.

Lemma FormatInt_digits n : 0 <= n -> Forall is_digit (FormatInt n).
Proof.
  intros Hn. unfold FormatInt. rewrite (proj2 (Z.ltb_ge n 0)) by lia. apply digits_all. constructor.
Qed.

(** A segment's name scans as its generation. *)
Lemma Sscanf_segment gen : 0 <= gen <= MaxInt64 -> Sscanf_gen (segmentPath gen) = Some gen.
Proof.
  intros Hg. unfold Sscanf_gen, segmentPath. rewrite (app_assoc appendName), scan_literal_app. cbn.
  pose proof (FormatInt_digits gen ltac:(lia)) as Hd. pose proof (FormatInt_nonempty gen) as Hne.
  pose proof (ParseInt_FormatInt gen) as Hp.
  destruct (FormatInt gen) as [|b s]; [done|]. destruct (digit_scans b s) as [-> Hs]; [by inversion Hd|].
  cbn [mbind option_bind]. rewrite Hs, accept_digits_all by done. rewrite bool_decide_false by done.
  cbn [app]. apply Hp. unfold is_int64, MinInt64, MaxInt64 in *. lia.
Qed.

Lemma scan_fold names : forall h, 0 <= h ->
  foldl scan_step h names = Z.max h (foldr Z.max 0 (omap Sscanf_gen names)).
Proof.
  induction names as [|n names IH]; intros h Hh; [cbn; lia|]. cbn [foldl omap list_omap]. unfold scan_step at 2.
  destruct (Sscanf_gen n) as [g|]; [|by apply IH]. cbn [foldr].
  destruct (Z.ltb_spec h g); rewrite IH by lia; lia.
Qed.

Lemma foldr_max_perm (l k : list Z) : l ≡ₚ k -> foldr Z.max 0 l = foldr Z.max 0 k.
Proof. induction 1; cbn; lia. Qed.

Lemma omap_segments gens :
  Forall (λ g, 0 <= g <= MaxInt64) gens -> omap Sscanf_gen (map segmentPath gens) = gens.
Proof.
  induction 1 as [|g gens Hg _ IH]; [done|]. cbn [map omap list_omap]. rewrite Sscanf_segment by done.
  f_equal. apply IH.
Qed.

(** ** Property *)

(** C31. Generations and names are the same thing. In a directory as the program
    makes it, listed in any order: scanning the names finds the highest
    generation that there is a segment for; different generations have different
    names, none of them a snapshot's; and a name scans as the generation it was
    printed from. *)
Theorem names_are_generations d names :
  (forall g, is_Some (d_segments d !! g) -> 0 <= g <= MaxInt64) -> names ≡ₚ dir_names d ->
  highestSegment_names names = highestSegment d /\ NoDup names /\
  (forall g, is_Some (d_segments d !! g) -> segmentPath g ∈ names /\ Sscanf_gen (segmentPath g) = Some g).
Proof.
  intros Hd Hn.
  assert (Forall (λ g, 0 <= g <= MaxInt64) (map_to_list (d_segments d)).*1) as HF.
  { apply Forall_fmap, Forall_forall. intros [g f] Hin%elem_of_map_to_list. apply Hd. by eexists. }
  assert (omap Sscanf_gen (dir_names d) = (map_to_list (d_segments d)).*1) as Ho.
  { unfold dir_names. rewrite !omap_app, omap_segments by done.
    by destruct (d_snapshot d), (d_tmp d). }
  split; [|split].
  - unfold highestSegment_names. rewrite scan_fold by lia. unfold highestSegment.
    rewrite <- Ho, (foldr_max_perm (omap Sscanf_gen names) (omap Sscanf_gen (dir_names d))) by by rewrite Hn.
    assert (forall l, 0 <= foldr Z.max 0 l) as H0 by (intros l; induction l; cbn; lia).
    rewrite Z.max_r; [done|apply H0].
  - rewrite Hn.
    assert (NoDup (map segmentPath (map_to_list (d_segments d)).*1)) as Hseg.
    { pose proof (NoDup_fst_map_to_list (d_segments d)) as Hnd. rewrite <- omap_segments in Hnd by done.
      clear -Hnd HF. induction HF as [|g gens Hg HF IH]; [constructor|]. cbn [map omap list_omap] in *.
      rewrite Sscanf_segment in Hnd by done. apply NoDup_cons in Hnd as [Hnin Hnd].
      constructor; [|by apply IH]. intros Hin. apply Hnin. apply list_elem_of_omap.
      exists (segmentPath g). split; [done|by apply Sscanf_segment]. }
    assert (forall n, n = snapshotName \/ n = tmpName -> n ∉ map segmentPath (map_to_list (d_segments d)).*1) as Hns.
    { intros n Hcase Hin. apply list_elem_of_In, in_map_iff in Hin as (g & <- & Hin).
      apply list_elem_of_In in Hin. rewrite Forall_forall in HF. specialize (HF g Hin).
      pose proof (Sscanf_segment g HF) as Hs. by destruct Hcase as [Hc|Hc]; rewrite Hc in Hs. }
    unfold dir_names. destruct (d_snapshot d), (d_tmp d); cbn [app].
    + apply NoDup_cons. split; [rewrite elem_of_cons; intros [[=]|Hin]; by apply Hns in Hin; [|left]|].
      apply NoDup_cons. split; [by apply Hns; right|done].
    + apply NoDup_cons. split; [by apply Hns; left|done].
    + apply NoDup_cons. split; [by apply Hns; right|done].
    + done.
  - intros g Hg. split; [|by apply Sscanf_segment, Hd]. rewrite Hn. unfold dir_names. apply elem_of_app. right.
    apply elem_of_app. right. apply list_elem_of_In, in_map, list_elem_of_In. destruct Hg as [f Hf].
    apply list_elem_of_fmap. exists (g, f). split; [done|]. by apply elem_of_map_to_list.
Qed.

Lemma names_are_generations_witness :
  highestSegment_names [segmentPath 2; snapshotName; segmentPath 10] = 10.
Proof.
  refine (proj1 (names_are_generations
    (mkDisk (Some (mkFile [] 0)) None (<[2 := mkFile [] 0]> {[10 := mkFile [] 0]})) _ _ _)).
  - intros g. unfold MaxInt64. cbn. rewrite lookup_insert_is_Some, lookup_singleton_is_Some. lia.
  - unfold dir_names. cbn [d_segments d_snapshot d_tmp app]. rewrite map_to_list_insert by done.
    rewrite map_to_list_singleton. apply perm_swap.
Defined.

(** A copy of a segment beside it counts as the segment's generation. *)
Lemma stray_name_scans : Sscanf_gen (segmentPath 7 ++ lit ".bak") = Some 7.
Proof. reflexivity. Qed.
