(* ===== verification/Flushed.v ===== *)
(** * What a flush has made safe

    Under the policies other than [always] the log is flushed by a timer
    ([runAppendLogFlush], server.go) and at shutdown. A power loss can then only
    take commands appended since the last flush, and of those only the last ones:
    what is recovered is a state the server was in, no older than the flush. *)

From S2P Require Import Prelude GoBinary Pack Float64 Skiplist.
From S2P Require Import ValueList ValueHash ValueSet ValueZSet Value Codec Store.

(** The state after appending [cs]. *)
Definition sys_after_appends (cs : list logged) (s : Sys) : Sys := foldl (λ s c, sys_after_append c s) s cs.

(** ** Lemmas *)

Lemma bufio_Write_grows f buf p f' buf' :
  bufio_Write (f, buf) p = (f', buf') -> (length (f_data f) <= length (f_data f'))%nat.
Proof.
  unfold bufio_Write. repeat case_bool_decide; intros [= <- _]; unfold file_append; cbn [f_data];
    rewrite ?length_app; lia.
Qed.

Lemma bufio_writes_grow ps : forall f buf f' buf',
  foldl bufio_Write (f, buf) ps = (f', buf') -> (length (f_data f) <= length (f_data f'))%nat.
Proof.
  induction ps as [|p ps IH]; intros f buf f' buf' H; cbn [foldl] in H; [by injection H as <- _|].
  destruct (bufio_Write (f, buf) p) as [f1 buf1] eqn:E1.
  apply bufio_Write_grows in E1. apply IH in H. lia.
Qed.

(** The open segment [gen] of [d] with the buffer [buf] behind it holds the
    commands [cs], of which at least [n] bytes are synced. *)
Definition holds (d : Disk) (gen : Z) (buf : bytes) (cs : list logged) (n : nat) : Prop :=
  exists f, d_segments d !! gen = Some f /\ f_data f ++ buf = encode_all cs /\
    (n <= f_synced f <= length (f_data f))%nat.

(** The directories agree except on the open segment. *)
Definition same_rest (gen : Z) (d d' : Disk) : Prop :=
  d_snapshot d' = d_snapshot d /\ forall g, g <> gen -> d_segments d' !! g = d_segments d !! g.

Lemma append_holds c s cs n :
  let s' := sys_after_append c s in
  holds (s_disk s) (st_gen (s_store s)) (st_buf (s_store s)) cs n ->
  holds (s_disk s') (st_gen (s_store s')) (st_buf (s_store s')) (cs ++ [c]) n /\
  st_gen (s_store s') = st_gen (s_store s) /\ s_installed s' = s_installed s /\ s_hist s' = s_hist s ++ [c] /\
  same_rest (st_gen (s_store s)) (s_disk s) (s_disk s').
Proof.
  intros s' (f & Hf & Hd & Hn). unfold s', sys_after_append, Append.
  rewrite (active_lookup _ _ f Hf). destruct (foldl _ _ _) as [f1 buf1] eqn:E1.
  pose proof (bufio_writes_grow _ _ _ _ _ E1) as Hg. apply bufio_writes_spec in E1 as [E1 Hs].
  rewrite command_writes_concat, app_assoc, Hd in E1.
  assert (f_data f1 ++ buf1 = encode_all (cs ++ [c])) as Hd1.
  { rewrite encode_all_app, E1. f_equal. unfold encode_all. cbn. by rewrite app_nil_r. }
  case_bool_decide; cbn [s_disk s_store s_installed s_hist st_gen st_buf set_gen_buf flushLocked].
  - unfold active, set_active, set_segment. cbn [d_segments d_snapshot st_gen st_buf set_gen_buf]. rewrite lookup_insert_eq.
    cbn [default]. split; [|split_and!; try done; split; [done|]; intros g Hne; cbn; by rewrite !lookup_insert_ne].
    eexists. split; [apply lookup_insert_eq|]. unfold file_sync, file_append. cbn [f_data f_synced].
    rewrite app_nil_r, length_app. split; [exact Hd1|unfold id; lia].
  - split; [|split_and!; try done; split; [done|]; intros g Hne; cbn; by rewrite lookup_insert_ne].
    exists f1. split; [apply lookup_insert_eq|]. split; [exact Hd1|lia].
Qed.

Lemma appends_hold cs : forall s cs0 n,
  let s' := sys_after_appends cs s in
  holds (s_disk s) (st_gen (s_store s)) (st_buf (s_store s)) cs0 n ->
  holds (s_disk s') (st_gen (s_store s')) (st_buf (s_store s')) (cs0 ++ cs) n /\
  st_gen (s_store s') = st_gen (s_store s) /\ s_installed s' = s_installed s /\ s_hist s' = s_hist s ++ cs /\
  same_rest (st_gen (s_store s)) (s_disk s) (s_disk s').
Proof.
  induction cs as [|c cs IH]; intros s cs0 n s' Hh.
  { unfold s'. cbn. rewrite !app_nil_r. by split_and!. }
  destruct (append_holds c s cs0 n Hh) as (H1 & G1 & I1 & T1 & [S1 R1]).
  destruct (IH _ _ _ H1) as (H2 & G2 & I2 & T2 & [S2 R2]). unfold s'. cbn [sys_after_appends foldl].
  fold (sys_after_appends cs (sys_after_append c s)). rewrite (cons_middle c cs0 cs), (cons_middle c (s_hist s) cs), !app_assoc.
  split_and!; [exact H2|congruence|congruence|congruence|]. split; [congruence|].
  intros g Hg. rewrite R2, R1; congruence.
Qed.

(** Cutting a log at or after the end of its first commands keeps them. *)
Lemma cut_keeps a b cs1 cs2 p :
  a ++ b = cs1 ++ cs2 -> cut_of p cs2 -> (length (encode_all a) <= length (encode_all cs1 ++ p))%nat ->
  exists b1 b2, cs1 = a ++ b1 /\ b = b1 ++ b2.
Proof.
  intros He Hcut Hlen. apply app_eq_inv in He as [(k & -> & ->)|(k & -> & ->)]; [|by exists k, cs2].
  destruct k as [|c k].
  { exists [], b. by rewrite !app_nil_r. }
  exfalso. destruct Hcut as [[_ [=]]|(c' & cs & q & [= <- <-] & Hq & Hne)].
  rewrite encode_all_app, !length_app in Hlen. unfold encode_all in Hlen at 2. cbn [map concat] in Hlen.
  rewrite Hq, !length_app in Hlen. destruct q; [done|]. cbn in Hlen. lia.
Qed.

(** ** Property *)

(** C9. A power loss takes only the tail of what was appended after a flush. Under
    any policy, from any reachable state whose rotated segments are synced (as
    they are when no compaction is under way), the log is flushed, commands [cs]
    are appended, and the power fails, taking any part of what was not fsynced.
    Then the snapshot and the log that are left hold every command from before the
    flush, and after them a first part of [cs]. *)
Theorem flushed_survives fsync limits s cs d' :
  sys_reachable fsync limits s -> Forall logged_ok cs ->
  (forall g f, base_gen (s_installed s) <= g < st_gen (s_store s) -> d_segments (s_disk s) !! g = Some f ->
    f_synced f = length (f_data f)) ->
  disk_crash (s_disk (sys_after_appends cs (sys_after_flush s))) d' ->
  exists cmds cs1 cs2, cs = cs1 ++ cs2 /\
    s_hist s ++ cs1 = covered (s_installed s) ++ cmds /\
    snapshot_held d' (s_installed s) /\ recovers d' cmds.
Proof.
  intros Hr Hcs Hsy Hcr. set (s1 := sys_after_flush s) in *.
  assert (sys_reachable fsync limits s1) as Hr1 by by apply reach_flush.
  pose proof Hr1 as (cmds & Hseg & Hh & Hok & Hokc & Hsnap & _)%sys_reachable_inv%sys_inv_split.
  destruct Hseg as (Hb & Hm & Hold & (f & Hf & Hfd) & Hdom).
  set (gen := st_gen (s_store s1)) in *. change (s_installed s1) with (s_installed s) in *.
  assert (f_synced f = length (f_data f)) as Hsf.
  { revert Hf. unfold s1, gen. cbn. rewrite lookup_insert_eq. by intros [= <-]. }
  assert (holds (s_disk s1) gen (st_buf (s_store s1)) (cmds gen) (length (encode_all (cmds gen)))) as Hh1.
  { exists f. split_and!; [exact Hf|exact Hfd| |lia]. rewrite Hsf, <- Hfd. cbn. by rewrite app_nil_r. }
  destruct (appends_hold cs s1 _ _ Hh1) as ((f2 & Hf2 & Hd2 & Hn2) & G2 & I2 & T2 & [S2 R2]).
  set (s2 := sys_after_appends cs s1) in *. rewrite G2 in Hf2.
  assert (snapshot_held d' (s_installed s)) as Hsnap'.
  { eapply crash_snapshot; [exact Hcr|]. unfold snapshot_held in *. by rewrite S2. }
  destruct (crash_lookup _ _ _ _ Hcr Hf2) as (f' & Hf' & (n & Hn & ->)).
  destruct (recover_cut d' (s_installed s) gen cmds (cmds gen ++ cs) (mkFile (take n (f_data f2)) n)
    (drop n (f_data f2) ++ st_buf (s_store s2))) as (cs1 & cs2 & p & Ecs & _ & Ef & Hcut & Hrec);
    [done|done|done|done|by apply Forall_app| |done| | |].
  - eapply (crash_old (s_disk s2)); [exact Hcr| |]; intros g; [intros f0|]; intros Hg; rewrite R2 by lia; [|by apply Hold].
    unfold s1. cbn. rewrite lookup_insert_ne by (unfold gen, s1 in Hg; cbn in Hg; lia). by apply Hsy.
  - cbn [f_data]. by rewrite app_assoc, take_drop.
  - intros g Hg. apply (crash_dom _ _ _ Hcr) in Hg. destruct (decide (g = gen)) as [->|Hne]; [lia|].
    rewrite R2 in Hg by done. by apply Hdom.
  - destruct (cut_keeps _ _ _ _ _ Ecs Hcut) as (b1 & b2 & -> & Hcs2).
    { cbn [f_data] in Ef. rewrite <- Ef, length_take. lia. }
    eexists _, b1, b2. split; [exact Hcs2|]. split; [|split; [exact Hsnap'|exact Hrec]].
    change (s_hist s) with (s_hist s1). rewrite Hh. by rewrite <- !app_assoc.
Qed.

(** SET a 1 is flushed, SET b 2 is not. *)
Lemma flushed_survives_witness :
  exists cmds cs1 cs2, [set_b] = cs1 ++ cs2 /\ [set_a] ++ cs1 = [] ++ cmds /\
    recovers (one_segment (encode set_a) 10) cmds.
Proof.
  destruct (flushed_survives FSyncEverySec codec_limits (sys_after_append set_a (sys_init FSyncEverySec codec_limits))
    [set_b] (one_segment (encode set_a) 10)) as (cmds & cs1 & cs2 & Hc & Hh & _ & Hr).
  - apply reach_append; [apply set_logged_ok|apply sys_start].
  - apply Forall_singleton, set_logged_ok.
  - intros g f Hg. change (0 <= g < 0) in Hg. lia.
  - split; [constructor|]. split; [constructor|]. intros g.
    assert (d_segments (s_disk (sys_after_appends [set_b] (sys_after_flush (sys_after_append set_a
      (sys_init FSyncEverySec codec_limits))))) = {[0 := mkFile (encode set_a) 10]}) as -> by reflexivity.
    unfold one_segment. cbn [d_segments].
    destruct (decide (g = 0)) as [->|Hg]; [|rewrite !lookup_singleton_ne by done; constructor].
    rewrite !lookup_singleton_eq. constructor. exists 10%nat. split; [vm_compute; lia|reflexivity].
  - exists cmds, cs1, cs2. exact (conj Hc (conj Hh Hr)).
Defined.
