(* ===== verification/ServerLocks.v ===== *)
(** * The locks of the server

    The lock helpers of internal/shard/shard.go, the acquisitions of
    [execute] and [lockShards] (internal/server/conn.go), of [compact] and
    [lockAllDatabases] (internal/server/server.go), of an expiry pass and of the
    store's methods, as plans of Locking. Every plan is in the global order, so
    the whole server is free of deadlock; a command's plan covers the keys it
    declares, so commands that run at the same time commute. *)

From S2P Require Import Prelude Pack Float64 Skiplist ValueList ValueHash ValueSet ValueZSet.
From S2P Require Import GoTime Value Keyspace Shard Locking Strconv Resp Config Command Session.
From S2P Require Import CommandSpec CollectionSpec Registry Locality.

(** ** The lock helpers (shard.go), for database number [d] *)

Definition LockAt (d i : Z) : plan := [(Wr, ShardLock d i)].
Definition RLockAt (d i : Z) : plan := [(Rd, ShardLock d i)].

Definition LockAll (d : Z) (db : DB) : plan :=
  (λ i, (Wr, ShardLock d i)) <$> seqZ 0 (len (shards db)).

Section Plans.
Context (maphash : bytes -> Z).

Definition LockKeys (d : Z) (db : DB) (keys : list bytes) : plan :=
  (λ i, (Wr, ShardLock d i)) <$> shardSet maphash db keys.

Definition RLockKeys (d : Z) (db : DB) (keys : list bytes) : plan :=
  (λ i, (Rd, ShardLock d i)) <$> shardSet maphash db keys.

(** ** The sections of the server *)

Definition lockShards (d : Z) (db : DB) (cm : Command) (args : list bytes) : outcome plan :=
  if cmd_wholeDB cm then Ret (LockAll d db)
  else if cmd_readOnly cm then ks ← Command_Keys cm args; Ret (RLockKeys d db ks)
  else ks ← Command_Keys cm args; Ret (LockKeys d db ks).

(** The shard locks [execute] takes: one shard on the fast path. *)
Definition execute_locks (d : Z) (db : DB) (cm : Command) (args : list bytes) : outcome plan :=
  if SingleKey cm && (1 <? len args) then
    key ← index args 1;
    let sh := ShardOf maphash db key in
    Ret (if cmd_readOnly cm then RLockAt d sh else LockAt d sh)
  else lockShards d db cm args.

(** [Store.mu], which every method of the store takes for its duration. *)
Definition store_lock : plan := [(Wr, LogLock)].

(** [for i, db := range s.databases { unlocks[i] = db.LockAll() }]. *)
Fixpoint lock_databases (d : Z) (dbs : list DB) : plan :=
  match dbs with
  | [] => []
  | db :: dbs => LockAll d db ++ lock_databases (d + 1) dbs
  end.

Definition lockAllDatabases (dbs : list DB) : plan := lock_databases 0 dbs.

(** What a goroutine of the server acquires from holding nothing until it holds
    nothing again: a command, with the append that some writes make under its
    locks; a capture with its rotation; a shard of an expiry pass; and a store
    method called with no lock held (the flush timer, [NextGen], [Close], the
    removals of [InstallSnapshot]). *)
Inductive server_section (dbs : list DB) : plan -> Prop :=
  | sec_execute d db cm args appends p :
      dbs !! Z.to_nat d = Some db -> 0 <= d -> execute_locks d db cm args = Ret p ->
      server_section dbs (p ++ if appends : bool then store_lock else [])
  | sec_compact : server_section dbs (lockAllDatabases dbs ++ store_lock)
  | sec_expire d i : server_section dbs (LockAt d i)
  | sec_store : server_section dbs store_lock.

(** ** Lemmas: order *)

Lemma ascending_app p q :
  ascending p -> ascending q ->
  (forall a b, a ∈ p.*2 -> b ∈ q.*2 -> lock_ltb a b = true) -> ascending (p ++ q).
Proof.
  unfold ascending. rewrite fmap_app. intros Hp Hq H. induction Hp as [|a l Hl IH Ha]; [done|].
  simpl. constructor.
  - apply IH. intros x y Hx. apply H. by right.
  - apply Forall_app. split; [done|]. apply Forall_forall. intros b Hb. apply H; [left|done].
Qed.

Lemma ascending_nil : ascending [].
Proof. constructor. Qed.

(** Shards of one database in ascending order. *)
Lemma ascending_shards (m : mode) (d : Z) (js : list Z) :
  StronglySorted Z.lt js -> ascending ((λ i, (m, ShardLock d i)) <$> js).
Proof.
  unfold ascending. induction 1 as [|i js _ IH Hi]; simpl; constructor; [done|].
  rewrite !Forall_fmap. eapply Forall_impl; [exact Hi|]. intros j Hj. simpl.
  rewrite Z.eqb_refl, Z.ltb_irrefl. simpl. by apply Z.ltb_lt.
Qed.

Lemma seqZ_sorted (m n : Z) : StronglySorted Z.lt (seqZ m n).
Proof.
  destruct (decide (0 <= n)) as [Hn|Hn]; [|rewrite seqZ_nil by lia; constructor].
  revert m. pattern n. apply natlike_ind; [intros m; constructor| |done]. clear n Hn.
  intros n Hn IH m. rewrite seqZ_cons by lia. constructor.
  - rewrite Z.pred_succ. apply IH.
  - apply Forall_seqZ. intros. lia.
Qed.

Lemma store_lock_last p :
  ascending p -> (forall a, a ∈ p.*2 -> exists d i, a = ShardLock d i) -> ascending (p ++ store_lock).
Proof.
  intros Hp Hs. apply ascending_app; [done|repeat constructor|].
  intros a b Ha ->%list_elem_of_singleton. by destruct (Hs a Ha) as (d & i & ->).
Qed.

Lemma lock_databases_above d dbs a :
  a ∈ (lock_databases d dbs).*2 -> exists d' i, a = ShardLock d' i /\ d <= d'.
Proof.
  revert d. induction dbs as [|db dbs IH]; intros d; simpl; [by rewrite elem_of_nil|].
  rewrite fmap_app, elem_of_app. intros [Ha|Ha].
  - unfold LockAll in Ha. rewrite <- list_fmap_compose in Ha.
    apply list_elem_of_fmap in Ha as (i & -> & _). exists d, i. split; [done|lia].
  - destruct (IH _ Ha) as (d' & i & -> & ?). exists d', i. split; [done|lia].
Qed.

Lemma lock_databases_ascending d dbs : ascending (lock_databases d dbs).
Proof.
  revert d. induction dbs as [|db dbs IH]; intros d; simpl; [constructor|].
  apply ascending_app; [apply ascending_shards, seqZ_sorted|apply IH|].
  intros a b Ha Hb. destruct (lock_databases_above _ _ _ Hb) as (d' & j & -> & ?).
  unfold LockAll in Ha. rewrite <- list_fmap_compose in Ha.
  apply list_elem_of_fmap in Ha as (i & -> & _). simpl. by rewrite (proj2 (Z.ltb_lt _ _)) by lia.
Qed.

(** The shard locks of a command. *)
Lemma execute_locks_shape d db cm args p :
  execute_locks d db cm args = Ret p ->
  exists m js, p = (λ i, (m, ShardLock d i)) <$> js /\ StronglySorted Z.lt js.
Proof.
  unfold execute_locks, lockShards. destruct (SingleKey cm && (1 <? len args)).
  { destruct (index args 1) as [key| |]; [|done..]. orun. intros [= <-].
    destruct (cmd_readOnly cm); by eexists _, [_]; split; [reflexivity|repeat constructor]. }
  destruct (cmd_wholeDB cm).
  { intros [= <-]. eexists _, _. split; [reflexivity|]. apply seqZ_sorted. }
  destruct (cmd_readOnly cm), (Command_Keys cm args) as [ks| |]; try done; orun; intros [= <-];
    eexists _, _; (split; [reflexivity|]); apply shardSet_sorted.
Qed.

Lemma shard_locks_only (m : mode) (d : Z) (js : list Z) a :
  a ∈ ((λ i, (m, ShardLock d i)) <$> js).*2 -> exists d i, a = ShardLock d i.
Proof. rewrite <- list_fmap_compose. intros (i & -> & _)%list_elem_of_fmap. by exists d, i. Qed.

Lemma server_section_ascending dbs p : server_section dbs p -> ascending p.
Proof.
  destruct 1 as [d db cm args appends p _ _ Hp| |d i|].
  - destruct (execute_locks_shape _ _ _ _ _ Hp) as (m & js & -> & Hjs).
    destruct appends; [|rewrite app_nil_r; by apply ascending_shards].
    apply store_lock_last; [by apply ascending_shards|]. apply shard_locks_only.
  - apply store_lock_last; [apply lock_databases_ascending|].
    intros a (d & i & -> & _)%lock_databases_above. by exists d, i.
  - repeat constructor.
  - repeat constructor.
Qed.

(** ** Lemmas: what a plan covers *)

(** The mode in which a command holds its shards. *)
Definition lock_mode (cm : Command) : mode := if cmd_readOnly cm then Rd else Wr.

(** The fast path locks what the general path would. *)
Lemma fast_path_general d db cm args : execute_locks d db cm args = lockShards d db cm args.
Proof.
  unfold execute_locks. destruct (SingleKey cm && (1 <? len args)) eqn:E; [|done].
  apply andb_true_iff in E as [Hsk Hl%Z.ltb_lt]. unfold SingleKey in Hsk.
  apply andb_true_iff in Hsk as [Hsk Hw%negb_true_iff]. apply andb_true_iff in Hsk as [Hsk Hs%Z.eqb_eq].
  apply andb_true_iff in Hsk as [Hf%Z.eqb_eq Hk%Z.eqb_eq].
  destruct args as [|a [|key rest]]; [done|done|].
  unfold lockShards. rewrite Hw, Keys_one by done. orun. by destruct (cmd_readOnly cm).
Qed.

Lemma execute_locks_keys d db cm args ks :
  cmd_wholeDB cm = false -> Command_Keys cm args = Ret ks ->
  execute_locks d db cm args
  = Ret ((λ i, (lock_mode cm, ShardLock d i)) <$> shardSet maphash db ks).
Proof.
  intros Hw Hk. rewrite fast_path_general. unfold lockShards, lock_mode. rewrite Hw, Hk.
  by destruct (cmd_readOnly cm).
Qed.

(** Every declared key's shard is in the plan. *)
Lemma elem_of_key_plan (m : mode) (d : Z) (db : DB) (ks : list bytes) (k : bytes) :
  k ∈ ks -> (m, ShardLock d (ShardOf maphash db k)) ∈ (λ i, (m, ShardLock d i)) <$> shardSet maphash db ks.
Proof.
  intros Hk. apply list_elem_of_fmap. exists (ShardOf maphash db k). split; [done|].
  apply elem_of_shardSet. by exists k.
Qed.

(** ** Lemmas: commands on different keys commute *)

Lemma disjoint_commute (spec1 spec2 : aspec) (args1 args2 ks1 ks2 : list bytes) :
  local ks1 spec1 args1 -> local ks2 spec2 args2 -> (forall k, k ∈ ks1 -> k ∈ ks2 -> False) ->
  forall t1 t2 u1 u2 (A : astore) r1 (A1 : astore) r2 (A2 : astore),
    spec1 t1 t2 args1 A r1 A1 -> spec2 u1 u2 args2 A1 r2 A2 ->
    exists B, spec2 u1 u2 args2 A r2 B /\ spec1 t1 t2 args1 B r1 A2.
Proof.
  intros Hl1 Hl2 Hd t1 t2 u1 u2 A r1 A1 r2 A2 H1 H2.
  destruct (Hl1 _ _ _ _ _ H1) as [Hout1 Hin1]. destruct (Hl2 _ _ _ _ _ H2) as [Hout2 Hin2].
  destruct (Hin2 A) as (B & HB & HBin & HBout).
  { intros k Hk. symmetry. apply Hout1. intros Hk'. by eapply Hd. }
  destruct (Hin1 B) as (C & HC & HCin & HCout).
  { intros k Hk. apply HBout. intros Hk'. by eapply Hd. }
  exists B. split; [done|]. assert (C = A2) as ->; [|done]. apply map_eq. intros k.
  destruct (decide (k ∈ ks1)) as [Hk|Hk].
  - rewrite HCin by done. symmetry. apply Hout2. intros Hk'. by eapply Hd.
  - rewrite HCout by done. destruct (decide (k ∈ ks2)) as [Hk'|Hk']; [by apply HBin|].
    rewrite HBout, Hout2 by done. symmetry. by apply Hout1.
Qed.

(** ** Properties *)

(** C10. The server never deadlocks. Any number of goroutines that run commands (single-key, multi-key and
    whole-database, read or write, with or without an append to the log),
    compactions, expiry passes and store calls in any interleaving: whenever one
    of them is inside a section, some goroutine can take its next step, even
    though a waiting writer keeps later readers out. *)
Theorem server_deadlock_free dbs n s :
  reachable (server_section dbs) n s -> Exists busy s -> progress s.
Proof. apply deadlock_free. intros p Hp. by eapply server_section_ascending. Qed.

(** What runs at the same time commutes. Take any reachable state of the
    server's goroutines in which two of them hold the shard locks of two data
    commands on the same database. Whatever the first does to the store and
    whatever the second then does, they could have run in the other order with
    the same replies and the same store in the end: each command runs as if
    alone. *)
Lemma concurrent_commands_commute parseFloat formatFloat quote E
    dbs n s i j gi gj d db cm1 pre1 spec1 args1 p1 cm2 pre2 spec2 args2 p2 :
  let commands := all_commands maphash parseFloat formatFloat quote E in
  let meaning := meanings parseFloat formatFloat in
  reachable (server_section dbs) n s -> i <> j ->
  s !! i = Some gi -> s !! j = Some gj ->
  cm1 ∈ commands -> (cmd_name cm1, (pre1, spec1)) ∈ meaning ->
  arity_ok (cmd_arity cm1) (len args1) -> cmd_wholeDB cm1 = false ->
  execute_locks d db cm1 args1 = Ret p1 -> p1 ⊆ g_held gi ->
  cm2 ∈ commands -> (cmd_name cm2, (pre2, spec2)) ∈ meaning ->
  arity_ok (cmd_arity cm2) (len args2) -> cmd_wholeDB cm2 = false ->
  execute_locks d db cm2 args2 = Ret p2 -> p2 ⊆ g_held gj ->
  forall t1 t2 u1 u2 (A : astore) r1 (A1 : astore) r2 (A2 : astore),
    spec1 t1 t2 args1 A r1 A1 -> spec2 u1 u2 args2 A1 r2 A2 ->
    exists B, spec2 u1 u2 args2 A r2 B /\ spec1 t1 t2 args1 B r1 A2.
Proof.
  intros commands meaning Hr Hij Hi Hj Hc1 Hm1 Ha1 Hw1 Hp1 Hh1 Hc2 Hm2 Ha2 Hw2 Hp2 Hh2.
  assert (exclusive s) as Hex.
  { eapply mutual_exclusion; [|exact Hr]. intros p Hp. by eapply server_section_ascending. }
  pose proof (table_covered maphash parseFloat formatFloat quote E) as Ht.
  destruct (table_at maphash parseFloat formatFloat quote E (λ cm x, covered cm x.2)
    cm1 (pre1, spec1) Ht Hc1 Hm1 args1 Ha1 Hw1) as (ks1 & Hk1 & Hl1 & Hro1).
  destruct (table_at maphash parseFloat formatFloat quote E (λ cm x, covered cm x.2)
    cm2 (pre2, spec2) Ht Hc2 Hm2 args2 Ha2 Hw2) as (ks2 & Hk2 & Hl2 & Hro2). clear Ht.
  rewrite (execute_locks_keys _ _ _ _ _ Hw1 Hk1) in Hp1. injection Hp1 as <-.
  rewrite (execute_locks_keys _ _ _ _ _ Hw2 Hk2) in Hp2. injection Hp2 as <-.
  destruct (cmd_readOnly cm1 && cmd_readOnly cm2) eqn:Ero.
  { apply andb_true_iff in Ero as [Er1 Er2]. intros t1 t2 u1 u2 A r1 A1 r2 A2 H1 H2.
    pose proof (Hro1 Er1 _ _ _ _ _ H1) as ->. pose proof (Hro2 Er2 _ _ _ _ _ H2) as ->. by exists A. }
  apply (disjoint_commute _ _ _ _ ks1 ks2); [exact Hl1|exact Hl2|].
  intros k Hin1 Hin2. apply Hij.
  pose proof (Hh1 _ (elem_of_key_plan (lock_mode cm1) d db ks1 k Hin1)) as G1.
  pose proof (Hh2 _ (elem_of_key_plan (lock_mode cm2) d db ks2 k Hin2)) as G2.
  unfold lock_mode in G1, G2. destruct (cmd_readOnly cm1), (cmd_readOnly cm2); try discriminate Ero.
  - symmetry. eapply Hex; eexists; (split; [eassumption|]); [exact G2|exact G1].
  - eapply Hex; eexists; (split; [eassumption|]); [exact G1|exact G2].
  - eapply Hex; eexists; (split; [eassumption|]); [exact G1|exact G2].
Qed.
End Plans.

(** ** Witnesses

    A server with one database of two shards; goroutine 0 runs SET a 1 and
    goroutine 1 runs SET bb 2, on different shards. *)

Definition locks_db : DB := Shard_New 2.

Definition set_on (key val : string) : list bytes := [lit "SET"; lit key; lit val].

Definition example_set : Command := writeKey "set" 3 (cmdSet len_hash).

Definition held_example : system :=
  [mkG [(Wr, ShardLock 0 1)] [] false; mkG [(Wr, ShardLock 0 0)] [] false].

Lemma set_section key val i :
  execute_locks len_hash 0 locks_db example_set (set_on key val) = Ret (LockAt 0 i) ->
  server_section len_hash [locks_db] (LockAt 0 i).
Proof.
  intros Hp. rewrite <- (app_nil_r (LockAt 0 i)).
  exact (sec_execute len_hash [locks_db] 0 locks_db example_set (set_on key val) false _
    eq_refl (Z.le_refl 0) Hp).
Qed.

Lemma held_example_reachable : reachable (server_section len_hash [locks_db]) 2 held_example.
Proof.
  assert (server_section len_hash [locks_db] (LockAt 0 1)) as H1
    by (apply (set_section "a" "1"); reflexivity).
  assert (server_section len_hash [locks_db] (LockAt 0 0)) as H0
    by (apply (set_section "bb" "2"); reflexivity).
  eapply rtc_l; [by apply (step_enter _ _ 0 (LockAt 0 1))|].
  eapply rtc_l; [by eapply (step_queue _ _ 0)|].
  eapply rtc_l; [eapply (step_lock _ _ 0); [done|]|].
  { intros [|[|j]] m (g & Hg & Hin); simplify_eq/=; by apply elem_of_nil in Hin. }
  eapply rtc_l; [by apply (step_enter _ _ 1 (LockAt 0 0))|].
  eapply rtc_l; [by eapply (step_queue _ _ 1)|].
  eapply rtc_l; [eapply (step_lock _ _ 1); [done|]|apply rtc_refl].
  intros [|[|j]] m (g & Hg & Hin); simplify_eq/=; [|by apply elem_of_nil in Hin].
  by apply list_elem_of_singleton in Hin.
Qed.

Lemma server_deadlock_free_witness : Exists busy held_example /\ progress held_example.
Proof.
  assert (Exists busy held_example) as Hb by (left; discriminate).
  split; [exact Hb|].
  exact (server_deadlock_free len_hash [locks_db] 2 held_example held_example_reachable Hb).
Defined.
