(* ===== verification/Server.v ===== *)
(** * internal/server: running commands, logging them, recovering

    [Server] with [execute], [dispatch] and [persistArgs] of conn.go, and the
    persistence side of server.go: recovery at start, compaction, shutdown. The
    locks a call takes are in ServerLocks, so a call is one step here; what the
    log says is a field. The data directory [sv_disk] belongs to the state, since
    the store writes to it. *)

From S2P Require Import Prelude GoBinary Pack Float64 Skiplist ValueList ValueHash ValueSet ValueZSet.
From S2P Require Import GoTime Value Keyspace Shard Strconv Resp Config Command Session.
From S2P Require Import CommandSpec CollectionSpec Registry Locality Codec Store Locking ServerLocks.

(** ** State *)

(** What the metrics recorder is told. *)
Inductive metric :=
  | ObserveCommand (name : bytes) (d : Duration) (isError : bool)
  | ConnectionOpened
  | ConnectionClosed.

(** A slow-log line. *)
Record slow_line := mkSlow {
  slow_command : bytes; slow_args : Z; slow_duration : Duration; slow_db : Z }.

(** [sv_metrics] is [None] for a nil recorder; [sv_reaper] is the channel's
    queue; [sv_tick] counts the questions put to the environment. *)
Record Server := mkServer {
  sv_registry : gmap bytes Command;
  sv_settings : Settings;
  sv_metrics : option (list metric);
  sv_databases : list DB;
  sv_limits : Limits;
  sv_reaper : list Value;
  sv_persist : option Store;
  sv_persistCfg : Persistence;
  sv_disk : Disk;
  sv_slow : list slow_line;
  sv_tick : nat }.

(** The reaper queue: a full one drops the value. *)
Definition reaperBuffer : Z := 1024.
Definition reapAsync (queue : list Value) (v : Value) : list Value :=
  if len queue <? reaperBuffer then queue ++ [v] else queue.

(** One receive of [runReaper]. *)
Definition runReaper (queue : list Value) : list Value := tail queue.

Definition Server_New (cfg : Config) (registry : gmap bytes Command) (disk : Disk) : outcome Server :=
  _ ← make_slice (Net_Databases (cfg_Network cfg)) 8;
  if Net_Databases (cfg_Network cfg) <? 0 then Panic MakeSliceLen else
  Ret (mkServer registry
    (mkReloadable (Met_SlowThreshold (cfg_Metrics cfg)) (Exp_SamplePerShard (cfg_Expiry cfg))
       (0 <? Met_SlowThreshold (cfg_Metrics cfg)))
    None
    (replicate (Z.to_nat (Net_Databases (cfg_Network cfg)))
       (SetReaper (Shard_New (Net_Shards (cfg_Network cfg)))))
    (cfg_Limits cfg) [] None (cfg_Persistence cfg) disk [] 0).

Definition SetRecorder (s : Server) : Server :=
  mkServer (sv_registry s) (sv_settings s) (Some []) (sv_databases s) (sv_limits s) (sv_reaper s)
    (sv_persist s) (sv_persistCfg s) (sv_disk s) (sv_slow s) (sv_tick s).

Definition set_store (s : Server) (d : Disk) (st : option Store) : Server :=
  mkServer (sv_registry s) (sv_settings s) (sv_metrics s) (sv_databases s) (sv_limits s) (sv_reaper s)
    st (sv_persistCfg s) d (sv_slow s) (sv_tick s).

Definition record_metric (s : Server) (m : metric) : Server :=
  mkServer (sv_registry s) (sv_settings s) ((λ ms, ms ++ [m]) <$> sv_metrics s) (sv_databases s)
    (sv_limits s) (sv_reaper s) (sv_persist s) (sv_persistCfg s) (sv_disk s) (sv_slow s) (sv_tick s).

Definition log_slow (s : Server) (l : slow_line) : Server :=
  mkServer (sv_registry s) (sv_settings s) (sv_metrics s) (sv_databases s) (sv_limits s) (sv_reaper s)
    (sv_persist s) (sv_persistCfg s) (sv_disk s) (sv_slow s ++ [l]) (sv_tick s).

(** A connection's session, at database [idx], for one command; and the server
    after it. *)
Definition session (s : Server) (idx : Z) : CmdContext :=
  mkCtx (sv_databases s) idx (sv_limits s) (Some (sv_settings s)) (sv_tick s) [].

Definition absorb (s : Server) (c : CmdContext) : Server :=
  mkServer (sv_registry s) (default (sv_settings s) (c_settings c)) (sv_metrics s) (c_databases c)
    (sv_limits s) (foldl reapAsync (sv_reaper s) (c_reaped c)) (sv_persist s) (sv_persistCfg s)
    (sv_disk s) (sv_slow s) (c_tick c).

Section Server.
Context (maphash : bytes -> Z) (E : Env).

(** [s.clock.Now()]. *)
Definition server_now (s : Server) : Time * Server :=
  (env_now E (sv_tick s), absorb s (set_tick (session s 0) (S (sv_tick s)))).

(** ** Commands (conn.go) *)

Definition persistArgs (cm : Command) (args : list bytes) : cmd (list bytes) :=
  if bool_decide (cmd_name cm = lit "expire") && (len args =? 3) then
    do a2 := arg args 2 in
    match ParseInt a2 with
    | Some secs =>
        do now := Now E in
        let ms := UnixMilli (time_Add now (mul_duration secs Second)) in
        do a1 := arg args 1 in
        cret [lit "PEXPIREAT"; a1; FormatInt ms]
    | None => cret args
    end
  else cret args.

(** The command run in its session, with the record to append, if any. *)
Definition run_logged (persisting : bool) (cm : Command) (args : list bytes) :
    cmd (Reply * option logged) :=
  do reply := cmd_run cm args in
  if negb (cmd_readOnly cm) && persisting && negb (IsError reply) then
    do a := persistArgs cm args in
    λ c, Ret ((reply, Some (Context_DB c, a)), c)
  else cret (reply, None).

(** The directory and the store after the record [l], if there is one. *)
Definition append_to (d : Disk) (p : option Store) (l : option logged) : Disk * option Store :=
  match p, l with
  | Some st, Some (db, args) => let '(d, st) := Append db args d st in (d, Some st)
  | _, _ => (d, p)
  end.

Definition append_record (s : Server) (l : option logged) : Server :=
  let '(d, p) := append_to (sv_disk s) (sv_persist s) l in set_store s d p.

Definition internal_error : Reply := RError (lit "ERR internal server error").

(** What a handler that panics has done to its session by then is not recorded
    by the handlers' monad; [wreck] stands for it. *)
Context (wreck : Command -> list bytes -> CmdContext -> CmdContext).

(** [execute]: the fast and the general path differ in the locks they take. A
    panic before the command runs is not recovered. *)
Definition execute (s : Server) (idx : Z) (cm : Command) (args : list bytes) :
    outcome (Reply * Z * Server) :=
  db ← index (sv_databases s) idx;
  _ ← execute_locks maphash idx db cm args;
  match run_logged (bool_decide (is_Some (sv_persist s))) cm args (session s idx) with
  | Ret ((reply, l), c) => Ret (reply, c_index c, append_record (absorb s c) l)
  | Panic _ =>
      let c := wreck cm args (session s idx) in Ret (internal_error, c_index c, absorb s c)
  | Diverge => Diverge
  end.

(** The end of a timed command: the recorder is told, and a command at or over
    the threshold, if there is one, is logged. *)
Definition observe (s : Server) (start : Time) (threshold : option Duration) (cm : Command)
    (args : list bytes) (reply : Reply) (idx : Z) : Server :=
  let '(now, s) := server_now s in
  let elapsed := time_Sub now start in
  let s := record_metric s (ObserveCommand (cmd_name cm) elapsed (IsError reply)) in
  match threshold with
  | Some th => if th <=? elapsed
               then log_slow s (mkSlow (cmd_name cm) (len args - 1) elapsed idx) else s
  | None => s
  end.

Definition dispatch (s : Server) (idx : Z) (args : list bytes) : outcome (Reply * Z * Server) :=
  match Resolve (sv_registry s) args with
  | inr errReply => Ret (errReply, idx, s)
  | inl cm =>
      let rc := sv_settings s in
      let slow := SlowLogEnabled rc && (0 <? SlowThreshold rc) in
      let timed := bool_decide (is_Some (sv_metrics s)) || slow in
      if negb timed then execute s idx cm args
      else
        let '(start, s) := server_now s in
        '(reply, idx, s) ← execute s idx cm args;
        Ret (reply, idx, observe s start (if slow then Some (SlowThreshold rc) else None) cm args reply idx)
  end.

(** ** Recovery (server.go) *)

Definition put_db (c : CmdContext) (i : Z) (db : DB) : CmdContext :=
  mkCtx (<[Z.to_nat i := db]> (c_databases c)) (c_index c) (c_limits c) (c_settings c) (c_tick c)
    (c_reaped c).

Definition restore (rec : Record_) (c : CmdContext) : outcome (CmdContext * option io_error) :=
  if (rec_DB rec <? 0) || (len (c_databases c) <=? rec_DB rec)
  then Ret (c, Some (ErrOther (lit "snapshot names database " ++ FormatInt (rec_DB rec) ++ lit " out of range")))
  else
    let e := mkEntry (rec_Value rec)
               (if rec_ExpireAt rec =? 0 then zeroTime else time_Unix0 (rec_ExpireAt rec)) in
    db ← index (c_databases c) (rec_DB rec);
    db ← DB_Restore maphash db (rec_Key rec) e;
    Ret (put_db c (rec_DB rec) db, None).

(** The replayed command's own reply is dropped. *)
Definition replay (r : gmap bytes Command) (db : Z) (args : list bytes) (c : CmdContext) :
    outcome (CmdContext * option io_error) :=
  match Context_Select c db with
  | None => Ret (c, Some (ErrOther (lit "database index out of range")))
  | Some c => '(_, c) ← Dispatch r args c; Ret (c, None)
  end.

(** [coins] are the level draws of the restored sorted sets. *)
Definition Server_recover (coins : nat -> Z -> list bool) (s : Server) :
    outcome (Server * option io_error) :=
  '(_, _, err, c) ← Recover (sv_limits s) coins restore (replay (sv_registry s)) (sv_disk s) (session s 0);
  Ret (absorb s c, err).

Definition openPersistence (coins : nat -> Z -> list bool) (s : Server) :
    outcome (Server * option io_error) :=
  if negb (Per_Enabled (sv_persistCfg s)) then Ret (s, None)
  else
    let '(d, st) := Open (Per_FSync (sv_persistCfg s)) (sv_limits s) (sv_disk s) in
    Server_recover coins (set_store s d (Some st)).

(** ** Compaction (server.go) *)

(** The records of one database. *)
Definition entry_record (db : Z) (p : bytes * Entry) : Record_ :=
  mkRecord db p.1 (if HasExpiry p.2 then UnixNano (e_ExpireAt p.2) else 0) (e_Value p.2).

(** [emitRecords] from database number [i] on: the records in the order they are
    written. *)
Fixpoint emitRecords (seeds : nat -> nat -> list nat) (i : nat) (dbs : list DB) : list Record_ :=
  match dbs with
  | [] => []
  | db :: dbs =>
      map (entry_record (Z.of_nat i)) (EachEntry (seeds i) db) ++ emitRecords seeds (S i) dbs
  end.

(** The capture happens under every shard lock; [orders] are the iteration
    orders of the databases' maps and of the values'. *)
Definition capture (orders : (nat -> nat -> list nat) * (nat -> list nat)) (s : Server) (st : Store) :
    outcome (bytes + io_error) :=
  WriteSnapshot orders.2 (NextGen st) (emitRecords orders.1 0 (sv_databases s)).

Definition compact (orders : (nat -> nat -> list nat) * (nat -> list nat)) (s : Server) :
    outcome (Server * option io_error) :=
  match sv_persist s with
  | None => Panic NilDereference
  | Some st =>
      let baseGen := NextGen st in
      buf ← capture orders s st;
      let '(d, st) := Rotate (sv_disk s) st in
      match buf with
      | inr werr => Ret (set_store s d (Some st), Some werr)
      | inl buf => Ret (set_store s (InstallSnapshot buf baseGen d) (Some st), None)
      end
  end.

Definition finalizePersistence (orders : (nat -> nat -> list nat) * (nat -> list nat)) (s : Server) :
    outcome (Server * option io_error) :=
  match sv_persist s with
  | None => Panic NilDereference
  | Some st =>
      let '(d, st) := Flush (sv_disk s) st in
      '(s, err) ← compact orders (set_store s d (Some st));
      match err, sv_persist s with
      | None, Some st => let '(d, st) := Close (sv_disk s) st in Ret (set_store s d (Some st), None)
      | _, _ => Ret (s, err)
      end
  end.

(** The end of [Serve], past the wait group: the error is logged. *)
Definition Serve_finish (orders : (nat -> nat -> list nat) * (nat -> list nat)) (s : Server) :
    outcome (Server * option io_error) :=
  match sv_persist s with
  | None => Ret (s, None)
  | Some _ => finalizePersistence orders s
  end.

(** One tick of the flush timer, and of the compaction timer. *)
Definition runAppendLogFlush (s : Server) : Server :=
  match sv_persist s with
  | Some st =>
      if bool_decide (Per_FSync (sv_persistCfg s) <> FSyncEverySec) then s
      else let '(d, st) := Flush (sv_disk s) st in set_store s d (Some st)
  | None => s
  end.

Definition runCompaction (orders : (nat -> nat -> list nat) * (nat -> list nat)) (s : Server) :
    outcome Server :=
  if Per_CompactEvery (sv_persistCfg s) <=? 0 then Ret s
  else '(s, _) ← compact orders s; Ret s.

(** ** Lemmas: sessions of the server *)

(** What [sess] looks at. *)
Lemma sess_same c c' t As :
  c_databases c' = c_databases c -> c_index c' = c_index c -> c_tick c' = c_tick c ->
  sess maphash E c t As -> sess maphash E c' t As.
Proof. unfold sess. by intros -> -> ->. Qed.

(** The form in which a write is logged, with the clock at [now]. *)
Definition logged_form (now : Time) (cm : Command) (args : list bytes) : list bytes :=
  match args with
  | [_; key; a] =>
      if bool_decide (cmd_name cm = lit "expire") then
        match ParseInt a with
        | Some secs => [lit "PEXPIREAT"; key; FormatInt (UnixMilli (now + wrap64 (secs * 1000000000)))]
        | None => args
        end
      else args
  | _ => args
  end.

Lemma persistArgs_spec cm args c t As :
  sess maphash E c t As ->
  exists t' c', persistArgs cm args c = Ret (logged_form t' cm args, c') /\
    t <= t' /\ sess maphash E c' t' As /\ same_frame c c' /\ c_reaped c' = c_reaped c.
Proof.
  intros Hs.
  assert (forall a, persistArgs cm args c = Ret (a, c) -> (forall t, logged_form t cm args = a) ->
    exists t' c', persistArgs cm args c = Ret (logged_form t' cm args, c') /\
      t <= t' /\ sess maphash E c' t' As /\ same_frame c c' /\ c_reaped c' = c_reaped c) as Hsame.
  { intros a Ha Hl. exists t, c. rewrite Hl. split_and!; [done|lia|done..]. }
  unfold persistArgs, logged_form in *.
  destruct args as [|a0 [|key [|a [|x rest]]]];
    try (eapply Hsame; [|done]; by rewrite andb_false_r).
  2:{ eapply Hsame; [|done]. rewrite !len_cons. pose proof (len_nonneg rest).
      rewrite (proj2 (Z.eqb_neq _ _)), andb_false_r by lia. done. }
  destruct (bool_decide (cmd_name cm = lit "expire")); [|by eapply Hsame].
  destruct (len [a0; key; a] =? 3) eqn:El; [|done]. cbn [andb] in *.
  destruct (ParseInt a) as [secs|] eqn:Ep; cycle 1.
  { eapply Hsame; [|done]. cstep. by rewrite Ep. }
  cstep. rewrite Ep. destruct (sess_now maphash E c t As Hs) as (Ht & En & Hs').
  exists (env_now E (c_tick c)), (set_tick c (S (c_tick c))).
  cgo En. split_and!; [reflexivity|done..].
Qed.

(** The record a run leaves: the logged form of a write that did not fail. *)
Definition record_of (persisting : bool) (idx : Z) (now : Time) (cm : Command) (args : list bytes)
    (reply : Reply) : option logged :=
  if negb (cmd_readOnly cm) && persisting && negb (IsError reply)
  then Some (idx, logged_form now cm args) else None.

Lemma run_logged_spec persisting cm args c t As P :
  ends maphash E (cmd_run cm args) c t As P ->
  exists t1 t2 t3 c' reply A',
    run_logged persisting cm args c
    = Ret ((reply, record_of persisting (c_index c) t3 cm args reply), c') /\
    t <= t1 <= t2 /\ t2 <= t3 /\ sess maphash E c' t3 (upd c As A') /\ same_frame c c' /\
    P t1 t2 reply A'.
Proof.
  intros (t1 & t2 & c1 & reply & A' & Er & Ht & Hs & Hf & HP). unfold run_logged, record_of.
  cgo Er.
  destruct (negb (cmd_readOnly cm) && persisting && negb (IsError reply)) eqn:Eb; cycle 1.
  { exists t1, t2, t2, c1, reply, A'. rewrite Eb. split; [done|]. split; [lia|]. split; [lia|]. done. }
  destruct (persistArgs_spec cm args c1 t2 (upd c As A') Hs) as (t3 & c2 & Ep & Ht3 & Hs2 & Hf2 & _).
  exists t1, t2, t3, c2, reply, A'. rewrite Eb. cgo Ep.
  pose proof (same_frame_trans _ _ _ Hf Hf2) as Hf'. unfold Context_DB. rewrite (proj1 Hf').
  split; [done|]. split; [lia|]. split; [lia|]. done.
Qed.

(** What a command leaves alone in the server. *)
Definition same_server (s s' : Server) : Prop :=
  sv_registry s' = sv_registry s /\ sv_settings s' = sv_settings s /\ sv_limits s' = sv_limits s /\
  sv_persistCfg s' = sv_persistCfg s.

(** A command that ran: its answer, the stores after it, what it logged. *)
Definition served (cm : Command) (args : list bytes) (s : Server) (idx : Z) (t : Time) (As : list astore)
    (P : Time -> Time -> Reply -> astore -> Prop) (m : outcome (Reply * Z * Server)) : Prop :=
  exists t1 t2 t3 t4 reply A' s',
    m = Ret (reply, idx, s') /\ t <= t1 <= t2 /\ t2 <= t3 <= t4 /\ P t1 t2 reply A' /\
    sess maphash E (session s' idx) t4 (upd (session s idx) As A') /\
    (sv_disk s', sv_persist s') = append_to (sv_disk s) (sv_persist s)
      (record_of (bool_decide (is_Some (sv_persist s))) idx t3 cm args reply) /\
    same_server s s'.

Lemma append_record_store s l :
  (sv_disk (append_record s l), sv_persist (append_record s l)) = append_to (sv_disk s) (sv_persist s) l.
Proof. unfold append_record. by destruct (append_to _ _ _). Qed.

Lemma append_record_rest s l :
  sv_databases (append_record s l) = sv_databases s /\ sv_tick (append_record s l) = sv_tick s /\
  sv_settings (append_record s l) = sv_settings s /\ sv_registry (append_record s l) = sv_registry s /\
  sv_limits (append_record s l) = sv_limits s /\ sv_persistCfg (append_record s l) = sv_persistCfg s.
Proof. unfold append_record. by destruct (append_to _ _ _). Qed.

Lemma execute_spec s idx cm args t As P db p :
  ends maphash E (cmd_run cm args) (session s idx) t As P ->
  index (sv_databases s) idx = Ret db -> execute_locks maphash idx db cm args = Ret p ->
  served cm args s idx t As P (execute s idx cm args).
Proof.
  intros Hends Hdb Hp.
  destruct (run_logged_spec (bool_decide (is_Some (sv_persist s))) cm args (session s idx) t As P Hends)
    as (t1 & t2 & t3 & c & reply & A' & Er & Ht & Ht3 & Hs & Hf & HP).
  unfold execute. rewrite Hdb. orun. rewrite Hp. orun. rewrite Er.
  destruct Hf as (Hi & Hl & Hse). rewrite Hi. cbn [session c_index].
  set (l := record_of _ _ _ _ _ _). pose proof (append_record_rest (absorb s c) l) as (Hd & Hk & Hst & Hr & Hlm & Hpc).
  exists t1, t2, t3, t3, reply, A', (append_record (absorb s c) l).
  split; [done|]. split; [done|]. split; [lia|]. split; [done|]. split; [|split].
  - eapply sess_same; [..|exact Hs]; cbn [session c_databases c_index c_tick]; [by rewrite Hd|by rewrite Hi|by rewrite Hk].
  - rewrite append_record_store. done.
  - unfold same_server. rewrite Hst, Hr, Hlm, Hpc. cbn [absorb sv_settings sv_registry sv_limits sv_persistCfg].
    by rewrite Hse.
Qed.

(** A step of the server between commands: time passes, the stores, the log and
    the configuration stay. *)
Definition passes (idx : Z) (t : Time) (As : list astore) (s s' : Server) : Prop :=
  exists t', t <= t' /\ sess maphash E (session s' idx) t' As /\
    sv_disk s' = sv_disk s /\ sv_persist s' = sv_persist s /\ same_server s s'.

Lemma server_now_passes s idx t As now s' :
  server_now s = (now, s') -> sess maphash E (session s idx) t As -> passes idx t As s s'.
Proof.
  intros [= <- <-] Hs. destruct (sess_now maphash E _ _ _ Hs) as (Ht & _ & Hs').
  exists (env_now E (sv_tick s)). split; [exact Ht|]. split; [exact Hs'|]. by repeat split.
Qed.

Lemma observe_passes s start th cm args reply idx t As :
  sess maphash E (session s idx) t As -> passes idx t As s (observe s start th cm args reply idx).
Proof.
  intros Hs. unfold observe. destruct (server_now s) as [now s1] eqn:En.
  destruct (server_now_passes _ _ _ _ _ _ En Hs) as (t' & Ht & Hs1 & Hd & Hp & Hsm).
  destruct th as [th|]; [destruct (th <=? time_Sub now start)|]; by exists t'.
Qed.

Lemma served_passes cm args s0 s idx t t0 As P m f :
  passes idx t0 As s0 s -> t0 <= t -> sv_databases s = sv_databases s0 ->
  served cm args s idx t As P m ->
  (forall s t As reply, sess maphash E (session s idx) t As -> passes idx t As s (f s reply idx)) ->
  served cm args s0 idx t0 As P ('(reply, idx, s) ← m; Ret (reply, idx, f s reply idx)).
Proof.
  intros (t' & _ & _ & Hd & Hp & Hsm) Ht0 Hdb
    (t1 & t2 & t3 & t4 & reply & A' & s' & -> & Ht & Ht3 & HP & Hs & Hst & Hsm') Hf.
  orun. destruct (Hf s' t4 _ reply Hs) as (t5 & Ht5 & Hs5 & Hd5 & Hp5 & Hsm5).
  exists t1, t2, t3, t5, reply, A', (f s' reply idx). split; [done|]. split; [lia|]. split; [lia|].
  split; [done|]. split; [exact Hs5|]. split; [by rewrite Hd5, Hp5, Hst, Hd, Hp|].
  unfold same_server in *. destruct Hsm as (?&?&?&?), Hsm' as (?&?&?&?), Hsm5 as (?&?&?&?).
  split_and!; congruence.
Qed.

(** Every data command finds its locks. *)
Lemma data_locks parseFloat formatFloat quote cm pre spec args d db :
  cm ∈ all_commands maphash parseFloat formatFloat quote E ->
  (cmd_name cm, (pre, spec)) ∈ meanings parseFloat formatFloat ->
  arity_ok (cmd_arity cm) (len args) ->
  exists p, execute_locks maphash d db cm args = Ret p.
Proof.
  intros Hcm Hm Ha. destruct (cmd_wholeDB cm) eqn:Hw.
  - rewrite fast_path_general. unfold lockShards. rewrite Hw. eauto.
  - destruct (table_at maphash parseFloat formatFloat quote E (λ cm x, Locality.covered cm x.2)
      cm (pre, spec) (Locality.table_covered maphash parseFloat formatFloat quote E) Hcm Hm args Ha Hw)
      as (ks & Hk & _). rewrite (execute_locks_keys maphash d db cm args ks Hw Hk). eauto.
Qed.

Section Requests.
Context (parseFloat : bytes -> option float64) (formatFloat : float64 -> bytes) (quote : bytes -> bytes).

(** A request that resolves to a data command. *)
Lemma dispatch_served s idx args cm pre spec t As A :
  parses_f64 parseFloat ->
  NewRegistry maphash parseFloat formatFloat quote E = Some (sv_registry s) ->
  Resolve (sv_registry s) args = inl cm ->
  (cmd_name cm, (pre, spec)) ∈ meanings parseFloat formatFloat ->
  sess maphash E (session s idx) t As -> sel (session s idx) As A -> small A ->
  Forall go_len args -> pre args ->
  served cm args s idx t As (λ t1 t2 reply A', spec t1 t2 args A reply A') (dispatch s idx args).
Proof.
  intros Hpf Hr Hres Hm Hs Hsel Hsm Hl Hpre. unfold dispatch. rewrite Hres.
  pose proof Hres as (name & rest & _ & _ & _ & Hcm & Ha)%(Resolve_spec _ _ _ _ _ _ _ _ Hr).
  assert (forall s1 t1, sess maphash E (session s1 idx) t1 As ->
    served cm args s1 idx t1 As (λ t1 t2 reply A', spec t1 t2 args A reply A') (execute s1 idx cm args))
    as Hexec.
  { intros s1 t1 Hs1. destruct (sess_selected maphash E _ _ _ _ Hs1 Hsel) as (db & Hdb & _).
    unfold selected in Hdb. cbn [session c_databases c_index] in Hdb.
    destruct (index (sv_databases s1) idx) as [db0| |] eqn:Ei; [|done..].
    destruct (data_locks parseFloat formatFloat quote cm pre spec args idx db0 Hcm Hm Ha) as [p Hp].
    eapply execute_spec; [|exact Ei|exact Hp].
    exact (table_at maphash parseFloat formatFloat quote E
      (λ cm x, refines maphash E (cmd_arity cm) x.1 (cmd_run cm) x.2) cm (pre, spec)
      (data_commands_refine maphash parseFloat formatFloat quote E Hpf) Hcm Hm args
      (session s1 idx) t1 As A Hs1 Hsel Hsm Hl Ha Hpre). }
  destruct (negb _); [by apply Hexec|]. destruct (server_now s) as [start s1] eqn:En.
  pose proof (server_now_passes s idx t As start s1 En Hs) as Hp1.
  pose proof Hp1 as (t1 & Ht1 & Hs1 & _).
  apply (served_passes cm args s s1 idx t1 t As _ _
    (λ s reply idx, observe s start _ cm args reply idx)); [done|done|by injection En as _ <-| |].
  - by apply Hexec.
  - intros s2 t2 As2 reply Hs2. by apply observe_passes.
Qed.
End Requests.

End Server.

