(* ===== verification/Replay.v ===== *)
(** * Replaying a log reproduces the store

    The meanings of the write commands are functions of the store as long as no
    deadline falls due: two stores that agree up to deadlines still in the future
    and the sign of zero scores are taken to two such stores by the same command,
    whatever the clock says meanwhile. So a log replayed at a restart, later and
    with other iteration orders and level draws, rebuilds what the first run
    built; EXPIRE, logged as PEXPIREAT, included. *)

From S2P Require Import Prelude GoBinary Pack Float64 Skiplist ValueList ValueHash ValueSet ValueZSet.
From S2P Require Import GoTime Value Keyspace Shard Strconv Resp Config Command Session.
From S2P Require Import CommandSpec CollectionSpec Registry Codec Store Locality Server.

(** ** Similar stores *)

(** Equal values, but for the sign of a zero score. *)
Definition asim (a b : avalue) : Prop :=
  match a, b with
  | AZSet m, AZSet m' => forall k, option_Forall2 (λ s s', fkey s = fkey s') (m !! k) (m' !! k)
  | _, _ => a = b
  end.

Section Similar.
(** How long a command may take from its own clock reading to the one of its log
    record: EXPIRE is logged as PEXPIREAT with a deadline counted from the
    latter (persistArgs, conn.go). *)
Context (δ : Z) (Hδ : 0 <= δ).

(** Entries of the first and of the replayed store: the deadlines are both absent,
    or the second is the first up to [δ] later and less than the millisecond
    earlier that the log's format rounds away; the first is at least that
    millisecond after [T], so both are due after [T]. *)
Definition esim (T : Time) (o o' : option (avalue * Time)) : Prop :=
  match o, o' with
  | None, None => True
  | Some (a, d), Some (b, e) =>
      asim a b /\ (d = 0 /\ e = 0 \/ T + 1000000 <= d /\ d - 1000000 < e <= d + δ)
  | _, _ => False
  end.

Definition sim (T : Time) (A B : astore) : Prop := forall k, esim T (A !! k) (B !! k).

(** Every deadline of the store is at least a millisecond after [T]. *)
Definition settled (T : Time) (A : astore) : Prop :=
  map_Forall (λ _ (p : avalue * Time), p.2 = zeroTime \/ T + 1000000 <= p.2) A.

(** The command [args] of meaning [spec], run again as [args'] of meaning
    [spec']. *)
Definition replays_as (spec spec' : aspec) (args args' : list bytes) : Prop :=
  forall T t1 t2 u1 u2 A r A' B r' B',
    0 <= T -> t1 <= t2 <= T -> u1 <= u2 <= T ->
    spec t1 t2 args A r A' -> spec' u1 u2 args' B r' B' ->
    sim T A B -> settled T A' -> sim T A' B'.

(** ** Lemmas: similarity *)

Lemma asim_refl a : asim a a.
Proof. destruct a; simpl; try done. intros k. by destruct (m !! k); constructor. Qed.

Lemma asim_kind a b : asim a b -> akind a = akind b.
Proof. by destruct a, b; simpl; intros; simplify_eq/=. Qed.

Lemma sim_empty T : sim T ∅ ∅.
Proof. intros k. by rewrite !lookup_empty. Qed.

Lemma sim_settled T A B : sim T A B -> settled T A.
Proof.
  intros H k [a d] Hk. specialize (H k). rewrite Hk in H. destruct (B !! k) as [[b e]|]; [|done].
  destruct H as [_ H]. unfold zeroTime. simpl. lia.
Qed.

(** Nothing is dead by [T]. *)
Lemma sim_get T A B t u k :
  0 <= T -> t <= T -> u <= T -> sim T A B -> get t A k = A !! k /\ get u B k = B !! k.
Proof.
  intros HT Ht Hu H. specialize (H k). unfold get.
  destruct (A !! k) as [[a d]|], (B !! k) as [[b e]|]; simpl in H; try done.
  destruct H as [_ Hd]. unfold dead, Before, IsZero, zeroTime.
  split; destruct Hd as [[-> ->]|[??]]; simpl; try done;
    rewrite (proj2 (Z.ltb_lt _ _)) by lia; by rewrite andb_false_r.
Qed.

Lemma sim_insert T A B k a b d e :
  sim T A B -> esim T (Some (a, d)) (Some (b, e)) -> sim T (<[k := (a, d)]> A) (<[k := (b, e)]> B).
Proof.
  intros H He j. destruct (decide (j = k)) as [->|Hj].
  - by rewrite !lookup_insert_eq.
  - rewrite !lookup_insert_ne by done. apply H.
Qed.

Lemma sim_delete T A B k : sim T A B -> sim T (delete k A) (delete k B).
Proof.
  intros H j. destruct (decide (j = k)) as [->|Hj].
  - by rewrite !lookup_delete_eq.
  - rewrite !lookup_delete_ne by done. apply H.
Qed.

Lemma sim_deletes T keys : forall A B : astore,
  sim T A B -> sim T (foldl (λ A k, delete k A) A keys) (foldl (λ A k, delete k A) B keys).
Proof. induction keys as [|k keys IH]; intros A B H; simpl; [done|]. by apply IH, sim_delete. Qed.

(** ** Lemmas: commands without a collection *)

(** What both runs find at a key. *)
Ltac found H HT Ht Hu Hsim key :=
  destruct (sim_get _ _ _ _ _ key HT Ht Hu Hsim) as [Hga Hgb]; rewrite ?Hga, ?Hgb in *;
  pose proof (Hsim key) as H.

Lemma set_replays args : replays_as spec_set spec_set args args.
Proof.
  intros T t1 t2 u1 u2 A r A' B r' B' HT Ht Hu (k & v & Hk & Hv & _ & ->) (k' & v' & Hk' & Hv' & _ & ->) Hs _.
  simplify_eq. apply sim_insert; [done|]. split; [done|by left].
Qed.

Lemma del_replays args : replays_as spec_del spec_del args args.
Proof.
  intros T t1 t2 u1 u2 A r A' B r' B' HT Ht Hu (n & ks & c & -> & _ & -> & _) (n' & ks' & c' & [= <- <-] & _ & -> & _) Hs _.
  by apply sim_deletes.
Qed.

Lemma incr_replays delta args : replays_as (spec_incr delta) (spec_incr delta) args args.
Proof.
  intros T t1 t2 u1 u2 A r A' B r' B' HT Ht Hu (k & Hk & HA) (k' & Hk' & HB) Hs _. rewrite Hk in Hk'. injection Hk' as <-.
  found H HT (Z.le_trans _ _ _ (proj1 Ht) (proj2 Ht)) (Z.le_trans _ _ _ (proj1 Hu) (proj2 Hu)) Hs k.
  cbn zeta in *. destruct (A !! k) as [[a d]|], (B !! k) as [[b e]|]; simpl in H; try done.
  - destruct H as [Hab Hd]. destruct a; destruct b; simpl in Hab; simplify_eq;
      try (destruct HA as [_ ->], HB as [_ ->]; done).
    destruct (ParseInt b) as [n|]; [|destruct HA as [_ ->], HB as [_ ->]; done].
    destruct (_ && _); destruct HA as [_ ->], HB as [_ ->]; [|done].
    apply sim_insert; [done|]. by split.
  - destruct (_ && _); destruct HA as [_ ->], HB as [_ ->]; [|done].
    apply sim_insert; [done|]. split; [done|by left].
Qed.

(** A new deadline on both sides. *)
Lemma set_deadline_sim T A B t u key at_ at_' :
  0 <= T -> t <= T -> u <= T -> sim T A B ->
  settled T (set_deadline t A key at_) ->
  (T + 1000000 <= at_ -> at_ - 1000000 < at_' <= at_ + δ) -> (at_ = 0 -> at_' = 0) ->
  sim T (set_deadline t A key at_) (set_deadline u B key at_').
Proof.
  intros HT Ht Hu Hs Hset Hat H0. unfold set_deadline in *.
  found H HT Ht Hu Hs key.
  destruct (A !! key) as [[a d]|] eqn:EA, (B !! key) as [[b e]|] eqn:EB; simpl in H; try done.
  apply sim_insert; [done|]. split; [by apply H|].
  specialize (Hset key (a, at_)). rewrite lookup_insert_eq in Hset. specialize (Hset eq_refl).
  unfold zeroTime in Hset. simpl in Hset. destruct Hset as [->|Hset]; [left; by rewrite H0|right; auto].
Qed.

Lemma pexpireat_replays args : replays_as spec_pexpireat spec_pexpireat args args.
Proof.
  intros T t1 t2 u1 u2 A r A' B r' B' HT Ht Hu (k & a & Hk & Ha & HA) (k' & a' & Hk' & Ha' & HB) Hs Hset.
  simplify_eq. destruct (ParseInt a) as [ms|]; destruct HA as [_ ->], HB as [_ ->]; [|done].
  apply set_deadline_sim; try done; lia.
Qed.

(** EXPIRE against its logged form, read off the clock at [now]. *)
Lemma expire_replays name key a secs now T t1 t2 u1 u2 A r A' B r' B' :
  ParseInt a = Some secs -> unix_epoch <= t1 -> t1 <= t2 <= now -> now <= T -> now - t1 <= δ ->
  is_int64 (T - unix_epoch) -> u1 <= u2 <= T ->
  spec_expire t1 t2 [name; key; a] A r A' ->
  spec_pexpireat u1 u2 [lit "PEXPIREAT"; key; FormatInt (UnixMilli (now + wrap64 (secs * 1000000000)))]
    B r' B' ->
  sim T A B -> settled T A' -> sim T A' B'.
Proof.
  intros Hp He Ht Hnow Hdrift HT Hu
    (k & x & [= <-] & [= <-] & HA) (k' & x' & [= <-] & [= <-] & HB) Hs Hset.
  rewrite Hp in HA. destruct HA as [_ ->].
  set (w := wrap64 (secs * 1000000000)) in *. set (at_ := now + w) in *.
  pose proof (wrap64_range (secs * 1000000000)) as Hw. fold w in Hw.
  unfold is_int64, MinInt64, MaxInt64 in HT, Hw.
  assert (is_int64 ((at_ - unix_epoch) / 1000000)) as Hms.
  { unfold is_int64, MinInt64, MaxInt64.
    split; [apply Z.div_le_lower_bound; lia|apply Z.div_le_upper_bound; lia]. }
  rewrite ParseInt_FormatInt in HB by (unfold UnixMilli; apply wrap64_range). destruct HB as [_ ->].
  pose proof (UnixMilli_bounds at_ Hms) as Hb. unfold time_UnixMilli in Hb. unfold unix_epoch in *.
  apply set_deadline_sim; try done; lia.
Qed.

Lemma persist_replays args : replays_as spec_persist spec_persist args args.
Proof.
  intros T t1 t2 u1 u2 A r A' B r' B' HT Ht Hu (k & Hk & _ & ->) (k' & Hk' & _ & ->) Hs _. rewrite Hk in Hk'. injection Hk' as <-.
  unfold clear_deadline.
  found H HT (Z.le_trans _ _ _ (proj1 Ht) (proj2 Ht)) (Z.le_trans _ _ _ (proj1 Hu) (proj2 Hu)) Hs k.
  destruct (A !! k) as [[a d]|], (B !! k) as [[b e]|]; simpl in H; try done.
  apply sim_insert; [done|]. split; [by apply H|by left].
Qed.

Lemma same_replays (spec : aspec) args :
  (forall t1 t2 A r A', spec t1 t2 args A r A' -> A' = A) -> replays_as spec spec args args.
Proof.
  intros H T t1 t2 u1 u2 A r A' B r' B' _ _ _ HA HB Hs _.
  by rewrite (H _ _ _ _ _ HA), (H _ _ _ _ _ HB).
Qed.

Lemma flushdb_replays args : replays_as spec_flushdb spec_flushdb args args.
Proof. intros T t1 t2 u1 u2 A r A' B r' B' _ _ _ [_ ->] [_ ->] _ _. apply sim_empty. Qed.

(** ** Lemmas: collections *)

Section Shapes.
Context {C X : Type} `{!Collection C X}.

(** Similar collections. *)
Definition xsim (x y : X) : Prop := asim (coll_inj x) (coll_inj y).

(** What both runs see at a key. *)
Lemma sim_see T A B t u key :
  0 <= T -> t <= T -> u <= T -> sim T A B ->
  match see (C := C) t A key, see (C := C) u B key with
  | Absent, Absent | Wrong, Wrong => True
  | Seen x d, Seen y e => xsim x y /\ (d = 0 /\ e = 0 \/ T + 1000000 <= d /\ d - 1000000 < e <= d + δ)
  | _, _ => False
  end.
Proof.
  intros HT Ht Hu Hs. unfold see. found H HT Ht Hu Hs key.
  destruct (A !! key) as [[a d]|], (B !! key) as [[b e]|]; simpl in H; try done.
  destruct H as [Hab Hd]. pose proof (asim_kind a b Hab) as Hk.
  pose proof (coll_proj_kind a) as Ha. pose proof (coll_proj_kind b) as Hb. rewrite <- Hk in Hb.
  destruct (coll_proj a) as [x|] eqn:Ea, (coll_proj b) as [y|] eqn:Eb; try done.
  - split; [|done]. unfold xsim. by rewrite <- (coll_proj_inj a x Ea), <- (coll_proj_inj b y Eb).
  - assert (is_Some (None : option X)) as [? ?]; [|done]. apply Hb, Ha. by eexists.
  - assert (is_Some (None : option X)) as [? ?]; [|done]. apply Ha, Hb. by eexists.
Qed.

Lemma adds_sim (ch : X -> Reply -> X -> Prop) T A B t u key r A' r' B' :
  (forall x y r r' x' y', xsim x y -> ch x r x' -> ch y r' y' -> xsim x' y') ->
  0 <= T -> t <= T -> u <= T -> sim T A B ->
  adds C ch t key A r A' -> adds C ch u key B r' B' -> sim T A' B'.
Proof.
  intros Hch HT Ht Hu Hs HA HB. pose proof (sim_see T A B t u key HT Ht Hu Hs) as H.
  unfold adds in *. destruct (see t A key) as [| |x d], (see u B key) as [| |y e]; try done.
  - destruct HA as (x' & Hx & ->), HB as (y' & Hy & ->). apply sim_insert; [done|].
    split; [|by left]. eapply Hch; [apply asim_refl|done..].
  - destruct HA as [_ ->], HB as [_ ->]. done.
  - destruct HA as (x' & Hx & ->), HB as (y' & Hy & ->), H as [Hxy Hd]. apply sim_insert; [done|].
    split; [|done]. by eapply Hch.
Qed.

Lemma removes_sim (ch : X -> Reply -> X -> Prop) missing T A B t u key r A' r' B' :
  (forall x y r r' x' y', xsim x y -> ch x r x' -> ch y r' y' ->
    xsim x' y' /\ coll_is_empty x' = coll_is_empty y') ->
  0 <= T -> t <= T -> u <= T -> sim T A B ->
  removes C missing ch t key A r A' -> removes C missing ch u key B r' B' -> sim T A' B'.
Proof.
  intros Hch HT Ht Hu Hs HA HB. pose proof (sim_see T A B t u key HT Ht Hu Hs) as H.
  unfold removes in *. destruct (see t A key) as [| |x d], (see u B key) as [| |y e]; try done.
  - destruct HA as [_ ->], HB as [_ ->]. done.
  - destruct HA as [_ ->], HB as [_ ->]. done.
  - destruct HA as (x' & Hx & ->), HB as (y' & Hy & ->), H as [Hxy Hd].
    destruct (Hch _ _ _ _ _ _ Hxy Hx Hy) as [Hxy' ->].
    destruct (coll_is_empty y'); [by apply sim_delete|]. by apply sim_insert.
Qed.
End Shapes.

(** For lists, hashes and sets similar means equal. *)
Ltac equal_contents :=
  intros x y ? ? x' y' Hxy; unfold xsim in *; cbn in Hxy; injection Hxy as ->; naive_solver.

Ltac both := intros T t1 t2 u1 u2 A r A' B r' B' HT Ht Hu.

Lemma push_replays front args : replays_as (spec_push front) (spec_push front) args args.
Proof.
  both. intros (k & vs & Hk & -> & HA) (k' & vs' & Hk' & -> & HB) Hs _. simplify_eq.
  eapply (adds_sim (C := List)); [..|exact HA|exact HB]; [equal_contents|lia..|done].
Qed.

Lemma pop_replays front args : replays_as (spec_pop front) (spec_pop front) args args.
Proof.
  both. intros (n & k & Hn & Hk & HA) (n' & k' & Hn' & Hk' & HB) Hs _. simplify_eq. cbn zeta in *.
  destruct (drop 2 args) as [|a [|b l]].
  - eapply (removes_sim (C := List)); [..|exact HA|exact HB]; [equal_contents|lia..|done].
  - destruct (Atoi a) as [c|]; [|destruct HA as [_ ->], HB as [_ ->]; done].
    destruct (c <? 0); [destruct HA as [_ ->], HB as [_ ->]; done|].
    eapply (removes_sim (C := List)); [..|exact HA|exact HB]; [equal_contents|lia..|done].
  - destruct HA as [_ ->], HB as [_ ->]; done.
Qed.

Lemma hset_replays args : replays_as spec_hset spec_hset args args.
Proof.
  both. intros (k & Hk & HA) (k' & Hk' & HB) Hs _. simplify_eq.
  destruct (negb _); [destruct HA as [_ ->], HB as [_ ->]; done|].
  eapply (adds_sim (C := Hash)); [..|exact HA|exact HB]; [equal_contents|lia..|done].
Qed.

Lemma hdel_replays args : replays_as spec_hdel spec_hdel args args.
Proof.
  both. intros (k & Hk & HA) (k' & Hk' & HB) Hs _. simplify_eq.
  eapply (removes_sim (C := Hash)); [..|exact HA|exact HB]; [equal_contents|lia..|done].
Qed.

Lemma sadd_replays args : replays_as spec_sadd spec_sadd args args.
Proof.
  both. intros (k & Hk & HA) (k' & Hk' & HB) Hs _. simplify_eq.
  eapply (adds_sim (C := GoSet)); [..|exact HA|exact HB]; [equal_contents|lia..|done].
Qed.

Lemma srem_replays args : replays_as spec_srem spec_srem args args.
Proof.
  both. intros (k & Hk & HA) (k' & Hk' & HB) Hs _. simplify_eq.
  eapply (removes_sim (C := GoSet)); [..|exact HA|exact HB]; [equal_contents|lia..|done].
Qed.

(** Sorted sets with the same members and scores that compare equal. *)
Definition zsim (m m' : gmap bytes float64) : Prop :=
  forall k, option_Forall2 (λ s s', fkey s = fkey s') (m !! k) (m' !! k).

Lemma add_result_sim m1 m2 member score m1' m2' :
  zsim m1 m2 -> add_result m1 member score m1' -> add_result m2 member score m2' -> zsim m1' m2'.
Proof.
  assert (forall (m : gmap bytes float64) s, s = score \/ m !! member = Some s /\ feq s score = true -> fkey s = fkey score) as Hf.
  { intros m s [->|[_ H]]; [done|]. unfold feq in H. apply andb_true_iff in H as [_ H].
    by apply Z.eqb_eq in H. }
  intros Hz (s1 & -> & H1%Hf) (s2 & -> & H2%Hf) k. destruct (decide (k = member)) as [->|Hk].
  - rewrite !lookup_insert_eq. constructor. congruence.
  - rewrite !lookup_insert_ne by done. apply Hz.
Qed.

Lemma zadds_sim ps : forall m1 m2 m1' m2', zsim m1 m2 -> zadds ps m1 m1' -> zadds ps m2 m2' -> zsim m1' m2'.
Proof.
  induction ps as [|[sc mem] ps IH]; intros m1 m2 m1' m2' Hz; simpl; [by intros -> ->|].
  intros (n1 & H1 & H1') (n2 & H2 & H2'). eapply IH; [|done..]. by eapply add_result_sim.
Qed.

Lemma zadd_replays parseFloat args : replays_as (spec_zadd parseFloat) (spec_zadd parseFloat) args args.
Proof.
  both. intros (k & Hk & HA) (k' & Hk' & HB) Hs _. simplify_eq.
  destruct (negb _); [destruct HA as [_ ->], HB as [_ ->]; done|].
  destruct (parse_pairs parseFloat (drop 2 args)) as [ps|]; [|destruct HA as [_ ->], HB as [_ ->]; done].
  eapply (adds_sim (C := ZSet)); [..|exact HA|exact HB]; [|lia..|done].
  intros x y ? ? x' y' Hxy [Hx _] [Hy _]. exact (zadds_sim ps x y x' y' Hxy Hx Hy).
Qed.

(** ** Lemmas: an error changes nothing *)

Definition errors_keep (spec : aspec) (args : list bytes) : Prop :=
  forall t1 t2 A r A', spec t1 t2 args A r A' -> IsError r = true -> A' = A.

Ltac unerr := intros t1 t2 A r A'.

Lemma set_errors args : errors_keep spec_set args.
Proof. unerr. by intros (k & v & _ & _ & -> & _). Qed.

Lemma incr_errors delta args : errors_keep (spec_incr delta) args.
Proof.
  unerr. intros (k & _ & H) He. cbn zeta in H. repeat case_match; by destruct H as [-> ->].
Qed.

Lemma del_errors args : errors_keep spec_del args.
Proof. unerr. by intros (n & ks & c & _ & -> & _). Qed.

Lemma expire_errors args : errors_keep spec_expire args.
Proof. unerr. intros (k & a & _ & _ & H) He. case_match; by destruct H as [-> ->]. Qed.

Lemma pexpireat_errors args : errors_keep spec_pexpireat args.
Proof. unerr. intros (k & a & _ & _ & H) He. case_match; by destruct H as [-> ->]. Qed.

Lemma persist_errors args : errors_keep spec_persist args.
Proof. unerr. by intros (k & _ & -> & _). Qed.

Lemma flushdb_errors args : errors_keep spec_flushdb args.
Proof. unerr. by intros [-> _]. Qed.

Lemma ping_errors args : errors_keep spec_ping args.
Proof. unerr. by intros [-> _]. Qed.

(** A change of a collection never answers an error. *)
Lemma adds_errors {C X} `{!Collection C X} (ch : X -> Reply -> X -> Prop) t key A r A' :
  (forall x r x', ch x r x' -> IsError r = false) ->
  adds C ch t key A r A' -> IsError r = true -> A' = A.
Proof.
  intros Hch H He. unfold adds in H.
  destruct (see t A key); [destruct H as (x' & H%Hch & _)|by destruct H|destruct H as (x' & H%Hch & _)];
    by rewrite H in He.
Qed.

Lemma removes_errors {C X} `{!Collection C X} missing (ch : X -> Reply -> X -> Prop) t key A r A' :
  (forall x r x', ch x r x' -> IsError r = false) ->
  removes C missing ch t key A r A' -> IsError r = true -> A' = A.
Proof.
  intros Hch H He. unfold removes in H.
  destruct (see t A key); [by destruct H..|destruct H as (x' & H%Hch & _)]. by rewrite H in He.
Qed.

Lemma push_errors front args : errors_keep (spec_push front) args.
Proof.
  unerr. intros (k & vs & _ & _ & H). eapply (adds_errors (C := List)); [|exact H]. by intros ??? [_ ->].
Qed.

Lemma pop_errors front args : errors_keep (spec_pop front) args.
Proof.
  unerr. intros (n & k & _ & _ & H) He. cbn zeta in H.
  repeat case_match; try (by destruct H as [_ ->]);
    by eapply (removes_errors (C := List)); [|exact H|]; [intros ??? [-> _]|].
Qed.

Lemma hset_errors args : errors_keep spec_hset args.
Proof.
  unerr. intros (k & _ & H) He. destruct (negb _); [by destruct H as [_ ->]|].
  eapply (adds_errors (C := Hash)); [|exact H|done]. by intros ??? [_ ->].
Qed.

Lemma hdel_errors args : errors_keep spec_hdel args.
Proof.
  unerr. intros (k & _ & H) He. eapply (removes_errors (C := Hash)); [|exact H|done]. by intros ??? [_ ->].
Qed.

Lemma sadd_errors args : errors_keep spec_sadd args.
Proof.
  unerr. intros (k & _ & H) He. eapply (adds_errors (C := GoSet)); [|exact H|done]. by intros ??? [_ ->].
Qed.

Lemma srem_errors args : errors_keep spec_srem args.
Proof.
  unerr. intros (k & _ & H) He. eapply (removes_errors (C := GoSet)); [|exact H|done]. by intros ??? [_ ->].
Qed.

Lemma zadd_errors parseFloat args : errors_keep (spec_zadd parseFloat) args.
Proof.
  unerr. intros (k & _ & H) He. destruct (negb _); [by destruct H as [_ ->]|].
  destruct (parse_pairs parseFloat (drop 2 args)); [|by destruct H as [_ ->]].
  eapply (adds_errors (C := ZSet)); [|exact H|done]. by intros ??? [_ ->].
Qed.

(** ** The writing commands, along the table *)

(** What a write keeps of the two stores: it replays, but for EXPIRE, whose
    logged form does; and when it fails it has done nothing. *)
Definition write_ok (name : bytes) (spec : aspec) : Prop :=
  (name = lit "expire" /\ spec = spec_expire \/
   name <> lit "expire" /\ forall args, replays_as spec spec args args) /\
  forall args, errors_keep spec args.
End Similar.

Section Table.
Context (maphash : bytes -> Z) (parseFloat : bytes -> option float64)
  (formatFloat : float64 -> bytes) (quote : bytes -> bytes) (E : Env).

Abbreviation all_commands := (Registry.all_commands maphash parseFloat formatFloat quote E).
Abbreviation data_commands := (Registry.data_commands maphash parseFloat formatFloat quote E).
Abbreviation meanings := (Registry.meanings parseFloat formatFloat).

Ltac rd := apply Forall2_cons_2; [split; [reflexivity|by left]|].
Ltac wt L M := apply Forall2_cons_2; [split; [reflexivity|right; split;
  [right; split; [discriminate|intros args; by apply L]|intros args; apply M]]|].

Lemma table_writes δ :
  0 <= δ -> Forall2 (λ cm (m : bytes * ((list bytes -> Prop) * aspec)), cmd_name cm = m.1 /\
    (cmd_readOnly cm = true \/ write_ok δ (cmd_name cm) m.2.2)) data_commands meanings.
Proof.
  intros Hδ. rd. wt set_replays set_errors. wt incr_replays incr_errors. wt incr_replays incr_errors.
  wt del_replays del_errors. wt del_replays del_errors. rd.
  apply Forall2_cons_2; [split; [reflexivity|right; split; [by left|apply expire_errors]]|].
  wt pexpireat_replays pexpireat_errors. rd. wt persist_replays persist_errors. rd.
  wt push_replays push_errors. wt push_replays push_errors. wt pop_replays pop_errors.
  wt pop_replays pop_errors. rd. rd. wt hset_replays hset_errors. rd. wt hdel_replays hdel_errors. rd.
  wt sadd_replays sadd_errors. wt srem_replays srem_errors. rd. rd. wt zadd_replays zadd_errors. rd. rd.
  apply Forall2_cons_2; [split; [reflexivity|right; split; [right|apply ping_errors]]|].
  { split; [discriminate|]. intros args. apply same_replays. by intros t1 t2 A r A' [-> _]. }
  wt flushdb_replays flushdb_errors. by apply Forall2_nil.
Qed.

(** A command that is not logged has changed nothing. *)
Lemma unlogged_keeps cm pre spec args t1 t2 A r A' :
  cm ∈ all_commands -> (cmd_name cm, (pre, spec)) ∈ meanings -> arity_ok (cmd_arity cm) (len args) ->
  spec t1 t2 args A r A' -> cmd_readOnly cm = true \/ IsError r = true -> A' = A.
Proof.
  intros Hcm Hm Ha Hsp Hr.
  assert (cmd_readOnly cm = true -> A' = A) as Hro.
  { intros Hro. destruct (table_at maphash parseFloat formatFloat quote E (λ cm x, Locality.covered cm x.2)
      cm (pre, spec) (table_covered _ _ _ _ _) Hcm Hm args Ha) as (ks & _ & _ & Hsame).
    { by apply (readOnly_not_whole maphash parseFloat formatFloat quote E cm Hcm). }
    exact (Hsame Hro _ _ _ _ _ Hsp). }
  destruct (table_at maphash parseFloat formatFloat quote E
    (λ cm x, cmd_readOnly cm = true \/ write_ok 0 (cmd_name cm) x.2) cm (pre, spec) (table_writes 0 (Z.le_refl 0)) Hcm Hm)
    as [?|[_ He]]; [auto|]. destruct Hr as [?|Hr]; [auto|]. exact (He args _ _ _ _ _ Hsp Hr).
Qed.

(** C3. The server does what a command means and logs exactly the writes. For a
    request that resolves to a data command, from any server state that represents
    stores, whatever the recorder and the slow log do: the server answers (no
    panic escapes); the reply and the selected store are those of the command's
    meaning; the other databases and the configuration stay; a command that is
    read-only or answers an error has changed nothing; and the append log gains
    exactly one record when persistence is on, the command is a write and the reply
    no error, and none otherwise. The record is the request itself on the session's
    database, with EXPIRE turned into PEXPIREAT. *)
Theorem request_served wreck s idx args cm pre spec t As A :
  parses_f64 parseFloat ->
  NewRegistry maphash parseFloat formatFloat quote E = Some (sv_registry s) ->
  Resolve (sv_registry s) args = inl cm -> (cmd_name cm, (pre, spec)) ∈ meanings ->
  sess maphash E (session s idx) t As -> sel (session s idx) As A -> small A ->
  Forall go_len args -> pre args ->
  served maphash E cm args s idx t As (λ t1 t2 reply A', spec t1 t2 args A reply A' /\
    (cmd_readOnly cm = true \/ IsError reply = true -> A' = A)) (dispatch maphash E wreck s idx args).
Proof.
  intros Hpf Hr Hres Hm Hs Hsel Hsm Hgo Hpre.
  destruct (dispatch_served maphash E wreck parseFloat formatFloat quote s idx args cm pre spec t As A
    Hpf Hr Hres Hm Hs Hsel Hsm Hgo Hpre)
    as (t1 & t2 & t3 & t4 & reply & A' & s' & Hd & Ht & Ht3 & Hsp & Hrest).
  pose proof Hres as (name & rest & _ & _ & _ & Hcm & Ha)%(Resolve_spec _ _ _ _ _ _ _ _ Hr).
  exists t1, t2, t3, t4, reply, A', s'. split; [exact Hd|]. split; [exact Ht|]. split; [exact Ht3|].
  split; [|exact Hrest]. split; [exact Hsp|].
  exact (unlogged_keeps cm pre spec args t1 t2 A reply A' Hcm Hm Ha Hsp).
Qed.
End Table.

(** ** Replay at a restart *)

Lemma asim_small a b : asim a b -> small_value a -> small_value b.
Proof.
  destruct a, b; simpl; intros H Ha; simplify_eq/=; try done.
  assert (size m = size m0) as <-; [|done].
  rewrite <- !size_dom. f_equal. apply set_eq. intros k. rewrite !elem_of_dom.
  specialize (H k). inversion H; split; intros [? ?]; try done; by eexists.
Qed.

Lemma sim_small δ T A B : sim δ T A B -> small A -> small B.
Proof.
  intros Hs HA k [b e] Hk. specialize (Hs k). rewrite Hk in Hs.
  destruct (A !! k) as [[a d]|] eqn:Ea; [|done]. destruct Hs as [Hab _].
  specialize (HA k (a, d) Ea). simpl in *. by eapply asim_small.
Qed.

Section Restart.
Context (parseFloat : bytes -> option float64) (formatFloat : float64 -> bytes) (quote : bytes -> bytes).
Context (δ : Z) (T : Time).

Abbreviation meanings := (Registry.meanings parseFloat formatFloat).

(** The record [l] takes the stores [As] to [As'] whenever it is replayed by [T]. *)
Definition replays_to (l : logged) (As As' : list astore) : Prop :=
  exists A A' name rest pre spec,
    0 <= l.1 /\ As !! Z.to_nat l.1 = Some A /\ As' = <[Z.to_nat l.1 := A']> As /\
    l.2 = name :: rest /\ (map lower_ascii name, (pre, spec)) ∈ meanings /\
    0 < len name <= maxCommandNameLen /\
    (forall maphash E cm, cm ∈ all_commands maphash parseFloat formatFloat quote E ->
      cmd_name cm = map lower_ascii name -> arity_ok (cmd_arity cm) (len l.2)) /\
    small A /\ Forall go_len l.2 /\ pre l.2 /\
    forall u1 u2 B r B', u1 <= u2 <= T -> spec u1 u2 l.2 B r B' -> sim δ T A B -> sim δ T A' B'.

(** The restarted server: its own hash seed, clock, level draws. *)
Context (maphash : bytes -> Z) (E : Env) (r : gmap bytes Command).
Context (Hpf : parses_f64 parseFloat).
Context (Hr : NewRegistry maphash parseFloat formatFloat quote E = Some r).
Context (HT : forall i, env_now E i <= T).

Abbreviation all_commands := (Registry.all_commands maphash parseFloat formatFloat quote E).

(** Every meaning belongs to a command. *)
Lemma meaning_command name x :
  (name, x) ∈ meanings -> exists cm, cm ∈ all_commands /\ cmd_name cm = name.
Proof.
  intros (i & Hi)%list_elem_of_lookup_1.
  destruct (Forall2_lookup_r _ _ _ _ _ (data_commands_refine maphash parseFloat formatFloat quote E Hpf) Hi)
    as (cm & Hcm & Hn & _). exists cm. split; [|exact Hn].
  apply data_commands_all. by eapply list_elem_of_lookup_2.
Qed.

(** A record of a data command is replayed as the command means, by the clock of
    the restart. *)
Lemma replay_runs l c u Bs B name rest pre spec :
  0 <= l.1 -> Bs !! Z.to_nat l.1 = Some B -> small B ->
  l.2 = name :: rest -> (map lower_ascii name, (pre, spec)) ∈ meanings -> 0 < len name <= maxCommandNameLen ->
  (forall cm, cm ∈ all_commands -> cmd_name cm = map lower_ascii name -> arity_ok (cmd_arity cm) (len l.2)) ->
  Forall go_len l.2 -> pre l.2 -> sess maphash E c u Bs ->
  exists c' u1 u2 reply B', replay r l.1 l.2 c = Ret (c', None) /\ u <= u1 <= u2 /\
    sess maphash E c' u2 (<[Z.to_nat l.1 := B']> Bs) /\ spec u1 u2 l.2 B reply B'.
Proof.
  intros H0 HB Hsm Hl Hm Hn Ha Hgo Hpre Hs. pose proof Hs as (HF & Hi & Hk & Hmono).
  assert (l.1 < len (c_databases c)) as Hlt.
  { apply lookup_lt_Some in HB. rewrite <- (Forall2_length _ _ _ HF) in HB. unfold len. lia. }
  unfold replay, Context_Select.
  rewrite (proj2 (Z.ltb_ge _ _)), (proj2 (Z.leb_gt _ _)) by lia. cbn [orb].
  set (c1 := set_index c l.1).
  assert (sess maphash E c1 u Bs) as Hs1
    by exact (conj HF (conj (conj H0 Hlt) (conj Hk Hmono))).
  assert (sel c1 Bs B) as Hsel by exact HB.
  destruct (meaning_command _ _ Hm) as (cm & Hcm & Hcn).
  assert (arity_ok (cmd_arity cm) (len l.2)) as Har by exact (Ha _ Hcm Hcn).
  assert (Resolve r l.2 = inl cm) as Hres.
  { apply (Resolve_spec _ _ _ _ _ _ _ _ Hr). exists name, rest.
    split; [exact Hl|]. split; [symmetry; exact Hcn|]. split; [exact Hn|]. split; [exact Hcm|exact Har]. }
  unfold Dispatch. rewrite Hres. rewrite <- Hcn in Hm.
  destruct (table_at maphash parseFloat formatFloat quote E
      (λ cm x, refines maphash E (cmd_arity cm) x.1 (cmd_run cm) x.2) cm (pre, spec)
      (data_commands_refine maphash parseFloat formatFloat quote E Hpf) Hcm Hm l.2
      c1 u Bs B Hs1 Hsel Hsm Hgo Har Hpre)
    as (u1 & u2 & c2 & reply & B' & Er & Hu & Hs2 & Hf & Hsp). cbn [snd] in Hsp.
  rewrite Er. orun. exists c2, u1, u2, reply, B'. split; [reflexivity|]. split; [exact Hu|].
  split; [exact Hs2|exact Hsp].
Qed.

Lemma replay_step l c u As As' Bs :
  replays_to l As As' -> sess maphash E c u Bs -> Forall2 (sim δ T) As Bs ->
  exists c' u' Bs', replay r l.1 l.2 c = Ret (c', None) /\
    sess maphash E c' u' Bs' /\ Forall2 (sim δ T) As' Bs'.
Proof.
  intros (A & A' & name & rest & pre & spec & H0 & HA & -> & Hl & Hm & Hn & Ha & Hsm & Hgo & Hpre & Hre) Hs Hsim.
  destruct (Forall2_lookup_l _ _ _ _ _ Hsim HA) as (B & HB & HAB).
  destruct (replay_runs l c u Bs B name rest pre spec H0 HB (sim_small _ _ _ _ HAB Hsm) Hl Hm Hn (Ha maphash E) Hgo Hpre Hs)
    as (c' & u1 & u2 & reply & B' & Er & Hu & Hs' & Hsp).
  exists c', u2, (<[Z.to_nat l.1 := B']> Bs). split; [exact Er|]. split; [exact Hs'|].
  apply Forall2_insert; [exact Hsim|]. eapply Hre; [|exact Hsp|exact HAB]. split; [lia|].
  destruct Hs' as (_ & _ & Hk2 & _). etrans; [exact Hk2|apply HT].
Qed.

(** A whole log. *)
Inductive replay_path : list logged -> list astore -> list astore -> Prop :=
  | path_nil As : replay_path [] As As
  | path_snoc cs l As As1 As2 :
      replay_path cs As As1 -> replays_to l As1 As2 -> replay_path (cs ++ [l]) As As2.

Lemma replay_log cs As As' :
  replay_path cs As As' ->
  forall c u Bs, sess maphash E c u Bs -> Forall2 (sim δ T) As Bs ->
  exists n c' u' Bs', replay_all (replay r) cs 0 c = Ret (n, None, c') /\
    sess maphash E c' u' Bs' /\ Forall2 (sim δ T) As' Bs'.
Proof.
  induction 1 as [As|cs l As As1 As2 _ IH Hl]; intros c u Bs Hs Hsim.
  { exists 0, c, u, Bs. split; [reflexivity|]. split; [exact Hs|exact Hsim]. }
  destruct (IH c u Bs Hs Hsim) as (n & c1 & u1 & Bs1 & Er & Hs1 & Hsim1).
  destruct (replay_step l c1 u1 As1 As2 Bs1 Hl Hs1 Hsim1) as (c2 & u2 & Bs2 & Er2 & Hs2 & Hsim2).
  exists (n + 1), c2, u2, Bs2. rewrite replay_all_app, Er. orun. destruct l as [db args].
  cbn [replay_all fst snd] in *. rewrite Er2. orun.
  split; [reflexivity|]. split; [exact Hs2|exact Hsim2].
Qed.
End Restart.
