(* ===== verification/Growth.v ===== *)
(** * How much a command can add

    A bound on the sizes of the values of a store (the bytes of a string, the
    elements of a collection), and that a command raises it by no more than the
    bytes of its request. So the sizes stay within an [int] for as long as the
    clients have not sent 2^63 bytes, and the meanings of the commands apply to
    whole conversations. *)

From S2P Require Import Prelude Pack Float64 Skiplist ValueList ValueHash ValueSet ValueZSet.
From S2P Require Import GoTime Value Keyspace Shard Strconv Resp Config Command Session.
From S2P Require Import CommandSpec CollectionSpec Registry Locality Replay.

Definition vsize (a : avalue) : Z :=
  match a with
  | AString b => len b
  | AList es => len es
  | AHash m => Z.of_nat (size m)
  | ASet X => Z.of_nat (size X)
  | AZSet m => Z.of_nat (size m)
  end.

Definition bounded (n : Z) (A : astore) : Prop := map_Forall (λ _ p, vsize p.1 <= n) A.

(** The bytes of a request, with what a number takes in decimal. *)
Definition total (args : list bytes) : Z := foldr (λ (a : bytes) n, len a + n) 0 args.
Definition weight (args : list bytes) : Z := 21 + len args + total args.

(** A meaning that adds no more than its request's weight. *)
Definition modest_growth (spec : aspec) : Prop := forall args t1 t2 A r A' n,
  spec t1 t2 args A r A' -> 0 <= n -> bounded n A -> bounded (n + weight args) A'.

(** ** Lemmas *)

Lemma bounded_small A : bounded MaxInt64 A -> small A.
Proof. intros H k [v d] Hk. specialize (H k _ Hk). destruct v; exact H. Qed.

Lemma bounded_mono n m A : bounded n A -> n <= m -> bounded m A.
Proof. intros H Hm k p Hk. specialize (H k p Hk). simpl in *. lia. Qed.

Lemma total_nonneg args : 0 <= total args.
Proof. induction args as [|a args IH]; cbn; [lia|]. pose proof (len_nonneg a). unfold total in IH. lia. Qed.

Lemma total_elem (a : bytes) args : a ∈ args -> len a <= total args.
Proof.
  induction 1 as [a args|a b args _ IH]; cbn; fold (total args).
  - pose proof (total_nonneg args). lia.
  - pose proof (len_nonneg b). lia.
Qed.

Lemma weight_args args :
  21 + len args <= weight args /\ forall a : bytes, a ∈ args -> 21 + len a <= weight args.
Proof.
  unfold weight. pose proof (len_nonneg args). split; [pose proof (total_nonneg args); lia|].
  intros a Ha%total_elem. lia.
Qed.

Lemma bounded_insert n A k a d : bounded n A -> vsize a <= n -> bounded n (<[k := (a, d)]> A).
Proof. intros H Ha. by apply map_Forall_insert_2. Qed.

Lemma bounded_delete n A k : bounded n A -> bounded n (delete k A).
Proof. apply map_Forall_delete. Qed.

Lemma bounded_get n A t k a d : bounded n A -> get t A k = Some (a, d) -> vsize a <= n.
Proof.
  intros H Hg. unfold get in Hg. destruct (A !! k) as [[a' d']|] eqn:Ek; [|done].
  specialize (H k _ Ek). cbn in H. destruct (dead d' t); [done|]. by injection Hg as -> ->.
Qed.

(** A meaning that only removes, replaces deadlines or reads. *)
Lemma keeps_modest spec :
  (forall args t1 t2 A r A' n, spec t1 t2 args A r A' -> bounded n A -> bounded n A') -> modest_growth spec.
Proof.
  intros H args t1 t2 A r A' n Hs _ Hb. eapply bounded_mono; [by eapply H|].
  destruct (weight_args args). pose proof (len_nonneg args). lia.
Qed.

Lemma set_modest : modest_growth spec_set.
Proof.
  intros args t1 t2 A r A' n (k & v & _ & Hv & _ & ->) Hn Hb. destruct (weight_args args) as [Hw Ha].
  apply list_elem_of_lookup_2 in Hv. specialize (Ha v Hv). pose proof (len_nonneg args).
  apply bounded_insert; [eapply bounded_mono; [exact Hb|lia]|cbn; lia].
Qed.

Lemma incr_modest delta : modest_growth (spec_incr delta).
Proof.
  intros args t1 t2 A r A' n (k & _ & H) Hn Hb. destruct (weight_args args) as [Hw _]. pose proof (len_nonneg args).
  assert (bounded (n + weight args) A) as Hb' by (eapply bounded_mono; [exact Hb|lia]).
  assert (forall m d, bounded (n + weight args) (<[k := (AString (FormatInt m), d)]> A)) as Hi.
  { intros m d. apply bounded_insert; [exact Hb'|]. cbn. pose proof (FormatInt_length m). unfold len in *. lia. }
  cbn zeta in H. repeat case_match; destruct H as [_ ->]; auto.
Qed.

Lemma del_modest : modest_growth spec_del.
Proof.
  apply keeps_modest. intros args t1 t2 A r A' n (name & keys & m & _ & _ & -> & _) Hb.
  revert A Hb. induction keys as [|k keys IH]; intros A Hb; [done|]. cbn. by apply IH, bounded_delete.
Qed.

Lemma set_deadline_bounded n t A key at_ : bounded n A -> bounded n (set_deadline t A key at_).
Proof.
  intros Hb. unfold set_deadline. destruct (get t A key) as [[v d]|] eqn:Eg; [|done].
  apply bounded_insert; [done|]. by eapply bounded_get.
Qed.

Lemma expire_modest : modest_growth spec_expire.
Proof.
  apply keeps_modest. intros args t1 t2 A r A' n (k & a & _ & _ & H) Hb.
  destruct (ParseInt a); destruct H as [_ ->]; [by apply set_deadline_bounded|done].
Qed.

Lemma pexpireat_modest : modest_growth spec_pexpireat.
Proof.
  apply keeps_modest. intros args t1 t2 A r A' n (k & a & _ & _ & H) Hb.
  destruct (ParseInt a); destruct H as [_ ->]; [by apply set_deadline_bounded|done].
Qed.

Lemma persist_modest : modest_growth spec_persist.
Proof.
  apply keeps_modest. intros args t1 t2 A r A' n (k & _ & _ & ->) Hb.
  unfold clear_deadline. destruct (get t1 A k) as [[v d]|] eqn:Eg; [|done].
  apply bounded_insert; [done|]. by eapply bounded_get.
Qed.

Lemma ping_modest : modest_growth spec_ping.
Proof. apply keeps_modest. by intros args t1 t2 A r A' n [-> _] Hb. Qed.

Lemma flushdb_modest : modest_growth spec_flushdb.
Proof. apply keeps_modest. intros args t1 t2 A r A' n [_ ->] Hb. apply map_Forall_empty. Qed.

(** *** Collections *)

Section Shapes.
Context {C X : Type} `{!Collection C X}.

Lemma see_bounded n t A key (x : X) d : bounded n A -> see t A key = Seen x d -> vsize (coll_inj x) <= n.
Proof.
  unfold see. intros Hb Hs. destruct (get t A key) as [[a d']|] eqn:Eg; [|done].
  destruct (coll_proj a) as [y|] eqn:Ep; [|done]. injection Hs as -> ->.
  rewrite <- (coll_proj_inj _ _ Ep). by eapply bounded_get.
Qed.

Lemma adds_modest (ch : X -> Reply -> X -> Prop) t key A r A' n k :
  adds C ch t key A r A' -> 0 <= n -> 0 <= k -> bounded n A -> vsize (coll_inj coll_empty) <= 0 ->
  (forall x r x', ch x r x' -> vsize (coll_inj x') <= vsize (coll_inj x) + k) -> bounded (n + k) A'.
Proof.
  intros H Hn Hk Hb He Hch. assert (bounded (n + k) A) as Hb' by (eapply bounded_mono; [exact Hb|lia]).
  unfold adds in H. destruct (see t A key) as [| |x d] eqn:Es.
  - destruct H as (x' & Hx & ->). apply bounded_insert; [done|]. specialize (Hch _ _ _ Hx). lia.
  - by destruct H as [_ ->].
  - destruct H as (x' & Hx & ->). apply bounded_insert; [done|]. specialize (Hch _ _ _ Hx).
    pose proof (see_bounded _ _ _ _ _ _ Hb Es). lia.
Qed.

Lemma removes_keeps missing (ch : X -> Reply -> X -> Prop) t key A r A' n :
  removes C missing ch t key A r A' -> bounded n A ->
  (forall x r x', ch x r x' -> vsize (coll_inj x') <= vsize (coll_inj x)) -> bounded n A'.
Proof.
  intros H Hb Hch. unfold removes in H. destruct (see t A key) as [| |x d] eqn:Es; [by destruct H as [_ ->]..|].
  destruct H as (x' & Hx & ->). specialize (Hch _ _ _ Hx). pose proof (see_bounded _ _ _ _ _ _ Hb Es).
  destruct (coll_is_empty x'); [by apply bounded_delete|]. apply bounded_insert; [done|lia].
Qed.
End Shapes.

Lemma drop_weight args : 0 <= len (drop 2 args) <= weight args.
Proof. destruct (weight_args args) as [Hw _]. unfold len in *. rewrite length_drop. lia. Qed.

Lemma push_modest front : modest_growth (spec_push front).
Proof.
  intros args t1 t2 A r A' n (k & vs & _ & -> & H) Hn Hb. pose proof (drop_weight args).
  eapply (adds_modest (C := List)); [exact H|done|lia|done|done|]. intros es r' es' [-> _]. unfold pushes.
  destruct front; cbn; unfold len in *; rewrite length_app, ?length_reverse; lia.
Qed.

Lemma pop_modest front : modest_growth (spec_pop front).
Proof.
  apply keeps_modest. intros args t1 t2 A r A' n (name & k & _ & _ & H) Hb.
  assert (forall m es, len (pops front m es).2 <= len es) as Hp.
  { intros m es. unfold pops, len. destruct front; cbn [snd]; rewrite ?length_reverse, length_drop, ?length_reverse; lia. }
  cbn zeta in H. destruct (drop 2 args) as [|a [|? ?]]; [|destruct (Atoi a) as [m|]; [destruct (m <? 0)|]|];
    try (by destruct H as [_ ->]); (eapply (removes_keeps (C := List)); [exact H|done|]; intros es r' es' [_ ->]; apply Hp).
Qed.

Lemma foldl_deletes_size {V} (fs : list bytes) : forall m : gmap bytes V, (size (foldl (λ m f, delete f m) m fs) <= size m)%nat.
Proof.
  induction fs as [|f fs IH]; intros m; [done|]. cbn. etransitivity; [apply IH|].
  destruct (m !! f) as [v|] eqn:E; [|by rewrite delete_id]. rewrite map_size_delete_Some by eauto. lia.
Qed.

Lemma insert_size {V} (m : gmap bytes V) k v : (size (<[k := v]> m) <= S (size m))%nat.
Proof. rewrite map_size_insert. destruct (m !! k); unfold id; lia. Qed.

Lemma hset_modest : modest_growth spec_hset.
Proof.
  intros args t1 t2 A r A' n (k & _ & H) Hn Hb. pose proof (drop_weight args).
  destruct (negb _); [destruct H as [_ ->]; eapply bounded_mono; [exact Hb|lia]|].
  eapply (adds_modest (C := Hash)); [exact H|done|lia|done|done|]. intros m r' m' [-> _]. cbn.
  assert (forall ps (m : gmap bytes bytes), (size (hsets ps m) <= size m + length ps)%nat) as Hs.
  { induction ps as [|p ps IH]; intros m0; cbn; [lia|]. etransitivity; [apply IH|]. pose proof (insert_size m0 p.1 p.2). lia. }
  assert (forall l, (length (field_values l) <= length l)%nat) as Hf.
  { fix IH 1. intros [|f [|v l]]; cbn; [lia|lia|]. specialize (IH l). lia. }
  specialize (Hs (field_values (drop 2 args)) m). specialize (Hf (drop 2 args)). unfold len in *. lia.
Qed.

Lemma hdel_modest : modest_growth spec_hdel.
Proof.
  apply keeps_modest. intros args t1 t2 A r A' n (k & _ & H) Hb. eapply (removes_keeps (C := Hash)); [exact H|done|].
  intros m r' m' [-> _]. cbn. pose proof (foldl_deletes_size (drop 2 args) m). lia.
Qed.

Lemma sadd_modest : modest_growth spec_sadd.
Proof.
  intros args t1 t2 A r A' n (k & _ & H) Hn Hb. pose proof (drop_weight args).
  eapply (adds_modest (C := GoSet)); [exact H|done|lia|done|done|]. intros Y r' Y' [-> _]. cbn.
  assert (forall (l : list bytes), (size (list_to_set l : gset bytes) <= length l)%nat) as Hl.
  { induction l as [|x l IH]; [done|]. cbn. rewrite size_union_alt, size_singleton.
    pose proof (subseteq_size (list_to_set l ∖ {[x]}) (list_to_set l : gset bytes) ltac:(set_solver)). lia. }
  rewrite size_union_alt. specialize (Hl (drop 2 args)).
  pose proof (subseteq_size (Y ∖ list_to_set (drop 2 args)) Y ltac:(set_solver)). unfold len in *. lia.
Qed.

Lemma srem_modest : modest_growth spec_srem.
Proof.
  apply keeps_modest. intros args t1 t2 A r A' n (k & _ & H) Hb. eapply (removes_keeps (C := GoSet)); [exact H|done|].
  intros Y r' Y' [-> _]. cbn. pose proof (subseteq_size (Y ∖ list_to_set (drop 2 args)) Y ltac:(set_solver)). lia.
Qed.

Lemma zadd_modest parseFloat : modest_growth (spec_zadd parseFloat).
Proof.
  intros args t1 t2 A r A' n (k & _ & H) Hn Hb. pose proof (drop_weight args).
  assert (bounded (n + weight args) A) as Hb' by (eapply bounded_mono; [exact Hb|lia]).
  destruct (negb _); [by destruct H as [_ ->]|].
  destruct (parse_pairs parseFloat (drop 2 args)) as [ps|] eqn:Ep; [|by destruct H as [_ ->]].
  eapply (adds_modest (C := ZSet)); [exact H|done|lia|done|done|]. intros m r' m' [Hz _]. cbn.
  assert (forall ps m, zadds ps m m' -> (size m' <= size m + length ps)%nat) as Hs.
  { clear. induction ps as [|[sc mb] ps IH]; intros m; cbn; [intros ->; lia|].
    intros (m1 & (s & -> & _) & Hm). specialize (IH _ Hm). pose proof (insert_size m mb s). lia. }
  assert (forall l ps, parse_pairs parseFloat l = Some ps -> (length ps <= length l)%nat) as Hf.
  { clear. fix IH 1. intros [|sc [|mb l]] ps; cbn; [intros [= <-]; cbn; lia..|].
    destruct (parseFloat sc) as [f|]; [|done]. cbn. destruct (IsNaN f); [done|].
    destruct (parse_pairs parseFloat l) as [ps1|] eqn:E; [|done]. cbn. intros [= <-]. specialize (IH l ps1 E). cbn. lia. }
  specialize (Hs ps m Hz). specialize (Hf _ _ Ep). unfold len in *. lia.
Qed.

(** ** Along the table *)

Section Table.
Context (maphash : bytes -> Z) (parseFloat : bytes -> option float64)
  (formatFloat : float64 -> bytes) (quote : bytes -> bytes) (E : Env).

Abbreviation data_commands := (Registry.data_commands maphash parseFloat formatFloat quote E).
Abbreviation meanings := (Registry.meanings parseFloat formatFloat).

Ltac rd := apply Forall2_cons_2; [split; [reflexivity|by left]|].
Ltac grows L := apply Forall2_cons_2; [split; [reflexivity|right; apply L]|].

Lemma table_modest :
  Forall2 (λ cm (m : bytes * ((list bytes -> Prop) * aspec)), cmd_name cm = m.1 /\
    (cmd_readOnly cm = true \/ modest_growth m.2.2)) data_commands meanings.
Proof.
  rd. grows set_modest. grows incr_modest. grows incr_modest. grows del_modest. grows del_modest. rd.
  grows expire_modest. grows pexpireat_modest. rd. grows persist_modest. rd.
  grows push_modest. grows push_modest. grows pop_modest. grows pop_modest. rd. rd.
  grows hset_modest. rd. grows hdel_modest. rd. grows sadd_modest. grows srem_modest. rd. rd.
  grows zadd_modest. rd. rd. grows ping_modest. grows flushdb_modest. by apply Forall2_nil.
Qed.

(** A command raises the bound by no more than the weight of its request. *)
Lemma command_modest (cm : Command) (pre : list bytes -> Prop) (spec : aspec) (args : list bytes) (t1 t2 : Time) (A : astore) (r : Reply) (A' : astore) (n : Z) :
  cm ∈ all_commands maphash parseFloat formatFloat quote E -> (cmd_name cm, (pre, spec)) ∈ meanings ->
  arity_ok (cmd_arity cm) (len args) -> spec t1 t2 args A r A' ->
  0 <= n -> bounded n A -> bounded (n + weight args) A'.
Proof.
  intros Hcm Hm Ha Hsp Hn Hb.
  destruct (table_at maphash parseFloat formatFloat quote E (λ cm x, cmd_readOnly cm = true \/ modest_growth x.2)
    cm (pre, spec) table_modest Hcm Hm) as [Hro|Hg]; [|by eapply Hg].
  rewrite (unlogged_keeps maphash parseFloat formatFloat quote E cm pre spec args t1 t2 A r A' Hcm Hm Ha Hsp (or_introl Hro)).
  eapply bounded_mono; [exact Hb|]. destruct (weight_args args). pose proof (len_nonneg args). lia.
Qed.
End Table.
