(* ===== verification/Concurrent.v ===== *)
(** * Commands that run at the same time

    The goroutines of Locking, with what they do between their locks: a command
    reads the keys it needs one after the other, writes its results back one key
    at a time, is recorded (the append to the log, under the shard locks) and only
    then releases. Nothing in between is atomic. Every run is shown to have the
    outcome of the recorded commands run one after the other, in the order in
    which they were recorded: so the order of the log is an order in which the
    commands could have run, and what a compaction captures under the locks of
    every database is the state after exactly the commands logged so far. *)

From S2P Require Import Prelude Pack Float64 Skiplist ValueList ValueHash ValueSet ValueZSet.
From S2P Require Import GoTime Value Keyspace Shard Locking Strconv Resp Config Command Session.
From S2P Require Import CommandSpec CollectionSpec Registry Locality Codec Store ServerLocks Server Replay.

(** ** The machine *)

(** The keys a command may touch; [None] is the whole database. *)
Abbreviation footprint := (option (list bytes)).

Definition covers (f : footprint) (k : bytes) : Prop :=
  match f with None => True | Some ks => k ∈ ks end.

#[global] Instance covers_dec f k : Decision (covers f k).
Proof. destruct f; simpl; apply _. Defined.

Definition join (f f' : footprint) : footprint :=
  match f, f' with Some ks, Some ks' => Some (ks ++ ks') | _, _ => None end.

Lemma covers_join (f f' : footprint) k : covers (join f f') k -> covers f k \/ covers f' k.
Proof. destruct f, f'; cbn; rewrite ?elem_of_app; tauto. Qed.

Definition footprint_of (cm : Command) (args : list bytes) : outcome footprint :=
  if cmd_wholeDB cm then Ret None else ks ← Command_Keys cm args; Ret (Some ks).

(** A command being run: which of its keys it has read so far, what it has read
    of them, and, once it has computed, its clock readings, its reply and what it
    writes. *)
Record job := mkJob {
  jb_db : nat;
  jb_cm : Command;
  jb_spec : aspec;
  jb_args : list bytes;
  jb_foot : footprint;
  jb_read : footprint;
  jb_view : astore;
  jb_done : option (Time * Time * Reply * astore) }.

Definition job_done (j : job) (x : Time * Time * Reply * astore) : job :=
  mkJob (jb_db j) (jb_cm j) (jb_spec j) (jb_args j) (jb_foot j) (jb_read j) (jb_view j) (Some x).

Definition job_reads (j : job) (f : footprint) (V : astore) : job :=
  mkJob (jb_db j) (jb_cm j) (jb_spec j) (jb_args j) (jb_foot j) (join f (jb_read j)) V (jb_done j).

(** A command that has been run, with its clock readings and its reply. *)
Record event := mkEvent {
  ev_db : nat; ev_cm : Command; ev_args : list bytes; ev_t1 : Time; ev_t2 : Time; ev_reply : Reply }.

(** Whether the command is appended to the log. *)
Definition ev_logged (ev : event) : bool :=
  negb (cmd_readOnly (ev_cm ev)) && negb (IsError (ev_reply ev)).

Record conc := mkConc {
  cc_locks : system;
  cc_jobs : gmap nat job;
  cc_stores : list astore;
  cc_hist : list event }.

(** A goroutine with a command in progress releases nothing. *)
Definition keeps_locks (jobs : gmap nat job) (L L' : system) : Prop :=
  forall i g, is_Some (jobs !! i) -> L !! i = Some g ->
    exists g', L' !! i = Some g' /\ g_held g ⊆ g_held g'.

Section Concurrent.
Context (maphash : bytes -> Z) (parseFloat : bytes -> option float64)
  (formatFloat : float64 -> bytes) (quote : bytes -> bytes) (E : Env).

(** The databases, for the number of their shards. *)
Context (dbs : list DB).

Abbreviation all_commands := (Registry.all_commands maphash parseFloat formatFloat quote E).
Abbreviation meanings := (Registry.meanings parseFloat formatFloat).

(** What makes [j] a command that goroutine [g] may run: a request of the right
    arity for a command of the table, its locks held. *)
Definition entitled (g : goroutine) (j : job) : Prop :=
  exists pre db p,
    jb_cm j ∈ all_commands /\ (cmd_name (jb_cm j), (pre, jb_spec j)) ∈ meanings /\
    arity_ok (cmd_arity (jb_cm j)) (len (jb_args j)) /\
    dbs !! jb_db j = Some db /\
    execute_locks maphash (Z.of_nat (jb_db j)) db (jb_cm j) (jb_args j) = Ret p /\ p ⊆ g_held g /\
    footprint_of (jb_cm j) (jb_args j) = Ret (jb_foot j).

(** The steps of the goroutines. A command begins with nothing read; [conc_read]
    reads some of its keys at that moment (one key, or the whole database for a
    command without keys), and can be taken any number of times before it computes
    from what it has read. *)
Inductive conc_step (c : conc) : conc -> Prop :=
  | conc_lock L' :
      lock_step (server_section maphash dbs) (cc_locks c) L' -> keeps_locks (cc_jobs c) (cc_locks c) L' ->
      conc_step c (mkConc L' (cc_jobs c) (cc_stores c) (cc_hist c))
  | conc_begin i g j A :
      cc_locks c !! i = Some g -> cc_jobs c !! i = None -> entitled g j -> jb_done j = None ->
      cc_stores c !! jb_db j = Some A -> jb_read j = Some [] ->
      conc_step c (mkConc (cc_locks c) (<[i := j]> (cc_jobs c)) (cc_stores c) (cc_hist c))
  | conc_read i j A f V :
      cc_jobs c !! i = Some j -> jb_done j = None -> cc_stores c !! jb_db j = Some A ->
      (forall k, covers f k -> V !! k = A !! k) -> (forall k, ~ covers f k -> V !! k = jb_view j !! k) ->
      conc_step c (mkConc (cc_locks c) (<[i := job_reads j f V]> (cc_jobs c)) (cc_stores c) (cc_hist c))
  | conc_compute i j t1 t2 r V :
      cc_jobs c !! i = Some j -> jb_done j = None -> (forall k, covers (jb_foot j) k -> covers (jb_read j) k) ->
      jb_spec j t1 t2 (jb_args j) (jb_view j) r V ->
      conc_step c (mkConc (cc_locks c) (<[i := job_done j (t1, t2, r, V)]> (cc_jobs c)) (cc_stores c) (cc_hist c))
  | conc_write i j t1 t2 r V k :
      cc_jobs c !! i = Some j -> jb_done j = Some (t1, t2, r, V) -> cmd_readOnly (jb_cm j) = false ->
      covers (jb_foot j) k ->
      conc_step c (mkConc (cc_locks c) (cc_jobs c)
        (alter (partial_alter (λ _, V !! k) k) (jb_db j) (cc_stores c)) (cc_hist c))
  | conc_finish i j t1 t2 r V A :
      cc_jobs c !! i = Some j -> jb_done j = Some (t1, t2, r, V) ->
      cc_stores c !! jb_db j = Some A -> (forall k, covers (jb_foot j) k -> A !! k = V !! k) ->
      conc_step c (mkConc (cc_locks c) (delete i (cc_jobs c)) (cc_stores c)
        (cc_hist c ++ [mkEvent (jb_db j) (jb_cm j) (jb_args j) t1 t2 r])).

Definition conc_init (n : nat) (As : list astore) : conc := mkConc (init n) ∅ As [].

(** ** Running one after the other *)

Inductive serial (As : list astore) : list event -> list astore -> Prop :=
  | serial_nil : serial As [] As
  | serial_snoc h Bs ev pre spec A A' :
      serial As h Bs ->
      ev_cm ev ∈ all_commands -> (cmd_name (ev_cm ev), (pre, spec)) ∈ meanings ->
      arity_ok (cmd_arity (ev_cm ev)) (len (ev_args ev)) ->
      Bs !! ev_db ev = Some A -> spec (ev_t1 ev) (ev_t2 ev) (ev_args ev) A (ev_reply ev) A' ->
      serial As (h ++ [ev]) (<[ev_db ev := A']> Bs).

Lemma serial_length As h Bs : serial As h Bs -> length Bs = length As.
Proof. induction 1; [done|]. by rewrite length_insert. Qed.

(** The commands that are not logged may be left out. *)
Lemma serial_log As h Bs : serial As h Bs -> serial As (filter (λ ev, ev_logged ev) h) Bs.
Proof.
  induction 1 as [|h Bs ev pre spec A A' Hs IH Hcm Hm Ha HA Hsp]; [constructor|].
  rewrite filter_app, filter_cons, filter_nil. destruct (decide (ev_logged ev)) as [Hl|Hl].
  - by eapply serial_snoc.
  - rewrite app_nil_r.
    assert (A' = A) as ->; [|by rewrite list_insert_id].
    eapply unlogged_keeps; [exact Hcm|exact Hm|exact Ha|exact Hsp|].
    unfold ev_logged in Hl. destruct (cmd_readOnly (ev_cm ev)); [by left|right].
    by destruct (IsError (ev_reply ev)).
Qed.

(** ** Lemmas: what the locks of a command protect *)

Context (Hshards : Forall (λ db, 0 < len (shards db)) dbs).

Lemma ShardOf_range db k : 0 < len (shards db) -> 0 <= ShardOf maphash db k < len (shards db).
Proof. intros Hl. unfold ShardOf, indexBytes. by apply Z.mod_pos_bound. Qed.

(** The shard of every key of the footprint is held, in the command's mode. *)
Lemma entitled_holds g j k :
  entitled g j -> covers (jb_foot j) k ->
  exists db, dbs !! jb_db j = Some db /\
    (lock_mode (jb_cm j), ShardLock (Z.of_nat (jb_db j)) (ShardOf maphash db k)) ∈ g_held g.
Proof.
  intros (pre & db & p & Hcm & _ & _ & Hdb & Hp & Hh & Hf) Hk. exists db. split; [done|]. apply Hh.
  unfold footprint_of in Hf. destruct (cmd_wholeDB (jb_cm j)) eqn:Hw.
  - rewrite fast_path_general in Hp. unfold lockShards in Hp. rewrite Hw in Hp. injection Hp as <-.
    assert (lock_mode (jb_cm j) = Wr) as ->.
    { unfold lock_mode. destruct (cmd_readOnly (jb_cm j)) eqn:Hro; [|done].
      by rewrite (readOnly_not_whole maphash parseFloat formatFloat quote E _ Hcm Hro) in Hw. }
    apply list_elem_of_fmap. eexists. split; [done|]. apply elem_of_seqZ.
    pose proof (ShardOf_range db k (Forall_lookup_1 _ _ _ _ Hshards Hdb)). lia.
  - destruct (Command_Keys (jb_cm j) (jb_args j)) as [ks| |] eqn:Hks; [|done..]. cbn in Hf.
    injection Hf as Hf. rewrite <- Hf in Hk. rewrite (execute_locks_keys _ _ _ _ _ _ Hw Hks) in Hp.
    injection Hp as <-. by apply elem_of_key_plan.
Qed.

(** Commands of two goroutines share a key only to read it. *)
Lemma shared_key L i1 g1 j1 i2 g2 j2 k :
  exclusive L -> i1 <> i2 -> L !! i1 = Some g1 -> L !! i2 = Some g2 -> entitled g1 j1 -> entitled g2 j2 ->
  jb_db j1 = jb_db j2 -> covers (jb_foot j1) k -> covers (jb_foot j2) k ->
  cmd_readOnly (jb_cm j1) = true /\ cmd_readOnly (jb_cm j2) = true.
Proof.
  intros Hex Hne H1 H2 Ha1 Ha2 Hd Hk1 Hk2.
  destruct (entitled_holds g1 j1 k Ha1 Hk1) as (db1 & E1 & G1).
  destruct (entitled_holds g2 j2 k Ha2 Hk2) as (db2 & E2 & G2).
  rewrite Hd, E2 in E1. injection E1 as <-. rewrite Hd in G1.
  unfold lock_mode in *. destruct (cmd_readOnly (jb_cm j1)), (cmd_readOnly (jb_cm j2)); [done|exfalso..].
  - apply Hne. symmetry. eapply Hex; eexists; (split; [eassumption|]); eassumption.
  - apply Hne. eapply Hex; eexists; (split; [eassumption|]); eassumption.
  - apply Hne. eapply Hex; eexists; (split; [eassumption|]); eassumption.
Qed.

(** A command run on what it has read does the same on any store that agrees. *)
Lemma entitled_local (g : goroutine) (j : job) (t1 t2 : Time) (r : Reply) (V S : astore) :
  entitled g j -> jb_spec j t1 t2 (jb_args j) (jb_view j) r V ->
  (forall k, covers (jb_foot j) k -> jb_view j !! k = S !! k) ->
  exists S', jb_spec j t1 t2 (jb_args j) S r S' /\
    (forall k, covers (jb_foot j) k -> S' !! k = V !! k) /\
    (forall k, ~ covers (jb_foot j) k -> S' !! k = S !! k).
Proof.
  intros (pre & db & p & Hcm & Hm & Ha & _ & _ & _ & Hf) Hsp Hv. unfold footprint_of in Hf.
  destruct (cmd_wholeDB (jb_cm j)) eqn:Hw.
  - injection Hf as Hf. rewrite <- Hf in *. assert (jb_view j = S) as <-; [by apply map_eq; intros k; apply Hv|].
    exists V. split; [done|]. split; [done|]. intros k Hn. by destruct Hn.
  - destruct (table_at maphash parseFloat formatFloat quote E (λ cm x, Locality.covered cm x.2)
      (jb_cm j) (pre, jb_spec j) (table_covered _ _ _ _ _) Hcm Hm (jb_args j) Ha Hw) as (ks & Hks & Hl & _).
    rewrite Hks in Hf. injection Hf as Hf. rewrite <- Hf in *.
    destruct (Hl _ _ _ _ _ Hsp) as [_ Hin]. destruct (Hin S) as (S' & HS & Hi & Ho).
    { intros k Hk. symmetry. by apply Hv. }
    by exists S'.
Qed.

Lemma entitled_readOnly (g : goroutine) (j : job) (t1 t2 : Time) (r : Reply) (V : astore) :
  entitled g j -> jb_spec j t1 t2 (jb_args j) (jb_view j) r V -> cmd_readOnly (jb_cm j) = true -> V = jb_view j.
Proof.
  intros (pre & db & p & Hcm & Hm & Ha & _) Hsp Hro.
  eapply unlogged_keeps; [exact Hcm|exact Hm|exact Ha|exact Hsp|by left].
Qed.

(** More locks do no harm. *)
Lemma entitled_mono g g' j : g_held g ⊆ g_held g' -> entitled g j -> entitled g' j.
Proof.
  intros Hs (pre & db & p & Hcm & Hm & Ha & Hdb & Hp & Hh & Hf). exists pre, db, p. split_and!; try done.
  by transitivity (g_held g).
Qed.

(** ** The invariant *)

(** The command [j] of goroutine [i] holds its locks, and what it has read is
    what the serial stores [Ss] have. *)
Definition job_ok (L : system) (Ss : list astore) (i : nat) (j : job) : Prop :=
  exists g S, L !! i = Some g /\ entitled g j /\ Ss !! jb_db j = Some S /\
    (forall k, covers (jb_foot j) k -> covers (jb_read j) k -> jb_view j !! k = S !! k) /\
    match jb_done j with
    | Some (t1, t2, r, V) =>
        (forall k, covers (jb_foot j) k -> covers (jb_read j) k) /\ jb_spec j t1 t2 (jb_args j) (jb_view j) r V
    | None => True
    end.

(** Whether [j] may have written to key [k] of database [d]. *)
Definition writes (j : job) (d : nat) (k : bytes) : Prop :=
  jb_db j = d /\ is_Some (jb_done j) /\ cmd_readOnly (jb_cm j) = false /\ covers (jb_foot j) k.

(** Away from the keys being written, the stores are the serial ones. *)
Definition settled_at (c : conc) (Ss : list astore) : Prop :=
  forall d S A k, Ss !! d = Some S -> cc_stores c !! d = Some A ->
    (forall i j, cc_jobs c !! i = Some j -> ~ writes j d k) -> A !! k = S !! k.

Definition conc_inv (As : list astore) (c : conc) : Prop :=
  exists Ss, serial As (cc_hist c) Ss /\ length Ss = length (cc_stores c) /\ exclusive (cc_locks c) /\
    map_Forall (job_ok (cc_locks c) Ss) (cc_jobs c) /\ settled_at c Ss.

Lemma inv_lock As c L' :
  lock_step (server_section maphash dbs) (cc_locks c) L' -> keeps_locks (cc_jobs c) (cc_locks c) L' ->
  conc_inv As c -> conc_inv As (mkConc L' (cc_jobs c) (cc_stores c) (cc_hist c)).
Proof.
  intros Hst Hk (Ss & Hs & Hl & Hex & Hj & Hset). exists Ss. split_and!; [done|done| | |done].
  - by eapply lock_step_exclusive.
  - intros i j Hi. destruct (Hj i j Hi) as (g & S & Hg & Ha & Hrest).
    destruct (Hk i g) as (g' & Hg' & Hsub); [by eexists|done|].
    exists g', S. split_and!; [done|by eapply entitled_mono|by apply Hrest..].
Qed.

Lemma inv_begin (As : list astore) (c : conc) (i : nat) (g : goroutine) (j : job) (A : astore) :
  cc_locks c !! i = Some g -> cc_jobs c !! i = None -> entitled g j -> jb_done j = None ->
  cc_stores c !! jb_db j = Some A -> jb_read j = Some [] ->
  conc_inv As c -> conc_inv As (mkConc (cc_locks c) (<[i := j]> (cc_jobs c)) (cc_stores c) (cc_hist c)).
Proof.
  intros Hg Hn Ha Hd HA Hrd (Ss & Hs & Hl & Hex & Hj & Hset).
  destruct (lookup_lt_is_Some_2 Ss (jb_db j)) as [S HS].
  { rewrite Hl. by eapply lookup_lt_Some. }
  exists Ss. split_and!; [done..| |].
  - apply map_Forall_insert_2; [|done]. exists g, S. split_and!; [done..| |by rewrite Hd].
    rewrite Hrd. intros k _ Hk. by apply elem_of_nil in Hk.
  - intros d S' A' k HS' HA' Hw. eapply Hset; [done..|]. intros i' j' Hi'. apply (Hw i').
    cbn [cc_jobs]. rewrite lookup_insert_ne; [done|]. intros ->. congruence.
Qed.

(** A key is read while its shard is held, so nobody is writing it. *)
Lemma inv_read (As : list astore) (c : conc) (i : nat) (j : job) (A : astore) (f : footprint) (V : astore) :
  cc_jobs c !! i = Some j -> jb_done j = None -> cc_stores c !! jb_db j = Some A ->
  (forall k, covers f k -> V !! k = A !! k) -> (forall k, ~ covers f k -> V !! k = jb_view j !! k) ->
  conc_inv As c ->
  conc_inv As (mkConc (cc_locks c) (<[i := job_reads j f V]> (cc_jobs c)) (cc_stores c) (cc_hist c)).
Proof.
  intros Hi Hd HA Hin Hout (Ss & Hs & Hl & Hex & Hj & Hset). exists Ss. split_and!; [done..| |].
  - apply map_Forall_insert_2; [|done]. destruct (Hj i j Hi) as (g & S & Hg & Ha & HS & Hv & _).
    exists g, S. split_and!; [done..| |by cbn; rewrite Hd]. cbn [job_reads jb_foot jb_read jb_view jb_db].
    intros k Hk Hr. destruct (decide (covers f k)) as [Hf|Hf].
    + rewrite (Hin k Hf). eapply Hset; [done..|]. intros i' j' Hi' (Hdb & [x Hx] & Hro & Hk').
      destruct (Hj i' j' Hi') as (g' & _ & Hg' & Ha' & _).
      assert (i <> i') by (intros ->; congruence).
      destruct (shared_key (cc_locks c) i g j i' g' j' k) as [_ Hro']; [done..|]. congruence.
    + rewrite (Hout k Hf). apply Hv; [done|]. by destruct (covers_join _ _ _ Hr).
  - intros d S' A' k HS' HA' Hw. eapply Hset; [done..|]. intros i' j' Hi' Hwr.
    destruct (decide (i = i')) as [<-|Hne].
    + assert (j' = j) as -> by congruence. destruct Hwr as (_ & [x Hx] & _). congruence.
    + apply (Hw i' j'); [|done]. cbn. by rewrite lookup_insert_ne.
Qed.

Lemma inv_compute (As : list astore) (c : conc) (i : nat) (j : job) (t1 t2 : Time) (r : Reply) (V : astore) :
  cc_jobs c !! i = Some j -> jb_done j = None -> (forall k, covers (jb_foot j) k -> covers (jb_read j) k) ->
  jb_spec j t1 t2 (jb_args j) (jb_view j) r V -> conc_inv As c ->
  conc_inv As (mkConc (cc_locks c) (<[i := job_done j (t1, t2, r, V)]> (cc_jobs c)) (cc_stores c) (cc_hist c)).
Proof.
  intros Hi Hd Hall Hsp (Ss & Hs & Hl & Hex & Hj & Hset). exists Ss. split_and!; [done..| |].
  - apply map_Forall_insert_2; [|done].
    destruct (Hj i j Hi) as (g & S & Hg & Ha & HS & Hv & _). by exists g, S.
  - intros d S' A' k HS' HA' Hw. eapply Hset; [done..|]. intros i' j' Hi' Hwr.
    destruct (decide (i = i')) as [<-|Hne].
    + assert (j' = j) as -> by congruence. destruct Hwr as (_ & [x Hx] & _). congruence.
    + apply (Hw i' j'); [|done]. cbn. by rewrite lookup_insert_ne.
Qed.

Lemma inv_write (As : list astore) (c : conc) (i : nat) (j : job) (t1 t2 : Time) (r : Reply) (V : astore) (k : bytes) :
  cc_jobs c !! i = Some j -> jb_done j = Some (t1, t2, r, V) -> cmd_readOnly (jb_cm j) = false ->
  covers (jb_foot j) k -> conc_inv As c ->
  conc_inv As (mkConc (cc_locks c) (cc_jobs c)
    (alter (partial_alter (λ _, V !! k) k) (jb_db j) (cc_stores c)) (cc_hist c)).
Proof.
  intros Hi Hd Hro Hk (Ss & Hs & Hl & Hex & Hj & Hset). exists Ss.
  split_and!; [done|by cbn; rewrite length_alter|done|done|].
  intros d S A k' HS HA Hw. cbn [cc_stores cc_jobs] in HA, Hw.
  destruct (decide (jb_db j = d)) as [Hdb|Hdb]; [|rewrite list_lookup_alter_ne in HA by done; by eapply Hset].
  destruct (decide (k' = k)) as [->|Hkk].
  { destruct (Hw i j Hi). split_and!; [done|by eexists|done..]. }
  subst d. rewrite list_lookup_alter_eq in HA. destruct (cc_stores c !! jb_db j) as [A0|] eqn:HA0; [|done].
  injection HA as <-. rewrite lookup_partial_alter_ne by done. by eapply Hset.
Qed.

Lemma inv_finish (As : list astore) (c : conc) (i : nat) (j : job) (t1 t2 : Time) (r : Reply) (V A : astore) :
  cc_jobs c !! i = Some j -> jb_done j = Some (t1, t2, r, V) ->
  cc_stores c !! jb_db j = Some A -> (forall k, covers (jb_foot j) k -> A !! k = V !! k) ->
  conc_inv As c ->
  conc_inv As (mkConc (cc_locks c) (delete i (cc_jobs c)) (cc_stores c)
    (cc_hist c ++ [mkEvent (jb_db j) (jb_cm j) (jb_args j) t1 t2 r])).
Proof.
  intros Hi Hd HA Heq (Ss & Hs & Hl & Hex & Hj & Hset).
  destruct (Hj i j Hi) as (g & S & Hg & Ha & HS & Hv0 & Hsp). rewrite Hd in Hsp. destruct Hsp as [Hall Hsp].
  assert (forall k, covers (jb_foot j) k -> jb_view j !! k = S !! k) as Hv by (intros k Hk; by apply Hv0, Hall).
  destruct (entitled_local g j t1 t2 r V S Ha Hsp Hv) as (S' & HS' & Hin & Hout).
  exists (<[jb_db j := S']> Ss). split_and!.
  - pose proof Ha as (pre & db & p & Hcm & Hm & Har & _).
    by apply (serial_snoc As (cc_hist c) Ss (mkEvent (jb_db j) (jb_cm j) (jb_args j) t1 t2 r) pre (jb_spec j) S S').
  - by rewrite length_insert.
  - done.
  - intros i' j' Hi'. cbn [cc_jobs cc_locks] in *. apply lookup_delete_Some in Hi' as [Hne Hi'].
    destruct (Hj i' j' Hi') as (g' & T & Hg' & Ha' & HT & Hv' & Hsp').
    destruct (decide (jb_db j = jb_db j')) as [Hdb|Hdb];
      [|exists g', T; split_and!; [done|done|by rewrite list_lookup_insert_ne|done|done]].
    exists g', S'. rewrite Hdb in HS. assert (T = S) as -> by congruence. split_and!; [done|done| | |done].
    { rewrite Hdb. apply list_lookup_insert_eq. by eapply lookup_lt_Some. }
    intros k Hk Hk'. rewrite (Hv' k Hk Hk'). destruct (decide (covers (jb_foot j) k)) as [Hc|Hc]; [|by rewrite Hout].
    destruct (shared_key (cc_locks c) i g j i' g' j' k) as [Hro _]; [done..|].
    by rewrite (Hin k Hc), (entitled_readOnly g j t1 t2 r V Ha Hsp Hro), Hv.
  - intros d T B k HT HB Hw. cbn [cc_stores cc_jobs] in HB, Hw.
    destruct (decide (jb_db j = d)) as [<-|Hne].
    + rewrite list_lookup_insert_eq in HT by by eapply lookup_lt_Some. injection HT as <-.
      assert (B = A) as -> by congruence.
      destruct (decide (covers (jb_foot j) k)) as [Hc|Hc]; [by rewrite Hin, Heq|].
      rewrite Hout by done. eapply Hset; [done..|]. intros i' j' Hi' Hwr.
      destruct (decide (i = i')) as [<-|Hii]; [assert (j' = j) as -> by congruence; by apply Hc, Hwr|].
      apply (Hw i' j'); [by rewrite lookup_delete_ne|done].
    + rewrite list_lookup_insert_ne in HT by done. eapply Hset; [done..|]. intros i' j' Hi' Hwr.
      destruct (decide (i = i')) as [<-|Hii]; [assert (j' = j) as -> by congruence; by apply Hne, Hwr|].
      apply (Hw i' j'); [by rewrite lookup_delete_ne|done].
Qed.

Lemma conc_step_inv As c c' : conc_step c c' -> conc_inv As c -> conc_inv As c'.
Proof.
  destruct 1; [by apply inv_lock|by eapply inv_begin|by eapply inv_read|by apply inv_compute|by eapply inv_write|by eapply inv_finish].
Qed.

Lemma conc_reachable_inv n As c : rtc conc_step (conc_init n As) c -> conc_inv As c.
Proof.
  intros Hr. apply (rtc_ind_r (R := conc_step) (conc_inv As) (conc_init n As)); [| |exact Hr].
  - exists As. split_and!; [constructor|done| |apply map_Forall_empty|].
    + intros i j m l (g & [-> _]%lookup_replicate_1 & Hin) _. by apply elem_of_nil in Hin.
    + intros d S A k HS HA _. cbn in HA. congruence.
  - intros c1 c2 _ Hst Hi. by eapply conc_step_inv.
Qed.

(** Whoever holds every shard of every database for writing sees the serial
    stores, and so does everybody when no command is in progress. *)
Lemma settled_stores As c Ss :
  serial As (cc_hist c) Ss -> length Ss = length (cc_stores c) -> settled_at c Ss ->
  (forall i j d k, cc_jobs c !! i = Some j -> ~ writes j d k) -> cc_stores c = Ss.
Proof.
  intros _ Hl Hset Hn. apply list_eq. intros d.
  destruct (cc_stores c !! d) as [A|] eqn:HA, (Ss !! d) as [S|] eqn:HS; [| | |done].
  - f_equal. apply map_eq. intros k. eapply Hset; [done..|]. intros i j Hi. by apply (Hn i).
  - apply lookup_lt_Some in HA. apply lookup_ge_None in HS. lia.
  - apply lookup_lt_Some in HS. apply lookup_ge_None in HA. lia.
Qed.

Lemma lock_databases_shard d0 l d db i :
  l !! d = Some db -> 0 <= i < len (shards db) -> (Wr, ShardLock (d0 + Z.of_nat d) i) ∈ lock_databases d0 l.
Proof.
  revert d0 d. induction l as [|db0 l IH]; intros d0 d Hd Hi; [done|]. cbn [lock_databases]. apply elem_of_app.
  destruct d as [|d]; [injection Hd as ->; left|right].
  - apply list_elem_of_fmap. exists i. split; [by rewrite Z.add_0_r|]. apply elem_of_seqZ. lia.
  - replace (d0 + Z.of_nat (S d)) with (d0 + 1 + Z.of_nat d) by lia. by apply IH.
Qed.

Lemma capturer_alone c i g :
  exclusive (cc_locks c) -> cc_locks c !! i = Some g -> lockAllDatabases dbs ⊆ g_held g -> cc_jobs c !! i = None ->
  forall Ss, map_Forall (job_ok (cc_locks c) Ss) (cc_jobs c) ->
  forall i' j d k, cc_jobs c !! i' = Some j -> ~ writes j d k.
Proof.
  intros Hex Hg Hall Hn Ss Hj i' j d k Hi' (_ & _ & Hro & Hk).
  destruct (Hj i' j Hi') as (g' & _ & Hg' & Ha & _).
  destruct (entitled_holds g' j k Ha Hk) as (db & Hdb & Hh).
  assert (i = i') as <-; [|congruence].
  eapply Hex; eexists; (split; [eassumption|]); [|exact Hh]. apply Hall.
  apply (lock_databases_shard 0 dbs (jb_db j) db); [done|]. apply ShardOf_range.
  exact (Forall_lookup_1 _ _ _ _ Hshards Hdb).
Qed.

Lemma hist_grows c c' : rtc conc_step c c' -> cc_hist c `prefix_of` cc_hist c'.
Proof.
  induction 1 as [|c1 c2 c3 Hst _ IH]; [done|]. etransitivity; [|exact IH].
  destruct Hst; cbn; try done. by apply prefix_app_r.
Qed.

(** ** Property *)

(** C11. Commands are atomic. Any number of goroutines run any commands at the
    same time, taking their locks as the server does, reading their keys and
    writing them back in any interleaving. In every reachable state the commands
    recorded so far could have run one after the other, in the order in which
    they were recorded, with the same replies, and so could the logged ones alone,
    with the same stores in the end; the databases hold exactly those stores
    whenever no command is in progress, and, while some are, for whoever holds
    every shard of every database, as the capture of a compaction does. A command
    recorded before another began comes before it. *)
Theorem commands_linearizable n As c :
  rtc conc_step (conc_init n As) c ->
  exists Ss, serial As (cc_hist c) Ss /\ serial As (filter (λ ev, ev_logged ev) (cc_hist c)) Ss /\
    (cc_jobs c = ∅ -> cc_stores c = Ss) /\
    (forall i g, cc_locks c !! i = Some g -> lockAllDatabases dbs ⊆ g_held g -> cc_jobs c !! i = None ->
      cc_stores c = Ss) /\
    (forall c', rtc conc_step c c' -> cc_hist c `prefix_of` cc_hist c').
Proof.
  intros (Ss & Hs & Hl & Hex & Hj & Hset)%conc_reachable_inv. exists Ss.
  split; [exact Hs|]. split; [by apply serial_log|]. split; [|split; [|apply hist_grows]].
  - intros H0. eapply settled_stores; [done..|]. intros i j d k. by rewrite H0, lookup_empty.
  - intros i g Hg Hall Hn. eapply settled_stores; [done..|]. by eapply capturer_alone.
Qed.
End Concurrent.

(** ** Witness

    Goroutine 0 runs SET a 1 and goroutine 1 SET bb 2, interleaved; the second
    is recorded first. *)

Definition set_job (key val : string) (read : list bytes) (V : option astore) : job :=
  mkJob 0 example_set spec_set (set_on key val) (Some [lit key]) (Some read) ∅
    ((λ V, (5, 5, Reply_OK, V)) <$> V).

Definition set_event (key val : string) : event := mkEvent 0 example_set (set_on key val) 5 5 Reply_OK.

Definition put_string (key val : string) (A : astore) : astore := <[lit key := (AString (lit val), zeroTime)]> A.

Definition both_set : conc :=
  mkConc held_example ∅ [put_string "bb" "2" (put_string "a" "1" ∅)] [set_event "bb" "2"; set_event "a" "1"].

Section Example.
Abbreviation step := (conc_step len_hash zero_float (λ _, []) id example_env [locks_db]).

Lemma locks_alone (L L' : system) As h :
  rtc (lock_step (server_section len_hash [locks_db])) L L' -> rtc step (mkConc L ∅ As h) (mkConc L' ∅ As h).
Proof.
  induction 1 as [|L1 L2 L3 Hst _ IH]; [done|]. eapply rtc_l; [|exact IH].
  apply (conc_lock _ _ _ _ _ _ (mkConc L1 ∅ As h)); [done|]. intros i g [j Hj]. cbn in Hj. by rewrite lookup_empty in Hj.
Qed.

Lemma set_entitled g key val i :
  execute_locks len_hash 0 locks_db example_set (set_on key val) = Ret (LockAt 0 i) -> LockAt 0 i ⊆ g_held g ->
  entitled len_hash zero_float (λ _, []) id example_env [locks_db] g (set_job key val [] None).
Proof.
  intros Hp Hg. exists no_pre, locks_db, (LockAt 0 i). split_and!; try done.
  - apply (list_elem_of_lookup_2 _ 1). reflexivity.
  - apply (list_elem_of_lookup_2 _ 1). reflexivity.
Qed.

(** Both have read their keys. *)
Definition both_read : conc :=
  mkConc held_example (<[1%nat := set_job "bb" "2" [lit "bb"] None]> {[0%nat := set_job "a" "1" [lit "a"] None]}) [∅] [].

Lemma both_read_reachable : rtc step (conc_init 2 [∅]) both_read.
Proof.
  transitivity (mkConc held_example ∅ [∅] []); [apply locks_alone, held_example_reachable|].
  eapply rtc_l; [eapply (conc_begin _ _ _ _ _ _ _ 0 _ (set_job "a" "1" [] None) ∅); try done|].
  { by apply (set_entitled _ _ _ 1). }
  eapply rtc_l; [eapply (conc_begin _ _ _ _ _ _ _ 1 _ (set_job "bb" "2" [] None) ∅); try done|].
  { by apply (set_entitled _ _ _ 0). }
  cbn [cc_locks cc_jobs cc_stores cc_hist].
  eapply rtc_l; [eapply (conc_read _ _ _ _ _ _ _ 0 (set_job "a" "1" [] None) ∅ (Some [lit "a"]) ∅); try done|].
  eapply rtc_l; [eapply (conc_read _ _ _ _ _ _ _ 1 (set_job "bb" "2" [] None) ∅ (Some [lit "bb"]) ∅); try done|].
  apply rtc_refl.
Qed.

Lemma both_set_reachable : rtc step (conc_init 2 [∅]) both_set.
Proof.
  transitivity both_read; [exact both_read_reachable|].
  eapply rtc_l; [eapply (conc_compute _ _ _ _ _ _ _ 0 (set_job "a" "1" [lit "a"] None) 5 5 Reply_OK (put_string "a" "1" ∅)); try done|].
  { by exists (lit "a"), (lit "1"). }
  eapply rtc_l; [eapply (conc_compute _ _ _ _ _ _ _ 1 (set_job "bb" "2" [lit "bb"] None) 5 5 Reply_OK (put_string "bb" "2" ∅)); try done|].
  { by exists (lit "bb"), (lit "2"). }
  eapply rtc_l; [eapply (conc_write _ _ _ _ _ _ _ 0 (set_job "a" "1" [lit "a"] (Some (put_string "a" "1" ∅))) 5 5 Reply_OK _ (lit "a")); try done|].
  { by left. }
  eapply rtc_l; [eapply (conc_write _ _ _ _ _ _ _ 1 (set_job "bb" "2" [lit "bb"] (Some (put_string "bb" "2" ∅))) 5 5 Reply_OK _ (lit "bb")); try done|].
  { by left. }
  eapply rtc_l; [eapply (conc_finish _ _ _ _ _ _ _ 1 (set_job "bb" "2" [lit "bb"] (Some (put_string "bb" "2" ∅))) 5 5 Reply_OK); try done|].
  { by intros k ->%list_elem_of_singleton. }
  eapply rtc_l; [eapply (conc_finish _ _ _ _ _ _ _ 0 (set_job "a" "1" [lit "a"] (Some (put_string "a" "1" ∅))) 5 5 Reply_OK); try done|].
  { by intros k ->%list_elem_of_singleton. }
  apply rtc_refl.
Qed.
End Example.

Lemma commands_linearizable_witness :
  exists Ss, serial len_hash zero_float (λ _, []) id example_env [∅] [set_event "bb" "2"; set_event "a" "1"] Ss /\
    cc_stores both_set = Ss.
Proof.
  destruct (commands_linearizable len_hash zero_float (λ _, []) id example_env [locks_db]
    ltac:(by repeat constructor) 2 [∅] both_set both_set_reachable) as (Ss & Hs & _ & Hstores & _).
  exists Ss. split; [exact Hs|]. by apply Hstores.
Defined.
