(* ===== verification/Restart.v ===== *)
(** * Restarting a server

    A snapshot restores the stores it was taken of; the log replays what came
    after. Put together with the crash safety of the store: a server killed at any
    moment, under the [always] policy, restarts with the stores it had. *)

From S2P Require Import Prelude GoBinary Pack Float64 Skiplist ValueList ValueHash ValueSet ValueZSet.
From S2P Require Import GoTime Value Keyspace Shard Strconv Resp Config Command Session.
From S2P Require Import CommandSpec CollectionSpec Registry Codec Store Locality Server Replay.

(** ** Snapshots *)

(** A deadline that the snapshot's int64 of nanoseconds can hold, and that it
    does not mistake for none. *)
Definition deadline_ok (d : Time) : Prop :=
  d = zeroTime \/ is_int64 (d - unix_epoch) /\ d <> unix_epoch.

(** Every stored entry, expired ones that are not yet reclaimed included, can be
    written to a snapshot. *)
Definition storable (db : DB) : Prop :=
  forall i ks key e, shards db !! i = Some ks -> entries ks !! key = Some e ->
    go_len key /\ deadline_ok (e_ExpireAt e) /\
    exists a, value_rep (e_Value e) a /\ small_value a.

Lemma deadline_roundtrip e :
  deadline_ok (e_ExpireAt e) ->
  (let at_ := if HasExpiry e then UnixNano (e_ExpireAt e) else 0 in
   is_int64 at_ /\ (if at_ =? 0 then zeroTime else time_Unix0 at_) = e_ExpireAt e).
Proof.
  unfold HasExpiry, IsZero. intros Hd. destruct (Z.eqb_spec (e_ExpireAt e) zeroTime) as [E|E]; cbn.
  { split; [done|]. by rewrite E. }
  destruct Hd as [?|[Hi Hne]]; [done|]. split; [apply wrap64_range|].
  destruct (Z.eqb_spec (UnixNano (e_ExpireAt e)) 0) as [E0|_]; [|by apply Unix0_UnixNano].
  unfold UnixNano in E0. rewrite wrap64_id in E0 by done. lia.
Qed.

(** What is restored of a described record. *)
Definition restored_deadline (at_ : Z) : Time := if at_ =? 0 then zeroTime else time_Unix0 at_.

Definition load_one (As : list astore) (d : described) : list astore :=
  let '(db, key, at_, a) := d in
  match As !! Z.to_nat db with
  | Some A => <[Z.to_nat db := <[key := (a, restored_deadline at_)]> A]> As
  | None => As
  end.

Section Restore.
Context (maphash : bytes -> Z).

Lemma restore_spec rec db key at_ a c t As :
  record_rep rec db key at_ a -> Forall2 (λ db A, db_abs maphash db t A) (c_databases c) As ->
  0 <= db < len (c_databases c) ->
  exists c', restore maphash rec c = Ret (c', None) /\
    Forall2 (λ db A, db_abs maphash db t A) (c_databases c') (load_one As (db, key, at_, a)) /\
    len (c_databases c') = len (c_databases c) /\ c_index c' = c_index c /\ c_tick c' = c_tick c.
Proof.
  intros (<- & <- & <- & Hv) HF Hdb. unfold restore.
  rewrite (proj2 (Z.ltb_ge _ _)), (proj2 (Z.leb_gt _ _)) by lia. cbn [orb].
  destruct (lookup_lt_is_Some_2 (c_databases c) (Z.to_nat (rec_DB rec))) as [db Hl]; [unfold len in Hdb; lia|].
  assert (index (c_databases c) (rec_DB rec) = Ret db) as ->.
  { rewrite <- (Z2Nat.id (rec_DB rec)) at 1 by lia. by apply index_lookup. }
  orun. destruct (Forall2_lookup_l _ _ _ _ _ HF Hl) as (A & HA & Habs).
  destruct (abs_SetEntry maphash db t A Habs (rec_Key rec) (rec_Value rec) a
    (restored_deadline (rec_ExpireAt rec)) Hv) as (db' & Es & Habs').
  change (DB_Restore maphash db (rec_Key rec) ?e) with (DB_SetEntry maphash db (rec_Key rec) e).
  unfold restored_deadline in *. rewrite Es. orun. eexists. split; [reflexivity|].
  cbn [put_db c_databases c_index c_tick load_one]. split; [|split; [|done]].
  - rewrite HA. by apply Forall2_insert.
  - unfold len. by rewrite length_insert.
Qed.

(** The records of a snapshot, one after the other. *)
Lemma restore_all_spec recs : forall ds c t As,
  Forall2 describes ds recs -> Forall2 (λ db A, db_abs maphash db t A) (c_databases c) As ->
  Forall (λ d : described, 0 <= d.1.1.1 < len (c_databases c)) ds ->
  exists c', apply_all (restore maphash) recs c = Ret (None, c') /\
    Forall2 (λ db A, db_abs maphash db t A) (c_databases c') (foldl load_one As ds) /\
    len (c_databases c') = len (c_databases c) /\ c_index c' = c_index c /\ c_tick c' = c_tick c.
Proof.
  induction recs as [|rec recs IH]; intros ds c t As Hds HF Hr.
  { apply Forall2_nil_inv_r in Hds as ->. by exists c. }
  apply Forall2_cons_inv_r in Hds as ([[[db key] at_] a] & ds' & Hd & Hds & ->).
  apply Forall_cons in Hr as [Hdb Hr].
  destruct (restore_spec rec db key at_ a c t As Hd HF Hdb) as (c1 & E1 & HF1 & Hl1 & Hi1 & Ht1).
  destruct (IH ds' c1 t _ Hds HF1) as (c2 & E2 & HF2 & Hl2 & Hi2 & Ht2); [by rewrite Hl1|].
  exists c2. cbn [apply_all]. rewrite E1. orun. rewrite E2. split; [done|]. split; [exact HF2|].
  split; [congruence|]. split; congruence.
Qed.
End Restore.

(** What the restored stores hold: for each key its last record. *)
Lemma loads_spec ds : forall As i A,
  Forall (λ d : described, 0 <= d.1.1.1) ds -> foldl load_one As ds !! i = Some A ->
  exists A0, As !! i = Some A0 /\ forall k,
    (exists at_ a, (Z.of_nat i, k, at_, a) ∈ ds /\ A !! k = Some (a, restored_deadline at_)) \/
    (forall at_ a, (Z.of_nat i, k, at_, a) ∉ ds) /\ A !! k = A0 !! k.
Proof.
  induction ds as [|[[[db key] at0] a0] ds IH] using rev_ind; intros As i A Hr Hl.
  { exists A. split; [done|]. intros k. right. split; [|done]. intros ??. apply not_elem_of_nil. }
  rewrite foldl_app in Hl. cbn [foldl load_one] in Hl. apply Forall_app in Hr as [Hr [Hdb _]%Forall_cons].
  cbn in Hdb.
  assert (exists A1, foldl load_one As ds !! i = Some A1 /\
    A = if decide (Z.of_nat i = db) then <[key := (a0, restored_deadline at0)]> A1 else A1) as (A1 & Hl1 & HA).
  { destruct (foldl load_one As ds !! Z.to_nat db) as [A1|] eqn:E1; cycle 1.
    { exists A. split; [done|]. rewrite decide_False; [done|]. intros <-. rewrite Nat2Z.id in E1. congruence. }
    destruct (decide (Z.of_nat i = db)) as [<-|Hne].
    - rewrite Nat2Z.id in *. exists A1. split; [done|].
      rewrite list_lookup_insert_eq in Hl by (by eapply lookup_lt_Some). congruence.
    - exists A. split; [|done]. rewrite list_lookup_insert_ne in Hl by lia. done. }
  destruct (IH As i A1 Hr Hl1) as (A0 & HA0 & Hk). exists A0. split; [done|]. intros k.
  destruct (decide (Z.of_nat i = db /\ k = key)) as [[<- ->]|Hne].
  - left. exists at0, a0. split; [apply elem_of_app; right; by left|]. subst A.
    by rewrite decide_True, lookup_insert_eq by done.
  - assert (A !! k = A1 !! k) as ->.
    { subst A. destruct (decide (Z.of_nat i = db)); [|done]. rewrite lookup_insert_ne; [done|]. naive_solver. }
    assert (forall at_ a, (Z.of_nat i, k, at_, a) ∈ ds ++ [(db, key, at0, a0)] <-> (Z.of_nat i, k, at_, a) ∈ ds) as Hin.
    { intros at_ a. rewrite elem_of_app, list_elem_of_singleton. naive_solver. }
    destruct (Hk k) as [(at_ & a & Ha & Hv)|[Hn Hv]].
    + left. exists at_, a. by rewrite Hin.
    + right. split; [|done]. intros at_ a. by rewrite Hin.
Qed.

(** ** What a capture writes *)

Lemma each_entry_stored seeds db key e :
  (key, e) ∈ EachEntry seeds db -> exists i ks, shards db !! i = Some ks /\ entries ks !! key = Some e.
Proof. apply elem_of_each_shard_entry. Qed.

(** The abstract value to describe an entry by: the store's, when it is live. *)
Lemma entry_described maphash seeds db t A key e :
  db_abs maphash db t A -> small A -> storable db -> (key, e) ∈ EachEntry seeds db ->
  exists a, value_rep (e_Value e) a /\ small_value a /\
    (get t A key = Some (a, e_ExpireAt e) \/ get t A key = None /\ dead (e_ExpireAt e) t = true).
Proof.
  intros (m & [Hrep _] & HA) Hsm Hst Hin. destruct (EachEntry_complete maphash seeds db t m Hrep) as [Hnd Hall].
  destruct (each_entry_stored seeds db key e Hin) as (i & ks & Hks & He).
  destruct (expired e t) eqn:Ex.
  - destruct (Hst i ks key e Hks He) as (_ & _ & a & Hv & Ha). exists a. split_and!; [done..|]. right.
    rewrite <- dead_expired in Ex. split; [|done].
    destruct (m !! key) as [e'|] eqn:Em; [|specialize (HA key); rewrite Em in HA; by destruct (get t A key)].
    exfalso. apply Hall in Em as [Hin' Ex'].
    assert (e' = e) as ->; [|rewrite <- dead_expired in Ex'; congruence].
    apply list_elem_of_lookup_1 in Hin as [x Hx]. apply list_elem_of_lookup_1 in Hin' as [y Hy].
    assert (x = y) as ->; [|congruence].
    apply (NoDup_lookup (EachEntry seeds db).*1 x y key Hnd); rewrite list_lookup_fmap; by rewrite ?Hx, ?Hy.
  - assert (m !! key = Some e) as Em by (apply Hall; done).
    specialize (HA key). rewrite Em in HA. destruct (get t A key) as [[a d]|] eqn:Eg; [|done].
    destruct HA as [Hv <-]. exists a. split_and!; [done| |by left].
    apply get_Some in Eg. exact (Hsm key _ Eg).
Qed.

Lemma Forall_choose {A B} (R : A -> B -> Prop) l :
  Forall (λ x, exists y, R x y) l -> exists l', Forall2 R l l'.
Proof.
  induction 1 as [|x l [y Hy] _ [l' IH]]; [by exists []|]. exists (y :: l'). by constructor.
Qed.

(** The description [d] of a record of database number [i] agrees with the
    store [A]. *)
Definition agrees (t : Time) (i : nat) (A : astore) (d : described) : Prop :=
  let '(db, key, at_, a) := d in
  db = Z.of_nat i /\
  (get t A key = Some (a, restored_deadline at_) \/
   get t A key = None /\ dead (restored_deadline at_) t = true).

(** Every live key has a description. *)
Definition complete (t : Time) (i : nat) (A : astore) (ds : list described) : Prop :=
  forall key, is_Some (get t A key) -> exists at_ a, (Z.of_nat i, key, at_, a) ∈ ds.

Lemma db_described maphash seeds i db t A :
  db_abs maphash db t A -> small A -> storable db -> is_int64 (Z.of_nat i) ->
  exists ds, Forall2 describes ds (map (entry_record (Z.of_nat i)) (EachEntry seeds db)) /\
    Forall describable ds /\ Forall (agrees t i A) ds /\ complete t i A ds.
Proof.
  intros Habs Hsm Hst Hi.
  destruct (Forall_choose (λ (p : bytes * Entry) (d : described),
      describes d (entry_record (Z.of_nat i) p) /\ describable d /\ agrees t i A d /\
      d.1.1.2 = p.1) (EachEntry seeds db)) as [ds Hds].
  { apply Forall_forall. intros [key e] Hin.
    destruct (entry_described maphash seeds db t A key e Habs Hsm Hst Hin) as (a & Hv & Ha & Hg).
    destruct (each_entry_stored seeds db key e Hin) as (j & ks & Hks & He).
    destruct (Hst j ks key e Hks He) as (Hkey & Hd & _).
    destruct (deadline_roundtrip e Hd) as [Hat Hrt].
    exists (Z.of_nat i, key, rec_ExpireAt (entry_record (Z.of_nat i) (key, e)), a).
    split; [done|]. split; [done|]. split; [|done]. split; [done|].
    unfold restored_deadline. cbn [entry_record rec_ExpireAt snd fst]. cbn zeta in Hrt. rewrite Hrt. done. }
  exists ds. split_and!.
  - apply Forall2_fmap_r, Forall2_flip. eapply Forall2_impl; [exact Hds|]. by intros ?? (? & _).
  - eapply Forall2_Forall_r; [exact Hds|]. apply Forall_true. by intros ?? (_ & ? & _).
  - eapply Forall2_Forall_r; [exact Hds|]. apply Forall_true. by intros ?? (_ & _ & ? & _).
  - intros key Hkey. destruct Habs as (m & [Hrep _] & HA).
    destruct (EachEntry_complete maphash seeds db t m Hrep) as [_ Hall].
    apply (entry_rel_is_Some _ _ (HA key)) in Hkey as [e He]. apply Hall in He as [Hin _].
    apply list_elem_of_lookup_1 in Hin as [x Hx].
    destruct (Forall2_lookup_l _ _ _ _ _ Hds Hx) as ([[[db' key'] at_] a] & Hd & _ & _ & [-> _] & Hk).
    cbn in Hk. subst key'. exists at_, a. by eapply list_elem_of_lookup_2.
Qed.

Lemma emit_described maphash seeds t dbs As :
  Forall2 (λ db A, db_abs maphash db t A) dbs As -> Forall small As -> Forall storable dbs ->
  forall i, is_int64 (Z.of_nat i + len dbs) ->
  exists ds, Forall2 describes ds (emitRecords seeds i dbs) /\ Forall describable ds /\
    Forall (λ d : described, Z.of_nat i <= d.1.1.1 < Z.of_nat i + len dbs) ds /\
    forall j A, As !! j = Some A ->
      (forall d : described, d ∈ ds -> d.1.1.1 = Z.of_nat (i + j) -> agrees t (i + j) A d) /\
      complete t (i + j) A ds.
Proof.
  induction 1 as [|db A dbs As Habs HF IH]; intros Hsm Hst i Hi.
  { exists []. split_and!; [constructor|constructor|constructor|]. intros j A Hj. done. }
  apply Forall_cons in Hsm as [HsA Hsm]. apply Forall_cons in Hst as [HsD Hst].
  rewrite len_cons in *. pose proof (len_nonneg dbs).
  assert (forall j, 0 <= j <= Z.of_nat i + (1 + len dbs) -> is_int64 j) as Hint
    by (unfold is_int64, MinInt64 in *; lia).
  destruct (db_described maphash (seeds i) i db t A Habs HsA HsD) as (ds1 & Hd1 & Hok1 & Ha1 & Hc1); [apply Hint; lia|].
  destruct (IH Hsm Hst (S i)) as (ds2 & Hd2 & Hok2 & Hr2 & Hall2); [apply Hint; lia|].
  exists (ds1 ++ ds2). cbn [emitRecords]. split_and!.
  - by apply Forall2_app.
  - by apply Forall_app.
  - apply Forall_app. split.
    + eapply Forall_impl; [exact Ha1|]. intros [[[db' k] at_] a] [-> _]. cbn. lia.
    + eapply Forall_impl; [exact Hr2|]. cbn. intros. lia.
  - intros [|j] A' Hj.
    + injection Hj as <-. rewrite Nat.add_0_r. split.
      * intros d [Hd|Hd]%elem_of_app Hdb; [rewrite Forall_forall in Ha1; by apply Ha1|].
        rewrite Forall_forall in Hr2. specialize (Hr2 d Hd). cbn in Hr2. lia.
      * intros key (at_ & a & Hin)%Hc1. exists at_, a. apply elem_of_app. by left.
    + destruct (Hall2 j A' Hj) as [Hag Hc]. replace (i + S j)%nat with (S i + j)%nat by lia. split.
      * intros d [Hd|Hd]%elem_of_app Hdb; [|by apply Hag].
        rewrite Forall_forall in Ha1. specialize (Ha1 d Hd). destruct d as [[[db' k] at_] a].
        destruct Ha1 as [-> _]. cbn in Hdb. lia.
      * intros key (at_ & a & Hin)%Hc. exists at_, a. apply elem_of_app. by right.
Qed.

(** The stores that the records of a capture load are the captured ones. *)
Lemma loads_captured t As n ds :
  length As = n -> Forall (λ d : described, 0 <= d.1.1.1) ds ->
  (forall j A, As !! j = Some A ->
    (forall d : described, d ∈ ds -> d.1.1.1 = Z.of_nat j -> agrees t j A d) /\ complete t j A ds) ->
  forall j A A', As !! j = Some A -> foldl load_one (replicate n ∅) ds !! j = Some A' ->
  forall k, get t A' k = get t A k.
Proof.
  intros Hn Hr Hall j A A' Hj Hl k. destruct (Hall j A Hj) as [Hag Hc].
  destruct (loads_spec ds _ j A' Hr Hl) as (A0 & [-> _]%lookup_replicate_1 & Hk).
  unfold get at 1. destruct (Hk k) as [(at_ & a & Hin & ->)|[Hno ->]].
  - destruct (Hag _ Hin eq_refl) as [_ [Hg|[Hg Hd]]]; rewrite Hg.
    + apply get_dead in Hg. by rewrite Hg.
    + by rewrite Hd.
  - rewrite lookup_empty. destruct (get t A k) as [p|] eqn:Eg; [|done].
    destruct (Hc k) as (at_ & a & Hin); [by eexists|]. by destruct (Hno at_ a).
Qed.

Lemma db_abs_ext (maphash : bytes -> Z) (db : DB) (t : Time) (A A' : astore) :
  (forall k, get t A' k = get t A k) -> db_abs maphash db t A -> db_abs maphash db t A'.
Proof. intros H (m & Hrep & HA). exists m. split; [done|]. intros k. rewrite H. apply HA. Qed.

(** The databases of a session hold the stores [As] at time [t]. *)
Definition dbs_hold (maphash : bytes -> Z) (t : Time) (c : CmdContext) (As : list astore) : Prop :=
  Forall2 (λ db A, db_abs maphash db t A) (c_databases c) As.

(** A session that differs from [c] in its databases only. *)
Definition same_place (c c' : CmdContext) : Prop :=
  len (c_databases c') = len (c_databases c) /\ c_index c' = c_index c /\ c_tick c' = c_tick c.

(** The snapshot [snap] of generation [gen] restores the stores [As], whatever
    the hash seed of the restarted server. *)
Definition loads (snap : bytes) (gen : Z) (t : Time) (As : list astore) : Prop :=
  (exists body, snap = snapshot_bytes gen body) /\
  forall maphash limits coins c,
    dbs_hold maphash t c (replicate (length As) ∅) ->
    exists recs c',
      (forall St (apply : Record_ -> St -> outcome (St * option io_error)) st,
        ReadSnapshot limits coins apply snap st = ('(err, st) ← apply_all apply recs st; Ret (gen, err, st))) /\
      apply_all (restore maphash) recs c = Ret (None, c') /\
      dbs_hold maphash t c' As /\ same_place c c'.

Lemma capture_loads maphash seeds orders gen t c As :
  dbs_hold maphash t c As -> Forall small As -> Forall storable (c_databases c) ->
  is_int64 (len (c_databases c)) -> is_int64 gen ->
  exists snap, WriteSnapshot orders gen (emitRecords seeds 0 (c_databases c)) = Ret (inl snap) /\
    loads snap gen t As.
Proof.
  intros HF Hsm Hst Hlen Hgen.
  destruct (emit_described maphash seeds t _ _ HF Hsm Hst 0) as (ds & Hds & Hok & Hr & Hall); [done|].
  destruct (snapshot_frames orders gen ds _ Hds Hok Hgen) as (snap & Hw & Hread).
  exists snap. split; [done|]. split.
  { unfold WriteSnapshot in Hw. destruct (write_records _ _ _) as [[bs|e]| |]; try done.
    injection Hw as <-. by exists bs. }
  intros maphash' limits coins c0 H0. destruct (Hread limits coins) as (recs & Hds' & HR).
  pose proof (Forall2_length _ _ _ H0) as Hl0. rewrite length_replicate in Hl0.
  pose proof (Forall2_length _ _ _ HF) as Hl.
  destruct (restore_all_spec maphash' recs ds c0 t _ Hds' H0) as (c' & Ea & HF' & Hp).
  { eapply Forall_impl; [exact Hr|]. cbn. unfold len. intros. lia. }
  exists recs, c'. split; [exact HR|]. split; [exact Ea|]. split; [|exact Hp].
  apply Forall2_same_length_lookup_2.
  { destruct Hp as [Hp _]. unfold len in Hp. lia. }
  intros j db A Hdb HA. destruct (Forall2_lookup_l _ _ _ _ _ HF' Hdb) as (A' & HA' & Habs).
  eapply db_abs_ext; [|exact Habs]. intros k. symmetry.
  eapply (loads_captured t As (length As) ds); [done| | |exact HA|exact HA'].
  - eapply Forall_impl; [exact Hr|]. cbn. intros. lia.
  - intros j' A0 Hj'. exact (Hall j' A0 Hj').
Qed.

(** A capture of databases that hold stores never fails, whatever their deadlines. *)
Lemma capture_total maphash orders s st t As :
  dbs_hold maphash t (session s 0) As ->
  exists body, capture orders s st = Ret (inl (snapshot_bytes (NextGen st) body)).
Proof.
  intros HF. apply WriteSnapshot_total. unfold dbs_hold in HF. cbn [session c_databases] in HF.
  generalize 0%nat as i. induction HF as [|db A dbs As (m & [_ Hv] & _) _ IH]; intros i; cbn [emitRecords]; [constructor|].
  apply Forall_app. split; [|apply IH]. apply Forall_fmap, Forall_forall. intros [key e] Hin. cbn.
  apply each_entry_stored in Hin as (j & ks & Hj & He).
  exact (map_Forall_lookup_1 _ _ _ _ (Forall_lookup_1 _ _ _ _ Hv Hj) He).
Qed.

(** Counting the records on the way changes nothing. *)
Lemma apply_all_count {St} (apply : Record_ -> St -> outcome (St * option io_error)) recs : forall n st,
  exists k, apply_all (λ rec '(loaded, st), '(st, err) ← apply rec st; Ret ((loaded + 1, st), err)) recs (n, st)
  = ('(err, st) ← apply_all apply recs st; Ret (err, (k, st))).
Proof.
  induction recs as [|rec recs IH]; intros n st; cbn [apply_all]; [by exists n|].
  destruct (apply rec st) as [[st' [e|]]| |]; cbn.
  - by exists (n + 1).
  - apply IH.
  - by exists 0.
  - by exists 0.
Qed.

(** Loading the snapshot of a directory: a captured one, or none. *)
Definition captured_ok (inst : option captured) (t : Time) (As : list astore) : Prop :=
  match inst with
  | None => Forall (λ A, A = ∅) As
  | Some (snap, gen, _) => loads snap gen t As
  end.

Lemma load_captured maphash limits coins d inst t c As :
  snapshot_held d inst -> captured_ok inst t As ->
  dbs_hold maphash t c (replicate (length As) ∅) ->
  exists n c', loadSnapshot limits coins (restore maphash) d c = Ret (base_gen inst, n, None, c') /\
    dbs_hold maphash t c' As /\ same_place c c'.
Proof.
  intros Hsnap Hok H0. unfold loadSnapshot. destruct inst as [[[snap gen] h]|]; cbn [snapshot_held captured_ok base_gen] in *.
  - destruct Hsnap as [_ ->]. cbn [f_data]. destruct Hok as [_ Hok].
    destruct (Hok maphash limits coins c H0) as (recs & c' & HR & Ea & HF & Hp).
    rewrite HR. destruct (apply_all_count (restore maphash) recs 0 c) as [k ->]. rewrite Ea. orun.
    by exists k, c'.
  - rewrite Hsnap. exists 0, c. split; [done|]. split; [|done].
    assert (As = replicate (length As) ∅) as ->; [|exact H0].
    clear H0. induction Hok as [|A As -> _ IH]; [done|]. simpl. by f_equal.
Qed.

Lemma restored_exactly d :
  let at_ := if IsZero d then 0 else UnixNano d in restored_deadline at_ = d <-> deadline_ok d.
Proof.
  unfold restored_deadline, deadline_ok, IsZero. destruct (Z.eqb_spec d zeroTime) as [E|E]; cbn.
  { split; [by left|done]. }
  pose proof (wrap64_range (d - unix_epoch)) as Hw. fold (UnixNano d) in Hw. split.
  - intros H. right. destruct (Z.eqb_spec (UnixNano d) 0) as [E0|E0]; [by destruct E|].
    unfold time_Unix0 in H. replace (d - unix_epoch) with (UnixNano d) by lia. split; [done|lia].
  - intros [?|[Hi Hne]]; [done|]. destruct (Z.eqb_spec (UnixNano d) 0) as [E0|_]; [|by apply Unix0_UnixNano].
    unfold UnixNano in E0. rewrite wrap64_id in E0 by done. lia.
Qed.

(** C39. Which deadlines a snapshot keeps. The record that a compaction writes of an
    entry ([entry_record]), restored into a database at a restart, puts its key
    there with the value, and with a deadline that is the entry's own exactly when
    the entry has none, or one whose nanoseconds since 1970 fit an int64 and are not
    0 ([deadline_ok]). A deadline at 1970 itself, or a multiple of 2^64 nanoseconds
    from it, comes back as none; a deadline after the year 2262, up to 2554, comes
    back before 1970, so that the restored key is already gone. *)
Theorem snapshot_deadline maphash key e a db c t As A :
  value_rep (e_Value e) a -> dbs_hold maphash t c As -> As !! Z.to_nat db = Some A -> 0 <= db ->
  exists c' d', restore maphash (entry_record db (key, e)) c = Ret (c', None) /\
    dbs_hold maphash t c' (<[Z.to_nat db := <[key := (a, d')]> A]> As) /\
    (d' = e_ExpireAt e <-> deadline_ok (e_ExpireAt e)) /\
    (wrap64 (e_ExpireAt e - unix_epoch) = 0 -> d' = zeroTime) /\
    (MaxInt64 < e_ExpireAt e - unix_epoch < 2 ^ 64 ->
      d' = e_ExpireAt e - 2 ^ 64 /\ d' < unix_epoch /\ forall now, unix_epoch <= now -> dead d' now = true).
Proof.
  intros Hv HF HA Hdb.
  destruct (restore_spec maphash (entry_record db (key, e)) db key (rec_ExpireAt (entry_record db (key, e))) a c t As)
    as (c' & Er & HF' & _); [done|exact HF| |].
  { apply lookup_lt_Some in HA. rewrite <- (Forall2_length _ _ _ HF) in HA. unfold len. lia. }
  cbn [load_one] in HF'. rewrite HA in HF'. eexists c', _. split; [exact Er|]. split; [exact HF'|].
  cbn [entry_record rec_ExpireAt snd]. unfold HasExpiry. rewrite if_negb.
  split; [exact (restored_exactly (e_ExpireAt e))|]. unfold IsZero, UnixNano, restored_deadline.
  split; intros H; (destruct (Z.eqb_spec (e_ExpireAt e) zeroTime) as [E|E]; cbn [negb]).
  - done.
  - by rewrite H.
  - rewrite E in H. unfold zeroTime, unix_epoch, MaxInt64 in H. lia.
  - assert (wrap64 (e_ExpireAt e - unix_epoch) = e_ExpireAt e - unix_epoch - 2 ^ 64) as ->.
    { unfold wrap64, MaxInt64 in *. rewrite <- (Z.mod_unique _ (2 ^ 64) 1 (e_ExpireAt e - unix_epoch + 2 ^ 63 - 2 ^ 64)); lia. }
    rewrite (proj2 (Z.eqb_neq _ _)) by lia. unfold time_Unix0. split; [lia|]. split; [lia|].
    intros now Hnow. unfold dead, IsZero, Before, zeroTime, unix_epoch, MaxInt64 in *.
    rewrite (proj2 (Z.eqb_neq _ _)) by lia. rewrite (proj2 (Z.ltb_ge _ _)) by lia. done.
Qed.

(** ** From a served request to its replay *)

(** A command's arity depends on its name alone. *)
Lemma arity_by_name parseFloat formatFloat quote m1 E1 m2 E2 cm1 cm2 :
  cm1 ∈ all_commands m1 parseFloat formatFloat quote E1 ->
  cm2 ∈ all_commands m2 parseFloat formatFloat quote E2 ->
  cmd_name cm1 = cmd_name cm2 -> cmd_arity cm1 = cmd_arity cm2.
Proof.
  intros [i Hi]%list_elem_of_lookup_1 [j Hj]%list_elem_of_lookup_1 Hn.
  assert (map (λ cm, (cmd_name cm, cmd_arity cm)) (all_commands m1 parseFloat formatFloat quote E1)
    = map (λ cm, (cmd_name cm, cmd_arity cm)) (all_commands m2 parseFloat formatFloat quote E2)) as Hsig
    by reflexivity.
  apply (f_equal (λ l, l !! i)) in Hsig. rewrite !list_lookup_fmap, Hi in Hsig.
  destruct (all_commands m2 parseFloat formatFloat quote E2 !! i) as [cm|] eqn:Hi2; [|discriminate Hsig].
  injection Hsig as Hn2 Ha. rewrite Ha. f_equal.
  assert (i = j) as ->; [|congruence].
  apply (NoDup_lookup (map cmd_name (all_commands m2 parseFloat formatFloat quote E2)) i j (cmd_name cm2)
    (all_names_NoDup m2 parseFloat formatFloat quote E2)); rewrite list_lookup_fmap.
  - rewrite Hi2. cbn. congruence.
  - by rewrite Hj.
Qed.

(** ** Replay and the clock *)

(** A key counted up under a deadline. *)
Definition counted (db : Z) (key v : bytes) (ms : Z) : list logged :=
  [(db, [lit "SET"; key; v]); (db, [lit "PEXPIREAT"; key; FormatInt ms]); (db, [lit "INCR"; key])].

Section Revived.
Context (maphash : bytes -> Z) (parseFloat : bytes -> option float64)
  (formatFloat : float64 -> bytes) (quote : bytes -> bytes) (E : Env) (r : gmap bytes Command).
Context (Hpf : parses_f64 parseFloat).

(** The command of that number in the table has this name and arity. *)
Lemma arity_at (n : nat) (cm0 : Command) (name : bytes) (k : Z) :
  all_commands maphash parseFloat formatFloat quote E !! n = Some cm0 ->
  arity_ok (cmd_arity cm0) k -> cmd_name cm0 = map lower_ascii name ->
  forall cm, cm ∈ all_commands maphash parseFloat formatFloat quote E ->
    cmd_name cm = map lower_ascii name -> arity_ok (cmd_arity cm) k.
Proof.
  intros Hn Ha Hname cm Hcm Hc.
  rewrite (arity_by_name parseFloat formatFloat quote maphash E maphash E cm cm0 Hcm); [exact Ha| |congruence].
  by eapply list_elem_of_lookup_2.
Qed.

(** One record of the three, on the store it finds. *)
Lemma counted_step (n : nat) (cm0 : Command) (pre : list bytes -> Prop) (spec : aspec) (db : Z) (name : bytes)
    (rest : list bytes) (c : CmdContext) (u : Time) (Bs : list astore) (B : astore) :
  NewRegistry maphash parseFloat formatFloat quote E = Some r ->
  all_commands maphash parseFloat formatFloat quote E !! n = Some cm0 ->
  arity_ok (cmd_arity cm0) (len (name :: rest)) -> cmd_name cm0 = map lower_ascii name ->
  meanings parseFloat formatFloat !! n = Some (map lower_ascii name, (pre, spec)) ->
  0 < len name <= maxCommandNameLen -> 0 <= db -> Bs !! Z.to_nat db = Some B -> small B ->
  Forall go_len (name :: rest) -> pre (name :: rest) -> sess maphash E c u Bs ->
  exists c' u1 u2 reply B', replay r db (name :: rest) c = Ret (c', None) /\ u <= u1 <= u2 /\
    sess maphash E c' u2 (<[Z.to_nat db := B']> Bs) /\ spec u1 u2 (name :: rest) B reply B'.
Proof.
  intros Hr Hn Ha Hname Hm Hlen Hdb HB Hsm Hgo Hpre Hs.
  apply (replay_runs parseFloat formatFloat quote maphash E r Hpf Hr (db, name :: rest) c u Bs B name rest pre spec
    Hdb HB Hsm eq_refl); [by eapply list_elem_of_lookup_2|exact Hlen| |exact Hgo|exact Hpre|exact Hs].
  by eapply arity_at.
Qed.

(** C36. What a replay makes of a log depends on when it runs. Take the log of SET
    key v, PEXPIREAT key ms and INCR key, for any key, any number v that can be
    counted up and any deadline since 1970. Replayed over any databases by a clock
    that stays before the deadline it leaves v + 1 at the key, due at the deadline.
    Replayed by a clock that has passed it, as at any restart after the deadline, it
    leaves 1 at the key, without a deadline: INCR finds the key expired and starts
    it anew, and a key that was gone before the restart is back for good. *)
Theorem replay_revives_expired db key v n ms c u Bs B :
  NewRegistry maphash parseFloat formatFloat quote E = Some r ->
  sess maphash E c u Bs -> 0 <= db -> Bs !! Z.to_nat db = Some B -> small B ->
  go_len key -> go_len v -> ParseInt v = Some n -> MinInt64 <= n + 1 <= MaxInt64 -> 0 <= ms <= MaxInt64 ->
  exists c' u' d w, replay_all (replay r) (counted db key v ms) 0 c = Ret (3, None, c') /\
    sess maphash E c' u' (<[Z.to_nat db := <[key := (AString w, d)]> B]> Bs) /\
    ((forall i, env_now E i < time_UnixMilli ms) -> w = FormatInt (n + 1) /\ d = time_UnixMilli ms) /\
    (time_UnixMilli ms <= u -> w = FormatInt 1 /\ d = zeroTime).
Proof.
  intros Hr Hs Hdb HB Hsm Hkey Hv Hn Hn1 Hms. revert Hr.
  assert (Z.to_nat db < length Bs)%nat as Hlt by by eapply lookup_lt_Some.
  assert (go_len (FormatInt ms)) as Hgms.
  { unfold go_len, len. pose proof (FormatInt_length ms). lia. }
  assert (forall a d, small_value a -> small (<[key := (a, d)]> B)) as Hsm1.
  { intros a d Ha. by apply map_Forall_insert_2. }
  assert (small_value (AString v)) as Hsv by (unfold go_len in Hv; cbn; unfold MaxInt64; lia).
  assert (Forall go_len [lit "SET"; key; v] /\ Forall go_len [lit "PEXPIREAT"; key; FormatInt ms] /\
    Forall go_len [lit "INCR"; key]) as (Hg1 & Hg2 & Hg3) by by repeat constructor.
  intros Hr.
  destruct (counted_step 1 _ no_pre spec_set db (lit "SET") [key; v] c u Bs B Hr eq_refl eq_refl eq_refl eq_refl)
    as (c1 & a1 & u1 & r1 & B1 & E1 & Hu1 & Hs1 & (k & x & [= <-] & [= <-] & _ & ->));
    [vm_compute; split; [reflexivity|discriminate]|exact Hdb|exact HB|exact Hsm|exact Hg1|exact I|exact Hs|].
  destruct (counted_step 8 _ no_pre spec_pexpireat db (lit "PEXPIREAT") [key; FormatInt ms] c1 u1 _ _
    Hr eq_refl eq_refl eq_refl eq_refl ltac:(vm_compute; split; [reflexivity|discriminate]) Hdb (list_lookup_insert_eq _ _ _ Hlt)
    (Hsm1 (AString v) zeroTime Hsv)) as (c2 & a2 & u2 & r2 & B2 & E2 & Hu2 & Hs2 & (k & x & [= <-] & [= <-] & HB2)); [exact Hg2|exact I|exact Hs1|].
  rewrite ParseInt_FormatInt in HB2 by (unfold is_int64, MinInt64 in *; lia). destruct HB2 as [_ HB2].
  assert (B2 = <[key := (AString v, time_UnixMilli ms)]> B) as ->.
  { rewrite HB2. unfold set_deadline, get. rewrite lookup_insert_eq. cbn. apply insert_insert_eq. }
  rewrite list_insert_insert_eq in Hs2.
  destruct (counted_step 2 _ no_pre (spec_incr 1) db (lit "INCR") [key] c2 u2 _ _
    Hr eq_refl eq_refl eq_refl eq_refl ltac:(vm_compute; split; [reflexivity|discriminate]) Hdb (list_lookup_insert_eq _ _ _ Hlt)
    (Hsm1 (AString v) (time_UnixMilli ms) Hsv)) as (c3 & a3 & u3 & r3 & B3 & E3 & Hu3 & Hs3 & (k & [= <-] & HB3)); [exact Hg3|exact I|exact Hs2|].
  clear Hr. rewrite list_insert_insert_eq in Hs3. exists c3, u3.
  assert (replay_all (replay r) (counted db key v ms) 0 c = Ret (3, None, c3)) as Er.
  { unfold counted. cbn [replay_all]. rewrite E1. orun. rewrite E2. orun. rewrite E3. reflexivity. }
  assert (u3 <= env_now E (c_tick c3)) as Hu3' by by destruct Hs3 as (_ & _ & ? & _).
  unfold get in HB3. rewrite lookup_insert_eq in HB3. cbn zeta in HB3.
  destruct (dead (time_UnixMilli ms) a3) eqn:Ed.
  - exists zeroTime, (FormatInt 1). destruct HB3 as [_ HB3]. rewrite insert_insert_eq in HB3. subst B3.
    split; [exact Er|]. split; [exact Hs3|]. split; [|done]. intros Hb. specialize (Hb (c_tick c3)). exfalso.
    unfold dead, Before in Ed. apply andb_true_iff in Ed as [_ Ed]. rewrite (proj2 (Z.ltb_lt _ _)) in Ed by lia. done.
  - exists (time_UnixMilli ms), (FormatInt (n + 1)). cbn in HB3. rewrite Hn in HB3.
    rewrite (proj2 (Z.leb_le MinInt64 _)), (proj2 (Z.leb_le _ MaxInt64)) in HB3 by lia.
    destruct HB3 as [_ HB3]. rewrite insert_insert_eq in HB3. subst B3.
    split; [exact Er|]. split; [exact Hs3|]. split; [done|]. intros Hb. exfalso.
    unfold dead, Before, IsZero in Ed. rewrite (proj2 (Z.eqb_neq _ _)), (proj2 (Z.ltb_ge _ _)) in Ed; [done|lia|].
    unfold time_UnixMilli, zeroTime, unix_epoch. lia.
Qed.
End Revived.

Section Lifetime.
Context (maphash : bytes -> Z) (parseFloat : bytes -> option float64)
  (formatFloat : float64 -> bytes) (quote : bytes -> bytes) (E : Env).
Context (wreck : Command -> list bytes -> CmdContext -> CmdContext).
Context (T : Time) (HT : is_int64 (T - unix_epoch)).
(** A bound on the time between the clock reading of a command and that of its
    log record. *)
Context (δ : Z) (Hδ : 0 <= δ).

Abbreviation all_commands := (Registry.all_commands maphash parseFloat formatFloat quote E).
Abbreviation meanings := (Registry.meanings parseFloat formatFloat).

Lemma expire_record_replays (name key a : bytes) (secs : Z) (now : Time) (idx : Z) (t1 t2 : Time)
    (As : list astore) (A A' : astore) (reply : Reply) :
  0 <= idx -> As !! Z.to_nat idx = Some A -> small A -> go_len key ->
  ParseInt a = Some secs -> unix_epoch <= t1 -> t1 <= t2 <= now -> now <= T -> now - t1 <= δ ->
  spec_expire t1 t2 [name; key; a] A reply A' -> settled T A' ->
  replays_to parseFloat formatFloat quote δ T
    (idx, [lit "PEXPIREAT"; key; FormatInt (UnixMilli (now + wrap64 (secs * 1000000000)))])
    As (<[Z.to_nat idx := A']> As).
Proof.
  intros H0 HA Hsm Hkey Hp He Ht Hnow Hdrift Hsp Hset.
  exists A, A', (lit "PEXPIREAT"), [key; FormatInt (UnixMilli (now + wrap64 (secs * 1000000000)))], no_pre, spec_pexpireat.
  cbn [fst snd]. split; [exact H0|]. split; [exact HA|]. split; [reflexivity|]. split; [reflexivity|].
  split; [apply (list_elem_of_lookup_2 _ 8); reflexivity|].
  split; [vm_compute; split; [reflexivity|discriminate]|].
  split; [|split; [exact Hsm|split; [|split; [exact I|]]]].
  - intros m E0 cm Hcm Hn.
    rewrite (arity_by_name parseFloat formatFloat quote m E0 m E0 cm (writeKey "pexpireat" 3 (cmdPExpireAt m E0)) Hcm).
    + reflexivity.
    + apply (list_elem_of_lookup_2 _ 8). reflexivity.
    + rewrite Hn. reflexivity.
  - apply Forall_cons. split; [vm_compute; discriminate|]. apply Forall_cons. split; [exact Hkey|].
    apply Forall_singleton. unfold go_len, len.
    pose proof (FormatInt_length (UnixMilli (now + wrap64 (secs * 1000000000)))). lia.
  - intros u1 u2 B r' B' Hu HspB Hsim.
    exact (expire_replays δ name key a secs now T t1 t2 u1 u2 A reply A' B r' B' Hp He Ht Hnow Hdrift HT Hu Hsp HspB Hsim Hset).
Qed.

Lemma record_replays (r : gmap bytes Command) (args : list bytes) (cm : Command) (pre : list bytes -> Prop)
    (spec : aspec) (idx : Z) (t1 t2 t3 : Time) (As : list astore) (A A' : astore) (reply : Reply) (l : logged) :
  NewRegistry maphash parseFloat formatFloat quote E = Some r ->
  Resolve r args = inl cm -> (cmd_name cm, (pre, spec)) ∈ meanings ->
  0 <= idx -> As !! Z.to_nat idx = Some A -> small A -> Forall go_len args -> pre args ->
  unix_epoch <= t1 -> t1 <= t2 <= t3 -> t3 <= T -> t3 - t1 <= δ ->
  spec t1 t2 args A reply A' -> settled T A' ->
  record_of true idx t3 cm args reply = Some l ->
  replays_to parseFloat formatFloat quote δ T l As (<[Z.to_nat idx := A']> As).
Proof.
  intros Hr Hres Hm H0 HA Hsm Hgo Hpre He Ht Ht3 Hdrift Hsp Hset Hl.
  apply (Resolve_spec _ _ _ _ _ _ _ _ Hr) in Hres as (name & rest & Hargs & Hn & Hlen & Hcm & Ha).
  clear Hr. unfold record_of in Hl.
  destruct (cmd_readOnly cm) eqn:Ero; [discriminate Hl|]. cbn [negb andb] in Hl.
  destruct (IsError reply) eqn:Eerr; [discriminate Hl|]. injection Hl as <-.
  destruct (table_at maphash parseFloat formatFloat quote E
    (λ cm x, cmd_readOnly cm = true \/ write_ok δ (cmd_name cm) x.2) cm (pre, spec)
    (table_writes maphash parseFloat formatFloat quote E δ Hδ) Hcm Hm) as [Hro|[Hw _]]; [congruence|].
  cbn [snd] in Hw. destruct Hw as [[Hex ->]|[Hnex Hrep]].
  - assert (cmd_arity cm = 3) as Har.
    { rewrite (arity_by_name parseFloat formatFloat quote maphash E maphash E cm
        (writeKey "expire" 3 (cmdExpire maphash E)) Hcm); [reflexivity| |exact Hex].
      apply (list_elem_of_lookup_2 _ 7). reflexivity. }
    rewrite Har in Ha. apply args_3 in Ha as (n0 & key & a & Hthree). rewrite Hthree in *.
    unfold logged_form. rewrite (bool_decide_true (cmd_name cm = lit "expire") Hex).
    apply Forall_cons in Hgo as [_ [Hkey _]%Forall_cons].
    destruct (ParseInt a) as [secs|] eqn:Ep.
    + exact (expire_record_replays n0 key a secs t3 idx t1 t2 As A A' reply H0 HA Hsm Hkey Ep He Ht Ht3 Hdrift Hsp Hset).
    + destruct Hsp as (k & x & _ & [= <-] & Hx). rewrite Ep in Hx. destruct Hx as [-> _]. discriminate Eerr.
  - assert (logged_form t3 cm args = args) as ->.
    { unfold logged_form. destruct args as [|? [|? [|? [|? ?]]]]; try reflexivity.
      by rewrite (bool_decide_false (cmd_name cm = lit "expire") Hnex). }
    exists A, A', name, rest, pre, spec. cbn [fst snd]. rewrite Hn.
    split; [exact H0|]. split; [exact HA|]. split; [reflexivity|]. split; [exact Hargs|]. split; [exact Hm|].
    split; [exact Hlen|]. split; [|split; [exact Hsm|split; [exact Hgo|split; [exact Hpre|]]]].
    + intros m E0 cm0 Hcm0 Hn0.
      rewrite (arity_by_name parseFloat formatFloat quote m E0 maphash E cm0 cm Hcm0 Hcm Hn0). exact Ha.
    + intros u1 u2 B r' B' Hu HspB Hsim.
      refine (Hrep args T t1 t2 u1 u2 A reply A' B r' B' _ _ Hu Hsp HspB Hsim Hset); [|lia].
      unfold unix_epoch in He. lia.
Qed.

(** ** The life of a server *)

(** The server [s] answers the request [args] on database [idx]: it is a data
    command of a size the log's format can hold, and the answer, the stores [As']
    and the record [l] are those of [dispatch_served]. *)
Definition answers (s : Server) (idx : Z) (args : list bytes) (t : Time) (As : list astore)
    (s' : Server) (t' : Time) (As' : list astore) (l : option logged) : Prop :=
  exists cm pre spec A t1 t2 t3 reply A',
    Resolve (sv_registry s) args = inl cm /\ (cmd_name cm, (pre, spec)) ∈ meanings /\
    0 <= idx <= MaxInt64 /\ As !! Z.to_nat idx = Some A /\ small A /\
    Forall go_len args /\ len args * 24 <= 2 ^ 48 /\ pre args /\
    dispatch maphash E wreck s idx args = Ret (reply, idx, s') /\
    t <= t1 <= t2 /\ t2 <= t3 <= t' /\ t3 - t1 <= δ /\ spec t1 t2 args A reply A' /\
    As' = <[Z.to_nat idx := A']> As /\ sess maphash E (session s' idx) t' As' /\
    l = record_of (bool_decide (is_Some (sv_persist s))) idx t3 cm args reply /\
    (sv_disk s', sv_persist s') = append_to (sv_disk s) (sv_persist s) l /\ same_server s s'.

(** The server's directory and store are those of [sys]. *)
Definition on_disk (s : Server) (sys : Sys) : Prop :=
  sv_disk s = s_disk sys /\ sv_persist s = Some (s_store sys).

Definition with_sys (s : Server) (sys : Sys) : Server := set_store s (s_disk sys) (Some (s_store sys)).

(** A life: from an empty directory, requests, flushes, captures and the file
    operations of their installations, interleaved. [T] is a time by which no
    deadline falls due. A capture is one of stores whose entries fit the
    snapshot's format ([storable]): the code does not check the deadlines
    ([snapshot_deadline] says what becomes of the others). *)
Inductive lives (fsync : bytes) (limits : Limits) : Server -> Sys -> Time -> list astore -> Prop :=
  | lives_start s t n :
      NewRegistry maphash parseFloat formatFloat quote E = Some (sv_registry s) ->
      unix_epoch <= t <= T -> sess maphash E (session s 0) t (replicate n ∅) ->
      on_disk s (sys_init fsync limits) ->
      lives fsync limits s (sys_init fsync limits) t (replicate n ∅)
  | lives_request s sys t As idx args s' t' As' l :
      lives fsync limits s sys t As -> answers s idx args t As s' t' As' l ->
      Forall (settled T) As' -> t' <= T ->
      lives fsync limits s' (match l with Some l => sys_after_append l sys | None => sys end) t' As'
  | lives_flush s sys t As :
      lives fsync limits s sys t As ->
      lives fsync limits (with_sys s (sys_after_flush sys)) (sys_after_flush sys) t As
  | lives_capture s sys t As orders body :
      lives fsync limits s sys t As -> s_pending sys = None -> NextGen (s_store sys) <= MaxInt64 ->
      len (sv_databases s) <= MaxInt64 -> Forall small As -> Forall storable (sv_databases s) ->
      capture orders s (s_store sys) = Ret (inl (snapshot_bytes (NextGen (s_store sys)) body)) ->
      lives fsync limits (with_sys s (sys_after_capture body sys)) (sys_after_capture body sys) t As
  | lives_install s sys t As :
      lives fsync limits s sys t As ->
      lives fsync limits (with_sys s (sys_after_install sys)) (sys_after_install sys) t As.

(** The snapshot [x] and the part [cs] of the history after it rebuild [As]. *)
Definition rebuilds (x : option captured) (hist : list logged) (t : Time) (As : list astore) : Prop :=
  exists As0 t0 cs, captured_ok x t0 As0 /\ t0 <= t /\ length As0 = length As /\
    Forall (settled T) As0 /\ hist = Store.covered x ++ cs /\
    replay_path parseFloat formatFloat quote δ T cs As0 As.

Definition life_inv (fsync : bytes) (limits : Limits) (s : Server) (sys : Sys) (t : Time) (As : list astore) : Prop :=
  sys_reachable fsync limits sys /\ on_disk s sys /\
  NewRegistry maphash parseFloat formatFloat quote E = Some (sv_registry s) /\
  sess maphash E (session s 0) t As /\ unix_epoch <= t <= T /\ Forall (settled T) As /\
  rebuilds (s_installed sys) (s_hist sys) t As /\
  (forall ops x, s_pending sys = Some (ops, x) -> rebuilds (Some x) (s_hist sys) t As).

Lemma sess_index maphash' E' s i j t As :
  sess maphash' E' (session s i) t As -> 0 <= j < len (sv_databases s) ->
  sess maphash' E' (session s j) t As.
Proof. intros (HF & _ & Ht & Hm) Hj. exact (conj HF (conj Hj (conj Ht Hm))). Qed.

Lemma sess_zero maphash' E' s i t As :
  sess maphash' E' (session s i) t As -> sess maphash' E' (session s 0) t As.
Proof. intros Hs. pose proof Hs as (_ & Hi & _). cbn in Hi. eapply sess_index; [exact Hs|lia]. Qed.

Lemma rebuilds_later x hist t t' As :
  rebuilds x hist t As -> t <= t' -> rebuilds x hist t' As.
Proof.
  intros (As0 & t0 & cs & H1 & H2 & H3) Ht. exists As0, t0, cs.
  split; [exact H1|]. split; [lia|exact H3].
Qed.

(** A request that is logged, and one that is not. *)
Lemma rebuilds_snoc x hist t t' As As' l :
  rebuilds x hist t As -> t <= t' -> length As' = length As ->
  replays_to parseFloat formatFloat quote δ T l As As' -> rebuilds x (hist ++ [l]) t' As'.
Proof.
  intros (As0 & t0 & cs & H1 & H2 & H3 & H4 & -> & H5) Ht Hl Hre. exists As0, t0, (cs ++ [l]).
  split; [exact H1|]. split; [lia|]. split; [congruence|]. split; [exact H4|]. split; [by rewrite app_assoc|].
  by eapply path_snoc.
Qed.

Lemma on_disk_with_sys s sys : on_disk (with_sys s sys) sys.
Proof. by split. Qed.

Lemma settled_sim A : settled T A -> sim δ T A A.
Proof.
  intros H k. destruct (A !! k) as [[a d]|] eqn:Ea; [|done].
  specialize (H k (a, d) Ea). unfold zeroTime in H. simpl in H. split; [apply asim_refl|lia].
Qed.

Lemma record_logged_ok b idx now cm args reply l :
  0 <= idx <= MaxInt64 -> Forall go_len args -> len args * 24 <= 2 ^ 48 ->
  record_of b idx now cm args reply = Some l -> logged_ok l.
Proof.
  intros Hidx Hgo Hlen. unfold record_of. destruct (_ && _ && _); [|done]. intros [= <-].
  split; [unfold is_int64, MinInt64, MaxInt64 in *; cbn [fst]; lia|]. cbn [snd]. unfold logged_form.
  destruct args as [|a0 [|key [|a [|x rest]]]]; try done. destruct (bool_decide _); [|done].
  destruct (ParseInt a) as [secs|]; [|done]. split; [|done].
  apply Forall_cons in Hgo as [_ [Hkey _]%Forall_cons].
  apply Forall_cons. split; [vm_compute; discriminate|]. apply Forall_cons. split; [exact Hkey|].
  apply Forall_singleton. unfold go_len, len.
  pose proof (FormatInt_length (UnixMilli (now + wrap64 (secs * 1000000000)))). lia.
Qed.

Lemma answers_inv fsync limits s sys t As idx args s' t' As' l :
  life_inv fsync limits s sys t As -> answers s idx args t As s' t' As' l ->
  Forall (settled T) As' -> t' <= T ->
  life_inv fsync limits s' (match l with Some l => sys_after_append l sys | None => sys end) t' As'.
Proof.
  intros (Hre & [Hd Hp] & Hreg & Hs & Ht & Hset & Hb & Hpend)
    (cm & pre & spec & A & t1 & t2 & t3 & reply & A' & Hres & Hm & Hidx & HA & Hsm & Hgo & Hlen & Hpre &
     Hdisp & Ht1 & Ht2 & Hdrift & Hsp & -> & Hs' & Hl & Hst & Hsame) Hset' Ht'.
  rewrite Hp, bool_decide_true in Hl by by eexists.
  assert (settled T A') as HsA.
  { rewrite Forall_forall in Hset'. apply Hset'. eapply list_elem_of_lookup_2.
    apply list_lookup_insert_eq. by eapply lookup_lt_Some. }
  assert (t <= t') as Htt by lia.
  assert (NewRegistry maphash parseFloat formatFloat quote E = Some (sv_registry s')) as Hreg'
    by (rewrite (proj1 Hsame); exact Hreg).
  assert (sess maphash E (session s' 0) t' (<[Z.to_nat idx := A']> As)) as Hs0
    by (eapply sess_zero; exact Hs').
  destruct l as [l|].
  - pose proof (record_replays (sv_registry s) args cm pre spec idx t1 t2 t3 As A A' reply l
      Hreg Hres Hm (proj1 Hidx) HA Hsm Hgo Hpre ltac:(lia) ltac:(lia) ltac:(lia) Hdrift Hsp HsA (eq_sym Hl)) as Hrep.
    assert (logged_ok l) as Hlok.
    { eapply record_logged_ok; [exact Hidx|exact Hgo|exact Hlen|symmetry; exact Hl]. }
    clear Hreg Hres. rewrite Hd, Hp in Hst. destruct l as [db a]. cbn [append_to] in Hst.
    split; [by apply reach_append|]. split; [|split; [exact Hreg'|split; [exact Hs0|split; [lia|split; [exact Hset'|split]]]]].
    + unfold sys_after_append. cbn [fst snd]. destruct (Append db a (s_disk sys) (s_store sys)) as [d' st'].
      injection Hst as Hd' Hp'. split; [exact Hd'|exact Hp'].
    + unfold sys_after_append. destruct (Append _ _ _ _). cbn [s_installed s_hist].
      eapply rebuilds_snoc; [exact Hb|exact Htt|by rewrite length_insert|exact Hrep].
    + unfold sys_after_append. destruct (Append _ _ _ _). cbn [s_pending s_hist]. intros ops x Hx.
      eapply rebuilds_snoc; [exact (Hpend ops x Hx)|exact Htt|by rewrite length_insert|exact Hrep].
  - assert (A' = A) as ->.
    { pose proof Hres as (name & rest & _ & _ & _ & Hcm & Ha)%(Resolve_spec _ _ _ _ _ _ _ _ Hreg).
      apply (unlogged_keeps maphash parseFloat formatFloat quote E cm pre spec args t1 t2 A reply A' Hcm Hm Ha Hsp).
      unfold record_of in Hl. destruct (cmd_readOnly cm); [by left|]. right.
      destruct (IsError reply); [reflexivity|discriminate Hl]. }
    clear Hreg Hres. rewrite (list_insert_id As _ A HA) in *. rewrite Hd, Hp in Hst. injection Hst as Hd' Hp'.
    split; [exact Hre|]. split; [exact (conj Hd' Hp')|]. split; [exact Hreg'|]. split; [exact Hs0|].
    split; [lia|]. split; [exact Hset'|]. split; [by eapply rebuilds_later|].
    intros ops x Hx. eapply rebuilds_later; [exact (Hpend ops x Hx)|exact Htt].
Qed.

(** A step of the store alone. *)
Lemma store_step_inv fsync limits s sys sys' t As :
  life_inv fsync limits s sys t As -> sys_reachable fsync limits sys' -> s_hist sys' = s_hist sys ->
  rebuilds (s_installed sys') (s_hist sys) t As ->
  (forall ops x, s_pending sys' = Some (ops, x) -> rebuilds (Some x) (s_hist sys) t As) ->
  life_inv fsync limits (with_sys s sys') sys' t As.
Proof.
  intros (_ & _ & Hreg & Hs & Ht & Hset & _) Hre Hh Hi Hp. unfold life_inv. rewrite Hh.
  split; [exact Hre|]. split; [apply on_disk_with_sys|]. split; [exact Hreg|]. split; [exact Hs|].
  split; [exact Ht|]. split; [exact Hset|]. split; [exact Hi|exact Hp].
Qed.

Lemma capture_step_inv fsync limits s sys t As orders body :
  life_inv fsync limits s sys t As -> s_pending sys = None -> NextGen (s_store sys) <= MaxInt64 ->
  len (sv_databases s) <= MaxInt64 -> Forall small As -> Forall storable (sv_databases s) ->
  capture orders s (s_store sys) = Ret (inl (snapshot_bytes (NextGen (s_store sys)) body)) ->
  life_inv fsync limits (with_sys s (sys_after_capture body sys)) (sys_after_capture body sys) t As.
Proof.
  intros Hinv Hp Hg Hlen Hsm Hst Hcap. pose proof Hinv as (Hre & _ & _ & Hs & Ht & Hset & Hb & _).
  assert (is_int64 (NextGen (s_store sys))) as Hgi.
  { pose proof Hre as (cmds & (Hb0 & _) & _)%sys_reachable_inv. unfold is_int64, MinInt64, NextGen in *.
    destruct (s_installed sys) as [[[? ?] ?]|]; cbn in Hb0; lia. }
  assert (is_int64 (len (c_databases (session s 0)))) as Hli.
  { pose proof (len_nonneg (sv_databases s)). unfold is_int64, MinInt64. cbn. lia. }
  pose proof Hs as (HF & _).
  destruct (capture_loads maphash orders.1 orders.2 (NextGen (s_store sys)) t (session s 0) As
    HF Hsm Hst Hli Hgi) as (snap & Hw & Hl).
  assert (snap = snapshot_bytes (NextGen (s_store sys)) body) as ->.
  { unfold capture in Hcap. cbn [session c_databases] in Hw. rewrite Hcap in Hw. congruence. }
  apply (store_step_inv fsync limits s sys _ t As Hinv).
  - by apply reach_capture.
  - unfold sys_after_capture. by destruct (Rotate _ _).
  - unfold sys_after_capture. by destruct (Rotate _ _).
  - unfold sys_after_capture. destruct (Rotate _ _) as [d' st']. cbn [s_pending].
    intros ops x Hx. injection Hx as _ <-. exists As, t, []. cbn [captured_ok Store.covered].
    split; [exact Hl|]. split; [lia|]. split; [reflexivity|]. split; [exact Hset|].
    split; [by rewrite app_nil_r|constructor].
Qed.

Lemma install_step_inv fsync limits s sys t As :
  life_inv fsync limits s sys t As ->
  life_inv fsync limits (with_sys s (sys_after_install sys)) (sys_after_install sys) t As.
Proof.
  intros Hinv. pose proof Hinv as (Hre & _ & _ & _ & _ & _ & Hb & Hp).
  apply (store_step_inv fsync limits s sys _ t As Hinv); [by apply reach_install|..];
    unfold sys_after_install; destruct (s_pending sys) as [[[|op ops] x]|] eqn:Ep; cbn; try done.
  - destruct op; try exact Hb. exact (Hp _ _ eq_refl).
  - intros ops' x' Hx. injection Hx as <- <-. exact (Hp _ _ eq_refl).
  - by rewrite Ep.
Qed.

Lemma lives_inv fsync limits s sys t As :
  lives fsync limits s sys t As -> life_inv fsync limits s sys t As.
Proof.
  induction 1 as [s t n Hreg Ht Hs Hd|s sys t As idx args s' t' As' l _ IH Ha Hset Ht'|
    s sys t As _ IH|s sys t As orders body _ IH Hp Hg Hlen Hsm Hst Hcap|s sys t As _ IH].
  - split; [apply sys_start|]. split; [exact Hd|]. split; [exact Hreg|]. split; [exact Hs|]. split; [exact Ht|].
    split; [apply Forall_replicate, map_Forall_empty|]. split; [|by intros ops x].
    exists (replicate n ∅), t, []. split; [by apply Forall_replicate|]. split; [lia|]. split; [done|].
    split; [apply Forall_replicate, map_Forall_empty|]. split; [done|constructor].
  - by eapply answers_inv.
  - pose proof IH as (Hre & _ & _ & _ & _ & _ & Hb & Hp).
    apply (store_step_inv fsync limits s sys _ t As IH); [by apply reach_flush|done..].
  - by apply capture_step_inv with orders.
  - by apply install_step_inv.
Qed.

(** Every data request of a life that can be logged is such a step. *)
Lemma request_answers s idx args cm pre spec t As A :
  parses_f64 parseFloat ->
  NewRegistry maphash parseFloat formatFloat quote E = Some (sv_registry s) ->
  Resolve (sv_registry s) args = inl cm -> (cmd_name cm, (pre, spec)) ∈ meanings ->
  sess maphash E (session s idx) t As -> As !! Z.to_nat idx = Some A -> small A ->
  0 <= idx <= MaxInt64 -> Forall go_len args -> len args * 24 <= 2 ^ 48 -> pre args ->
  exists s' t' t1 t2 t3 reply A',
    (t3 - t1 <= δ -> answers s idx args t As s' t' (<[Z.to_nat idx := A']> As)
      (record_of (bool_decide (is_Some (sv_persist s))) idx t3 cm args reply)) /\
    t <= t1 <= t2 /\ t2 <= t3 <= t' /\ t' <= env_now E (sv_tick s') /\
    spec t1 t2 args A reply A'.
Proof.
  intros Hpf Hreg Hres Hm Hs HA Hsm Hidx Hgo Hlen Hpre.
  destruct (dispatch_served maphash E wreck parseFloat formatFloat quote s idx args cm pre spec t As A
    Hpf Hreg Hres Hm Hs HA Hsm Hgo Hpre)
    as (t1 & t2 & t3 & t4 & reply & A' & s' & Hd & Ht & Ht3 & Hsp & Hs' & Hst & Hsame).
  exists s', t4, t1, t2, t3, reply, A'. split; [|exact (conj Ht (conj Ht3 (conj (proj1 (proj2 (proj2 Hs'))) Hsp)))].
  intros Hdrift.
  exists cm, pre, spec, A, t1, t2, t3, reply, A'.
  exact (conj Hres (conj Hm (conj Hidx (conj HA (conj Hsm (conj Hgo (conj Hlen (conj Hpre (conj Hd
    (conj Ht (conj Ht3 (conj Hdrift (conj Hsp (conj eq_refl (conj Hs' (conj eq_refl (conj Hst Hsame))))))))))))))))).
Qed.
End Lifetime.

(** ** The restarted server *)

Lemma fresh_db maphash k t : db_abs maphash (SetReaper (Shard_New k)) t ∅.
Proof. exact (new_db_abs maphash k t). Qed.

Lemma Server_New_databases cfg r d s n :
  Server_New cfg r d = Ret s -> Net_Databases (cfg_Network cfg) = Z.of_nat n ->
  sv_databases s = replicate n (SetReaper (Shard_New (Net_Shards (cfg_Network cfg)))) /\
  sv_registry s = r /\ sv_disk s = d /\ sv_tick s = 0%nat /\ sv_persistCfg s = cfg_Persistence cfg.
Proof.
  unfold Server_New. intros H Hn. rewrite Hn in H. destruct (make_slice _ _) as [[]| |]; cbn in H; try done.
  destruct (Z.ltb_spec (Z.of_nat n) 0); [lia|]. injection H as <-. cbn. rewrite Nat2Z.id. done.
Qed.

(** A session over databases that hold [As] at [t], under a clock past [t]. *)
Lemma sess_held maphash E t c As :
  dbs_hold maphash t c As -> 0 <= c_index c < len (c_databases c) -> t <= env_now E (c_tick c) ->
  (forall i j, (i <= j)%nat -> env_now E i <= env_now E j) -> sess maphash E c t As.
Proof. intros HF Hi Ht Hm. split; [exact HF|]. split; [exact Hi|]. split; [exact Ht|]. auto. Qed.

(** Recovery of a directory whose snapshot and log rebuild [As]. *)
Lemma recovery_rebuilds parseFloat formatFloat quote δ T maphash E r d inst cs t0 As0 As t c limits coins :
  0 <= δ -> parses_f64 parseFloat -> NewRegistry maphash parseFloat formatFloat quote E = Some r ->
  (forall i, env_now E i <= T) -> (forall i j, (i <= j)%nat -> env_now E i <= env_now E j) ->
  snapshot_held d inst -> recovers d cs -> captured_ok inst t0 As0 -> t0 <= t ->
  Forall (settled T) As0 -> replay_path parseFloat formatFloat quote δ T cs As0 As ->
  (forall t, dbs_hold maphash t c (replicate (length As0) ∅)) ->
  0 <= c_index c < len (c_databases c) -> t <= env_now E (c_tick c) ->
  exists n k c' u Bs,
    Recover limits coins (restore maphash) (replay r) d c = Ret (n, k, None, c') /\
    sess maphash E c' u Bs /\ Forall2 (sim δ T) As Bs.
Proof.
  intros Hδ Hpf Hr HT Hmono Hsnap Hrec Hcap Ht0 Hset Hpath H0 Hi Ht.
  rewrite Hrec. destruct (load_captured maphash limits coins d inst t0 c As0 Hsnap Hcap (H0 t0))
    as (n & c1 & El & Hh & (Hl & Hi1 & Hk1)). rewrite El. orun.
  assert (sess maphash E c1 t0 As0) as Hs1.
  { apply sess_held; [exact Hh|rewrite Hi1, Hl; exact Hi|rewrite Hk1; lia|exact Hmono]. }
  assert (Forall2 (sim δ T) As0 As0) as Hsim.
  { apply Forall_Forall2_diag. eapply Forall_impl; [exact Hset|]. intros A HA. by apply settled_sim. }
  destruct (replay_log parseFloat formatFloat quote δ T maphash E r Hpf Hr HT cs As0 As Hpath c1 t0 As0 Hs1 Hsim)
    as (k & c2 & u & Bs & Er & Hs2 & Hsim2).
  rewrite Er. orun. exists n, k, c2, u, Bs. split; [reflexivity|]. split; [exact Hs2|exact Hsim2].
Qed.

(** C4. A restart restores the stores, deadlines included. Take a server under the
    [always] policy at any moment of any life ([lives]): started on an empty
    directory, it has served requests (every data command, EXPIRE included),
    flushed and compacted, the file operations of the compactions interleaved with
    the requests, each compaction of stores that fit the snapshot's format
    ([storable]: deadlines between the years 1678 and 2262, none of them the epoch
    itself). Each command was logged within [δ] of its own clock reading. The power
    fails, taking any part of what was not fsynced. A new server over the
    directory that is left, with another hash seed, shard count, clock and level
    draws, opens it without an error, and its stores are those the old server had:
    the same keys with the same values (scores up to the sign of a zero), no
    deadline where there was none, and otherwise the same deadline up to [δ] later
    (EXPIRE is logged with a second clock reading) and less than a millisecond
    earlier (the log counts milliseconds). This holds as long as no deadline falls
    due before the recovery ends (time [T], a millisecond to spare). *)
Theorem restart_restores maphash parseFloat formatFloat quote E wreck T δ limits s sys t As d'
    maphash' E' cfg r' s0 coins :
  is_int64 (T - unix_epoch) -> 0 <= δ -> parses_f64 parseFloat ->
  lives maphash parseFloat formatFloat quote E wreck T δ FSyncAlways limits s sys t As -> As <> [] ->
  disk_crash (sv_disk s) d' ->
  NewRegistry maphash' parseFloat formatFloat quote E' = Some r' ->
  Server_New cfg r' d' = Ret s0 ->
  Net_Databases (cfg_Network cfg) = len As -> Per_Enabled (cfg_Persistence cfg) = true ->
  t <= env_now E' 0 -> (forall i j, (i <= j)%nat -> env_now E' i <= env_now E' j) ->
  (forall i, env_now E' i <= T) ->
  exists s1 u Bs, openPersistence maphash' coins s0 = Ret (s1, None) /\
    sess maphash' E' (session s1 0) u Bs /\ Forall2 (sim δ T) As Bs.
Proof.
  intros HT Hδ Hpf Hlife Hne Hcr Hr' Hnew Hn Hen Ht Hmono HTi.
  destruct (lives_inv maphash parseFloat formatFloat quote E wreck T HT δ Hδ _ _ _ _ _ _ Hlife)
    as (Hre & [Hd _] & Hreg & _ & _ & _ & (As0 & t0 & cs & Hcap & Ht0 & Hl0 & Hset0 & Hh & Hpath) & _).
  clear Hreg Hlife. rewrite Hd in Hcr.
  destruct (durable_recovers FSyncAlways limits sys d' eq_refl Hre Hcr) as (cmds & Hh' & Hsnap & Hrec).
  assert (cmds = cs) as -> by (rewrite Hh in Hh'; by apply app_inv_head in Hh').
  destruct (Server_New_databases cfg r' d' s0 (length As) Hnew Hn) as (Hdb & Hr0 & Hd0 & Hk0 & Hp0).
  unfold openPersistence. rewrite Hp0, Hen. cbn [negb]. rewrite Hd0.
  rewrite (open_crashed FSyncAlways limits sys d' _ _ Hre Hcr). unfold Server_recover.
  cbn [set_store sv_limits sv_registry sv_disk session sv_databases sv_settings sv_tick]. rewrite Hr0.
  set (c := session _ 0).
  destruct (recovery_rebuilds parseFloat formatFloat quote δ T maphash' E' r' d' (s_installed sys) cs t0 As0 As t c
    (sv_limits s0) coins) as (n & k & c' & u & Bs & Er & Hs & Hsim); try assumption.
  - intros t'. unfold dbs_hold, c. cbn [session c_databases set_store sv_databases]. rewrite Hdb, <- Hl0.
    apply Forall2_replicate, fresh_db.
  - unfold c. cbn [session c_index c_databases set_store sv_databases]. rewrite Hdb. unfold len.
    rewrite length_replicate. destruct As; [by destruct (Hne eq_refl)|]. cbn [length]. lia.
  - unfold c. cbn [session c_tick set_store sv_tick]. by rewrite Hk0.
  - rewrite Er. orun. eexists _, u, Bs. split; [reflexivity|]. split; [|exact Hsim].
    apply (sess_zero maphash' E' _ (c_index c')). exact Hs.
Qed.

(** ** Witness

    A server with one database runs SET a 1 and is restarted. *)

Definition still_env : Env := mkEnv (λ _, unix_epoch + 1000) (λ _, []) (λ _, []).

Definition restart_cfg : Config :=
  mkConfig (mkNetwork (lit "h") 1 1 2) codec_limits (mkExpiryGroup 0 0)
    (mkPersistence true (lit "data") FSyncAlways 0) (mkMetrics false (lit "h") 1 0) (mkLog 0 (lit "text")).

Definition no_wreck (_ : Command) (_ : list bytes) (c : CmdContext) : CmdContext := c.

Definition restart_set : Command := writeKey "set" 3 (cmdSet len_hash).

(** The server before the request. *)
Lemma restart_example_server :
  exists s, NewRegistry len_hash zero_float (λ _, []) id still_env = Some (sv_registry s) /\
    Resolve (sv_registry s) set_a.2 = inl restart_set /\
    sess len_hash still_env (session s 0) (unix_epoch + 1000) (replicate 1 ∅) /\
    on_disk s (sys_init FSyncAlways codec_limits).
Proof.
  destruct (NewRegistry_all len_hash zero_float (λ _, []) id still_env) as (r & Hr & _).
  destruct (Server_New restart_cfg r (mkDisk None None ∅)) as [s00| |] eqn:Hnew;
    [|discriminate Hnew|discriminate Hnew].
  destruct (Server_New_databases restart_cfg r _ s00 1 Hnew eq_refl) as (Hdb & Hreg & Hd & Hk & _).
  exists (with_sys s00 (sys_init FSyncAlways codec_limits)).
  cbn [with_sys set_store sv_registry]. rewrite Hreg. split; [exact Hr|]. split; [|split; [|split; reflexivity]].
  - apply (Resolve_spec _ _ _ _ _ _ _ _ Hr).
    eexists _, _. split; [reflexivity|]. split; [reflexivity|].
    split; [split; [reflexivity|vm_compute; discriminate]|]. split; [|reflexivity].
    apply (list_elem_of_lookup_2 _ 1). reflexivity.
  - clear Hr. apply sess_held; [|cbn; rewrite Hdb; done|cbn; lia|cbn; lia].
    unfold dbs_hold. cbn [session c_databases with_sys set_store sv_databases]. rewrite Hdb.
    apply Forall2_replicate, fresh_db.
Qed.

Lemma zero_float_parses : parses_f64 zero_float.
Proof. intros b f Hf. injection Hf as <-. unfold is_f64. lia. Qed.

Lemma set_a_go_len : Forall go_len set_a.2.
Proof. by repeat constructor. Qed.

Lemma request_served_witness :
  exists s, sv_persist s = Some (s_store (sys_init FSyncAlways codec_limits)) /\
    served len_hash still_env restart_set set_a.2 s 0 (unix_epoch + 1000) (replicate 1 ∅)
      (λ t1 t2 reply A', spec_set t1 t2 set_a.2 ∅ reply A' /\
        (cmd_readOnly restart_set = true \/ IsError reply = true -> A' = ∅))
      (dispatch len_hash still_env no_wreck s 0 set_a.2).
Proof.
  destruct restart_example_server as (s & Hr & Hres & Hs & [_ Hp]).
  exists s. split; [exact Hp|].
  apply (request_served len_hash zero_float (λ _, []) id still_env no_wreck s 0 set_a.2 restart_set no_pre spec_set
    (unix_epoch + 1000) (replicate 1 ∅) ∅).
  - exact zero_float_parses.
  - exact Hr.
  - exact Hres.
  - apply (list_elem_of_lookup_2 _ 1). reflexivity.
  - exact Hs.
  - reflexivity.
  - apply map_Forall_empty.
  - exact set_a_go_len.
  - exact I.
Defined.

(** A request of the example's life, in which the clock stands still. *)
Lemma example_request s sys As idx args cm pre spec A :
  let now := unix_epoch + 1000 in
  lives len_hash zero_float (λ _, []) id still_env no_wreck (unix_epoch + 5000) 1000
    FSyncAlways codec_limits s sys now As ->
  Resolve (sv_registry s) args = inl cm -> (cmd_name cm, (pre, spec)) ∈ meanings zero_float (λ _, []) ->
  As !! Z.to_nat idx = Some A -> small A -> 0 <= idx <= MaxInt64 -> Forall go_len args ->
  len args * 24 <= 2 ^ 48 -> pre args ->
  exists s' reply A', spec now now args A reply A' /\ sv_registry s' = sv_registry s /\
    (Forall (settled (unix_epoch + 5000)) (<[Z.to_nat idx := A']> As) ->
     lives len_hash zero_float (λ _, []) id still_env no_wreck (unix_epoch + 5000) 1000 FSyncAlways codec_limits
       s' (match record_of true idx now cm args reply with Some l => sys_after_append l sys | None => sys end)
       now (<[Z.to_nat idx := A']> As)).
Proof.
  intros now Hlife Hres Hm HA Hsm Hidx Hgo Hlen Hpre.
  destruct (lives_inv _ _ _ _ _ _ (unix_epoch + 5000) ltac:(vm_compute; split; discriminate) 1000 ltac:(lia) _ _ _ _ _ _ Hlife)
    as (_ & [_ Hp] & Hreg & Hs & _).
  assert (sess len_hash still_env (session s idx) now As) as Hsi.
  { eapply sess_index; [exact Hs|]. destruct Hs as (HF & _). apply lookup_lt_Some in HA.
    rewrite <- (Forall2_length _ _ _ HF) in HA. cbn in HA. unfold len. lia. }
  destruct (request_answers len_hash zero_float (λ _, []) id still_env no_wreck 1000 s idx args cm pre spec
    now As A zero_float_parses Hreg Hres Hm Hsi HA Hsm Hidx Hgo Hlen Hpre)
    as (s' & t' & t1 & t2 & t3 & reply & A' & Ha & Ht1 & Ht2 & Ht' & Hsp).
  clear Hreg Hres. change (t' <= now) in Ht'. assert (t1 = now /\ t2 = now /\ t3 = now /\ t' = now) as (-> & -> & -> & ->) by lia.
  specialize (Ha ltac:(lia)). exists s', reply, A'. split; [exact Hsp|]. split.
  { destruct Ha as (? & ? & ? & ? & ? & ? & ? & ? & ? & _ & _ & _ & _ & _ & _ & _ & _ & _ & _ & _ & _ & _ & _ & _ & _ & _ & Hsame).
    exact (proj1 Hsame). }
  intros Hset. rewrite Hp in Ha. eapply lives_request; [exact Hlife|exact Ha|exact Hset|unfold now; lia].
Qed.

Lemma settled_single (T : Time) (k : bytes) (a : avalue) (d : Time) :
  d = zeroTime \/ T + 1000000 <= d -> Forall (settled T) [{[k := (a, d)]}].
Proof. intros Hd. apply Forall_singleton. unfold settled. by apply map_Forall_singleton. Qed.

Definition expire_a : list bytes := [lit "EXPIRE"; lit "a"; lit "100"].
Definition restart_expire : Command := writeKey "expire" 3 (cmdExpire len_hash still_env).

(** Its log, and its store: the deadline is 100 seconds and a microsecond after the
    epoch, and the logged one 100 seconds after it. *)
Definition example_log : list logged := [set_a; (0, [lit "PEXPIREAT"; lit "a"; lit "100000"])].
Definition example_deadline : Time := unix_epoch + 100000001000.

Lemma restart_example_life :
  exists s, lives len_hash zero_float (λ _, []) id still_env no_wreck (unix_epoch + 5000) 1000
      FSyncAlways codec_limits s
      (foldl (λ sys l, sys_after_append l sys) (sys_init FSyncAlways codec_limits) example_log) (unix_epoch + 1000)
      [{[lit "a" := (AString (lit "1"), example_deadline)]}].
Proof.
  destruct restart_example_server as (s0 & Hr & Hres & Hs0 & Hd).
  assert (Hl0 : lives len_hash zero_float (λ _, []) id still_env no_wreck (unix_epoch + 5000) 1000
    FSyncAlways codec_limits s0 (sys_init FSyncAlways codec_limits) (unix_epoch + 1000) (replicate 1 ∅)).
  { apply lives_start; [exact Hr|unfold unix_epoch; lia|exact Hs0|exact Hd]. }
  destruct (example_request s0 _ _ 0 set_a.2 restart_set no_pre spec_set ∅ Hl0 Hres)
    as (s1 & reply1 & A1 & (k & v & Hk & Hv & -> & ->) & Hreg1 & Hl1).
  1: apply (list_elem_of_lookup_2 _ 1); reflexivity.
  1: reflexivity.
  1: apply map_Forall_empty.
  1: split; [lia|vm_compute; discriminate].
  1: exact set_a_go_len.
  1: vm_compute; discriminate.
  1: exact I.
  injection Hk as <-. injection Hv as <-. specialize (Hl1 (settled_single _ (lit "a") (AString (lit "1")) zeroTime (or_introl eq_refl))).
  assert (Resolve (sv_registry s1) expire_a = inl restart_expire) as Hres1.
  { rewrite Hreg1. apply (Resolve_spec _ _ _ _ _ _ _ _ Hr).
    eexists _, _. split; [reflexivity|]. split; [reflexivity|].
    split; [split; [reflexivity|vm_compute; discriminate]|]. split; [|reflexivity].
    apply (list_elem_of_lookup_2 _ 7). reflexivity. }
  clear Hr Hres.
  destruct (example_request s1 _ _ 0 expire_a restart_expire no_pre spec_expire {[lit "a" := (AString (lit "1"), zeroTime)]} Hl1 Hres1)
    as (s2 & reply2 & A2 & (k & a & Hk & Ha & Hsp) & _ & Hl2).
  1: apply (list_elem_of_lookup_2 _ 7); reflexivity.
  1: reflexivity.
  1: by apply map_Forall_singleton.
  1: split; [lia|vm_compute; discriminate].
  1: repeat constructor; vm_compute; discriminate.
  1: vm_compute; discriminate.
  1: exact I.
  injection Hk as <-. injection Ha as <-.
  rewrite (eq_refl : ParseInt (lit "100") = Some 100) in Hsp. destruct Hsp as [-> ->].
  assert (set_deadline (unix_epoch + 1000) {[lit "a" := (AString (lit "1"), zeroTime)]} (lit "a") example_deadline
    = {[lit "a" := (AString (lit "1"), example_deadline)]}) as Hset.
  { unfold set_deadline, get. rewrite lookup_singleton_eq. apply insert_singleton_eq. }
  assert (unix_epoch + 1000 + wrap64 (100 * 1000000000) = example_deadline) as Hat by (vm_compute; reflexivity).
  rewrite Hat, Hset in Hl2.
  assert (record_of true 0 (unix_epoch + 1000) restart_expire expire_a (bool_reply (bool_decide (is_Some
    (get (unix_epoch + 1000) {[lit "a" := (AString (lit "1"), zeroTime)]} (lit "a")))))
    = Some (0, [lit "PEXPIREAT"; lit "a"; lit "100000"])) as Hrec by (vm_compute; reflexivity).
  rewrite Hrec in Hl2.
  exists s2. refine (Hl2 (settled_single _ _ _ _ _)). right. vm_compute. discriminate.
Qed.

(** SET a 1 and EXPIRE a 100, a power loss, and a restart: the key comes back with
    its value, and a deadline within a millisecond of what it was. *)
Lemma restart_restores_witness :
  exists r s0 s1 u B,
    NewRegistry len_hash zero_float (λ _, []) id still_env = Some r /\
    Server_New restart_cfg r (one_segment (encode_all example_log) 31) = Ret s0 /\
    openPersistence len_hash (λ _ _, []) s0 = Ret (s1, None) /\
    sess len_hash still_env (session s1 0) u [B] /\
    exists e, B !! lit "a" = Some (AString (lit "1"), e) /\
      example_deadline - 1000000 < e <= example_deadline + 1000.
Proof.
  destruct restart_example_life as (s & Hlife).
  destruct (NewRegistry_all len_hash zero_float (λ _, []) id still_env) as (r & Hr & _).
  destruct (Server_New restart_cfg r (one_segment (encode_all example_log) 31)) as [s0| |] eqn:Hnew;
    [|discriminate Hnew|discriminate Hnew].
  destruct (restart_restores len_hash zero_float (λ _, []) id still_env no_wreck (unix_epoch + 5000) 1000
    codec_limits s _ _ _ (one_segment (encode_all example_log) 31) len_hash still_env restart_cfg r s0 (λ _ _, [])
    ltac:(vm_compute; split; discriminate) ltac:(discriminate) zero_float_parses Hlife) as (s1 & u & Bs & Hopen & Hs & Hsim).
  - discriminate.
  - destruct (lives_inv _ _ _ _ _ _ (unix_epoch + 5000) ltac:(vm_compute; split; discriminate) 1000 ltac:(lia)
      _ _ _ _ _ _ Hlife) as (_ & [Hd _] & _).
    rewrite Hd. split; [constructor|]. split; [constructor|]. intros g.
    assert (d_segments (s_disk (foldl (λ sys l, sys_after_append l sys) (sys_init FSyncAlways codec_limits) example_log))
      = {[0 := mkFile (encode_all example_log) 31]}) as -> by reflexivity.
    unfold one_segment. cbn [d_segments].
    destruct (decide (g = 0)) as [->|Hg]; [|rewrite !lookup_singleton_ne by done; constructor].
    rewrite !lookup_singleton_eq. constructor. exists 31%nat. split; [vm_compute; lia|reflexivity].
  - exact Hr.
  - exact Hnew.
  - reflexivity.
  - reflexivity.
  - reflexivity.
  - intros i j _. reflexivity.
  - intros i. vm_compute. discriminate.
  - apply Forall2_cons_inv_l in Hsim as (B & Bs' & HB & HBs & ->). apply Forall2_nil_inv_l in HBs as ->.
    exists r, s0, s1, u, B. split; [exact Hr|]. split; [exact Hnew|]. split; [exact Hopen|]. split; [exact Hs|].
    specialize (HB (lit "a")). rewrite lookup_singleton_eq in HB.
    destruct (B !! lit "a") as [[b e]|]; [|destruct HB]. destruct HB as [Hv [[Hz _]|[_ He]]]; [discriminate Hz|].
    exists e. split; [|exact He]. destruct b; cbn in Hv; by inversion Hv.
Defined.

(** A deadline one nanosecond past the range, as EXPIRE in 2024 with 8000000000
    seconds would set. *)
Definition far_entry : Entry := mkEntry (VString (lit "v")) (unix_epoch + 2 ^ 63).

Lemma snapshot_deadline_witness :
  exists s c' d', restore len_hash (entry_record 0 (lit "k", far_entry)) (session s 0) = Ret (c', None) /\
    dbs_hold len_hash (unix_epoch + 1000) c' [{[lit "k" := (AString (lit "v"), d')]}] /\
    d' < unix_epoch /\ dead d' (unix_epoch + 1000) = true.
Proof.
  destruct restart_example_server as (s & Hr & _ & (HF & _) & _). clear Hr.
  destruct (snapshot_deadline len_hash (lit "k") far_entry (AString (lit "v")) 0 (session s 0) (unix_epoch + 1000)
    (replicate 1 ∅) ∅) as (c' & d' & Er & Hh & _ & _ & Hfar).
  - split; [reflexivity|vm_compute; discriminate].
  - exact HF.
  - reflexivity.
  - lia.
  - destruct Hfar as (_ & Hd & Hdead); [vm_compute; split; reflexivity|].
    exists s, c', d'. split; [exact Er|]. split; [exact Hh|]. split; [exact Hd|]. apply Hdead. lia.
Defined.

(** At a microsecond past 1970, with the deadline at 1970. *)
Lemma replay_revives_expired_witness :
  exists r s c' u', NewRegistry len_hash zero_float (λ _, []) id still_env = Some r /\
    replay_all (replay r) (counted 0 (lit "k") (lit "5") 0) 0 (session s 0) = Ret (3, None, c') /\
    sess len_hash still_env c' u' [{[lit "k" := (AString (lit "1"), zeroTime)]}].
Proof.
  destruct restart_example_server as (s & Hr & _ & Hs & _).
  destruct (replay_revives_expired len_hash zero_float (λ _, []) id still_env (sv_registry s) zero_float_parses
    0 (lit "k") (lit "5") 5 0 (session s 0) (unix_epoch + 1000) (replicate 1 ∅) ∅ Hr Hs)
    as (c' & u' & d & w & Er & Hs' & _ & Hlate).
  - lia.
  - reflexivity.
  - apply map_Forall_empty.
  - vm_compute. discriminate.
  - vm_compute. discriminate.
  - reflexivity.
  - vm_compute. split; discriminate.
  - vm_compute. split; discriminate.
  - destruct Hlate as [-> ->]; [vm_compute; discriminate|].
    exists (sv_registry s), s, c', u'. split; [exact Hr|]. split; [exact Er|exact Hs'].
Defined.
