(* ===== verification/Shutdown.v ===== *)
(** * A clean shutdown

    What [Serve] does last (server.go): the final flush, compaction and close.
    After it the whole state is in a synced snapshot, so a restart brings back
    every store as it was, under each of the fsync policies, whatever happens to
    the machine in between. *)

From S2P Require Import Prelude GoBinary Pack Float64 Skiplist ValueList ValueHash ValueSet ValueZSet.
From S2P Require Import GoTime Value Keyspace Shard Strconv Resp Config Command Session.
From S2P Require Import CommandSpec CollectionSpec Registry Locality Codec Store ServerLocks Server Replay Restart.

(** ** Lemmas *)

(** All the file operations of an installation. *)
Lemma reach_installs fsync limits ops : forall d st h inst x,
  sys_reachable fsync limits (mkSys d st h inst (Some (ops, x))) ->
  sys_reachable fsync limits (mkSys (foldl disk_exec d ops) st h
    (foldl (λ i op, match op with TmpRename => Some x | _ => i end) inst ops) None).
Proof.
  induction ops as [|op ops IH]; intros d st h inst x Hs; apply reach_install in Hs; cbn in Hs; [exact Hs|].
  by apply IH.
Qed.

Lemma installs_snapshot snap gen (x : captured) inst :
  foldl (λ i op, match op with TmpRename => Some x | _ => i end) inst (install_ops snap gen) = Some x.
Proof.
  unfold install_ops. rewrite foldl_app. cbn [foldl]. generalize (seqZ 0 gen) as l.
  induction l as [|g l IH]; [done|exact IH].
Qed.

(** The store after the final flush, compaction and close. *)
Definition sys_finished (body : bytes) (sys : Sys) : Sys :=
  let sys := sys_after_capture body (sys_after_flush sys) in
  let ops := match s_pending sys with Some (ops, _) => ops | None => [] end in
  sys_after_flush (mkSys (foldl disk_exec (s_disk sys) ops) (s_store sys) (s_hist sys)
    (snd <$> s_pending sys) None).

Lemma finished_reachable fsync limits body sys :
  sys_reachable fsync limits sys -> s_pending sys = None -> NextGen (s_store sys) <= MaxInt64 ->
  sys_reachable fsync limits (sys_finished body sys) /\
  s_installed (sys_finished body sys) =
    Some (snapshot_bytes (NextGen (s_store sys)) body, NextGen (s_store sys), s_hist sys) /\
  s_hist (sys_finished body sys) = s_hist sys /\
  st_gen (s_store (sys_finished body sys)) = NextGen (s_store sys).
Proof.
  intros Hr Hp Hg. apply reach_flush, (reach_capture _ _ body) in Hr; [|exact Hg|exact Hp].
  unfold sys_finished. unfold sys_after_capture in *. cbn [sys_after_flush Flush flushLocked s_store s_hist] in *.
  destruct (Rotate _ _) as [d2 st2] eqn:Er. cbn [s_pending s_disk s_store s_hist s_installed fmap option_fmap option_map snd].
  apply reach_installs in Hr. rewrite installs_snapshot in Hr. split; [exact (reach_flush fsync limits _ Hr)|].
  split; [done|]. split; [done|]. unfold Rotate, openSegment in Er. destruct (_ !! _); injection Er as _ <-; done.
Qed.

(** A power loss after it takes nothing, and recovery only has the snapshot to
    load. *)
Lemma finished_recovers fsync limits body sys d' :
  sys_reachable fsync limits sys -> s_pending sys = None -> NextGen (s_store sys) <= MaxInt64 ->
  disk_crash (s_disk (sys_finished body sys)) d' ->
  snapshot_held d' (s_installed (sys_finished body sys)) /\ recovers d' [].
Proof.
  intros Hr Hp Hg Hcr. destruct (finished_reachable fsync limits body sys Hr Hp Hg) as (Hf & Hi & Hh & Hgen).
  destruct (synced_recovers fsync limits _ d' Hf) as (cmds & Hc & Hsnap & Hrec); [done| |exact Hcr|].
  - pose proof Hf as (? & (_ & _ & _ & _ & Hdom) & _)%sys_reachable_inv. rewrite Hi. cbn [base_gen]. intros g f Hle Hseg.
    assert (g = st_gen (s_store (sys_finished body sys))) as ->.
    { specialize (Hdom g (ex_intro _ f Hseg)). lia. }
    revert Hseg. unfold sys_finished. cbn [sys_after_flush Flush flushLocked s_disk s_store st_gen set_gen_buf].
    unfold set_active, set_segment. cbn [d_segments]. rewrite lookup_insert_eq. intros [= <-]. done.
  - rewrite Hi, Hh in Hc. cbn [Store.covered] in Hc. rewrite <- (app_nil_r (s_hist sys)) in Hc at 1.
    apply app_inv_head in Hc. by subst cmds.
Qed.

Lemma finalize_finishes orders s sys body :
  on_disk s sys -> capture orders s (s_store sys) = Ret (inl (snapshot_bytes (NextGen (s_store sys)) body)) ->
  Serve_finish orders s = Ret (with_sys s (sys_finished body sys), None).
Proof.
  intros [Hd Hp] Hc. unfold Serve_finish, finalizePersistence. rewrite Hp, Hd. cbn [Flush flushLocked].
  unfold compact. cbn [set_store sv_persist]. unfold capture in Hc |- *. cbn [set_store sv_databases].
  change (NextGen (set_gen_buf (s_store sys) (st_gen (s_store sys)) [])) with (NextGen (s_store sys)).
  rewrite Hc. orun. unfold with_sys, sys_finished, sys_after_capture. cbn [sys_after_flush Flush flushLocked s_disk s_store].
  cbn [set_store sv_disk]. destruct (Rotate _ _) as [d2 st2]. reflexivity.
Qed.

(** Whatever a power loss right now leaves of the directory [d]: a new server
    over it, with another hash seed, shard count, policy, clock and level draws,
    opens it without an error and holds exactly the stores [As], deadlines
    included. *)
Definition restorable (d : Disk) (t : Time) (As : list astore) : Prop :=
  forall d' maphash' E' cfg r' s0 coins,
    disk_crash d d' -> Server_New cfg r' d' = Ret s0 ->
    Net_Databases (cfg_Network cfg) = len As -> Per_Enabled (cfg_Persistence cfg) = true ->
    t <= env_now E' 0 -> (forall i j, (i <= j)%nat -> env_now E' i <= env_now E' j) ->
    exists s1, openPersistence maphash' coins s0 = Ret (s1, None) /\ sess maphash' E' (session s1 0) t As.

(** A clean shutdown keeps everything. At the end of [Serve], when nothing else
    runs, the store has been used in any way since the directory was empty
    (restarts included) under any fsync policy, and the databases hold the stores
    [As]. Then the final snapshot succeeds, and if the databases fit its format,
    [As] can be restored after it. *)
Lemma clean_shutdown (maphash : bytes -> Z) (orders : (nat -> nat -> list nat) * (nat -> list nat)) (fsync : bytes)
    (limits : Limits) (s : Server) (sys : Sys) (t : Time) (As : list astore) :
  sys_reachable fsync limits sys -> on_disk s sys -> s_pending sys = None ->
  NextGen (s_store sys) <= MaxInt64 -> len (sv_databases s) <= MaxInt64 ->
  dbs_hold maphash t (session s 0) As -> Forall small As -> As <> [] ->
  exists sys', Serve_finish orders s = Ret (with_sys s sys', None) /\
    st_gen (s_store sys') = NextGen (s_store sys) /\
    (Forall storable (sv_databases s) -> restorable (s_disk sys') t As).
Proof.
  intros Hre Hon Hp Hg Hlen HF Hsm Hne.
  assert (is_int64 (NextGen (s_store sys))) as Hgi.
  { pose proof Hre as (cmds & (Hb0 & _) & _)%sys_reachable_inv. unfold is_int64, MinInt64, NextGen in *.
    destruct (s_installed sys) as [[[? ?] ?]|]; cbn in Hb0; lia. }
  destruct (capture_total maphash orders s (s_store sys) t As HF) as [body Hw].
  exists (sys_finished body sys). split; [exact (finalize_finishes orders s sys body Hon Hw)|].
  destruct (finished_reachable fsync limits body sys Hre Hp Hg) as (Hfr & Hi & _ & Hgen). split; [exact Hgen|].
  intros Hst.
  destruct (capture_loads maphash orders.1 orders.2 (NextGen (s_store sys)) t (session s 0) As HF Hsm Hst)
    as (snap & Hw' & Hl); [|exact Hgi|].
  { pose proof (len_nonneg (sv_databases s)). unfold is_int64, MinInt64. cbn. lia. }
  unfold capture in Hw. cbn [session c_databases] in Hw'. rewrite Hw in Hw'. injection Hw' as <-.
  intros d' maphash' E' cfg r' s0 coins Hcr Hnew Hn Hen Ht Hmono.
  destruct (finished_recovers fsync limits body sys d' Hre Hp Hg Hcr) as [Hsnap Hrec]. rewrite Hi in Hsnap.
  destruct (Server_New_databases cfg r' d' s0 (length As) Hnew Hn) as (Hdb & Hr0 & Hd0 & Hk0 & Hp0).
  unfold openPersistence. rewrite Hp0, Hen. cbn [negb]. rewrite Hd0, (open_crashed fsync limits _ d' _ _ Hfr Hcr).
  unfold Server_recover. cbn [set_store sv_limits sv_registry sv_disk]. rewrite Hrec. set (c := session _ 0).
  destruct (load_captured maphash' (sv_limits s0) coins d' _ t c As Hsnap Hl) as (n & c1 & El & Hh & (Hl1 & Hi1 & Hk1)).
  { unfold dbs_hold, c. cbn [session c_databases set_store sv_databases]. rewrite Hdb. apply Forall2_replicate, fresh_db. }
  rewrite El. orun. cbn [replay_all]. orun. eexists. split; [reflexivity|].
  assert (0 <= c_index c < len (c_databases c)) as Hci.
  { unfold c. cbn [session c_index c_databases set_store sv_databases]. rewrite Hdb. unfold len.
    rewrite length_replicate. destruct As; [by destruct (Hne eq_refl)|]. cbn [length]. lia. }
  apply (sess_zero maphash' E' _ (c_index c1)).
  apply (sess_held maphash' E' t c1 As) in Hh; [exact Hh|by rewrite Hi1, Hl1| |exact Hmono].
  rewrite Hk1. unfold c. cbn [session c_tick set_store sv_tick]. by rewrite Hk0.
Qed.
