(* ===== verification/Incidents.v ===== *)
(** * Runs of the whole server

    The server is executable: a configuration, requests, a compaction, a restart
    on the same directory. The runs here are the ones in which recovery does not
    give back what was there: a deadline that falls due before the log is
    replayed, and deadlines that the snapshot's format cannot hold. They are
    instances of [replay_revives_expired] and [snapshot_deadline] of Restart. *)

From S2P Require Import Prelude GoBinary Pack Float64 Skiplist ValueList ValueHash ValueSet ValueZSet.
From S2P Require Import GoTime Value Keyspace Shard Strconv Resp Config Command Session.
From S2P Require Import CommandSpec CollectionSpec Registry Codec Store ServerLocks Server Replay Restart.

(** Requests on database 0, one after the other. *)
Fixpoint serve_all (E : Env) (s : Server) (reqs : list (list bytes)) : outcome (list Reply * Server) :=
  match reqs with
  | [] => Ret ([], s)
  | args :: reqs =>
      '(reply, _, s) ← dispatch len_hash E no_wreck s 0 args;
      '(replies, s) ← serve_all E s reqs;
      Ret (reply :: replies, s)
  end.

(** A server over the directory [d], recovered, under the clock [E]. *)
Definition boot (E : Env) (d : Disk) : outcome Server :=
  match NewRegistry len_hash zero_float (λ _, []) id E with
  | None => Panic Explicit
  | Some r =>
      s ← Server_New restart_cfg r d;
      '(s, err) ← openPersistence len_hash (λ _ _, []) s;
      match err with None => Ret s | Some _ => Panic Explicit end
  end.

(** A life: requests, perhaps a compaction, a restart, requests. *)
Definition two_lives (E1 : Env) (reqs1 : list (list bytes)) (compaction : bool)
    (E2 : Env) (reqs2 : list (list bytes)) : outcome (list Reply * list Reply) :=
  s ← boot E1 (mkDisk None None ∅);
  '(replies1, s) ← serve_all E1 s reqs1;
  s ← (if compaction then '(s, _) ← compact (λ _ _, [], λ _, []) s; Ret s else Ret s);
  s ← boot E2 (sv_disk s);
  '(replies2, _) ← serve_all E2 s reqs2;
  Ret (replies1, replies2).

(** A clock that reads [t] seconds after 1970. *)
Definition at_second (t : Z) : Env := mkEnv (λ _, unix_epoch + t * 1000000000) (λ _, []) (λ _, []).

Definition req (words : list string) : list bytes := lit <$> words.

(** A clock that reads [t] seconds for the first [n] readings and [t'] after. *)
Definition then_second (n : nat) (t t' : Z) : Env :=
  mkEnv (λ i, unix_epoch + (if bool_decide (i < n)%nat then t else t') * 1000000000) (λ _, []) (λ _, []).

(** A restart can bring an expired key back for good. At second 1: SET k 5,
    PEXPIREAT k 5000 (second 5), INCR k, which answers 6 and keeps the deadline. At
    second 10 the key is gone. A restart at second 20 replays the log by the clock
    of the restart: the deadline has passed when INCR is replayed, so INCR finds no
    key and starts one at 1, without a deadline. *)
Lemma revived_key_example :
  two_lives
    (then_second 2 1 10)
      [req ["SET"; "k"; "5"]; req ["PEXPIREAT"; "k"; "5000"]; req ["INCR"; "k"]; req ["GET"; "k"]]
    false
    (at_second 20) [req ["GET"; "k"]; req ["TTL"; "k"]]
  = Ret ([Reply_OK; RInt 1; RInt 6; RNil], [RBulk (lit "1"); RInt (-1)]).
Proof. vm_compute. reflexivity. Qed.

(** A snapshot keeps a deadline as int64 nanoseconds since 1970, 0 standing
    for none. In 2024, EXPIRE k 8000000000 sets a deadline in 2277, past what they
    reach: TTL shows it, but after a compaction and a restart the key is gone. And
    PEXPIREAT k 0 makes a key expire at the epoch itself: it is gone at once, but
    a compaction before it is reclaimed and a restart bring it back for good. The
    log alone keeps the first deadline. *)
Lemma misread_deadlines_example :
  two_lives (at_second 1700000000)
      [req ["SET"; "k"; "v"]; req ["EXPIRE"; "k"; "8000000000"]; req ["TTL"; "k"]] true
    (at_second 1700000000) [req ["GET"; "k"]]
  = Ret ([Reply_OK; RInt 1; RInt 8000000000], [RNil]) /\
  two_lives (at_second 1700000000)
      [req ["SET"; "k"; "v"]; req ["PEXPIREAT"; "k"; "0"]; req ["GET"; "k"]] true
    (at_second 1700000000) [req ["GET"; "k"]; req ["TTL"; "k"]]
  = Ret ([Reply_OK; RInt 1; RNil], [RBulk (lit "v"); RInt (-1)]) /\
  two_lives (at_second 1700000000)
      [req ["SET"; "k"; "v"]; req ["EXPIRE"; "k"; "8000000000"]] false
    (at_second 1700000000) [req ["TTL"; "k"]]
  = Ret ([Reply_OK; RInt 1], [RInt 8000000000]).
Proof. split; [|split]; vm_compute; reflexivity. Qed.

(** A pop count past the address space makes the allocation of the reply panic:
    the client gets the internal error, and the list, here and after a restart,
    is as it was. *)
Lemma huge_pop_panics :
  two_lives (at_second 1) [req ["RPUSH"; "l"; "a"]; req ["LPOP"; "l"; "9223372036854775807"]; req ["LLEN"; "l"]]
    false (at_second 1) [req ["LLEN"; "l"]]
  = Ret ([RInt 1; internal_error; RInt 1], [RInt 1]).
Proof. vm_compute. reflexivity. Qed.
