(* ===== verification/Serve.v ===== *)
(** * internal/server: connections

    [serve] reads requests off a connection, dispatches them, writes the replies
    and decides when to flush them ([conn.go]); [startConn], [closeConn] and
    [shutdown] keep the set of open connections ([server.go]). A connection's
    input is everything the client will send before it closes its side; how much
    of it sits in the reader's buffer at a given moment is up to the network. *)

From S2P Require Import Prelude GoBinary Pack Float64 Skiplist ValueList ValueHash ValueSet ValueZSet.
From S2P Require Import GoTime Value Keyspace Shard Strconv Resp Config Command Session.
From S2P Require Import CommandSpec CollectionSpec Registry Codec Store ServerLocks Server Replay Growth Restart Incidents.

(** ** The connection loop (conn.go) *)

(** [cn_sent] is how much of the output [Flush] has pushed to the client; what a
    full buffer sends on its own is not counted. *)
Record conn := mkConn {
  cn_in : bytes;
  cn_writer : Writer;
  cn_sent : nat;
  cn_session : Z }.

(** [startConn]'s connection over the input [input]. *)
Definition new_conn (input : bytes) : conn := mkConn input NewWriter 0 0.

Definition set_in (c : conn) (r : bytes) : conn := mkConn r (cn_writer c) (cn_sent c) (cn_session c).

Definition Writer_Flush (c : conn) : conn :=
  if w_err (cn_writer c) then c
  else mkConn (cn_in c) (cn_writer c) (length (w_out (cn_writer c))) (cn_session c).

Definition handleReadError (c : conn) (e : io_error) : conn :=
  match e with
  | EOF => c
  | ErrProtocol =>
      let '(w, _) := WriteReply (cn_writer c) (RError (lit "ERR Protocol error")) in
      Writer_Flush (mkConn (cn_in c) w (cn_sent c) (cn_session c))
  | _ => c
  end.

Section Serve.
Context (maphash : bytes -> Z) (E : Env) (wreck : Command -> list bytes -> CmdContext -> CmdContext).

(** [Buffered()] after the [i]-th reply, with [r] still to be read. *)
Context (buffered : nat -> bytes -> Z).

Fixpoint serve_loop (fuel i : nat) (s : Server) (c : conn) : outcome (Server * conn) :=
  match fuel with
  | O => Diverge
  | S fuel =>
      match ReadRequest (cn_in c) with
      | (inr e, r) => Ret (s, handleReadError (set_in c r) e)
      | (inl [], r) => serve_loop fuel i s (set_in c r)
      | (inl args, r) =>
          '(reply, idx, s) ← dispatch maphash E wreck s (cn_session c) args;
          let '(w, err) := WriteReply (cn_writer c) reply in
          let c := mkConn r w (cn_sent c) idx in
          if err then Ret (s, c)
          else serve_loop fuel (S i) s (if buffered i r =? 0 then Writer_Flush c else c)
      end
  end.

(** Every request takes at least a byte off the input. *)
Definition serve (s : Server) (c : conn) : outcome (Server * conn) :=
  let s := record_metric s ConnectionOpened in
  '(s, c) ← serve_loop (S (length (cn_in c))) 0 s c;
  Ret (record_metric s ConnectionClosed, c).

(** The requests that [ReadRequest] finds in the bytes [input], and the error it
    ends with. *)
Fixpoint requests_of (fuel : nat) (input : bytes) : list (list bytes) * io_error :=
  match fuel with
  | O => ([], EOF)
  | S fuel =>
      match ReadRequest input with
      | (inr e, _) => ([], e)
      | (inl [], r) => requests_of fuel r
      | (inl args, r) => let '(reqs, e) := requests_of fuel r in (args :: reqs, e)
      end
  end.

Definition requests (input : bytes) : list (list bytes) * io_error := requests_of (S (length input)) input.

(** ** Lemmas: what the reader takes and gives *)

(** A result [a] takes [k] bytes off the input, with [Q k a]. *)
Definition reads {A} (Q : nat -> A -> Prop) (m : reader A) : Prop :=
  forall r a r', m r = (inl a, r') -> exists k, length r = (k + length r')%nat /\ Q k a.

Lemma reads_mono {A} (Q Q' : nat -> A -> Prop) m : reads Q m -> (forall k a, Q k a -> Q' k a) -> reads Q' m.
Proof. intros Hm HQ r a r' (k & Hk & Ha)%Hm. exists k. split; [done|]. by apply HQ. Qed.

Lemma reads_ret {A} (Q : nat -> A -> Prop) a : Q 0%nat a -> reads Q (rret a).
Proof. intros HQ r x r' [= <- <-]. by exists 0%nat. Qed.

Ltac give := apply reads_ret; cbv beta.

Lemma reads_fail {A} (Q : nat -> A -> Prop) e : reads Q (rfail e).
Proof. by intros r x r'. Qed.

Lemma reads_bind {A B} (Q : nat -> A -> Prop) (Q' : nat -> B -> Prop) m (f : A -> reader B) :
  reads Q m -> (forall k a, Q k a -> reads (λ k' b, Q' (k + k')%nat b) (f a)) -> reads Q' (rbind m f).
Proof.
  intros Hm Hf r b r'. unfold rbind. destruct (m r) as [[a|e] r1] eqn:E1; [|done].
  apply Hm in E1 as (k & Hk & Ha). intros (k' & Hk' & Hb)%(Hf k a Ha). exists (k + k')%nat. split; [lia|done].
Qed.

Lemma reads_map_err {A} (Q : nat -> A -> Prop) f m : reads Q m -> reads Q (rmap_err f m).
Proof.
  intros Hm r a r'. unfold rmap_err. destruct (m r) as [[x|e] r1] eqn:E1; [|done]. intros [= <- <-]. by apply Hm.
Qed.

Lemma reads_ReadByte : reads (λ k _, k = 1%nat) ReadByte.
Proof. intros [|b r] a r'; [done|]. intros [= _ <-]. by exists 1%nat. Qed.

Lemma reads_ReadFull n : reads (λ k a, k = n /\ length a = n) (ReadFull n).
Proof.
  intros r a r'. unfold ReadFull. case_bool_decide; [|done]. intros [= <- <-]. exists n.
  rewrite length_drop, length_take. lia.
Qed.

Lemma line_length_bounds s n : line_length s = Some n -> (1 <= n <= length s)%nat.
Proof.
  revert n. induction s as [|b s IH]; intros n; simpl; [done|]. destruct (byte_val b =? 10).
  - intros [= <-]. lia.
  - destruct (line_length s) as [m|]; [|done]. intros [= <-]. specialize (IH m eq_refl). lia.
Qed.

Lemma reads_ReadSlice size : reads (λ k a, k = length a /\ (1 <= k <= size)%nat) (ReadSlice size).
Proof.
  intros r a r'. unfold ReadSlice. destruct (line_length (take size r)) as [n|] eqn:El; [|by case_bool_decide].
  intros [= <- <-]. apply line_length_bounds in El. rewrite length_take in El. exists n.
  rewrite length_drop, length_take. lia.
Qed.

Lemma reads_readLine : reads (λ k l, (length l < k <= readBufferSize)%nat) readLine.
Proof.
  eapply reads_bind; [apply reads_map_err, reads_ReadSlice|cbv beta]. intros k line [Hk Hl].
  destruct (trim_crlf line) as [l|] eqn:Et; [|apply reads_fail]. give.
  unfold trim_crlf in Et. destruct (line !! _); [|done]. destruct (_ && _); [|done]. injection Et as <-.
  rewrite length_take. lia.
Qed.

Lemma reads_readCount : reads (λ k _, (1 <= k)%nat) readCount.
Proof.
  eapply reads_bind; [apply reads_readLine|cbv beta]. intros k line Hk.
  destruct (Atoi line); [give; lia|apply reads_fail].
Qed.

Lemma reads_readN_loop fuel n : forall buf, len buf <= n ->
  reads (λ k a, length a = (length buf + k)%nat /\ len a <= n) (readN_loop fuel n buf).
Proof.
  induction fuel as [|fuel IH]; intros buf Hb; cbn [readN_loop]; destruct (Z.leb_spec n (len buf));
    try (give; lia); [apply reads_fail|].
  eapply reads_bind; [apply reads_map_err, reads_ReadFull|cbv beta]. intros k chunk [-> Hc].
  eapply reads_mono; [apply IH|cbv beta]; unfold len in *; rewrite ?length_app; intros; lia.
Qed.

Lemma reads_readN n : 0 <= n -> reads (λ k a, length a = k /\ len a <= n) (readN n).
Proof.
  intros Hn. unfold readN. destruct (n <=? directReadLimit).
  - eapply reads_mono; [apply reads_map_err, reads_ReadFull|cbv beta]. unfold len. intros k a [-> ?]. lia.
  - eapply reads_mono; [by apply reads_readN_loop|cbv beta]. cbn. intros k a [? ?]. lia.
Qed.

Lemma reads_readBulk : reads (λ k a, (length a + 1 <= k)%nat /\ go_len a) readBulk.
Proof.
  eapply reads_bind; [apply reads_readCount|cbv beta]. intros k n Hk.
  destruct (Z.ltb_spec n 0), (Z.ltb_spec maxBulkLen n); try apply reads_fail. cbn [orb].
  eapply reads_bind; [by apply reads_readN|cbv beta]. intros k1 body [<- Hl].
  eapply (reads_bind (λ _ _, True)); [|intros k2 _ _; give].
  - eapply reads_bind; [apply reads_map_err, reads_ReadByte|cbv beta]. intros ? cr _.
    eapply reads_bind; [apply reads_map_err, reads_ReadByte|cbv beta]. intros ? lf _.
    destruct (_ && _); [by give|apply reads_fail].
  - split; [lia|]. unfold go_len, maxBulkLen in *. lia.
Qed.

(** The bytes of the arguments and one more for each are taken off the input. *)
Definition paid (k : nat) (args : list bytes) : Prop := len args + total args <= Z.of_nat k /\ Forall go_len args.

Lemma reads_readBulks n : reads paid (readBulks n).
Proof.
  induction n as [|n IH]; cbn [readBulks]; [by give|].
  eapply reads_bind; [apply reads_map_err, reads_ReadByte|cbv beta]. intros k1 mk Hk1.
  destruct (negb _); [apply reads_fail|]. eapply reads_bind; [apply reads_readBulk|cbv beta]. intros k2 a [Ha Hg].
  eapply reads_bind; [exact IH|cbv beta]. intros k3 args [Hargs Hgs]. give.
  split; [|by constructor]. rewrite len_cons. cbn [total foldr]. fold (total args). unfold len in *. lia.
Qed.

Lemma fields_loop_paid s : forall cur skip,
  len (fields_loop s cur skip) + total (fields_loop s cur skip) <= len s + len cur + 1.
Proof.
  induction s as [|b s IH]; intros cur skip; cbn [fields_loop].
  - case_bool_decide; unfold total; cbn [foldr]; unfold len; cbn [length]; lia.
  - rewrite (len_cons b). destruct skip as [|skip]; [|specialize (IH cur skip); lia].
    destruct (space_length (b :: s)) as [|n].
    + specialize (IH (cur ++ [b]) 0%nat). unfold len in *. rewrite length_app in IH. cbn [length] in IH. lia.
    + specialize (IH [] n). case_bool_decide; [subst; unfold len in *; cbn [length] in *; lia|].
      rewrite len_cons. cbn [total foldr]. fold (total (fields_loop s [] n)). unfold len in *. cbn [length] in IH. lia.
Qed.

Lemma reads_ReadRequest : reads (λ k args, (1 <= k)%nat /\ paid k args) ReadRequest.
Proof.
  intros r a r'. unfold ReadRequest. destruct (ReadByte r) as [[b|e] r1] eqn:Eb; [|done].
  destruct (byte_val b =? 42).
  - apply reads_ReadByte in Eb as (k1 & Hk1 & ->).
    assert (reads (λ k args, paid (1 + k)%nat args) readMultiBulk) as Hm.
    { eapply reads_bind; [apply reads_readCount|cbv beta]. intros k n Hk.
      destruct (n <=? 0); [give; by split|]. destruct (maxMultiBulkLen <? n); [apply reads_fail|].
      eapply reads_mono; [apply reads_readBulks|cbv beta]. intros k' args [H1 H2]. split; [lia|done]. }
    intros (k & Hk & Hp)%Hm. exists (1 + k)%nat. split; [lia|]. split; [lia|done].
  - assert (reads (λ k args, (1 <= k)%nat /\ paid k args) readInline) as Hi; [|by apply Hi].
    eapply reads_bind; [apply reads_readLine|cbv beta]. intros k line Hk. give. rewrite Nat.add_0_r.
    pose proof (fields_loop_paid line [] 0) as Hf. fold (Fields line) in Hf. split; [lia|].
    unfold paid, len in *. cbn [length] in Hf. split; [lia|]. apply Forall_forall. intros f Hin%total_elem.
    unfold go_len, readBufferSize, len in *. lia.
Qed.

Lemma reads_readBulks_count n : reads (λ _ args, length args = n) (readBulks n).
Proof.
  induction n as [|n IH]; cbn [readBulks]; [by give|].
  eapply reads_bind; [apply reads_map_err, reads_ReadByte|cbv beta]. intros k1 mk _.
  destruct (negb _); [apply reads_fail|]. eapply reads_bind; [apply reads_readBulk|cbv beta]. intros k2 a _.
  eapply reads_bind; [exact IH|cbv beta]. intros k3 args Hn. give. by rewrite <- Hn.
Qed.

(** No request has more arguments than a multi-bulk count allows. *)
Lemma ReadRequest_count r args r' : ReadRequest r = (inl args, r') -> len args <= maxMultiBulkLen.
Proof.
  unfold ReadRequest. destruct (ReadByte r) as [[b|e] r1]; [|done]. destruct (byte_val b =? 42).
  - assert (reads (λ _ args, len args <= maxMultiBulkLen) readMultiBulk) as Hm; [|by intros (k & _ & H)%Hm].
    eapply reads_bind; [apply reads_readCount|cbv beta]. intros k n _.
    destruct (Z.leb_spec n 0); [by give|]. destruct (Z.ltb_spec maxMultiBulkLen n); [apply reads_fail|].
    eapply reads_mono; [apply reads_readBulks_count|cbv beta]. unfold len. intros _ a ->. lia.
  - assert (reads (λ _ args, len args <= maxMultiBulkLen) readInline) as Hi; [|by intros (k & _ & H)%Hi].
    eapply reads_bind; [apply reads_readLine|cbv beta]. intros k line Hk. give.
    pose proof (fields_loop_paid line [] 0) as Hf. fold (Fields line) in Hf. pose proof (total_nonneg (Fields line)).
    unfold maxMultiBulkLen, readBufferSize, len in *. cbn [length] in Hf. lia.
Qed.

(** Every request takes at least a byte. *)
Lemma ReadRequest_shrinks r args r' : ReadRequest r = (inl args, r') -> (length r' < length r)%nat.
Proof. intros (k & Hk & H1 & _)%reads_ReadRequest. lia. Qed.

(** The fuel is enough. *)
Lemma requests_of_fuel fuel : forall fuel' input,
  (length input < fuel)%nat -> (length input < fuel')%nat -> requests_of fuel input = requests_of fuel' input.
Proof.
  induction fuel as [|fuel IH]; intros [|fuel'] input Hf Hf'; [lia..|]. cbn [requests_of].
  destruct (ReadRequest input) as [[args|e] r] eqn:Er; [|done]. apply ReadRequest_shrinks in Er.
  rewrite (IH fuel' r) by lia. done.
Qed.

(** ** Properties *)

(** The requests of a connection, dispatched one after the other. *)
Fixpoint dispatch_all (s : Server) (idx : Z) (reqs : list (list bytes)) :
    outcome (list Reply * Z * Server) :=
  match reqs with
  | [] => Ret ([], idx, s)
  | args :: reqs =>
      '(reply, idx, s) ← dispatch maphash E wreck s idx args;
      '(replies, idx, s) ← dispatch_all s idx reqs;
      Ret (reply :: replies, idx, s)
  end.

(** [buf] is the request [args] as the client sends it, within the limits. *)
Definition sends (args : list bytes) (buf : bytes) : Prop :=
  client_writeCommand args = Some buf /\ len args <= maxMultiBulkLen /\
  Forall (λ a, len a <= maxBulkLen) args.

Lemma sends_frames args buf :
  sends args buf ->
  exists a rest, args = a :: rest /\ (0 < length buf)%nat /\ forall r, ReadRequest (buf ++ r) = (inl args, r).
Proof.
  intros (Hw & Hn & Ha). destruct (frames_ReadRequest args buf Hw Hn Ha) as [H _].
  destruct args as [|a rest]; [done|]. exists a, rest. split; [done|]. split; [|exact H].
  specialize (H []). rewrite app_nil_r in H. apply ReadRequest_shrinks in H. simpl in H. lia.
Qed.

Lemma buffered_nil : (forall i r, 0 <= buffered i r <= len r) -> forall i, buffered i [] = 0.
Proof. intros H i. specialize (H i []). change (len (@nil byte)) with 0 in H. lia. Qed.

Lemma serve_loop_spec (Hbuf : forall i, buffered i [] = 0) reqs bufs rest e r' :
  Forall2 sends reqs bufs -> ReadRequest rest = (inr e, r') ->
  forall fuel i s idx out sent replies idx' s',
  (length (concat bufs ++ rest) < fuel)%nat -> dispatch_all s idx reqs = Ret (replies, idx', s') ->
  exists sent', serve_loop fuel i s (mkConn (concat bufs ++ rest) (mkWriter out false) sent idx)
    = Ret (s', handleReadError
        (mkConn r' (mkWriter (out ++ concat (map encode_reply replies)) false) sent' idx') e) /\
    (rest = [] -> (reqs = [] -> sent = length out) -> sent' = length (out ++ concat (map encode_reply replies))).
Proof.
  intros HF He. induction HF as [|args buf reqs bufs Hs HF IH]; intros fuel i s idx out sent replies idx' s' Hf Hd.
  - injection Hd as <- <- <-. destruct fuel as [|fuel]; [lia|]. exists sent. cbn [serve_loop cn_in concat map app].
    rewrite He, app_nil_r. split; [done|auto].
  - destruct (sends_frames args buf Hs) as (a & tl & Ha & Hl & Hread).
    cbn [dispatch_all] in Hd.
    destruct (dispatch maphash E wreck s idx args) as [[[reply idx1] s1]| |] eqn:Ed; [|done..]. cbn in Hd.
    destruct (dispatch_all s1 idx1 reqs) as [[[replies1 idx2] s2]| |] eqn:Ed2; [|done..]. cbn in Hd.
    injection Hd as <- <- <-. destruct fuel as [|fuel]; [lia|].
    cbn [concat] in Hf |- *. rewrite <- app_assoc in Hf |- *. rewrite length_app in Hf.
    cbn [serve_loop cn_in cn_session]. rewrite Hread, Ha, <- Ha, Ed. orun.
    unfold WriteReply. cbn [cn_writer]. rewrite writeReply_encode. cbn [w_err cn_sent].
    set (c1 := if buffered i _ =? 0 then _ else _).
    assert (exists sent1, c1 = mkConn (concat bufs ++ rest) (mkWriter (out ++ encode_reply reply) false) sent1 idx1 /\
      (concat bufs ++ rest = [] -> sent1 = length (out ++ encode_reply reply))) as (sent1 & -> & Hsent1).
    { unfold c1, Writer_Flush. cbn [w_err cn_writer w_out cn_in cn_session].
      destruct (buffered i (concat bufs ++ rest) =? 0) eqn:Eb; eexists; (split; [reflexivity|]); [done|].
      intros H0. rewrite H0, Hbuf in Eb. done. }
    destruct (IH fuel (S i) s1 idx1 (out ++ encode_reply reply) sent1 replies1 idx2 s2 ltac:(lia) Ed2)
      as (sent' & -> & Hsent). exists sent'. cbn [map concat]. rewrite app_assoc. split; [done|].
    intros -> _. apply Hsent; [done|]. intros ->. apply Hsent1. by apply Forall2_nil_inv_l in HF as ->.
Qed.

(** A client gets the replies to its requests, in order. The client sends
    requests, each within the protocol's limits, in any number of pipelined
    batches (whatever [Buffered] reports in between), and then closes its side,
    breaks the protocol, or is cut off. What the server writes is the encoding of
    the replies that dispatching the requests one after the other gives, followed
    by a protocol error where there was one; and when the client ended between two
    requests, or with a protocol error, all of it has been flushed to it. *)
Lemma serve_delivers reqs bufs rest e r' s replies idx s' :
  (forall i r, 0 <= buffered i r <= len r) ->
  Forall2 sends reqs bufs -> ReadRequest rest = (inr e, r') ->
  dispatch_all (record_metric s ConnectionOpened) 0 reqs = Ret (replies, idx, s') ->
  exists c, serve s (new_conn (concat bufs ++ rest)) = Ret (record_metric s' ConnectionClosed, c) /\
    w_out (cn_writer c) = concat (map encode_reply replies) ++
      (if bool_decide (e = ErrProtocol) then encode_reply (RError (lit "ERR Protocol error")) else []) /\
    (rest = [] \/ e = ErrProtocol -> cn_sent c = length (w_out (cn_writer c))).
Proof.
  intros Hbuf HF He Hd. unfold serve, new_conn, NewWriter.
  destruct (serve_loop_spec (buffered_nil Hbuf) reqs bufs rest e r' HF He (S (length (concat bufs ++ rest))) 0
    (record_metric s ConnectionOpened) 0 [] 0%nat replies idx s' ltac:(lia) Hd) as (sent & Hl & Hsent).
  cbn [cn_in]. rewrite Hl. orun. eexists. split; [reflexivity|]. cbn [app] in *.
  destruct (decide (e = ErrProtocol)) as [->|Hne].
  - unfold handleReadError, WriteReply. cbn [cn_writer]. rewrite writeReply_encode. unfold Writer_Flush.
    cbn [w_err cn_writer w_out cn_sent]. by rewrite bool_decide_true.
  - rewrite bool_decide_false, app_nil_r by done.
    assert (forall c, handleReadError c e = c) as -> by (intros c; by destruct e).
    split; [done|]. intros [->|?]; [|done]. cbn [cn_sent cn_writer w_out]. by apply Hsent.
Qed.

(** *** Any bytes *)

Lemma serve_loop_none fuel : forall i s c e,
  (length (cn_in c) < fuel)%nat -> requests_of fuel (cn_in c) = ([], e) ->
  exists r', serve_loop fuel i s c = Ret (s, handleReadError (set_in c r') e).
Proof.
  induction fuel as [|fuel IH]; intros i s c e Hf He; [lia|]. cbn [serve_loop requests_of] in *.
  destruct (ReadRequest (cn_in c)) as [[[|a args]|e'] r] eqn:Er.
  - apply ReadRequest_shrinks in Er. destruct (IH i s (set_in c r) e) as [r' ->]; [simpl; lia|exact He|]. by exists r'.
  - by destruct (requests_of fuel r).
  - injection He as <-. by exists r.
Qed.

Lemma serve_loop_reads fuel : forall i s c replies idx' s',
  (length (cn_in c) < fuel)%nat -> w_err (cn_writer c) = false ->
  dispatch_all s (cn_session c) (requests_of fuel (cn_in c)).1 = Ret (replies, idx', s') ->
  exists r' sent', serve_loop fuel i s c = Ret (s', handleReadError
    (mkConn r' (mkWriter (w_out (cn_writer c) ++ concat (map encode_reply replies)) false) sent' idx')
    (requests_of fuel (cn_in c)).2).
Proof.
  induction fuel as [|fuel IH]; intros i s [input [out werr] sent idx] replies idx' s' Hf Hw Hd; [lia|].
  cbn [cn_in cn_writer cn_session w_err w_out] in *. subst werr. cbn [serve_loop requests_of cn_in] in *.
  destruct (ReadRequest input) as [[[|a args]|e] r] eqn:Er.
  - apply ReadRequest_shrinks in Er. exact (IH i s (mkConn r (mkWriter out false) sent idx) replies idx' s' ltac:(simpl; lia) eq_refl Hd).
  - apply ReadRequest_shrinks in Er. destruct (requests_of fuel r) as [reqs e] eqn:Eq.
    cbn [fst snd dispatch_all] in *. cbn [cn_session].
    destruct (dispatch maphash E wreck s idx (a :: args)) as [[[reply i1] s1]| |]; [|done..]. cbn in Hd. orun.
    destruct (dispatch_all s1 i1 reqs) as [[[reps i2] s2]| |] eqn:Ed; [|done..]. cbn in Hd. injection Hd as <- <- <-.
    unfold WriteReply. cbn [cn_writer]. rewrite writeReply_encode. cbn [w_err cn_sent].
    set (c1 := if buffered i r =? 0 then _ else _).
    assert (exists sent1, c1 = mkConn r (mkWriter (out ++ encode_reply reply) false) sent1 i1) as (sent1 & ->)
      by (unfold c1, Writer_Flush; cbn; destruct (buffered i r =? 0); by eexists).
    destruct (IH (S i) s1 (mkConn r (mkWriter (out ++ encode_reply reply) false) sent1 i1) reps i2 s2)
      as (r' & sent' & ->); [simpl; lia|done|by cbn; rewrite Eq|].
    exists r', sent'. cbn [cn_in cn_writer w_out map concat]. rewrite Eq, app_assoc. done.
  - injection Hd as <- <- <-. exists r, sent. cbn. by rewrite app_nil_r.
Qed.

(** [serve] returns on any bytes whose requests are answered, with the encoding of
    the replies written, and the protocol error where there is one. *)
Lemma serve_any (input : bytes) (s : Server) (replies : list Reply) (idx : Z) (s' : Server) :
  dispatch_all (record_metric s ConnectionOpened) 0 (requests input).1 = Ret (replies, idx, s') ->
  exists c, serve s (new_conn input) = Ret (record_metric s' ConnectionClosed, c) /\
    w_out (cn_writer c) = concat (map encode_reply replies) ++
      (if bool_decide ((requests input).2 = ErrProtocol) then encode_reply (RError (lit "ERR Protocol error")) else []).
Proof.
  intros Hd. unfold serve. cbn [new_conn cn_in].
  destruct (serve_loop_reads (S (length input)) 0 (record_metric s ConnectionOpened) (new_conn input) replies idx s')
    as (r' & sent' & ->); [simpl; lia|done|exact Hd|]. orun. eexists. split; [reflexivity|].
  fold (requests input). cbn [new_conn cn_in]. fold (requests input).
  destruct (decide ((requests input).2 = ErrProtocol)) as [->|Hne].
  - unfold handleReadError, WriteReply. cbn [cn_writer]. rewrite writeReply_encode. unfold Writer_Flush.
    cbn [w_err cn_writer w_out cn_sent]. by rewrite bool_decide_true.
  - rewrite bool_decide_false, app_nil_r by done. by destruct (requests input).2.
Qed.

(** *** Replies that are held back *)

Lemma serve_loop_held (Hbuf : forall i r, r <> [] -> buffered i r <> 0) reqs bufs tail e :
  Forall2 sends reqs bufs -> tail <> [] -> requests tail = ([], e) ->
  forall fuel i s idx out sent replies idx' s',
  (length (concat bufs ++ tail) < fuel)%nat -> dispatch_all s idx reqs = Ret (replies, idx', s') ->
  exists r', serve_loop fuel i s (mkConn (concat bufs ++ tail) (mkWriter out false) sent idx)
    = Ret (s', handleReadError (mkConn r' (mkWriter (out ++ concat (map encode_reply replies)) false) sent idx') e).
Proof.
  intros HF Ht He. induction HF as [|args buf reqs bufs Hs HF IH]; intros fuel i s idx out sent replies idx' s' Hf Hd.
  - injection Hd as <- <- <-. cbn [concat map app] in *. rewrite app_nil_r.
    apply (serve_loop_none fuel i s (mkConn tail (mkWriter out false) sent idx)); [exact Hf|].
    rewrite <- He. apply requests_of_fuel; [exact Hf|lia].
  - destruct (sends_frames args buf Hs) as (a & tl & Ha & Hl & Hread). cbn [dispatch_all] in Hd.
    destruct (dispatch maphash E wreck s idx args) as [[[reply idx1] s1]| |] eqn:Ed; [|done..]. cbn in Hd.
    destruct (dispatch_all s1 idx1 reqs) as [[[replies1 idx2] s2]| |] eqn:Ed2; [|done..]. cbn in Hd.
    injection Hd as <- <- <-. destruct fuel as [|fuel]; [lia|].
    cbn [concat] in Hf |- *. rewrite <- app_assoc in Hf |- *. rewrite length_app in Hf.
    cbn [serve_loop cn_in cn_session]. rewrite Hread, Ha, <- Ha, Ed. orun.
    unfold WriteReply. cbn [cn_writer]. rewrite writeReply_encode. cbn [w_err cn_sent].
    rewrite (proj2 (Z.eqb_neq _ _)) by (apply Hbuf; by intros [_ ?]%app_eq_nil).
    destruct (IH fuel (S i) s1 idx1 (out ++ encode_reply reply) sent replies1 idx2 s2 ltac:(lia) Ed2) as (r' & ->).
    exists r'. cbn [map concat]. by rewrite app_assoc.
Qed.

(** C40. A reply can be held back for good. A client sends requests and behind them
    bytes that are no whole request: the start of one, or empty lines; all of it is
    in the reader's buffer when the first is answered, as when it came in one
    packet ([buffered] is not 0 as long as there are bytes left). Then no reply is
    ever flushed: the server writes them to its buffer, waits for the rest of the
    request, and when the client closes its side they are dropped ([cn_sent] is 0;
    only what exceeds the writer's buffer goes out by itself). Without the bytes
    behind them all replies are flushed. *)
Theorem partial_request_holds_reply reqs bufs tail e s replies idx s' :
  (forall i r, r <> [] -> buffered i r <> 0) -> (forall i, buffered i [] = 0) ->
  Forall2 sends reqs bufs -> reqs <> [] -> tail <> [] -> requests tail = ([], e) -> e <> ErrProtocol ->
  dispatch_all (record_metric s ConnectionOpened) 0 reqs = Ret (replies, idx, s') ->
  (exists c, serve s (new_conn (concat bufs ++ tail)) = Ret (record_metric s' ConnectionClosed, c) /\
    w_out (cn_writer c) = concat (map encode_reply replies) /\ cn_sent c = 0%nat) /\
  (exists c, serve s (new_conn (concat bufs)) = Ret (record_metric s' ConnectionClosed, c) /\
    w_out (cn_writer c) = concat (map encode_reply replies) /\ cn_sent c = length (w_out (cn_writer c))).
Proof.
  intros Hbuf Hbuf0 HF Hreqs Ht He Hne Hd. assert (forall c, handleReadError c e = c) as Hc by (intros c; by destruct e).
  split.
  - unfold serve, new_conn, NewWriter.
    destruct (serve_loop_held Hbuf reqs bufs tail e HF Ht He (S (length (concat bufs ++ tail))) 0
      (record_metric s ConnectionOpened) 0 [] 0%nat replies idx s' ltac:(lia) Hd) as (r' & Hl).
    cbn [cn_in]. rewrite Hl. orun. rewrite Hc. by eexists.
  - unfold serve, new_conn, NewWriter. rewrite <- (app_nil_r (concat bufs)).
    destruct (serve_loop_spec Hbuf0 reqs bufs [] EOF [] HF eq_refl (S (length (concat bufs ++ []))) 0
      (record_metric s ConnectionOpened) 0 [] 0%nat replies idx s' ltac:(lia) Hd) as (sent & Hl & Hsent).
    cbn [cn_in]. rewrite Hl. orun. eexists. split; [reflexivity|]. cbn [app handleReadError cn_sent cn_writer w_out] in *.
    split; [done|]. by apply Hsent.
Qed.

(** *** What the recorder is told *)

(** The observations for requests answered by [replies]: one for each request
    that resolves to a command, in order, with its name and whether its reply is
    an error; none for a request that does not resolve. *)
Inductive observed (r : gmap bytes Command) : list (list bytes) -> list Reply -> list metric -> Prop :=
  | observed_nil : observed r [] [] []
  | observed_command args cm reply d reqs replies ms :
      Resolve r args = inl cm -> observed r reqs replies ms ->
      observed r (args :: reqs) (reply :: replies) (ObserveCommand (cmd_name cm) d (IsError reply) :: ms)
  | observed_unresolved args reply reqs replies ms :
      Resolve r args = inr reply -> observed r reqs replies ms ->
      observed r (args :: reqs) (reply :: replies) ms.

Lemma execute_keeps s idx cm args reply idx' s' :
  execute maphash E wreck s idx cm args = Ret (reply, idx', s') ->
  sv_metrics s' = sv_metrics s /\ sv_registry s' = sv_registry s.
Proof.
  unfold execute. destruct (index _ _); [|done..]. cbn. destruct (execute_locks _ _ _ _ _); [|done..]. cbn.
  destruct (run_logged _ _ _ _ _) as [[[rep l] c]| |]; [| |done]; intros [= _ _ <-]; [|done].
  unfold append_record. by destruct (append_to _ _ _).
Qed.

Lemma observe_keeps s start th cm args reply idx :
  sv_registry (observe E s start th cm args reply idx) = sv_registry s /\
  exists d, sv_metrics (observe E s start th cm args reply idx)
    = (λ ms, ms ++ [ObserveCommand (cmd_name cm) d (IsError reply)]) <$> sv_metrics s.
Proof.
  unfold observe. cbn. destruct th as [th|]; [destruct (th <=? _)|]; (split; [done|by eexists]).
Qed.

#[local] Arguments observe : simpl never.

Lemma dispatch_observed s idx args reply idx' s' ms :
  dispatch maphash E wreck s idx args = Ret (reply, idx', s') -> sv_metrics s = Some ms ->
  sv_registry s' = sv_registry s /\
  match Resolve (sv_registry s) args with
  | inl cm => exists d, sv_metrics s' = Some (ms ++ [ObserveCommand (cmd_name cm) d (IsError reply)])
  | inr e => reply = e /\ sv_metrics s' = Some ms
  end.
Proof.
  unfold dispatch. intros Hd Hms. destruct (Resolve (sv_registry s) args) as [cm|e]; [|by injection Hd as <- _ <-].
  rewrite Hms in Hd. rewrite (bool_decide_true (is_Some (Some ms))) in Hd by eauto. cbn [orb negb] in Hd.
  unfold server_now in Hd at 1. destruct (execute _ _ _ _ _ _ _) as [[[rep i1] s1]| |] eqn:He; [|done..].
  apply execute_keeps in He as [Hm1 Hr1]. cbn in Hd. injection Hd as <- <- <-.
  match goal with |- sv_registry (observe _ ?s ?st ?th ?cm ?a ?rep ?i) = _ /\ _ =>
    destruct (observe_keeps s st th cm a rep i) as [-> (d & ->)] end.
  split; [by rewrite Hr1|]. exists d. rewrite Hm1. cbn [absorb sv_metrics]. by rewrite Hms.
Qed.

Lemma dispatch_all_observed reqs : forall s idx replies idx' s' ms,
  dispatch_all s idx reqs = Ret (replies, idx', s') -> sv_metrics s = Some ms ->
  exists obs, observed (sv_registry s) reqs replies obs /\ sv_metrics s' = Some (ms ++ obs).
Proof.
  induction reqs as [|args reqs IH]; intros s idx replies idx' s' ms Hd Hms.
  { injection Hd as <- _ <-. exists []. rewrite app_nil_r. split; [constructor|exact Hms]. }
  cbn [dispatch_all] in Hd.
  destruct (dispatch maphash E wreck s idx args) as [[[reply i1] s1]| |] eqn:E1; [|done..]. cbn in Hd.
  destruct (dispatch_all s1 i1 reqs) as [[[reps i2] s2]| |] eqn:E2; [|done..]. cbn in Hd. injection Hd as <- _ <-.
  destruct (dispatch_observed _ _ _ _ _ _ _ E1 Hms) as [Hr Hm].
  destruct (Resolve (sv_registry s) args) as [cm|e] eqn:R.
  - destruct Hm as [d Hm]. destruct (IH _ _ _ _ _ _ E2 Hm) as (obs & Ho & ->). rewrite Hr in Ho.
    eexists. split; [by eapply (observed_command _ args cm reply d)|]. by rewrite <- app_assoc.
  - destruct Hm as [-> Hm]. destruct (IH _ _ _ _ _ _ E2 Hm) as (obs & Ho & ->). rewrite Hr in Ho.
    exists obs. split; [by apply observed_unresolved|done].
Qed.

(** The recorder is told about every command once: a connection that brings
    requests and then ends in any way reports that it was opened, then for every
    request that resolves to a command its name and whether the reply it sent is an
    error, in order, then that it was closed. *)
Lemma metrics_account reqs bufs rest e r' s replies idx s' ms :
  (forall i r, 0 <= buffered i r <= len r) ->
  Forall2 sends reqs bufs -> ReadRequest rest = (inr e, r') -> sv_metrics s = Some ms ->
  dispatch_all (record_metric s ConnectionOpened) 0 reqs = Ret (replies, idx, s') ->
  exists s2 c obs, serve s (new_conn (concat bufs ++ rest)) = Ret (s2, c) /\
    observed (sv_registry s) reqs replies obs /\
    sv_metrics s2 = Some (ms ++ ConnectionOpened :: obs ++ [ConnectionClosed]).
Proof.
  intros Hbuf HF He Hms Hd. unfold serve, new_conn, NewWriter.
  destruct (serve_loop_spec (buffered_nil Hbuf) reqs bufs rest e r' HF He (S (length (concat bufs ++ rest))) 0
    (record_metric s ConnectionOpened) 0 [] 0%nat replies idx s' ltac:(lia) Hd) as (sent & Hl & _).
  destruct (dispatch_all_observed _ _ _ _ _ _ (ms ++ [ConnectionOpened]) Hd) as (obs & Ho & Hm).
  { cbn. by rewrite Hms. }
  cbn [cn_in]. rewrite Hl. orun. eexists _, _, obs. split; [reflexivity|]. split; [exact Ho|].
  cbn [record_metric sv_metrics]. rewrite Hm. cbn. by rewrite <- !app_assoc.
Qed.
End Serve.

(** A server that knows no command. *)
Definition bare_server : Server :=
  mkServer ∅ (mkReloadable 0 0 false) None [] codec_limits [] None (cfg_Persistence restart_cfg)
    (mkDisk None None ∅) [] 0.

(** *** A server on the wire *)

(** A fresh server serves one connection, every byte of whose input is in the
    reader's buffer at once; what it writes, and how much of it is flushed. *)
Definition on_wire (input : bytes) : outcome (bytes * nat) :=
  s ← boot (at_second 1) (mkDisk None None ∅);
  '(_, c) ← serve len_hash (at_second 1) no_wreck (λ _ r, len r) s (new_conn input);
  Ret (w_out (cn_writer c), cn_sent c).

(** PING with the start of a request, with an empty line and with nothing behind it. *)
Lemma held_reply_example :
  on_wire (lit "PING" ++ CRLF ++ lit "*1") = Ret (lit "+PONG" ++ CRLF, 0%nat) /\
  on_wire (lit "PING" ++ CRLF ++ CRLF) = Ret (lit "+PONG" ++ CRLF, 0%nat) /\
  on_wire (lit "PING" ++ CRLF) = Ret (lit "+PONG" ++ CRLF, 7%nat).
Proof. split; [|split]; vm_compute; reflexivity. Qed.

(** SET a 1 with the start of a request behind it. *)
Lemma partial_request_holds_reply_witness :
  exists s s' reply c,
    serve len_hash still_env no_wreck (λ _ r, len r) s
      (new_conn (concat (default [] (mapM client_writeCommand [set_a.2])) ++ lit "*1")) = Ret (s', c) /\
    w_out (cn_writer c) = encode_reply reply ++ [] /\ cn_sent c = 0%nat.
Proof.
  destruct restart_example_server as (s & Hr & Hres & Hs & _).
  destruct (dispatch_served len_hash still_env no_wreck zero_float (λ _, []) id (record_metric s ConnectionOpened) 0 set_a.2
    restart_set no_pre spec_set (unix_epoch + 1000) (replicate 1 ∅) ∅ zero_float_parses Hr Hres)
    as (t1 & t2 & t3 & t4 & reply & A' & s' & Hd & _).
  - apply (list_elem_of_lookup_2 _ 1). reflexivity.
  - exact Hs.
  - reflexivity.
  - apply map_Forall_empty.
  - exact set_a_go_len.
  - exact I.
  - clear Hr Hres.
    destruct (partial_request_holds_reply len_hash still_env no_wreck (λ _ r, len r) [set_a.2]
      (default [] (mapM client_writeCommand [set_a.2])) (lit "*1") UnexpectedEOF s [reply] 0 s') as [(c & Hc & Ho & Hn) _].
    + intros i [|b r] Hb; [by destruct Hb|]. rewrite len_cons. pose proof (len_nonneg r). lia.
    + reflexivity.
    + apply Forall2_cons; split; [|apply Forall2_nil_2].
      split; [reflexivity|split; [vm_compute; discriminate|]]; repeat constructor; vm_compute; discriminate.
    + discriminate.
    + discriminate.
    + reflexivity.
    + discriminate.
    + cbn [dispatch_all]. rewrite Hd. reflexivity.
    + exists s, (record_metric s' ConnectionClosed), reply, c. split; [exact Hc|]. split; [exact Ho|exact Hn].
Defined.

(** ** Opening and closing connections (server.go) *)

(** Where [Serve] is: in its accept loop, waiting for the wait group, or past it,
    where it takes the final snapshot and returns. *)
Inductive phase := Accepting | Waiting | Stopped.

#[global] Instance phase_eq_dec : EqDecision phase.
Proof. solve_decision. Defined.

(** [net_listener] is [None] for a nil listener, or whether it is open;
    [net_tripped] are the connections whose read deadline has been set in the
    past, [net_refused] those closed without being served; the wait group counts
    the connections [net_wg] and the background loops [net_loops]. *)
Record Net := mkNet {
  net_listener : option bool;
  net_closing : bool;
  net_conns : gset nat;
  net_tripped : gset nat;
  net_refused : gset nat;
  net_wg : gset nat;
  net_loops : nat;
  net_canceled : bool;
  net_phase : phase }.

(** The fields [New] gives. *)
Definition new_net : Net := mkNet None false ∅ ∅ ∅ ∅ 0 false Accepting.

Definition set_phase (n : Net) (p : phase) : Net :=
  mkNet (net_listener n) (net_closing n) (net_conns n) (net_tripped n) (net_refused n) (net_wg n)
    (net_loops n) (net_canceled n) p.

Definition set_wg (n : Net) (wg : gset nat) (loops : nat) : Net :=
  mkNet (net_listener n) (net_closing n) (net_conns n) (net_tripped n) (net_refused n) wg loops
    (net_canceled n) (net_phase n).

Definition Listen (n : Net) : Net :=
  mkNet (Some true) (net_closing n) (net_conns n) (net_tripped n) (net_refused n) (net_wg n)
    (net_loops n) (net_canceled n) (net_phase n).

(** The address of the listener, [bound] to it by the host. *)
Definition Server_Addr (bound : bytes) (n : Net) : option bytes := (λ _, bound) <$> net_listener n.

Definition isClosing (n : Net) : bool := net_closing n.

Definition startConn (n : Net) (c : nat) : Net :=
  if net_closing n
  then mkNet (net_listener n) (net_closing n) (net_conns n) (net_tripped n) ({[c]} ∪ net_refused n)
         (net_wg n) (net_loops n) (net_canceled n) (net_phase n)
  else mkNet (net_listener n) (net_closing n) ({[c]} ∪ net_conns n) (net_tripped n) (net_refused n)
         ({[c]} ∪ net_wg n) (net_loops n) (net_canceled n) (net_phase n).

Definition closeConn (n : Net) (c : nat) : Net :=
  mkNet (net_listener n) (net_closing n) (net_conns n ∖ {[c]}) (net_tripped n) (net_refused n)
    (net_wg n) (net_loops n) (net_canceled n) (net_phase n).

Definition shutdown (n : Net) : Net :=
  if net_closing n then n
  else mkNet ((λ _, false) <$> net_listener n) true (net_conns n) (net_tripped n ∪ net_conns n)
         (net_refused n) (net_wg n) (net_loops n) (net_canceled n) (net_phase n).

Definition cancel (n : Net) : Net :=
  mkNet (net_listener n) (net_closing n) (net_conns n) (net_tripped n) (net_refused n) (net_wg n)
    (net_loops n) true (net_phase n).

(** [Serve] up to its accept loop: the reaper, the expiry loop and, with
    persistence, the flush and compaction loops are started. *)
Definition Serve_start (persist : bool) (n : Net) : option Net :=
  match net_listener n with
  | None => None
  | Some _ => Some (set_wg n (net_wg n) (net_loops n + 2 + if persist then 2 else 0))
  end.

(** [Accept] returned an error. *)
Definition accept_failed (n : Net) : Net := if isClosing n then set_phase n Waiting else n.

(** The steps of [Serve] and of what runs beside it. A connection is accepted by
    [Serve]'s own loop only, possibly after the listener has been closed; its
    goroutine leaves [serve] through [closeConn] and then the wait group; a
    background loop leaves it once the context is done. *)
Inductive net_step (n : Net) : Net -> Prop :=
  | net_accept c : net_phase n = Accepting -> c ∉ net_wg n -> net_step n (startConn n c)
  | net_accept_fails : net_phase n = Accepting -> net_step n (accept_failed n)
  | net_cancel : net_step n (cancel n)
  | net_shutdown : net_canceled n = true -> net_step n (shutdown n)
  | net_close c : c ∈ net_conns n -> net_step n (closeConn n c)
  | net_done c : c ∈ net_wg n -> c ∉ net_conns n -> net_step n (set_wg n (net_wg n ∖ {[c]}) (net_loops n))
  | net_loop_ends : net_canceled n = true -> net_step n (set_wg n (net_wg n) (net_loops n - 1))
  | net_wait : net_phase n = Waiting -> net_wg n = ∅ -> net_loops n = 0%nat ->
      net_step n (set_phase n Stopped).

Definition net_inv (n : Net) : Prop :=
  net_conns n ⊆ net_wg n /\
  net_listener n = Some (negb (net_closing n)) /\
  (net_closing n = true -> net_canceled n = true /\ net_conns n ⊆ net_tripped n) /\
  (net_phase n <> Accepting -> net_closing n = true) /\
  (net_phase n = Stopped -> net_wg n = ∅ /\ net_loops n = 0%nat).

Lemma net_step_inv n n' : net_step n n' -> net_inv n -> net_inv n'.
Proof.
  intros Hst Hi. pose proof Hi as (Hw & Hl & Hc & Hp & Hs). destruct Hst as [c Ha Hnew|Ha| |Hcan|c Hin|c Hin Hout|Hcan|Hph Hwg Hlo].
  - unfold startConn. destruct (net_closing n) eqn:E; unfold net_inv; cbn; split_and!;
      first [done|congruence|intros _; by apply Hc|set_solver].
  - unfold accept_failed, isClosing. destruct (net_closing n) eqn:E; [|exact Hi].
    unfold net_inv, set_phase; cbn. rewrite E. by split_and!.
  - unfold net_inv, cancel; cbn. split_and!; try done. intros E. by destruct (Hc E).
  - unfold shutdown. destruct (net_closing n) eqn:E; [exact Hi|].
    unfold net_inv; cbn. rewrite Hl. split_and!; try done. intros _. split; [done|set_solver].
  - unfold net_inv, closeConn; cbn. split_and!; try done; [set_solver|].
    intros E. destruct (Hc E). split; [done|set_solver].
  - unfold net_inv, set_wg; cbn. split_and!; try done; [set_solver|].
    intros E. destruct (Hs E) as [-> ->]. split; [set_solver|done].
  - unfold net_inv, set_wg; cbn. split_and!; try done. intros E. destruct (Hs E) as [-> ->]. done.
  - unfold net_inv, set_phase; cbn. split_and!; try done. intros _. apply Hp. by rewrite Hph.
Qed.

Lemma net_start_inv persist n0 : Serve_start persist (Listen new_net) = Some n0 -> net_inv n0.
Proof. intros [= <-]. unfold net_inv, set_wg; cbn. by split_and!. Qed.

(** What is left to wait for. *)
Definition pending (n : Net) : nat := (size (net_conns n) + size (net_wg n) + net_loops n)%nat.

Lemma size_remove (X : gset nat) c : c ∈ X -> (size (X ∖ {[c]}) < size X)%nat.
Proof. intros Hc. apply subset_size. set_solver. Qed.

(** When [Serve] is past its wait, where it takes the final snapshot, no connection
    and no background loop is running, so no write can come after that snapshot. *)
Lemma stopped_drained n :
  net_inv n -> net_phase n = Stopped -> net_conns n = ∅ /\ net_wg n = ∅ /\ net_loops n = 0%nat.
Proof.
  intros (Hw & _ & _ & _ & Hst) E. destruct (Hst E) as [Hwg Hlo]. split_and!; [|done..]. rewrite Hwg in Hw. set_solver.
Qed.
