(* ===== verification/Degraded.v ===== *)
(** * The server on a failing disk

    [execute] of conn.go with the store of Faults, whose system calls can fail:
    the error of an append becomes a line of the error log, and the command is
    answered as if it had been logged. So what the clients see does not depend on
    the disk, and once a write has failed they go on being told OK while nothing
    reaches the log. *)

From S2P Require Import Prelude GoBinary Pack Float64 Skiplist ValueList ValueHash ValueSet ValueZSet.
From S2P Require Import GoTime Value Keyspace Shard Strconv Resp Config Command Session.
From S2P Require Import CommandSpec CollectionSpec Registry Codec Store Faults ServerLocks Server Replay Restart.
From S2P Require Import Incidents Serve.

(** The server with its store on such a disk ([fv_store] in place of the store and
    the directory of [fv_server]), and the error lines: the command and the error. *)
Record FServer := mkFServer {
  fv_server : Server;
  fv_store : option FS;
  fv_errors : list (bytes * io_error) }.

Definition with_mem (v : FServer) (s : Server) : FServer := mkFServer s (fv_store v) (fv_errors v).

Section Degraded.
Context (maphash : bytes -> Z) (E : Env) (wreck : Command -> list bytes -> CmdContext -> CmdContext).
Context (fault : nat -> option (nat * io_error)).

(** The append of a record, and the line when it fails. *)
Definition f_append_record (v : FServer) (cm : Command) (l : option logged) : FServer :=
  match fv_store v, l with
  | Some st, Some (db, args) =>
      let '(res, st) := f_Append fault db args st in
      mkFServer (fv_server v) (Some st)
        (fv_errors v ++ match res with inl _ => [] | inr e => [(cmd_name cm, e)] end)
  | _, _ => v
  end.

Definition f_execute (v : FServer) (idx : Z) (cm : Command) (args : list bytes) : outcome (Reply * Z * FServer) :=
  let s := fv_server v in
  db ← index (sv_databases s) idx;
  _ ← execute_locks maphash idx db cm args;
  match run_logged E (bool_decide (is_Some (fv_store v))) cm args (session s idx) with
  | Ret ((reply, l), c) => Ret (reply, c_index c, f_append_record (with_mem v (absorb s c)) cm l)
  | Panic _ =>
      let c := wreck cm args (session s idx) in Ret (internal_error, c_index c, with_mem v (absorb s c))
  | Diverge => Diverge
  end.

Definition f_dispatch (v : FServer) (idx : Z) (args : list bytes) : outcome (Reply * Z * FServer) :=
  match Resolve (sv_registry (fv_server v)) args with
  | inr errReply => Ret (errReply, idx, v)
  | inl cm =>
      let rc := sv_settings (fv_server v) in
      let slow := SlowLogEnabled rc && (0 <? SlowThreshold rc) in
      let timed := bool_decide (is_Some (sv_metrics (fv_server v))) || slow in
      if negb timed then f_execute v idx cm args
      else
        let '(start, s) := server_now E (fv_server v) in
        '(reply, idx, v) ← f_execute (with_mem v s) idx cm args;
        Ret (reply, idx, with_mem v (observe E (fv_server v) start (if slow then Some (SlowThreshold rc) else None)
                                       cm args reply idx))
  end.

Fixpoint f_dispatch_all (v : FServer) (idx : Z) (reqs : list (list bytes)) : outcome (list Reply * Z * FServer) :=
  match reqs with
  | [] => Ret ([], idx, v)
  | args :: reqs =>
      '(reply, idx, v) ← f_dispatch v idx args;
      '(replies, idx, v) ← f_dispatch_all v idx reqs;
      Ret (reply :: replies, idx, v)
  end.

(** ** Lemmas *)

(** The server but for its store. *)
Definition memory (s : Server) : Server := set_store s (mkDisk None None ∅) None.

(** [v] is the server [s] on another disk. *)
Definition same_memory (s : Server) (v : FServer) : Prop :=
  memory (fv_server v) = memory s /\ bool_decide (is_Some (fv_store v)) = bool_decide (is_Some (sv_persist s)).

(** What a failed writer has left of the store: the same directory, the same error. *)
Definition stuck (v v' : FServer) : Prop :=
  forall st e, fv_store v = Some st -> fs_err st = Some e -> fv_store v' = Some st.

Lemma failed_append (db : Z) (args : list bytes) (st : FS) (e : io_error) :
  fs_err st = Some e -> f_Append fault db args st = (inr e, st).
Proof.
  intros He. unfold f_Append, command_writes, fbind. cbn [app write_all]. unfold fbind, writer_Write. by rewrite He.
Qed.

Lemma stuck_append (v : FServer) (cm : Command) (l : option logged) : stuck v (f_append_record v cm l).
Proof.
  intros st e Hst He. unfold f_append_record. rewrite Hst. destruct l as [[db args]|]; [|exact Hst].
  by rewrite (failed_append db args st e He).
Qed.

Lemma memory_fields (s s' : Server) : memory s = memory s' ->
  sv_registry s = sv_registry s' /\ sv_settings s = sv_settings s' /\ sv_metrics s = sv_metrics s' /\
  sv_databases s = sv_databases s' /\ sv_tick s = sv_tick s' /\
  (forall idx, session s idx = session s' idx) /\ forall c, memory (absorb s c) = memory (absorb s' c).
Proof.
  destruct s, s'. intros H. injection H as -> -> -> -> -> -> -> -> ->. by split_and!.
Qed.

Lemma stuck_trans (v1 v2 v3 : FServer) : stuck v1 v2 -> stuck v2 v3 -> stuck v1 v3.
Proof. intros H1 H2 st e Hst He. eapply H2; [by eapply H1|done]. Qed.

Lemma append_memory (s : Server) (l : option logged) :
  memory (append_record s l) = memory s /\
  bool_decide (is_Some (sv_persist (append_record s l))) = bool_decide (is_Some (sv_persist s)).
Proof.
  unfold append_record, append_to. destruct (sv_persist s) as [st|] eqn:Ep, l as [[db args]|];
    try (split; [reflexivity|]; cbn; by rewrite ?Ep).
  destruct (Append db args (sv_disk s) st). by split.
Qed.

Lemma f_append_memory (v : FServer) (cm : Command) (l : option logged) :
  fv_server (f_append_record v cm l) = fv_server v /\
  bool_decide (is_Some (fv_store (f_append_record v cm l))) = bool_decide (is_Some (fv_store v)).
Proof.
  unfold f_append_record. destruct (fv_store v) as [st|] eqn:Ep, l as [[db args]|]; try (split; [reflexivity|by rewrite ?Ep]).
  by destruct (f_Append fault db args st).
Qed.

(** The two servers do the same, as far as a client can tell. *)
Definition agree {A} (v : FServer) (m : outcome (A * Z * Server)) (f : outcome (A * Z * FServer)) : Prop :=
  match m, f with
  | Ret (a, i, s'), Ret (a', i', v') => a' = a /\ i' = i /\ same_memory s' v' /\ stuck v v'
  | Panic p, Panic p' => p' = p
  | Diverge, Diverge => True
  | _, _ => False
  end.

Lemma execute_agrees (s : Server) (v : FServer) (idx : Z) (cm : Command) (args : list bytes) :
  same_memory s v -> agree v (execute maphash E wreck s idx cm args) (f_execute v idx cm args).
Proof.
  intros [Hm Hp]. destruct (memory_fields _ _ Hm) as (_ & _ & _ & Hdb & _ & Hse & Hab).
  unfold execute, f_execute. rewrite Hdb, Hse, Hp.
  destruct (index (sv_databases s) idx) as [db|p|]; [|reflexivity|exact I]. orun.
  destruct (execute_locks maphash idx db cm args) as [pl|p|]; [|reflexivity|exact I]. orun.
  destruct (run_logged _ _ cm args (session s idx)) as [[[reply l] c]|p|]; [| |exact I].
  - destruct (append_memory (absorb s c) l) as [H1 H2].
    destruct (f_append_memory (with_mem v (absorb (fv_server v) c)) cm l) as [H3 H4].
    split; [reflexivity|]. split; [reflexivity|]. split; [split|exact (stuck_append (with_mem v (absorb (fv_server v) c)) cm l)].
    + rewrite H3, H1. apply Hab.
    + rewrite H4, H2. exact Hp.
  - split; [reflexivity|]. split; [reflexivity|]. split; [split; [apply Hab|exact Hp]|]. by intros st e Hst _.
Qed.

Lemma observe_memory (s s' : Server) start th (cm : Command) (args : list bytes) (reply : Reply) (idx : Z) :
  memory s = memory s' ->
  memory (observe E s start th cm args reply idx) = memory (observe E s' start th cm args reply idx) /\
  sv_persist (observe E s start th cm args reply idx) = sv_persist s.
Proof.
  destruct s, s'. intros H. injection H as -> -> -> -> -> -> -> -> ->. unfold observe, server_now. cbn.
  destruct th as [th|]; [destruct (th <=? _)|]; by split.
Qed.

Lemma dispatch_agrees (s : Server) (v : FServer) (idx : Z) (args : list bytes) :
  same_memory s v -> agree v (dispatch maphash E wreck s idx args) (f_dispatch v idx args).
Proof.
  intros Hsm. pose proof Hsm as [Hm Hp]. destruct (memory_fields _ _ Hm) as (Hreg & Hset & Hmet & _ & Htk & _ & Hab).
  unfold dispatch, f_dispatch. rewrite Hreg, Hset, Hmet. destruct (Resolve (sv_registry s) args) as [cm|reply].
  2: { split; [reflexivity|]. split; [reflexivity|]. split; [exact Hsm|]. by intros st e Hst _. }
  destruct (negb _); [by apply execute_agrees|]. unfold server_now. rewrite Htk.
  set (s1 := absorb s _). set (v1 := with_mem v _).
  assert (same_memory s1 v1) as Hsm1.
  { split; [|exact Hp]. unfold v1, s1. cbn [with_mem fv_server]. destruct (memory_fields _ _ Hm) as (_ & _ & _ & _ & _ & -> & _).
    apply Hab. }
  pose proof (execute_agrees s1 v1 idx cm args Hsm1) as Hex. unfold agree in *.
  destruct (execute maphash E wreck s1 idx cm args) as [[[reply i] s']|p|], (f_execute v1 idx cm args) as [[[reply' i'] v']|p'|];
    try done. destruct Hex as (-> & -> & [Hm' Hp'] & Hst). orun.
  set (th := if SlowLogEnabled _ && _ then _ else _).
  split; [reflexivity|]. split; [reflexivity|].
  destruct (observe_memory (fv_server v') s' (env_now E (sv_tick s)) th cm args reply i Hm') as [Ho _].
  destruct (observe_memory s' s' (env_now E (sv_tick s)) th cm args reply i eq_refl) as [_ Ho'].
  split; [split; [exact Ho|]|exact Hst]. cbn [with_mem fv_store]. by rewrite Ho'.
Qed.

Lemma dispatch_all_agrees (reqs : list (list bytes)) : forall (s : Server) (v : FServer) (idx : Z),
  same_memory s v -> agree v (dispatch_all maphash E wreck s idx reqs) (f_dispatch_all v idx reqs).
Proof.
  induction reqs as [|args reqs IH]; intros s v idx Hsm; cbn [dispatch_all f_dispatch_all].
  { split; [reflexivity|]. split; [reflexivity|]. split; [exact Hsm|]. by intros st e Hst _. }
  pose proof (dispatch_agrees s v idx args Hsm) as Hd. unfold agree in Hd.
  destruct (dispatch maphash E wreck s idx args) as [[[reply i] s1]|p|], (f_dispatch v idx args) as [[[reply' i'] v1]|p'|]; try done.
  destruct Hd as (-> & -> & Hsm1 & Hst1). orun. specialize (IH s1 v1 i Hsm1). unfold agree in IH.
  destruct (dispatch_all maphash E wreck s1 i reqs) as [[[replies j] s2]|p|], (f_dispatch_all v1 i reqs) as [[[replies' j'] v2]|p'|];
    try done. destruct IH as (-> & -> & Hsm2 & Hst2). orun.
  split; [reflexivity|]. split; [reflexivity|]. split; [exact Hsm2|]. by eapply stuck_trans.
Qed.

(** ** The property *)

(** C20. The clients do not see a failing disk. Take a server whose requests are
    answered with [replies] when no file operation fails, and the same server on a
    disk where any of them may fail at any time: the replies are the same, and so
    are the selected database, the databases, the settings and the metrics
    afterwards. And if a write to the log had failed before (the error its writer
    keeps), then none of these commands has reached the log, whatever the disk
    does: the directory and the buffer are what they were. *)
Theorem disk_errors_unseen (s : Server) (v : FServer) (idx : Z) (reqs : list (list bytes)) replies idx' s' :
  same_memory s v -> dispatch_all maphash E wreck s idx reqs = Ret (replies, idx', s') ->
  exists v', f_dispatch_all v idx reqs = Ret (replies, idx', v') /\ memory (fv_server v') = memory s' /\
    forall st e, fv_store v = Some st -> fs_err st = Some e -> fv_store v' = Some st.
Proof.
  intros Hsm Hd. pose proof (dispatch_all_agrees reqs s v idx Hsm) as Ha. rewrite Hd in Ha. unfold agree in Ha.
  destruct (f_dispatch_all v idx reqs) as [[[replies' j'] v']|p|]; [|done..].
  destruct Ha as (-> & -> & [Hm _] & Hst). exists v'. split; [reflexivity|]. split; [exact Hm|exact Hst].
Qed.
End Degraded.

(** ** Witness: a SET is answered OK and not logged *)

Definition failed_store : FS :=
  mkFS (s_disk (sys_init FSyncAlways codec_limits)) 1 (s_store (sys_init FSyncAlways codec_limits)) true
    (Some (ErrOther (lit "no space left on device"))).

Lemma disk_errors_unseen_witness :
  exists s v', f_dispatch_all len_hash still_env no_wreck no_fault (mkFServer s (Some failed_store) []) 0 [set_a.2]
      = Ret ([Reply_OK], 0, v') /\ fv_store v' = Some failed_store.
Proof.
  destruct restart_example_server as (s & Hr & Hres & Hs & [_ Hp]).
  destruct (dispatch_served len_hash still_env no_wreck zero_float (λ _, []) id s 0 set_a.2 restart_set no_pre spec_set
    (unix_epoch + 1000) (replicate 1 ∅) ∅ zero_float_parses Hr Hres)
    as (t1 & t2 & t3 & t4 & reply & A' & s' & Hd & _ & _ & (k & x & _ & _ & -> & _) & _).
  - apply (list_elem_of_lookup_2 _ 1). reflexivity.
  - exact Hs.
  - reflexivity.
  - apply map_Forall_empty.
  - exact set_a_go_len.
  - exact I.
  - destruct (disk_errors_unseen len_hash still_env no_wreck no_fault s (mkFServer s (Some failed_store) []) 0 [set_a.2]
      [Reply_OK] 0 s') as (v' & Hv & _ & Hst).
    + split; [reflexivity|]. rewrite Hp. reflexivity.
    + cbn [dispatch_all]. rewrite Hd. reflexivity.
    + exists s, v'. split; [exact Hv|]. apply (Hst failed_store _ eq_refl eq_refl).
Defined.
