(* ===== verification/Connection.v ===== *)
(** * A connection, from its bytes to the meanings of its requests

    The whole conversation of a client with the server: any requests, in any
    order, on any databases. The machine below keeps the stores, the selected
    database and the settings, and answers a request as its command means;
    [serve] over the bytes the client sends is shown to answer as the machine
    does, to leave the stores as it does, and to log its writes. *)

From S2P Require Import Prelude GoBinary Pack Float64 Skiplist ValueList ValueHash ValueSet ValueZSet.
From S2P Require Import GoTime Value Keyspace Shard Strconv Resp Config Command Session.
From S2P Require Import CommandSpec CollectionSpec Registry Locality Codec Store ServerLocks Server Replay Growth.
From S2P Require Import Restart Incidents Serve.

(** ** The machine *)

Record machine := mkMachine {
  am_stores : list astore;
  am_index : Z;
  am_settings : Settings }.

(** SELECT, with [n] databases. *)
Definition select_answer (n idx : Z) (a : bytes) : Reply * Z :=
  match Atoi a with
  | None => (RError msgNotInteger, idx)
  | Some i => if (0 <=? i) && (i <? n) then (Reply_OK, i)
              else (RError (lit "ERR DB index is out of range"), idx)
  end.

Section Machine.
Context (maphash : bytes -> Z) (parseFloat : bytes -> option float64)
  (formatFloat : float64 -> bytes) (quote : bytes -> bytes) (E : Env).
Context (wreck : Command -> list bytes -> CmdContext -> CmdContext).

(** CONFIG, from its subcommand on. *)
Definition config_answer (st : Settings) (args : list bytes) : Reply * Settings :=
  match args with
  | sub :: rest =>
      if bool_decide (ToUpper sub = lit "GET") then
        match rest with
        | [pattern] => (configGet st pattern, st)
        | _ => (RError (msgArgs (lit "config|get")), st)
        end
      else if bool_decide (ToUpper sub = lit "SET") then
        match rest with
        | [name; v] =>
            match Settings_Set st (ToLower name) v with
            | inl st' => (Reply_OK, st')
            | inr e => (RError (lit "ERR " ++ settings_error_text quote e), st)
            end
        | _ => (RError (msgArgs (lit "config|set")), st)
        end
      else (RError (lit "ERR unknown CONFIG subcommand '" ++ sub ++ lit "'"), st)
  | [] => (RError (msgArgs (lit "config")), st)
  end.

Context (r : gmap bytes Command) (persisting : bool).

(** A request between the readings [t] and [t'] of the clock: its reply, what it
    logs, the machine after it. *)
Inductive machine_answers (t : Time) (M : machine) (args : list bytes) :
    Reply -> option logged -> Time -> machine -> Prop :=
  | machine_unresolved reply :
      Resolve r args = inr reply -> machine_answers t M args reply None t M
  | machine_data cm pre (spec : aspec) (A A' : astore) t1 t2 t3 t' reply :
      Resolve r args = inl cm -> (cmd_name cm, (pre, spec)) ∈ meanings parseFloat formatFloat ->
      am_stores M !! Z.to_nat (am_index M) = Some A -> t <= t1 <= t2 -> t2 <= t3 <= t' ->
      spec t1 t2 args A reply A' ->
      machine_answers t M args reply (record_of persisting (am_index M) t3 cm args reply) t'
        (mkMachine (<[Z.to_nat (am_index M) := A']> (am_stores M)) (am_index M) (am_settings M))
  | machine_select cm a t' reply i :
      Resolve r args = inl cm -> cmd_name cm = lit "select" -> args !! 1%nat = Some a -> t <= t' ->
      select_answer (len (am_stores M)) (am_index M) a = (reply, i) ->
      machine_answers t M args reply (record_of persisting i t' cm args reply) t'
        (mkMachine (am_stores M) i (am_settings M))
  | machine_config cm t' reply st :
      Resolve r args = inl cm -> cmd_name cm = lit "config" -> t <= t' ->
      config_answer (am_settings M) (drop 1 args) = (reply, st) ->
      machine_answers t M args reply (record_of persisting (am_index M) t' cm args reply) t'
        (mkMachine (am_stores M) (am_index M) st).

Inductive conversation (t : Time) (M : machine) :
    list (list bytes) -> list Reply -> list (option logged) -> Time -> machine -> Prop :=
  | conversation_nil : conversation t M [] [] [] t M
  | conversation_cons args reqs reply replies l ls t1 t2 M1 M2 :
      machine_answers t M args reply l t1 M1 -> conversation t1 M1 reqs replies ls t2 M2 ->
      conversation t M (args :: reqs) (reply :: replies) (l :: ls) t2 M2.

(** The server [s] is the machine [M] at [t]. *)
Definition holds (s : Server) (t : Time) (M : machine) : Prop :=
  sess maphash E (session s (am_index M)) t (am_stores M) /\ sv_settings s = am_settings M /\
  sv_registry s = r /\ bool_decide (is_Some (sv_persist s)) = persisting.

(** What the records leave on the disk. *)
Definition append_all (ls : list (option logged)) (p : Disk * option Store) : Disk * option Store :=
  foldl (λ p l, append_to p.1 p.2 l) p ls.

(** The count of an LPOP or an RPOP has a reply slice within the address space. *)
Definition allowed (args : list bytes) : Prop :=
  forall cm pre spec, Resolve r args = inl cm -> (cmd_name cm, (pre, spec)) ∈ meanings parseFloat formatFloat -> pre args.

Lemma bounded_request (n : Z) (args : list bytes) (As : list astore) :
  Forall (bounded n) As -> Forall (bounded (n + weight args)) As.
Proof.
  intros Hb. eapply Forall_impl; [exact Hb|]. intros A HA. eapply bounded_mono; [exact HA|].
  destruct (weight_args args). pose proof (len_nonneg args). lia.
Qed.

(** ** Lemmas: SELECT and CONFIG *)

Lemma append_to_persists d p l d' p' :
  append_to d p l = (d', p') -> bool_decide (is_Some p') = bool_decide (is_Some p).
Proof.
  unfold append_to. destruct p as [st|], l as [[db a]|]; try (by intros [= <- <-]).
  destruct (Append db a d st). by intros [= <- <-].
Qed.

Lemma logged_form_other (cm : Command) (args : list bytes) (now : Time) :
  cmd_name cm <> lit "expire" -> logged_form now cm args = args.
Proof. intros H. unfold logged_form. repeat case_match; try done; by rewrite bool_decide_eq_true in *. Qed.

(** A command that only moves the selection or changes the settings. *)
Definition moves (s : Server) (idx : Z) (args : list bytes) (cm : Command) (reply : Reply) (i : Z) (st : Settings) : Prop :=
  cmd_name cm <> lit "expire" /\ Command_Keys cm args = Ret [] /\ cmd_wholeDB cm = false /\
  cmd_run cm args (session s idx) = Ret (reply, set_settings (set_index (session s idx) i) st).

Definition moved (args : list bytes) (cm : Command) (reply : Reply) (s s' : Server) (i : Z) (st : Settings)
    (t : Time) (As : list astore) : Prop :=
  exists t' : Time, t <= t' /\ sess maphash E (session s' i) t' As /\ sv_settings s' = st /\
    sv_registry s' = sv_registry s /\
    (sv_disk s', sv_persist s') = append_to (sv_disk s) (sv_persist s)
      (record_of (bool_decide (is_Some (sv_persist s))) i t' cm args reply).

Lemma execute_moves (s : Server) (idx : Z) (args : list bytes) (cm : Command) (reply : Reply) (i : Z) (st : Settings) (t : Time) (As : list astore) :
  moves s idx args cm reply i st -> sess maphash E (session s idx) t As -> 0 <= i < len As ->
  exists s', execute maphash E wreck s idx cm args = Ret (reply, i, s') /\ moved args cm reply s s' i st t As.
Proof.
  intros (Hn & Hk & Hw & Hrun) Hs Hi. pose proof Hs as (HF & Hidx & Ht & Hmono).
  unfold execute. cbn [session c_databases c_index] in Hidx, HF.
  assert (len (sv_databases s) = len As) as Hlen by (unfold len; by rewrite (Forall2_length _ _ _ HF)).
  destruct (lookup_lt_is_Some_2 (sv_databases s) (Z.to_nat idx)) as [db Hdb]; [unfold len in Hidx; lia|].
  pose proof (index_lookup _ _ _ Hdb) as Hix. rewrite Z2Nat.id in Hix by lia. rewrite Hix. orun.
  rewrite (execute_locks_keys maphash idx db cm args [] Hw Hk). orun.
  assert (exists l, run_logged E (bool_decide (is_Some (sv_persist s))) cm args (session s idx)
    = Ret ((reply, l), set_settings (set_index (session s idx) i) st) /\
    l = record_of (bool_decide (is_Some (sv_persist s))) i t cm args reply) as (l & -> & Hl).
  { unfold run_logged, record_of. cgo Hrun. destruct (_ && _); [|by eexists].
    rewrite logged_form_other by done. unfold persistArgs. rewrite bool_decide_false by done. cbn [andb]. by eexists. }
  eexists. split; [reflexivity|]. exists t. split; [lia|].
  pose proof (append_record_rest (absorb s (set_settings (set_index (session s idx) i) st)) l) as (Hd & Htk & Hst & Hrg & _).
  split; [|split; [by rewrite Hst|split; [by rewrite Hrg|]]].
  - unfold sess. cbn [session c_databases c_index c_tick]. rewrite Hd, Htk. cbn.
    split; [exact HF|]. split; [lia|]. split; [exact Ht|exact Hmono].
  - rewrite append_record_store. by rewrite Hl.
Qed.

Lemma dispatch_moves (s : Server) (idx : Z) (args : list bytes) (cm : Command) (reply : Reply) (i : Z) (st : Settings) (t : Time) (As : list astore) :
  Resolve (sv_registry s) args = inl cm -> sess maphash E (session s idx) t As -> 0 <= i < len As ->
  (forall s1, sv_databases s1 = sv_databases s -> sv_settings s1 = sv_settings s -> moves s1 idx args cm reply i st) ->
  exists s', dispatch maphash E wreck s idx args = Ret (reply, i, s') /\ moved args cm reply s s' i st t As.
Proof.
  intros Hres Hs Hi Hmv. unfold dispatch. rewrite Hres.
  destruct (negb _); [apply (execute_moves s idx); [by apply Hmv|exact Hs|exact Hi]|].
  destruct (server_now E s) as [start s1] eqn:En.
  destruct (server_now_passes maphash E s idx t As start s1 En Hs) as (t1 & Ht1 & Hs1 & Hd1 & Hp1 & Hr1 & Hst1 & _).
  destruct (execute_moves s1 idx args cm reply i st t1 As) as (s2 & -> & t2 & Ht2 & Hs2 & Hst2 & Hr2 & Hd2);
    [apply Hmv; [by injection En as _ <-|exact Hst1]|exact Hs1|exact Hi|]. orun.
  set (th := if SlowLogEnabled _ && _ then _ else _).
  exists (observe E s2 start th cm args reply i). split; [reflexivity|].
  destruct (observe_passes maphash E s2 start th cm args reply i t2 As Hs2) as (t3 & Ht3 & Hs3 & Hd3 & Hp3 & Hr3 & Hst3 & _).
  exists t3. split; [lia|]. split; [exact Hs3|]. split; [by rewrite Hst3|]. split; [by rewrite Hr3, Hr2|].
  rewrite Hd3, Hp3, Hd2, Hd1, Hp1. unfold record_of.
  destruct (Hmv s) as (Hn & _); [done..|]. by rewrite !(logged_form_other cm args _ Hn).
Qed.
(** ** Lemmas: every command *)

Abbreviation all_commands := (Registry.all_commands maphash parseFloat formatFloat quote E).

Lemma named_command (i : nat) (cm cm' : Command) :
  all_commands !! i = Some cm' -> cm ∈ all_commands -> cmd_name cm = cmd_name cm' -> cm = cm'.
Proof.
  intros Hi (j & Hj)%list_elem_of_lookup_1 Hn. assert (i = j) as ->; [|congruence].
  pose proof (all_names_NoDup maphash parseFloat formatFloat quote E) as Hnd.
  apply (NoDup_lookup _ i j (cmd_name cm) Hnd); rewrite list_lookup_fmap; [by rewrite Hi, Hn|by rewrite Hj].
Qed.

Lemma command_cases (cm : Command) : cm ∈ all_commands ->
  (exists pre spec, (cmd_name cm, (pre, spec)) ∈ meanings parseFloat formatFloat) \/
  cm = plain "select" 2 cmdSelect \/ cm = plain "config" (-2) (cmdConfig quote).
Proof.
  intros Hcm. assert (cmd_name cm ∈ map cmd_name all_commands) as Hn by (by apply list_elem_of_fmap_2).
  assert (map cmd_name all_commands = take 30 (meanings parseFloat formatFloat).*1 ++
    [lit "select"; lit "config"] ++ drop 30 (meanings parseFloat formatFloat).*1) as Hall by reflexivity.
  assert (forall n, n ∈ (meanings parseFloat formatFloat).*1 ->
    exists pre spec, (n, (pre, spec)) ∈ meanings parseFloat formatFloat) as Hms.
  { intros n ([n' [pre spec]] & -> & Hin)%list_elem_of_fmap. by exists pre, spec. }
  rewrite Hall in Hn. apply elem_of_app in Hn as [Hn|[Hn|Hn]%elem_of_app].
  - left. apply Hms. rewrite <- (take_drop 30 (meanings parseFloat formatFloat).*1). apply elem_of_app. by left.
  - right. apply elem_of_cons in Hn as [Hn|Hn%list_elem_of_singleton].
    + left. by apply (named_command 30).
    + right. by apply (named_command 31).
  - left. apply Hms. rewrite <- (take_drop 30 (meanings parseFloat formatFloat).*1). apply elem_of_app. by right.
Qed.

Lemma select_moves (s : Server) (idx : Z) (args : list bytes) (a : bytes) (reply : Reply) (i : Z) :
  args !! 1%nat = Some a -> select_answer (len (sv_databases s)) idx a = (reply, i) ->
  moves s idx args (plain "select" 2 cmdSelect) reply i (sv_settings s).
Proof.
  intros Ha Hsel. split; [discriminate|]. split; [reflexivity|]. split; [reflexivity|].
  destruct args as [|a0 [|a' rest]]; [done|done|]. injection Ha as ->.
  cbn [plain cmd_run]. unfold cmdSelect. cstep. unfold select_answer in Hsel.
  destruct (Atoi a) as [n|]; [|by injection Hsel as <- <-].
  unfold Context_Select. cbn [session c_databases].
  destruct (0 <=? n) eqn:E0, (n <? len (sv_databases s)) eqn:E1; cbn [andb] in Hsel; injection Hsel as <- <-.
  1: rewrite (proj2 (Z.ltb_ge _ _)), (proj2 (Z.leb_gt _ _)) by lia; reflexivity.
  1: rewrite (proj2 (Z.leb_le _ _)), orb_true_r by lia; reflexivity.
  all: rewrite (proj2 (Z.ltb_lt _ _)) by lia; reflexivity.
Qed.

Lemma config_moves (s : Server) (idx : Z) (args : list bytes) (reply : Reply) (st : Settings) :
  2 <= len args -> config_answer (sv_settings s) (drop 1 args) = (reply, st) ->
  moves s idx args (plain "config" (-2) (cmdConfig quote)) reply idx st.
Proof.
  intros Hl Hc. split; [discriminate|]. split; [reflexivity|]. split; [reflexivity|].
  destruct args as [|a0 [|sub rest]]; [done|done|]. cbn [drop] in Hc. unfold config_answer in Hc.
  cbn [plain cmd_run]. unfold cmdConfig. cbn [session c_settings]. cstep.
  destruct (bool_decide (ToUpper sub = lit "GET")).
  { destruct rest as [|p [|? rest]]; injection Hc as <- <-; [reflexivity..|].
    rewrite (proj2 (Z.eqb_neq _ _)) by (rewrite !len_cons; pose proof (len_nonneg rest); lia). reflexivity. }
  destruct (bool_decide (ToUpper sub = lit "SET")); [|by injection Hc as <- <-].
  destruct rest as [|name [|v [|? rest]]]; [by injection Hc as <- <-..| |].
  - change (negb (len [a0; sub; name; v] =? 4)) with false. cbn iota. do 2 cstep.
    destruct (Settings_Set (sv_settings s) (ToLower name) v) as [st'|e]; by injection Hc as <- <-.
  - injection Hc as <- <-.
    rewrite (proj2 (Z.eqb_neq _ _)) by (rewrite !len_cons; pose proof (len_nonneg rest); lia). reflexivity.
Qed.

(** ** Lemmas: a request, a conversation *)

Context (Hpf : parses_f64 parseFloat).
Context (Hr : NewRegistry maphash parseFloat formatFloat quote E = Some r).

(** The server machine_answers a request as the machine does. *)
Definition req_answered (s : Server) (t : Time) (M : machine) (args : list bytes) (n : Z) : Prop :=
  exists reply l s' t' M',
    dispatch maphash E wreck s (am_index M) args = Ret (reply, am_index M', s') /\
    machine_answers t M args reply l t' M' /\ holds s' t' M' /\ Forall (bounded (n + weight args)) (am_stores M') /\
    (sv_disk s', sv_persist s') = append_to (sv_disk s) (sv_persist s) l.

Lemma answered_moved (s : Server) (t : Time) (M : machine) (args : list bytes) (n : Z)
    (cm : Command) (reply : Reply) (i : Z) (st : Settings) (s' : Server) :
  holds s t M -> Forall (bounded (n + weight args)) (am_stores M) ->
  dispatch maphash E wreck s (am_index M) args = Ret (reply, i, s') ->
  moved args cm reply s s' i st t (am_stores M) ->
  (forall t' : Time, t <= t' -> machine_answers t M args reply (record_of persisting i t' cm args reply) t' (mkMachine (am_stores M) i st)) ->
  req_answered s t M args n.
Proof.
  intros (_ & _ & Hreg & Hp) Hb Hd (t' & Ht & Hs' & Hst & Hr' & Hdisk) Hans. rewrite Hp in Hdisk.
  exists reply, (record_of persisting i t' cm args reply), s', t', (mkMachine (am_stores M) i st).
  split; [exact Hd|]. split; [exact (Hans t' Ht)|]. split; [|split; [exact Hb|exact Hdisk]].
  split; [exact Hs'|]. split; [exact Hst|]. split; [by rewrite Hr'|].
  by rewrite (append_to_persists _ _ _ _ _ (eq_sym Hdisk)).
Qed.

Lemma data_answered (s : Server) (t : Time) (M : machine) (args : list bytes) (n : Z)
    (cm : Command) (pre : list bytes -> Prop) (spec : aspec) :
  holds s t M -> Forall (bounded n) (am_stores M) -> 0 <= n <= MaxInt64 -> Forall go_len args -> pre args ->
  Resolve r args = inl cm -> (cmd_name cm, (pre, spec)) ∈ meanings parseFloat formatFloat -> req_answered s t M args n.
Proof.
  intros (Hs & Hst & Hreg & Hp) Hb Hn Hgo Hpre Hres Hm. pose proof Hs as (HF & Hidx & _).
  cbn [session c_databases c_index] in HF, Hidx.
  destruct (lookup_lt_is_Some_2 (am_stores M) (Z.to_nat (am_index M))) as [A HA].
  { rewrite <- (Forall2_length _ _ _ HF). unfold len in Hidx. lia. }
  pose proof (Forall_lookup_1 _ _ _ _ Hb HA) as HbA.
  pose proof Hres as (name & rest & Hargs & _ & _ & Hcm & Ha)%(Resolve_spec _ _ _ _ _ _ _ _ Hr).
  destruct (dispatch_served maphash E wreck parseFloat formatFloat quote s (am_index M) args cm pre spec t
    (am_stores M) A Hpf) as (t1 & t2 & t3 & t4 & reply & A' & s' & Hd & Ht & Ht3 & Hsp & Hs' & Hdisk & Hr' & Hst' & _).
  { by rewrite Hreg. } { by rewrite Hreg. } { exact Hm. } { exact Hs. } { exact HA. }
  { apply bounded_small. eapply bounded_mono; [exact HbA|lia]. } { exact Hgo. } { exact Hpre. }
  rewrite Hp in Hdisk.
  eexists reply, _, s', t4, (mkMachine (<[Z.to_nat (am_index M) := A']> (am_stores M)) (am_index M) (am_settings M)).
  split; [exact Hd|]. split; [by eapply machine_data|]. split; [|split; [|exact Hdisk]].
  - split; [exact Hs'|]. split; [by rewrite Hst'|]. split; [by rewrite Hr'|].
    by rewrite (append_to_persists _ _ _ _ _ (eq_sym Hdisk)).
  - apply Forall_insert; [by apply bounded_request|].
    eapply (command_modest maphash parseFloat formatFloat quote E); [exact Hcm|exact Hm|exact Ha|exact Hsp|lia|exact HbA].
Qed.

Lemma select_answered (s : Server) (t : Time) (M : machine) (a0 a : bytes) (n : Z) :
  holds s t M -> Forall (bounded n) (am_stores M) ->
  Resolve r [a0; a] = inl (plain "select" 2 cmdSelect) -> req_answered s t M [a0; a] n.
Proof.
  intros HM Hb Hres. pose proof HM as (Hs & Hst & Hreg & _). pose proof Hs as (HF & Hidx & _).
  cbn [session c_databases c_index] in HF, Hidx. apply Forall2_length in HF as Hlen.
  destruct (select_answer (len (am_stores M)) (am_index M) a) as [reply i] eqn:Esel.
  assert (0 <= i < len (am_stores M)) as Hi.
  { unfold len in Hidx. rewrite Hlen in Hidx. fold (len (am_stores M)) in Hidx.
    unfold select_answer in Esel. destruct (Atoi a) as [k|]; [|injection Esel as _ <-; lia].
    destruct (0 <=? k) eqn:E0, (k <? len (am_stores M)) eqn:E1; injection Esel as _ <-; lia. }
  destruct (dispatch_moves s (am_index M) [a0; a] (plain "select" 2 cmdSelect) reply i (am_settings M) t (am_stores M))
    as (s' & Hd & Hmv); [by rewrite Hreg|exact Hs|exact Hi| |].
  { intros s1 H1 H2. rewrite <- Hst, <- H2. eapply select_moves; [reflexivity|]. rewrite H1. unfold len. by rewrite Hlen. }
  eapply answered_moved; [exact HM|by apply bounded_request|exact Hd|exact Hmv|].
  intros t' Ht'. by eapply machine_select.
Qed.

Lemma config_answered (s : Server) (t : Time) (M : machine) (args : list bytes) (n : Z) :
  holds s t M -> Forall (bounded n) (am_stores M) -> 2 <= len args ->
  Resolve r args = inl (plain "config" (-2) (cmdConfig quote)) -> req_answered s t M args n.
Proof.
  intros HM Hb Ha Hres. pose proof HM as (Hs & Hst & Hreg & _). pose proof Hs as (HF & Hidx & _).
  cbn [session c_databases c_index] in HF, Hidx. apply Forall2_length in HF as Hlen.
  destruct (config_answer (am_settings M) (drop 1 args)) as [reply st] eqn:Ec.
  destruct (dispatch_moves s (am_index M) args (plain "config" (-2) (cmdConfig quote)) reply (am_index M) st t (am_stores M))
    as (s' & Hd & Hmv); [by rewrite Hreg|exact Hs|unfold len in *; lia| |].
  { intros s1 H1 H2. apply config_moves; [exact Ha|]. by rewrite H2, Hst. }
  eapply answered_moved; [exact HM|by apply bounded_request|exact Hd|exact Hmv|].
  intros t' Ht'. by eapply machine_config.
Qed.

Lemma dispatch_answers (s : Server) (t : Time) (M : machine) (args : list bytes) (n : Z) :
  holds s t M -> Forall (bounded n) (am_stores M) -> 0 <= n <= MaxInt64 -> Forall go_len args -> allowed args ->
  req_answered s t M args n.
Proof.
  intros HM Hb Hn Hgo Hal. destruct (Resolve r args) as [cm|reply] eqn:Hres.
  - pose proof Hres as (name & rest & Hargs & _ & _ & Hcm & Ha)%(Resolve_spec _ _ _ _ _ _ _ _ Hr).
    destruct (command_cases cm Hcm) as [(pre & spec & Hm)|[->| ->]].
    + apply (data_answered s t M args n cm pre spec); [exact HM|exact Hb|exact Hn|exact Hgo| |exact Hres|exact Hm].
      exact (Hal cm pre spec Hres Hm).
    + destruct (args_2 args Ha) as (a0 & a & ->). by apply select_answered.
    + by apply config_answered.
  - exists reply, None, s, t, M. pose proof HM as (_ & _ & Hreg & _). unfold dispatch. rewrite Hreg, Hres.
    split; [reflexivity|]. split; [by constructor|]. split; [exact HM|]. split; [by apply bounded_request|].
    unfold append_to. by destruct (sv_persist s).
Qed.

(** The weight of the requests, one after the other. *)
Definition weights (reqs : list (list bytes)) : Z := foldr (λ args n, weight args + n) 0 reqs.

Lemma weights_nonneg reqs : 0 <= weights reqs.
Proof.
  induction reqs as [|args reqs IH]; cbn; [lia|]. fold (weights reqs).
  destruct (weight_args args). pose proof (len_nonneg args). lia.
Qed.

Lemma dispatch_all_converses (reqs : list (list bytes)) : forall (s : Server) (t : Time) (M : machine) (n : Z),
  holds s t M -> Forall (bounded n) (am_stores M) -> 0 <= n -> n + weights reqs <= MaxInt64 ->
  Forall (Forall go_len) reqs -> Forall allowed reqs ->
  exists replies ls s' t' M',
    dispatch_all maphash E wreck s (am_index M) reqs = Ret (replies, am_index M', s') /\
    conversation t M reqs replies ls t' M' /\ holds s' t' M' /\
    (sv_disk s', sv_persist s') = append_all ls (sv_disk s, sv_persist s).
Proof.
  induction reqs as [|args reqs IH]; intros s t M n HM Hb Hn Hw Hgo Hal.
  { exists [], [], s, t, M. split; [reflexivity|]. split; [constructor|]. split; [exact HM|reflexivity]. }
  apply Forall_cons in Hgo as [Hgo1 Hgo]. apply Forall_cons in Hal as [Hal1 Hal].
  cbn [weights foldr] in Hw. fold (weights reqs) in Hw. pose proof (weights_nonneg reqs).
  assert (0 <= weight args) as Hw1 by (destruct (weight_args args); pose proof (len_nonneg args); lia).
  destruct (dispatch_answers s t M args n HM Hb ltac:(lia) Hgo1 Hal1)
    as (reply & l & s1 & t1 & M1 & Hd & Hans & HM1 & Hb1 & Hdisk1).
  destruct (IH s1 t1 M1 (n + weight args) HM1 Hb1 ltac:(lia) ltac:(lia) Hgo Hal)
    as (replies & ls & s2 & t2 & M2 & Hda & Hconv & HM2 & Hdisk2).
  exists (reply :: replies), (l :: ls), s2, t2, M2. cbn [dispatch_all]. rewrite Hd. orun. rewrite Hda. orun.
  split; [reflexivity|]. split; [by econstructor|]. split; [exact HM2|].
  rewrite Hdisk2, Hdisk1. reflexivity.
Qed.

Lemma sends_go_len reqs bufs : Forall2 sends reqs bufs -> Forall (Forall go_len) reqs.
Proof.
  intros H. eapply Forall2_Forall_l; [exact H|]. apply Forall_true. intros buf args (_ & _ & Ha).
  eapply Forall_impl; [exact Ha|]. intros a Hal. unfold go_len, maxBulkLen in *. lia.
Qed.

(** What a client can send in requests is bounded by the bytes it sends. *)
Lemma requests_paid fuel : forall input, (length input < fuel)%nat ->
  weights (requests_of fuel input).1 <= 22 * len input /\ Forall (Forall go_len) (requests_of fuel input).1.
Proof.
  induction fuel as [|fuel IH]; intros input Hf; [lia|]. cbn [requests_of].
  destruct (ReadRequest input) as [[args|e] rest] eqn:Er; [|split; [cbn; pose proof (len_nonneg input); lia|constructor]].
  apply reads_ReadRequest in Er as (k & Hk & Hk1 & Hpaid & Hgo). destruct (IH rest ltac:(lia)) as [Hw Hgos].
  assert (len input = Z.of_nat k + len rest) as Hlen by (unfold len; lia).
  destruct args as [|a args]; [split; [lia|exact Hgos]|].
  destruct (requests_of fuel rest) as [reqs e]. cbn [fst] in *. split; [|by constructor].
  cbn [weights foldr]. fold (weights reqs). unfold weight. lia.
Qed.
End Machine.

(** ** The property *)

(** C1. A whole connection does what its requests mean. A client sends any
    requests (of any commands, known or not, SELECT and CONFIG among them), each
    within the protocol's limits, pipelined or not, and then closes its side,
    breaks the protocol or is cut off. Then [serve] returns; what it wrote is the
    encoding of the replies of the machine, which runs each request as its command
    means on the database selected by then, followed by a protocol error where
    there was one; all of it is flushed when the client ended between two requests
    or with a protocol error; and the stores, the settings, the data directory and
    the append log are left as the machine leaves them, with a record for each
    write that succeeded. The sizes of the values at the start and the bytes sent
    must add up to less than 2^63, and the counts of LPOP and RPOP must have a
    reply slice within the address space. *)
Theorem connection_refines (maphash : bytes -> Z) (parseFloat : bytes -> option float64)
    (formatFloat : float64 -> bytes) (quote : bytes -> bytes) (E : Env)
    (wreck : Command -> list bytes -> CmdContext -> CmdContext) (buffered : nat -> bytes -> Z)
    (reqs : list (list bytes)) (bufs : list bytes) (rest : bytes) (e : io_error) (r' : bytes)
    (s : Server) (t : Time) (As : list astore) (n : Z) :
  parses_f64 parseFloat ->
  NewRegistry maphash parseFloat formatFloat quote E = Some (sv_registry s) ->
  sess maphash E (session s 0) t As ->
  Forall (bounded n) As -> 0 <= n -> n + weights reqs <= MaxInt64 ->
  Forall (allowed parseFloat formatFloat (sv_registry s)) reqs ->
  (forall i r, 0 <= buffered i r <= len r) ->
  Forall2 sends reqs bufs -> ReadRequest rest = (inr e, r') ->
  exists replies ls t' M' s' c,
    serve maphash E wreck buffered s (new_conn (concat bufs ++ rest)) = Ret (s', c) /\
    conversation parseFloat formatFloat quote (sv_registry s) (bool_decide (is_Some (sv_persist s)))
      t (mkMachine As 0 (sv_settings s)) reqs replies ls t' M' /\
    w_out (cn_writer c) = concat (map encode_reply replies) ++
      (if bool_decide (e = ErrProtocol) then encode_reply (RError (lit "ERR Protocol error")) else []) /\
    (rest = [] \/ e = ErrProtocol -> cn_sent c = length (w_out (cn_writer c))) /\
    sess maphash E (session s' (am_index M')) t' (am_stores M') /\ sv_settings s' = am_settings M' /\
    (sv_disk s', sv_persist s') = append_all ls (sv_disk s, sv_persist s).
Proof.
  intros Hpf Hr Hs Hb Hn Hw Hal Hbuf HF He.
  destruct (dispatch_all_converses maphash parseFloat formatFloat quote E wreck (sv_registry s)
    (bool_decide (is_Some (sv_persist s))) Hpf Hr reqs (record_metric s ConnectionOpened) t
    (mkMachine As 0 (sv_settings s)) n) as (replies & ls & s1 & t' & M' & Hd & Hconv & HM & Hdisk).
  { split; [exact Hs|]. by repeat split. } { exact Hb. } { exact Hn. } { exact Hw. }
  { by eapply sends_go_len. } { exact Hal. }
  destruct (serve_delivers maphash E wreck buffered reqs bufs rest e r' s replies (am_index M') s1 Hbuf HF He Hd)
    as (c & Hserve & Hout & Hsent).
  exists replies, ls, t', M', (record_metric s1 ConnectionClosed), c.
  destruct HM as (Hs' & Hst & _). split; [exact Hserve|]. split; [exact Hconv|]. split; [exact Hout|].
  split; [exact Hsent|]. split; [exact Hs'|]. split; [exact Hst|exact Hdisk].
Qed.

(** C21. A connection ends on every input. Whatever bytes a client sends, malformed,
    cut off or hostile, before it closes its side: the requests that the reader
    finds in them ([requests]) are finitely many, each is answered as the machine
    answers it, with the stores, the settings and the log left as the machine
    leaves them, and [serve] returns; what it wrote is the encoding of these
    replies, followed by a protocol error when that is how the reader ended. The
    server is one with the real command table whose databases represent stores; the
    sizes of its values and 22 times the bytes sent add up to less than 2^63, and
    the counts of LPOP and RPOP have a reply slice within the address space. *)
Theorem serve_terminates (maphash : bytes -> Z) (parseFloat : bytes -> option float64)
    (formatFloat : float64 -> bytes) (quote : bytes -> bytes) (E : Env)
    (wreck : Command -> list bytes -> CmdContext -> CmdContext) (buffered : nat -> bytes -> Z)
    (input : bytes) (s : Server) (t : Time) (As : list astore) (n : Z) :
  parses_f64 parseFloat ->
  NewRegistry maphash parseFloat formatFloat quote E = Some (sv_registry s) ->
  sess maphash E (session s 0) t As ->
  Forall (bounded n) As -> 0 <= n -> n + 22 * len input <= MaxInt64 ->
  Forall (allowed parseFloat formatFloat (sv_registry s)) (requests input).1 ->
  exists replies ls t' M' s' c,
    serve maphash E wreck buffered s (new_conn input) = Ret (s', c) /\
    conversation parseFloat formatFloat quote (sv_registry s) (bool_decide (is_Some (sv_persist s)))
      t (mkMachine As 0 (sv_settings s)) (requests input).1 replies ls t' M' /\
    w_out (cn_writer c) = concat (map encode_reply replies) ++
      (if bool_decide ((requests input).2 = ErrProtocol) then encode_reply (RError (lit "ERR Protocol error")) else []) /\
    sess maphash E (session s' (am_index M')) t' (am_stores M') /\ sv_settings s' = am_settings M' /\
    (sv_disk s', sv_persist s') = append_all ls (sv_disk s, sv_persist s).
Proof.
  intros Hpf Hr Hs Hb Hn Hw Hal. destruct (requests_paid (S (length input)) input ltac:(lia)) as [Hpaid Hgo].
  fold (requests input) in Hpaid, Hgo.
  destruct (dispatch_all_converses maphash parseFloat formatFloat quote E wreck (sv_registry s)
    (bool_decide (is_Some (sv_persist s))) Hpf Hr (requests input).1 (record_metric s ConnectionOpened) t
    (mkMachine As 0 (sv_settings s)) n) as (replies & ls & s1 & t' & M' & Hd & Hconv & HM & Hdisk).
  { split; [exact Hs|]. by repeat split. } { exact Hb. } { exact Hn. } { lia. } { exact Hgo. } { exact Hal. }
  destruct (serve_any maphash E wreck buffered input s replies (am_index M') s1 Hd) as (c & Hserve & Hout).
  exists replies, ls, t', M', (record_metric s1 ConnectionClosed), c.
  destruct HM as (Hs' & Hst & _). split; [exact Hserve|]. split; [exact Hconv|]. split; [exact Hout|].
  split; [exact Hs'|]. split; [exact Hst|exact Hdisk].
Qed.

(** ** Witness *)

(** Only LPOP and RPOP need anything of a request. *)
Lemma meanings_pre (parseFloat : bytes -> option float64) (formatFloat : float64 -> bytes) (name : bytes) (pre : list bytes -> Prop) (spec : aspec) (args : list bytes) :
  (name, (pre, spec)) ∈ meanings parseFloat formatFloat -> pop_pre args -> pre args.
Proof.
  intros Hm Hp. assert (Forall (λ m : bytes * ((list bytes -> Prop) * aspec), m.2.1 args) (meanings parseFloat formatFloat)) as H.
  { unfold meanings. repeat (apply Forall_cons; split; [first [exact I|exact Hp]|]). apply Forall_nil_2. }
  rewrite Forall_forall in H. exact (H _ Hm).
Qed.

(** Concrete requests are [allowed]. *)
Ltac allow_all :=
  repeat (apply Forall_cons; split; [intros cm pre spec _ Hm; apply (meanings_pre _ _ _ _ _ _ Hm); intros a n Ha Hn;
    vm_compute in Ha; first [discriminate Ha|injection Ha as <-; vm_compute in Hn;
      first [discriminate Hn|injection Hn as <-; vm_compute; discriminate]]|]);
  apply Forall_nil_2.

Definition connection_requests : list (list bytes) :=
  [req ["SET"; "a"; "1"]; req ["SELECT"; "5"]; req ["CONFIG"; "GET"; "*"]; req ["NOPE"]].

Lemma connection_refines_witness :
  exists s replies ls t' M' s' c,
    serve len_hash still_env no_wreck (λ _ r, len r) s
      (new_conn (concat (default [] (mapM client_writeCommand connection_requests)) ++ [])) = Ret (s', c) /\
    conversation zero_float (λ _, []) id (sv_registry s) (bool_decide (is_Some (sv_persist s)))
      (unix_epoch + 1000) (mkMachine (replicate 1 ∅) 0 (sv_settings s)) connection_requests replies ls t' M' /\
    w_out (cn_writer c) = concat (map encode_reply replies) ++ [] /\
    cn_sent c = length (w_out (cn_writer c)).
Proof.
  destruct restart_example_server as (s & Hr & _ & Hs & _).
  destruct (connection_refines len_hash zero_float (λ _, []) id still_env no_wreck (λ _ r, len r) connection_requests
    (default [] (mapM client_writeCommand connection_requests)) [] EOF [] s (unix_epoch + 1000) (replicate 1 ∅) 0)
    as (replies & ls & t' & M' & s' & c & Hserve & Hconv & Hout & Hsent & _).
  - exact zero_float_parses.
  - exact Hr.
  - exact Hs.
  - apply Forall_replicate, map_Forall_empty.
  - lia.
  - vm_compute. discriminate.
  - unfold connection_requests. allow_all.
  - intros i b. unfold len. lia.
  - repeat (apply Forall2_cons; split; [split; [reflexivity|split; [vm_compute; discriminate|]];
      repeat constructor; vm_compute; discriminate|]). apply Forall2_nil_2.
  - reflexivity.
  - exists s, replies, ls, t', M', s', c. split; [exact Hserve|]. split; [exact Hconv|]. split; [exact Hout|].
    apply Hsent. left. reflexivity.
Defined.

(** An inline SET, an empty line, a multi-bulk GET, and a bulk that breaks the
    protocol. *)
Definition mixed_input : bytes :=
  lit "SET a 1" ++ CRLF ++ CRLF ++ lit "*2" ++ CRLF ++ lit "$3" ++ CRLF ++ lit "GET" ++ CRLF ++ lit "$1" ++ CRLF ++
  lit "a" ++ CRLF ++ lit "*1" ++ CRLF ++ lit "$-7" ++ CRLF ++ lit "?".

Lemma serve_terminates_witness :
  requests mixed_input = ([req ["SET"; "a"; "1"]; req ["GET"; "a"]], ErrProtocol) /\
  exists s replies s' c ls t' M',
    serve len_hash still_env no_wreck (λ _ _, 0) s (new_conn mixed_input) = Ret (s', c) /\
    conversation zero_float (λ _, []) id (sv_registry s) (bool_decide (is_Some (sv_persist s)))
      (unix_epoch + 1000) (mkMachine (replicate 1 ∅) 0 (sv_settings s))
      [req ["SET"; "a"; "1"]; req ["GET"; "a"]] replies ls t' M' /\
    w_out (cn_writer c) = concat (map encode_reply replies) ++ encode_reply (RError (lit "ERR Protocol error")).
Proof.
  assert (requests mixed_input = ([req ["SET"; "a"; "1"]; req ["GET"; "a"]], ErrProtocol)) as Hreq by reflexivity.
  split; [exact Hreq|]. destruct restart_example_server as (s & Hr & _ & Hs & _).
  destruct (serve_terminates len_hash zero_float (λ _, []) id still_env no_wreck (λ _ _, 0) mixed_input
    s (unix_epoch + 1000) (replicate 1 ∅) 0) as (replies & ls & t' & M' & s' & c & Hserve & Hconv & Hout & _).
  - exact zero_float_parses.
  - exact Hr.
  - exact Hs.
  - apply Forall_replicate, map_Forall_empty.
  - lia.
  - vm_compute. discriminate.
  - rewrite Hreq. cbn [fst]. allow_all.
  - rewrite Hreq in Hconv, Hout. exists s, replies, s', c, ls, t', M'.
    split; [exact Hserve|]. split; [exact Hconv|exact Hout].
Defined.
