(* ===== verification/Process.v ===== *)
(** * The life of the process

    [run] of main.go past its start: connections, the background loops, the
    metrics endpoint and the signal that ends it all, interleaved; then the end
    of [Serve], the wait for the endpoint and the exit. A request is one step (its
    locks and the interleaving inside it are in Concurrent), and so is each file
    operation of a compaction. *)

From S2P Require Import Prelude GoBinary Pack Float64 Skiplist ValueList ValueHash ValueSet ValueZSet.
From S2P Require Import GoTime Value Keyspace Shard Expiry Strconv Resp Config Command Session.
From S2P Require Import CommandSpec CollectionSpec Registry Locality Codec Store ServerLocks Server Replay Growth.
From S2P Require Import Restart Shutdown Incidents Serve Connection.

(** ** The metrics endpoint (metrics.go, main.go) *)

Inductive http_error := ErrServerClosed | ErrAccept.

(** The HTTP server, and whether the goroutine that runs it is still there. *)
Record endpoint := mkEndpoint { ep_closed : bool; ep_serving : bool }.

Definition new_endpoint : endpoint := mkEndpoint false true.

(** [http.Server.Serve] returns [ErrServerClosed] once the server is closed, also
    when it was closed first, and before that only when it cannot accept. *)
Definition http_Serve (ep : endpoint) : http_error := if ep_closed ep then ErrServerClosed else ErrAccept.

(** [Serve] of metrics.go. *)
Definition metrics_Serve (ep : endpoint) : option http_error :=
  match http_Serve ep with ErrServerClosed => None | e => Some e end.

(** [Shutdown] of metrics.go. *)
Definition metrics_Shutdown (ep : endpoint) : endpoint := mkEndpoint true (ep_serving ep).

(** The goroutine past its [Serve]. *)
Definition metrics_returns (ep : endpoint) : endpoint := mkEndpoint (ep_closed ep) false.

(** What [wg.Wait] of [run] waits for. *)
Definition endpoint_done (ep : option endpoint) : bool :=
  match ep with Some ep => negb (ep_serving ep) | None => true end.

(** ** The process *)

(** [Saved]: [srv.Run] has returned. *)
Inductive stage := Serving | Saved | Exited (status : Z).

(** [pr_sessions] is the database each connection has selected; [pr_install] the
    file operations that a compaction under way has left; [pr_failures] the error
    lines of the metrics server. *)
Record process := mkProcess {
  pr_server : Server;
  pr_net : Net;
  pr_sessions : gmap nat Z;
  pr_install : option (list disk_op);
  pr_endpoint : option endpoint;
  pr_failures : list http_error;
  pr_stage : stage }.

(** [Died]: a request whose panic is not recovered ends the process. *)
Inductive proc_event :=
  | Opened (c : nat)
  | Asked (c : nat) (args : list bytes) (reply : Reply)
  | Died (c : nat) (args : list bytes)
  | Compacted.

(** [run] at its accept loop. *)
Definition started (s : Server) (n : Net) (ep : option endpoint) : process :=
  mkProcess s n ∅ None ep [] Serving.

Definition with_server (P : process) (s : Server) : process :=
  mkProcess s (pr_net P) (pr_sessions P) (pr_install P) (pr_endpoint P) (pr_failures P) (pr_stage P).
Definition with_net (P : process) (n : Net) : process :=
  mkProcess (pr_server P) n (pr_sessions P) (pr_install P) (pr_endpoint P) (pr_failures P) (pr_stage P).
Definition with_session (P : process) (c : nat) (i : Z) : process :=
  mkProcess (pr_server P) (pr_net P) (<[c := i]> (pr_sessions P)) (pr_install P) (pr_endpoint P) (pr_failures P)
    (pr_stage P).
Definition with_install (P : process) (ops : option (list disk_op)) : process :=
  mkProcess (pr_server P) (pr_net P) (pr_sessions P) ops (pr_endpoint P) (pr_failures P) (pr_stage P).
Definition with_endpoint (P : process) (ep : endpoint) (fs : list http_error) : process :=
  mkProcess (pr_server P) (pr_net P) (pr_sessions P) (pr_install P) (Some ep) (pr_failures P ++ fs) (pr_stage P).
Definition with_stage (P : process) (g : stage) : process :=
  mkProcess (pr_server P) (pr_net P) (pr_sessions P) (pr_install P) (pr_endpoint P) (pr_failures P) g.

(** The goroutine that shuts the endpoint down once the context is done. *)
Definition stopMetrics (P : process) (ep : endpoint) : process := with_endpoint P (metrics_Shutdown ep) [].

(** The goroutine that runs it: an error of [Serve] is logged. *)
Definition runMetrics (P : process) (ep : endpoint) : process :=
  with_endpoint P (metrics_returns ep) (option_list (metrics_Serve ep)).

Definition set_databases (s : Server) (dbs : list DB) (q : list Value) (tick : nat) : Server :=
  mkServer (sv_registry s) (sv_settings s) (sv_metrics s) dbs (sv_limits s) q (sv_persist s) (sv_persistCfg s)
    (sv_disk s) (sv_slow s) tick.

Section Process.
Context (maphash : bytes -> Z) (parseFloat : bytes -> option float64)
  (formatFloat : float64 -> bytes) (quote : bytes -> bytes) (E : Env).
Context (wreck : Command -> list bytes -> CmdContext -> CmdContext).

(** A tick of the expiry loop: the budget is the setting of the moment, and the
    clock is read when there is one. *)
Definition expire_tick (seeds : nat -> nat -> list nat) (s : Server) : Server :=
  let limit := ExpirySample (sv_settings s) in
  if limit <=? 0 then s
  else set_databases s (Runner_cycle seeds limit (env_now E (sv_tick s)) (sv_databases s)).1.1 (sv_reaper s)
         (S (sv_tick s)).

(** One value taken off the reaper's queue. *)
Definition reap_tick (s : Server) : Server :=
  set_databases s (sv_databases s) (runReaper (sv_reaper s)) (sv_tick s).

(** A tick of a background loop, but for compaction. *)
Inductive background (s : Server) : Server -> Prop :=
  | bg_flush : background s (runAppendLogFlush s)
  | bg_expire seeds : background s (expire_tick seeds s)
  | bg_reap : background s (reap_tick s).

(** [startConn] on a connection that [Accept] returned: one that it keeps starts
    [serve], on database 0. *)
Definition accept_conn (P : process) (c : nat) : option proc_event * process :=
  let n := startConn (pr_net P) c in
  if bool_decide (c ∈ net_conns n)
  then (Some (Opened c),
        with_session (with_net (with_server P (record_metric (pr_server P) ConnectionOpened)) n) c 0)
  else (None, with_net P n).

(** A request that the reader of a connection can return to [serve]. *)
Definition received (args : list bytes) : Prop :=
  args <> [] /\ exists input rest, ReadRequest input = (inl args, rest).

(** The exit status of Go's runtime after a panic that nothing recovers. *)
Definition panicked : stage := Exited 2.

(** The steps of the process. [Accept] may return a connection that was waiting
    when the listener was closed, and may fail at any time. A compaction captures
    the databases and rotates the log under the locks; a snapshot that could not
    be written ends it there, otherwise its file operations follow one by one. The
    loop that compacts has left the wait group of [Serve] only when none is left. *)
Inductive proc_step (P : process) : option proc_event -> process -> Prop :=
  | proc_accept c :
      pr_stage P = Serving -> net_phase (pr_net P) = Accepting -> c ∉ net_wg (pr_net P) ->
      proc_step P (accept_conn P c).1 (accept_conn P c).2
  | proc_accept_fails :
      pr_stage P = Serving -> net_phase (pr_net P) = Accepting ->
      proc_step P None (with_net P (accept_failed (pr_net P)))
  | proc_signal :
      pr_stage P = Serving -> proc_step P None (with_net P (cancel (pr_net P)))
  | proc_shutdown :
      pr_stage P = Serving -> net_canceled (pr_net P) = true ->
      proc_step P None (with_net P (shutdown (pr_net P)))
  | proc_close c :
      pr_stage P = Serving -> c ∈ net_conns (pr_net P) ->
      proc_step P None
        (with_net (with_server P (record_metric (pr_server P) ConnectionClosed)) (closeConn (pr_net P) c))
  | proc_done c :
      pr_stage P = Serving -> c ∈ net_wg (pr_net P) -> c ∉ net_conns (pr_net P) ->
      proc_step P None (with_net P (set_wg (pr_net P) (net_wg (pr_net P) ∖ {[c]}) (net_loops (pr_net P))))
  | proc_loop_ends :
      pr_stage P = Serving -> net_canceled (pr_net P) = true -> (0 < net_loops (pr_net P))%nat ->
      proc_step P None (with_net P (set_wg (pr_net P) (net_wg (pr_net P)) (net_loops (pr_net P) - 1)))
  | proc_wait :
      pr_stage P = Serving -> net_phase (pr_net P) = Waiting -> net_wg (pr_net P) = ∅ ->
      net_loops (pr_net P) = 0%nat -> pr_install P = None ->
      proc_step P None (with_net P (set_phase (pr_net P) Stopped))
  | proc_request c idx args reply idx' s :
      pr_stage P = Serving -> c ∈ net_conns (pr_net P) -> pr_sessions P !! c = Some idx -> received args ->
      dispatch maphash E wreck (pr_server P) idx args = Ret (reply, idx', s) ->
      proc_step P (Some (Asked c args reply)) (with_session (with_server P s) c idx')
  | proc_panic c idx args p :
      pr_stage P = Serving -> c ∈ net_conns (pr_net P) -> pr_sessions P !! c = Some idx -> received args ->
      dispatch maphash E wreck (pr_server P) idx args = Panic p ->
      proc_step P (Some (Died c args)) (with_stage P panicked)
  | proc_background s :
      pr_stage P = Serving -> (0 < net_loops (pr_net P))%nat -> background (pr_server P) s ->
      proc_step P None (with_server P s)
  | proc_capture orders st snap d' st' :
      pr_stage P = Serving -> (0 < net_loops (pr_net P))%nat -> pr_install P = None ->
      0 < Per_CompactEvery (sv_persistCfg (pr_server P)) -> sv_persist (pr_server P) = Some st ->
      capture orders (pr_server P) st = Ret (inl snap) -> Rotate (sv_disk (pr_server P)) st = (d', st') ->
      proc_step P (Some Compacted) (with_install (with_server P (set_store (pr_server P) d' (Some st')))
        (Some (install_ops snap (NextGen st))))
  | proc_capture_fails orders st e d' st' :
      pr_stage P = Serving -> (0 < net_loops (pr_net P))%nat -> pr_install P = None ->
      0 < Per_CompactEvery (sv_persistCfg (pr_server P)) -> sv_persist (pr_server P) = Some st ->
      capture orders (pr_server P) st = Ret (inr e) -> Rotate (sv_disk (pr_server P)) st = (d', st') ->
      proc_step P (Some Compacted) (with_server P (set_store (pr_server P) d' (Some st')))
  | proc_capture_panics orders st p :
      pr_stage P = Serving -> (0 < net_loops (pr_net P))%nat -> pr_install P = None ->
      0 < Per_CompactEvery (sv_persistCfg (pr_server P)) -> sv_persist (pr_server P) = Some st ->
      capture orders (pr_server P) st = Panic p -> proc_step P None (with_stage P panicked)
  | proc_install op ops :
      pr_stage P = Serving -> pr_install P = Some (op :: ops) ->
      proc_step P None (with_install (with_server P (set_store (pr_server P)
        (disk_exec (sv_disk (pr_server P)) op) (sv_persist (pr_server P)))) (Some ops))
  | proc_installed :
      pr_stage P = Serving -> pr_install P = Some [] -> proc_step P None (with_install P None)
  | proc_finish orders s err :
      pr_stage P = Serving -> net_phase (pr_net P) = Stopped ->
      Serve_finish orders (pr_server P) = Ret (s, err) -> proc_step P None (with_stage (with_server P s) Saved)
  | proc_finish_panics orders p :
      pr_stage P = Serving -> net_phase (pr_net P) = Stopped ->
      Serve_finish orders (pr_server P) = Panic p -> proc_step P None (with_stage P panicked)
  | proc_metrics_shutdown ep :
      pr_endpoint P = Some ep -> net_canceled (pr_net P) = true ->
      proc_step P None (stopMetrics P ep)
  | proc_metrics_returns ep :
      pr_endpoint P = Some ep -> ep_serving ep = true ->
      proc_step P None (runMetrics P ep)
  | proc_exit :
      pr_stage P = Saved -> endpoint_done (pr_endpoint P) = true -> proc_step P None (with_stage P (Exited 0)).

Inductive proc_run (P0 : process) : list proc_event -> process -> Prop :=
  | run_start : proc_run P0 [] P0
  | run_next evs P ev P' :
      proc_run P0 evs P -> proc_step P ev P' -> proc_run P0 (evs ++ option_list ev) P'.

(** ** What the clients saw *)

(** The stores, the settings and each connection's selection, at a time. *)
Record world := mkWorld {
  w_time : Time;
  w_stores : list astore;
  w_settings : Settings;
  w_sessions : gmap nat Z }.

(** The events as the machine of Connection plays them, one request after the
    other, whatever connections they came from. *)
Inductive story (r : gmap bytes Command) (persisting : bool) (W0 : world) : list proc_event -> world -> Prop :=
  | story_start : story r persisting W0 [] W0
  | story_wait evs W t :
      story r persisting W0 evs W -> w_time W <= t ->
      story r persisting W0 evs (mkWorld t (w_stores W) (w_settings W) (w_sessions W))
  | story_open evs W c :
      story r persisting W0 evs W ->
      story r persisting W0 (evs ++ [Opened c])
        (mkWorld (w_time W) (w_stores W) (w_settings W) (<[c := 0]> (w_sessions W)))
  | story_compact evs W : story r persisting W0 evs W -> story r persisting W0 (evs ++ [Compacted]) W
  | story_request evs W c idx args reply l t M :
      story r persisting W0 evs W -> w_sessions W !! c = Some idx ->
      machine_answers parseFloat formatFloat quote r persisting (w_time W)
        (mkMachine (w_stores W) idx (w_settings W)) args reply l t M ->
      story r persisting W0 (evs ++ [Asked c args reply])
        (mkWorld t (am_stores M) (am_settings M) (<[c := am_index M]> (w_sessions W))).

(** The requests of a run. *)
Definition asked (evs : list proc_event) : list (list bytes) :=
  omap (λ ev, match ev with Asked _ args _ | Died _ args => Some args | _ => None end) evs.

(** The compactions of a run, but for the last one, of [Serve] itself. *)
Definition compactions (evs : list proc_event) : Z :=
  len (omap (λ ev, match ev with Compacted => Some tt | _ => None end) evs).

(** The generation of the log, 0 without persistence. *)
Definition generation (s : Server) : Z := match sv_persist s with Some st => st_gen st | None => 0 end.

(** ** The way out *)

(** The steps that nothing but the scheduler holds back: the goroutine that waits
    for the signal shuts the server down; [Accept] on a closed listener fails; the
    reader of a connection whose deadline was tripped fails, so [serve] returns; a
    background loop sees that the context is done; a compaction goes on; and so on
    to the exit. No request, no timer and no client is needed for any of them. *)
Inductive winds (P : process) : process -> Prop :=
  | winds_shutdown :
      pr_stage P = Serving -> net_canceled (pr_net P) = true -> net_closing (pr_net P) = false ->
      winds P (with_net P (shutdown (pr_net P)))
  | winds_accept_fails :
      pr_stage P = Serving -> net_phase (pr_net P) = Accepting -> net_listener (pr_net P) = Some false ->
      winds P (with_net P (accept_failed (pr_net P)))
  | winds_close c :
      pr_stage P = Serving -> c ∈ net_conns (pr_net P) -> c ∈ net_tripped (pr_net P) ->
      winds P (with_net (with_server P (record_metric (pr_server P) ConnectionClosed)) (closeConn (pr_net P) c))
  | winds_done c :
      pr_stage P = Serving -> c ∈ net_wg (pr_net P) -> c ∉ net_conns (pr_net P) ->
      winds P (with_net P (set_wg (pr_net P) (net_wg (pr_net P) ∖ {[c]}) (net_loops (pr_net P))))
  | winds_loop_ends :
      pr_stage P = Serving -> net_canceled (pr_net P) = true -> (0 < net_loops (pr_net P))%nat ->
      winds P (with_net P (set_wg (pr_net P) (net_wg (pr_net P)) (net_loops (pr_net P) - 1)))
  | winds_install op ops :
      pr_stage P = Serving -> pr_install P = Some (op :: ops) ->
      winds P (with_install (with_server P (set_store (pr_server P)
        (disk_exec (sv_disk (pr_server P)) op) (sv_persist (pr_server P)))) (Some ops))
  | winds_installed :
      pr_stage P = Serving -> pr_install P = Some [] -> winds P (with_install P None)
  | winds_wait :
      pr_stage P = Serving -> net_phase (pr_net P) = Waiting -> net_wg (pr_net P) = ∅ ->
      net_loops (pr_net P) = 0%nat -> pr_install P = None ->
      winds P (with_net P (set_phase (pr_net P) Stopped))
  | winds_finish orders s err :
      pr_stage P = Serving -> net_phase (pr_net P) = Stopped ->
      Serve_finish orders (pr_server P) = Ret (s, err) -> winds P (with_stage (with_server P s) Saved)
  | winds_metrics_shutdown ep :
      pr_endpoint P = Some ep -> net_canceled (pr_net P) = true -> ep_closed ep = false ->
      winds P (stopMetrics P ep)
  | winds_metrics_returns ep :
      pr_endpoint P = Some ep -> ep_serving ep = true -> ep_closed ep = true ->
      winds P (runMetrics P ep)
  | winds_exit :
      pr_stage P = Saved -> endpoint_done (pr_endpoint P) = true -> winds P (with_stage P (Exited 0)).

Lemma winds_step (P P' : process) : winds P P' -> proc_step P None P'.
Proof. destruct 1; by econstructor. Qed.

(** ** Lemmas: the store *)

Context (fsync : bytes) (limits : Limits).

(** What the store has gone through, with the file operations [install] left. *)
Definition stored (install : option (list disk_op)) (s : Server) : Prop :=
  match sv_persist s with
  | None => install = None
  | Some _ => exists sys, sys_reachable fsync limits sys /\ on_disk s sys /\ fst <$> s_pending sys = install
  end.

Lemma stored_same (install : option (list disk_op)) (s s' : Server) :
  sv_disk s' = sv_disk s -> sv_persist s' = sv_persist s -> stored install s -> stored install s'.
Proof. unfold stored, on_disk. by intros -> ->. Qed.

Lemma stored_append (install : option (list disk_op)) (s s' : Server) (l : option logged) :
  stored install s -> (sv_disk s', sv_persist s') = append_to (sv_disk s) (sv_persist s) l ->
  (forall x, l = Some x -> logged_ok x) -> stored install s'.
Proof.
  intros Hst Hd Hl. destruct l as [[db args]|]; cycle 1.
  { unfold append_to in Hd. apply (stored_same _ s); [..|exact Hst]; destruct (sv_persist s); congruence. }
  unfold stored in *. destruct (sv_persist s) as [st|] eqn:Ep; [|injection Hd as _ ->; exact Hst].
  destruct Hst as (sys & Hre & [Hdk Hpr] & Hp). cbn [append_to] in Hd. rewrite Ep in Hpr. injection Hpr as ->.
  rewrite Hdk in Hd. pose proof (reach_append fsync limits (db, args) sys (Hl _ eq_refl) Hre) as Hre'.
  unfold sys_after_append in Hre'. cbn [fst snd] in Hre'.
  destruct (Append db args (s_disk sys) (s_store sys)) as [d' st'] eqn:Ea. injection Hd as Hd' Hp'. rewrite Hp'.
  eexists. split; [exact Hre'|]. split; [exact (conj Hd' Hp')|exact Hp].
Qed.

Lemma stored_flush (install : option (list disk_op)) (s : Server) : stored install s -> stored install (runAppendLogFlush s).
Proof.
  intros Hst. unfold runAppendLogFlush. destruct (sv_persist s) as [st|] eqn:Ep; [|exact Hst].
  destruct (bool_decide _); [exact Hst|]. unfold stored in *. rewrite Ep in Hst.
  destruct Hst as (sys & Hre & [Hdk Hpr] & Hp). rewrite Ep in Hpr. injection Hpr as ->.
  pose proof (reach_flush fsync limits sys Hre) as Hre'. unfold sys_after_flush in Hre'. rewrite Hdk.
  destruct (Flush (s_disk sys) (s_store sys)) as [d' st']. cbn [set_store sv_persist].
  eexists. split; [exact Hre'|]. split; [split; reflexivity|exact Hp].
Qed.

Lemma stored_capture (s : Server) (st : Store) (snap : bytes) orders (d' : Disk) (st' : Store) :
  stored None s -> sv_persist s = Some st -> NextGen st <= MaxInt64 ->
  capture orders s st = Ret (inl snap) -> Rotate (sv_disk s) st = (d', st') ->
  stored (Some (install_ops snap (NextGen st))) (set_store s d' (Some st')).
Proof.
  unfold stored. intros Hst Hp Hg Hc Hro. rewrite Hp in Hst. cbn [set_store sv_persist].
  destruct Hst as (sys & Hre & [Hdk Hpr] & Hpend). rewrite Hp in Hpr. injection Hpr as ->. rewrite Hdk in Hro.
  assert (exists body, snap = snapshot_bytes (NextGen (s_store sys)) body) as [body ->].
  { unfold capture, WriteSnapshot in Hc. destruct (write_records _ _ _) as [[bs|e]| |]; try done.
    injection Hc as <-. by exists bs. }
  assert (s_pending sys = None) as Hpn by (by destruct (s_pending sys)).
  pose proof (reach_capture fsync limits body sys Hg Hpn Hre) as Hre'. unfold sys_after_capture in Hre'.
  rewrite Hro in Hre'. eexists. split; [exact Hre'|]. split; [split; reflexivity|reflexivity].
Qed.

Lemma stored_install (s : Server) (op : disk_op) (ops : list disk_op) :
  stored (Some (op :: ops)) s -> stored (Some ops) (set_store s (disk_exec (sv_disk s) op) (sv_persist s)).
Proof.
  unfold stored. cbn [set_store sv_persist]. destruct (sv_persist s) as [st|] eqn:Hp; [|done].
  intros (sys & Hre & [Hdk Hpr] & Hpend). rewrite Hp in Hpr. injection Hpr as ->.
  destruct (s_pending sys) as [[ops' x]|] eqn:Hpn; [|done]. injection Hpend as ->.
  pose proof (reach_install fsync limits sys Hre) as Hre'. unfold sys_after_install in Hre'. rewrite Hpn in Hre'.
  eexists. split; [exact Hre'|]. split; [split; cbn; [by rewrite Hdk|reflexivity]|reflexivity].
Qed.

Lemma stored_installed (s : Server) : stored (Some []) s -> stored None s.
Proof.
  unfold stored. destruct (sv_persist s) as [st|] eqn:Hp; [|done].
  intros (sys & Hre & [Hdk Hpr] & Hpend).
  destruct (s_pending sys) as [[ops' x]|] eqn:Hpn; [|done]. injection Hpend as ->.
  pose proof (reach_install fsync limits sys Hre) as Hre'. unfold sys_after_install in Hre'. rewrite Hpn in Hre'.
  eexists. split; [exact Hre'|]. split; [split; [exact Hdk|exact Hpr]|reflexivity].
Qed.

(** ** Lemmas: the loops *)

(** What a step of the server alone keeps: time passes. *)
Definition rests (install : option (list disk_op)) (t : Time) (As : list astore) (s s' : Server) : Prop :=
  (exists t' : Time, t <= t' /\ sess maphash E (session s' 0) t' As) /\
  sv_settings s' = sv_settings s /\ sv_registry s' = sv_registry s /\
  bool_decide (is_Some (sv_persist s')) = bool_decide (is_Some (sv_persist s)) /\
  len (sv_databases s') = len (sv_databases s) /\ generation s' = generation s /\ stored install s'.

Lemma cycle_dbs_abs (seeds : nat -> nat -> list nat) (i : nat) (t now limit : Z) (dbs : list DB) (As : list astore) :
  Forall2 (λ db A, db_abs maphash db t A) dbs As -> t <= now ->
  Forall2 (λ db A, db_abs maphash db now A) (cycle_dbs seeds i now limit dbs).1.1 As.
Proof.
  intros HF Ht. revert i. induction HF as [|db A dbs As Hdb HF IH]; intros i; cbn [cycle_dbs]; [constructor|].
  pose proof Hdb as (m & [Hrep Hv] & HA).
  destruct (ExpireCycle_rep maphash (seeds i) db now t m limit Hrep Ht) as (db' & ex & ev & Hc & Hrep' & _).
  assert (all_values value_wf db') as Hv'.
  { eapply (db_step_values maphash value_wf (SExpireCycle (seeds i) now limit) db); [by destruct Hrep|done| |exact Hv].
    cbn [db_step]. rewrite Hc. reflexivity. }
  specialize (IH (S i)). rewrite Hc. destruct (cycle_dbs seeds (S i) now limit dbs) as [[dbs' exs] evs].
  cbn [fst] in *. constructor; [|exact IH]. exists (live now m). split; [exact (conj Hrep' Hv')|].
  intros k. by apply (entry_rel_live t).
Qed.

Lemma expire_rests (install : option (list disk_op)) (t : Time) (As : list astore) (seeds : nat -> nat -> list nat) (s : Server) :
  sess maphash E (session s 0) t As -> stored install s -> rests install t As s (expire_tick seeds s).
Proof.
  intros Hs Hst. unfold expire_tick, Runner_cycle. destruct (ExpirySample (sv_settings s) <=? 0).
  { split; [exists t; split; [lia|exact Hs]|]. split_and!; [reflexivity..|exact Hst]. }
  pose proof Hs as (HF & Hi & Ht & Hmono). cbn [session c_databases c_tick c_index] in *.
  pose proof (cycle_dbs_abs seeds 0 t (env_now E (sv_tick s)) (ExpirySample (sv_settings s)) _ As HF Ht) as HF'.
  assert (length (cycle_dbs seeds 0 (env_now E (sv_tick s)) (ExpirySample (sv_settings s)) (sv_databases s)).1.1
    = length (sv_databases s)) as Hlen by (by rewrite (Forall2_length _ _ _ HF'), (Forall2_length _ _ _ HF)).
  split; [exists (env_now E (sv_tick s)); split; [exact Ht|]; split_and!|].
  - exact HF'.
  - cbn. lia.
  - cbn. unfold len in *. cbn. rewrite Hlen. lia.
  - cbn. apply Hmono; lia.
  - cbn. intros i j Hij Hj. apply Hmono; lia.
  - split_and!; [reflexivity..|cbn; unfold len; by rewrite Hlen|reflexivity|]. by apply (stored_same _ s).
Qed.

Lemma background_rests (install : option (list disk_op)) (t : Time) (As : list astore) (s s' : Server) :
  sess maphash E (session s 0) t As -> stored install s -> background s s' -> rests install t As s s'.
Proof.
  intros Hs Hst [|seeds|].
  - pose proof (stored_flush install s Hst) as Hf. unfold runAppendLogFlush in *.
    destruct (sv_persist s) as [st|] eqn:Ep; [destruct (bool_decide _)|];
      try (split; [exists t; split; [lia|exact Hs]|]; split_and!; [reflexivity..|exact Hf]).
    cbn [Flush flushLocked] in *. split; [exists t; split; [lia|exact Hs]|].
    unfold generation. cbn [set_store sv_persist]. rewrite Ep. split_and!; [reflexivity..|exact Hf].
  - by apply expire_rests.
  - split; [exists t; split; [lia|exact Hs]|]. split_and!; [reflexivity..|exact Hst].
Qed.

Lemma rests_set_store (install : option (list disk_op)) (t : Time) (As : list astore) (s : Server) (d : Disk) (p : option Store) :
  sess maphash E (session s 0) t As -> st_gen <$> p = st_gen <$> sv_persist s ->
  stored install (set_store s d p) -> rests install t As s (set_store s d p).
Proof.
  intros Hs Hp Hst. split; [exists t; split; [lia|exact Hs]|]. unfold generation. cbn [set_store sv_persist].
  destruct p, (sv_persist s); try done; split_and!; try reflexivity; try exact Hst. by injection Hp.
Qed.

(** ** The invariant *)

Context (r : gmap bytes Command) (persisting : bool) (ndb : Z).
Context (Hpf : parses_f64 parseFloat).
Context (Hndb : ndb <= MaxInt64).

(** [Serve] has returned: nothing runs, and the stores are safe on the disk. *)
Definition saved (W : world) (P : process) : Prop :=
  net_phase (pr_net P) = Stopped /\
  (persisting = true -> Forall storable (sv_databases (pr_server P)) ->
    restorable (sv_disk (pr_server P)) (w_time W) (w_stores W)).

(** [n] bounds the sizes of the values, [g] the generation. *)
Record pinv (n g : Z) (W : world) (P : process) : Prop := mkPinv {
  iv_sess : sess maphash E (session (pr_server P) 0) (w_time W) (w_stores W);
  iv_bound : Forall (bounded n) (w_stores W);
  iv_settings : sv_settings (pr_server P) = w_settings W;
  iv_registry : sv_registry (pr_server P) = r;
  iv_persist : bool_decide (is_Some (sv_persist (pr_server P))) = persisting;
  iv_len : len (sv_databases (pr_server P)) = ndb;
  iv_sessions : pr_sessions P = w_sessions W;
  iv_selected : map_Forall (λ _ i, 0 <= i < ndb) (pr_sessions P);
  iv_net : net_inv (pr_net P);
  iv_stored : pr_stage P = Serving -> stored (pr_install P) (pr_server P);
  iv_gen : pr_stage P = Serving -> generation (pr_server P) <= g;
  iv_waited : net_phase (pr_net P) = Stopped -> pr_install P = None;
  iv_stage : match pr_stage P with
             | Serving => True
             | Saved => saved W P
             | Exited code => code = 0 /\ endpoint_done (pr_endpoint P) = true /\ saved W P
             end }.

Definition at_time (W : world) (t : Time) : world := mkWorld t (w_stores W) (w_settings W) (w_sessions W).

(** A step no client sees. *)
Lemma quiet_inv (n g : Z) (W : world) (P P' : process) :
  pinv n g W P -> pr_stage P = Serving -> pr_sessions P' = pr_sessions P -> pr_stage P' = Serving ->
  rests (pr_install P') (w_time W) (w_stores W) (pr_server P) (pr_server P') -> net_inv (pr_net P') ->
  (net_phase (pr_net P') = Stopped -> pr_install P' = None) ->
  exists t : Time, w_time W <= t /\ pinv n g (at_time W t) P'.
Proof.
  intros HI Hg0 Hse Hg ((t & Ht & Hs) & Hset & Hreg & Hper & Hlen & Hgen & Hst) Hn Hw. exists t. split; [exact Ht|].
  destruct HI. constructor; cbn [at_time w_time w_stores w_settings w_sessions]; rewrite ?Hse, ?Hg, ?Hgen;
    first [assumption|congruence|done|intros _; by apply iv_gen0].
Qed.

(** A step of the metrics endpoint. *)
Lemma endpoint_inv (n g : Z) (W : world) (P : process) (ep : endpoint) fs :
  pinv n g W P -> (endpoint_done (pr_endpoint P) = true -> ep_serving ep = false) -> pinv n g W (with_endpoint P ep fs).
Proof.
  intros [] He. constructor; cbn [with_endpoint pr_server pr_net pr_sessions pr_install pr_stage pr_endpoint]; try assumption.
  destruct (pr_stage P); [exact I|assumption|]. destruct iv_stage0 as (Hc & Hd & Hsv).
  split; [exact Hc|]. split; [cbn; by rewrite (He Hd)|exact Hsv].
Qed.

(** ** Lemmas: requests *)

Section Runs.
Context (Hr : NewRegistry maphash parseFloat formatFloat quote E = Some r).

Lemma answers_length t M args reply l t' M' :
  machine_answers parseFloat formatFloat quote r persisting t M args reply l t' M' ->
  length (am_stores M') = length (am_stores M).
Proof. destruct 1; [reflexivity| |reflexivity..]. apply length_insert. Qed.

Lemma answers_record t M args reply l t' M' :
  machine_answers parseFloat formatFloat quote r persisting t M args reply l t' M' ->
  l = None \/ exists now cm, l = record_of persisting (am_index M') now cm args reply.
Proof. destruct 1; [by left|right; by eexists _, _..]. Qed.

Lemma received_sizes args : received args -> Forall go_len args /\ len args * 24 <= 2 ^ 48.
Proof.
  intros (_ & input & rest & Hread). pose proof (ReadRequest_count _ _ _ Hread) as Hn.
  apply reads_ReadRequest in Hread as (k & _ & _ & _ & Hgo). split; [exact Hgo|unfold maxMultiBulkLen in Hn; lia].
Qed.

Lemma append_generation (s s' : Server) (l : option logged) :
  (sv_disk s', sv_persist s') = append_to (sv_disk s) (sv_persist s) l -> generation s' = generation s.
Proof.
  unfold generation, append_to, Append. destruct (sv_persist s) as [st|], l as [[db args]|]; try (intros [= _ ->]; reflexivity).
  destruct (foldl _ _ _) as [f buf]. case_bool_decide; intros [= _ ->]; reflexivity.
Qed.

(** The server answers a request of a connection as the machine does, and does
    not panic. *)
Lemma request_inv (n g : Z) (W : world) (P : process) (c : nat) (idx : Z) (args : list bytes) :
  pinv n g W P -> pr_stage P = Serving -> c ∈ net_conns (pr_net P) -> pr_sessions P !! c = Some idx ->
  received args -> allowed parseFloat formatFloat r args -> 0 <= n <= MaxInt64 ->
  exists reply s l t M,
    dispatch maphash E wreck (pr_server P) idx args = Ret (reply, am_index M, s) /\
    machine_answers parseFloat formatFloat quote r persisting (w_time W) (mkMachine (w_stores W) idx (w_settings W))
      args reply l t M /\
    pinv (n + weight args) g (mkWorld t (am_stores M) (am_settings M) (<[c := am_index M]> (w_sessions W)))
      (with_session (with_server P s) c (am_index M)).
Proof.
  intros HI Hg Hc Hidx Hsend Hal Hn. destruct (received_sizes args Hsend) as [Hgo Hlen].
  pose proof (iv_selected _ _ _ _ HI c idx Hidx) as Hi. cbn in Hi. pose proof (iv_len _ _ _ _ HI) as Hl.
  destruct (dispatch_answers maphash parseFloat formatFloat quote E wreck r persisting Hpf Hr (pr_server P) (w_time W)
    (mkMachine (w_stores W) idx (w_settings W)) args n) as (reply & l & s & t & M & Hd & Hans & (Hs & Hset & Hreg & Hper) & Hb & Hdisk).
  { split; [eapply sess_index; [exact (iv_sess _ _ _ _ HI)|cbn; lia]|].
    split; [exact (iv_settings _ _ _ _ HI)|]. split; [exact (iv_registry _ _ _ _ HI)|exact (iv_persist _ _ _ _ HI)]. }
  { exact (iv_bound _ _ _ _ HI). } { exact Hn. } { exact Hgo. } { exact Hal. }
  exists reply, s, l, t, M. split; [exact Hd|]. split; [exact Hans|].
  pose proof Hs as (HF & Hidx' & _). cbn [session c_databases c_index] in HF, Hidx'.
  pose proof (iv_sess _ _ _ _ HI) as (HF0 & _). cbn [session c_databases] in HF0.
  assert (len (sv_databases s) = ndb) as Hl'.
  { rewrite <- Hl. unfold len. rewrite (Forall2_length _ _ _ HF), (Forall2_length _ _ _ HF0).
    by rewrite (answers_length _ _ _ _ _ _ _ Hans). }
  assert (stored (pr_install P) s) as Hst.
  { eapply stored_append; [exact (iv_stored _ _ _ _ HI Hg)|exact Hdisk|]. intros x ->.
    destruct (answers_record _ _ _ _ _ _ _ Hans) as [?|(now & cm & Hx)]; [discriminate|].
    eapply record_logged_ok; [|exact Hgo|exact Hlen|symmetry; exact Hx]. lia. }
  destruct HI. clear Hr. constructor; cbn [with_session with_server pr_server pr_net pr_sessions pr_install pr_stage w_time w_stores w_settings w_sessions];
    try assumption.
  - by eapply sess_zero.
  - by rewrite iv_sessions0.
  - apply map_Forall_insert_2; [lia|assumption].
  - intros _. exact Hst.
  - intros _. rewrite (append_generation _ _ _ Hdisk). by apply iv_gen0.
  - by rewrite Hg.
Qed.

Lemma finish_inv (n g : Z) (W : world) (P : process) orders :
  pinv n g W P -> pr_stage P = Serving -> net_phase (pr_net P) = Stopped -> n <= MaxInt64 -> g < MaxInt64 ->
  exists s, Serve_finish orders (pr_server P) = Ret (s, None) /\ pinv n g W (with_stage (with_server P s) Saved).
Proof.
  intros HI Hg Hph Hn Hgm. pose proof (iv_stored _ _ _ _ HI Hg) as Hst. pose proof (iv_gen _ _ _ _ HI Hg) as Hgen.
  rewrite (iv_waited _ _ _ _ HI Hph) in Hst. unfold stored in Hst. unfold generation in Hgen.
  destruct (sv_persist (pr_server P)) as [st|] eqn:Ep; cycle 1.
  { exists (pr_server P). unfold Serve_finish. rewrite Ep. split; [reflexivity|]. pose proof (iv_persist _ _ _ _ HI) as Hper.
    rewrite Ep in Hper. destruct HI. constructor; try assumption; [discriminate..|].
    split; [exact Hph|]. intros H. rewrite <- Hper in H. discriminate H. }
  destruct Hst as (sys & Hre & Hon & Hp). pose proof (iv_sess _ _ _ _ HI) as (HF & Hi & _).
  destruct (clean_shutdown maphash orders fsync limits (pr_server P) sys (w_time W) (w_stores W)) as (sys' & Hfin & _ & Hres).
  { exact Hre. } { exact Hon. } { by destruct (s_pending sys). }
  { destruct Hon as [_ Hon]. rewrite Ep in Hon. injection Hon as ->. unfold NextGen. lia. }
  { rewrite (iv_len _ _ _ _ HI). exact Hndb. } { exact HF. }
  { eapply Forall_impl; [exact (iv_bound _ _ _ _ HI)|]. intros A HA. apply bounded_small. by eapply bounded_mono. }
  { intros Hnil. rewrite Hnil in HF. apply Forall2_nil_inv_r in HF. rewrite HF in Hi. cbn in Hi. unfold len in Hi. cbn in Hi. lia. }
  exists (with_sys (pr_server P) sys'). split; [exact Hfin|]. pose proof (iv_persist _ _ _ _ HI) as Hper.
  destruct HI. constructor; try assumption; [by rewrite Ep in Hper|discriminate..|].
  split; [exact Hph|]. intros _. exact Hres.
Qed.

(** ** Lemmas: runs *)

(** A step with its story: the world after it, and the invariant there. *)
Definition told (n g : Z) (W0 : world) (evs : list proc_event) (ev : option proc_event) (P' : process) : Prop :=
  exists W', story r persisting W0 (evs ++ option_list ev) W' /\
    pinv (n + weights (asked (option_list ev))) (g + compactions (option_list ev)) W' P'.

Lemma told_quiet (n g : Z) (W0 W : world) (evs : list proc_event) (P' : process) :
  story r persisting W0 evs W -> (exists t : Time, w_time W <= t /\ pinv n g (at_time W t) P') -> told n g W0 evs None P'.
Proof.
  intros Hst (t & Ht & HI). exists (at_time W t). cbn [option_list]. rewrite app_nil_r, !Z.add_0_r.
  split; [by apply story_wait|exact HI].
Qed.

Lemma told_still (n g : Z) (W0 W : world) (evs : list proc_event) (P' : process) :
  story r persisting W0 evs W -> pinv n g W P' -> told n g W0 evs None P'.
Proof.
  intros Hst HI. exists W. cbn [option_list]. rewrite app_nil_r, !Z.add_0_r. split; [exact Hst|exact HI].
Qed.

Section Step.
Context (n g : Z) (W0 W : world) (evs : list proc_event) (P : process).
Context (Hst : story r persisting W0 evs W) (HI : pinv n g W P).

(** Steps that leave the server's state, but for its metrics, as it is. *)
Lemma net_told (P' : process) :
  pr_stage P = Serving -> pr_stage P' = Serving -> pr_sessions P' = pr_sessions P -> pr_install P' = pr_install P ->
  pr_server P' = pr_server P \/ (exists m, pr_server P' = record_metric (pr_server P) m) ->
  net_step (pr_net P) (pr_net P') -> (net_phase (pr_net P') = Stopped -> pr_install P' = None) ->
  told n g W0 evs None P'.
Proof.
  intros Hg Hg' Hse Hins Hsv Hnet Hwt. pose proof (iv_stored _ _ _ _ HI Hg) as Hsto. eapply told_quiet; [exact Hst|].
  eapply quiet_inv; [exact HI|exact Hg|exact Hse|exact Hg'| | |exact Hwt].
  2: { eapply net_step_inv; [exact Hnet|exact (iv_net _ _ _ _ HI)]. }
  rewrite Hins. destruct Hsv as [->|[m ->]]; (split; [exists (w_time W); split; [lia|exact (iv_sess _ _ _ _ HI)]|]);
    (split_and!; [reflexivity..|exact Hsto]).
Qed.

Lemma accept_told (c : nat) :
  pr_stage P = Serving -> net_phase (pr_net P) = Accepting -> c ∉ net_wg (pr_net P) ->
  told n g W0 evs (accept_conn P c).1 (accept_conn P c).2.
Proof.
  intros Hg Hph Hc. pose proof (net_accept (pr_net P) c Hph Hc) as Hnet. unfold accept_conn.
  assert (net_phase (startConn (pr_net P) c) = Accepting) as Hph' by (unfold startConn; by destruct (net_closing (pr_net P))).
  case_bool_decide as Hin; cbn [fst snd]; cycle 1.
  { apply net_told; [exact Hg|exact Hg|reflexivity..|by left|exact Hnet|]. cbn. rewrite Hph'. discriminate. }
  exists (mkWorld (w_time W) (w_stores W) (w_settings W) (<[c := 0]> (w_sessions W))).
  split; [by apply story_open|]. change (asked _) with (@nil (list bytes)). change (weights []) with 0.
  change (compactions _) with 0. rewrite !Z.add_0_r.
  pose proof (net_step_inv _ _ Hnet (iv_net _ _ _ _ HI)) as Hni.
  pose proof (iv_sess _ _ _ _ HI) as (_ & Hi & _). pose proof (iv_len _ _ _ _ HI) as Hlen. cbn in Hi. clear Hr.
  destruct HI. constructor; cbn [with_session with_net with_server record_metric sv_settings sv_registry sv_persist sv_databases
    pr_server pr_net pr_sessions pr_install pr_stage w_time w_stores w_settings w_sessions]; try assumption.
  - by rewrite iv_sessions0.
  - apply map_Forall_insert_2; [lia|assumption].
  - rewrite Hph'. discriminate.
  - by rewrite Hg.
Qed.

Lemma store_told (d : Disk) (p : option Store) (install : option (list disk_op)) :
  pr_stage P = Serving -> (net_phase (pr_net P) = Stopped -> install = None) ->
  st_gen <$> p = st_gen <$> sv_persist (pr_server P) -> stored install (set_store (pr_server P) d p) ->
  told n g W0 evs None (with_install (with_server P (set_store (pr_server P) d p)) install).
Proof.
  intros Hg Hwt Hp Hsto. eapply told_quiet; [exact Hst|].
  eapply quiet_inv; [exact HI|exact Hg|reflexivity|exact Hg| |exact (iv_net _ _ _ _ HI)|exact Hwt].
  apply rests_set_store; [exact (iv_sess _ _ _ _ HI)|exact Hp|exact Hsto].
Qed.

Lemma capture_told orders (st : Store) (snap : bytes) (d' : Disk) (st' : Store) :
  pr_stage P = Serving -> (0 < net_loops (pr_net P))%nat -> pr_install P = None -> sv_persist (pr_server P) = Some st ->
  g < MaxInt64 -> capture orders (pr_server P) st = Ret (inl snap) -> Rotate (sv_disk (pr_server P)) st = (d', st') ->
  told n g W0 evs (Some Compacted) (with_install (with_server P (set_store (pr_server P) d' (Some st')))
    (Some (install_ops snap (NextGen st)))).
Proof.
  intros Hg Hl Hin Hp Hgm Hcap Hro. exists W. split; [by apply story_compact|]. change (asked _) with (@nil (list bytes)).
  change (weights []) with 0. change (compactions _) with 1. rewrite Z.add_0_r.
  pose proof (iv_stored _ _ _ _ HI Hg) as Hsto. pose proof (iv_gen _ _ _ _ HI Hg) as Hgen. unfold generation in Hgen.
  rewrite Hp in Hgen. rewrite Hin in Hsto.
  assert (st_gen st' = st_gen st + 1) as Hgs.
  { unfold Rotate, openSegment in Hro. injection Hro as _ <-. reflexivity. }
  pose proof (stored_capture _ st snap orders d' st' Hsto Hp ltac:(unfold NextGen; lia) Hcap Hro) as Hsto'. clear Hr.
  destruct HI. constructor; cbn [with_install with_server set_store sv_settings sv_registry sv_persist sv_databases
    pr_server pr_net pr_sessions pr_install pr_stage]; try assumption.
  - rewrite <- iv_persist0, Hp. reflexivity.
  - intros _. exact Hsto'.
  - intros _. unfold generation. cbn [set_store sv_persist]. lia.
  - intros Hph. destruct iv_net0 as (_ & _ & _ & _ & Hs). destruct (Hs Hph) as [_ Hz]. rewrite Hz in Hl. inversion Hl.
  - by rewrite Hg.
Qed.

Lemma request_told (c : nat) (idx : Z) (args : list bytes) (reply : Reply) (idx' : Z) (s : Server) :
  0 <= n <= MaxInt64 -> pr_stage P = Serving -> c ∈ net_conns (pr_net P) -> pr_sessions P !! c = Some idx ->
  received args -> allowed parseFloat formatFloat r args ->
  dispatch maphash E wreck (pr_server P) idx args = Ret (reply, idx', s) ->
  told n g W0 evs (Some (Asked c args reply)) (with_session (with_server P s) c idx').
Proof.
  intros Hn Hg Hc Hidx Hsend Hal Hd.
  destruct (request_inv n g W P c idx args HI Hg Hc Hidx Hsend Hal Hn) as (reply' & s' & l & t & M & Hd' & Hans & HI').
  rewrite Hd in Hd'. injection Hd' as -> -> ->. clear Hr Hd.
  exists (mkWorld t (am_stores M) (am_settings M) (<[c := am_index M]> (w_sessions W))). split.
  - eapply story_request; [exact Hst| |exact Hans]. rewrite <- (iv_sessions _ _ _ _ HI). exact Hidx.
  - change (asked _) with [args]. change (compactions _) with 0. unfold weights. cbn [foldr]. rewrite !Z.add_0_r. exact HI'.
Qed.

(** No capture of the databases fails or panics. *)
Lemma capture_never orders (st : Store) : exists snap, capture orders (pr_server P) st = Ret (inl snap).
Proof.
  pose proof (iv_sess _ _ _ _ HI) as (HF & _).
  destruct (capture_total maphash orders (pr_server P) st (w_time W) (w_stores W) HF) as [body ->]. by eexists.
Qed.

Lemma proc_step_told (ev : option proc_event) (P' : process) :
  0 <= n <= MaxInt64 -> g + compactions (option_list ev) < MaxInt64 ->
  Forall (allowed parseFloat formatFloat r) (asked (option_list ev)) -> proc_step P ev P' -> told n g W0 evs ev P'.
Proof.
  intros Hn Hgm Hal Hstep. pose proof (iv_stored _ _ _ _ HI) as Hsto. pose proof (iv_net _ _ _ _ HI) as Hni.
  pose proof (iv_waited _ _ _ _ HI) as Hwt.
  destruct Hstep as [c Hg Hph Hc|Hg Hph|Hg|Hg Hcan|c Hg Hc|c Hg Hc Hc'|Hg Hcan Hl|Hg Hph Hwg Hl Hin|
    c idx args reply idx' s Hg Hc Hidx Hrec Hd|c idx args p Hg Hc Hidx Hrec Hd|s Hg Hl Hbg|
    orders st snap d' st' Hg Hl Hin Hce Hp Hcap Hro|orders st e d' st' Hg Hl Hin Hce Hp Hcap Hro|
    orders st p Hg Hl Hin Hce Hp Hcap|op ops Hg Hin|Hg Hin|orders s err Hg Hph Hfin|orders p Hg Hph Hfin|
    ep He Hcan|ep He Hserv|Hg He].
  - by apply accept_told.
  - apply net_told; [exact Hg|exact Hg|reflexivity..|by left|by apply net_accept_fails|].
    cbn. unfold accept_failed. destruct (isClosing _); cbn; [discriminate|by rewrite Hph].
  - apply net_told; [exact Hg|exact Hg|reflexivity..|by left|apply net_cancel|exact Hwt].
  - apply net_told; [exact Hg|exact Hg|reflexivity..|by left|by apply net_shutdown|].
    cbn. unfold shutdown. by destruct (net_closing (pr_net P)).
  - apply net_told; [exact Hg|exact Hg|reflexivity..|right; by eexists|by apply net_close|exact Hwt].
  - apply net_told; [exact Hg|exact Hg|reflexivity..|by left|by apply net_done|exact Hwt].
  - apply net_told; [exact Hg|exact Hg|reflexivity..|by left|by apply net_loop_ends|exact Hwt].
  - apply net_told; [exact Hg|exact Hg|reflexivity..|by left|by apply net_wait|by intros _].
  - change (asked _) with [args] in Hal. apply Forall_cons in Hal as [Hal _].
    exact (request_told c idx args reply idx' s Hn Hg Hc Hidx Hrec Hal Hd).
  - change (asked _) with [args] in Hal. apply Forall_cons in Hal as [Hal _].
    destruct (request_inv n g W P c idx args HI Hg Hc Hidx Hrec Hal Hn) as (? & ? & ? & ? & ? & Hd' & _).
    rewrite Hd in Hd'. discriminate Hd'.
  - eapply told_quiet; [exact Hst|]. eapply quiet_inv; [exact HI|exact Hg|reflexivity|exact Hg| |exact Hni|exact Hwt].
    eapply background_rests; [exact (iv_sess _ _ _ _ HI)|exact (Hsto Hg)|exact Hbg].
  - eapply capture_told; [exact Hg|exact Hl|exact Hin|exact Hp| |exact Hcap|exact Hro].
    change (compactions _) with 1 in Hgm. lia.
  - destruct (capture_never orders st) as [snap Hs]. rewrite Hcap in Hs. discriminate Hs.
  - destruct (capture_never orders st) as [snap Hs]. rewrite Hcap in Hs. discriminate Hs.
  - rewrite Hin in Hsto, Hwt. apply store_told; [exact Hg|intros H; discriminate (Hwt H)|reflexivity|].
    apply stored_install. exact (Hsto Hg).
  - rewrite Hin in Hsto. eapply told_quiet; [exact Hst|].
    eapply quiet_inv; [exact HI|exact Hg|reflexivity|exact Hg| |exact Hni|reflexivity].
    split; [exists (w_time W); split; [lia|exact (iv_sess _ _ _ _ HI)]|].
    split_and!; [reflexivity..|exact (stored_installed _ (Hsto Hg))].
  - change (compactions _) with 0 in Hgm.
    destruct (finish_inv n g W P orders HI Hg Hph (proj2 Hn) ltac:(lia)) as (s' & Hfin' & HI').
    rewrite Hfin in Hfin'. injection Hfin' as -> _. by eapply told_still.
  - change (compactions _) with 0 in Hgm.
    destruct (finish_inv n g W P orders HI Hg Hph (proj2 Hn) ltac:(lia)) as (s' & Hfin' & _).
    rewrite Hfin in Hfin'. discriminate Hfin'.
  - eapply told_still; [exact Hst|]. apply endpoint_inv; [exact HI|]. rewrite He. cbn. apply negb_true_iff.
  - eapply told_still; [exact Hst|]. by apply endpoint_inv.
  - eapply told_still; [exact Hst|]. destruct HI. constructor; try assumption; [discriminate..|].
    cbn [with_stage pr_stage pr_endpoint]. rewrite Hg in iv_stage0.
    split; [reflexivity|]. split; [exact He|exact iv_stage0].
Qed.
End Step.

Lemma weights_app reqs reqs' : weights (reqs ++ reqs') = weights reqs + weights reqs'.
Proof. induction reqs as [|a reqs IH]; [done|]. cbn. unfold weights in IH. rewrite IH. unfold weights. lia. Qed.

Lemma asked_app evs evs' : asked (evs ++ evs') = asked evs ++ asked evs'.
Proof. apply omap_app. Qed.

Lemma compactions_app evs evs' : compactions (evs ++ evs') = compactions evs + compactions evs'.
Proof. unfold compactions. by rewrite omap_app, len_app. Qed.

Lemma proc_run_told (n g : Z) (W0 : world) (P0 P : process) (evs : list proc_event) :
  pinv n g W0 P0 -> 0 <= n -> proc_run P0 evs P -> n + weights (asked evs) <= MaxInt64 ->
  g + compactions evs < MaxInt64 -> Forall (allowed parseFloat formatFloat r) (asked evs) ->
  exists W, story r persisting W0 evs W /\ pinv (n + weights (asked evs)) (g + compactions evs) W P.
Proof.
  intros H0 Hn Hrun. induction Hrun as [|evs P ev P' Hrun IH Hstep]; intros Hw Hc Hal.
  { exists W0. rewrite !Z.add_0_r. split; [constructor|exact H0]. }
  rewrite asked_app, weights_app in Hw. rewrite compactions_app in Hc. rewrite asked_app, Forall_app in Hal.
  pose proof (weights_nonneg (asked (option_list ev))). pose proof (weights_nonneg (asked evs)).
  assert (0 <= compactions (option_list ev)) by apply len_nonneg.
  destruct (IH ltac:(lia) ltac:(lia) (proj1 Hal)) as (W & Hst & HI).
  destruct (proc_step_told (n + weights (asked evs)) (g + compactions evs) W0 W evs P Hst HI ev P') as (W' & Hst' & HI');
    [lia|lia|exact (proj2 Hal)|exact Hstep|].
  exists W'. split; [exact Hst'|]. rewrite asked_app, weights_app, compactions_app, !Z.add_assoc. exact HI'.
Qed.
End Runs.

(** ** Lemmas: coming to an end *)

Lemma run_step (P0 P P' : process) (evs : list proc_event) :
  proc_run P0 evs P -> proc_step P None P' -> proc_run P0 evs P'.
Proof. intros Hrun Hs. rewrite <- (app_nil_r evs). exact (run_next _ evs P None P' Hrun Hs). Qed.

Lemma run_winds (P0 P P' : process) (evs : list proc_event) :
  proc_run P0 evs P -> rtc winds P P' -> proc_run P0 evs P'.
Proof. intros Hrun Hw. induction Hw as [P|P P1 P' Hs _ IH]; [exact Hrun|]. apply IH. by eapply run_step, winds_step. Qed.

(** How much of the way out is left. *)
Definition to_wind (P : process) : nat :=
  ((if net_closing (pr_net P) then 0 else 1) +
   match net_phase (pr_net P) with Accepting => 2 | Waiting => 1 | Stopped => 0 end +
   pending (pr_net P) +
   match pr_install P with Some ops => S (length ops) | None => 0 end +
   match pr_stage P with Serving => 2 | Saved => 1 | Exited _ => 0 end +
   match pr_endpoint P with
   | Some ep => (if ep_closed ep then 0 else 1) + (if ep_serving ep then 1 else 0)
   | None => 0
   end)%nat.

Lemma winds_nearer (P P' : process) : net_inv (pr_net P) -> winds P P' -> (to_wind P' < to_wind P)%nat.
Proof.
  intros (_ & Hl & _) Hw. unfold to_wind.
  destruct Hw as [Hg Hcan Hcl|Hg Hph Hlis|c Hg Hc Ht|c Hg Hc Hc'|Hg Hcan Hlo|op ops Hg Hin|Hg Hin|Hg Hph Hwg Hlo Hin|
    orders s err Hg Hph Hfin|ep He Hcan Hcl|ep He Hs Hcl|Hg He];
    cbn [with_net with_server with_install with_stage stopMetrics runMetrics with_endpoint pr_net pr_install pr_stage
      pr_endpoint pr_server length].
  - unfold shutdown, pending. rewrite Hcl. cbn. lia.
  - rewrite Hl in Hlis. injection Hlis as Hcl%negb_false_iff. unfold accept_failed, isClosing, pending.
    rewrite Hcl, Hph. cbn. rewrite Hcl. lia.
  - unfold pending, closeConn. cbn. pose proof (size_remove _ _ Hc). lia.
  - unfold pending, set_wg. cbn. pose proof (size_remove _ _ Hc). lia.
  - unfold pending, set_wg. cbn. lia.
  - rewrite Hin. cbn [length]. lia.
  - rewrite Hin. cbn [length]. lia.
  - unfold pending, set_phase. rewrite Hph. cbn. lia.
  - rewrite Hg. lia.
  - rewrite He. cbn. rewrite Hcl. lia.
  - rewrite He. cbn. rewrite Hs, Hcl. lia.
  - rewrite Hg. lia.
Qed.

(** What the way out keeps. *)
Lemma winds_keeps (P P' : process) :
  winds P P' -> net_canceled (pr_net P') = net_canceled (pr_net P) /\
    sv_databases (pr_server P') = sv_databases (pr_server P).
Proof.
  destruct 1 as [| | | | | | | |orders s err Hg Hph Hfin| | |]; try (split; reflexivity).
  - split; [|reflexivity]. cbn. unfold shutdown. by destruct (net_closing (pr_net P)).
  - split; [|reflexivity]. cbn. unfold accept_failed. by destruct (isClosing (pr_net P)).
  - split; [reflexivity|]. cbn [with_stage with_server pr_server]. revert Hfin. generalize (pr_server P) as s0. intros s0.
    unfold Serve_finish, finalizePersistence, compact. destruct (sv_persist s0) as [st|]; [|by intros [= <- _]].
    cbn [Flush flushLocked set_store sv_persist]. destruct (capture _ _ _) as [[snap|e]| |]; try discriminate; cbn.
    all: try by intros [= <- _].
Qed.

Lemma winds_keep (P P' : process) :
  rtc winds P P' -> net_canceled (pr_net P') = net_canceled (pr_net P) /\
    sv_databases (pr_server P') = sv_databases (pr_server P).
Proof.
  induction 1 as [P|P P1 P' Hs _ [IH1 IH2]]; [done|]. destruct (winds_keeps P P1 Hs) as [H1 H2]. by rewrite IH1, IH2.
Qed.

(** After the signal some step of the way out is always left, up to the exit. *)
Lemma winds_on (n g : Z) (W : world) (P : process) :
  pinv n g W P -> n <= MaxInt64 -> g < MaxInt64 -> net_canceled (pr_net P) = true ->
  pr_stage P = Exited 0 \/ exists P', winds P P'.
Proof.
  intros HI Hn Hgm Hcan. pose proof (iv_net _ _ _ _ HI) as (Hw & Hl & Hc & _ & _).
  pose proof (iv_stage _ _ _ _ HI) as Hstage. destruct (pr_stage P) eqn:Hg; [right|right|left; by destruct Hstage as [-> _]].
  - destruct (net_closing (pr_net P)) eqn:Hcl; [|by eexists; apply winds_shutdown].
    destruct (Hc eq_refl) as [_ Ht]. destruct (net_phase (pr_net P)) eqn:Hph.
    + eexists. by apply winds_accept_fails.
    + destruct (set_choose_or_empty (net_conns (pr_net P))) as [[c Hin]|Hco%leibniz_equiv].
      { eexists. apply (winds_close _ c); [exact Hg|exact Hin|by apply Ht]. }
      destruct (set_choose_or_empty (net_wg (pr_net P))) as [[c Hin]|Hwg%leibniz_equiv].
      { eexists. apply (winds_done _ c); [exact Hg|exact Hin|]. rewrite Hco. apply not_elem_of_empty. }
      destruct (net_loops (pr_net P)) as [|l] eqn:Hlo; [|eexists; apply winds_loop_ends; [exact Hg|exact Hcan|lia]].
      destruct (pr_install P) as [[|op ops]|] eqn:Hin; [by eexists; apply winds_installed|by eexists; apply winds_install|].
      eexists. by apply winds_wait.
    + destruct (finish_inv n g W P (λ _ _, [], λ _, []) HI Hg Hph Hn Hgm) as (s & Hfin & _).
      eexists. by eapply winds_finish.
  - destruct (endpoint_done (pr_endpoint P)) eqn:He; [eexists; by apply winds_exit|].
    destruct (pr_endpoint P) as [ep|] eqn:Hep; [|done]. apply negb_false_iff in He.
    destruct (ep_closed ep) eqn:Hcl; eexists; [by apply (winds_metrics_returns _ ep)|by apply (winds_metrics_shutdown _ ep)].
Qed.
End Process.

(** ** Properties *)

(** The number of elements of a collection. *)
Definition collection_length (v : Value) : option Z :=
  match v with
  | VList l => Some (List_Len l)
  | VHash h => Some (Hash_Len h)
  | VSet s => Some (Set_Len s)
  | VZSet z => Some (ZSet_Len z)
  | _ => None
  end.

Lemma inhabited_length (v : Value) (a : avalue) : value_rep v a -> inhabited_value a -> collection_length v <> Some 0.
Proof.
  intros Hv Ha Hl. destruct v as [|b|l|h|X|z], a as [b'|es|m|Y|m]; try done; cbn in Hl, Ha; injection Hl as Hl;
    destruct Hv as [Hv _].
  - rewrite (List_Len_spec l es Hv) in Hl. by destruct es.
  - rewrite (Hash_Len_spec h m Hv) in Hl. destruct Ha. apply map_size_empty_inv. lia.
  - rewrite (Set_Len_spec X Y Hv) in Hl. destruct Ha. apply leibniz_equiv, size_empty_inv. lia.
  - rewrite (ZSet_Len_spec z m Hv) in Hl. destruct Ha. apply map_size_empty_inv. lia.
Qed.

Section Properties.
Context (maphash : bytes -> Z) (parseFloat : bytes -> option float64)
  (formatFloat : float64 -> bytes) (quote : bytes -> bytes) (E : Env).
Context (wreck : Command -> list bytes -> CmdContext -> CmdContext).
Context (fsync : bytes) (limits : Limits).

(** A server that [Run] has brought to its accept loop: its databases hold [As]
    at [t], with sizes of at most [k], and its directory has been used by nothing
    but the store. *)
Definition ready (s : Server) (t : Time) (As : list astore) (k : Z) (n0 : Net) : Prop :=
  NewRegistry maphash parseFloat formatFloat quote E = Some (sv_registry s) /\
  sess maphash E (session s 0) t As /\ Forall (bounded k) As /\ 0 <= k /\ len (sv_databases s) <= MaxInt64 /\
  stored fsync limits None s /\ Serve_start (bool_decide (is_Some (sv_persist s))) (Listen new_net) = Some n0.

(** What the machine the server runs on can hold: the count of an LPOP or an RPOP
    stays within the address space, what the requests carry within the length of a
    Go slice, and the generations of the log within an [int]. *)
Definition within_machine (s : Server) (k : Z) (evs : list proc_event) : Prop :=
  Forall (allowed parseFloat formatFloat (sv_registry s)) (asked evs) /\
  k + weights (asked evs) <= MaxInt64 /\ generation s + compactions evs < MaxInt64.

Abbreviation prun := (proc_run maphash E wreck).
Abbreviation pstep := (proc_step maphash E wreck).
Abbreviation inv := (pinv maphash E fsync limits).

Lemma run_told (s : Server) (t : Time) (As : list astore) (k : Z) (n0 : Net) (ep : option endpoint)
    (evs : list proc_event) (P : process) :
  parses_f64 parseFloat -> ready s t As k n0 -> prun (started s n0 ep) evs P -> within_machine s k evs ->
  exists W, story parseFloat formatFloat quote (sv_registry s) (bool_decide (is_Some (sv_persist s)))
      (mkWorld t As (sv_settings s) ∅) evs W /\
    inv (sv_registry s) (bool_decide (is_Some (sv_persist s))) (len (sv_databases s)) (k + weights (asked evs))
      (generation s + compactions evs) W P.
Proof.
  intros Hpf (Hr & Hs & Hb & Hk & Hlen & Hst & Hn) Hrun (Hal & Hw & Hgm).
  eapply proc_run_told; [exact Hpf|exact Hlen|exact Hr| |exact Hk|exact Hrun|exact Hw|exact Hgm|exact Hal]. clear Hr Hal.
  constructor; cbn [started pr_server pr_net pr_sessions pr_install pr_stage w_time w_stores w_settings w_sessions];
    first [reflexivity|assumption|apply map_Forall_empty|by eapply net_start_inv|done|intros _; assumption|intros _; lia].
Qed.

(** A connection's next request is answered. *)
Lemma run_request (s : Server) (t : Time) (As : list astore) (k : Z) (n0 : Net) (ep : option endpoint)
    (evs : list proc_event) (P : process) (c : nat) (args : list bytes) :
  parses_f64 parseFloat -> ready s t As k n0 -> prun (started s n0 ep) evs P -> within_machine s k evs ->
  pr_stage P = Serving -> c ∈ net_conns (pr_net P) -> is_Some (pr_sessions P !! c) -> received args ->
  allowed parseFloat formatFloat (sv_registry s) args ->
  exists reply P', prun (started s n0 ep) (evs ++ [Asked c args reply]) P' /\
    pr_stage P' = Serving /\ c ∈ net_conns (pr_net P') /\ is_Some (pr_sessions P' !! c).
Proof.
  intros Hpf Hready Hrun Hw Hg Hc [idx Hidx] Hrec Hal.
  destruct (run_told s t As k n0 ep evs P Hpf Hready Hrun Hw) as (W & _ & HI).
  destruct Hready as (Hr & _ & _ & Hk & Hlen & _). destruct Hw as (_ & Hw & _). pose proof (weights_nonneg (asked evs)).
  eapply request_inv in HI as (reply & s' & l & t' & M & Hd & _);
    [|exact Hpf|exact Hlen|exact Hr|exact Hg|exact Hc|exact Hidx|exact Hrec|exact Hal|lia]. clear Hr.
  exists reply, (with_session (with_server P s') c (am_index M)). split; [|split; [exact Hg|split; [exact Hc|]]].
  - apply (run_next _ _ _ _ evs P (Some (Asked c args reply))); [exact Hrun|by eapply proc_request].
  - cbn. rewrite lookup_insert_eq. by eexists.
Qed.

(** C2. What the clients were told is safe when the process has exited. Take any
    run of the process: connections opened and closed, requests of any commands
    from any of them, ticks of the background loops, compactions with their file
    operations in between, the signal, the drain, the end of the metrics endpoint.
    The replies and the stores are those of one machine that runs the requests by
    their meaning in the order they ran, each on the database its connection had
    selected; and if the process has exited, it has with status 0 (no request and
    no snapshot has ended it with a panic), and no connection, background loop or
    endpoint is left. If moreover the databases then fit the format of a snapshot
    ([storable]: every stored deadline is in the range of nanoseconds in an int64
    and is not the Unix epoch, every size is an int), then with persistence, under
    any fsync policy, the stores can be restored from the data directory as they
    were when the last request was answered, also after a power loss. Without that
    condition the restart can lose or revive keys: [Restart.snapshot_deadline].
    The run stays within the machine ([within_machine]) and starts from a server
    whose directory only the store has written ([ready]); the disk does not fail. *)
Theorem process_saves (s : Server) (t : Time) (As : list astore) (k : Z) (n0 : Net) (ep : option endpoint)
    (evs : list proc_event) (P : process) :
  parses_f64 parseFloat -> ready s t As k n0 -> prun (started s n0 ep) evs P -> within_machine s k evs ->
  exists W, story parseFloat formatFloat quote (sv_registry s) (bool_decide (is_Some (sv_persist s)))
      (mkWorld t As (sv_settings s) ∅) evs W /\
    sess maphash E (session (pr_server P) 0) (w_time W) (w_stores W) /\
    forall status, pr_stage P = Exited status ->
      status = 0 /\ net_conns (pr_net P) = ∅ /\ net_wg (pr_net P) = ∅ /\ net_loops (pr_net P) = 0%nat /\
      endpoint_done (pr_endpoint P) = true /\
      (is_Some (sv_persist s) -> Forall storable (sv_databases (pr_server P)) ->
        restorable (sv_disk (pr_server P)) (w_time W) (w_stores W)).
Proof.
  intros Hpf Hready Hrun Hw. destruct (run_told s t As k n0 ep evs P Hpf Hready Hrun Hw) as (W & Hst & HI).
  clear Hready. exists W. split; [exact Hst|]. split; [exact (iv_sess _ _ _ _ _ _ _ _ _ _ _ HI)|].
  intros status Hg. pose proof (iv_stage _ _ _ _ _ _ _ _ _ _ _ HI) as Hstage. rewrite Hg in Hstage.
  destruct Hstage as (-> & He & Hph & Hres).
  destruct (stopped_drained _ (iv_net _ _ _ _ _ _ _ _ _ _ _ HI) Hph) as (Hc & Hwg & Hl).
  split_and!; [reflexivity|exact Hc|exact Hwg|exact Hl|exact He|]. intros Hp. apply Hres. by apply bool_decide_eq_true.
Qed.


Lemma winds_ends (s : Server) (t : Time) (As : list astore) (k : Z) (n0 : Net) (ep : option endpoint)
    (evs : list proc_event) (P : process) :
  parses_f64 parseFloat -> ready s t As k n0 -> prun (started s n0 ep) evs P -> within_machine s k evs ->
  Acc (flip winds) P.
Proof.
  intros Hpf Hready Hrun Hw. remember (to_wind P) as d eqn:Hd. revert P Hd Hrun.
  induction (lt_wf d) as [d _ IH]. intros P -> Hrun. constructor. intros P' Hstep.
  destruct (run_told s t As k n0 ep evs P Hpf Hready Hrun Hw) as (W & _ & HI).
  eapply IH; [|reflexivity|by eapply run_step, winds_step].
  apply winds_nearer; [exact (iv_net _ _ _ _ _ _ _ _ _ _ _ HI)|exact Hstep].
Qed.

Lemma winds_out (s : Server) (t : Time) (As : list astore) (k : Z) (n0 : Net) (ep : option endpoint)
    (evs : list proc_event) (P P' : process) :
  parses_f64 parseFloat -> ready s t As k n0 -> prun (started s n0 ep) evs P -> within_machine s k evs ->
  net_canceled (pr_net P) = true -> rtc winds P P' ->
  prun (started s n0 ep) evs P' /\ (pr_stage P' = Exited 0 \/ exists P'', winds P' P'').
Proof.
  intros Hpf Hready Hrun Hw Hcan Hwinds. pose proof (run_winds _ _ _ _ _ _ _ Hrun Hwinds) as Hrun'. split; [exact Hrun'|].
  destruct (run_told s t As k n0 ep evs P' Hpf Hready Hrun' Hw) as (W & _ & HI). destruct Hw as (_ & Hw & Hgm).
  eapply winds_on; [apply Hready|exact HI|exact Hw|exact Hgm|]. by rewrite (proj1 (winds_keep P P' Hwinds)).
Qed.


(** Every answer keeps the stores free of empty collections. *)
Lemma answers_inhabited (r : gmap bytes Command) persisting (t t' : Time) (M M' : machine) args reply l :
  NewRegistry maphash parseFloat formatFloat quote E = Some r ->
  machine_answers parseFloat formatFloat quote r persisting t M args reply l t' M' ->
  Forall no_empty (am_stores M) -> Forall no_empty (am_stores M').
Proof.
  intros Hr [|cm pre spec A A' t1 t2 t3 t4 reply' Hres Hm HA _ _ Hspec| |] HM; try exact HM. cbn [am_stores].
  apply Forall_insert; [exact HM|].
  pose proof Hres as (name & rest & _ & _ & _ & Hcm & Ha)%(Resolve_spec _ _ _ _ _ _ _ _ Hr).
  eapply (command_inhabited maphash parseFloat formatFloat quote E cm pre spec args); [exact Hcm|exact Hm|exact Ha|exact Hspec|].
  exact (Forall_lookup_1 _ _ _ _ HM HA).
Qed.

Lemma story_inhabited (r : gmap bytes Command) persisting (W0 W : world) (evs : list proc_event) :
  NewRegistry maphash parseFloat formatFloat quote E = Some r ->
  story parseFloat formatFloat quote r persisting W0 evs W ->
  Forall no_empty (w_stores W0) -> Forall no_empty (w_stores W).
Proof.
  intros Hr Hst H0. induction Hst as [| | | |evs W c idx args reply l t M Hst IH Hidx Hans]; try exact H0; try assumption.
  cbn [w_stores]. eapply answers_inhabited; [exact Hr|exact Hans|exact IH].
Qed.

(** C32. No collection in the databases is empty. From a ready server whose stores
    hold no empty list, hash, set or sorted set (an empty server, say), in any state
    of a run that stays within the machine, whatever requests were served before it
    and whatever was expired or compacted in between: an entry that [DB_Lookup]
    finds in any database, at the next reading of the clock or a later one, is a
    string or has a length ([List_Len], [Hash_Len], [Set_Len], [ZSet_Len]) other
    than 0. The command that takes the last element takes the key with it. *)
Theorem no_empty_collections (s : Server) (t : Time) (As : list astore) (k : Z) (n0 : Net) (ep : option endpoint)
    (evs : list proc_event) (P : process) (i j : nat) (db : DB) (key : bytes) (e : Entry) :
  parses_f64 parseFloat -> ready s t As k n0 -> Forall no_empty As ->
  prun (started s n0 ep) evs P -> within_machine s k evs ->
  sv_databases (pr_server P) !! i = Some db -> (sv_tick (pr_server P) <= j)%nat ->
  DB_Lookup maphash (env_now E j) db key = Ret (Some e) ->
  collection_length (e_Value e) <> Some 0.
Proof.
  intros Hpf Hready Hne Hrun Hw Hdb Hj Hl. destruct (run_told s t As k n0 ep evs P Hpf Hready Hrun Hw) as (W & Hst & HI).
  destruct Hready as (Hr & _). pose proof (story_inhabited _ _ _ _ _ Hr Hst Hne) as HW. clear Hr Hst.
  pose proof (iv_sess _ _ _ _ _ _ _ _ _ _ _ HI) as (HF & _ & Ht & Hmono). cbn [session c_databases c_tick] in HF, Ht, Hmono.
  destruct (Forall2_lookup_l _ _ _ _ _ HF Hdb) as (A & HA & Habs).
  apply (db_abs_advance maphash db (w_time W) A (env_now E j)) in Habs; [|pose proof (Hmono (sv_tick (pr_server P)) j); lia].
  destruct (abs_Lookup maphash db (env_now E j) A Habs key) as (o & Ho & Hrel). rewrite Hl in Ho. injection Ho as <-.
  cbn in Hrel. destruct (get (env_now E j) A key) as [[a d]|] eqn:Hget; [|done]. destruct Hrel as [Hv _].
  eapply inhabited_length; [exact Hv|]. eapply no_empty_get; [|exact Hget]. exact (Forall_lookup_1 _ _ _ _ HW HA).
Qed.
End Properties.

(** ** Witness: one key, under the policy that never fsyncs *)

Definition finish_db : DB :=
  match DB_Set len_hash (SetReaper (Shard_New 2)) (lit "a") (VString (lit "1")) with Ret db => db | _ => Shard_New 2 end.

Definition finish_server (r : gmap bytes Command) : Server :=
  mkServer r (mkReloadable 0 0 false) None [finish_db] codec_limits [] (Some (s_store (sys_init FSyncNo codec_limits)))
    (cfg_Persistence restart_cfg) (s_disk (sys_init FSyncNo codec_limits)) [] 0.

Lemma finish_storable : storable finish_db.
Proof.
  intros i ks key e Hi He. assert (entries ks = ∅ \/ entries ks = {[lit "a" := mkEntry (VString (lit "1")) zeroTime]}) as [H|H].
  { destruct i as [|[|i]]; [| |done]; injection Hi as <-; [by left|by right]. }
  - rewrite H in He. by apply lookup_empty_Some in He.
  - rewrite H in He. apply lookup_singleton_Some in He as [<- <-]. split; [vm_compute; discriminate|].
    split; [by left|]. exists (AString (lit "1")). split; [by constructor|vm_compute; discriminate].
Qed.

Definition finish_net : Net := set_wg (Listen new_net) ∅ 4.

Lemma finish_ready (r : gmap bytes Command) :
  NewRegistry len_hash zero_float (λ _, []) id still_env = Some r ->
  ready len_hash zero_float (λ _, []) id still_env FSyncNo codec_limits (finish_server r) (unix_epoch + 1000)
    [{[lit "a" := (AString (lit "1"), zeroTime)]}] 1 finish_net.
Proof.
  intros Hr. split; [exact Hr|]. clear Hr. split; [|split; [|split; [lia|split; [vm_compute; discriminate|split; [|reflexivity]]]]].
  - apply sess_held; [|split; [vm_compute; discriminate|reflexivity]|vm_compute; discriminate|intros i j _; reflexivity].
    apply Forall2_cons. split; [|apply Forall2_nil_2].
    destruct (abs_Set len_hash (SetReaper (Shard_New 2)) (unix_epoch + 1000) ∅ (fresh_db _ _ _) (lit "a")
      (VString (lit "1")) (AString (lit "1"))) as (db & Hdb & Habs); [by constructor|].
    rewrite insert_empty in Habs. unfold finish_db. rewrite Hdb. exact Habs.
  - apply Forall_singleton, map_Forall_singleton. vm_compute. discriminate.
  - exists (sys_init FSyncNo codec_limits). split; [apply sys_start|]. split; [split; reflexivity|reflexivity].
Qed.

(** A connection is opened, and the signal arrives. *)
Definition finish_start (r : gmap bytes Command) : process := started (finish_server r) finish_net (Some new_endpoint).
Definition finish_opened (r : gmap bytes Command) : process :=
  with_session (with_net (with_server (finish_start r) (record_metric (finish_server r) ConnectionOpened))
    (startConn finish_net 1)) 1 0.
Definition finish_signaled (r : gmap bytes Command) : process :=
  with_net (finish_opened r) (cancel (startConn finish_net 1)).

Abbreviation finish_run := (proc_run len_hash still_env no_wreck).

Lemma finish_opened_run (r : gmap bytes Command) : finish_run (finish_start r) [Opened 1] (finish_opened r).
Proof.
  apply (run_next _ _ _ _ [] (finish_start r) (Some (Opened 1)) (finish_opened r)); [apply run_start|].
  apply (proc_accept _ _ _ (finish_start r) 1); [reflexivity|reflexivity|apply not_elem_of_empty].
Qed.

Lemma finish_signaled_run (r : gmap bytes Command) : finish_run (finish_start r) [Opened 1] (finish_signaled r).
Proof. eapply run_step; [apply finish_opened_run|]. by apply proc_signal. Qed.

Lemma finish_within (r : gmap bytes Command) : within_machine zero_float (λ _, []) (finish_server r) 1 [Opened 1].
Proof. split; [apply Forall_nil_2|split; vm_compute; [discriminate|reflexivity]]. Qed.

Lemma process_saves_witness :
  exists r P W, NewRegistry len_hash zero_float (λ _, []) id still_env = Some r /\
    finish_run (finish_start r) [Opened 1] P /\ pr_stage P = Exited 0 /\
    story zero_float (λ _, []) id r true
      (mkWorld (unix_epoch + 1000) [{[lit "a" := (AString (lit "1"), zeroTime)]}] (mkReloadable 0 0 false) ∅) [Opened 1] W /\
    restorable (sv_disk (pr_server P)) (w_time W) (w_stores W).
Proof.
  destruct (NewRegistry_all len_hash zero_float (λ _, []) id still_env) as (r & Hr & _).
  pose proof (finish_ready r Hr) as Hready.
  assert (exists P, rtc winds (finish_signaled r) P /\ pr_stage P = Exited 0) as (P & Hwinds & Hg).
  { apply (acc_ends winds (λ P, pr_stage P = Exited 0)).
    - eapply (winds_ends len_hash zero_float (λ _, []) id still_env no_wreck FSyncNo codec_limits);
        [exact zero_float_parses|exact Hready|apply finish_signaled_run|apply finish_within].
    - intros P' Hw. eapply (winds_out len_hash zero_float (λ _, []) id still_env no_wreck FSyncNo codec_limits);
        [exact zero_float_parses|exact Hready|apply finish_signaled_run|apply finish_within|reflexivity|exact Hw]. }
  pose proof (run_winds _ _ _ _ _ _ _ (finish_signaled_run r) Hwinds) as Hrun.
  destruct (process_saves len_hash zero_float (λ _, []) id still_env no_wreck FSyncNo codec_limits (finish_server r)
    (unix_epoch + 1000) [{[lit "a" := (AString (lit "1"), zeroTime)]}] 1 finish_net (Some new_endpoint) [Opened 1] P)
    as (W & Hst & _ & Hex).
  - exact zero_float_parses.
  - exact Hready.
  - exact Hrun.
  - apply finish_within.
  - exists r, P, W. split; [exact Hr|]. split; [exact Hrun|]. split; [exact Hg|]. split; [exact Hst|].
    destruct (Hex 0 Hg) as (_ & _ & _ & _ & _ & Hres). apply Hres; [eexists; reflexivity|].
    rewrite (proj2 (winds_keep _ _ Hwinds)). apply Forall_singleton, finish_storable.
Defined.


(** RPUSH makes a list of one element, and LPOP takes it. *)
Definition pushed : list (list bytes) := [req ["RPUSH"; "l"; "x"]; req ["LPOP"; "l"]].

Lemma pushed_received : Forall received pushed.
Proof.
  repeat (apply Forall_cons; split; [split; [discriminate|]|]); [| |apply Forall_nil_2].
  - exists (lit "RPUSH l x" ++ CRLF), []. vm_compute. reflexivity.
  - exists (lit "LPOP l" ++ CRLF), []. vm_compute. reflexivity.
Qed.

Lemma no_empty_collections_witness :
  exists r reply1 reply2 P, NewRegistry len_hash zero_float (λ _, []) id still_env = Some r /\
    finish_run (finish_start r)
      [Opened 1; Asked 1 (req ["RPUSH"; "l"; "x"]) reply1; Asked 1 (req ["LPOP"; "l"]) reply2] P /\
    forall db key e, sv_databases (pr_server P) !! 0%nat = Some db ->
      DB_Lookup len_hash (env_now still_env (sv_tick (pr_server P))) db key = Ret (Some e) ->
      collection_length (e_Value e) <> Some 0.
Proof.
  destruct (NewRegistry_all len_hash zero_float (λ _, []) id still_env) as (r & Hr & _).
  pose proof (finish_ready r Hr) as Hready.
  pose proof pushed_received as [Hrec1 [Hrec2 _]%Forall_cons]%Forall_cons.
  assert (Forall (allowed zero_float (λ _, []) r) pushed) as Hal by (unfold pushed; allow_all).
  pose proof Hal as [Hal1 [Hal2 _]%Forall_cons]%Forall_cons.
  destruct (run_request len_hash zero_float (λ _, []) id still_env no_wreck FSyncNo codec_limits (finish_server r) _ _ 1
    finish_net (Some new_endpoint) [Opened 1] (finish_opened r) 1 (req ["RPUSH"; "l"; "x"]) zero_float_parses Hready
    (finish_opened_run r) (finish_within r)) as (reply1 & P1 & Hrun1 & Hg1 & Hc1 & Hs1);
    [reflexivity|exact (bool_decide_unpack (1%nat ∈ net_conns (startConn finish_net 1)) I)|by eexists|exact Hrec1|exact Hal1|].
  destruct (run_request len_hash zero_float (λ _, []) id still_env no_wreck FSyncNo codec_limits (finish_server r) _ _ 1
    finish_net (Some new_endpoint) _ P1 1 (req ["LPOP"; "l"]) zero_float_parses Hready Hrun1)
    as (reply2 & P2 & Hrun2 & _); [|exact Hg1|exact Hc1|exact Hs1|exact Hrec2|exact Hal2|].
  { split; [exact (Forall_cons_2 _ _ _ Hal1 (Forall_nil_2 _))|split; vm_compute; [discriminate|reflexivity]]. }
  exists r, reply1, reply2, P2. split; [exact Hr|]. split; [exact Hrun2|]. intros db key e Hdb Hl.
  eapply (no_empty_collections len_hash zero_float (λ _, []) id still_env no_wreck FSyncNo codec_limits (finish_server r)
    _ _ 1 finish_net (Some new_endpoint) _ P2 0 (sv_tick (pr_server P2)) db key e).
  - exact zero_float_parses.
  - exact Hready.
  - apply Forall_singleton, map_Forall_singleton. exact I.
  - exact Hrun2.
  - split; [exact Hal|split; vm_compute; [discriminate|reflexivity]].
  - exact Hdb.
  - reflexivity.
  - exact Hl.
Defined.
