(* ===== verification/Metering.v ===== *)
(** * internal/metrics: the collectors

    What the server reports ([sv_metrics]) as the counters, the histogram and the
    gauge that the metrics endpoint shows. The Prometheus client library is an
    interface: the operations the code calls and what its documentation says of
    them. The HTTP endpoint is left to that library and to net/http. *)

From Stdlib Require Import Floats.SpecFloat.
From S2P Require Import Prelude GoBinary Pack Float64 Skiplist ValueList ValueHash ValueSet ValueZSet.
From S2P Require Import GoTime Value Keyspace Shard Strconv Resp Config Command Session.
From S2P Require Import CommandSpec CollectionSpec Registry Codec Store ServerLocks Server Replay Restart.
From S2P Require Import Incidents Serve.

(** ** time.Duration.Seconds *)

(** A binary64 number as its pattern. *)
Definition f64_bits (f : spec_float) : float64 :=
  let sign (s : bool) := if s then 2 ^ 63 else 0 in
  match f with
  | S754_zero s => sign s
  | S754_infinity s => sign s + inf_mag
  | S754_nan => inf_mag + 2 ^ 51
  | S754_finite s m e =>
      sign s + if 2 ^ 52 <=? Zpos m then (e + 1075) * 2 ^ 52 + (Zpos m - 2 ^ 52) else Zpos m
  end.

Definition b64_of_Z (z : Z) : spec_float := binary_normalize 53 1024 z 0 false.
Definition b64_add : spec_float -> spec_float -> spec_float := SFadd 53 1024.
Definition b64_div : spec_float -> spec_float -> spec_float := SFdiv 53 1024.

Definition Duration_Seconds (d : Duration) : float64 :=
  let sec := b64_of_Z (Z.quot d Second) in
  let nsec := b64_of_Z (Z.rem d Second) in
  f64_bits (b64_add sec (b64_div nsec (b64_of_Z 1000000000))).

(** 1.5s, 50ns and -250ms: the patterns of 1.5, 5e-08 and -0.25. *)
Example Seconds_examples :
  Duration_Seconds 1500000000 = 4609434218613702656 /\
  Duration_Seconds 50 = 4497644614860975944 /\
  Duration_Seconds (-250000000) = 13821547256400052224.
Proof. vm_compute. split_and!; reflexivity. Qed.

(** ** The client library *)

Record Opts := mkOpts { o_Namespace : bytes; o_Name : bytes; o_Help : bytes }.

(** The name a metric is exposed under. *)
Definition fq_name (o : Opts) : bytes := o_Namespace o ++ lit "_" ++ o_Name o.

Definition ascii_text (s : bytes) : Prop := Forall (λ b, byte_val b < 128) s.

(** A metric name, as the data model documents it. *)
Definition name_start (b : byte) : bool :=
  let z := byte_val b in
  (97 <=? z) && (z <=? 122) || (65 <=? z) && (z <=? 90) || (z =? 95) || (z =? 58).
Definition name_ok (s : bytes) : bool :=
  match s with
  | [] => false
  | b :: r => name_start b && forallb (λ b, name_start b || (48 <=? byte_val b) && (byte_val b <=? 57)) r
  end.

(** The operations: [counter_Inc vs c] is [c.WithLabelValues(vs...).Inc()], and a
    collector is registered with the names it describes. *)
Class Prometheus := {
  CounterVec : Type;
  NewCounterVec : Opts -> list bytes -> CounterVec;
  counter_Inc : list bytes -> CounterVec -> outcome CounterVec;
  counter_value : list bytes -> CounterVec -> Z;
  counter_labels : CounterVec -> list bytes;
  counter_desc : CounterVec -> list bytes;
  HistogramVec : Type;
  ExponentialBuckets : float64 -> float64 -> Z -> outcome (list float64);
  NewHistogramVec : Opts -> list float64 -> list bytes -> HistogramVec;
  histogram_Observe : list bytes -> float64 -> HistogramVec -> outcome HistogramVec;
  histogram_count : list bytes -> HistogramVec -> Z;
  histogram_labels : HistogramVec -> list bytes;
  histogram_desc : HistogramVec -> list bytes;
  Gauge : Type;
  NewGauge : Opts -> Gauge;
  gauge_Inc : Gauge -> Gauge;
  gauge_Dec : Gauge -> Gauge;
  gauge_value : Gauge -> Z;
  gauge_desc : Gauge -> list bytes;
  PromRegistry : Type;
  prom_NewRegistry : PromRegistry;
  MustRegister : list (list bytes) -> PromRegistry -> outcome PromRegistry;
  registered : PromRegistry -> list bytes;
  NewGoCollector : list bytes }.

(** What the documentation says of them. Values are float64, so an increment is
    exact below 2^53; a vector has a child per list of label values, as many as
    its labels. *)
Class PrometheusLaws (P : Prometheus) := {
  new_counter o ls : counter_labels (NewCounterVec o ls) = ls /\ counter_desc (NewCounterVec o ls) = [fq_name o] /\
    forall vs, counter_value vs (NewCounterVec o ls) = 0;
  counter_Inc_law vs c : len vs = len (counter_labels c) -> Forall ascii_text vs -> counter_value vs c < 2 ^ 53 ->
    exists c', counter_Inc vs c = Ret c' /\ counter_labels c' = counter_labels c /\
      counter_value vs c' = counter_value vs c + 1 /\
      forall vs', vs' <> vs -> counter_value vs' c' = counter_value vs' c;
  buckets_law start factor n : flt 0 start = true -> flt (f64_bits (b64_of_Z 1)) factor = true -> 1 <= n ->
    exists bs, ExponentialBuckets start factor n = Ret bs;
  new_histogram o bs ls : histogram_labels (NewHistogramVec o bs ls) = ls /\
    histogram_desc (NewHistogramVec o bs ls) = [fq_name o] /\
    forall vs, histogram_count vs (NewHistogramVec o bs ls) = 0;
  histogram_Observe_law vs x h : len vs = len (histogram_labels h) -> Forall ascii_text vs ->
    histogram_count vs h < 2 ^ 53 ->
    exists h', histogram_Observe vs x h = Ret h' /\ histogram_labels h' = histogram_labels h /\
      histogram_count vs h' = histogram_count vs h + 1 /\
      forall vs', vs' <> vs -> histogram_count vs' h' = histogram_count vs' h;
  new_gauge o : gauge_value (NewGauge o) = 0 /\ gauge_desc (NewGauge o) = [fq_name o];
  gauge_Inc_law g : - 2 ^ 53 < gauge_value g < 2 ^ 53 -> gauge_value (gauge_Inc g) = gauge_value g + 1;
  gauge_Dec_law g : - 2 ^ 53 < gauge_value g < 2 ^ 53 -> gauge_value (gauge_Dec g) = gauge_value g - 1;
  new_registry : registered prom_NewRegistry = [];
  register_law cs r : NoDup (registered r ++ concat cs) -> Forall (λ n, name_ok n = true) (concat cs) ->
    exists r', MustRegister cs r = Ret r' /\ registered r' = registered r ++ concat cs;
  go_collector : NoDup NewGoCollector /\
    Forall (λ n, name_ok n = true /\ take 3 n = lit "go_") NewGoCollector }.

(** ** Collectors (metrics.go) *)

Section Collectors.
Context {P : Prometheus}.

Record Collectors := mkCollectors {
  col_commands : CounterVec;
  col_errors : CounterVec;
  col_latency : HistogramVec;
  col_connections : Gauge;
  col_registry : PromRegistry }.

Definition commands_opts : Opts :=
  mkOpts (lit "memcore") (lit "commands_total") (lit "Commands processed, labeled by command name.").
Definition errors_opts : Opts :=
  mkOpts (lit "memcore") (lit "command_errors_total")
    (lit "Commands that returned an error reply, labeled by command name.").
Definition latency_opts : Opts :=
  mkOpts (lit "memcore") (lit "command_duration_seconds") (lit "Command execution latency, labeled by command name.").
Definition connections_opts : Opts :=
  mkOpts (lit "memcore") (lit "connections") (lit "Currently open client connections.").

(** The constant 50e-9. *)
Definition first_bucket : float64 := f64_bits (b64_div (b64_of_Z 50) (b64_of_Z 1000000000)).

Definition Collectors_New : outcome Collectors :=
  let reg := prom_NewRegistry in
  let commands := NewCounterVec commands_opts [lit "command"] in
  let errors := NewCounterVec errors_opts [lit "command"] in
  buckets ← ExponentialBuckets first_bucket (f64_bits (b64_of_Z 4)) 12;
  let latency := NewHistogramVec latency_opts buckets [lit "command"] in
  let connections := NewGauge connections_opts in
  reg ← MustRegister [counter_desc commands; counter_desc errors; histogram_desc latency; gauge_desc connections] reg;
  reg ← MustRegister [NewGoCollector] reg;
  Ret (mkCollectors commands errors latency connections reg).

Definition Collectors_ObserveCommand (c : Collectors) (name : bytes) (d : Duration) (isError : bool) :
    outcome Collectors :=
  commands ← counter_Inc [name] (col_commands c);
  latency ← histogram_Observe [name] (Duration_Seconds d) (col_latency c);
  errors ← (if isError then counter_Inc [name] (col_errors c) else Ret (col_errors c));
  Ret (mkCollectors commands errors latency (col_connections c) (col_registry c)).

Definition Collectors_ConnectionOpened (c : Collectors) : Collectors :=
  mkCollectors (col_commands c) (col_errors c) (col_latency c) (gauge_Inc (col_connections c)) (col_registry c).

Definition Collectors_ConnectionClosed (c : Collectors) : Collectors :=
  mkCollectors (col_commands c) (col_errors c) (col_latency c) (gauge_Dec (col_connections c)) (col_registry c).

(** A call of the server's recorder. *)
Definition Collectors_record (c : Collectors) (m : metric) : outcome Collectors :=
  match m with
  | ObserveCommand name d isError => Collectors_ObserveCommand c name d isError
  | ConnectionOpened => Ret (Collectors_ConnectionOpened c)
  | ConnectionClosed => Ret (Collectors_ConnectionClosed c)
  end.

(** The collectors after the calls [ms], made in any interleaving of the
    connections. *)
Definition collected (ms : list metric) : outcome Collectors :=
  c ← Collectors_New; ofold Collectors_record ms c.

(** ** Counting *)

Definition count {A} (p : A -> bool) (l : list A) : Z := len (List.filter p l).

Definition observes (name : bytes) (m : metric) : bool :=
  match m with ObserveCommand n _ _ => bool_decide (n = name) | _ => false end.
Definition observes_error (name : bytes) (m : metric) : bool :=
  match m with ObserveCommand n _ e => bool_decide (n = name) && e | _ => false end.
Definition opens (m : metric) : bool := match m with ConnectionOpened => true | _ => false end.
Definition closes (m : metric) : bool := match m with ConnectionClosed => true | _ => false end.

(** A command's name can be a label value. *)
Definition label_ok (m : metric) : Prop :=
  match m with ObserveCommand n _ _ => ascii_text n | _ => True end.

(** The requests that ran the command [name], and those it answered with an
    error. *)
Definition ran (r : gmap bytes Command) (name : bytes) (p : list bytes * Reply) : bool :=
  match Resolve r p.1 with inl cm => bool_decide (cmd_name cm = name) | inr _ => false end.
Definition ran_error (r : gmap bytes Command) (name : bytes) (p : list bytes * Reply) : bool :=
  ran r name p && IsError p.2.

Lemma count_cons {A} (p : A -> bool) x l : count p (x :: l) = (if p x then 1 else 0) + count p l.
Proof. unfold count. cbn. destruct (p x); cbn; unfold len; cbn; lia. Qed.

Lemma count_app {A} (p : A -> bool) l k : count p (l ++ k) = count p l + count p k.
Proof. unfold count. rewrite List.filter_app. unfold len. rewrite length_app. lia. Qed.

Lemma count_bounds {A} (p : A -> bool) l : 0 <= count p l <= len l.
Proof. unfold count, len. pose proof (filter_length_le p l). lia. Qed.

(** ** What the collectors hold *)

Context {L : PrometheusLaws P}.

(** The collectors [c] after the calls [ms]. *)
Record accounts (c : Collectors) (ms : list metric) : Prop := {
  acc_command_labels : counter_labels (col_commands c) = [lit "command"];
  acc_error_labels : counter_labels (col_errors c) = [lit "command"];
  acc_latency_labels : histogram_labels (col_latency c) = [lit "command"];
  acc_commands name : counter_value [name] (col_commands c) = count (observes name) ms;
  acc_errors name : counter_value [name] (col_errors c) = count (observes_error name) ms;
  acc_latency name : histogram_count [name] (col_latency c) = count (observes name) ms;
  acc_connections : gauge_value (col_connections c) = count opens ms - count closes ms }.

(** The collectors are built and registered without a panic. *)
Lemma Collectors_New_accounts : exists c, Collectors_New = Ret c /\ accounts c [].
Proof.
  unfold Collectors_New.
  destruct (buckets_law first_bucket (f64_bits (b64_of_Z 4)) 12) as [bs ->]; [reflexivity..|lia|]. orun.
  destruct (new_counter commands_opts [lit "command"]) as (Hcl & Hcd & Hcv).
  destruct (new_counter errors_opts [lit "command"]) as (Hel & Hed & Hev).
  destruct (new_histogram latency_opts bs [lit "command"]) as (Hhl & Hhd & Hhv).
  destruct (new_gauge connections_opts) as (Hgv & Hgd). rewrite Hcd, Hed, Hhd, Hgd.
  set (own := [[fq_name commands_opts]; [fq_name errors_opts]; [fq_name latency_opts]; [fq_name connections_opts]]).
  destruct (register_law own prom_NewRegistry) as (r1 & -> & Hr1).
  { rewrite new_registry. apply (bool_decide_unpack _). by vm_compute. }
  { repeat constructor. }
  orun. destruct go_collector as [Hnd Hgo]. destruct (register_law [NewGoCollector] r1) as (r2 & -> & _).
  { rewrite Hr1, new_registry. cbn [concat app]. rewrite app_nil_r. apply NoDup_app. split_and!.
    - apply (bool_decide_unpack _). by vm_compute.
    - intros n Hn Hg. rewrite Forall_forall in Hgo. destruct (Hgo n Hg) as [_ Ht].
      unfold own in Hn. cbn [concat app] in Hn. set_unfold in Hn.
      repeat (destruct Hn as [->|Hn]; [discriminate Ht|]). by inversion Hn.
    - exact Hnd. }
  { cbn [concat]. rewrite app_nil_r. eapply Forall_impl; [exact Hgo|]. by intros n [? _]. }
  orun. eexists. split; [reflexivity|]. by split.
Qed.

Lemma record_accounts c ms m :
  accounts c ms -> label_ok m -> len ms < 2 ^ 53 ->
  exists c', Collectors_record c m = Ret c' /\ accounts c' (ms ++ [m]).
Proof.
  intros [Hcl Hel Hhl Hc He Hh Hg] Hm Hn.
  assert (forall p, 0 <= count p ms < 2 ^ 53) as Hb by (intros p; pose proof (count_bounds p ms); lia).
  assert (forall p, count p (ms ++ [m]) = count p ms + (if p m then 1 else 0)) as Hs.
  { intros p. rewrite count_app, count_cons. change (count p []) with 0. lia. }
  destruct m as [name d e| |]; cbn [Collectors_record].
  - unfold Collectors_ObserveCommand.
    destruct (counter_Inc_law [name] (col_commands c)) as (c1 & -> & Hl1 & Hv1 & Ho1);
      [by rewrite Hcl|by apply Forall_singleton|rewrite Hc; apply Hb|]. orun.
    destruct (histogram_Observe_law [name] (Duration_Seconds d) (col_latency c)) as (h1 & -> & Hl2 & Hv2 & Ho2);
      [by rewrite Hhl|by apply Forall_singleton|rewrite Hh; apply Hb|]. orun.
    assert (exists e1, (if e then counter_Inc [name] (col_errors c) else Ret (col_errors c)) = Ret e1 /\
      counter_labels e1 = [lit "command"] /\
      forall n, counter_value [n] e1 = count (observes_error n) ms + (if bool_decide (name = n) && e then 1 else 0))
      as (e1 & -> & Hl3 & Hv3).
    { destruct e; [|exists (col_errors c); split_and!; [done|done|]; intros n; rewrite He, andb_false_r; lia].
      destruct (counter_Inc_law [name] (col_errors c)) as (e1 & -> & Hl3 & Hv3 & Ho3);
        [by rewrite Hel|by apply Forall_singleton|rewrite He; apply Hb|].
      exists e1. split_and!; [done|congruence|]. intros n. rewrite andb_true_r.
      case_bool_decide as Hn'; [subst n; rewrite Hv3, He; lia|rewrite Ho3, He by congruence; lia]. }
    orun. eexists. split; [reflexivity|]. split; cbn [col_commands col_errors col_latency col_connections];
      [congruence|done|congruence| | | |].
    + intros n. rewrite Hs. cbn [observes]. case_bool_decide; [subst n; rewrite Hv1, Hc; lia|rewrite Ho1, Hc by congruence; lia].
    + intros n. rewrite Hs, Hv3. done.
    + intros n. rewrite Hs. cbn [observes]. case_bool_decide; [subst n; rewrite Hv2, Hh; lia|rewrite Ho2, Hh by congruence; lia].
    + rewrite !Hs, Hg. cbn. lia.
  - eexists. split; [reflexivity|]. split; cbn [Collectors_ConnectionOpened col_commands col_errors col_latency col_connections];
      try done; try (intros n; rewrite Hs; cbn; rewrite Z.add_0_r; auto).
    rewrite gauge_Inc_law, Hg, !Hs by (rewrite Hg; pose proof (Hb opens); pose proof (Hb closes); lia). cbn. lia.
  - eexists. split; [reflexivity|]. split; cbn [Collectors_ConnectionClosed col_commands col_errors col_latency col_connections];
      try done; try (intros n; rewrite Hs; cbn; rewrite Z.add_0_r; auto).
    rewrite gauge_Dec_law, Hg, !Hs by (rewrite Hg; pose proof (Hb opens); pose proof (Hb closes); lia). cbn. lia.
Qed.

Lemma records_account ms : forall pre c,
  accounts c pre -> Forall label_ok ms -> len (pre ++ ms) <= 2 ^ 53 ->
  exists c', ofold Collectors_record ms c = Ret c' /\ accounts c' (pre ++ ms).
Proof.
  induction ms as [|m ms IH]; intros pre c Hc Hms Hn.
  { exists c. split; [done|]. by rewrite app_nil_r. }
  apply Forall_cons in Hms as [Hm Hms]. destruct (record_accounts c pre m Hc Hm) as (c1 & Hr & Hc1).
  { unfold len in *. rewrite length_app in Hn. cbn [length] in Hn. lia. }
  cbn [ofold]. rewrite Hr. orun. rewrite cons_middle, app_assoc in Hn |- *. by apply IH.
Qed.

Lemma collected_accounts ms :
  Forall label_ok ms -> len ms <= 2 ^ 53 -> exists c, collected ms = Ret c /\ accounts c ms.
Proof.
  intros Hms Hn. unfold collected. destruct Collectors_New_accounts as (c & -> & Hc). orun.
  by apply (records_account ms [] c).
Qed.

(** ** The requests of a connection *)

Context (maphash : bytes -> Z) (parseFloat : bytes -> option float64) (formatFloat : float64 -> bytes)
  (quote : bytes -> bytes) (E : Env) (wreck : Command -> list bytes -> CmdContext -> CmdContext)
  (buffered : nat -> bytes -> Z).

Lemma command_names_ascii r args cm :
  NewRegistry maphash parseFloat formatFloat quote E = Some r -> Resolve r args = inl cm -> ascii_text (cmd_name cm).
Proof.
  intros Hr Hres. apply (Resolve_spec maphash parseFloat formatFloat quote E r args cm Hr) in Hres as (_ & _ & _ & _ & _ & Hin & _).
  assert (Forall ascii_text (map cmd_name (all_commands maphash parseFloat formatFloat quote E))) as HF.
  { clear. unfold ascii_text. apply (bool_decide_unpack _). vm_compute. exact I. }
  clear Hr. rewrite Forall_forall in HF. by apply HF, list_elem_of_fmap_2.
Qed.

Lemma observed_counts r reqs replies obs :
  observed r reqs replies obs -> (forall args cm, Resolve r args = inl cm -> ascii_text (cmd_name cm)) ->
  Forall label_ok obs /\ len obs <= len reqs /\ count opens obs = 0 /\ count closes obs = 0 /\
  forall name, count (observes name) obs = count (ran r name) (zip reqs replies) /\
    count (observes_error name) obs = count (ran_error r name) (zip reqs replies).
Proof.
  intros Ho Ha. induction Ho as [|args cm reply d reqs replies obs R Ho IH|args reply reqs replies obs R Ho IH].
  { split_and!; try done. }
  all: destruct IH as (Hl & Hn & Hop & Hcl & Hc).
  all: split_and!; [|unfold len in *; cbn; lia|rewrite ?count_cons; cbn; lia|rewrite ?count_cons; cbn; lia|].
  - constructor; [by apply (Ha args)|done].
  - intros name. destruct (Hc name) as [Hc1 Hc2]. cbn [zip]. rewrite !count_cons, Hc1, Hc2.
    unfold ran_error, ran. cbn. rewrite R. done.
  - done.
  - intros name. destruct (Hc name) as [Hc1 Hc2]. cbn [zip]. rewrite !count_cons, Hc1, Hc2.
    unfold ran_error, ran. cbn. by rewrite R.
Qed.

(** C23. The metrics count every command once. A connection brings requests and
    then ends in any way; [ms] is what the server's recorder had been told before.
    Then recording the connection does not panic either, the gauge of open
    connections is back where it was, and for every name the counter of commands,
    and the number of latencies observed, have grown by the requests that
    resolved to that command, the counter of errors by those of them that were
    answered with an error. *)
Theorem connection_metered reqs bufs rest e r' s replies idx s' ms :
  NewRegistry maphash parseFloat formatFloat quote E = Some (sv_registry s) ->
  (forall i r, 0 <= buffered i r <= len r) ->
  Forall2 sends reqs bufs -> ReadRequest rest = (inr e, r') ->
  sv_metrics s = Some ms -> Forall label_ok ms -> len ms + len reqs + 2 <= 2 ^ 53 ->
  dispatch_all maphash E wreck (record_metric s ConnectionOpened) 0 reqs = Ret (replies, idx, s') ->
  exists s2 cn ms2 c1 c2,
    serve maphash E wreck buffered s (new_conn (concat bufs ++ rest)) = Ret (s2, cn) /\
    sv_metrics s2 = Some ms2 /\ Forall label_ok ms2 /\ collected ms = Ret c1 /\ collected ms2 = Ret c2 /\
    gauge_value (col_connections c2) = gauge_value (col_connections c1) /\
    forall name,
      counter_value [name] (col_commands c2) =
        counter_value [name] (col_commands c1) + count (ran (sv_registry s) name) (zip reqs replies) /\
      histogram_count [name] (col_latency c2) =
        histogram_count [name] (col_latency c1) + count (ran (sv_registry s) name) (zip reqs replies) /\
      counter_value [name] (col_errors c2) =
        counter_value [name] (col_errors c1) + count (ran_error (sv_registry s) name) (zip reqs replies).
Proof.
  intros Hr Hbuf HF He Hms Hl Hn Hd.
  destruct (metrics_account maphash E wreck buffered reqs bufs rest e r' s replies idx s' ms Hbuf HF He Hms Hd)
    as (s2 & cn & obs & Hs & Ho & Hm2).
  destruct (observed_counts _ _ _ _ Ho (λ args cm, command_names_ascii _ args cm Hr)) as (Hlo & Hno & Hop & Hcl & Hc).
  clear Hr. set (ms2 := ms ++ ConnectionOpened :: obs ++ [ConnectionClosed]) in *.
  assert (Forall label_ok ms2) as Hl2.
  { apply Forall_app. split; [done|]. constructor; [done|]. apply Forall_app. split; [done|]. by constructor. }
  assert (len ms2 <= 2 ^ 53) as Hn2.
  { unfold ms2, len in *. rewrite length_app. cbn [length]. rewrite length_app. cbn [length]. lia. }
  assert (forall p, count p ms2 = count p ms + (if p ConnectionOpened then 1 else 0) + count p obs +
    (if p ConnectionClosed then 1 else 0)) as Hcnt.
  { intros p. unfold ms2. rewrite count_app, count_cons, count_app, count_cons. change (count p []) with 0. lia. }
  destruct (collected_accounts ms Hl) as (c1 & H1 & A1); [unfold len in *; lia|].
  destruct (collected_accounts ms2 Hl2 Hn2) as (c2 & H2 & A2).
  exists s2, cn, ms2, c1, c2. split_and!; try done.
  - rewrite (acc_connections _ _ A1), (acc_connections _ _ A2), !Hcnt, Hop, Hcl. cbn. lia.
  - intros name. destruct (Hc name) as [Hc1 Hc2].
    rewrite (acc_commands _ _ A1), (acc_commands _ _ A2), (acc_errors _ _ A1), (acc_errors _ _ A2),
      (acc_latency _ _ A1), (acc_latency _ _ A2), !Hcnt, Hc1, Hc2. cbn. lia.
Qed.
End Collectors.

(** ** Witness: metrics kept in memory *)

(** A name, the labels, and the value of each child. *)
Definition mem_vec : Type := bytes * list bytes * gmap (list bytes) Z.

Definition mem_value (vs : list bytes) (c : mem_vec) : Z := default 0 (c.2 !! vs).
Definition mem_add (vs : list bytes) (c : mem_vec) : outcome mem_vec :=
  if len vs =? len c.1.2 then Ret (c.1, <[vs := mem_value vs c + 1]> c.2) else Panic Explicit.

#[local] Instance mem_prometheus : Prometheus := {
  CounterVec := mem_vec;
  NewCounterVec o ls := (fq_name o, ls, ∅);
  counter_Inc := mem_add;
  counter_value := mem_value;
  counter_labels c := c.1.2;
  counter_desc c := [c.1.1];
  HistogramVec := mem_vec;
  ExponentialBuckets start factor n :=
    if flt 0 start && flt (f64_bits (b64_of_Z 1)) factor && (1 <=? n) then Ret [start] else Panic Explicit;
  NewHistogramVec o _ ls := (fq_name o, ls, ∅);
  histogram_Observe vs _ := mem_add vs;
  histogram_count := mem_value;
  histogram_labels c := c.1.2;
  histogram_desc c := [c.1.1];
  Gauge := bytes * Z;
  NewGauge o := (fq_name o, 0);
  gauge_Inc g := (g.1, g.2 + 1);
  gauge_Dec g := (g.1, g.2 - 1);
  gauge_value g := g.2;
  gauge_desc g := [g.1];
  PromRegistry := list bytes;
  prom_NewRegistry := [];
  MustRegister cs r :=
    if bool_decide (NoDup (r ++ concat cs)) && forallb name_ok (concat cs) then Ret (r ++ concat cs) else Panic Explicit;
  registered r := r;
  NewGoCollector := [lit "go_goroutines"; lit "go_threads"] }.

Lemma mem_add_law vs (c : mem_vec) :
  len vs = len c.1.2 ->
  exists c', mem_add vs c = Ret c' /\ c'.1.2 = c.1.2 /\ mem_value vs c' = mem_value vs c + 1 /\
    forall vs', vs' <> vs -> mem_value vs' c' = mem_value vs' c.
Proof.
  intros Hl. unfold mem_add. rewrite Hl, Z.eqb_refl. eexists. split_and!; [reflexivity|done| |].
  - unfold mem_value. cbn. by rewrite lookup_insert_eq.
  - intros vs' Hne. unfold mem_value. cbn. by rewrite lookup_insert_ne.
Qed.

#[local] Instance mem_laws : PrometheusLaws mem_prometheus.
Proof.
  split; cbn.
  - intros o ls. split_and!; [done|done|]. intros vs. done.
  - intros vs c Hl _ _. by apply mem_add_law.
  - intros start factor n -> -> Hn. rewrite (proj2 (Z.leb_le 1 n)) by lia. by eexists.
  - intros o bs ls. split_and!; [done|done|]. intros vs. done.
  - intros vs x h Hl _ _. by apply mem_add_law.
  - done.
  - done.
  - done.
  - done.
  - intros cs r Hnd Hok. rewrite bool_decide_true by done.
    rewrite (proj2 (forallb_forall name_ok (concat cs))); [by eexists|].
    intros n Hn%list_elem_of_In. by rewrite Forall_forall in Hok; apply Hok.
  - split; [|by repeat constructor]. apply (bool_decide_unpack _). by vm_compute.
Qed.

Definition metered_server : Server :=
  match boot (at_second 1) (mkDisk None None ∅) with Ret s => SetRecorder s | _ => bare_server end.

Lemma ret_fst {A B} (x : outcome (A * B)) a :
  match x with Ret (a', _) => Some a' | _ => None end = Some a -> exists b, x = Ret (a, b).
Proof. destruct x as [[a' b]| |]; [|done..]. intros [= ->]. by exists b. Qed.

(** A PING and a SELECT of a database that is not there. *)
Definition metered_requests : list (list bytes) := [req ["PING"]; req ["SELECT"; "99"]].

Lemma connection_metered_witness :
  exists s2 cn ms2 c2,
    serve len_hash (at_second 1) no_wreck (λ _ r, len r) metered_server
      (new_conn (concat (default [] (mapM client_writeCommand metered_requests)) ++ [])) = Ret (s2, cn) /\
    sv_metrics s2 = Some ms2 /\ collected ms2 = Ret c2 /\
    gauge_value (col_connections c2) = 0 /\
    counter_value [lit "select"] (col_commands c2) = 1 /\ counter_value [lit "select"] (col_errors c2) = 1 /\
    counter_value [lit "ping"] (col_errors c2) = 0.
Proof.
  destruct (ret_fst (dispatch_all len_hash (at_second 1) no_wreck (record_metric metered_server ConnectionOpened) 0
    metered_requests) ([RSimple (lit "PONG"); RError (lit "ERR DB index is out of range")], 0)) as [s' Hd].
  { vm_compute. reflexivity. }
  destruct (connection_metered len_hash zero_float (λ _, []) id (at_second 1) no_wreck (λ _ r, len r)
    metered_requests (default [] (mapM client_writeCommand metered_requests)) [] EOF [] metered_server
    [RSimple (lit "PONG"); RError (lit "ERR DB index is out of range")] 0 s' [])
    as (s2 & cn & ms2 & c1 & c2 & Hs & Hm & _ & H1 & H2 & Hg & Hc).
  - reflexivity.
  - intros i r. unfold len. lia.
  - repeat (apply Forall2_cons; split; [split; [reflexivity|split; [vm_compute; discriminate|]];
      repeat constructor; vm_compute; discriminate|]). apply Forall2_nil_2.
  - reflexivity.
  - vm_compute. reflexivity.
  - constructor.
  - vm_compute. discriminate.
  - exact Hd.
  - exists s2, cn, ms2, c2. split; [exact Hs|]. split; [exact Hm|]. split; [exact H2|].
    assert (match collected [] with
      | Ret c => gauge_value (col_connections c) = 0 /\ counter_value [lit "select"] (col_commands c) = 0 /\
          counter_value [lit "select"] (col_errors c) = 0 /\ counter_value [lit "ping"] (col_errors c) = 0
      | _ => False
      end) as H0 by (vm_compute; split_and!; reflexivity).
    rewrite H1 in H0. destruct H0 as (G & S1 & S2 & S3).
    rewrite Hg, G, (proj1 (Hc _)), S1, !(proj2 (proj2 (Hc _))), S2, S3. vm_compute. split_and!; reflexivity.
Defined.
