(* ===== verification/Client.v ===== *)
(** * clients/go: the Go client against the server

    [Do] and the typed helpers of clients/go/memcore.go over the framing of Resp;
    what [Get] and [Set] return, end to end: the client's bytes, the server's
    loop, its dispatch, the reply's bytes, the client's decoding. *)

From S2P Require Import Prelude GoBinary Pack Float64 Skiplist ValueList ValueHash ValueSet ValueZSet.
From S2P Require Import GoTime Value Keyspace Shard Strconv Resp Config Command Session.
From S2P Require Import CommandSpec CollectionSpec Registry Codec Store ServerLocks Server Replay Restart.
From S2P Require Import Incidents Serve.

(** ** The client (memcore.go) *)

(** The verbs [%T] and [%v] of a decoded reply. *)
Definition type_name (v : client_value) : bytes :=
  match v with
  | CString _ => lit "string"
  | CInt _ => lit "int64"
  | CNil => lit "<nil>"
  | CArray _ => lit "[]interface {}"
  end.

Fixpoint print_value (v : client_value) : bytes :=
  match v with
  | CString s => s
  | CInt n => FormatInt n
  | CNil => lit "<nil>"
  | CArray [] => lit "[]"
  | CArray (v :: vs) =>
      lit "[" ++ print_value v ++ concat (map (λ v, lit " " ++ print_value v) vs) ++ lit "]"
  end.

Section Client.
(** What comes back for the bytes of a request that has been flushed. *)
Context (wire : bytes -> bytes) (fuel : nat).

Definition client_Do (args : list bytes) : client_value + client_error :=
  match client_writeCommand args with
  | None => inr (CTransport (ErrOther (lit "memcore: empty command")))
  | Some buf => (client_readReply fuel (wire buf)).1
  end.

Definition client_Get (key : bytes) : (bytes * bool) + client_error :=
  match client_Do [lit "GET"; key] with
  | inr e => inr e
  | inl CNil => inl ([], false)
  | inl (CString s) => inl (s, true)
  | inl v => inr (CTransport (ErrOther (lit "memcore: GET returned " ++ type_name v ++ lit ", want string")))
  end.

(** [None] is no error. *)
Definition client_Set (key value : bytes) : option client_error :=
  match client_Do [lit "SET"; key; value] with inr e => Some e | inl _ => None end.

Definition client_Del (keys : list bytes) : Z + client_error :=
  match client_Do (lit "DEL" :: keys) with
  | inr e => inr e
  | inl (CInt n) => inl n
  | inl _ => inl 0
  end.

Definition client_Ping : option client_error :=
  match client_Do [lit "PING"] with
  | inr e => Some e
  | inl v =>
      if match v with CString s => bool_decide (s = lit "PONG") | _ => false end then None
      else Some (CTransport (ErrOther (lit "memcore: unexpected PING reply " ++ print_value v)))
  end.
End Client.

(** What a connection has sent. *)
Definition sent_bytes (c : conn) : bytes := take (cn_sent c) (w_out (cn_writer c)).

Section EndToEnd.
Context (maphash : bytes -> Z) (parseFloat : bytes -> option float64)
  (formatFloat : float64 -> bytes) (quote : bytes -> bytes) (E : Env).
Context (wreck : Command -> list bytes -> CmdContext -> CmdContext) (buffered : nat -> bytes -> Z).
Context (Hbuf : forall i r, 0 <= buffered i r <= len r).

(** What the server [s] sends back to a connection that brings [buf]. *)
Definition answered (s : Server) (buf : bytes) : bytes :=
  match serve maphash E wreck buffered s (new_conn buf) with
  | Ret (_, c) => sent_bytes c
  | _ => []
  end.

(** A connection with one request. *)
Lemma one_request args buf s reply idx s' :
  sends args buf ->
  dispatch maphash E wreck (record_metric s ConnectionOpened) 0 args = Ret (reply, idx, s') ->
  exists c, serve maphash E wreck buffered s (new_conn buf) = Ret (record_metric s' ConnectionClosed, c) /\
    sent_bytes c = encode_reply reply.
Proof.
  intros Hs Hd. unfold serve, new_conn, NewWriter.
  destruct (serve_loop_spec maphash E wreck buffered (buffered_nil buffered Hbuf) [args] [buf] [] EOF []
    ltac:(by constructor; [|apply Forall2_nil]) eq_refl (S (length buf)) 0
    (record_metric s ConnectionOpened) 0 [] 0%nat [reply] idx s') as (sent & Hl & Hsent).
  { cbn [concat app]. rewrite !app_nil_r. lia. }
  { cbn [dispatch_all]. rewrite Hd. done. }
  cbn [concat] in Hl. rewrite !app_nil_r in Hl. cbn [cn_in]. rewrite Hl. orun.
  eexists. split; [reflexivity|]. cbn [map concat app handleReadError] in *. rewrite app_nil_r in *.
  unfold sent_bytes. cbn [cn_sent cn_writer w_out]. rewrite Hsent by done. by rewrite firstn_all.
Qed.

(** A request for a data command of the table, found by name. *)
Lemma wire_request args buf cm pre spec s t As A :
  parses_f64 parseFloat -> NewRegistry maphash parseFloat formatFloat quote E = Some (sv_registry s) ->
  sends args buf -> Resolve (sv_registry s) args = inl cm ->
  (cmd_name cm, (pre, spec)) ∈ meanings parseFloat formatFloat ->
  sess maphash E (session s 0) t As -> As !! 0%nat = Some A -> small A -> Forall go_len args -> pre args ->
  exists t1 t2 t4 reply A' s' c,
    serve maphash E wreck buffered s (new_conn buf) = Ret (s', c) /\ sent_bytes c = encode_reply reply /\
    t <= t1 <= t2 /\ t2 <= t4 /\ spec t1 t2 args A reply A' /\
    sess maphash E (session s' 0) t4 (<[0%nat := A']> As) /\ sv_registry s' = sv_registry s.
Proof.
  intros Hpf Hr Hsend Hres Hm Hs HA Hsm Hgo Hpre.
  destruct (dispatch_served maphash E wreck parseFloat formatFloat quote (record_metric s ConnectionOpened) 0
    args cm pre spec t As A Hpf Hr Hres Hm Hs HA Hsm Hgo Hpre)
    as (t1 & t2 & t3 & t4 & reply & A' & s' & Hd & Ht & Ht3 & Hsp & Hs' & _ & Hsame).
  destruct (one_request args buf s reply 0 s' Hsend Hd) as (c & Hserve & Hout).
  exists t1, t2, t4, reply, A', (record_metric s' ConnectionClosed), c.
  split; [exact Hserve|]. split; [exact Hout|]. split; [exact Ht|]. split; [lia|]. split; [exact Hsp|].
  split; [exact Hs'|]. exact (proj1 Hsame).
Qed.

Lemma table_resolves r name rest cm :
  NewRegistry maphash parseFloat formatFloat quote E = Some r ->
  cm ∈ all_commands maphash parseFloat formatFloat quote E -> map lower_ascii name = cmd_name cm ->
  0 < len name <= maxCommandNameLen -> arity_ok (cmd_arity cm) (len (name :: rest)) ->
  Resolve r (name :: rest) = inl cm.
Proof.
  intros Hr Hcm Hn Hl Ha. apply (Resolve_spec _ _ _ _ _ _ _ _ Hr). exists name, rest.
  exact (conj eq_refl (conj Hn (conj Hl (conj Hcm Ha)))).
Qed.

Lemma sends_words args : args <> [] -> len args <= maxMultiBulkLen -> Forall (λ a, len a <= maxBulkLen) args ->
  exists buf, sends args buf.
Proof. intros Hne Hn Ha. destruct args; [done|]. eexists. split; [reflexivity|]. by split. Qed.

Lemma bulk_go_len a : len a <= maxBulkLen -> go_len a.
Proof. unfold go_len, maxBulkLen. lia. Qed.

(** C6. What a client stores it reads back. The Go client's Set sends its bytes
    over a connection to the server, which parses, locks, runs, logs and answers;
    the client decodes the reply and reports no error. Its Get, on a connection
    opened after that, returns the value that was set and says that it was
    present: from any server state that represents stores, for every key and value
    up to the protocol's limit, whatever their bytes. *)
Theorem client_set_get s t As A key val fuel :
  parses_f64 parseFloat -> NewRegistry maphash parseFloat formatFloat quote E = Some (sv_registry s) ->
  sess maphash E (session s 0) t As -> As !! 0%nat = Some A -> small A ->
  len key <= maxBulkLen -> len val <= maxBulkLen -> (1 <= fuel)%nat ->
  exists set_buf s1 c1,
    client_writeCommand [lit "SET"; key; val] = Some set_buf /\
    serve maphash E wreck buffered s (new_conn set_buf) = Ret (s1, c1) /\
    client_Set (answered s) fuel key val = None /\
    client_Get (answered s1) fuel key = inl (val, true).
Proof.
  intros Hpf Hr Hs HA Hsm Hk Hv Hf.
  assert (len (lit "SET") <= maxBulkLen /\ len (lit "GET") <= maxBulkLen) as [HS HG]
    by (split; vm_compute; discriminate).
  destruct (sends_words [lit "SET"; key; val]) as [b1 Hb1]; [discriminate|vm_compute; discriminate| |].
  { apply Forall_cons; split; [exact HS|]. apply Forall_cons; split; [exact Hk|]. by apply Forall_singleton. }
  destruct (sends_words [lit "GET"; key]) as [b2 Hb2]; [discriminate|vm_compute; discriminate| |].
  { apply Forall_cons; split; [exact HG|]. by apply Forall_singleton. }
  exists b1.
  assert (Resolve (sv_registry s) [lit "SET"; key; val] = inl (writeKey "set" 3 (cmdSet maphash))) as R1.
  { apply table_resolves; [exact Hr| |reflexivity|vm_compute; split; [reflexivity|discriminate]|reflexivity].
    apply (list_elem_of_lookup_2 _ 1). reflexivity. }
  assert (Resolve (sv_registry s) [lit "GET"; key] = inl (readKey "get" 2 (cmdGet maphash E))) as R2.
  { apply table_resolves; [exact Hr| |reflexivity|vm_compute; split; [reflexivity|discriminate]|reflexivity].
    apply (list_elem_of_lookup_2 _ 0). reflexivity. }
  destruct (wire_request _ b1 _ no_pre spec_set s t As A Hpf Hr Hb1 R1) as
    (t1 & t2 & t4 & reply & A' & s1 & c1 & Hs1 & Ho1 & Ht & Ht4 & Hsp & Hss & Hreg1);
    [apply (list_elem_of_lookup_2 _ 1); reflexivity|exact Hs|exact HA|exact Hsm| |exact I|].
  { apply Forall_cons; split; [by apply bulk_go_len|]. apply Forall_cons; split; [by apply bulk_go_len|].
    apply Forall_singleton. by apply bulk_go_len. }
  destruct Hsp as (k & v & [= <-] & [= <-] & -> & ->).
  assert (small (<[key := (AString val, zeroTime)]> A)) as Hsm1.
  { apply map_Forall_insert_2; [|exact Hsm]. unfold maxBulkLen in Hv. cbn. unfold MaxInt64. lia. }
  rewrite <- Hreg1 in R2, Hr.
  destruct (wire_request _ b2 _ no_pre spec_get s1 t4 (<[0%nat := <[key := (AString val, zeroTime)]> A]> As) (<[key := (AString val, zeroTime)]> A) Hpf Hr Hb2 R2) as
    (u1 & u2 & u4 & reply2 & A2 & s2 & c2 & Hs2 & Ho2 & _ & _ & Hsp2 & _);
    [apply (list_elem_of_lookup_2 _ 0); reflexivity|exact Hss| |exact Hsm1| |exact I|].
  { apply list_lookup_insert_eq. by eapply lookup_lt_Some. }
  { apply Forall_cons; split; [by apply bulk_go_len|]. apply Forall_singleton. by apply bulk_go_len. }
  clear R1 R2 Hr. destruct Hsp2 as (k & [= <-] & _ & Hr2). rewrite get_insert_eq in Hr2. cbn in Hr2. subst reply2.
  exists s1, c1. split; [exact (proj1 Hb1)|]. split; [exact Hs1|]. split.
  - unfold client_Set, client_Do. rewrite (proj1 Hb1). unfold answered. rewrite Hs1, Ho1.
    rewrite <- (app_nil_r (encode_reply _)), client_readReply_encode; [done| |exact Hf]. by repeat constructor.
  - unfold client_Get, client_Do. rewrite (proj1 Hb2). unfold answered. rewrite Hs2, Ho2.
    rewrite <- (app_nil_r (encode_reply _)), client_readReply_encode; [done| |exact Hf].
    cbn. unfold maxBulkLen in Hv. unfold MaxInt64. lia.
Qed.
End EndToEnd.

Lemma client_set_get_witness :
  exists s set_buf s1 c1,
    client_writeCommand [lit "SET"; lit "k"; CRLF] = Some set_buf /\
    serve len_hash still_env no_wreck (λ _ r, len r) s (new_conn set_buf) = Ret (s1, c1) /\
    client_Set (answered len_hash still_env no_wreck (λ _ r, len r) s) 1 (lit "k") CRLF = None /\
    client_Get (answered len_hash still_env no_wreck (λ _ r, len r) s1) 1 (lit "k") = inl (CRLF, true).
Proof.
  destruct restart_example_server as (s & Hr & _ & Hs & _). exists s.
  apply (client_set_get len_hash zero_float (λ _, []) id still_env no_wreck (λ _ r, len r)) with
    (t := unix_epoch + 1000) (As := replicate 1 ∅) (A := ∅).
  - intros i r. unfold len. lia.
  - exact zero_float_parses.
  - exact Hr.
  - exact Hs.
  - reflexivity.
  - apply map_Forall_empty.
  - vm_compute. discriminate.
  - vm_compute. discriminate.
  - lia.
Defined.

(** ** The example program (clients/go/example/main.go) *)

Section Example.
(** A connection: what comes back for the bytes of the next request. *)
Context {W : Type} (send : W -> bytes -> bytes * W) (quote : bytes -> bytes) (fuel : nat).

Definition wire_at (w : W) (buf : bytes) : bytes := (send w buf).1.

(** The connection after a command. *)
Definition after_command (w : W) (args : list bytes) : W :=
  match client_writeCommand args with Some buf => (send w buf).2 | None => w end.

(** The lines printed, or the error the program stops with. *)
Definition example_main (w : W) : list bytes + client_error :=
  match client_Ping (wire_at w) fuel with Some e => inr e | None =>
  let w := after_command w [lit "PING"] in
  match client_Set (wire_at w) fuel (lit "greeting") (lit "hello") with Some e => inr e | None =>
  let w := after_command w [lit "SET"; lit "greeting"; lit "hello"] in
  match client_Get (wire_at w) fuel (lit "greeting") with inr e => inr e | inl (v, ok) =>
  let w := after_command w [lit "GET"; lit "greeting"] in
  let line1 := lit "GET greeting -> " ++ quote v ++ lit " (found=" ++ (if ok : bool then lit "true" else lit "false") ++ lit ")" in
  let incr := [lit "INCR"; lit "counter"] in
  match client_Do (wire_at w) fuel incr with inr e => inr e | inl n =>
  let w := after_command w incr in
  let line2 := lit "INCR counter -> " ++ print_value n in
  let push := [lit "RPUSH"; lit "fruits"; lit "apple"; lit "banana"; lit "cherry"] in
  match client_Do (wire_at w) fuel push with inr e => inr e | inl _ =>
  let w := after_command w push in
  match client_Do (wire_at w) fuel [lit "LRANGE"; lit "fruits"; lit "0"; lit "-1"] with inr e => inr e | inl l =>
  inl [line1; line2; lit "LRANGE fruits -> " ++ print_value l]
  end end end end end end.
End Example.

(** One connection to a fresh server, which has flushed the answers to the bytes
    [w] it was sent before: a client that waits for each answer leaves nothing in
    the reader's buffer. *)
Definition fresh_answers (input : bytes) : bytes :=
  match boot still_env (mkDisk None None ∅) with
  | Ret s => answered len_hash still_env no_wreck (λ _ _, 0) s input
  | _ => []
  end.

Definition one_connection (w buf : bytes) : bytes * bytes :=
  (drop (length (fresh_answers w)) (fresh_answers (w ++ buf)), w ++ buf).

(** What the example prints against a fresh server. *)
Example example_prints :
  example_main one_connection (λ s, lit "'" ++ s ++ lit "'") 2 [] =
  inl [lit "GET greeting -> 'hello' (found=true)"; lit "INCR counter -> 1"; lit "LRANGE fruits -> [apple banana cherry]"].
Proof. vm_compute. reflexivity. Qed.
