(* ===== verification/Memcored.v ===== *)
(** * cmd/memcored: the program around the server

    What [run] does once the flags are in the configuration: validate, build the
    registry and the server, start the metrics endpoint, open the data directory,
    bind and serve ([Run] of server.go); and [ping], the container's health check.
    Flags has what comes before, Process what comes after; whether an address can
    be bound is an argument. *)

From S2P Require Import Prelude GoBinary Pack Float64 Skiplist ValueList ValueHash ValueSet ValueZSet.
From S2P Require Import GoTime Value Keyspace Shard Strconv Resp Config Command Session.
From S2P Require Import CommandSpec CollectionSpec Registry Codec Store ServerLocks Server Replay Restart.
From S2P Require Import Growth Incidents Serve Process Client.

Inductive run_error :=
  | InvalidConfig (e : config_error)
  | MetricsListen
  | ServerRecover (e : io_error)
  | ServerListen
  | NotListening.

Section Memcored.
Context (maphash : bytes -> Z) (parseFloat : bytes -> option float64)
  (formatFloat : float64 -> bytes) (quote : bytes -> bytes) (E : Env).

(** ** Starting up (server.go, main.go) *)

(** [Run] up to its accept loop; [coins] are the level draws of recovery. *)
Definition Server_Run (coins : nat -> Z -> list bool) (binds : bool) (s : Server) :
    outcome ((Server * Net) + run_error) :=
  '(s, err) ← openPersistence maphash coins s;
  Ret match err with
      | Some e => inr (ServerRecover e)
      | None =>
          if negb binds then inr ServerListen
          else match Serve_start (bool_decide (is_Some (sv_persist s))) (Listen new_net) with
               | Some n => inl (s, n)
               | None => inr NotListening
               end
      end.

(** [startMetrics]: the recorder is installed before the endpoint is bound. *)
Definition startMetrics (binds : bool) (s : Server) : Server + run_error :=
  let s := SetRecorder s in if binds then inl s else inr MetricsListen.

Definition memcored_run (coins : nat -> Z -> list bool) (cfg : Config) (binds metrics_binds : bool)
    (disk : Disk) : outcome ((Server * Net) + run_error) :=
  match Validate cfg with
  | Some e => Ret (inr (InvalidConfig e))
  | None =>
      match NewRegistry maphash parseFloat formatFloat quote E with
      | None => Panic Explicit
      | Some r =>
          s ← Server_New cfg r disk;
          match (if Met_Enabled (cfg_Metrics cfg) then startMetrics metrics_binds s else inl s) with
          | inr e => Ret (inr e)
          | inl s => Server_Run coins binds s
          end
      end
  end.

(** ** The health check (main.go) *)

Definition ping_request : bytes := lit "*1" ++ CRLF ++ lit "$4" ++ CRLF ++ lit "PING" ++ CRLF.

(** [wire] answers the bytes written; [None] is a healthy server. *)
Definition ping (wire : bytes -> bytes) : option io_error :=
  match ReadFull 7 (wire ping_request) with
  | (inr e, _) => Some e
  | (inl buf, _) =>
      if bool_decide (buf = lit "+PONG" ++ CRLF) then None
      else Some (ErrOther (lit "unexpected ping reply " ++ quote buf))
  end.

(** ** Lemmas *)

Lemma empty_segment_recovers : recovers (one_segment [] 0) [].
Proof. apply (one_segment_recovers [] 0 [] []); [done|by apply Forall_nil|by left]. Qed.

(** Opening an empty directory changes nothing the databases hold. *)
Lemma openPersistence_empty coins s :
  sv_disk s = mkDisk None None ∅ -> sv_persist s = None ->
  exists s', openPersistence maphash coins s = Ret (s', None) /\
    stored (Per_FSync (sv_persistCfg s)) (sv_limits s) None s' /\
    sv_databases s' = sv_databases s /\ sv_tick s' = sv_tick s /\ sv_registry s' = sv_registry s /\
    bool_decide (is_Some (sv_persist s')) = Per_Enabled (sv_persistCfg s) || bool_decide (is_Some (sv_persist s)).
Proof.
  intros Hd Hp. unfold openPersistence. destruct (Per_Enabled _); cbn [negb orb].
  2: { exists s. split; [reflexivity|]. split; [unfold stored; by rewrite Hp|done]. }
  rewrite Hd. change (Open (Per_FSync (sv_persistCfg s)) (sv_limits s) (mkDisk None None ∅))
    with (one_segment [] 0, mkStore (Per_FSync (sv_persistCfg s)) (sv_limits s) 0 []).
  cbv beta iota. unfold Server_recover. cbn [sv_disk set_store sv_limits].
  rewrite empty_segment_recovers. cbn [loadSnapshot one_segment d_snapshot]. orun.
  eexists. split; [reflexivity|]. split; [|done].
  exists (sys_init (Per_FSync (sv_persistCfg s)) (sv_limits s)). split; [apply sys_start|]. by repeat split.
Qed.

Lemma Server_New_fresh cfg r d t :
  1 <= Net_Databases (cfg_Network cfg) -> Net_Databases (cfg_Network cfg) * 8 <= 2 ^ 48 ->
  exists s, Server_New cfg r d = Ret s /\
    Forall2 (λ db A, db_abs maphash db t A) (sv_databases s)
      (replicate (Z.to_nat (Net_Databases (cfg_Network cfg))) ∅) /\
    sv_tick s = 0%nat /\ sv_disk s = d /\ sv_persistCfg s = cfg_Persistence cfg /\ sv_registry s = r /\
    sv_persist s = None /\ sv_limits s = cfg_Limits cfg.
Proof.
  intros Hd Hn. unfold Server_New. rewrite make_slice_ok by exact Hn. orun.
  destruct (Z.ltb_spec (Net_Databases (cfg_Network cfg)) 0); [lia|]. eexists. split; [reflexivity|].
  split; [|done]. cbn [sv_databases]. apply Forall2_replicate, fresh_db.
Qed.

(** A started server answers the health check. *)
Lemma ping_answered wreck buffered s t As A :
  (forall i r, 0 <= buffered i r <= len r) -> parses_f64 parseFloat ->
  NewRegistry maphash parseFloat formatFloat quote E = Some (sv_registry s) ->
  sess maphash E (session s 0) t As -> As !! 0%nat = Some A -> small A ->
  ping (answered maphash E wreck buffered s) = None.
Proof.
  intros Hbuf Hpf Hr Hs HA Hsm.
  assert (sends [lit "PING"] ping_request) as Hsend.
  { split; [reflexivity|]. split; [vm_compute; discriminate|]. apply Forall_singleton. vm_compute. discriminate. }
  assert (Resolve (sv_registry s) [lit "PING"] = inl (plain "ping" (-1) cmdPing)) as R.
  { eapply (table_resolves maphash parseFloat formatFloat quote E); [exact Hr| |reflexivity|vm_compute; split; [reflexivity|discriminate]|].
    - apply list_elem_of_In. unfold all_commands. cbn. tauto.
    - vm_compute. done. }
  destruct (wire_request maphash parseFloat formatFloat quote E wreck buffered Hbuf [lit "PING"] ping_request
    (plain "ping" (-1) cmdPing) no_pre spec_ping s t As A Hpf Hr Hsend R) as
    (t1 & t2 & t4 & reply & A' & s1 & c1 & Hs1 & Ho & _ & _ & [_ Hsp] & _);
    [apply list_elem_of_In; cbn; tauto|exact Hs|exact HA|exact Hsm| |exact I|].
  { apply Forall_singleton. unfold go_len. vm_compute. done. }
  unfold ping, answered. rewrite Hs1, Ho, Hsp. reflexivity.
Qed.

(** The program starts: from a configuration that passes validation, with
    no more databases than an address space holds pointers, on an empty data
    directory and with its addresses free, [run] reaches its accept loop without
    panic or error: its databases are the configured number of empty stores, the
    listener is open, nobody is connected, two background loops run, four with
    persistence, and the health check that a container runs against it passes. *)
Lemma fresh_start coins cfg t wreck buffered :
  Validate cfg = None -> Net_Databases (cfg_Network cfg) * 8 <= 2 ^ 48 ->
  (forall i r, 0 <= buffered i r <= len r) -> parses_f64 parseFloat ->
  t <= env_now E 0 -> (forall i j, (i <= j)%nat -> env_now E i <= env_now E j) ->
  exists s n, memcored_run coins cfg true true (mkDisk None None ∅) = Ret (inl (s, n)) /\
    ready maphash parseFloat formatFloat quote E (Per_FSync (cfg_Persistence cfg)) (cfg_Limits cfg) s t
      (replicate (Z.to_nat (Net_Databases (cfg_Network cfg))) ∅) 0 n /\
    net_listener n = Some true /\ net_conns n = ∅ /\ net_phase n = Accepting /\
    net_loops n = (if Per_Enabled (cfg_Persistence cfg) then 4 else 2)%nat /\
    ping (answered maphash E wreck buffered s) = None.
Proof.
  intros Hv Hn Hbuf Hpf Ht Hm. pose proof (Validate_None_databases cfg Hv) as [Hd _].
  destruct (NewRegistry_all maphash parseFloat formatFloat quote E) as (r & Hr & _).
  destruct (Server_New_fresh cfg r (mkDisk None None ∅) t) as (s0 & Hnew & Hdb & Hk & Hdisk & Hpc & Hreg & Hp & Hlim);
    [lia|exact Hn|].
  set (s1 := if Met_Enabled (cfg_Metrics cfg) then SetRecorder s0 else s0).
  destruct (openPersistence_empty coins s1) as (s & Ho & Hsto & Hdb' & Hk' & Hreg' & Hp');
    [unfold s1; by destruct (Met_Enabled _)..|].
  assert (sv_databases s = sv_databases s0 /\ sv_tick s = 0%nat /\ sv_registry s = r) as (Hdb2 & Hk2 & Hreg2).
  { rewrite Hdb', Hk', Hreg'. unfold s1. clear Hr. destruct (Met_Enabled _); (split; [reflexivity|split; [exact Hk|exact Hreg]]). }
  assert (sess maphash E (session s 0) t (replicate (Z.to_nat (Net_Databases (cfg_Network cfg))) ∅)) as Hs.
  { clear Hr. apply sess_held; [unfold dbs_hold| | |exact Hm]; cbn [session c_databases c_index c_tick];
      rewrite ?Hdb2, ?Hk2; [exact Hdb| |exact Ht].
    apply Forall2_length in Hdb. rewrite length_replicate in Hdb. unfold len. lia. }
  assert (sv_persistCfg s1 = cfg_Persistence cfg /\ sv_persist s1 = None /\ sv_limits s1 = cfg_Limits cfg) as (Hc1 & Hp1 & Hl1)
    by (clear Hr; unfold s1; by destruct (Met_Enabled _)).
  rewrite Hc1, Hl1 in Hsto. rewrite Hc1, Hp1, orb_false_r in Hp'.
  exists s, (set_wg (Listen new_net) ∅ (if Per_Enabled (cfg_Persistence cfg) then 4 else 2)%nat).
  split; [|split; [split; [rewrite Hreg2; exact Hr|]; split; [exact Hs|]; split; [apply Forall_replicate, map_Forall_empty|];
    split; [lia|]; split; [|split; [exact Hsto|]]|]].
  - unfold memcored_run. rewrite Hv, Hr, Hnew. clear Hr. orun. unfold Server_Run.
    replace (if Met_Enabled (cfg_Metrics cfg) then startMetrics true s0 else inl s0) with (inl s1 : Server + run_error)
      by (unfold s1, startMetrics; by destruct (Met_Enabled _)).
    rewrite Ho. orun. cbn [negb Serve_start Listen net_listener new_net].
    rewrite Hp'. by destruct (Per_Enabled (cfg_Persistence cfg)).
  - clear Hr. apply Forall2_length in Hdb. rewrite length_replicate in Hdb. rewrite Hdb2. unfold len, MaxInt64. lia.
  - clear Hr. rewrite Hp'. by destruct (Per_Enabled (cfg_Persistence cfg)).
  - split_and!; [reflexivity..|].
    eapply ping_answered; [exact Hbuf|exact Hpf|rewrite Hreg2; exact Hr|exact Hs| |apply map_Forall_empty].
    apply lookup_replicate. split; [reflexivity|lia].
Qed.
End Memcored.
