(* ===== verification/Flags.v ===== *)
(** * cmd/memcored: the command line

    [run] from its flags on (main.go): Go's flag package as far as it is used
    (string, integer and boolean flags on the default flag set), the text of a
    log level, the addresses, and then the program of Memcored. What an address
    answers to the health check is an argument. *)

From S2P Require Import Prelude GoBinary Pack Float64 Skiplist ValueList ValueHash ValueSet ValueZSet.
From S2P Require Import GoTime Value Keyspace Shard Strconv Resp Config Command Session.
From S2P Require Import CommandSpec CollectionSpec Registry Codec Store ServerLocks Server Replay Restart.
From S2P Require Import Growth Incidents Serve Process Client Memcored.

(** ** strconv.ParseInt(s, 0, 64) *)

Definition lower_char (c : Z) : Z := Z.lor c 32.
Definition dec_char (c : Z) : bool := (48 <=? c) && (c <=? 57).

Definition digit_in (base : Z) (b : byte) : option Z :=
  let c := byte_val b in
  d ← (if dec_char c then Some (c - 48)
       else let l := lower_char c in
            if (97 <=? l) && (l <=? 122) then Some (l - 97 + 10) else None);
  if base <=? d then None else Some d.

(** The digits, underscores skipped. *)
Fixpoint parse_base (base : Z) (s : bytes) (n : Z) : option Z :=
  match s with
  | [] => Some n
  | b :: s =>
      if byte_val b =? 95 then parse_base base s n
      else digit_in base b ≫= λ d, parse_base base s (n * base + d)
  end.

(** [saw] is the kind of the last character: a digit 48, an underscore 95, or
    something else. *)
Fixpoint underscore_scan (hex : bool) (saw : Z) (s : bytes) : bool :=
  match s with
  | [] => negb (saw =? 95)
  | b :: s =>
      let c := byte_val b in
      if dec_char c || hex && (97 <=? lower_char c) && (lower_char c <=? 102) then underscore_scan hex 48 s
      else if c =? 95 then (saw =? 48) && underscore_scan hex 95 s
      else negb (saw =? 95) && underscore_scan hex 33 s
  end.

Definition underscoreOK (s : bytes) : bool :=
  let s := match s with b :: r => if (byte_val b =? 45) || (byte_val b =? 43) then r else s | [] => s end in
  match s with
  | z :: p :: r =>
      let l := lower_char (byte_val p) in
      if (byte_val z =? 48) && ((l =? 98) || (l =? 111) || (l =? 120)) then underscore_scan (l =? 120) 48 r
      else underscore_scan false 94 s
  | _ => underscore_scan false 94 s
  end.

Definition ParseUint0 (s : bytes) : option Z :=
  match s with
  | [] => None
  | b :: r =>
      let '(base, body) :=
        if byte_val b =? 48 then
          match r with
          | p :: ((_ :: _) as r') =>
              let l := lower_char (byte_val p) in
              if l =? 98 then (2, r') else if l =? 111 then (8, r') else if l =? 120 then (16, r') else (8, r)
          | _ => (8, r)
          end
        else (10, s) in
      n ← parse_base base body 0;
      if existsb (λ b, byte_val b =? 95) body && negb (underscoreOK s) then None else Some n
  end.

Definition ParseInt0 (s : bytes) : option Z :=
  match s with
  | [] => None
  | b :: rest =>
      let '(neg, s) :=
        if byte_val b =? 43 then (false, rest)
        else if byte_val b =? 45 then (true, rest) else (false, s) in
      un ← ParseUint0 s;
      if neg : bool
      then if 2 ^ 63 <? un then None else Some (- un)
      else if 2 ^ 63 <=? un then None else Some un
  end.

Definition ParseBool (s : bytes) : option bool :=
  if one_of s (lit <$> ["1"; "t"; "T"; "true"; "TRUE"; "True"]%string) then Some true
  else if one_of s (lit <$> ["0"; "f"; "F"; "false"; "FALSE"; "False"]%string) then Some false
  else None.

Example ParseInt0_examples :
  ParseInt0 (lit "6380") = Some 6380 /\ ParseInt0 (lit "0") = Some 0 /\ ParseInt0 (lit "-0x1F") = Some (-31) /\
  ParseInt0 (lit "0600") = Some 384 /\ ParseInt0 (lit "6_380") = Some 6380 /\ ParseInt0 (lit "6__380") = None /\
  ParseInt0 (lit "08") = None /\ ParseInt0 (lit "0x") = None /\ ParseInt0 (lit "9223372036854775808") = None.
Proof. vm_compute. split_and!; reflexivity. Qed.

(** ** slog.Level *)

Definition LevelDebug : Z := -4.
Definition LevelInfo : Z := 0.
Definition LevelWarn : Z := 4.
Definition LevelError : Z := 8.

(** [fmt.Sprintf("%s%+d", base, val)], unless [val] is zero. *)
Definition level_text (base : bytes) (val : Z) : bytes :=
  if val =? 0 then base else base ++ (if val <? 0 then FormatInt val else lit "+" ++ FormatInt val).

Definition Level_String (l : Z) : bytes :=
  if l <? LevelInfo then level_text (lit "DEBUG") (l - LevelDebug)
  else if l <? LevelWarn then level_text (lit "INFO") (l - LevelInfo)
  else if l <? LevelError then level_text (lit "WARN") (l - LevelWarn)
  else level_text (lit "ERROR") (l - LevelError).

(** The text up to the first sign, and from it on. *)
Fixpoint cut_sign (s : bytes) : bytes * option bytes :=
  match s with
  | [] => ([], None)
  | b :: r =>
      if (byte_val b =? 43) || (byte_val b =? 45) then ([], Some s)
      else let '(name, off) := cut_sign r in (b :: name, off)
  end.

Definition level_named (name : bytes) : option Z :=
  let u := ToUpper name in
  if bool_decide (u = lit "DEBUG") then Some LevelDebug
  else if bool_decide (u = lit "INFO") then Some LevelInfo
  else if bool_decide (u = lit "WARN") then Some LevelWarn
  else if bool_decide (u = lit "ERROR") then Some LevelError
  else None.

(** [UnmarshalText]; [None] is an error. *)
Definition Level_parse (s : bytes) : option Z :=
  let '(name, off) := cut_sign s in
  offset ← match off with Some o => Atoi o | None => Some 0 end;
  l ← level_named name;
  Some (wrap64 (l + offset)).

(** ** Addresses (config.go) *)

Definition JoinHostPort (host port : bytes) : bytes :=
  if existsb (λ b, byte_val b =? 58) host then lit "[" ++ host ++ lit "]:" ++ port
  else host ++ lit ":" ++ port.

Definition Network_Addr (n : Network) : bytes := JoinHostPort (Net_Host n) (Itoa (Net_Port n)).
Definition Metrics_Addr (m : Metrics) : bytes := JoinHostPort (Met_Host m) (Itoa (Met_Port m)).

(** ** The flag set (main.go) *)

(** The variables the flags are bound to. *)
Record Flags := mkFlags { fl_cfg : Config; fl_logLevel : bytes; fl_healthcheck : bool }.

Definition set_network (f : Flags) (n : Network) : Flags :=
  let c := fl_cfg f in
  mkFlags (mkConfig n (cfg_Limits c) (cfg_Expiry c) (cfg_Persistence c) (cfg_Metrics c) (cfg_Log c))
    (fl_logLevel f) (fl_healthcheck f).
Definition set_persistence (f : Flags) (p : Persistence) : Flags :=
  let c := fl_cfg f in
  mkFlags (mkConfig (cfg_Network c) (cfg_Limits c) (cfg_Expiry c) p (cfg_Metrics c) (cfg_Log c))
    (fl_logLevel f) (fl_healthcheck f).
Definition set_metrics (f : Flags) (m : Metrics) : Flags :=
  let c := fl_cfg f in
  mkFlags (mkConfig (cfg_Network c) (cfg_Limits c) (cfg_Expiry c) (cfg_Persistence c) m (cfg_Log c))
    (fl_logLevel f) (fl_healthcheck f).
Definition set_log (f : Flags) (l : LogConfig) : Flags :=
  let c := fl_cfg f in
  mkFlags (mkConfig (cfg_Network c) (cfg_Limits c) (cfg_Expiry c) (cfg_Persistence c) (cfg_Metrics c) l)
    (fl_logLevel f) (fl_healthcheck f).

(** A variable of a flag: how it is read and set. *)
Inductive flag_var :=
  | StringVar (get : Flags -> bytes) (set : Flags -> bytes -> Flags)
  | IntVar (get : Flags -> Z) (set : Flags -> Z -> Flags)
  | BoolVar (get : Flags -> bool) (set : Flags -> bool -> Flags).

Definition net (f : Flags) : Network := cfg_Network (fl_cfg f).
Definition per (f : Flags) : Persistence := cfg_Persistence (fl_cfg f).
Definition met (f : Flags) : Metrics := cfg_Metrics (fl_cfg f).

Definition formal : list (bytes * flag_var) := [
  (lit "host", StringVar (λ f, Net_Host (net f))
    (λ f v, set_network f (mkNetwork v (Net_Port (net f)) (Net_Databases (net f)) (Net_Shards (net f)))));
  (lit "port", IntVar (λ f, Net_Port (net f))
    (λ f v, set_network f (mkNetwork (Net_Host (net f)) v (Net_Databases (net f)) (Net_Shards (net f)))));
  (lit "databases", IntVar (λ f, Net_Databases (net f))
    (λ f v, set_network f (mkNetwork (Net_Host (net f)) (Net_Port (net f)) v (Net_Shards (net f)))));
  (lit "shards", IntVar (λ f, Net_Shards (net f))
    (λ f v, set_network f (mkNetwork (Net_Host (net f)) (Net_Port (net f)) (Net_Databases (net f)) v)));
  (lit "persistence", BoolVar (λ f, Per_Enabled (per f))
    (λ f v, set_persistence f (mkPersistence v (Per_Dir (per f)) (Per_FSync (per f)) (Per_CompactEvery (per f)))));
  (lit "data-dir", StringVar (λ f, Per_Dir (per f))
    (λ f v, set_persistence f (mkPersistence (Per_Enabled (per f)) v (Per_FSync (per f)) (Per_CompactEvery (per f)))));
  (lit "fsync", StringVar (λ f, Per_FSync (per f))
    (λ f v, set_persistence f (mkPersistence (Per_Enabled (per f)) (Per_Dir (per f)) v (Per_CompactEvery (per f)))));
  (lit "metrics", BoolVar (λ f, Met_Enabled (met f))
    (λ f v, set_metrics f (mkMetrics v (Met_Host (met f)) (Met_Port (met f)) (Met_SlowThreshold (met f)))));
  (lit "metrics-port", IntVar (λ f, Met_Port (met f))
    (λ f v, set_metrics f (mkMetrics (Met_Enabled (met f)) (Met_Host (met f)) v (Met_SlowThreshold (met f)))));
  (lit "log-format", StringVar (λ f, Log_Format (cfg_Log (fl_cfg f)))
    (λ f v, set_log f (mkLog (Log_Level (cfg_Log (fl_cfg f))) v)));
  (lit "log-level", StringVar fl_logLevel (λ f v, mkFlags (fl_cfg f) v (fl_healthcheck f)));
  (lit "healthcheck", BoolVar fl_healthcheck (λ f v, mkFlags (fl_cfg f) (fl_logLevel f) v))].

Fixpoint flag_lookup (name : bytes) (fs : list (bytes * flag_var)) : option flag_var :=
  match fs with
  | [] => None
  | (n, v) :: fs => if bool_decide (n = name) then Some v else flag_lookup name fs
  end.

(** ** flag.Parse *)

Inductive flag_error :=
  | BadSyntax (s : bytes)
  | NotDefined (name : bytes)
  | HelpAsked
  | InvalidValue (value name : bytes)
  | NeedsArgument (name : bytes).

Inductive flag_step :=
  | NoFlag (args : list bytes)
  | Next (f : Flags) (args : list bytes)
  | Failed (e : flag_error).

(** The name and the value of "name=value"; the first byte is in the name. *)
Fixpoint cut_equals (s : bytes) : bytes * option bytes :=
  match s with
  | [] => ([], None)
  | b :: r => if byte_val b =? 61 then ([], Some r)
              else let '(n, v) := cut_equals r in (b :: n, v)
  end.

Definition set_var (v : flag_var) (f : Flags) (value : bytes) : option Flags :=
  match v with
  | StringVar _ set => Some (set f value)
  | IntVar _ set => set f <$> ParseInt0 value
  | BoolVar _ set => set f <$> ParseBool value
  end.

(** A flag whose dashes have been taken off, with the arguments after it. *)
Definition parse_flag (f : Flags) (s name : bytes) (rest : list bytes) : flag_step :=
  match name with
  | [] => Failed (BadSyntax s)
  | c :: name' =>
      if (byte_val c =? 45) || (byte_val c =? 61) then Failed (BadSyntax s) else
      let '(n, value) := cut_equals name' in
      let name := c :: n in
      match flag_lookup name formal with
      | None => if one_of name [lit "help"; lit "h"] then Failed HelpAsked else Failed (NotDefined name)
      | Some v =>
          let '(value, rest) :=
            match v, value, rest with
            | BoolVar _ _, None, _ => (Some (lit "true"), rest)
            | _, None, a :: rest => (Some a, rest)
            | _, value, _ => (value, rest)
            end in
          match value with
          | None => Failed (NeedsArgument name)
          | Some value =>
              match set_var v f value with
              | Some f => Next f rest
              | None => Failed (InvalidValue value name)
              end
          end
      end
  end.

Definition parseOne (f : Flags) (args : list bytes) : flag_step :=
  match args with
  | [] => NoFlag []
  | s :: rest =>
      match s with
      | m :: c :: s' =>
          if negb (byte_val m =? 45) then NoFlag args
          else if byte_val c =? 45 then
            match s' with
            | [] => NoFlag rest
            | _ => parse_flag f s s' rest
            end
          else parse_flag f s (c :: s') rest
      | _ => NoFlag args
      end
  end.

(** Every flag takes at least an argument off. [None] is out of fuel. *)
Fixpoint parse_loop (fuel : nat) (f : Flags) (args : list bytes) : option ((Flags * list bytes) + flag_error) :=
  match fuel with
  | O => None
  | S fuel =>
      match parseOne f args with
      | NoFlag args => Some (inl (f, args))
      | Failed e => Some (inr e)
      | Next f args => parse_loop fuel f args
      end
  end.

Definition flag_Parse (f : Flags) (args : list bytes) : option ((Flags * list bytes) + flag_error) :=
  parse_loop (S (length args)) f args.

(** The variables before parsing. *)
Definition default_flags (procs : Z) : Flags :=
  let cfg := Config_Default procs in
  mkFlags cfg (Level_String (Log_Level (cfg_Log cfg))) false.

(** ** run (main.go) *)

Inductive log_handler := JSONHandler (level : Z) | TextHandler (level : Z).

Definition newLogger (c : LogConfig) : log_handler :=
  if bool_decide (Log_Format c = lit "json") then JSONHandler (Log_Level c) else TextHandler (Log_Level c).

(** How the program ends, or that it runs. *)
Inductive main_result :=
  | Started (logger : log_handler) (s : Server) (n : Net)
  | Healthy
  | Unhealthy (e : option io_error)
  | BadLevel
  | RunFailed (e : run_error)
  | UsageExit (e : flag_error).

Definition exit_status (r : main_result) : option Z :=
  match r with
  | Started _ _ _ => None
  | Healthy | UsageExit HelpAsked => Some 0
  | Unhealthy _ | BadLevel | RunFailed _ => Some 1
  | UsageExit _ => Some 2
  end.

Definition with_level (c : Config) (l : Z) : Config :=
  mkConfig (cfg_Network c) (cfg_Limits c) (cfg_Expiry c) (cfg_Persistence c) (cfg_Metrics c)
    (mkLog l (Log_Format (cfg_Log c))).

Section Main.
Context (maphash : bytes -> Z) (parseFloat : bytes -> option float64)
  (formatFloat : float64 -> bytes) (quote : bytes -> bytes) (E : Env).

(** [dial] is what answers at an address, [None] if nobody does. *)
Definition main_run (coins : nat -> Z -> list bool) (dial : bytes -> option (bytes -> bytes))
    (binds metrics_binds : bool) (disk : Disk) (f : Flags) : outcome main_result :=
  let cfg := fl_cfg f in
  if fl_healthcheck f then
    Ret match dial (Network_Addr (cfg_Network cfg)) with
        | None => Unhealthy None
        | Some wire => match ping quote wire with None => Healthy | Some e => Unhealthy (Some e) end
        end
  else
    match Level_parse (fl_logLevel f) with
    | None => Ret BadLevel
    | Some l =>
        let cfg := with_level cfg l in
        r ← memcored_run maphash parseFloat formatFloat quote E coins cfg binds metrics_binds disk;
        Ret match r with
            | inl (s, n) => Started (newLogger (cfg_Log cfg)) s n
            | inr e => RunFailed e
            end
    end.

Definition memcored_main (procs : Z) (coins : nat -> Z -> list bool) (dial : bytes -> option (bytes -> bytes))
    (binds metrics_binds : bool) (disk : Disk) (args : list bytes) : outcome main_result :=
  match flag_Parse (default_flags procs) args with
  | None => Diverge
  | Some (inr e) => Ret (UsageExit e)
  | Some (inl (f, _)) => main_run coins dial binds metrics_binds disk f
  end.
End Main.

(** ** Writing a command line *)

Inductive flag_arg := AString (s : bytes) | AInt (z : Z) | ABool (b : bool).

(** A flag with its value, written with one dash or two, and with the value in
    the same argument or in the next. *)
Record setting := mkSetting {
  st_name : bytes; st_arg : flag_arg; st_double : bool; st_separate : bool }.

Definition arg_text (a : flag_arg) : bytes :=
  match a with
  | AString s => s
  | AInt z => FormatInt z
  | ABool b => if b then lit "true" else lit "false"
  end.

Definition dashed (st : setting) : bytes := (if st_double st then lit "--" else lit "-") ++ st_name st.

Definition render (st : setting) : list bytes :=
  match st_arg st, st_separate st with
  | ABool true, true => [dashed st]
  | AString _, true | AInt _, true => [dashed st; arg_text (st_arg st)]
  | _, _ => [dashed st ++ lit "=" ++ arg_text (st_arg st)]
  end.

(** The flag exists and its value is of its type. *)
Definition setting_ok (st : setting) : Prop :=
  match flag_lookup (st_name st) formal, st_arg st with
  | Some (StringVar _ _), AString _ | Some (BoolVar _ _), ABool _ => True
  | Some (IntVar _ _), AInt z => is_int64 z
  | _, _ => False
  end.

Definition assign (f : Flags) (st : setting) : Flags :=
  match flag_lookup (st_name st) formal, st_arg st with
  | Some (StringVar _ set), AString s => set f s
  | Some (IntVar _ set), AInt z => set f z
  | Some (BoolVar _ set), ABool b => set f b
  | _, _ => f
  end.

(** The value of a flag's variable. *)
Definition current (f : Flags) (name : bytes) : option flag_arg :=
  match flag_lookup name formal with
  | Some (StringVar get _) => Some (AString (get f))
  | Some (IntVar get _) => Some (AInt (get f))
  | Some (BoolVar get _) => Some (ABool (get f))
  | None => None
  end.

(** The last value given for [name], or [d]. *)
Definition given (name : bytes) (ss : list setting) (d : option flag_arg) : option flag_arg :=
  foldl (λ a st, if bool_decide (st_name st = name) then Some (st_arg st) else a) d ss.

(** Arguments that are not flags: none, or the terminator, or a first one that
    does not begin with a dash. *)
Definition stops (args rest : list bytes) : Prop := forall f, parseOne f args = NoFlag rest.

(** ** Lemmas *)

Lemma parse_base_digits s : forall n, Forall is_digit s -> parse_base 10 s n = parse_digits s n.
Proof.
  induction s as [|b s IH]; intros n; [done|]. intros [Hb Hs]%Forall_cons. cbn. unfold is_digit in Hb.
  rewrite (proj2 (Z.eqb_neq (byte_val b) 95)) by lia.
  unfold digit_in, dec_char, digit_val. rewrite (proj2 (Z.leb_le 48 _)), (proj2 (Z.leb_le _ 57)) by lia. cbn.
  rewrite (proj2 (Z.leb_gt 10 _)), (proj2 (Z.leb_le 0 _)), (proj2 (Z.leb_le _ 9)) by lia. cbn. by apply IH.
Qed.

Lemma digits_no_underscore s : Forall is_digit s -> existsb (λ b, byte_val b =? 95) s = false.
Proof.
  induction 1 as [|b s Hb _ IH]; [done|]. cbn. unfold is_digit in Hb.
  by rewrite (proj2 (Z.eqb_neq (byte_val b) 95)), IH by lia.
Qed.

(** A positive number's first digit is not a zero. *)
Lemma digits_head fuel : forall n acc, 0 < n < 10 ^ Z.of_nat fuel ->
  exists b s, digits fuel n acc = b :: s /\ byte_val b <> 48.
Proof.
  induction fuel as [|fuel IH]; intros n acc Hn; [cbn in Hn; lia|]. cbn [digits].
  rewrite Nat2Z.inj_succ, Z.pow_succ_r in Hn by lia. destruct (Z.ltb_spec n 10).
  - eexists _, _. split; [reflexivity|]. rewrite digit_byte_val by apply mod10. rewrite Z.mod_small by lia. lia.
  - apply IH. split; [apply Z.div_str_pos; lia|apply Z.div_lt_upper_bound; lia].
Qed.

Lemma ParseUint0_format n : 0 <= n < 10 ^ 20 -> ParseUint0 (format_nonneg n) = Some n.
Proof.
  intros Hn. destruct (decide (n = 0)) as [->|Hz]; [reflexivity|].
  pose proof (ParseUint_format n Hn) as Hp. unfold format_nonneg in *.
  assert (Forall is_digit (digits 20 n [])) as Hd by (apply digits_all; constructor).
  destruct (digits_head 20 n []) as (b & s & Hs & Hb); [cbn; lia|]. rewrite Hs in *. unfold ParseUint0.
  rewrite (proj2 (Z.eqb_neq (byte_val b) 48)), parse_base_digits by done. cbn [ParseUint] in Hp. rewrite Hp.
  cbn [mbind option_bind]. by rewrite digits_no_underscore.
Qed.

Lemma ParseInt0_FormatInt z : is_int64 z -> ParseInt0 (FormatInt z) = Some z.
Proof.
  unfold is_int64, MinInt64, MaxInt64. intros Hz. unfold FormatInt. destruct (Z.ltb_spec z 0).
  - unfold ParseInt0. change (byte_val (byte_of_Z 45)) with 45. cbn [Z.eqb Pos.eqb].
    rewrite ParseUint0_format by lia. cbn [mbind option_bind]. rewrite (proj2 (Z.ltb_ge _ _)) by lia. f_equal. lia.
  - pose proof (ParseUint0_format z ltac:(lia)) as Hp. destruct (format_nonneg_cons z) as (b & s & Hs & Hb).
    rewrite Hs in *. unfold ParseInt0. unfold is_digit in Hb.
    rewrite (proj2 (Z.eqb_neq (byte_val b) 43)), (proj2 (Z.eqb_neq (byte_val b) 45)), Hp by lia.
    cbn [mbind option_bind]. by rewrite (proj2 (Z.leb_gt _ _)) by lia.
Qed.

(** A flag's name begins with neither a dash nor an equals sign and has no equals
    sign in it. *)
Definition plain_name (name : bytes) : bool :=
  match name with
  | [] => false
  | c :: _ => negb (byte_val c =? 45) && forallb (λ b, negb (byte_val b =? 61)) name
  end.

Lemma formal_names name v : flag_lookup name formal = Some v -> plain_name name = true.
Proof.
  assert (forall fs, forallb (λ p, plain_name p.1) fs = true -> flag_lookup name fs = Some v -> plain_name name = true) as H.
  { induction fs as [|[n w] fs IH]; [done|]. cbn. intros [Hn Hfs]%andb_true_iff. case_bool_decide; [by subst|auto]. }
  apply H. by vm_compute.
Qed.

Lemma cut_equals_plain n : forallb (λ b, negb (byte_val b =? 61)) n = true ->
  cut_equals n = (n, None) /\ forall v, cut_equals (n ++ lit "=" ++ v) = (n, Some v).
Proof.
  induction n as [|b n IH]; [done|]. cbn. intros [Hb Hn]%andb_true_iff. apply negb_true_iff in Hb. rewrite Hb.
  destruct (IH Hn) as [-> IH2]. split; [done|]. intros v. specialize (IH2 v). cbn in IH2. by rewrite IH2.
Qed.

Lemma ParseBool_text b : ParseBool (arg_text (ABool b)) = Some b.
Proof. by destruct b. Qed.

#[local] Arguments formal : simpl never.
#[local] Arguments flag_lookup : simpl never.

Lemma parseOne_dashed f st tail rest :
  plain_name (st_name st) = true ->
  parseOne f ((dashed st ++ tail) :: rest) = parse_flag f (dashed st ++ tail) (st_name st ++ tail) rest.
Proof.
  unfold dashed. destruct (st_name st) as [|c n]; [done|]. intros [Hc _]%andb_true_iff. apply negb_true_iff in Hc.
  destruct (st_double st); [reflexivity|]. cbn. by rewrite Hc.
Qed.

(** A flag with its value in the same argument. *)
Lemma parse_flag_equals f s name v value rest :
  flag_lookup name formal = Some v ->
  parse_flag f s (name ++ lit "=" ++ value) rest =
  match set_var v f value with Some f => Next f rest | None => Failed (InvalidValue value name) end.
Proof.
  intros Hv. pose proof (formal_names _ _ Hv) as Hn. destruct name as [|c n]; [done|].
  cbn [plain_name forallb] in Hn. apply andb_true_iff in Hn as [Hc1 [Hc2 Hn]%andb_true_iff].
  apply negb_true_iff in Hc1, Hc2. unfold parse_flag. cbn [app]. rewrite Hc1, Hc2. cbn [orb].
  destruct (cut_equals_plain n Hn) as [_ Hcut]. cbn [app] in Hcut. rewrite Hcut, Hv. by destruct v.
Qed.

(** A flag without one. *)
Lemma parse_flag_next f s name v rest :
  flag_lookup name formal = Some v ->
  parse_flag f s name rest =
  match v, rest with
  | BoolVar _ set, _ => Next (set f true) rest
  | _, value :: rest => match set_var v f value with Some f => Next f rest | None => Failed (InvalidValue value name) end
  | _, [] => Failed (NeedsArgument name)
  end.
Proof.
  intros Hv. pose proof (formal_names _ _ Hv) as Hn. destruct name as [|c n]; [done|].
  cbn [plain_name forallb] in Hn. apply andb_true_iff in Hn as [Hc1 [Hc2 Hn]%andb_true_iff].
  apply negb_true_iff in Hc1, Hc2. unfold parse_flag. rewrite Hc1, Hc2. cbn [orb].
  destruct (cut_equals_plain n Hn) as [-> _]. rewrite Hv. by destruct v, rest.
Qed.

Lemma set_var_text f st v :
  setting_ok st -> flag_lookup (st_name st) formal = Some v ->
  set_var v f (arg_text (st_arg st)) = Some (assign f st).
Proof.
  unfold setting_ok, assign. intros Hok Hv. rewrite Hv in *.
  destruct v, (st_arg st) as [s|z|b]; try done; unfold set_var; [|by rewrite ParseBool_text].
  cbn [arg_text]. by rewrite ParseInt0_FormatInt.
Qed.

Lemma parseOne_render f st rest :
  setting_ok st -> parseOne f (render st ++ rest) = Next (assign f st) rest.
Proof.
  intros Hok. assert (exists v, flag_lookup (st_name st) formal = Some v) as [v Hv].
  { unfold setting_ok in Hok. destruct (flag_lookup _ _) as [v|]; [by exists v|done]. }
  pose proof (formal_names _ _ Hv) as Hn. pose proof (set_var_text f st v Hok Hv) as Hset.
  assert (parseOne f ((dashed st ++ lit "=" ++ arg_text (st_arg st)) :: rest) = Next (assign f st) rest) as Heq.
  { rewrite parseOne_dashed by done. by rewrite (parse_flag_equals _ _ _ _ _ _ Hv), Hset. }
  assert (forall r, parseOne f (dashed st :: r) = parse_flag f (dashed st) (st_name st) r) as Hnext.
  { intros r. pose proof (parseOne_dashed f st [] r Hn) as H. by rewrite !app_nil_r in H. }
  unfold render. destruct (st_arg st) as [s|z|b] eqn:Ea, (st_separate st); cbn [app]; try exact Heq.
  - rewrite Hnext, (parse_flag_next _ _ _ _ _ Hv), Hset. unfold setting_ok in Hok. rewrite Hv, Ea in Hok. by destruct v.
  - rewrite Hnext, (parse_flag_next _ _ _ _ _ Hv), Hset. unfold setting_ok in Hok. rewrite Hv, Ea in Hok. by destruct v.
  - destruct b; [|exact Heq]. cbn [app]. rewrite Hnext, (parse_flag_next _ _ _ _ _ Hv).
    unfold setting_ok, assign in *. rewrite Hv, Ea in *. by destruct v.
  - by destruct b.
Qed.

Lemma render_length st : (1 <= length (render st))%nat.
Proof. unfold render. destruct (st_arg st) as [| |[]], (st_separate st); cbn; lia. Qed.

Lemma parse_loop_render ss rest rest' : forall f fuel,
  Forall setting_ok ss -> stops rest rest' -> (length (concat (map render ss) ++ rest) < fuel)%nat ->
  parse_loop fuel f (concat (map render ss) ++ rest) = Some (inl (foldl assign f ss, rest')).
Proof.
  induction ss as [|st ss IH]; intros f fuel Hok Hr Hf; (destruct fuel as [|fuel]; [lia|]).
  - cbn. by rewrite Hr.
  - apply Forall_cons in Hok as [Hst Hok]. cbn [map concat parse_loop foldl] in *. rewrite <- app_assoc in *.
    rewrite parseOne_render by done. apply IH; [done..|]. rewrite length_app in Hf. pose proof (render_length st). lia.
Qed.

(** A flag's variable is its own. *)
Lemma current_assign f st name :
  setting_ok st ->
  current (assign f st) name = if bool_decide (st_name st = name) then Some (st_arg st) else current f name.
Proof.
  unfold setting_ok, assign, current. intros Hok. case_bool_decide as Hn.
  - subst name. unfold formal, flag_lookup in *. repeat case_bool_decide; destruct (st_arg st); done.
  - unfold formal, flag_lookup in *.
    repeat (case_bool_decide; [destruct (st_arg st); try done; repeat (case_bool_decide; [first [congruence|reflexivity]|]); reflexivity|]).
    done.
Qed.

(** Parsing always comes to an end. *)
Lemma flag_Parse_total f args : is_Some (flag_Parse f args).
Proof.
  assert (forall f s name rest f' rest', parse_flag f s name rest = Next f' rest' -> (length rest' <= length rest)%nat) as Hp.
  { intros f0 s name rest f' rest'. unfold parse_flag. destruct name as [|c name]; [done|].
    destruct (_ || _); [done|]. destruct (cut_equals name) as [n value]. destruct (flag_lookup _ _) as [v|]; [|by case_match].
    destruct v, value, rest; try done; destruct (set_var _ _ _); try done; intros [= _ <-]; cbn; lia. }
  unfold flag_Parse. assert (length args < S (length args))%nat as Hf by lia. revert Hf.
  generalize (S (length args)) as fuel. intros fuel. revert f args. induction fuel as [|fuel IH]; intros f args Hf; [lia|].
  cbn [parse_loop]. destruct (parseOne f args) as [r|f' r|e] eqn:E1; [by eexists| |by eexists]. apply IH.
  destruct args as [|s rest]; [done|]. cbn [parseOne] in E1. destruct s as [|m [|c s]]; [done..|].
  destruct (negb _); [done|]. destruct (byte_val c =? 45); [destruct s; [done|]|]; apply Hp in E1; cbn in Hf; lia.
Qed.

(** *** The text of a level *)

Lemma ParseInt_plus n : 0 <= n <= MaxInt64 -> ParseInt (lit "+" ++ FormatInt n) = Some n.
Proof.
  unfold MaxInt64. intros Hn. unfold FormatInt. rewrite (proj2 (Z.ltb_ge n 0)) by lia.
  change (lit "+" ++ format_nonneg n) with (Byte.x2b :: format_nonneg n).
  unfold ParseInt. change (byte_val Byte.x2b =? 43) with true. cbv iota beta.
  rewrite ParseUint_format by lia. cbn. by rewrite (proj2 (Z.leb_gt _ _)) by lia.
Qed.

Lemma cut_sign_text base val :
  cut_sign base = (base, None) ->
  cut_sign (level_text base val) =
    (base, if val =? 0 then None else Some (if val <? 0 then FormatInt val else lit "+" ++ FormatInt val)).
Proof.
  intros Hb. unfold level_text. destruct (val =? 0); [done|].
  assert (forall t, (exists b r, t = b :: r /\ (byte_val b = 43 \/ byte_val b = 45)) ->
    cut_sign (base ++ t) = (base, Some t)) as H.
  { intros t (b & r & -> & Hs). induction base as [|x base IH].
    - cbn. by destruct Hs as [->| ->].
    - cbn in Hb |- *. destruct ((byte_val x =? 43) || _); [done|]. destruct (cut_sign base) as [n o].
      injection Hb as -> ->. by rewrite IH. }
  apply H. destruct (Z.ltb_spec val 0); [|by eexists _, _; split; [reflexivity|left]].
  unfold FormatInt. rewrite (proj2 (Z.ltb_lt val 0)) by lia. eexists _, _. split; [reflexivity|by right].
Qed.

Lemma level_text_parse base l val :
  cut_sign base = (base, None) -> level_named base = Some l -> is_int64 val -> is_int64 (l + val) ->
  Level_parse (level_text base val) = Some (l + val).
Proof.
  intros Hb Hl Hv Hs. unfold Level_parse. rewrite cut_sign_text by done. unfold Atoi.
  destruct (Z.eqb_spec val 0) as [->|Hz]; [|destruct (Z.ltb_spec val 0)].
  - cbn [mbind option_bind]. rewrite Hl. cbn. by rewrite wrap64_id.
  - rewrite ParseInt_FormatInt by done. cbn [mbind option_bind]. rewrite Hl. cbn. by rewrite wrap64_id.
  - unfold is_int64 in Hv. rewrite ParseInt_plus by lia. cbn [mbind option_bind]. rewrite Hl. cbn. by rewrite wrap64_id.
Qed.

(** A level's text reads back as the level. *)
Lemma Level_roundtrip l : is_int64 l -> Level_parse (Level_String l) = Some l.
Proof.
  intros Hl. unfold Level_String, LevelInfo, LevelWarn, LevelError, LevelDebug. unfold is_int64, MinInt64, MaxInt64 in *.
  repeat match goal with |- context [?a <? ?b] => destruct (Z.ltb_spec a b) end.
  - rewrite (level_text_parse (lit "DEBUG") (-4)); unfold is_int64, MinInt64, MaxInt64; (reflexivity || lia || (f_equal; lia)).
  - rewrite (level_text_parse (lit "INFO") 0); unfold is_int64, MinInt64, MaxInt64; (reflexivity || lia || (f_equal; lia)).
  - rewrite (level_text_parse (lit "WARN") 4); unfold is_int64, MinInt64, MaxInt64; (reflexivity || lia || (f_equal; lia)).
  - rewrite (level_text_parse (lit "ERROR") 8); unfold is_int64, MinInt64, MaxInt64; (reflexivity || lia || (f_equal; lia)).
Qed.

(** ** Properties *)

(** C25. The command line sets what it names. A command line of any flags of
    memcored with values of their types, each written with one dash or two and
    with its value behind an equals sign or in the next argument, whatever bytes
    a string value has, parses up to the first argument that is not a flag; and
    afterwards every flag's variable has the last value given for it, the
    default where there was none. *)
Theorem flags_roundtrip procs ss rest rest' :
  Forall setting_ok ss -> stops rest rest' ->
  exists f, flag_Parse (default_flags procs) (concat (map render ss) ++ rest) = Some (inl (f, rest')) /\
    forall name, current f name = given name ss (current (default_flags procs) name).
Proof.
  intros Hok Hr. exists (foldl assign (default_flags procs) ss).
  split; [apply parse_loop_render; [done..|lia]|]. intros name. unfold given.
  generalize (default_flags procs) as f. induction Hok as [|st ss Hst _ IH]; intros f; [done|].
  cbn [foldl]. by rewrite IH, current_assign.
Qed.

Lemma stops_nil : stops [] [].
Proof. done. Qed.

Section Start.
Context (maphash : bytes -> Z) (parseFloat : bytes -> option float64)
  (formatFloat : float64 -> bytes) (quote : bytes -> bytes) (E : Env).

Definition healthcheck_flag : setting := mkSetting (lit "healthcheck") (ABool true) false true.

(** C24. The program starts from its command line and its own health check passes.
    The flags make a configuration that passes validation, with no more databases
    than an address space holds pointers; the data directory is empty and the
    addresses are free. Then [main] reaches the accept loop without panic or
    error, with the logger that was asked for: its databases are the configured
    number of empty stores, the listener is open, nobody is connected, two
    background loops run, four with persistence, and it is [ready], so that what
    Process shows of runs holds from here on; and the same command line with
    -healthcheck added exits with status 0 when the address it dials is that
    server's. *)
Theorem command_line_start procs coins ss lvl t wreck buffered :
  let f := foldl assign (default_flags procs) ss in
  let cfg := with_level (fl_cfg f) lvl in
  Forall setting_ok ss -> fl_healthcheck f = false -> Level_parse (fl_logLevel f) = Some lvl ->
  Validate cfg = None -> Net_Databases (cfg_Network cfg) * 8 <= 2 ^ 48 ->
  (forall i r, 0 <= buffered i r <= len r) -> parses_f64 parseFloat ->
  t <= env_now E 0 -> (forall i j, (i <= j)%nat -> env_now E i <= env_now E j) ->
  exists s n,
    (forall dial, memcored_main maphash parseFloat formatFloat quote E procs coins dial true true
      (mkDisk None None ∅) (concat (map render ss)) = Ret (Started (newLogger (cfg_Log cfg)) s n)) /\
    ready maphash parseFloat formatFloat quote E (Per_FSync (cfg_Persistence cfg)) (cfg_Limits cfg) s t
      (replicate (Z.to_nat (Net_Databases (cfg_Network cfg))) ∅) 0 n /\
    net_listener n = Some true /\ net_conns n = ∅ /\ net_phase n = Accepting /\
    net_loops n = (if Per_Enabled (cfg_Persistence cfg) then 4 else 2)%nat /\
    forall dial disk, dial (Network_Addr (cfg_Network cfg)) = Some (answered maphash E wreck buffered s) ->
      exists r, memcored_main maphash parseFloat formatFloat quote E procs coins dial true true disk
        (concat (map render (ss ++ [healthcheck_flag]))) = Ret r /\ exit_status r = Some 0.
Proof.
  intros f cfg Hok Hh Hl Hv Hn Hbuf Hpf Ht Hm.
  assert (forall ss', Forall setting_ok ss' -> flag_Parse (default_flags procs) (concat (map render ss'))
    = Some (inl (foldl assign (default_flags procs) ss', []))) as Hparse.
  { intros ss' Hok'. rewrite <- (app_nil_r (concat _)).
    apply parse_loop_render; [done|apply stops_nil|]. rewrite app_nil_r. lia. }
  destruct (fresh_start maphash parseFloat formatFloat quote E coins cfg t wreck buffered Hv Hn Hbuf Hpf Ht Hm)
    as (s & n & Hrun & Hs & Hli & Hco & Hph & Hlo & Hping).
  exists s, n. split; [|split_and!; [done..|]].
  - intros dial. unfold memcored_main. rewrite Hparse by done. fold f. unfold main_run. rewrite Hh, Hl. fold cfg.
    rewrite Hrun. reflexivity.
  - intros dial disk Hdial. unfold memcored_main. rewrite Hparse.
    2: { apply Forall_app. split; [done|]. apply Forall_singleton. done. }
    rewrite foldl_app. fold f. cbn [foldl]. exists Healthy. split; [|done].
    change (assign f healthcheck_flag) with (mkFlags (fl_cfg f) (fl_logLevel f) true).
    unfold main_run. cbn [fl_healthcheck fl_cfg]. change (cfg_Network cfg) with (cfg_Network (fl_cfg f)) in Hdial.
    rewrite Hdial, Hping. done.
Qed.
End Start.

(** ** Witnesses *)

(** -port=7000 --host ::1 -persistence -log-level=debug -port 7001 *)
Definition example_settings : list setting :=
  [mkSetting (lit "port") (AInt 7000) false false; mkSetting (lit "host") (AString (lit "::1")) true true;
   mkSetting (lit "persistence") (ABool true) false true;
   mkSetting (lit "log-level") (AString (lit "debug")) false false;
   mkSetting (lit "port") (AInt 7001) false true].

Lemma example_settings_ok : Forall setting_ok example_settings.
Proof. repeat constructor; unfold is_int64, MinInt64, MaxInt64; lia. Qed.

Lemma flags_roundtrip_witness :
  exists f, flag_Parse (default_flags 8)
      [lit "-port=7000"; lit "--host"; lit "::1"; lit "-persistence"; lit "-log-level=debug"; lit "-port"; lit "7001";
       lit "--"; lit "-x"] = Some (inl (f, [lit "-x"])) /\
    current f (lit "port") = Some (AInt 7001) /\ current f (lit "fsync") = Some (AString (lit "everysec")).
Proof.
  destruct (flags_roundtrip 8 example_settings [lit "--"; lit "-x"] [lit "-x"] example_settings_ok) as (f & Hp & Hc).
  - intros f. reflexivity.
  - exists f. split; [exact Hp|]. split; [exact (Hc (lit "port"))|exact (Hc (lit "fsync"))].
Defined.

Lemma command_line_start_witness :
  exists s n, memcored_main len_hash zero_float (λ _, []) id still_env 8 (λ _ _, []) (λ _, None) true true
      (mkDisk None None ∅) (concat (map render example_settings)) = Ret (Started (TextHandler (-4)) s n) /\
    net_loops n = 4%nat /\
    exists r, memcored_main len_hash zero_float (λ _, []) id still_env 8 (λ _ _, [])
      (λ a, if bool_decide (a = lit "[::1]:7001") then Some (answered len_hash still_env no_wreck (λ _ r, len r) s) else None)
      true true (mkDisk None None ∅) (concat (map render (example_settings ++ [healthcheck_flag]))) = Ret r /\
      exit_status r = Some 0.
Proof.
  destruct (command_line_start len_hash zero_float (λ _, []) id still_env 8 (λ _ _, []) example_settings (-4)
    (unix_epoch + 1000) no_wreck (λ _ r, len r)) as (s & n & Hrun & _ & _ & _ & _ & Hl & Hh).
  - exact example_settings_ok.
  - reflexivity.
  - reflexivity.
  - reflexivity.
  - vm_compute. discriminate.
  - intros i r. unfold len. lia.
  - exact zero_float_parses.
  - cbn. lia.
  - intros i j _. cbn. lia.
  - exists s, n. split; [exact (Hrun (λ _, None))|]. split; [exact Hl|]. apply Hh. reflexivity.
Defined.
